(* ===== verification/_CoqProject ===== *)
-Q . S2P
Prelude.v
Program.v
Frame.v
Machine.v
Scenarios.v
MachineInv.v
MachineStep.v
MachineJoin.v
MachineSafe.v
MachineHost.v
MachineProps.v
Authority.v
Stream.v
Link.v
Analysis.v
Text.v
Path.v
Collection.v
ValueList.v
ValueMap.v
Value.v
Event.v
Utf8.v
Validation.v
Workspace.v
Grammar.v
MemoryKeys.v
Cap.v
CapText.v
Order.v
Grant.v
GrantPlan.v
Policy.v
GrantIndex.v
KernelHandles.v
KernelTable.v
KernelInsert.v
KernelProps.v
Source.v
Portable.v
PortableLower.v
PortableCode.v
PortableSpec.v
PortableShape.v
PortableProgram.v
PortableProps.v
Solo.v
Taint.v
Document.v
Reading.v
Schema.v
Builder.v
Materialize.v
Evidence.v
SoloStep.v
SoloTurn.v
PortableEval.v
PortableRun.v
Provenance.v
ProvenanceProps.v
Runtime.v
RuntimeInv.v
RuntimeProps.v
RuntimeTrace.v
