(* ===== verification/Prelude.v ===== *)
(** * Xolotl: a verification development

    Xolotl runs programs on a small execution core, gives them access to resources through
    capabilities, and passes values between them. This library models
    the execution core (crates/xolotl-core), the addressing, capability, grant and value
    types (crates/xolotl-types), the portable compiler (crates/xolotl-graph) and the authority
    side of the kernel (crates/xolotl-kernel) as executable definitions, and proves what makes
    them correct.

    ** The program and its model

    A _host_ loads a program image, creates an execution over storage it supplies, and calls
    [advance] until the execution asks for something; it answers with [complete]. The core
    never calls the host. A linked execution checks each request against a handle table, in
    which handles are derived with fewer rights, released and revoked. Outside the core, a
    grant names resources by a capability pattern; the kernel compiles the grants that match
    an open into a handle with residual checks. Programs are written in a portable source
    algebra and compiled to images; the kernel runs them on values that carry their provenance,
    in a cooperative loop that starts and polls the calls of a driver. Between processes a value
    travels as a document of events; a validator checks them one by one against a grammar, and a
    builder makes a value with its recorded provenance of those that pass.

    Each file opens with the sources it models.
    - Prelude: machine integers, slices, results, the state and error monad [comp] with its
      predicates [wp] (total correctness) and [wlp] (partial), shared lemmas, tactics and hint
      databases.
    - Program: images, admission, maps over instructions, the [Values] interface of hosts
      (program.rs, program/indices.rs).
    - Frame: the arena of continuation frames (frame.rs).
    - Machine: executions (machine.rs, machine/references.rs). MachineInv states the invariant,
      MachineStep, MachineJoin and MachineSafe prove that transitions and scheduling keep it,
      MachineHost does so for the calls of a host, MachineProps states the consequences.
      Scenarios instantiates the host of the crate's tests for the witnesses.
    - Authority: the core's handle table and its slot rules (authority.rs, authority/slot.rs).
    - Stream, Link, Analysis: channels, linked programs, resource analysis (stream.rs, link.rs,
      analysis.rs).
    - Text and Order: the parts of Rust's [str], [i64], [f64], [Ord] and slice sorting that
      the sources use.
    - Path: paths, identifiers, wildcard matching (path.rs, path/).
    - Collection, ValueList, ValueMap, Value: persistent collections and values
      (value/collection/, value.rs, value/resident.rs).
    - Event, Utf8, Validation: the events of a document, the incremental check of UTF-8 and the
      validator with its frames, transactions and effects (value/event.rs,
      value/event/validation.rs, validation/). Workspace is the interface to the storage of map
      keys, with its laws, and the loop that serves the validator's effects (xolotl-value-codec
      validation.rs). Grammar is a machine that reads documents as trees, and shows that the
      validator follows it. MemoryKeys is the paged store of keys (validation/memory.rs).
    - Document says which tree a value has; Reading, which tokens the machine reads. Schema
      states the grammar that event.rs documents and shows that it is what the machine reads.
    - Builder: materialisation of documents (value/event/builder.rs, builder/). Materialize
      relates its frames to the trees that the machine is reading.
    - Cap, CapText: capabilities and their literals (cap.rs).
    - Grant: grants, rights, selectors (grant.rs, parts of resource.rs).
    - GrantPlan, Policy, GrantIndex: planning of request grants (bootstrap.rs), residual checks
      (policy.rs, open/authority.rs), the registry's grant indexes and name resolution
      (registry.rs).
    - KernelHandles: the kernel's handle table (handle.rs of the kernel). KernelTable and
      KernelInsert prove its invariant, KernelProps states the consequences.
    - Source, Portable: portable programs, structural admission, the compiler, transforms
      (xolotl-graph portable.rs, portable/shape.rs, parts of graph.rs and failure.rs).
      PortableLower shows that the compiler's explicit stack is a recursion, PortableCode says
      what the code of an expression is, PortableSpec, PortableShape and PortableProgram
      specify the compiler's parts, PortableProps states the consequences.
    - Taint: provenance and the kernel's runtime values (taint.rs, values.rs).
    - Solo, SoloStep, SoloTurn: an execution of one task, up to provenance, as steps of a small
      configuration. PortableEval evaluates source expressions and relates their code to those
      steps; PortableRun joins compiler, machine and evaluator.
    - Provenance, ProvenanceProps: the label of an execution's input is never lost.
    - Evidence: outputs of executions and the record of unresolved operations (execution.rs).
    - Runtime: the kernel's loop over a linked execution (runtime.rs, runtime/cooperate.rs).
      RuntimeInv relates the calls in its slots to the requests of the machine, for any ledger
      that the driver's world keeps; RuntimeProps and RuntimeTrace state the consequences, the
      latter of the log that any driver can be made to keep.

    ** Conventions

    A method that mutates is a computation [comp S X A] over the state of its object, with the
    early returns of the code as [throw]. What the code must never do is a [Stop]: an index
    out of bounds, arithmetic out of its width, a failed debug assertion, a loop that outlives
    its bound. A theorem in [wp] form, or one that says that a call does not stop, excludes
    all of them, so running out of fuel is never a way to satisfy a theorem. Unsigned
    integers are [N], with their widths written where the source tests or could leave them;
    [usize] has 64 bits. Strings are lists of bytes. Hash maps are finite maps where the code
    does not depend on their order. Names are those of the source, with a prefix where two
    types share a method name.

    ** What the theorems show

    - The machine (C1 to C6, C9, C12, C24): admission is exact; the arena refines one stack per
      task; no sequence of calls crashes an execution; answers are truthful, those to another
      image included, and come within the step budgets; responses are atomic and tickets
      single-use; cleanups start and keep the outcome of their body; suspension keeps the state.
      Unnumbered theorems say that cancellation reaches exactly the subtree, that a finished
      execution stays so and that the end of the root frees every other task.
    - The hosted loop (C8, C14, C20, C23): polling reports the machine's own result and never
      leaves the executor asleep; a driver is asked to act only with authority; every call is
      accounted for once; evidence is never lost silently.
    - Portable programs (C29, C32, C11, C19): a compiled image is the code of its source,
      compilation accepts exactly the sources within its limits and its errors name their
      defects, the limits bound what it makes, and running the image of a source without
      concurrent branches, with no limit of steps and a host that answers at once, returns the
      payload that evaluating the source returns.
    - Provenance (C18): whatever a host does, the sources that tainted the input of an execution
      taint its requests and its result.
    - Handles of the core (C15 to C17, C21): authorization is exact, delegation attenuates,
      revocation is final and transitive, counts are exact. Unnumbered theorems say that keys
      are fresh and that revocation and release spare all other handles.
    - Streams and analysis (C22, C27): a channel is a bounded queue; the analysis finds the
      cycles and forks of a module and solves the equations of its instructions. Unnumbered
      theorems say that a linked execution asks only for what its owner may do, and not after
      revocation.
    - Value documents (C7, C10, C25, C28): the validator accepts exactly the documents of
      the grammar over any lawful storage of keys, the paged store is one, the builder accepts
      exactly the documents of well-formed values within its limits, however the data is cut
      into chunks, and builds the value whose document it was. C28 is an exception found: a reserved
      scheme that the validator lets through.
    - Paths, values, capabilities (C30, C31, C34, C36 to C38): texts and paths correspond, the
      persistent list and map refine sequences and
      finite maps, attenuation never widens (C37 is the exception found), capability literals
      round-trip.
    - Grants in the kernel (C13, C39, C40): indexes lose no applicable grant, planned grants
      stay below their parents, compiled checks allow what some grant allows.
    - Handles of the kernel (C26, C33, C35): the table with its free list and owner index never
      stops, derivation attenuates and is revocable, process cleanup is exact.

    ** Bounds and fuel

    Loops that the code bounds by a counter recurse on it. [advance] takes fuel and C5 shows
    that the step budgets suffice; cancellation and reclamation loops take the number of tasks
    or slots, which the invariants show to be enough; the wildcard matcher, the analysis and
    the grant loops have measures proved to decrease. The height of the persistent index is
    bounded by 91 for any length that [usize] can hold. The compiler's loop takes two turns
    for every expression and its structural admission three, which the equivalence with the
    recursion and the charge of a program show to be enough. The evaluator recurses on the
    nesting of expressions and calls, and says why where it gives no result; C19 asks for two
    continuations per level, and its driver ends for some fuel. The hosted loop recurses on
    its quantum and its slots. The effects of an event take at most three turns of the loop
    that serves them, copies and comparisons of keys at most one per byte. The theorems about
    documents ask for less than 2^64 tokens, so that key identities and lengths do not leave
    64 bits.

    ** Arguments

    The charge of a resident constant, the fingerprint of an image, the numbers of the JSON
    library, the comparison of values that follows shared storage, and the [Display] and
    [Debug] texts of failures and transforms are arguments of the definitions that use them.
    A host's operations are an argument of the evaluator and of the driver in C19. The driver
    of the hosted loop, its calls, the waker and the scheduler are arguments acting on a world
    of any type, of which nothing is assumed but that they return. The capacity that the
    allocator gives a page of keys is an argument, at least the size that was asked for.

    ** Not modelled

    Concurrency and asynchrony other than the cooperative loop: the kernel's actors, locks,
    the drop of retired payloads outside them, and the drivers themselves. Storage, networks,
    gateways, the console and the daemon: input and output around libraries outside the
    sources. Serde formats, hashing and [Debug] output. Allocation failure, and the sharing of
    persistent nodes, which the operations cannot observe. The cursor that emits the events of
    a resident value, and the CBOR framing of events, whose headers a package outside the
    sources encodes. The compiler of native graphs, the planner, state and federation crates.
    The evaluator gives no account of parallel branches and of modules that the host expands
    while a program runs: the theorems about the machine cover them. *)

From stdpp Require Import base numbers list option.

(** ** Machine integers

    Unsigned Rust integers are binary naturals; every place where the source
    could leave the width is written out with [checked_add] and its relatives. *)

Definition u32_max : N := 4294967295.
Definition u64_max : N := 18446744073709551615.

(** The development fixes a 64-bit target. *)
Definition usize_max : N := u64_max.

(** [checked_add] at a width given by its largest value. *)
Definition checked_add (max a b : N) : option N :=
  if (a + b <=? max)%N then Some (a + b)%N else None.

(** [checked_sub]: no width is needed below zero. *)
Definition checked_sub (a b : N) : option N :=
  if (b <=? a)%N then Some (a - b)%N else None.

Definition checked_mul (max a b : N) : option N :=
  if (a * b <=? max)%N then Some (a * b)%N else None.

Definition saturating_add (max a b : N) : N := N.min max (a + b).

(** [saturating_sub] is the truncated subtraction of [N]. *)
Definition saturating_sub (a b : N) : N := (a - b)%N.

(** [u32::try_from]. *)
Definition u32_try_from (n : N) : option N := if (n <=? u32_max)%N then Some n else None.

(** ** Slices *)

Definition len {A} (l : list A) : N := N.of_nat (length l).

(** Rust's [slice.get(i)]: the bound is tested before the index is used, so a
    sentinel such as [u32::MAX] costs nothing to evaluate. *)
Definition get {A} (l : list A) (i : N) : option A :=
  if (i <? len l)%N then l !! N.to_nat i else None.

(** [slice[i] = x] for an index in range. *)
Definition upd {A} (l : list A) (i : N) (x : A) : list A := <[N.to_nat i := x]> l.

(** [0..n] as a list of indices. *)
Fixpoint range_from (start : N) (count : nat) : list N :=
  match count with
  | O => []
  | S n => start :: range_from (N.succ start) n
  end.

Definition range (n : N) : list N := range_from 0 (N.to_nat n).

(** ** Results *)

(** Rust's [Result<A, E>] as data. *)
Inductive Result (A E : Type) : Type :=
| Ok (a : A)
| Err (e : E).
Arguments Ok {A E} _.
Arguments Err {A E} _.

Definition result_bind {A B E} (r : Result A E) (k : A -> Result B E) : Result B E :=
  match r with
  | Ok a => k a
  | Err e => Err e
  end.

Definition ok_or {A E} (o : option A) (e : E) : Result A E :=
  match o with
  | Some a => Ok a
  | None => Err e
  end.

Definition is_ok {A E} (r : Result A E) : bool :=
  match r with Ok _ => true | Err _ => false end.

(** [iter.map(f).collect::<Result<_, _>>()]: the first error ends it. *)
Section try_map.
Context {A B E : Type} (f : A -> Result B E).
Fixpoint try_map (l : list A) : Result (list B) E :=
  match l with
  | [] => Ok []
  | a :: l' => result_bind (f a) (fun b => result_bind (try_map l') (fun bs => Ok (b :: bs)))
  end.
End try_map.

Declare Scope result_scope.
Delimit Scope result_scope with result.
Notation "'let?' x := r 'in' k" := (result_bind r (fun x => k))
  (at level 10, x pattern, r at level 100, k at level 200) : result_scope.

(** ** Computations

    Stateful, fallible code is a function from a state to an [outcome].  [Throw]
    is Rust's early return through [?]: the mutations made before it stay.
    [Stop] is what the code must never do: index out of bounds, leave an integer's
    width, run a loop past any bound, or fail a debug assertion. *)

Inductive stop : Type :=
| OutOfBounds
| Overflow
| Unbounded
| AssertionFailed.

Inductive outcome (S X A : Type) : Type :=
| Val (a : A) (s : S)
| Throw (x : X) (s : S)
| Stop (why : stop).
Arguments Val {S X A} _ _.
Arguments Throw {S X A} _ _.
Arguments Stop {S X A} _.

Definition comp (S X A : Type) : Type := S -> outcome S X A.

Definition ret {S X A} (a : A) : comp S X A := fun s => Val a s.
Definition throw {S X A} (x : X) : comp S X A := fun s => Throw x s.
Definition halt {S X A} (why : stop) : comp S X A := fun _ => Stop why.
Definition gets {S X A} (f : S -> A) : comp S X A := fun s => Val (f s) s.
Definition modify {S X} (f : S -> S) : comp S X unit := fun s => Val tt (f s).

Definition bind {S X A B} (c : comp S X A) (k : A -> comp S X B) : comp S X B :=
  fun s => match c s with
           | Val a s' => k a s'
           | Throw x s' => Throw x s'
           | Stop why => Stop why
           end.

(** An [Option] that the code unwraps by indexing: [None] stops the program. *)
Definition expect {S X A} (o : option A) (why : stop) : comp S X A :=
  match o with
  | Some a => ret a
  | None => halt why
  end.

(** [opt.ok_or(fault)?] and [result?]. *)
Definition require {S X A} (o : option A) (x : X) : comp S X A :=
  match o with
  | Some a => ret a
  | None => throw x
  end.

Definition lift_result {S X A} (r : Result A X) : comp S X A :=
  match r with
  | Ok a => ret a
  | Err x => throw x
  end.

(** A call whose [Result] the caller inspects instead of returning early. *)
Definition attempt {S X Y A} (c : comp S X A) : comp S Y (Result A X) :=
  fun s => match c s with
           | Val a s' => Val (Ok a) s'
           | Throw x s' => Val (Err x) s'
           | Stop why => Stop why
           end.

(** A call that owns its state: a local variable passed by [&mut]. *)
Definition run_local {S T X A} (c : comp T X A) (t : T) : comp S X A :=
  match c t with
  | Val a _ => ret a
  | Throw x _ => throw x
  | Stop why => halt why
  end.

Declare Scope comp_scope.
Delimit Scope comp_scope with comp.
Notation "'let*' x := c 'in' k" := (bind c (fun x => k))
  (at level 10, x pattern, c at level 100, k at level 200) : comp_scope.
Notation "c1 ;;; c2" := (bind c1 (fun _ => c2))
  (at level 199, right associativity) : comp_scope.

(** A [for] loop over a list of indices whose body may return early. *)
Fixpoint for_each {S X A} (l : list A) (body : A -> comp S X unit) : comp S X unit :=
  match l with
  | [] => ret tt
  | a :: l' => bind (body a) (fun _ => for_each l' body)
  end.

(** ** Weakest preconditions

    [wp c Q R s]: from [s], [c] does not stop; a value satisfies [Q] and an
    early return satisfies [R].  It is a total-correctness statement. *)
Definition wp {S X A} (c : comp S X A) (Q : A -> S -> Prop) (R : X -> S -> Prop)
    (s : S) : Prop :=
  match c s with
  | Val a s' => Q a s'
  | Throw x s' => R x s'
  | Stop _ => False
  end.

Section wp_rules.
Context {S X : Type}.
Implicit Types s : S.

Lemma wp_ret {A} (a : A) (Q : A -> S -> Prop) (R : X -> S -> Prop) s :
  Q a s -> wp (ret a) Q R s.
Proof. done. Qed.

Lemma wp_throw {A} (x : X) (Q : A -> S -> Prop) (R : X -> S -> Prop) s :
  R x s -> wp (throw x) Q R s.
Proof. done. Qed.

Lemma wp_gets {A} (f : S -> A) (Q : A -> S -> Prop) (R : X -> S -> Prop) s :
  Q (f s) s -> wp (gets f) Q R s.
Proof. done. Qed.

Lemma wp_modify (f : S -> S) (Q : unit -> S -> Prop) (R : X -> S -> Prop) s :
  Q tt (f s) -> wp (modify f) Q R s.
Proof. done. Qed.

Lemma wp_bind {A B} (c : comp S X A) (k : A -> comp S X B) Q R s :
  wp c (fun a s' => wp (k a) Q R s') R s -> wp (bind c k) Q R s.
Proof. unfold wp, bind. by destruct (c s). Qed.

Lemma wp_mono {A} (c : comp S X A) (Q Q' : A -> S -> Prop) (R R' : X -> S -> Prop) s :
  wp c Q R s ->
  (forall a s', Q a s' -> Q' a s') ->
  (forall x s', R x s' -> R' x s') ->
  wp c Q' R' s.
Proof. unfold wp. destruct (c s); naive_solver. Qed.

Lemma wp_expect {A} (o : option A) why a (Q : A -> S -> Prop) (R : X -> S -> Prop) s :
  o = Some a -> Q a s -> wp (expect o why) Q R s.
Proof. by intros ->. Qed.

Lemma wp_require {A} (o : option A) (x : X) (Q : A -> S -> Prop) (R : X -> S -> Prop) s :
  (forall a, o = Some a -> Q a s) -> (o = None -> R x s) -> wp (require o x) Q R s.
Proof. destruct o; unfold wp; simpl; auto. Qed.

Lemma wp_lift_result {A} (r : Result A X) (Q : A -> S -> Prop) (R : X -> S -> Prop) s :
  (forall a, r = Ok a -> Q a s) -> (forall x, r = Err x -> R x s) ->
  wp (lift_result r) Q R s.
Proof. destruct r; unfold wp; simpl; auto. Qed.

Lemma wp_attempt {Y A} (c : comp S X A) (Q : Result A X -> S -> Prop) (R : Y -> S -> Prop) s :
  wp c (fun a => Q (Ok a)) (fun x => Q (Err x)) s -> wp (attempt c) Q R s.
Proof. unfold wp, attempt. by destruct (c s). Qed.

Lemma wp_run_local {T A} (c : comp T X A) (t : T) (Q : A -> S -> Prop) (R : X -> S -> Prop) s :
  wp c (fun a _ => Q a s) (fun x _ => R x s) t -> wp (run_local c t) Q R s.
Proof. unfold wp, run_local. by destruct (c t). Qed.

(** A [for] loop keeps an invariant that every turn of its body keeps. *)
Lemma wp_for_each {A} (l : list A) (body : A -> comp S X unit) (I : S -> Prop)
    (R : X -> S -> Prop) s :
  (forall a s, a ∈ l -> I s -> wp (body a) (fun _ => I) R s) ->
  I s -> wp (for_each l body) (fun _ => I) R s.
Proof.
  revert s. induction l as [|a l IH]; intros s Hbody Hs; [done|].
  simpl. apply wp_bind. eapply wp_mono.
  - apply Hbody; [by left | done].
  - intros [] s' Hs'. apply IH; [|done]. intros. apply Hbody; [by right | done].
  - done.
Qed.

(** A [for] loop over [0..n], with an invariant indexed by the turns made. *)
Lemma wp_for_range n (body : N -> comp S X unit) (I : N -> S -> Prop) (R : X -> S -> Prop) s :
  (forall k s, (k < n)%N -> I k s -> wp (body k) (fun _ => I (k + 1)%N) R s) ->
  I 0%N s -> wp (for_each (range n) body) (fun _ => I n) R s.
Proof.
  intros Hbody. unfold range. assert (forall m k s, (k + N.of_nat m = n)%N -> I k s ->
    wp (for_each (range_from k m) body) (fun _ => I n) R s) as Haux.
  { induction m as [|m IH]; intros k s' Hk Hs.
    - simpl. replace n with k by lia. done.
    - simpl. apply wp_bind. eapply wp_mono; [apply Hbody; [lia|done]| |done].
      intros [] s'' Hs''. apply IH; [lia|]. by rewrite <- N.add_1_r. }
  intros Hs. apply Haux; [lia|done].
Qed.

(** What a total-correctness statement says of an evaluation. *)
Lemma wp_val {A} (c : comp S X A) Q R s a s' :
  wp c Q R s -> c s = Val a s' -> Q a s'.
Proof. unfold wp. intros H E. by rewrite E in H. Qed.

Lemma wp_of_val {A} (c : comp S X A) (Q : A -> S -> Prop) (R : X -> S -> Prop) s a s' :
  c s = Val a s' -> Q a s' -> wp c Q R s.
Proof. unfold wp. by intros ->. Qed.

Lemma wp_of_throw {A} (c : comp S X A) (Q : A -> S -> Prop) (R : X -> S -> Prop) s x s' :
  c s = Throw x s' -> R x s' -> wp c Q R s.
Proof. unfold wp. by intros ->. Qed.

Lemma wp_thrown {A} (c : comp S X A) Q R s x s' :
  wp c Q R s -> c s = Throw x s' -> R x s'.
Proof. unfold wp. intros H E. by rewrite E in H. Qed.
End wp_rules.

(** ** Partial correctness *)

(** Like [wp], but a computation may stop. *)
Definition wlp {S X A} (c : comp S X A) (Q : A -> S -> Prop) (R : X -> S -> Prop) (s : S) : Prop :=
  match c s with
  | Val a s' => Q a s'
  | Throw x s' => R x s'
  | Stop _ => True
  end.

Section wlp.
Context {S X : Type}.

Lemma wlp_bind {A B} (c : comp S X A) (k : A -> comp S X B) Q R s :
  wlp c (fun a => wlp (k a) Q R) R s -> wlp (bind c k) Q R s.
Proof. unfold wlp, bind. by destruct (c s). Qed.

Lemma wlp_ret {A} (a : A) (Q : A -> S -> Prop) (R : X -> S -> Prop) s : Q a s -> wlp (ret a) Q R s.
Proof. done. Qed.

Lemma wlp_throw {A} (x : X) (Q : A -> S -> Prop) (R : X -> S -> Prop) s : R x s -> wlp (throw x) Q R s.
Proof. done. Qed.

Lemma wlp_mono {A} (c : comp S X A) (Q Q' : A -> S -> Prop) (R R' : X -> S -> Prop) s :
  wlp c Q R s -> (forall a s', Q a s' -> Q' a s') -> (forall x s', R x s' -> R' x s') -> wlp c Q' R' s.
Proof. unfold wlp. destruct (c s); auto. Qed.

Lemma wlp_of_wp {A} (c : comp S X A) (Q Q' : A -> S -> Prop) (R R' : X -> S -> Prop) s :
  wp c Q R s -> wlp c Q' R' s ->
  wlp c (fun a s' => Q a s' /\ Q' a s') (fun x s' => R x s' /\ R' x s') s.
Proof. unfold wp, wlp. by destruct (c s). Qed.

Lemma wp_and_wlp {A} (c : comp S X A) (Q Q' : A -> S -> Prop) (R R' : X -> S -> Prop) s :
  wp c Q R s -> wlp c Q' R' s ->
  wp c (fun a s' => Q a s' /\ Q' a s') (fun x s' => R x s' /\ R' x s') s.
Proof. unfold wp, wlp. by destruct (c s). Qed.

Lemma wlp_expect {A} (o : option A) why (Q : A -> S -> Prop) (R : X -> S -> Prop) s :
  (forall a, o = Some a -> Q a s) -> wlp (expect o why) Q R s.
Proof. unfold wlp, expect. destruct o; simpl; auto. Qed.

Lemma wlp_require {A} (o : option A) (x : X) (Q : A -> S -> Prop) (R : X -> S -> Prop) s :
  (forall a, o = Some a -> Q a s) -> R x s -> wlp (require o x) Q R s.
Proof. unfold wlp, require. destruct o; simpl; auto. Qed.

Lemma wlp_lift_result {A} (r : Result A X) (Q : A -> S -> Prop) (R : X -> S -> Prop) s :
  (forall a, r = Ok a -> Q a s) -> (forall x, R x s) -> wlp (lift_result r) Q R s.
Proof. unfold wlp, lift_result. destruct r; simpl; auto. Qed.

Lemma wlp_attempt {Y A} (c : comp S X A) (Q : Result A X -> S -> Prop) (R : Y -> S -> Prop) s :
  wlp c (fun a => Q (Ok a)) (fun x => Q (Err x)) s -> wlp (attempt c) Q R s.
Proof. unfold wlp, attempt. by destruct (c s). Qed.

Lemma wlp_for_each {A} (l : list A) (body : A -> comp S X unit) (I : S -> Prop) (R : X -> S -> Prop) s :
  I s -> (forall a s, I s -> wlp (body a) (fun _ => I) R s) -> wlp (for_each l body) (fun _ => I) R s.
Proof.
  intros HI Hbody. revert s HI. induction l as [|a l IH]; intros s HI; [done|].
  apply wlp_bind. eapply wlp_mono; [by apply Hbody| |done]. auto.
Qed.

(** After a step of which nothing is known. *)
Lemma wlp_any {A B} (c : comp S X A) (k : A -> comp S X B) (Q : B -> S -> Prop) s :
  (forall a s', wlp (k a) Q (fun _ _ => True) s') -> wlp (bind c k) Q (fun _ _ => True) s.
Proof. intros Hk. apply wlp_bind. unfold wlp at 1. by destruct (c s). Qed.
End wlp.

(** ** Equivalence of computations

    Two computations are equivalent when they have the same outcome from every state. *)
Definition comp_eq {S X A} (c1 c2 : comp S X A) : Prop := forall s, c1 s = c2 s.
Infix "≃" := comp_eq (at level 70, no associativity) : comp_scope.

Section comp_eq.
Local Open Scope comp_scope.
Context {S X : Type}.

#[export] Instance comp_eq_equivalence {A} : Equivalence (comp_eq (S := S) (X := X) (A := A)).
Proof. split; [by intros c s|by intros c1 c2 H s|]. intros c1 c2 c3 H1 H2 s. by rewrite H1. Qed.

#[export] Instance bind_proper {A B} :
  Proper (comp_eq ==> pointwise_relation A comp_eq ==> comp_eq) (bind (S := S) (X := X) (B := B)).
Proof.
  intros c1 c2 Hc k1 k2 Hk s. unfold bind. rewrite Hc. destruct (c2 s); [apply Hk|done|done].
Qed.

Lemma bind_assoc {A B C} (c : comp S X A) (k1 : A -> comp S X B) (k2 : B -> comp S X C) :
  bind (bind c k1) k2 ≃ bind c (fun a => bind (k1 a) k2).
Proof. intros s. unfold bind. by destruct (c s). Qed.

Lemma bind_ret_l {A B} (a : A) (k : A -> comp S X B) : bind (ret a) k ≃ k a.
Proof. done. Qed.

Lemma bind_ret_r {A} (c : comp S X A) : bind c ret ≃ c.
Proof. intros s. unfold bind. by destruct (c s). Qed.

Lemma bind_throw {A B} (x : X) (k : A -> comp S X B) : bind (throw x) k ≃ throw x.
Proof. done. Qed.

Lemma bind_ext {A B} (c : comp S X A) (k1 k2 : A -> comp S X B) :
  (forall a, k1 a ≃ k2 a) -> bind c k1 ≃ bind c k2.
Proof. intros H. by apply bind_proper. Qed.

Lemma wp_proper {A} (c1 c2 : comp S X A) Q R s : c1 ≃ c2 -> wp c2 Q R s -> wp c1 Q R s.
Proof. unfold wp. by intros ->. Qed.
End comp_eq.

(** The first step of a sequence, by a rule for it. *)
Tactic Notation "wp_step" uconstr(rule) := apply wp_bind; eapply rule.

(** [wp]: the rules of the primitive computations. [slices]: lengths and elements of updated
    slices. [leaf]: the machine's steps that end a transition. *)
Create HintDb wp.
Create HintDb slices.
Create HintDb leaf.
#[export] Hint Resolve wp_ret wp_throw wp_gets wp_modify : wp.

(** ** Shared lemmas on slices *)

Lemma get_lookup {A} (l : list A) (i : N) : get l i = l !! N.to_nat i.
Proof.
  unfold get, len. destruct (N.ltb_spec i (N.of_nat (length l))); [done|].
  symmetry. apply lookup_ge_None. lia.
Qed.

Lemma get_Some_lt {A} (l : list A) i x : get l i = Some x -> (i < len l)%N.
Proof. unfold get. destruct (N.ltb_spec i (len l)); done. Qed.

Lemma get_lt {A} (l : list A) i : (i < len l)%N -> exists x, get l i = Some x.
Proof.
  intros H. rewrite get_lookup. apply lookup_lt_is_Some. unfold len in H. lia.
Qed.

Lemma get_None {A} (l : list A) i : get l i = None <-> (len l <= i)%N.
Proof. rewrite get_lookup, lookup_ge_None. unfold len. lia. Qed.

Lemma len_upd {A} (l : list A) i x : len (upd l i x) = len l.
Proof. unfold len, upd. by rewrite length_insert. Qed.

Lemma get_upd_eq {A} (l : list A) i x : (i < len l)%N -> get (upd l i x) i = Some x.
Proof.
  intros H. rewrite get_lookup. unfold upd. apply list_lookup_insert_eq.
  unfold len in H. lia.
Qed.

Lemma get_upd_ne {A} (l : list A) i j x : i <> j -> get (upd l i x) j = get l j.
Proof.
  intros H. rewrite !get_lookup. unfold upd. apply list_lookup_insert_ne. lia.
Qed.

Lemma get_upd {A} (l : list A) i j x :
  get (upd l i x) j = if decide (i = j /\ (i < len l)%N) then Some x else get l j.
Proof.
  case_decide as H.
  - destruct H as [<- H]. by apply get_upd_eq.
  - destruct (decide (i = j)) as [<-|]; [|by apply get_upd_ne].
    rewrite !get_lookup. unfold upd. rewrite list_insert_ge; [done|]. unfold len in H. lia.
Qed.

Lemma upd_upd {A} (l : list A) i x y : upd (upd l i x) i y = upd l i y.
Proof. unfold upd. apply list_insert_insert_eq. Qed.

Lemma upd_id {A} (l : list A) i x : get l i = Some x -> upd l i x = l.
Proof. rewrite get_lookup. apply list_insert_id. Qed.

Lemma upd_comm {A} (l : list A) i j x y :
  i <> j -> upd (upd l i x) j y = upd (upd l j y) i x.
Proof. intros. unfold upd. apply list_insert_insert_ne. lia. Qed.

#[export] Hint Rewrite @len_upd @upd_upd : slices.
#[export] Hint Resolve get_Some_lt get_upd_eq : slices.

Lemma elem_of_range_from i start count :
  i ∈ range_from start count <-> (start <= i < start + N.of_nat count)%N.
Proof.
  revert start. induction count as [|n IH]; intros start; simpl.
  - split; [by intros ?%not_elem_of_nil | lia].
  - rewrite elem_of_cons, IH. lia.
Qed.

Lemma elem_of_range i n : i ∈ range n <-> (i < n)%N.
Proof. unfold range. rewrite elem_of_range_from. lia. Qed.

Lemma length_range_from start count : length (range_from start count) = count.
Proof. revert start. induction count; intros; simpl; auto. Qed.

Lemma NoDup_range_from start count : NoDup (range_from start count).
Proof.
  revert start. induction count as [|n IH]; intros start; simpl; constructor; [|done].
  rewrite elem_of_range_from. lia.
Qed.

Lemma checked_add_Some max a b c :
  checked_add max a b = Some c <-> (c = a + b /\ a + b <= max)%N.
Proof. unfold checked_add. destruct (N.leb_spec (a + b) max); naive_solver lia. Qed.

Lemma checked_sub_Some a b c :
  checked_sub a b = Some c <-> (c = a - b /\ b <= a)%N.
Proof. unfold checked_sub. destruct (N.leb_spec b a); naive_solver lia. Qed.

Lemma u32_try_from_Some n m : u32_try_from n = Some m <-> (m = n /\ n <= u32_max)%N.
Proof. unfold u32_try_from. destruct (N.leb_spec n u32_max); naive_solver lia. Qed.

Lemma u32_try_from_None n : u32_try_from n = None <-> (u32_max < n)%N.
Proof. unfold u32_try_from. destruct (N.leb_spec n u32_max); naive_solver lia. Qed.

Lemma range_from_snoc start n :
  range_from start (S n) = range_from start n ++ [start + N.of_nat n]%N.
Proof.
  revert start. induction n as [|n IH]; intros start.
  - simpl. f_equal. lia.
  - change (range_from start (S (S n))) with (start :: range_from (N.succ start) (S n)).
    rewrite IH. simpl. do 3 f_equal. lia.
Qed.

Lemma range_succ n : range (n + 1) = range n ++ [n].
Proof.
  unfold range. replace (N.to_nat (n + 1)) with (S (N.to_nat n)) by lia.
  rewrite range_from_snoc. do 2 f_equal. lia.
Qed.

Lemma NoDup_range n : NoDup (range n).
Proof. apply NoDup_range_from. Qed.

Lemma len_range n : len (range n) = n.
Proof. unfold len, range. rewrite length_range_from. lia. Qed.

(** Updating one list of a family changes the family's concatenation there only. *)
Lemma concat_insert_cons {A} (ls : list (list A)) (i : nat) (x : A) l :
  ls !! i = Some l -> concat (<[i := x :: l]> ls) ≡ₚ x :: concat ls.
Proof.
  revert i. induction ls as [|l0 ls IH]; intros [|i] H; simplify_eq/=; [done|].
  rewrite (IH i H). by rewrite Permutation_middle.
Qed.

Lemma elem_of_concat_lookup {A} (ls : list (list A)) (i : nat) (l : list A) (x : A) :
  ls !! i = Some l -> x ∈ l -> x ∈ concat ls.
Proof.
  revert i. induction ls as [|l0 ls IH]; intros [|i] Hi Hx; simplify_eq/=;
    apply elem_of_app; eauto.
Qed.

Lemma elem_of_concat_fst {A B} (ls : list (list (A * B))) (i : nat) l (x : A) :
  ls !! i = Some l -> x ∈ l.*1 -> x ∈ (concat ls).*1.
Proof.
  intros Hi (e & -> & He)%list_elem_of_fmap. apply list_elem_of_fmap.
  exists e. split; [done|]. by eapply elem_of_concat_lookup.
Qed.

Lemma len_concat_lookup {A} (ls : list (list A)) (i : nat) l :
  ls !! i = Some l -> (len l <= len (concat ls))%N.
Proof.
  unfold len. revert i. induction ls as [|l0 ls IH]; intros [|i] Hi; simplify_eq/=;
    rewrite length_app; [lia|]. specialize (IH _ Hi). lia.
Qed.

Lemma checked_mul_Some max a b c :
  checked_mul max a b = Some c <-> (c = a * b /\ a * b <= max)%N.
Proof. unfold checked_mul. destruct (N.leb_spec (a * b) max); naive_solver lia. Qed.

Lemma get_upd_inv {A} (l : list A) i x j y :
  (i < len l)%N -> get (upd l i x) j = Some y ->
  j = i /\ y = x \/ j <> i /\ get l j = Some y.
Proof.
  intros Hlt. destruct (decide (j = i)) as [->|Hne].
  - rewrite get_upd_eq by done. intros [= ->]. by left.
  - rewrite get_upd_ne by done. by right.
Qed.

Lemma get_fmap {A B} (f : A -> B) (l : list A) i : get (f <$> l) i = f <$> get l i.
Proof. by rewrite !get_lookup, list_lookup_fmap. Qed.

Lemma upd_fmap {A B} (f : A -> B) (l : list A) i x : f <$> upd l i x = upd (f <$> l) i (f x).
Proof. unfold upd. apply list_fmap_insert. Qed.

Lemma len_fmap {A B} (f : A -> B) (l : list A) : len (f <$> l) = len l.
Proof. unfold len. by rewrite length_fmap. Qed.

(** Distinct indices below [n] are at most [n] many. *)
Lemma pigeonhole (l : list N) n :
  NoDup l -> (forall x, x ∈ l -> (x < n)%N) -> (len l <= n)%N.
Proof.
  intros Hnd Hlt. assert (l ⊆+ range n) as Hs%submseteq_length.
  { apply NoDup_submseteq; [done|]. intros x Hx. apply elem_of_range. auto. }
  unfold range in Hs. rewrite length_range_from in Hs. unfold len. lia.
Qed.

Lemma get_app_l {A} (l k : list A) i x : get l i = Some x -> get (l ++ k) i = Some x.
Proof. rewrite !get_lookup. apply lookup_app_l_Some. Qed.

Lemma get_app_lt {A} (front back : list A) i :
  (i < len front)%N -> get (front ++ back) i = get front i.
Proof. intros Hi. rewrite !get_lookup. apply lookup_app_l. unfold len in Hi. lia. Qed.

Lemma upd_app_l {A} (l k : list A) i x :
  (i < len l)%N -> upd (l ++ k) i x = upd l i x ++ k.
Proof. unfold upd, len. intros. apply insert_app_l. lia. Qed.

Lemma get_snoc {A} (l : list A) x : get (l ++ [x]) (len l) = Some x.
Proof. rewrite get_lookup. unfold len. rewrite Nat2N.id. by apply list_lookup_middle. Qed.

Lemma len_cons {A} (x : A) (l : list A) : len (x :: l) = (len l + 1)%N.
Proof. unfold len. simpl. lia. Qed.

Lemma len_app {A} (a b : list A) : len (a ++ b) = (len a + len b)%N.
Proof. unfold len. rewrite length_app. lia. Qed.

Lemma len_snoc {A} (l : list A) x : len (l ++ [x]) = (len l + 1)%N.
Proof. unfold len. rewrite length_app. simpl. lia. Qed.

Lemma get_app_replicate {A} (l : list A) n y i x :
  get (l ++ replicate n y) i = Some x ->
  get l i = Some x \/ (len l <= i /\ x = y)%N.
Proof.
  rewrite !get_lookup. intros [?|[Hi Hx]]%lookup_app_Some; [by left|right].
  apply lookup_replicate in Hx as [-> _]. unfold len. split; [lia|done].
Qed.

Lemma len_app_replicate {A} (l : list A) n y : len (l ++ replicate n y) = (len l + N.of_nat n)%N.
Proof. unfold len. rewrite length_app, length_replicate. lia. Qed.

(** A measure of finitely many indices is bounded. *)
Lemma finite_bound (n : N) (f : N -> nat) : exists m, forall j, (j < n)%N -> (f j <= m)%nat.
Proof.
  induction n as [|n [m IH]] using N.peano_ind; [exists 0%nat; lia|].
  exists (m + f n)%nat. intros j Hj. destruct (decide (j = n)) as [->|]; [lia|].
  assert (f j <= m)%nat by (apply IH; lia). lia.
Qed.
