(* ===== verification/Program.v ===== *)
(** * Program images (crates/xolotl-core/src/program.rs, program/indices.rs)

    The instruction set of the core machine, the structural maps over
    instructions, the index visitor and the admission check of an image, and the
    [Values] interface through which the machine uses host-owned values. *)

From stdpp Require Import base numbers list option.
From S2P Require Import Prelude.

Local Open Scope N_scope.
Local Open Scope result_scope.

Definition IMAGE_VERSION : N := 1.

Inductive Fault : Type :=
| Version
| InvalidNode
| InvalidImport
| InvalidBinding
| MissingBinding
| Tasks
| Frames
| AnalysisCapacity
| Fuel
| Iterations
| TypeFault
| Cancelled
| StaleEvent
| SequenceExhausted
| ImageMismatch
| InvalidState
| Authority.

#[export] Instance Fault_eq_dec : EqDecision Fault.
Proof. solve_decision. Defined.

Inductive Join : Type :=
| All
| Race.

#[export] Instance Join_eq_dec : EqDecision Join.
Proof. solve_decision. Defined.

Inductive NodeKind (V E : Type) : Type :=
| NLiteral (value : V)
| NInput
| NLoad (slot : N)
| NFail (error : E)
| NRequest (import : N)
| NThen (first then_ : N)
| NCatch (body recover : N)
| NFinally (body cleanup : N)
| NIf (yes no : N)
| NBranch (condition yes no : N)
| NLet (slot value body : N)
| NWhile (condition body max : N)
| NFork (left_ right_ : N) (join : Join)
| NCall (entry : N)
| NScope (import body : N).
Arguments NLiteral {V E} _.
Arguments NInput {V E}.
Arguments NLoad {V E} _.
Arguments NFail {V E} _.
Arguments NRequest {V E} _.
Arguments NThen {V E} _ _.
Arguments NCatch {V E} _ _.
Arguments NFinally {V E} _ _.
Arguments NIf {V E} _ _.
Arguments NBranch {V E} _ _ _.
Arguments NLet {V E} _ _ _.
Arguments NWhile {V E} _ _ _.
Arguments NFork {V E} _ _ _.
Arguments NCall {V E} _.
Arguments NScope {V E} _ _.

Record Node (V E : Type) : Type := mkNode {
  node_kind : NodeKind V E;
  node_next : option N;
  node_position : N
}.
Arguments mkNode {V E} _ _ _.
Arguments node_kind {V E} _.
Arguments node_next {V E} _.
Arguments node_position {V E} _.

(** [Node::new]. *)
Definition node_new {V E} (kind : NodeKind V E) (position : N) : Node V E :=
  mkNode kind None position.

(** [Node::try_map_ref]. *)
Definition try_map_ref {V E W F X} (map_value : V -> Result W X) (map_error : E -> Result F X)
    (self : Node V E) : Result (Node W F) X :=
  let? kind :=
    match node_kind self with
    | NLiteral value => let? w := map_value value in Ok (NLiteral w)
    | NInput => Ok NInput
    | NLoad slot => Ok (NLoad slot)
    | NFail error => let? f := map_error error in Ok (NFail f)
    | NRequest import => Ok (NRequest import)
    | NThen first then_ => Ok (NThen first then_)
    | NCatch body recover => Ok (NCatch body recover)
    | NFinally body cleanup => Ok (NFinally body cleanup)
    | NIf yes no => Ok (NIf yes no)
    | NBranch condition yes no => Ok (NBranch condition yes no)
    | NLet slot value body => Ok (NLet slot value body)
    | NWhile condition body max => Ok (NWhile condition body max)
    | NFork left_ right_ join => Ok (NFork left_ right_ join)
    | NCall entry => Ok (NCall entry)
    | NScope import body => Ok (NScope import body)
    end in
  Ok (mkNode kind (node_next self) (node_position self)).

(** [Node::try_map_owned], written out again in the source for owned values. *)
Definition try_map_owned {V E W F X} (map_value : V -> Result W X) (map_error : E -> Result F X)
    (self : Node V E) : Result (Node W F) X :=
  let? kind :=
    match node_kind self with
    | NLiteral value => let? w := map_value value in Ok (NLiteral w)
    | NInput => Ok NInput
    | NLoad slot => Ok (NLoad slot)
    | NFail error => let? f := map_error error in Ok (NFail f)
    | NRequest import => Ok (NRequest import)
    | NThen first then_ => Ok (NThen first then_)
    | NCatch body recover => Ok (NCatch body recover)
    | NFinally body cleanup => Ok (NFinally body cleanup)
    | NIf yes no => Ok (NIf yes no)
    | NBranch condition yes no => Ok (NBranch condition yes no)
    | NLet slot value body => Ok (NLet slot value body)
    | NWhile condition body max => Ok (NWhile condition body max)
    | NFork left_ right_ join => Ok (NFork left_ right_ join)
    | NCall entry => Ok (NCall entry)
    | NScope import body => Ok (NScope import body)
    end in
  Ok (mkNode kind (node_next self) (node_position self)).

(** [Infallible]: the error type of the maps below has no inhabitant. *)
Definition infallible {A} (r : Result A Empty_set) : A :=
  match r with
  | Ok a => a
  | Err never => match never with end
  end.

(** [Node::map_value]. *)
Definition map_value {V E W} (map : V -> W) (self : Node V E) : Node W E :=
  infallible (try_map_ref (fun value => Ok (map value)) (fun error => Ok error) self).

(** [Node::map_owned]. *)
Definition map_owned {V E W F} (map_v : V -> W) (map_e : E -> F) (self : Node V E) : Node W F :=
  infallible (try_map_owned (fun value => Ok (map_v value)) (fun error => Ok (map_e error)) self).

(** ** The index visitor

    A Rust [FnMut(u32) -> Result<(), F>] with its captured state [S]. *)
Definition visitor (S F : Type) : Type := N -> S -> Result unit F * S.

(** [a?; b]: the second visit runs only when the first accepted. *)
Definition and_then {S F} (first second : S -> Result unit F * S) (s : S) : Result unit F * S :=
  match first s with
  | (Ok _, s') => second s'
  | (Err f, s') => (Err f, s')
  end.

Definition accept {S F} (s : S) : Result unit F * S := (Ok tt, s).

(** [Node::visit_indices]. *)
Definition visit_indices {V E S F} (node import binding : visitor S F) (self : Node V E)
    : S -> Result unit F * S :=
  and_then
    (match node_next self with Some next => node next | None => accept end)
    (match node_kind self with
     | NLiteral _ | NInput | NFail _ => accept
     | NLoad slot => binding slot
     | NRequest index => import index
     | NCall entry => node entry
     | NThen a b | NCatch a b | NFinally a b | NIf a b | NWhile a b _ | NFork a b _ =>
         and_then (node a) (node b)
     | NBranch condition yes no => and_then (node condition) (and_then (node yes) (node no))
     | NLet slot value body => and_then (binding slot) (and_then (node value) (node body))
     | NScope index body => and_then (import index) (node body)
     end).

(** ** Images *)

(** [ProgramImage]; [id] is the 32-byte content identity. *)
Record ProgramImage (V E : Type) : Type := mkImage {
  version : N;
  image_id : list N;
  nodes : list (Node V E);
  entry : N;
  image_bindings : N;
  imports : N
}.
Arguments mkImage {V E} _ _ _ _ _ _.
Arguments version {V E} _.
Arguments image_id {V E} _.
Arguments nodes {V E} _.
Arguments entry {V E} _.
Arguments image_bindings {V E} _.
Arguments imports {V E} _.

(** [ProgramImage::node]. *)
Definition node_at {V E} (image : ProgramImage V E) (index : N) : Result (Node V E) Fault :=
  ok_or (get (nodes image) index) InvalidNode.

(** The three closures [validate] passes to the visitor. *)
Definition check_node {V E} (image : ProgramImage V E) : visitor unit Fault :=
  fun index s => (let? _ := node_at image index in Ok tt, s).
Definition check_import {V E} (image : ProgramImage V E) : visitor unit Fault :=
  fun index s => (if index <? imports image then Ok tt else Err InvalidImport, s).
Definition check_binding {V E} (image : ProgramImage V E) : visitor unit Fault :=
  fun index s => (if index <? image_bindings image then Ok tt else Err InvalidBinding, s).

(** The [for node in self.nodes] loop of [validate]. *)
Fixpoint validate_nodes {V E} (image : ProgramImage V E) (l : list (Node V E))
    : Result unit Fault :=
  match l with
  | [] => Ok tt
  | n :: l' =>
      let? _ := fst (visit_indices (check_node image) (check_import image)
                       (check_binding image) n tt) in
      validate_nodes image l'
  end.

(** [ProgramImage::validate]. *)
Definition validate {V E} (image : ProgramImage V E) : Result unit Fault :=
  if negb (version image =? IMAGE_VERSION) then Err Version
  else
    let? _ := node_at image (entry image) in
    validate_nodes image (nodes image).

(** ** Host values

    The [Values] trait.  Its methods take [&mut self]: [H] is the host's state. *)
Class Values (H V E : Type) : Type := {
  unit_value : H -> V * H;
  truth : V -> H -> Result bool E * H;
  pair : V -> V -> H -> Result V E * H;
  error : Fault -> H -> E * H;
  error_value : E -> H -> V * H;
  influence : V -> V -> H -> V * H;
  influence_result : Result V E -> V -> H -> Result V E * H;
  retain_result : Result V E -> H -> V * H;
  retain_control : V -> H -> V * H
}.

(** The trait's default methods. *)
Definition default_influence {H V} (value control : V) (h : H) : V * H := (value, h).

Definition default_influence_result {H V E} (influence : V -> V -> H -> V * H)
    (result : Result V E) (control : V) (h : H) : Result V E * H :=
  match result with
  | Ok value => let '(value, h) := influence value control h in (Ok value, h)
  | Err e => (Err e, h)
  end.

Definition default_retain_control {H V} (input : V) (h : H) : V * H := (input, h).

Definition default_retain_result {H V E} (error_value : E -> H -> V * H)
    (retain_control : V -> H -> V * H) (result : Result V E) (h : H) : V * H :=
  match result with
  | Ok value => retain_control value h
  | Err e => let '(value, h) := error_value e h in retain_control value h
  end.

(** ** Reference reading of an instruction's addresses *)

Inductive address : Type :=
| ANode (index : N)
| AImport (index : N)
| ABinding (index : N).

(** Every address of an instruction, in the order the visitor sees them. *)
Definition addresses {V E} (n : Node V E) : list address :=
  match node_next n with Some next => [ANode next] | None => [] end ++
  match node_kind n with
  | NLiteral _ | NInput | NFail _ => []
  | NLoad slot => [ABinding slot]
  | NRequest index => [AImport index]
  | NCall e => [ANode e]
  | NThen a b | NCatch a b | NFinally a b | NIf a b | NWhile a b _ | NFork a b _ =>
      [ANode a; ANode b]
  | NBranch c y n => [ANode c; ANode y; ANode n]
  | NLet slot v b => [ABinding slot; ANode v; ANode b]
  | NScope index b => [AImport index; ANode b]
  end.

(** An address resolves in an image. *)
Definition resolves {V E} (image : ProgramImage V E) (a : address) : Prop :=
  match a with
  | ANode i => i < len (nodes image)
  | AImport i => i < imports image
  | ABinding i => i < image_bindings image
  end.

#[export] Instance resolves_dec {V E} (image : ProgramImage V E) a :
  Decision (resolves image a).
Proof. destruct a; simpl; apply _. Defined.

Definition address_fault (a : address) : Fault :=
  match a with
  | ANode _ => InvalidNode
  | AImport _ => InvalidImport
  | ABinding _ => InvalidBinding
  end.

(** A well-formed image: the supported format, and every address of every
    instruction, reachable or not, resolves. *)
Definition image_ok {V E} (image : ProgramImage V E) : Prop :=
  version image = IMAGE_VERSION /\
  entry image < len (nodes image) /\
  Forall (fun n => Forall (resolves image) (addresses n)) (nodes image).

(** Visiting a list of addresses with one closure per address space. *)
Fixpoint visit_all {S F} (node import binding : visitor S F) (l : list address)
    : S -> Result unit F * S :=
  match l with
  | [] => accept
  | ANode i :: l' => and_then (node i) (visit_all node import binding l')
  | AImport i :: l' => and_then (import i) (visit_all node import binding l')
  | ABinding i :: l' => and_then (binding i) (visit_all node import binding l')
  end.

(** The first address of a list that does not resolve. *)
Fixpoint first_unresolved {V E} (image : ProgramImage V E) (l : list address) : Result unit Fault :=
  match l with
  | [] => Ok tt
  | a :: l' => if decide (resolves image a) then first_unresolved image l'
               else Err (address_fault a)
  end.

Section visitor_lemmas.
Context {V E : Type}.
Implicit Types image : ProgramImage V E.

Lemma and_then_accept {S F} (m : S -> Result unit F * S) s : and_then m accept s = m s.
Proof. unfold and_then, accept. by destruct (m s) as [[[]|] ?]. Qed.

Lemma visit_all_addresses {S F} (fn fi fb : visitor S F) (n : Node V E) s :
  visit_indices fn fi fb n s = visit_all fn fi fb (addresses n) s.
Proof.
  unfold visit_indices, addresses.
  destruct (node_next n) as [next|], (node_kind n); simpl; unfold and_then, accept;
    repeat (case_match; simplify_eq/=); try done;
    repeat match goal with u : unit |- _ => destruct u end; congruence.
Qed.

Lemma visit_all_unresolved image l :
  fst (visit_all (check_node image) (check_import image) (check_binding image) l tt) =
  first_unresolved image l.
Proof.
  induction l as [|a l IH]; [done|].
  destruct a as [i|i|i]; simpl; unfold and_then, check_node, check_import, check_binding, node_at.
  - case_decide as H; simpl in H.
    + destruct (get_lt _ _ H) as [x ->]. simpl. done.
    + destruct (get (nodes image) i) eqn:Hg; [|done]. by apply get_Some_lt in Hg.
  - case_decide as H; simpl in H; destruct (N.ltb_spec i (imports image)); (done || lia).
  - case_decide as H; simpl in H; destruct (N.ltb_spec i (image_bindings image)); (done || lia).
Qed.

Lemma first_unresolved_app image l1 l2 :
  first_unresolved image (l1 ++ l2) =
  result_bind (first_unresolved image l1) (fun _ => first_unresolved image l2).
Proof. induction l1 as [|a l1 IH]; simpl; [done|]. by case_decide. Qed.

Lemma first_unresolved_ok image l :
  first_unresolved image l = Ok tt <-> Forall (resolves image) l.
Proof.
  induction l as [|a l IH]; simpl; [by split|].
  rewrite list.Forall_cons. case_decide; naive_solver.
Qed.

Lemma validate_nodes_unresolved image l :
  validate_nodes image l = first_unresolved image (concat (addresses <$> l)).
Proof.
  induction l as [|n l IH]; [done|]. simpl.
  by rewrite visit_all_addresses, visit_all_unresolved, first_unresolved_app, IH.
Qed.

Lemma validate_unresolved image :
  validate image =
  if decide (version image = IMAGE_VERSION)
  then first_unresolved image (ANode (entry image) :: concat (addresses <$> nodes image))
  else Err Version.
Proof.
  unfold validate. rewrite validate_nodes_unresolved. simpl.
  destruct (N.eqb_spec (version image) IMAGE_VERSION) as [Hv|Hv]; simpl.
  - rewrite decide_True by done. unfold node_at. case_decide as H; simpl in H.
    + by destruct (get_lt _ _ H) as [x ->].
    + by rewrite (proj2 (get_None (nodes image) (entry image))) by lia.
  - by rewrite decide_False by done.
Qed.

Lemma validate_image_ok image : validate image = Ok tt <-> image_ok image.
Proof.
  rewrite validate_unresolved. unfold image_ok. case_decide as Hv; [|naive_solver].
  rewrite first_unresolved_ok, list.Forall_cons. simpl.
  rewrite Forall_concat, Forall_fmap. naive_solver.
Qed.

Lemma image_ok_resolves image i n :
  image_ok image -> get (nodes image) i = Some n -> Forall (resolves image) (addresses n).
Proof.
  intros (_ & _ & H) Hg. rewrite get_lookup in Hg. by eapply Forall_lookup in H.
Qed.
End visitor_lemmas.

Lemma try_map_owned_ref {V E W F X} (fv : V -> Result W X) (fe : E -> Result F X) n :
  try_map_owned fv fe n = try_map_ref fv fe n.
Proof. done. Qed.

Lemma try_map_ref_structure {V E W F X} (fv : V -> Result W X) (fe : E -> Result F X)
    (n : Node V E) m :
  try_map_ref fv fe n = Ok m ->
  addresses m = addresses n /\ node_next m = node_next n /\
  node_position m = node_position n.
Proof.
  unfold try_map_ref, addresses. destruct (node_kind n); simpl; intros H; simplify_eq/=; try done.
  - destruct (fv value); simplify_eq/=; done.
  - destruct (fe error0); simplify_eq/=; done.
Qed.

(** An image whose instructions are all mapped to another value representation. *)
Definition map_image {V E W F} (fv : V -> W) (fe : E -> F) (image : ProgramImage V E)
    : ProgramImage W F :=
  mkImage (version image) (image_id image) (map_owned fv fe <$> nodes image) (entry image)
    (image_bindings image) (imports image).

Lemma addresses_map_owned {V E W F} (fv : V -> W) (fe : E -> F) (n : Node V E) :
  addresses (map_owned fv fe n) = addresses n.
Proof. unfold map_owned, addresses. by destruct n as [[] ? ?]. Qed.

Lemma first_unresolved_map {V E W F} (fv : V -> W) (fe : E -> F) (image : ProgramImage V E) l :
  first_unresolved (map_image fv fe image) l = first_unresolved image l.
Proof.
  induction l as [|a l IH]; [done|]. simpl. rewrite IH.
  assert (resolves (map_image fv fe image) a <-> resolves image a) as Hr.
  { destruct a; simpl; unfold len; by rewrite ?length_fmap. }
  by rewrite (decide_ext _ _ _ _ Hr).
Qed.

(** ** Properties *)

(** C1: admission accepts exactly the well-formed images, and otherwise
    reports the version, or the first address that does not resolve, in entry,
    instruction and operand order. *)
Theorem validate_correct {V E} (image : ProgramImage V E) :
  (validate image = Ok tt <-> image_ok image) /\
  validate image =
    (if decide (version image = IMAGE_VERSION)
     then first_unresolved image (ANode (entry image) :: concat (addresses <$> nodes image))
     else Err Version).
Proof. split; [apply validate_image_ok | apply validate_unresolved]. Qed.

(** Changing the representation of values and errors keeps the structure
    of every instruction, so an image is admitted before the change exactly when it is
    admitted after it, with the same fault otherwise. *)
Theorem map_owned_preserves_admission {V E W F} (fv : V -> W) (fe : E -> F)
    (image : ProgramImage V E) :
  validate (map_image fv fe image) = validate image.
Proof.
  rewrite !validate_unresolved. cbn [map_image version entry nodes].
  rewrite <- list_fmap_compose.
  rewrite (list_fmap_ext _ addresses) by (intros; simpl; apply addresses_map_owned).
  by rewrite first_unresolved_map.
Qed.
