(* ===== verification/Frame.v ===== *)
(** * The shared continuation arena (crates/xolotl-core/src/frame.rs)

    All tasks of an execution keep their continuation stacks in one caller-owned
    array: a stack is a linked list through [previous], released slots form a free
    list, and slots at or above [next_unused] were never used or were given back.
    The section [refinement] shows that this arena implements one bounded stack
    per task. *)

From stdpp Require Import base numbers list option.
From S2P Require Import Prelude Program.

Local Open Scope N_scope.
Local Open Scope comp_scope.

Definition NONE : N := u32_max.

Inductive FrameKind (V E : Type) : Type :=
| FVacant
| FFinish (node : N)
| FThen (next : N)
| FCatch (recover : N)
| FFinally (cleanup : N) (input : V)
| FCleaned (outcome : Result V E)
| FCondition (condition body left_ : N) (value : V)
| FIteration (condition body left_ : N)
| FContext (context : N)
| FChoose (yes no : N) (input : V)
| FBind (slot body : N)
| FUnbind (slot : N) (previous : option V)
| FContinuation (node entry : N).
Arguments FVacant {V E}.
Arguments FFinish {V E} _.
Arguments FThen {V E} _.
Arguments FCatch {V E} _.
Arguments FFinally {V E} _ _.
Arguments FCleaned {V E} _.
Arguments FCondition {V E} _ _ _ _.
Arguments FIteration {V E} _ _ _.
Arguments FContext {V E} _.
Arguments FChoose {V E} _ _ _.
Arguments FBind {V E} _ _.
Arguments FUnbind {V E} _ _.
Arguments FContinuation {V E} _ _.

Record Frame (V E : Type) : Type := mkFrame {
  frame_kind : FrameKind V E;
  previous : N
}.
Arguments mkFrame {V E} _ _.
Arguments frame_kind {V E} _.
Arguments previous {V E} _.

(** [Frame::saved_context]. *)
Definition saved_context {V E} (self : Frame V E) : option N :=
  match frame_kind self with
  | FContext context => Some context
  | _ => None
  end.

Record Stack : Type := mkStack { top : N; depth : N }.

(** [Stack::default]. *)
Definition default_stack : Stack := mkStack NONE 0.

Record FramePoolMeta : Type := mkMeta {
  next_unused : N;
  free_head : N;
  free_count : N
}.

(** [FramePoolMeta::default]. *)
Definition default_meta : FramePoolMeta := mkMeta 0 NONE 0.

Record FramePool (V E : Type) : Type := mkPool {
  slots : list (option (Frame V E));
  meta : FramePoolMeta
}.
Arguments mkPool {V E} _ _.
Arguments slots {V E} _.
Arguments meta {V E} _.

(** [FramePool::new]: [slots.fill_with(|| None)]. *)
Definition pool_new {V E} (frames : list (option (Frame V E))) : FramePool V E :=
  mkPool ((fun _ => None) <$> frames) default_meta.

(** The arena operations borrow the arena and the stack of one task. *)
Definition pool_comp (V E A : Type) : Type := comp (FramePool V E * Stack) Fault A.

Definition set_pool {V E} (pool : FramePool V E) : pool_comp V E unit :=
  modify (fun s => (pool, snd s)).
Definition set_stack {V E} (stack : Stack) : pool_comp V E unit :=
  modify (fun s => (fst s, stack)).

(** [FramePool::check]. *)
Definition check {V E} (count max_depth : N) : pool_comp V E unit :=
  let* (pool, stack) := gets id in
  let* wanted := require (checked_add usize_max (depth stack) count) Frames in
  let* unused := expect (checked_sub (len (slots pool)) (next_unused (meta pool))) Overflow in
  let* available := expect (checked_add usize_max unused (free_count (meta pool))) Overflow in
  if (max_depth <? wanted) || (available <? count) then throw Frames else ret tt.

(** The slot [FramePool::push] takes: the head of the free list, or the next
    slot that was never used. *)
Definition take_slot {V E} : pool_comp V E N :=
  let* (pool, stack) := gets id in
  let m := meta pool in
  if free_head m =? NONE then
    if len (slots pool) <=? next_unused m then throw Frames
    else
      let index := next_unused m in
      let* next := expect (checked_add u32_max (next_unused m) 1) Overflow in
      set_pool (mkPool (slots pool) (mkMeta next (free_head m) (free_count m))) ;;;
      ret index
  else
    let index := free_head m in
    let* slot := expect (get (slots pool) index) OutOfBounds in
    let* frame := require slot InvalidState in
    let* count := expect (checked_sub (free_count m) 1) Overflow in
    set_pool (mkPool (slots pool) (mkMeta (next_unused m) (previous frame) count)) ;;;
    ret index.

(** [FramePool::push]. *)
Definition push {V E} (kind : FrameKind V E) (max_depth : N) : pool_comp V E unit :=
  let* (_, stack) := gets id in
  if max_depth <=? depth stack then throw Frames
  else
    let* index := take_slot in
    let* (pool, _) := gets id in
    let* _ := expect (get (slots pool) index) OutOfBounds in
    set_pool (mkPool (upd (slots pool) index (Some (mkFrame kind (top stack)))) (meta pool)) ;;;
    let* d := expect (checked_add u32_max (depth stack) 1) Overflow in
    set_stack (mkStack index d).

(** [FramePool::pop]. *)
Definition pop {V E} : pool_comp V E (option (FrameKind V E)) :=
  let* (pool, stack) := gets id in
  if depth stack =? 0 then ret None
  else
    let index := top stack in
    let* slot := expect (get (slots pool) index) OutOfBounds in
    match slot with
    | None => ret None
    | Some frame =>
        let taken := upd (slots pool) index None in
        let m := meta pool in
        let* d := expect (checked_sub (depth stack) 1) Overflow in
        set_stack (mkStack (previous frame) d) ;;;
        if index + 1 =? next_unused m then
          let* next := expect (checked_sub (next_unused m) 1) Overflow in
          set_pool (mkPool taken (mkMeta next (free_head m) (free_count m))) ;;;
          ret (Some (frame_kind frame))
        else
          let* count := expect (checked_add u32_max (free_count m) 1) Overflow in
          set_pool (mkPool (upd taken index (Some (mkFrame FVacant (free_head m))))
                      (mkMeta (next_unused m) index count)) ;;;
          ret (Some (frame_kind frame))
    end.

(** ** Representation

    [linked ss i es]: from slot [i] the links through [previous] visit exactly the
    slots and frames of [es] and end at [NONE]. *)
Fixpoint linked {V E} (ss : list (option (Frame V E))) (i : N) (es : list (N * FrameKind V E))
    : Prop :=
  match es with
  | [] => i = NONE
  | (j, k) :: es' => i = j /\ exists p, get ss j = Some (Some (mkFrame k p)) /\ linked ss p es'
  end.

Definition stack_rep {V E} (ss : list (option (Frame V E))) (st : Stack)
    (es : list (N * FrameKind V E)) : Prop :=
  linked ss (top st) es /\ depth st = len es /\ Forall (fun e => snd e <> FVacant) es.

(** The arena, the stacks of all tasks, the entries of every stack and the
    entries of the free list: the used slots are partitioned among them. *)
Record pool_rep {V E} (pool : FramePool V E) (stacks : list Stack)
    (ents : list (list (N * FrameKind V E))) (free : list (N * FrameKind V E)) : Prop := {
  rep_stacks : Forall2 (stack_rep (slots pool)) stacks ents;
  rep_free : linked (slots pool) (free_head (meta pool)) free;
  rep_vacant : Forall (fun e => snd e = FVacant) free;
  rep_free_count : free_count (meta pool) = len free;
  rep_partition : (concat ents ++ free).*1 ≡ₚ range (next_unused (meta pool));
  rep_used : next_unused (meta pool) <= len (slots pool);
  rep_width : len (slots pool) <= u32_max;
  rep_unused : forall i, next_unused (meta pool) <= i -> i < len (slots pool) ->
    get (slots pool) i = Some None
}.

(** What the arena means: one list of continuations per task, innermost first. *)
Definition pool_stacks {V E} (pool : FramePool V E) (stacks : list Stack)
    (ks : list (list (FrameKind V E))) : Prop :=
  exists ents free, pool_rep pool stacks ents free /\ ks = (fun es => es.*2) <$> ents.

(** Continuations held by all tasks together. *)
Definition total_frames {V E} (ks : list (list (FrameKind V E))) : N := len (concat ks).

Section refinement.
Context {V E : Type}.
Implicit Types (pool : FramePool V E) (st : Stack) (ss : list (option (Frame V E))).
Implicit Types (es free : list (N * FrameKind V E)) (ents : list (list (N * FrameKind V E))).
Implicit Types (ks : list (list (FrameKind V E))).

Lemma linked_upd ss i es j f :
  j ∉ es.*1 -> linked ss i es -> linked (upd ss j f) i es.
Proof.
  revert i. induction es as [|[x k] es IH]; intros i Hj; simpl; [done|].
  intros (-> & p & Hg & Hl). apply not_elem_of_cons in Hj as [Hne Hj].
  split; [done|]. exists p. rewrite get_upd_ne by done. auto.
Qed.

Lemma linked_bound ss i es j : linked ss i es -> j ∈ es.*1 -> j < len ss.
Proof.
  revert i. induction es as [|[x k] es IH]; intros i; simpl.
  - by intros _ ?%not_elem_of_nil.
  - intros (-> & p & Hg & Hl) [->|Hj]%elem_of_cons; [by eapply get_Some_lt | eauto].
Qed.

Lemma stacks_upd ss stacks ents j f :
  j ∉ (concat ents).*1 ->
  Forall2 (stack_rep ss) stacks ents -> Forall2 (stack_rep (upd ss j f)) stacks ents.
Proof.
  intros Hj H. induction H as [|st es stacks ents Hst Hrest IH]; [constructor|].
  simpl in Hj. rewrite fmap_app, not_elem_of_app in Hj. destruct Hj as [Hj1 Hj2].
  constructor; [|by apply IH].
  destruct Hst as (Hl & Hd & Hv). split_and!; [by apply linked_upd | done | done].
Qed.

Lemma rep_nodup pool stacks ents free :
  pool_rep pool stacks ents free -> NoDup (concat ents ++ free).*1.
Proof. intros H. rewrite (rep_partition _ _ _ _ H). apply NoDup_range. Qed.

Lemma rep_owned pool stacks ents free j :
  pool_rep pool stacks ents free ->
  j ∈ (concat ents ++ free).*1 <-> j < next_unused (meta pool).
Proof. intros H. by rewrite (rep_partition _ _ _ _ H), elem_of_range. Qed.

Lemma rep_counts pool stacks ents free :
  pool_rep pool stacks ents free ->
  len (concat ents) + len free = next_unused (meta pool).
Proof.
  intros H. pose proof (rep_partition _ _ _ _ H) as Hp%Permutation_length.
  rewrite length_fmap, length_app in Hp. unfold range in Hp.
  rewrite length_range_from in Hp. unfold len. lia.
Qed.

Lemma concat_snd ents : concat ((fun es => es.*2) <$> ents) = (concat ents).*2.
Proof.
  induction ents as [|es ents IH]; [done|]. csimpl. by rewrite IH, fmap_app.
Qed.

Lemma total_frames_ents ents :
  total_frames ((fun es => es.*2) <$> ents) = len (concat ents).
Proof. unfold total_frames, len. by rewrite concat_snd, length_fmap. Qed.

(** The entries of one stack. *)
Lemma rep_lookup pool stacks ents free i st :
  pool_rep pool stacks ents free -> stacks !! i = Some st ->
  exists es, ents !! i = Some es /\ stack_rep (slots pool) st es.
Proof.
  intros H Hi. destruct (Forall2_lookup_l _ _ _ _ _ (rep_stacks _ _ _ _ H) Hi)
    as (es & ? & ?). eauto.
Qed.

(** Replacing stack [i] after an update of a slot [j] that no other list holds. *)
Lemma stacks_replace ss stacks ents i st st' es es' j f :
  Forall2 (stack_rep ss) stacks ents ->
  stacks !! i = Some st -> ents !! i = Some es ->
  (forall i' es0, ents !! i' = Some es0 -> i' <> i -> j ∉ es0.*1) ->
  stack_rep (upd ss j f) st' es' ->
  Forall2 (stack_rep (upd ss j f)) (<[i := st']> stacks) (<[i := es']> ents).
Proof.
  intros H Hi He Hother Hnew. apply Forall2_same_length_lookup.
  apply Forall2_length in H as Hlen. split; [by rewrite !length_insert|].
  intros i' x y Hx Hy. destruct (decide (i = i')) as [<-|Hne].
  - apply lookup_lt_Some in Hi as Hlt. apply lookup_lt_Some in He as Hlt'.
    rewrite list_lookup_insert_eq in Hx by done.
    rewrite list_lookup_insert_eq in Hy by done. by simplify_eq.
  - rewrite list_lookup_insert_ne in Hx by done.
    rewrite list_lookup_insert_ne in Hy by done.
    destruct (Forall2_lookup_lr _ _ _ _ _ _ H Hx Hy) as (Hl & Hd & Hv).
    split_and!; [|done..]. apply linked_upd; [|done]. eauto.
Qed.

(** A slot of the free list, or beyond the used ones, is in no stack. *)
Lemma not_in_stack ents free i es j :
  NoDup (concat ents ++ free).*1 -> ents !! i = Some es ->
  j ∈ free.*1 \/ j ∉ (concat ents ++ free).*1 -> j ∉ es.*1.
Proof.
  intros Hnd Hi Hj Hin.
  pose proof (elem_of_concat_fst _ _ _ _ Hi Hin) as Hc.
  rewrite fmap_app in Hj, Hnd. apply list.NoDup_app in Hnd as (_ & Hdis & _).
  destruct Hj as [Hj|Hj]; [by eapply Hdis | apply Hj, elem_of_app; by left].
Qed.

(** Different stacks hold different slots. *)
Lemma stacks_disjoint ents free i1 i2 es1 es2 j :
  NoDup (concat ents ++ free).*1 ->
  ents !! i1 = Some es1 -> ents !! i2 = Some es2 -> i1 <> i2 ->
  j ∈ es1.*1 -> j ∉ es2.*1.
Proof.
  rewrite fmap_app. intros (Hnd & _ & _)%list.NoDup_app.
  revert i1 i2. induction ents as [|es0 ents IH]; intros i1 i2 H1 H2 Hne Hj1 Hj2; [done|].
  simpl in Hnd. rewrite fmap_app in Hnd. apply list.NoDup_app in Hnd as (_ & Hdis & Hnd).
  destruct i1 as [|i1], i2 as [|i2]; simplify_eq/=.
  - eapply (Hdis j); eauto using elem_of_concat_fst.
  - eapply (Hdis j); eauto using elem_of_concat_fst.
  - eapply (IH Hnd i1 i2); eauto.
Qed.

(** The slots of one stack are distinct. *)
Lemma stack_nodup ents free i es :
  NoDup (concat ents ++ free).*1 -> ents !! i = Some es -> NoDup es.*1.
Proof.
  rewrite fmap_app. intros (Hnd & _ & _)%list.NoDup_app.
  revert i Hnd. induction ents as [|es0 ents IH]; intros [|i] Hnd Hi; simplify_eq/=;
    rewrite fmap_app in Hnd; apply list.NoDup_app in Hnd as (? & _ & ?); eauto.
Qed.

(** Putting a frame on stack [i] in a slot [j] that nothing else owns. *)
Lemma rep_push pool stacks ents free i st es k j m' free' :
  pool_rep pool stacks ents free ->
  stacks !! i = Some st -> ents !! i = Some es -> k <> FVacant ->
  j < len (slots pool) ->
  linked (slots pool) (free_head m') free' ->
  Forall (fun e => snd e = FVacant) free' ->
  free_count m' = len free' ->
  (j :: (concat ents ++ free').*1) ≡ₚ range (next_unused m') ->
  next_unused (meta pool) <= next_unused m' <= len (slots pool) ->
  pool_rep (mkPool (upd (slots pool) j (Some (mkFrame k (top st)))) m')
    (<[i := mkStack j (depth st + 1)]> stacks) (<[i := (j, k) :: es]> ents) free'.
Proof.
  intros H Hi He Hk Hj Hfl Hfv Hfc Hp Hn.
  assert (NoDup (j :: (concat ents ++ free').*1)) as [Hj0 Hnd]%list.NoDup_cons.
  { rewrite Hp. apply NoDup_range. }
  assert (j < next_unused m') as Hjn.
  { rewrite <- elem_of_range, <- Hp. by left. }
  destruct (Forall2_lookup_lr _ _ _ _ _ _ (rep_stacks _ _ _ _ H) Hi He) as (Hl & Hd & Hv).
  split; simpl; try done.
  - eapply stacks_replace; eauto using rep_stacks.
    + intros i' es0 He0 _. eapply not_in_stack; eauto.
    + split_and!; simpl.
      * split; [done|]. exists (top st). rewrite get_upd_eq by done. split; [done|].
        apply linked_upd; [|done]. eapply not_in_stack; eauto.
      * unfold len in *. simpl. lia.
      * by constructor.
  - apply linked_upd; [|done].
    rewrite fmap_app, not_elem_of_app in Hj0. tauto.
  - rewrite concat_insert_cons by done. by rewrite <- Hp.
  - rewrite len_upd. lia.
  - rewrite len_upd. apply (rep_width _ _ _ _ H).
  - intros i' Hi' Hlt. rewrite len_upd in Hlt. rewrite get_upd_ne by lia.
    apply (rep_unused _ _ _ _ H); lia.
Qed.

(** Taking the innermost frame, in slot [j], off stack [i]. *)
Lemma rep_pop pool stacks ents free i st j k es d p m' f free' :
  pool_rep pool stacks ents free ->
  stacks !! i = Some st -> ents !! i = Some ((j, k) :: es) ->
  d + 1 = depth st ->
  get (slots pool) j = Some (Some (mkFrame k p)) ->
  linked (upd (slots pool) j f) (free_head m') free' ->
  Forall (fun e => snd e = FVacant) free' ->
  free_count m' = len free' ->
  (concat (<[i := es]> ents) ++ free').*1 ≡ₚ range (next_unused m') ->
  next_unused m' <= next_unused (meta pool) ->
  (forall x, next_unused m' <= x -> x < len (slots pool) ->
    get (upd (slots pool) j f) x = Some None) ->
  pool_rep (mkPool (upd (slots pool) j f) m')
    (<[i := mkStack p d]> stacks) (<[i := es]> ents) free'.
Proof.
  intros H Hi He Hdep Hg Hfl Hfv Hfc Hp Hn Hun.
  pose proof (rep_nodup _ _ _ _ H) as Hnd.
  destruct (Forall2_lookup_lr _ _ _ _ _ _ (rep_stacks _ _ _ _ H) Hi He) as (Hl & Hd & Hv).
  destruct Hl as (Htop & p' & Hg' & Hl). rewrite Hg in Hg'. simplify_eq.
  apply list.Forall_cons in Hv as [_ Hv].
  split; simpl; try done.
  - eapply stacks_replace; eauto using rep_stacks.
    + intros i' es0 He0 Hne. eapply (stacks_disjoint _ _ i i'); eauto. by left.
    + split_and!; simpl; [|unfold len in *; simpl in *; lia | done].
      apply linked_upd; [|done]. intros Hin.
      pose proof (stack_nodup _ _ _ _ Hnd He) as [Hn0 _]%list.NoDup_cons. done.
  - rewrite len_upd. pose proof (rep_used _ _ _ _ H). lia.
  - rewrite len_upd. apply (rep_width _ _ _ _ H).
  - intros x Hx Hlt. rewrite len_upd in Hlt. auto.
Qed.

(** The stacks as lists determine the depth fields. *)
Lemma stacks_lookup pool stacks ks i st :
  pool_stacks pool stacks ks -> stacks !! i = Some st ->
  exists l, ks !! i = Some l /\ depth st = len l.
Proof.
  intros (ents & free & H & ->) Hi.
  destruct (rep_lookup _ _ _ _ _ _ H Hi) as (es & He & _ & Hd & _).
  exists es.*2. rewrite list_lookup_fmap, He. split; [done|]. rewrite Hd. unfold len.
  by rewrite length_fmap.
Qed.

(** An empty stack is the default one. *)
Lemma stacks_empty pool stacks ks i st :
  pool_stacks pool stacks ks -> stacks !! i = Some st -> ks !! i = Some [] ->
  st = default_stack.
Proof.
  intros (ents & free & H & ->) Hi Hk.
  destruct (rep_lookup _ _ _ _ _ _ H Hi) as (es & He & Hl & Hd & _).
  rewrite list_lookup_fmap, He in Hk. destruct es; simplify_eq/=.
  destruct st. simpl in *. by subst.
Qed.

(** The slot a push takes is owned by nobody; there is one unless the arena is full. *)
Lemma take_slot_spec pool stacks ents free st :
  pool_rep pool stacks ents free ->
  if decide (len (concat ents) < len (slots pool))
  then exists j m' free',
    take_slot (pool, st) = Val j (mkPool (slots pool) m', st) /\
    j < len (slots pool) /\
    linked (slots pool) (free_head m') free' /\
    Forall (fun e => snd e = FVacant) free' /\
    free_count m' = len free' /\
    (j :: (concat ents ++ free').*1) ≡ₚ range (next_unused m') /\
    next_unused (meta pool) <= next_unused m' <= len (slots pool)
  else take_slot (pool, st) = Throw Frames (pool, st).
Proof.
  intros H.
  pose proof (rep_counts _ _ _ _ H) as Hcnt. pose proof (rep_used _ _ _ _ H) as Hused.
  pose proof (rep_width _ _ _ _ H) as Hwidth. pose proof (rep_free _ _ _ _ H) as Hfree.
  pose proof (rep_partition _ _ _ _ H) as Hpart. pose proof (rep_vacant _ _ _ _ H) as Hv.
  pose proof (rep_free_count _ _ _ _ H) as Hfc.
  unfold take_slot, bind, gets, id. cbn. destruct free as [|[j kf] free']; simpl in Hfree.
  - rewrite app_nil_r in Hpart. unfold len in Hcnt at 2. simpl in Hcnt.
    rewrite Hfree. cbn.
    destruct (N.leb_spec (len (slots pool)) (next_unused (meta pool))) as [Hfull|Hroom].
    { by rewrite decide_False by lia. }
    rewrite decide_True by lia. unfold checked_add.
    rewrite (proj2 (N.leb_le _ _)) by lia. cbn.
    do 2 eexists. exists []. split_and!; [done|done|done|done|done| |simpl; lia..].
    simpl. rewrite app_nil_r, Hpart, range_succ. by rewrite Permutation_cons_append.
  - destruct Hfree as (Hhead & p & Hg & Hfree).
    apply list.Forall_cons in Hv as [_ Hv].
    assert (len ((j, kf) :: free') = len free' + 1) as Hlf by (unfold len; simpl; lia).
    assert (j < next_unused (meta pool)) as Hj.
    { rewrite <- (rep_owned _ _ _ _ _ H), fmap_app, elem_of_app. right. by left. }
    rewrite Hhead, (proj2 (N.eqb_neq _ _)) by (unfold NONE; lia). rewrite Hg. cbn.
    unfold checked_sub. rewrite (proj2 (N.leb_le 1 _)) by lia. cbn.
    rewrite decide_True by lia.
    do 2 eexists. exists free'. split_and!; [done|lia|done|done|simpl; lia| |simpl; lia..].
    simpl. rewrite <- Hpart, !fmap_app. simpl. by rewrite Permutation_middle.
Qed.

Lemma push_spec pool stacks ks i st l k max_depth :
  pool_stacks pool stacks ks -> stacks !! i = Some st -> ks !! i = Some l -> k <> FVacant ->
  if decide (len l < max_depth /\ total_frames ks < len (slots pool))
  then exists pool' st', push k max_depth (pool, st) = Val tt (pool', st') /\
         pool_stacks pool' (<[i := st']> stacks) (<[i := k :: l]> ks) /\
         len (slots pool') = len (slots pool)
  else push k max_depth (pool, st) = Throw Frames (pool, st).
Proof.
  intros (ents & free & H & ->) Hi Hks Hk.
  rewrite list_lookup_fmap in Hks. destruct (ents !! i) as [es|] eqn:He; simplify_eq/=.
  destruct (Forall2_lookup_lr _ _ _ _ _ _ (rep_stacks _ _ _ _ H) Hi He) as (_ & Hd & _).
  rewrite total_frames_ents. unfold push, bind, gets, id. cbn -[take_slot].
  assert (len es.*2 = len es) as -> by (unfold len; by rewrite length_fmap).
  destruct (N.leb_spec max_depth (depth st)) as [Hmax|Hmax].
  { by rewrite decide_False by lia. }
  pose proof (take_slot_spec _ _ _ _ st H) as Htake. revert Htake.
  case_decide as Hroom; [|intros ->; by rewrite decide_False by lia].
  intros (j & m' & free' & -> & Hj & ? & ? & ? & ? & Hn).
  rewrite decide_True by lia. cbn.
  destruct (get_lt _ _ Hj) as [x ->]. cbn.
  assert (depth st < u32_max) as Hdep.
  { rewrite Hd. pose proof (len_concat_lookup _ _ _ He).
    pose proof (rep_width _ _ _ _ H). lia. }
  unfold checked_add. rewrite (proj2 (N.leb_le _ _)) by lia. cbn.
  do 2 eexists. split; [done|]. split; [|apply len_upd].
  exists (<[i := (j, k) :: es]> ents), free'. split; [|by rewrite list_fmap_insert].
  by eapply rep_push.
Qed.

(** Removing an element of one list of a family. *)
Lemma concat_ents_pop ents i j k es :
  ents !! i = Some ((j, k) :: es) -> (concat ents).*1 ≡ₚ j :: (concat (<[i := es]> ents)).*1.
Proof.
  intros He. pose proof (concat_insert_cons (<[i := es]> ents) i (j, k) es) as Hc.
  rewrite list_insert_insert_eq, (list_insert_id ents i ((j, k) :: es)) in Hc by done.
  rewrite Hc; [done|]. apply list_lookup_insert_eq. by eapply lookup_lt_Some.
Qed.

(** The slot of the innermost frame is used, and owned by nothing else. *)
Lemma rep_top_slot pool stacks ents free i j k es :
  pool_rep pool stacks ents free -> ents !! i = Some ((j, k) :: es) ->
  j < next_unused (meta pool) /\ j ∉ free.*1 /\
  j :: ((concat (<[i := es]> ents)).*1 ++ free.*1) ≡ₚ range (next_unused (meta pool)).
Proof.
  intros H He. split_and!.
  - rewrite <- (rep_owned _ _ _ _ _ H), fmap_app, elem_of_app. left.
    eapply elem_of_concat_fst; [done|by left].
  - pose proof (rep_nodup _ _ _ _ H) as Hnd.
    rewrite fmap_app, (concat_ents_pop _ _ _ _ _ He) in Hnd. simpl in Hnd.
    apply list.NoDup_cons in Hnd as [Hjn _]. rewrite not_elem_of_app in Hjn. tauto.
  - rewrite <- (rep_partition _ _ _ _ H), fmap_app, (concat_ents_pop _ _ _ _ _ He). done.
Qed.

(** Popping the highest used slot gives it back to the unused part. *)
Lemma rep_pop_last pool stacks ents free i st j k es d p :
  pool_rep pool stacks ents free ->
  stacks !! i = Some st -> ents !! i = Some ((j, k) :: es) -> d + 1 = depth st ->
  get (slots pool) j = Some (Some (mkFrame k p)) -> j + 1 = next_unused (meta pool) ->
  pool_rep (mkPool (upd (slots pool) j None)
              (mkMeta (next_unused (meta pool) - 1) (free_head (meta pool))
                 (free_count (meta pool))))
    (<[i := mkStack p d]> stacks) (<[i := es]> ents) free.
Proof.
  intros H Hi He Hd Hg Hlast. destruct (rep_top_slot _ _ _ _ _ _ _ _ H He) as (Hj & Hjf & Hpart).
  pose proof (rep_used _ _ _ _ H) as Hused. eapply rep_pop; eauto; simpl.
  - apply linked_upd; [done|]. apply (rep_free _ _ _ _ H).
  - apply (rep_vacant _ _ _ _ H).
  - apply (rep_free_count _ _ _ _ H).
  - rewrite <- Hlast, range_succ in Hpart. rewrite fmap_app.
    replace (next_unused (meta pool) - 1) with j by lia.
    apply (Permutation_cons_inv (a := j)). rewrite Hpart.
    symmetry. apply Permutation_cons_append.
  - lia.
  - intros x Hx Hlt. destruct (decide (x = j)) as [->|]; [by rewrite get_upd_eq by lia|].
    rewrite get_upd_ne by done. apply (rep_unused _ _ _ _ H); lia.
Qed.

(** Popping an inner slot puts it at the head of the free list. *)
Lemma rep_pop_inner pool stacks ents free i st j k es d p :
  pool_rep pool stacks ents free ->
  stacks !! i = Some st -> ents !! i = Some ((j, k) :: es) -> d + 1 = depth st ->
  get (slots pool) j = Some (Some (mkFrame k p)) ->
  pool_rep (mkPool (upd (slots pool) j (Some (mkFrame FVacant (free_head (meta pool)))))
              (mkMeta (next_unused (meta pool)) j (free_count (meta pool) + 1)))
    (<[i := mkStack p d]> stacks) (<[i := es]> ents) ((j, FVacant) :: free).
Proof.
  intros H Hi He Hd Hg. destruct (rep_top_slot _ _ _ _ _ _ _ _ H He) as (Hj & Hjf & Hpart).
  pose proof (rep_used _ _ _ _ H) as Hused. eapply rep_pop; eauto; simpl.
  - split; [done|]. eexists. rewrite get_upd_eq by lia. split; [done|].
    apply linked_upd; [done|]. apply (rep_free _ _ _ _ H).
  - constructor; [done|]. apply (rep_vacant _ _ _ _ H).
  - rewrite (rep_free_count _ _ _ _ H). unfold len. simpl. lia.
  - rewrite <- Hpart, fmap_app. simpl. by rewrite Permutation_middle.
  - intros x Hx Hlt. rewrite get_upd_ne by lia. apply (rep_unused _ _ _ _ H); lia.
Qed.

Lemma pop_spec pool stacks ks i st l :
  pool_stacks pool stacks ks -> stacks !! i = Some st -> ks !! i = Some l ->
  match l with
  | [] => pop (pool, st) = Val None (pool, st)
  | k :: l' => exists pool' st', pop (pool, st) = Val (Some k) (pool', st') /\
      pool_stacks pool' (<[i := st']> stacks) (<[i := l']> ks) /\
      len (slots pool') = len (slots pool)
  end.
Proof.
  intros (ents & free & H & ->) Hi Hks.
  rewrite list_lookup_fmap in Hks. destruct (ents !! i) as [es|] eqn:He; simplify_eq/=.
  destruct (Forall2_lookup_lr _ _ _ _ _ _ (rep_stacks _ _ _ _ H) Hi He) as (Hl & Hd & _).
  unfold pop, bind, gets, id. cbn.
  destruct es as [|[j k] es]; simpl in Hl; [by rewrite Hd|].
  destruct Hl as (Htop & p & Hg & Hl).
  assert (len ((j, k) :: es) = len es + 1) as Hlen by (unfold len; simpl; lia).
  rewrite Hlen in Hd. rewrite Hd, (proj2 (N.eqb_neq (len es + 1) 0)), Htop, Hg by lia. cbn.
  unfold checked_sub. rewrite (proj2 (N.leb_le 1 (len es + 1))) by lia. cbn.
  destruct (N.eqb_spec (j + 1) (next_unused (meta pool))) as [Hlast|Hlast]; cbn.
  - rewrite (proj2 (N.leb_le 1 _)) by lia. cbn.
    do 2 eexists. split; [done|]. split; [|apply len_upd].
    exists (<[i := es]> ents), free. split; [|by rewrite list_fmap_insert].
    eapply rep_pop_last; eauto. lia.
  - assert (free_count (meta pool) + 1 <= u32_max) as Hfc.
    { pose proof (rep_counts _ _ _ _ H) as Hc. pose proof (rep_width _ _ _ _ H).
      pose proof (rep_used _ _ _ _ H). pose proof (len_concat_lookup _ _ _ He).
      rewrite (rep_free_count _ _ _ _ H). lia. }
    unfold checked_add. rewrite (proj2 (N.leb_le _ _)) by done. cbn.
    do 2 eexists. split; [done|]. rewrite upd_upd. split; [|apply len_upd].
    exists (<[i := es]> ents), ((j, FVacant) :: free). split; [|by rewrite list_fmap_insert].
    eapply rep_pop_inner; eauto. lia.
Qed.

Lemma check_spec pool stacks ks i st l count max_depth :
  pool_stacks pool stacks ks -> stacks !! i = Some st -> ks !! i = Some l ->
  count <= u32_max ->
  check count max_depth (pool, st) =
    if decide (len l + count <= max_depth /\ total_frames ks + count <= len (slots pool))
    then Val tt (pool, st) else Throw Frames (pool, st).
Proof.
  intros Hks Hi Hl Hc.
  destruct (stacks_lookup _ _ _ _ _ Hks Hi) as (l' & ? & Hd). simplify_eq.
  pose proof (fun x => len_concat_lookup ks i l x) as Hle.
  destruct Hks as (ents & free & H & ->). specialize (Hle Hl).
  unfold total_frames in Hle. rewrite total_frames_ents.
  assert (len (concat ((fun es => es.*2) <$> ents)) = len (concat ents)) as Hlc.
  { apply total_frames_ents. }
  pose proof (rep_counts _ _ _ _ H) as Hcnt. pose proof (rep_used _ _ _ _ H).
  pose proof (rep_width _ _ _ _ H). pose proof (rep_free_count _ _ _ _ H) as Hf.
  assert (u32_max + u32_max <= usize_max) by done.
  case_decide as Hok; unfold check, bind, gets, id; cbn; unfold checked_add, checked_sub;
    rewrite Hd, (proj2 (N.leb_le (len l + count) usize_max)) by lia; cbn;
    rewrite (proj2 (N.leb_le (next_unused (meta pool)) (len (slots pool)))) by lia; cbn;
    rewrite (proj2 (N.leb_le (len (slots pool) - next_unused (meta pool) +
      free_count (meta pool)) usize_max)) by lia; cbn;
    destruct (N.ltb_spec max_depth (len l + count)), (N.ltb_spec
      (len (slots pool) - next_unused (meta pool) + free_count (meta pool)) count); cbn;
    (done || lia).
Qed.

(** A fresh arena with [n] tasks holds empty stacks. *)
Lemma pool_new_spec (frames : list (option (Frame V E))) (n : nat) :
  len frames <= u32_max ->
  pool_stacks (pool_new frames) (replicate n default_stack) (replicate n []).
Proof.
  intros Hw. exists (replicate n []), []. split; [|by rewrite fmap_replicate].
  split; simpl; try done.
  - apply Forall2_replicate. by split_and!.
  - assert (concat (replicate n (@nil (N * FrameKind V E))) = []) as ->; [|done].
    by induction n.
  - lia.
  - unfold len. by rewrite length_fmap.
  - intros i _ Hi. unfold len in Hi. rewrite length_fmap in Hi.
    rewrite get_lookup, list_lookup_fmap.
    destruct (lookup_lt_is_Some_2 frames (N.to_nat i)) as [x ->]; [lia|done].
Qed.

Lemma linked_app ss ss' i es : linked ss i es -> linked (ss ++ ss') i es.
Proof.
  revert i. induction es as [|[j k] es IH]; intros i; simpl; [done|].
  intros (-> & p & Hg & Hl). split; [done|]. exists p. split; [by apply get_app_l|auto].
Qed.

Lemma concat_app_nils {A} (ls : list (list A)) n : concat (ls ++ replicate n []) = concat ls.
Proof. rewrite concat_app. induction n; simpl; by rewrite ?app_nil_r in *. Qed.

(** Appending empty slots and idle tasks changes no stack. *)
Lemma pool_grow pool stacks ks m n :
  pool_stacks pool stacks ks -> len (slots pool ++ replicate m None) <= u32_max ->
  pool_stacks (mkPool (slots pool ++ replicate m None) (meta pool))
    (stacks ++ replicate n default_stack) (ks ++ replicate n []).
Proof.
  intros (ents & free & H & ->) Hw. exists (ents ++ replicate n []), free.
  split; [|by rewrite fmap_app, fmap_replicate]. destruct H. split; simpl; try done.
  - apply Forall2_app; [|by apply Forall2_replicate].
    eapply Forall2_impl; [|exact rep_stacks0].
    intros st es (Hl & ? & ?). split_and!; try done. by apply linked_app.
  - by apply linked_app.
  - by rewrite concat_app_nils.
  - rewrite len_app_replicate. lia.
  - intros i Hi Hlt. rewrite len_app_replicate in Hlt. destruct (N.lt_ge_cases i (len (slots pool))).
    + apply get_app_l. by apply rep_unused0.
    + rewrite get_lookup, lookup_app_r by (unfold len in *; lia).
      apply lookup_replicate. unfold len in *. split; [done|lia].
Qed.
End refinement.

(** ** The arena as a bounded stack per task

    The abstract component keeps a list of continuations per task; a push is
    rejected when the task's stack or the shared capacity is full. *)
Inductive pool_op (V E : Type) : Type :=
| OpPush (task : nat) (kind : FrameKind V E)
| OpPop (task : nat).
Arguments OpPush {V E} _ _.
Arguments OpPop {V E} _.

Inductive reply (V E : Type) : Type :=
| Pushed
| Rejected (fault : Fault)
| Popped (kind : option (FrameKind V E)).
Arguments Pushed {V E}.
Arguments Rejected {V E} _.
Arguments Popped {V E} _.

Definition spec_op {V E} (capacity max_depth : N) (op : pool_op V E)
    (ks : list (list (FrameKind V E))) : reply V E * list (list (FrameKind V E)) :=
  match op with
  | OpPush i k =>
      let l := default [] (ks !! i) in
      if decide (len l < max_depth /\ total_frames ks < capacity)
      then (Pushed, <[i := k :: l]> ks) else (Rejected Frames, ks)
  | OpPop i =>
      match default [] (ks !! i) with
      | [] => (Popped None, ks)
      | k :: l => (Popped (Some k), <[i := l]> ks)
      end
  end.

Fixpoint spec_run {V E} (capacity max_depth : N) (ops : list (pool_op V E))
    (ks : list (list (FrameKind V E))) : list (reply V E) :=
  match ops with
  | [] => []
  | op :: ops' =>
      let '(r, ks') := spec_op capacity max_depth op ks in
      r :: spec_run capacity max_depth ops' ks'
  end.

(** The concrete operation on the arena and the stack of one task; [None] when it stops. *)
Definition impl_op {V E} (max_depth : N) (op : pool_op V E)
    (s : FramePool V E * list Stack) : option (reply V E * (FramePool V E * list Stack)) :=
  let '(pool, stacks) := s in
  match op with
  | OpPush i k =>
      st ← stacks !! i;
      match push k max_depth (pool, st) with
      | Val _ (pool', st') => Some (Pushed, (pool', <[i := st']> stacks))
      | Throw f (pool', st') => Some (Rejected f, (pool', <[i := st']> stacks))
      | Stop _ => None
      end
  | OpPop i =>
      st ← stacks !! i;
      match pop (pool, st) with
      | Val o (pool', st') => Some (Popped o, (pool', <[i := st']> stacks))
      | Throw f (pool', st') => Some (Rejected f, (pool', <[i := st']> stacks))
      | Stop _ => None
      end
  end.

Fixpoint impl_run {V E} (max_depth : N) (ops : list (pool_op V E))
    (s : FramePool V E * list Stack) : option (list (reply V E)) :=
  match ops with
  | [] => Some []
  | op :: ops' =>
      '(r, s') ← impl_op max_depth op s;
      rs ← impl_run max_depth ops' s';
      Some (r :: rs)
  end.

(** Operations name an existing task and never push the vacant marker. *)
Definition op_ok {V E} (tasks : nat) (op : pool_op V E) : Prop :=
  match op with
  | OpPush i k => (i < tasks)%nat /\ k <> FVacant
  | OpPop i => (i < tasks)%nat
  end.

Section runs.
Context {V E : Type}.

Lemma stacks_length pool stacks (ks : list (list (FrameKind V E))) :
  pool_stacks pool stacks ks -> length ks = length stacks.
Proof.
  intros (ents & free & H & ->). rewrite length_fmap. symmetry.
  eapply Forall2_length, (rep_stacks _ _ _ _ H).
Qed.

Lemma impl_op_spec max_depth (op : pool_op V E) pool stacks ks :
  pool_stacks pool stacks ks -> op_ok (length stacks) op ->
  exists pool' stacks',
    impl_op max_depth op (pool, stacks) =
      Some (fst (spec_op (len (slots pool)) max_depth op ks), (pool', stacks')) /\
    pool_stacks pool' stacks' (snd (spec_op (len (slots pool)) max_depth op ks)) /\
    len (slots pool') = len (slots pool) /\ length stacks' = length stacks.
Proof.
  intros H Hok.
  assert (forall i, (i < length stacks)%nat -> exists st l, stacks !! i = Some st /\ ks !! i = Some l)
    as Hlook.
  { intros i Hi. destruct (lookup_lt_is_Some_2 stacks i Hi) as [st Hst].
    destruct (stacks_lookup _ _ _ _ _ H Hst) as (l & Hl & _). eauto. }
  destruct op as [i k|i]; simpl in *.
  - destruct Hok as [Hi Hk]. destruct (Hlook i Hi) as (st & l & Hst & Hl).
    rewrite Hst, Hl. simpl.
    pose proof (push_spec _ _ _ _ _ _ k max_depth H Hst Hl Hk) as Hp. revert Hp.
    case_decide.
    + intros (pool' & st' & -> & Hrep & Hlen). do 2 eexists. split; [done|].
      split_and!; [done..|]. by rewrite length_insert.
    + intros ->. do 2 eexists. split; [done|]. rewrite list_insert_id by done. done.
  - destruct (Hlook i Hok) as (st & l & Hst & Hl). rewrite Hst, Hl. simpl.
    pose proof (pop_spec _ _ _ _ _ _ H Hst Hl) as Hp. destruct l as [|k l].
    + rewrite Hp. do 2 eexists. split; [done|]. rewrite list_insert_id by done. done.
    + destruct Hp as (pool' & st' & -> & Hrep & Hlen). do 2 eexists. split; [done|].
      split_and!; [done..|]. by rewrite length_insert.
Qed.

Lemma impl_run_spec max_depth (ops : list (pool_op V E)) pool stacks ks :
  pool_stacks pool stacks ks -> Forall (op_ok (length stacks)) ops ->
  impl_run max_depth ops (pool, stacks) = Some (spec_run (len (slots pool)) max_depth ops ks).
Proof.
  revert pool stacks ks. induction ops as [|op ops IH]; intros pool stacks ks H Hok; [done|].
  apply list.Forall_cons in Hok as [Hop Hops].
  destruct (impl_op_spec max_depth op _ _ _ H Hop) as (pool' & stacks' & Hi & Hs & Hl & Hn).
  cbn [impl_run spec_run]. rewrite Hi. simpl. rewrite <- Hn in Hops.
  rewrite (IH _ _ _ Hs Hops), Hl. by destruct (spec_op _ _ _ _).
Qed.
End runs.

(** C2: any interleaving of pushes and pops by any number of tasks on the shared
    arena gives the replies of one bounded stack per task: last in, first out for
    each task, rejection exactly when the task's depth limit or the shared capacity
    is reached, and no index or counter ever leaves its bounds. *)
Theorem frame_pool_refines_stacks {V E} (frames : list (option (Frame V E))) (n : nat)
    (max_depth : N) (ops : list (pool_op V E)) :
  len frames <= u32_max -> Forall (op_ok n) ops ->
  impl_run max_depth ops (pool_new frames, replicate n default_stack) =
    Some (spec_run (len frames) max_depth ops (replicate n [])).
Proof.
  intros Hw Hops.
  rewrite (impl_run_spec _ _ _ _ (replicate n [])) by
    (by rewrite ?length_replicate; auto using pool_new_spec).
  unfold pool_new, len. simpl. by rewrite length_fmap.
Qed.

Lemma frame_pool_refines_stacks_witness :
  impl_run (V := N) (E := unit) 2
    [OpPush 0 (FFinish 7); OpPush 1 (FThen 3); OpPop 0; OpPush 1 (FContext 9);
     OpPush 0 (FCatch 1); OpPop 1; OpPop 1; OpPop 1]
    (pool_new [None; None], replicate 2 default_stack) =
  Some [Pushed; Pushed; Popped (Some (FFinish 7)); Pushed; Rejected Frames;
        Popped (Some (FContext 9)); Popped (Some (FThen 3)); Popped None].
Proof.
  rewrite (frame_pool_refines_stacks [None; None] 2 2).
  - vm_compute. reflexivity.
  - vm_compute. discriminate.
  - repeat constructor; discriminate.
Defined.
