(* ===== verification/Machine.v ===== *)
(** * The execution machine (crates/xolotl-core/src/machine.rs, machine/references.rs)

    The cooperative multi-task machine: task slots, the shared continuation arena,
    the binding rows, the request/response protocol with the host, structured
    cancellation and cleanup.  Every method of [Execution] and [ExecutionView] is
    a definition here; a method that mutates is a [comp] over the execution and the
    host's value state. *)

From stdpp Require Import base numbers list option.
From S2P Require Import Prelude Program Frame.

Local Open Scope N_scope.
Local Open Scope comp_scope.

(** ** Data *)

Record ExecutionLimits : Type := mkLimits {
  frames_per_task : N;
  bindings_per_task : N;
  max_steps : option N;
  limit_cleanup_steps : N
}.

(** [ExecutionLimits::default]. *)
Definition default_limits : ExecutionLimits := mkLimits 64 64 None 4096.

Record JoinState : Type := mkJoin {
  join_left : N;
  join_right : N;
  join_kind : Join;
  join_node : N
}.

Inductive State (V E : Type) : Type :=
| SFree
| SReady
| SWaiting (ticket node : N)
| SJoining (join : JoinState)
| SReturning (outcome : Result V E)
| SDone (outcome : Result V E)
| SHalted (outcome : Result V E) (join : option JoinState).
Arguments SFree {V E}.
Arguments SReady {V E}.
Arguments SWaiting {V E} _ _.
Arguments SJoining {V E} _.
Arguments SReturning {V E} _.
Arguments SDone {V E} _.
Arguments SHalted {V E} _ _.

(** [State::terminal_result]. *)
Definition terminal_result {V E} (self : State V E) : option (Result V E) :=
  match self with
  | SDone outcome | SHalted outcome _ => Some outcome
  | _ => None
  end.

(** [State::join]. *)
Definition state_join {V E} (self : State V E) : option JoinState :=
  match self with
  | SJoining join | SHalted _ (Some join) => Some join
  | _ => None
  end.

Record Task (V E : Type) : Type := mkTask {
  task_state : State V E;
  task_pc : N;
  task_input : option V;
  task_stack : Stack;
  task_context : N;
  task_parent : option N;
  task_cleaning : N;
  task_cancelled : bool
}.
Arguments mkTask {V E} _ _ _ _ _ _ _ _.
Arguments task_state {V E} _.
Arguments task_pc {V E} _.
Arguments task_input {V E} _.
Arguments task_stack {V E} _.
Arguments task_context {V E} _.
Arguments task_parent {V E} _.
Arguments task_cleaning {V E} _.
Arguments task_cancelled {V E} _.

(** [Task::default]. *)
Definition default_task {V E} : Task V E :=
  mkTask SFree 0 None default_stack 0 None 0 false.

Record Request (V : Type) : Type := mkRequest {
  request_task : N;
  request_ticket : N;
  request_import : N;
  request_input : V;
  request_context : N;
  request_position : N;
  request_cleanup : bool
}.
Arguments mkRequest {V} _ _ _ _ _ _ _.
Arguments request_task {V} _.
Arguments request_ticket {V} _.
Arguments request_import {V} _.
Arguments request_input {V} _.
Arguments request_context {V} _.
Arguments request_position {V} _.
Arguments request_cleanup {V} _.

Inductive Advance (V E : Type) : Type :=
| ARequest (request : Request V)
| ACancel (task ticket : N)
| AYielded
| AWaiting
| ADone (result : Result V E).
Arguments ARequest {V E} _.
Arguments ACancel {V E} _ _.
Arguments AYielded {V E}.
Arguments AWaiting {V E}.
Arguments ADone {V E} _.

Inductive HostEvent (V E : Type) : Type :=
| HComplete (result : Result V E)
| HEnter (context : N)
| HContinue (entry : N) (input : V).
Arguments HComplete {V E} _.
Arguments HEnter {V E} _.
Arguments HContinue {V E} _ _.

Record Execution (V E : Type) : Type := mkExec {
  tasks : list (Task V E);
  frames : FramePool V E;
  bindings : list (option V);
  limits : ExecutionLimits;
  steps : N;
  cleanup_steps : N;
  ticket : N;
  cursor : N;
  aborting : bool;
  exec_image_id : list N
}.
Arguments mkExec {V E} _ _ _ _ _ _ _ _ _ _.
Arguments tasks {V E} _.
Arguments frames {V E} _.
Arguments bindings {V E} _.
Arguments limits {V E} _.
Arguments steps {V E} _.
Arguments cleanup_steps {V E} _.
Arguments ticket {V E} _.
Arguments cursor {V E} _.
Arguments aborting {V E} _.
Arguments exec_image_id {V E} _.

Record SuspendedExecution : Type := mkSuspended {
  task_count : N;
  frame_count : N;
  susp_image_id : list N;
  susp_limits : ExecutionLimits;
  frame_pool : FramePoolMeta;
  susp_steps : N;
  susp_cleanup_steps : N;
  susp_ticket : N;
  susp_cursor : N;
  susp_aborting : bool
}.

Record ExecutionView (V E : Type) : Type := mkView {
  view_meta : SuspendedExecution;
  view_tasks : list (Task V E);
  view_frames : list (option (Frame V E));
  view_bindings : list (option V)
}.
Arguments mkView {V E} _ _ _ _.
Arguments view_meta {V E} _.
Arguments view_tasks {V E} _.
Arguments view_frames {V E} _.
Arguments view_bindings {V E} _.

(** ** Field updates *)

Definition with_state {V E} (t : Task V E) (s : State V E) : Task V E :=
  mkTask s (task_pc t) (task_input t) (task_stack t) (task_context t) (task_parent t)
    (task_cleaning t) (task_cancelled t).
Definition with_input {V E} (t : Task V E) (i : option V) : Task V E :=
  mkTask (task_state t) (task_pc t) i (task_stack t) (task_context t) (task_parent t)
    (task_cleaning t) (task_cancelled t).
Definition with_stack {V E} (t : Task V E) (st : Stack) : Task V E :=
  mkTask (task_state t) (task_pc t) (task_input t) st (task_context t) (task_parent t)
    (task_cleaning t) (task_cancelled t).
Definition with_context {V E} (t : Task V E) (c : N) : Task V E :=
  mkTask (task_state t) (task_pc t) (task_input t) (task_stack t) c (task_parent t)
    (task_cleaning t) (task_cancelled t).
Definition with_parent {V E} (t : Task V E) (p : option N) : Task V E :=
  mkTask (task_state t) (task_pc t) (task_input t) (task_stack t) (task_context t) p
    (task_cleaning t) (task_cancelled t).
Definition with_cleaning {V E} (t : Task V E) (c : N) : Task V E :=
  mkTask (task_state t) (task_pc t) (task_input t) (task_stack t) (task_context t)
    (task_parent t) c (task_cancelled t).
Definition with_cancelled {V E} (t : Task V E) (c : bool) : Task V E :=
  mkTask (task_state t) (task_pc t) (task_input t) (task_stack t) (task_context t)
    (task_parent t) (task_cleaning t) c.

Definition with_tasks {V E} (x : Execution V E) (ts : list (Task V E)) : Execution V E :=
  mkExec ts (frames x) (bindings x) (limits x) (steps x) (cleanup_steps x) (ticket x)
    (cursor x) (aborting x) (exec_image_id x).
Definition with_frames {V E} (x : Execution V E) (p : FramePool V E) : Execution V E :=
  mkExec (tasks x) p (bindings x) (limits x) (steps x) (cleanup_steps x) (ticket x)
    (cursor x) (aborting x) (exec_image_id x).
Definition with_bindings {V E} (x : Execution V E) (b : list (option V)) : Execution V E :=
  mkExec (tasks x) (frames x) b (limits x) (steps x) (cleanup_steps x) (ticket x)
    (cursor x) (aborting x) (exec_image_id x).
Definition with_steps {V E} (x : Execution V E) (n : N) : Execution V E :=
  mkExec (tasks x) (frames x) (bindings x) (limits x) n (cleanup_steps x) (ticket x)
    (cursor x) (aborting x) (exec_image_id x).
Definition with_cleanup_steps {V E} (x : Execution V E) (n : N) : Execution V E :=
  mkExec (tasks x) (frames x) (bindings x) (limits x) (steps x) n (ticket x)
    (cursor x) (aborting x) (exec_image_id x).
Definition with_ticket {V E} (x : Execution V E) (n : N) : Execution V E :=
  mkExec (tasks x) (frames x) (bindings x) (limits x) (steps x) (cleanup_steps x) n
    (cursor x) (aborting x) (exec_image_id x).
Definition with_cursor {V E} (x : Execution V E) (n : N) : Execution V E :=
  mkExec (tasks x) (frames x) (bindings x) (limits x) (steps x) (cleanup_steps x) (ticket x)
    n (aborting x) (exec_image_id x).
Definition with_aborting {V E} (x : Execution V E) (b : bool) : Execution V E :=
  mkExec (tasks x) (frames x) (bindings x) (limits x) (steps x) (cleanup_steps x) (ticket x)
    (cursor x) b (exec_image_id x).

(** ** Inspection: [ExecutionView] *)

Section views.
Context {V E : Type}.

(** [ExecutionView::result]. *)
Definition view_result (self : ExecutionView V E) : option (Result V E) :=
  match view_tasks self with
  | [] => None
  | t :: _ => terminal_result (task_state t)
  end.

Definition waiting_ticket (t : Task V E) : option N :=
  match task_state t with
  | SWaiting ticket _ => Some ticket
  | _ => None
  end.

(** [ExecutionView::pending_tickets]. *)
Definition pending_tickets (self : ExecutionView V E) : list N :=
  omap waiting_ticket (view_tasks self).

Definition is_free (s : State V E) : bool :=
  match s with SFree => true | _ => false end.

(** [ExecutionView::contexts]. *)
Definition contexts (self : ExecutionView V E) : list N :=
  (task_context <$> filter (fun t => is_free (task_state t) = false) (view_tasks self)) ++
  omap (fun frame => f ← frame; saved_context f) (view_frames self).

(** One step of the [filter_map] of [pending_requests]. *)
Definition pending_request (image : ProgramImage V E) (index : N) (t : Task V E)
    : option (Request V) :=
  match task_state t with
  | SWaiting ticket node =>
      match node_at image node with
      | Err _ => None
      | Ok n =>
          match node_kind n with
          | NRequest import | NScope import _ =>
              input ← task_input t;
              Some (mkRequest index ticket import input (task_context t) (node_position n)
                      (0 <? task_cleaning t))
          | _ => None
          end
      end
  | _ => None
  end.

Fixpoint pending_from (image : ProgramImage V E) (index : N) (l : list (Task V E))
    : list (Request V) :=
  match l with
  | [] => []
  | t :: l' =>
      match pending_request image index t with
      | Some r => r :: pending_from image (index + 1) l'
      | None => pending_from image (index + 1) l'
      end
  end.

(** [pending_requests], shared by the view and the execution. *)
Definition pending_requests (ts : list (Task V E)) (image : ProgramImage V E)
    : list (Request V) := pending_from image 0 ts.

(** [references::continuations]. *)
Definition continuations (fs : list (option (Frame V E))) : list (N * N) :=
  omap (fun frame => f ← frame;
          match frame_kind f with
          | FContinuation node entry => Some (node, entry)
          | _ => None
          end) fs.

(** [ExecutionView::instruction_indices]: what a task and a frame retain. *)
Definition task_index (t : Task V E) : option N :=
  match task_state t with
  | SReady => Some (task_pc t)
  | SWaiting _ node => Some node
  | SJoining join | SHalted _ (Some join) => Some (join_node join)
  | SFree | SReturning _ | SDone _ | SHalted _ None => None
  end.

Definition frame_indices (frame : option (Frame V E)) : list N :=
  match frame_kind <$> frame with
  | Some (FContinuation node entry) => [node; entry]
  | Some (FFinish node) | Some (FThen node) | Some (FCatch node)
  | Some (FFinally node _) | Some (FBind _ node) => [node]
  | Some (FCondition condition body _ _) | Some (FIteration condition body _) =>
      [condition; body]
  | Some (FChoose yes no _) => [yes; no]
  | _ => []
  end.

Definition instruction_indices (self : ExecutionView V E) : list N :=
  omap task_index (view_tasks self) ++ concat (frame_indices <$> view_frames self).
End views.

(** ** Operations *)

Section machine.
Context {H V E : Type} `{!Values H V E}.
Implicit Types image : ProgramImage V E.

(** The execution and the host's value state it is driven with. *)
Definition machine : Type := Execution V E * H.

Definition exec {X} : comp machine X (Execution V E) := gets fst.
Definition put_exec {X} (x : Execution V E) : comp machine X unit :=
  modify (fun s => (x, snd s)).

(** A call of a [Values] method. *)
Definition host {X A} (f : H -> A * H) : comp machine X A :=
  fun s => let '(a, h) := f (snd s) in Val a (fst s, h).

(** [self.tasks[i]] read and written. *)
Definition task_at {X} (i : N) : comp machine X (Task V E) :=
  let* x := exec in expect (get (tasks x) i) OutOfBounds.
Definition update_task {X} (i : N) (f : Task V E -> Task V E) : comp machine X unit :=
  let* x := exec in
  let* t := expect (get (tasks x) i) OutOfBounds in
  put_exec (with_tasks x (upd (tasks x) i (f t))).

Definition set_state {X} (i : N) (s : State V E) : comp machine X unit :=
  update_task i (fun t => with_state t s).
Definition set_input {X} (i : N) (v : option V) : comp machine X unit :=
  update_task i (fun t => with_input t v).

(** [task * self.limits.bindings_per_task + slot]. *)
Definition binding_index {X} (task slot : N) : comp machine X N :=
  let* x := exec in
  let* base := expect (checked_mul usize_max task (bindings_per_task (limits x))) Overflow in
  expect (checked_add usize_max base slot) Overflow.
Definition read_binding {X} (task slot : N) : comp machine X (option V) :=
  let* index := binding_index task slot in
  let* x := exec in
  expect (get (bindings x) index) OutOfBounds.
Definition write_binding {X} (task slot : N) (v : option V) : comp machine X unit :=
  let* index := binding_index task slot in
  let* x := exec in
  let* _ := expect (get (bindings x) index) OutOfBounds in
  put_exec (with_bindings x (upd (bindings x) index v)).

(** An arena operation on the stack of one task. *)
Definition on_stack {A} (task : N) (op : pool_comp V E A) : comp machine Fault A :=
  let* t := task_at task in
  fun s =>
    let '(x, h) := s in
    let install pool st :=
      with_frames (with_tasks x (upd (tasks x) task (with_stack t st))) pool in
    match op (frames x, task_stack t) with
    | Val a (pool, st) => Val a (install pool st, h)
    | Throw f (pool, st) => Throw f (install pool st, h)
    | Stop why => Stop why
    end.

(** [Execution::push] and [Execution::pop]. *)
Definition push (task : N) (frame : FrameKind V E) : comp machine Fault unit :=
  let* x := exec in on_stack task (Frame.push frame (frames_per_task (limits x))).
Definition pop (task : N) : comp machine Fault (option (FrameKind V E)) :=
  on_stack task Frame.pop.

(** [Execution::start]. *)
Definition start {X} (task pc : N) (input : V) : comp machine X unit :=
  update_task task (fun t =>
    mkTask SReady pc (Some input) (task_stack t) (task_context t) (task_parent t)
      (task_cleaning t) (task_cancelled t)).

(** [Execution::influence_result]. *)
Definition task_influence_result (x : Execution V E) (task : N) (result : Result V E)
    : H -> Result V E * H :=
  match t ← get (tasks x) task; task_input t with
  | Some control => influence_result result control
  | None => fun h => (result, h)
  end.

(** [Execution::fault_result]. *)
Definition fault_result (x : Execution V E) (task : N) (fault : Fault) (h : H)
    : Result V E * H :=
  let '(e, h) := error fault h in
  let '(result, h) := task_influence_result x task (Err e) h in
  match task_state <$> get (tasks x) task with
  | Some (SReturning previous) | Some (SDone previous) =>
      let '(control, h) := retain_result previous h in
      influence_result result control h
  | _ => (result, h)
  end.

(** The first loop of [Execution::retain_control], over the task slots. *)
Definition retain_task (t : Task V E) (control : V) (h : H) : V * H :=
  if is_free (task_state t) then (control, h)
  else
    let '(control, h) :=
      match task_input t with
      | Some input => influence control input h
      | None => (control, h)
      end in
    match task_state t with
    | SReturning result | SDone result | SHalted result _ =>
        let '(result, h) := retain_result result h in
        influence control result h
    | _ => (control, h)
    end.

(** The second loop, over the continuation frames. *)
Definition retain_frame (frame : option (Frame V E)) (control : V) (h : H) : V * H :=
  match frame_kind <$> frame with
  | Some (FFinally _ input) | Some (FChoose _ _ input) | Some (FCondition _ _ _ input) =>
      influence control input h
  | Some (FCleaned outcome) =>
      let '(result, h) := retain_result outcome h in
      influence control result h
  | _ => (control, h)
  end.

Fixpoint retain_all {A} (f : A -> V -> H -> V * H) (l : list A) (control : V) (h : H) : V * H :=
  match l with
  | [] => (control, h)
  | a :: l' => let '(control, h) := f a control h in retain_all f l' control h
  end.

(** [Execution::retain_control]. *)
Definition exec_retain_control (x : Execution V E) (h : H) : V * H :=
  let '(control, h) := unit_value h in
  let '(control, h) := retain_all retain_task (tasks x) control h in
  retain_all retain_frame (slots (frames x)) control h.

(** [Execution::terminal_fault]. *)
Definition terminal_fault (x : Execution V E) (fault : Fault) (h : H) : Result V E * H :=
  let '(control, h) := exec_retain_control x h in
  let '(e, h) := error fault h in
  influence_result (Err e) control h.

(** [Execution::finish]. *)
Definition finish (task node : N) (result : Result V E) (image : ProgramImage V E)
    : comp machine Fault unit :=
  let* instruction := lift_result (node_at image node) in
  let* x := exec in
  let* result := host (task_influence_result x task result) in
  match result, node_next instruction with
  | Ok value, Some next => start task next value
  | _, _ => set_state task (SReturning result)
  end.

(** [Execution::new].  The three caller-owned slices are arguments; what they held
    before is overwritten. *)
Definition new (image : ProgramImage V E) (ts : list (Task V E))
    (fs : list (option (Frame V E))) (bs : list (option V)) (lim : ExecutionLimits)
    (input : V) (context : N) : Result (Execution V E) Fault :=
  match validate image with
  | Err f => Err f
  | Ok _ =>
      if (len ts =? 0) || (u32_max <? len ts) then Err Tasks
      else if u32_max <? len fs then Err Frames
      else if (bindings_per_task lim <? image_bindings image)
              || (len bs / len ts <? bindings_per_task lim) then Err InvalidBinding
      else
        let cleared := (fun _ => default_task) <$> ts in
        let root := mkTask SReady (entry image) (Some input) default_stack context None 0 false in
        Ok (mkExec (upd cleared 0 root) (pool_new fs) ((fun _ => None) <$> bs) lim
              0 0 0 0 false (image_id image))
  end.

(** [Execution::view] and [Execution::suspend]. *)
Definition view (x : Execution V E) : ExecutionView V E :=
  mkView
    (mkSuspended (len (tasks x)) (len (slots (frames x))) (exec_image_id x) (limits x)
       (meta (frames x)) (steps x) (cleanup_steps x) (ticket x) (cursor x) (aborting x))
    (tasks x) (slots (frames x)) (bindings x).
Definition suspend (x : Execution V E) : SuspendedExecution := view_meta (view x).

(** [Execution::from_view]. *)
Definition from_view (m : SuspendedExecution) (ts : list (Task V E))
    (fs : list (option (Frame V E))) (bs : list (option V)) : Execution V E :=
  mkExec ts (mkPool fs (frame_pool m)) bs (susp_limits m) (susp_steps m)
    (susp_cleanup_steps m) (susp_ticket m) (susp_cursor m) (susp_aborting m)
    (susp_image_id m).

(** [Execution::resume].  [tasks.len()] divides: an empty slice panics, and
    [None] stands for that panic. *)
Definition resume (image : ProgramImage V E) (m : SuspendedExecution) (ts : list (Task V E))
    (fs : list (option (Frame V E))) (bs : list (option V))
    : option (Result (Execution V E) Fault) :=
  if negb (bool_decide (image_id image = susp_image_id m)) then Some (Err ImageMismatch)
  else if (len ts <? task_count m) || (u32_max <? len ts) then Some (Err Tasks)
  else if (len fs <? frame_count m) || (u32_max <? len fs) then Some (Err Frames)
  else if bindings_per_task (susp_limits m) <? image_bindings image
       then Some (Err InvalidBinding)
  else if len ts =? 0 then None
  else if len bs / len ts <? bindings_per_task (susp_limits m)
       then Some (Err InvalidBinding)
  else Some (Ok (from_view m ts fs bs)).

(** [Execution::continuation_entries]. *)
Definition continuation_entries (x : Execution V E) : list N :=
  (continuations (slots (frames x))).*2.

(** [Execution::clear_bindings]: the slots [first..last] of every task's row. *)
Definition clear_bindings (first last : N) : comp machine Fault unit :=
  let* x := exec in
  if (last <? first) || (bindings_per_task (limits x) <? last) then throw InvalidBinding
  else if first <? last then
    for_each (range (len (tasks x))) (fun task =>
      for_each (range_from first (N.to_nat (last - first))) (fun slot =>
        write_binding task slot None))
  else ret tt.

(** [Execution::pending_requests]: the inputs are cloned. *)
Definition exec_pending_requests (x : Execution V E) (image : ProgramImage V E)
    : list (Request V) := pending_requests (tasks x) image.

(** [self.tasks[0].state.terminal_result()]. *)
Definition root_result (x : Execution V E) : option (Result V E) :=
  t ← get (tasks x) 0; terminal_result (task_state t).

(** [Execution::is_pending]. *)
Definition is_pending (x : Execution V E) (task tick : N) : bool :=
  match root_result x with
  | Some _ => false
  | None =>
      match task_state <$> get (tasks x) task with
      | Some (SWaiting live _) => live =? tick
      | _ => false
      end
  end.

Definition is_live (s : State V E) : bool :=
  match s with
  | SFree | SDone _ | SHalted _ _ => false
  | _ => true
  end.

Definition mark_cancelled (t : Task V E) : Task V E :=
  if is_live (task_state t) then with_cancelled t true else t.

(** [Execution::cancel]. *)
Definition cancel (x : Execution V E) : Execution V E :=
  match root_result x with
  | Some _ => x
  | None => with_aborting (with_tasks x (mark_cancelled <$> tasks x)) true
  end.

(** The [Enter] arm of [Execution::complete]. *)
Definition enter_scope (task node context : N) (image : ProgramImage V E)
    : comp machine Fault unit :=
  let* n := lift_result (node_at image node) in
  match node_kind n with
  | NScope _ body =>
      let* x := exec in
      on_stack task (Frame.check 2 (frames_per_task (limits x))) ;;;
      push task (FFinish node) ;;;
      let* t := task_at task in
      push task (FContext (task_context t)) ;;;
      update_task task (fun t => with_context t context) ;;;
      let* t := task_at task in
      set_input task None ;;;
      let* input := require (task_input t) TypeFault in
      start task body input
  | _ => throw StaleEvent
  end.

(** The [Continue] arm of [Execution::complete]. *)
Definition enter_continuation (task node entry : N) (input : V) (image : ProgramImage V E)
    : comp machine Fault unit :=
  let* _ := lift_result (node_at image entry) in
  push task (FContinuation node entry) ;;;
  let* t := task_at task in
  let* input := match task_input t with
                | Some control => host (influence input control)
                | None => ret input
                end in
  start task entry input.

(** The control a response carries. *)
Definition event_control (node : N) (event : HostEvent V E) (image : ProgramImage V E)
    : comp machine Fault (option V) :=
  match event with
  | HComplete result => let* c := host (retain_result result) in ret (Some c)
  | HContinue _ input =>
      let* n := lift_result (node_at image node) in
      match node_kind n with
      | NRequest _ => let* c := host (retain_control input) in ret (Some c)
      | _ => throw StaleEvent
      end
  | HEnter _ => ret None
  end.

(** A matching response's control is kept even if accepting it fails below. *)
Definition keep_control (task : N) (control : option V) : comp machine Fault unit :=
  match control with
  | Some control =>
      let* t := task_at task in
      let* input := match task_input t with
                    | Some input => host (influence input control)
                    | None => ret control
                    end in
      set_input task (Some input)
  | None => ret tt
  end.

(** [Execution::complete]. *)
Definition complete (task tick : N) (event : HostEvent V E) (image : ProgramImage V E)
    : comp machine Fault unit :=
  let* x := exec in
  if negb (bool_decide (image_id image = exec_image_id x)) then throw ImageMismatch
  else
    let* root := task_at 0 in
    if terminal_result (task_state root) then throw StaleEvent
    else
      match task_state <$> get (tasks x) task with
      | Some (SWaiting live node) =>
          if live =? tick then
            let* control := event_control node event image in
            keep_control task control ;;;
            match event with
            | HComplete result => finish task node result image
            | HEnter context => enter_scope task node context image
            | HContinue entry input => enter_continuation task node entry input image
            end
          else throw StaleEvent
      | _ => throw StaleEvent
      end.

(** The [while let Some(index) = parent] walk of [Execution::cancel_tree]; the
    fuel bounds the length of a parent chain. *)
Fixpoint has_ancestor {X} (fuel : nat) (root : N) (parent : option N) : comp machine X bool :=
  match parent with
  | None => ret false
  | Some index =>
      if index =? root then ret true
      else
        match fuel with
        | O => halt Unbounded
        | S fuel' =>
            let* t := task_at index in
            has_ancestor fuel' root (task_parent t)
        end
  end.

(** [Execution::cancel_tree]. *)
Definition cancel_tree {X} (root : N) : comp machine X unit :=
  update_task root (fun t => with_cancelled t true) ;;;
  let* x := exec in
  for_each (range (len (tasks x))) (fun candidate =>
    let* t := task_at candidate in
    let* below := has_ancestor (length (tasks x)) root (task_parent t) in
    if (below : bool) then update_task candidate (fun t => with_cancelled t true) else ret tt).

(** [while self.pop(task).is_some() {}]; a stack of depth [d] empties in [d] turns. *)
Fixpoint drain (fuel : nat) (task : N) : comp machine Fault unit :=
  let* popped := pop task in
  match popped with
  | None => ret tt
  | Some _ => match fuel with
              | O => halt Unbounded
              | S fuel' => drain fuel' task
              end
  end.

(** [Execution::free]. *)
Definition free (task : N) : comp machine Fault unit :=
  let* t := task_at task in
  drain (N.to_nat (depth (task_stack t))) task ;;;
  let* x := exec in
  for_each (range (bindings_per_task (limits x))) (fun slot => write_binding task slot None) ;;;
  update_task task (fun _ => default_task).

Definition is_done (s : State V E) : bool :=
  match s with SDone _ => true | _ => false end.

(** The outcome of a completed join. *)
Definition join_result (join : Join) (left_cancelled : bool) (a b : Result V E)
    : H -> Result V E * H :=
  match join with
  | All =>
      match a, b with
      | Ok a, Ok b => pair a b
      | Err e, _ => fun h => (Err e, h)
      | _, Err e => fun h => (Err e, h)
      end
  | Race => fun h => (if left_cancelled then b else a, h)
  end.

(** The [if a && b] block of the [Joining] arm: both outcomes are taken, the children
    are freed and the fork's instruction finishes. *)
Definition settle_join (task : N) (j : JoinState) (image : ProgramImage V E)
    : comp machine Fault (option (Advance V E)) :=
  let* tl := task_at (join_left j) in
  set_state (join_left j) SFree ;;;
  let* tr := task_at (join_right j) in
  set_state (join_right j) SFree ;;;
  match task_state tl, task_state tr with
  | SDone a, SDone b =>
      let* left_control := host (retain_result a) in
      let* right_control := host (retain_result b) in
      let* control := host (influence left_control right_control) in
      let* l := task_at (join_left j) in
      let* result := host (join_result (join_kind j) (task_cancelled l) a b) in
      let* result := host (influence_result result control) in
      free (join_left j) ;;;
      free (join_right j) ;;;
      finish task (join_node j) result image ;;;
      ret None
  | _, _ => throw TypeFault
  end.

(** The [Joining] arm of [Execution::transition]. *)
Definition transition_joining (task : N) (j : JoinState) (image : ProgramImage V E)
    : comp machine Fault (option (Advance V E)) :=
  set_state task (SJoining j) ;;;
  let* tl := task_at (join_left j) in
  let* tr := task_at (join_right j) in
  let a := is_done (task_state tl) in
  let b := is_done (task_state tr) in
  (if bool_decide (join_kind j = Race) && (a || b)
   then cancel_tree (if a then join_right j else join_left j)
   else ret tt) ;;;
  if a && b then settle_join task j image else ret None.

(** [self.tasks[task].state = State::Returning(result)]. *)
Definition returning (task : N) (result : Result V E) : comp machine Fault unit :=
  set_state task (SReturning result).

(** A branch condition, evaluated on a value that the host may reject. *)
Definition truth_of (test : V) : comp machine Fault (Result bool E) := host (truth test).

(** The successful [Bind] arm: the shadowed value moves into an [Unbind] frame. *)
Definition bind_value (task slot body : N) (value : V) : comp machine Fault unit :=
  let* x := exec in
  on_stack task (Frame.check 1 (frames_per_task (limits x))) ;;;
  let* previous := read_binding task slot in
  write_binding task slot None ;;;
  push task (FUnbind slot previous) ;;;
  write_binding task slot (Some value) ;;;
  start task body value.

(** The frame arms of the [Returning] case of [Execution::transition]. *)
Definition resume_frame (task : N) (frame : FrameKind V E) (outcome : Result V E)
    (image : ProgramImage V E) : comp machine Fault unit :=
  match frame with
  | FVacant => throw InvalidState
  | FFinish node | FContinuation node _ => finish task node outcome image
  | FThen next =>
      match outcome with
      | Ok value => start task next value
      | Err e => returning task (Err e)
      end
  | FCatch recover =>
      let* t := task_at task in
      match outcome with
      | Err e =>
          if negb (task_cancelled t) || (0 <? task_cleaning t) then
            let* value := host (error_value e) in
            let* value := match task_input t with
                          | Some input => host (influence value input)
                          | None => ret value
                          end in
            start task recover value
          else returning task (Err e)
      | Ok value => returning task (Ok value)
      end
  | FFinally cleanup input =>
      push task (FCleaned outcome) ;;;
      let* t := task_at task in
      let* deeper := expect (checked_add usize_max (task_cleaning t) 1) Overflow in
      update_task task (fun t => with_cleaning t deeper) ;;;
      start task cleanup input
  | FCleaned original =>
      update_task task (fun t => with_cleaning t (saturating_sub (task_cleaning t) 1)) ;;;
      let* control := host (retain_result original) in
      let result :=
        match original, outcome with
        | Err e, _ => Err e
        | Ok _, Err e => Err e
        | Ok value, Ok _ => Ok value
        end in
      let* result := host (influence_result result control) in
      returning task result
  | FContext context =>
      update_task task (fun t => with_context t context) ;;;
      returning task outcome
  | FChoose yes no input =>
      match outcome with
      | Ok test =>
          let* decision := truth_of test in
          match decision with
          | Ok decided =>
              let* value := host (influence input test) in
              start task (if decided then yes else no) value
          | Err e => returning task (Err e)
          end
      | Err e => returning task (Err e)
      end
  | FBind slot body =>
      match outcome with
      | Ok value =>
          let* x := exec in
          if bindings_per_task (limits x) <=? slot then throw InvalidBinding
          else bind_value task slot body value
      | Err e => returning task (Err e)
      end
  | FUnbind slot previous =>
      write_binding task slot previous ;;;
      returning task outcome
  | FCondition condition body left_ value =>
      match outcome with
      | Ok test =>
          let* decision := truth_of test in
          match decision with
          | Ok false =>
              let* value := host (influence value test) in
              returning task (Ok value)
          | Ok true =>
              if 0 <? left_ then
                push task (FIteration condition body (left_ - 1)) ;;;
                let* value := host (influence value test) in
                start task body value
              else
                let* e := host (error Iterations) in
                returning task (Err e)
          | Err e => returning task (Err e)
          end
      | Err e => returning task (Err e)
      end
  | FIteration condition body left_ =>
      match outcome with
      | Ok value =>
          push task (FCondition condition body left_ value) ;;;
          start task condition value
      | Err e => returning task (Err e)
      end
  end.

(** Popping the innermost continuation; a task without one is done. *)
Definition unwind (task : N) (outcome : Result V E) (image : ProgramImage V E)
    : comp machine Fault (option (Advance V E)) :=
  let* frame := pop task in
  match frame with
  | None => set_state task (SDone outcome) ;;; ret None
  | Some frame => resume_frame task frame outcome image ;;; ret None
  end.

(** The [Returning] arm of [Execution::transition]. *)
Definition transition_returning (task : N) (outcome : Result V E) (image : ProgramImage V E)
    : comp machine Fault (option (Advance V E)) :=
  let* x := exec in
  let* outcome := host (task_influence_result x task outcome) in
  let* control := host (retain_result outcome) in
  let* t := task_at task in
  let* input := match task_input t with
                | Some input => host (influence control input)
                | None => ret control
                end in
  set_input task (Some input) ;;;
  unwind task outcome image.

(** The indices of the free task slots, lowest first. *)
Fixpoint free_slots (index : N) (ts : list (Task V E)) : list N :=
  match ts with
  | [] => []
  | t :: ts' =>
      if is_free (task_state t) then index :: free_slots (index + 1) ts'
      else free_slots (index + 1) ts'
  end.

(** The [for child in [a, b]] body of the [Fork] instruction. *)
Definition adopt (task child : N) : comp machine Fault unit :=
  update_task child (fun t => with_parent t (Some task)) ;;;
  let* t := task_at task in
  update_task child (fun c => with_context c (task_context t)) ;;;
  update_task child (fun c => with_cleaning c (task_cleaning t)) ;;;
  let* x := exec in
  for_each (range (bindings_per_task (limits x))) (fun slot =>
    let* value := read_binding task slot in
    write_binding child slot value).

(** The [Fork] arm of [Execution::transition]. *)
Definition fork (task pc left_ right_ : N) (join : Join) (input : V)
    : comp machine Fault unit :=
  let* x := exec in
  let free := free_slots 0 (tasks x) in
  let* a := require (head free) Tasks in
  let* b := require (head (tail free)) Tasks in
  start a left_ input ;;;
  start b right_ input ;;;
  adopt task a ;;;
  adopt task b ;;;
  set_state task (SJoining (mkJoin a b join pc)).

(** The request a [Request] or [Scope] instruction emits. *)
Definition issue (task pc import position : N) (input : V)
    : comp machine Fault (option (Advance V E)) :=
  let* x := exec in
  let* tick := require (checked_add u64_max (ticket x) 1) SequenceExhausted in
  put_exec (with_ticket x tick) ;;;
  set_state task (SWaiting tick pc) ;;;
  let* t := task_at task in
  ret (Some (ARequest (mkRequest task tick import input (task_context t) position
                         (0 <? task_cleaning t)))).

(** The instruction arms of the [Ready] case of [Execution::transition]. *)
Definition execute (task pc : N) (n : Node V E) (input : V) (image : ProgramImage V E)
    : comp machine Fault (option (Advance V E)) :=
  match node_kind n with
  | NLiteral value =>
      let* value := host (influence value input) in
      finish task pc (Ok value) image ;;; ret None
  | NInput => finish task pc (Ok input) image ;;; ret None
  | NLoad slot =>
      let* x := exec in
      if bindings_per_task (limits x) <=? slot then throw InvalidBinding
      else
        let* stored := read_binding task slot in
        let* value := require stored MissingBinding in
        let* value := host (influence value input) in
        finish task pc (Ok value) image ;;; ret None
  | NFail e => finish task pc (Err e) image ;;; ret None
  | NRequest import | NScope import _ =>
      if imports image <=? import then throw InvalidImport
      else issue task pc import (node_position n) input
  | NThen first then_ =>
      push task (FFinish pc) ;;; push task (FThen then_) ;;;
      start task first input ;;; ret None
  | NCatch body recover =>
      push task (FFinish pc) ;;; push task (FCatch recover) ;;;
      start task body input ;;; ret None
  | NFinally body cleanup =>
      push task (FFinish pc) ;;; push task (FFinally cleanup input) ;;;
      start task body input ;;; ret None
  | NIf yes no =>
      let* decision := truth_of input in
      match decision with
      | Ok test =>
          push task (FFinish pc) ;;;
          start task (if test then yes else no) input ;;; ret None
      | Err e => finish task pc (Err e) image ;;; ret None
      end
  | NCall entry =>
      push task (FFinish pc) ;;; start task entry input ;;; ret None
  | NBranch condition yes no =>
      push task (FFinish pc) ;;; push task (FChoose yes no input) ;;;
      start task condition input ;;; ret None
  | NLet slot value body =>
      push task (FFinish pc) ;;; push task (FBind slot body) ;;;
      start task value input ;;; ret None
  | NWhile condition body max =>
      push task (FFinish pc) ;;; push task (FCondition condition body max input) ;;;
      start task condition input ;;; ret None
  | NFork left_ right_ join =>
      fork task pc left_ right_ join input ;;; ret None
  end.

(** Requests and scopes keep their full input; other instructions keep its control. *)
Definition retained_input (n : Node V E) (input : V) : comp machine Fault V :=
  match node_kind n with
  | NRequest _ | NScope _ _ => ret input
  | _ => host (retain_control input)
  end.

(** The [Ready] arm of [Execution::transition]. *)
Definition transition_ready (task : N) (image : ProgramImage V E)
    : comp machine Fault (option (Advance V E)) :=
  let* t := task_at task in
  let pc := task_pc t in
  let* n := lift_result (node_at image pc) in
  let* input := require (task_input t) TypeFault in
  let* retained := retained_input n input in
  set_input task (Some retained) ;;;
  execute task pc n input image.

(** [Execution::transition]. *)
Definition transition (task : N) (image : ProgramImage V E)
    : comp machine Fault (option (Advance V E)) :=
  let* t := task_at task in
  set_state task SReady ;;;
  match task_state t with
  | SReturning outcome => transition_returning task outcome image
  | SJoining j => transition_joining task j image
  | SReady => transition_ready task image
  | (SFree | SWaiting _ _ | SDone _ | SHalted _ _) as state =>
      set_state task state ;;; ret None
  end.

(** What the scheduler's scan of the task slots found. *)
Inductive selection : Type :=
| Selected (task : N)
| MustCancel (task tick : N)
| Nothing.

(** The cancellation check of the scan: a cancelled task outside cleanup either has
    a request to cancel or is turned into a cancelled return. *)
Definition cancel_point (index : N) : comp machine Empty_set (option N) :=
  let* t := task_at index in
  if task_cancelled t && (task_cleaning t =? 0) then
    match task_state t with
    | SWaiting tick _ => ret (Some tick)
    | SJoining _ | SReturning (Err _) => ret None
    | _ =>
        let* x := exec in
        let* result := host (fault_result x index Cancelled) in
        set_state index (SReturning result) ;;;
        ret None
    end
  else ret None.

(** A join moves when both branches are done, or when one of a race is done and the
    other has not been told to stop. *)
Definition join_ready (j : JoinState) (l r : Task V E) : bool :=
  let a := is_done (task_state l) in
  let b := is_done (task_state r) in
  (a && b) ||
  (bool_decide (join_kind j = Race) &&
   ((a && negb (task_cancelled r)) || (b && negb (task_cancelled l)))).

(** Whether a task can take a transition. *)
Definition is_ready (index : N) : comp machine Empty_set bool :=
  let* t := task_at index in
  match task_state t with
  | SWaiting _ _ => ret false
  | SJoining j =>
      let* l := task_at (join_left j) in
      let* r := task_at (join_right j) in
      ret (join_ready j l r)
  | _ => ret true
  end.

(** The [for offset in 0..self.tasks.len()] scan of [Execution::advance]. *)
Fixpoint scan (offsets : list N) : comp machine Empty_set selection :=
  match offsets with
  | [] => ret Nothing
  | offset :: offsets' =>
      let* x := exec in
      let* sum := expect (checked_add usize_max (cursor x) offset) Overflow in
      let index := sum mod len (tasks x) in
      let* t := task_at index in
      match task_state t with
      | SFree | SDone _ => scan offsets'
      | _ =>
          let* pending := cancel_point index in
          match pending with
          | Some tick => ret (MustCancel index tick)
          | None =>
              let* ready := is_ready index in
              if (ready : bool) then ret (Selected index) else scan offsets'
          end
      end
  end.

(** The cleanup budget of an aborting execution: [Some] when it is exhausted. *)
Definition charge : comp machine Empty_set (option (Result V E)) :=
  let* x := exec in
  if aborting x then
    if limit_cleanup_steps (limits x) <=? cleanup_steps x then
      let* result := host (terminal_fault x Fuel) in
      let* root := task_at 0 in
      set_state 0 (SHalted result (state_join (task_state root))) ;;;
      ret (Some result)
    else
      let* n := expect (checked_add u64_max (cleanup_steps x) 1) Overflow in
      put_exec (with_cleanup_steps x n) ;;;
      ret None
  else
    put_exec (with_steps x (saturating_add u64_max (steps x) 1)) ;;;
    ret None.

(** An execution that has used up its step limit is cancelled. *)
Definition enforce_step_limit (x : Execution V E) : Execution V E :=
  if negb (aborting x) &&
     match max_steps (limits x) with Some max => max <=? steps x | None => false end
  then cancel x else x.

(** One turn of the [for _ in 0..fuel] loop; [None] continues with the next turn. *)
Definition turn (image : ProgramImage V E) : comp machine Empty_set (option (Advance V E)) :=
  let* root := task_at 0 in
  match terminal_result (task_state root) with
  | Some result => ret (Some (ADone result))
  | None =>
      let* x := exec in
      put_exec (enforce_step_limit x) ;;;
      let* x := exec in
      let* selected := scan (range (len (tasks x))) in
      match selected with
      | MustCancel task tick => ret (Some (ACancel task tick))
      | Nothing => ret (Some AWaiting)
      | Selected task =>
          let* exhausted := charge in
          match exhausted with
          | Some result => ret (Some (ADone result))
          | None =>
              let* x := exec in
              put_exec (with_cursor x ((task + 1) mod len (tasks x))) ;;;
              let* moved := attempt (transition task image) in
              match moved with
              | Ok action => ret action
              | Err fault =>
                  let* x := exec in
                  let* result := host (fault_result x task fault) in
                  set_state task (SReturning result) ;;;
                  ret None
              end
          end
      end
  end.

Fixpoint turns (fuel : nat) (image : ProgramImage V E) : comp machine Empty_set (Advance V E) :=
  match fuel with
  | O => ret AYielded
  | S fuel' =>
      let* action := turn image in
      match action with
      | Some action => ret action
      | None => turns fuel' image
      end
  end.

(** [Execution::advance]. *)
Definition advance (image : ProgramImage V E) (fuel : N) : comp machine Empty_set (Advance V E) :=
  let* x := exec in
  if negb (bool_decide (image_id image = exec_image_id x)) then
    let* result := host (terminal_fault x ImageMismatch) in
    ret (ADone result)
  else turns (N.to_nat fuel) image.
End machine.

