(* ===== verification/Scenarios.v ===== *)
(** * Concrete executions

    The [Numbers] host of crates/xolotl-core/tests/execution.rs: integers as values,
    faults as errors, default provenance methods.  It instantiates the [Values]
    interface for the witnesses of the properties, and the scenarios below replay unit tests
    of the crate on the model. *)

From stdpp Require Import base numbers list option.
From S2P Require Import Prelude Program Frame Machine.

Local Open Scope N_scope.

Definition numbers_truth (value : Z) (h : unit) : Result bool Fault * unit :=
  (match value with
   | Z0 => Ok false
   | Zpos xH => Ok true
   | _ => Err TypeFault
   end, h).

Definition numbers_error_value (e : Fault) (h : unit) : Z * unit := ((-1)%Z, h).

#[export] Instance Numbers : Values unit Z Fault := {|
  unit_value h := (0%Z, h);
  truth := numbers_truth;
  pair a b h := (Ok (a * 100 + b)%Z, h);
  error f h := (f, h);
  error_value := numbers_error_value;
  influence := default_influence;
  influence_result := default_influence_result default_influence;
  retain_result := default_retain_result numbers_error_value default_retain_control;
  retain_control := default_retain_control
|}.

Definition demo_image (ns : list (Node Z Fault)) : ProgramImage Z Fault :=
  mkImage IMAGE_VERSION (replicate 32 1) ns 0 2 4.

Definition demo_limits : ExecutionLimits := mkLimits 64 2 None 4096.

Definition boot (lim : ExecutionLimits) (slots_ frames_ : nat) (ns : list (Node Z Fault))
    (input : Z) (context : N) : Result (Execution Z Fault) Fault :=
  new (demo_image ns) (replicate slots_ default_task) (replicate frames_ None)
    (replicate (slots_ * N.to_nat (bindings_per_task lim)) None) lim input context.

(** The loop of [run] in the crate's tests: every request is answered at once, and
    a cancelled request completes with [Cancelled]. *)
Fixpoint drive (fuel : nat) (image : ProgramImage Z Fault)
    (answer : Request Z -> Result Z Fault) (x : Execution Z Fault) : option (Result Z Fault) :=
  match fuel with
  | O => None
  | S fuel' =>
      match advance image 31 (x, tt) with
      | Val (ADone r) _ => Some r
      | Val (ARequest q) (x', _) =>
          match complete (request_task q) (request_ticket q) (HComplete (answer q)) image (x', tt)
          with
          | Val _ (x'', _) => drive fuel' image answer x''
          | _ => None
          end
      | Val AYielded (x', _) => drive fuel' image answer x'
      | Val (ACancel t k) (x', _) =>
          match complete t k (HComplete (Err Cancelled)) image (x', tt) with
          | Val _ (x'', _) => drive fuel' image answer x''
          | _ => None
          end
      | _ => None
      end
  end.

Definition run (ns : list (Node Z Fault)) (input : Z) (answer : Request Z -> Result Z Fault)
    : option (Result Z Fault) :=
  match boot demo_limits 5 64 ns input 7 with
  | Ok x => drive 200 (demo_image ns) answer x
  | Err f => Some (Err f)
  end.

Definition refuse (q : Request Z) : Result Z Fault := Err TypeFault.

Example branch_preserves_original_input :
  run [node_new (NBranch 1 2 3) 0; node_new (NLiteral 1%Z) 1; node_new NInput 2;
       node_new (NLiteral (-1)%Z) 3] 42 refuse = Some (Ok 42%Z).
Proof. vm_compute. reflexivity. Qed.

Definition loop_nodes (max : N) : list (Node Z Fault) :=
  [node_new (NWhile 1 2 max) 0; node_new (NRequest 0) 1; node_new (NRequest 1) 2].

Example loop_counts :
  run (loop_nodes 20) 0 (fun q =>
    Ok (if request_import q =? 0 then (if (request_input q <? 20)%Z then 1%Z else 0%Z)
        else (request_input q + 1)%Z)) = Some (Ok 20%Z).
Proof. vm_compute. reflexivity. Qed.

Example loop_bounded : run (loop_nodes 20) 0 (fun _ => Ok 1%Z) = Some (Err Iterations).
Proof. vm_compute. reflexivity. Qed.

Definition finally_nodes : list (Node Z Fault) :=
  [node_new (NFinally 1 2) 0; node_new (NFail TypeFault) 1; node_new (NRequest 0) 2].

Example finally_preserves_error :
  run finally_nodes 42 (fun q => if request_cleanup q then Ok 0%Z else Err Fuel) =
  Some (Err TypeFault).
Proof. vm_compute. reflexivity. Qed.

Example bindings_restore_outer_value :
  run [node_new (NLet 0 1 2) 0; node_new (NLiteral 42%Z) 1; node_new (NThen 3 6) 2;
       node_new (NLet 0 4 5) 3; node_new (NLiteral 7%Z) 4; node_new (NLoad 0) 5;
       node_new (NLoad 0) 6] 0 refuse = Some (Ok 42%Z).
Proof. vm_compute. reflexivity. Qed.

Definition fork_nodes (join : Join) : list (Node Z Fault) :=
  [node_new (NFork 1 2 join) 0; node_new (NRequest 0) 1; node_new (NRequest 1) 2].

Example parallel_pairs_in_source_order :
  run (fork_nodes All) 0 (fun q => Ok (Z.of_N (request_import q) + 1)%Z) = Some (Ok 102%Z).
Proof. vm_compute. reflexivity. Qed.

Example race_returns_the_first :
  run [node_new (NFork 1 2 Race) 0; node_new (NRequest 0) 1; node_new (NFinally 3 4) 2;
       node_new (NRequest 1) 3; node_new (NRequest 2) 4] 0
    (fun q => Ok (Z.of_N (request_import q) + 42)%Z) = Some (Ok 42%Z).
Proof. vm_compute. reflexivity. Qed.
