(* ===== verification/MachineInv.v ===== *)
(** * Invariant of the execution machine

    [wf x] holds of every execution a host can reach: the arena represents one
    continuation stack per task, the tasks form a tree under the root whose inner nodes
    are joining, unused slots are in their default state, tickets of outstanding requests
    are distinct, and the cleanup depth of every task is the number of cleanup
    scopes it and its ancestors are in. *)

From stdpp Require Import base numbers list option.
From S2P Require Import Prelude Program Frame Machine.

Local Open Scope N_scope.

(** ** Statement *)

Definition is_cleaned {V E} (k : FrameKind V E) : N :=
  match k with FCleaned _ => 1 | _ => 0 end.

(** Cleanup scopes entered in one stack. *)
Fixpoint cleaned {V E} (l : list (FrameKind V E)) : N :=
  match l with
  | [] => 0
  | k :: l' => is_cleaned k + cleaned l'
  end.

(** A frame that restores a binding names a slot of the task's row. *)
Definition frame_ok {V E} (bpt : N) (k : FrameKind V E) : Prop :=
  match k with
  | FVacant => False
  | FUnbind slot _ => slot < bpt
  | _ => True
  end.

Section invariant.
Context {V E : Type}.
Implicit Types (x : Execution V E) (ts : list (Task V E)) (t : Task V E).
Implicit Types (ks : list (list (FrameKind V E))).

Definition used t : Prop := task_state t <> SFree.
Definition leaf t : Prop := state_join (task_state t) = None.

Definition is_halted t : Prop :=
  match task_state t with SHalted _ _ => True | _ => False end.

(** The task tree. *)
Record tree ts : Prop := {
  tree_root : exists t, get ts 0 = Some t /\ used t /\ task_parent t = None;
  tree_free : forall i t, get ts i = Some t -> task_state t = SFree -> t = default_task;
  tree_parent : forall i t, get ts i = Some t -> used t -> i <> 0 ->
    exists p tp j, task_parent t = Some p /\ get ts p = Some tp /\
      state_join (task_state tp) = Some j /\ (i = join_left j \/ i = join_right j);
  tree_join : forall i t j, get ts i = Some t -> state_join (task_state t) = Some j ->
    join_left j <> join_right j /\
    forall c, c = join_left j \/ c = join_right j ->
      exists tc, get ts c = Some tc /\ used tc /\ task_parent tc = Some i;
  tree_acyclic : exists rank : N -> nat, forall i t p,
    get ts i = Some t -> task_parent t = Some p -> (rank p < rank i)%nat;
  tree_halted : forall i t, get ts i = Some t -> is_halted t -> i = 0
}.

(** Cleanup depth inherited from the parent. *)
Definition inherited ts t : N :=
  match task_parent t with
  | Some p => match get ts p with Some tp => task_cleaning tp | None => 0 end
  | None => 0
  end.

(** Cleanup depths, except that task [i] is to have depth [c]. *)
Definition clean_at (i c : N) ts ks : Prop :=
  forall j t l, get ts j = Some t -> used t -> get ks j = Some l ->
    (if decide (j = i) then c else task_cleaning t) = cleaned l + inherited ts t.

Definition clean ts ks : Prop :=
  forall j t l, get ts j = Some t -> used t -> get ks j = Some l ->
    task_cleaning t = cleaned l + inherited ts t.

(** Outstanding tickets were issued, and no two tasks wait for the same one. *)
Definition tickets_ok (issued : N) ts : Prop :=
  (forall i t, get ts i = Some t -> forall k n, task_state t = SWaiting k n -> k <= issued) /\
  (forall i1 i2 t1 t2 k n1 n2, get ts i1 = Some t1 -> get ts i2 = Some t2 ->
    task_state t1 = SWaiting k n1 -> task_state t2 = SWaiting k n2 -> i1 = i2).

(** Every task has a full row of bindings, at addressable indices. *)
Definition rows_ok x : Prop :=
  len (tasks x) * bindings_per_task (limits x) <= len (bindings x) /\
  len (bindings x) <= usize_max.

Record wf_core x ks : Prop := {
  core_pool : pool_stacks (frames x) (task_stack <$> tasks x) ks;
  core_tree : tree (tasks x);
  core_tickets : tickets_ok (ticket x) (tasks x);
  core_input : forall i t, get (tasks x) i = Some t -> used t -> is_Some (task_input t);
  core_frames : Forall (Forall (frame_ok (bindings_per_task (limits x)))) ks;
  core_depth : Forall (fun l => len l <= frames_per_task (limits x)) ks;
  core_tasks : 0 < len (tasks x) <= u32_max;
  core_cursor : cursor x < len (tasks x);
  core_rows : rows_ok x;
  core_issued : ticket x <= u64_max;
  core_budget : limit_cleanup_steps (limits x) <= u64_max
}.

(** The invariant. *)
Definition wf x : Prop := exists ks, wf_core x ks /\ clean (tasks x) ks.

(** The invariant while task [i], a leaf [t] of the tree, is being moved: its
    cleanup depth is to be [c]. *)
Definition wf_at (i : N) t x ks (c : N) : Prop :=
  wf_core x ks /\ clean_at i c (tasks x) ks /\ get (tasks x) i = Some t /\ used t /\ leaf t.

(** Task [i] waits for ticket [k]. *)
Definition waits ts (i k : N) : Prop :=
  exists t n, get ts i = Some t /\ task_state t = SWaiting k n.

(** What an operation on task [i] alone leaves as it was. *)
Record local (i : N) x x' : Prop := {
  local_others : forall j, j <> i -> get (tasks x') j = get (tasks x) j;
  local_count : len (tasks x') = len (tasks x);
  local_limits : limits x' = limits x;
  local_slots : len (slots (frames x')) = len (slots (frames x));
  local_rows : len (bindings x') = len (bindings x);
  local_id : exec_image_id x' = exec_image_id x;
  local_aborting : aborting x' = aborting x;
  local_cursor : cursor x' = cursor x;
  local_steps : steps x' = steps x;
  local_cleanup : cleanup_steps x' = cleanup_steps x;
  local_issued : ticket x' = ticket x;
  local_waits : forall k, waits (tasks x') i k -> waits (tasks x) i k
}.

#[export] Instance local_refl i : Reflexive (local i).
Proof. by intros x; split. Qed.

#[export] Instance local_trans i : Transitive (local i).
Proof.
  intros x y z [] []. split; try congruence; [|by auto].
  intros j Hj. rewrite local_others1 by done. auto.
Qed.

(** ** Leaf updates *)

Lemma wf_at_wf i t x ks c : wf_at i t x ks c -> task_cleaning t = c -> wf x.
Proof.
  intros (Hcore & Hclean & Hi & Hu & Hl) Hc. exists ks. split; [done|].
  intros j tj l Hj Huj Hlj. specialize (Hclean j tj l Hj Huj Hlj).
  case_decide; simplify_eq; congruence.
Qed.

Lemma wf_focus i t x :
  wf x -> get (tasks x) i = Some t -> used t -> leaf t ->
  exists ks, wf_at i t x ks (task_cleaning t).
Proof.
  intros (ks & Hcore & Hclean) Hi Hu Hl. exists ks. split_and!; try done.
  intros j tj l Hj Huj Hlj. case_decide; simplify_eq; eauto.
Qed.

(** No task is below a leaf. *)
Lemma leaf_no_child ts i t j tj :
  tree ts -> get ts i = Some t -> leaf t -> get ts j = Some tj -> used tj ->
  task_parent tj <> Some i.
Proof.
  intros Ht Hi Hl Hj Hu Hp. destruct (decide (j = 0)) as [->|Hne].
  - destruct (tree_root _ Ht) as (t0 & ? & ? & ?). congruence.
  - destruct (tree_parent _ Ht j tj Hj Hu Hne) as (p & tp & jn & ? & ? & ? & _).
    unfold leaf in Hl. congruence.
Qed.

(** The task that owns a slot of the tree is used. *)
Lemma free_no_parent ts i t :
  tree ts -> get ts i = Some t -> task_state t = SFree -> task_parent t = None.
Proof. intros Ht Hi Hs. by rewrite (tree_free _ Ht _ _ Hi Hs). Qed.

Lemma tree_update ts i t t' :
  tree ts -> get ts i = Some t -> used t -> leaf t ->
  used t' -> leaf t' -> task_parent t' = task_parent t -> (is_halted t' -> i = 0) ->
  tree (upd ts i t').
Proof.
  intros Ht Hi Hu Hl Hu' Hl' Hp Hh. pose proof (get_Some_lt _ _ _ Hi) as Hlt.
  assert (forall j tj, get (upd ts i t') j = Some tj ->
    j = i /\ tj = t' \/ j <> i /\ get ts j = Some tj) as Hcase.
  { intros j tj. by apply get_upd_inv. }
  assert (forall j tj, j <> i -> get ts j = Some tj -> get (upd ts i t') j = Some tj) as Hkeep.
  { intros. by rewrite get_upd_ne. }
  split.
  - destruct (tree_root _ Ht) as (t0 & H0 & ? & ?). destruct (decide (i = 0)) as [->|].
    + exists t'. rewrite get_upd_eq by done. split_and!; [done|done|]. congruence.
    + exists t0. rewrite get_upd_ne by done. done.
  - intros j tj [[-> ->]|[Hne Hj]]%Hcase Hs; [done|]. by eapply tree_free.
  - intros j tj [[-> ->]|[Hne Hj]]%Hcase Huj Hj0.
    + destruct (tree_parent _ Ht i t Hi Hu Hj0) as (p & tp & jn & ? & Hgp & ? & ?).
      assert (p <> i) by (intros ->; unfold leaf in Hl; congruence).
      exists p, tp, jn. rewrite Hp. auto.
    + destruct (tree_parent _ Ht j tj Hj Huj Hj0) as (p & tp & jn & ? & Hgp & ? & ?).
      assert (p <> i) by (intros ->; unfold leaf in Hl; congruence).
      exists p, tp, jn. auto.
  - intros j tj jn [[-> ->]|[Hne Hj]]%Hcase Hjn; [unfold leaf in Hl'; congruence|].
    destruct (tree_join _ Ht j tj jn Hj Hjn) as [? Hch]. split; [done|].
    intros c0 Hc0. destruct (Hch c0 Hc0) as (tc & Hgc & Huc & Hpc).
    destruct (decide (c0 = i)) as [->|]; [|exists tc; auto].
    exists t'. rewrite get_upd_eq by done. split_and!; [done|done|]. congruence.
  - destruct (tree_acyclic _ Ht) as [rank Hrank]. exists rank.
    intros j tj p [[-> ->]|[Hne Hj]]%Hcase Hpj; [|eauto]. rewrite Hp in Hpj. eauto.
  - intros j tj [[-> ->]|[Hne Hj]]%Hcase; [auto|]. by apply (tree_halted _ Ht).
Qed.

(** A parent is a joining task, so never the leaf being moved. *)
Lemma parent_ne_leaf ts i t j tj p :
  tree ts -> get ts i = Some t -> leaf t -> get ts j = Some tj -> used tj ->
  task_parent tj = Some p -> p <> i.
Proof. intros Ht Hi Hl Hj Hu Hp ->. exact (leaf_no_child _ _ _ _ _ Ht Hi Hl Hj Hu Hp). Qed.

Lemma inherited_update ts i t t' j tj tj' :
  tree ts -> get ts i = Some t -> leaf t -> get ts j = Some tj -> used tj ->
  task_parent tj' = task_parent tj ->
  inherited (upd ts i t') tj' = inherited ts tj.
Proof.
  intros Ht Hi Hl Hj Hu Hp. unfold inherited. rewrite Hp.
  destruct (task_parent tj) as [p|] eqn:Hpj; [|done].
  rewrite get_upd_ne; [done|]. symmetry. by eapply parent_ne_leaf.
Qed.

Lemma clean_at_update i c c' ts ks t t' l l' :
  tree ts -> clean_at i c ts ks -> get ts i = Some t -> used t -> leaf t ->
  task_parent t' = task_parent t -> get ks i = Some l -> c' + cleaned l = c + cleaned l' ->
  clean_at i c' (upd ts i t') (upd ks i l').
Proof.
  intros Ht Hc Hi Hu Hl Hp Hk Hcc j tj lj Hj Huj Hlj.
  apply get_upd_inv in Hj; [|by eapply get_Some_lt].
  apply get_upd_inv in Hlj; [|by eapply get_Some_lt].
  destruct Hj as [[-> ->]|[Hne Hj]], Hlj as [[? ->]|[? Hlj]]; try done.
  - rewrite (inherited_update _ _ _ _ i t) by done.
    specialize (Hc i t l Hi Hu Hk). rewrite decide_True in Hc |- * by done. lia.
  - rewrite (inherited_update _ _ _ _ j tj) by done.
    specialize (Hc j tj lj Hj Huj Hlj). by rewrite decide_False in Hc |- * by done.
Qed.

(** What may become of a task's state: the ticket it waits for is its own. *)
Definition waits_alone (i : N) x (s : State V E) : Prop :=
  forall k n, s = SWaiting k n -> k <= ticket x /\
    forall j tj n', j <> i -> get (tasks x) j = Some tj -> task_state tj <> SWaiting k n'.

Lemma tickets_update issued ts i t' x :
  ts = tasks x -> issued = ticket x -> i < len ts ->
  tickets_ok issued ts -> waits_alone i x (task_state t') ->
  tickets_ok issued (upd ts i t').
Proof.
  intros -> -> Hlt [H1 H2] Hw. split.
  - intros j tj Hj k n Hs. apply get_upd_inv in Hj as [[-> ->]|[Hne Hj]]; [|by eauto|done].
    by apply Hw in Hs as [? _].
  - intros i1 i2 t1 t2 k n1 n2 G1 G2 S1 S2.
    apply get_upd_inv in G1; [|done]. apply get_upd_inv in G2; [|done].
    destruct G1 as [[-> ->]|[Hn1 G1]], G2 as [[-> ->]|[Hn2 G2]]; [done| | |by eauto].
    + destruct (Hw _ _ S1) as [_ Hw']. by destruct (Hw' _ _ n2 Hn2 G2).
    + destruct (Hw _ _ S2) as [_ Hw']. by destruct (Hw' _ _ n1 Hn1 G1).
Qed.

(** Moving the leaf [t] of task [i] to [t'] without touching its stack. *)
Lemma wf_at_update i t t' x ks c :
  wf_at i t x ks c ->
  used t' -> leaf t' -> task_parent t' = task_parent t -> task_stack t' = task_stack t ->
  is_Some (task_input t') -> (is_halted t' -> i = 0) -> waits_alone i x (task_state t') ->
  wf_at i t' (with_tasks x (upd (tasks x) i t')) ks c /\
  ((forall k n, task_state t' = SWaiting k n -> task_state t = SWaiting k n) ->
   local i x (with_tasks x (upd (tasks x) i t'))).
Proof.
  intros (Hcore & Hclean & Hi & Hu & Hl) Hu' Hl' Hp Hst Hin Hh Hw.
  pose proof (get_Some_lt _ _ _ Hi) as Hlt. destruct Hcore. split.
  - split_and!; simpl; try done.
    + split; unfold rows_ok; simpl; rewrite ?len_upd; try done.
      * rewrite upd_fmap, Hst, upd_id; [done|]. by rewrite get_fmap, Hi.
      * by eapply tree_update.
      * by eapply tickets_update.
      * intros j tj [[-> ->]|[Hne Hj]]%get_upd_inv Huj; eauto.
    + assert (exists l, get ks i = Some l) as [l Hk].
      { apply get_lt. destruct (stacks_length _ _ _ core_pool0).
        unfold len. rewrite (stacks_length _ _ _ core_pool0), length_fmap. done. }
      rewrite <- (upd_id ks i l) by done. eapply clean_at_update; eauto.
    + by apply get_upd_eq.
  - intros Hsame. split; simpl; try done.
    + intros j Hj. by apply get_upd_ne.
    + by rewrite len_upd.
    + intros k (u & n & Hu2 & Hs). rewrite get_upd_eq in Hu2 by done. simplify_eq.
      exists t, n. auto.
Qed.

(** The stack of a task in the abstract arena. *)
Lemma wf_core_stack x ks i t :
  wf_core x ks -> get (tasks x) i = Some t ->
  exists l, get ks i = Some l /\ depth (task_stack t) = len l.
Proof.
  intros [] Hi. rewrite get_lookup in Hi.
  destruct (stacks_lookup _ _ _ (N.to_nat i) (task_stack t) core_pool0) as (l & ? & ?).
  { by rewrite list_lookup_fmap, Hi. }
  exists l. by rewrite get_lookup.
Qed.

(** Moving the leaf's stack to [st'], which represents [l'] in a new arena. *)
Lemma wf_at_stack i t x ks c l l' c' pool' st' :
  wf_at i t x ks c -> get ks i = Some l -> c' + cleaned l = c + cleaned l' ->
  pool_stacks pool' (upd (task_stack <$> tasks x) i st') (upd ks i l') ->
  len (slots pool') = len (slots (frames x)) ->
  Forall (frame_ok (bindings_per_task (limits x))) l' ->
  len l' <= frames_per_task (limits x) ->
  let x' := with_frames (with_tasks x (upd (tasks x) i (with_stack t st'))) pool' in
  wf_at i (with_stack t st') x' (upd ks i l') c' /\ local i x x'.
Proof.
  intros (Hcore & Hclean & Hi & Hu & Hl) Hk Hcc Hpool Hslots Hok Hdep x'.
  pose proof (get_Some_lt _ _ _ Hi) as Hlt. destruct Hcore. split.
  - split_and!; simpl; try done.
    + split; unfold rows_ok; simpl; rewrite ?len_upd; try done.
      * by rewrite upd_fmap.
      * eapply tree_update; eauto. by apply (tree_halted _ core_tree0 i t).
      * eapply tickets_update; eauto. intros k n Hs. simpl in Hs.
        destruct core_tickets0 as [H1 H2]. split; [by eapply H1|].
        intros j tj n' Hne Hj Hsj. by apply Hne, (H2 _ _ _ _ _ _ _ Hj Hi Hsj Hs).
      * intros j tj [[-> ->]|[Hne Hj]]%get_upd_inv Huj; simpl; eauto.
      * unfold upd. by apply Forall_insert.
      * unfold upd. by apply Forall_insert.
    + eapply clean_at_update; eauto.
    + by apply get_upd_eq.
  - split; simpl; try done.
    + intros j Hj. by apply get_upd_ne.
    + by rewrite len_upd.
    + intros k (u & n & Hu2 & Hs). rewrite get_upd_eq in Hu2 by done. simplify_eq.
      by exists t, n.
Qed.
End invariant.

(** ** Parent chains

    The tasks already passed on a walk towards the root are distinct, so a walk is
    shorter than the task table. *)
Section chains.
Context {V E : Type}.
Implicit Types (ts : list (Task V E)) (t : Task V E) (ks : list (list (FrameKind V E))).

(** [passed] holds slots of the table that are strictly deeper than [j]. *)
Definition passed_below ts (rank : N -> nat) (j : N) (passed : list N) : Prop :=
  NoDup passed /\ forall v, v ∈ passed -> v < len ts /\ (rank j < rank v)%nat.

Lemma passed_room ts rank j passed :
  passed_below ts rank j passed -> j < len ts -> len passed + 1 <= len ts.
Proof.
  intros [Hnd Hp] Hj.
  assert (len (j :: passed) <= len ts) as Hl.
  { apply pigeonhole.
    - apply list.NoDup_cons. split; [|done]. intros Hin. apply Hp in Hin as [_ ?]. lia.
    - intros v [->|Hv]%elem_of_cons; [done|]. by apply Hp. }
  unfold len in *. simpl in Hl. lia.
Qed.

Lemma passed_step ts rank j p passed :
  passed_below ts rank j passed -> j < len ts -> (rank p < rank j)%nat ->
  passed_below ts rank p (j :: passed).
Proof.
  intros [Hnd Hp] Hj Hr. split.
  - apply list.NoDup_cons. split; [|done]. intros Hin. apply Hp in Hin as [_ ?]. lia.
  - intros v [->|Hv]%elem_of_cons; [done|]. apply Hp in Hv as [? ?]. split; [done|lia].
Qed.

(** A cleanup depth that adds up along the parent chain is bounded by the size of the
    table times the size of a stack. *)
Lemma depth_bound ts ks (d : N -> N) (M : N) :
  tree ts -> len ks = len ts ->
  (forall j l, get ks j = Some l -> cleaned l <= M) ->
  (forall j t l, get ts j = Some t -> used t -> get ks j = Some l ->
     d j = cleaned l + match task_parent t with Some p => d p | None => 0 end) ->
  forall j t, get ts j = Some t -> used t -> d j <= len ts * M.
Proof.
  intros Ht Hlen HM Hd. destruct (tree_acyclic _ Ht) as [rank Hrank].
  assert (forall n j t passed, (rank j < n)%nat -> get ts j = Some t -> used t ->
    passed_below ts rank j passed -> d j <= (len ts - len passed) * M) as Haux.
  { induction n as [|n IH]; intros j t passed Hn Hj Hu Hp; [lia|].
    pose proof (get_Some_lt _ _ _ Hj) as Hlt.
    pose proof (passed_room _ _ _ _ Hp Hlt) as Hroom.
    destruct (get_lt ks j) as [l Hl]; [lia|]. rewrite (Hd j t l Hj Hu Hl).
    specialize (HM _ _ Hl). destruct (task_parent t) as [p|] eqn:Hpar; [|nia].
    assert (exists tp, get ts p = Some tp /\ used tp) as (tp & Htp & Hup).
    { destruct (decide (j = 0)) as [->|Hj0].
      - destruct (tree_root _ Ht) as (t0 & ? & ? & ?). congruence.
      - destruct (tree_parent _ Ht j t Hj Hu Hj0) as (p' & tp & jn & ? & ? & Hjn & _).
        simplify_eq. exists tp. split; [done|]. intros Hs. by rewrite Hs in Hjn. }
    assert (d p <= (len ts - len (j :: passed)) * M) as Hdp.
    { eapply IH; eauto.
      - specialize (Hrank _ _ _ Hj Hpar). lia.
      - eapply passed_step; eauto. }
    assert (len (j :: passed) = len passed + 1) as Hlp by (unfold len; simpl; lia).
    rewrite Hlp in Hdp. nia. }
  intros j t Hj Hu. assert (passed_below ts rank j []) as Hnil.
  { split; [constructor|]. intros v ?%not_elem_of_nil. done. }
  specialize (Haux (S (rank j)) j t [] (Nat.lt_succ_diag_r _) Hj Hu Hnil).
  unfold len in Haux at 2. simpl in Haux. rewrite N.sub_0_r in Haux. done.
Qed.
End chains.

Lemma cleaned_le_len {V E} (l : list (FrameKind V E)) : cleaned l <= len l.
Proof.
  induction l as [|k l IH]; [done|]. unfold len in *. simpl. destruct k; simpl; lia.
Qed.

(** The arena bounds every stack. *)
Lemma stack_le_arena {V E} (x : Execution V E) ks i l :
  wf_core x ks -> get ks i = Some l -> len l <= u32_max.
Proof.
  intros [Hpool _ _ _ _ _ _ _ _ _ _] Hl. rewrite get_lookup in Hl.
  pose proof (len_concat_lookup _ _ _ Hl) as Hle.
  destruct Hpool as (ents & free & Hrep & ->).
  pose proof (total_frames_ents ents) as Htot. unfold total_frames in Htot.
  pose proof (rep_counts _ _ _ _ Hrep). pose proof (rep_used _ _ _ _ Hrep).
  pose proof (rep_width _ _ _ _ Hrep). lia.
Qed.

Lemma wf_at_depth {V E} i (t : Task V E) x ks c : wf_at i t x ks c -> c + 1 <= usize_max.
Proof.
  intros (Hcore & Hclean & Hi & Hu & Hl). pose proof (core_tree _ _ Hcore) as Ht.
  set (d := fun j => if decide (j = i) then c else
              match get (tasks x) j with Some tj => task_cleaning tj | None => 0 end).
  assert (d i <= len (tasks x) * u32_max) as Hd.
  { eapply (depth_bound _ ks d u32_max Ht); eauto.
    - unfold len. rewrite (stacks_length _ _ _ (core_pool _ _ Hcore)), length_fmap. done.
    - intros j l Hlj. pose proof (stack_le_arena _ _ _ _ Hcore Hlj).
      pose proof (cleaned_le_len l). lia.
    - intros j tj l Hj Huj Hlj. specialize (Hclean j tj l Hj Huj Hlj).
      unfold d, inherited in *. rewrite Hj.
      destruct (decide (j = i)); destruct (task_parent tj) as [p|] eqn:Hp; try done;
        rewrite Hclean; f_equal; rewrite decide_False; try done;
        by eapply parent_ne_leaf. }
  unfold d in Hd. rewrite decide_True in Hd by done.
  pose proof (core_tasks _ _ Hcore) as [_ Hts].
  assert (u32_max * u32_max + 1 <= usize_max) by done. nia.
Qed.

(** ** Rules for the primitive operations *)

Lemma with_stack_id {V E} (t : Task V E) : with_stack t (task_stack t) = t.
Proof. by destruct t. Qed.

Lemma with_tasks_id {V E} (x : Execution V E) : with_tasks x (tasks x) = x.
Proof. by destruct x. Qed.

Lemma with_frames_id {V E} (x : Execution V E) : with_frames x (frames x) = x.
Proof. by destruct x. Qed.

(** States a moved leaf may be given without further conditions. *)
Definition plain {V E} (s : State V E) : Prop :=
  match s with
  | SReady | SReturning _ | SDone _ => True
  | _ => False
  end.

Section rules.
Context {H V E : Type} `{!Values H V E}.
Implicit Types (x : Execution V E) (h : H) (t : Task V E).
Implicit Types (ks : list (list (FrameKind V E))).

Lemma wp_exec {X} (Q : Execution V E -> machine -> Prop) (R : X -> machine -> Prop) x h :
  Q x (x, h) -> wp exec Q R (x, h).
Proof. done. Qed.

Lemma wp_put_exec {X} x' (Q : unit -> machine -> Prop) (R : X -> machine -> Prop) x h :
  Q tt (x', h) -> wp (put_exec x') Q R (x, h).
Proof. done. Qed.

Lemma wp_host {X A} (f : H -> A * H) (Q : A -> machine -> Prop) (R : X -> machine -> Prop) x h :
  (forall a h', f h = (a, h') -> Q a (x, h')) -> wp (host f) Q R (x, h).
Proof. unfold wp, host. simpl. destruct (f h). auto. Qed.

Lemma wp_task_at {X} i t (Q : Task V E -> machine -> Prop) (R : X -> machine -> Prop) x h :
  get (tasks x) i = Some t -> Q t (x, h) -> wp (task_at i) Q R (x, h).
Proof. unfold wp, task_at, bind, exec, gets. simpl. by intros ->. Qed.

Lemma wp_update_task {X} i t f (Q : unit -> machine -> Prop) (R : X -> machine -> Prop) x h :
  get (tasks x) i = Some t -> Q tt (with_tasks x (upd (tasks x) i (f t)), h) ->
  wp (update_task i f) Q R (x, h).
Proof. unfold wp, update_task, bind, exec, gets. simpl. by intros ->. Qed.

(** Any change of the leaf's own fields that keeps it a leaf of the tree. *)
Lemma wp_move {X} i t f (Q : unit -> machine -> Prop) (R : X -> machine -> Prop) x h ks c :
  wf_at i t x ks c ->
  used (f t) -> leaf (f t) -> task_parent (f t) = task_parent t ->
  task_stack (f t) = task_stack t -> is_Some (task_input (f t)) ->
  (is_halted (f t) -> i = 0) -> waits_alone i x (task_state (f t)) ->
  (forall k n, task_state (f t) = SWaiting k n -> task_state t = SWaiting k n) ->
  (forall x', wf_at i (f t) x' ks c -> local i x x' -> Q tt (x', h)) ->
  wp (update_task i f) Q R (x, h).
Proof.
  intros Hwf ? ? ? ? ? ? ? ? HQ. eapply wp_update_task; [apply Hwf|].
  destruct (wf_at_update i t (f t) x ks c) as [? ?]; eauto.
Qed.

(** The state of a leaf stays admissible when it does not change. *)
Lemma wf_at_same i t x ks c : wf_at i t x ks c ->
  is_Some (task_input t) /\ (is_halted t -> i = 0) /\ waits_alone i x (task_state t).
Proof.
  intros ([] & _ & Hi & Hu & Hl). split_and!; [by eauto|by apply (tree_halted _ core_tree0)|].
  intros k n Hs. destruct core_tickets0 as [H1 H2]. split; [by eapply H1|].
  intros j tj n' Hne Hj Hsj. by apply Hne, (H2 _ _ _ _ _ _ _ Hj Hi Hsj Hs).
Qed.

Lemma plain_ok {i x} (s : State V E) : plain s ->
  s <> SFree /\ state_join s = None /\ waits_alone i x s.
Proof. by destruct s. Qed.

Lemma wp_set_state {X} i t s (Q : unit -> machine -> Prop) (R : X -> machine -> Prop) x h ks c :
  wf_at i t x ks c -> plain s ->
  (forall x', wf_at i (with_state t s) x' ks c -> local i x x' -> Q tt (x', h)) ->
  wp (set_state i s) Q R (x, h).
Proof.
  intros Hwf Hs HQ. destruct (wf_at_same _ _ _ _ _ Hwf) as (? & _ & _).
  destruct (plain_ok (i := i) (x := x) s Hs) as (? & ? & ?).
  eapply wp_move; eauto; simpl; try done; by destruct s.
Qed.

Lemma wp_set_input {X} i t v (Q : unit -> machine -> Prop) (R : X -> machine -> Prop) x h ks c :
  wf_at i t x ks c ->
  (forall x', wf_at i (with_input t (Some v)) x' ks c -> local i x x' -> Q tt (x', h)) ->
  wp (set_input i (Some v)) Q R (x, h).
Proof.
  intros Hwf HQ. destruct (wf_at_same _ _ _ _ _ Hwf) as (? & ? & ?).
  pose proof Hwf as (_ & _ & _ & Hu & Hl). eapply wp_move; eauto; simpl; done.
Qed.

Lemma wp_start {X} i t pc v (Q : unit -> machine -> Prop) (R : X -> machine -> Prop) x h ks c :
  wf_at i t x ks c ->
  (forall x', wf_at i (mkTask SReady pc (Some v) (task_stack t) (task_context t)
                 (task_parent t) (task_cleaning t) (task_cancelled t)) x' ks c ->
     local i x x' -> Q tt (x', h)) ->
  wp (start i pc v) Q R (x, h).
Proof. intros Hwf HQ. eapply wp_move; eauto; simpl; done. Qed.

Lemma wp_set_context {X} i t ctx (Q : unit -> machine -> Prop) (R : X -> machine -> Prop)
    x h ks c :
  wf_at i t x ks c ->
  (forall x', wf_at i (with_context t ctx) x' ks c -> local i x x' -> Q tt (x', h)) ->
  wp (update_task i (fun t => with_context t ctx)) Q R (x, h).
Proof.
  intros Hwf HQ. destruct (wf_at_same _ _ _ _ _ Hwf) as (? & ? & ?).
  pose proof Hwf as (_ & _ & _ & Hu & Hl). eapply wp_move; eauto; simpl; try done.
Qed.

Lemma wp_set_cleaning {X} i t (f : N -> N) (Q : unit -> machine -> Prop)
    (R : X -> machine -> Prop) x h ks c :
  wf_at i t x ks c ->
  (forall x', wf_at i (with_cleaning t (f (task_cleaning t))) x' ks c -> local i x x' ->
     Q tt (x', h)) ->
  wp (update_task i (fun t => with_cleaning t (f (task_cleaning t)))) Q R (x, h).
Proof.
  intros Hwf HQ. destruct (wf_at_same _ _ _ _ _ Hwf) as (? & ? & ?).
  pose proof Hwf as (_ & _ & _ & Hu & Hl).
  eapply (wp_move i t (fun t => with_cleaning t (f (task_cleaning t)))); eauto; simpl; try done.
Qed.

(** *** The continuation stack *)

Lemma on_stack_eval {A} i t (op : pool_comp V E A) x h :
  get (tasks x) i = Some t ->
  on_stack i op (x, h) =
    match op (frames x, task_stack t) with
    | Val a (pool, st) =>
        Val a (with_frames (with_tasks x (upd (tasks x) i (with_stack t st))) pool, h)
    | Throw f (pool, st) =>
        Throw f (with_frames (with_tasks x (upd (tasks x) i (with_stack t st))) pool, h)
    | Stop why => Stop why
    end.
Proof. unfold on_stack, bind, task_at, exec, gets, expect. simpl. intros Hi. unfold bind. simpl. by rewrite Hi. Qed.

Lemma install_id i t x :
  get (tasks x) i = Some t ->
  with_frames (with_tasks x (upd (tasks x) i (with_stack t (task_stack t)))) (frames x) = x.
Proof.
  intros Hi. rewrite with_stack_id, upd_id by done. by destruct x.
Qed.

Lemma stacks_get x ks i t :
  wf_core x ks -> get (tasks x) i = Some t ->
  (task_stack <$> tasks x) !! N.to_nat i = Some (task_stack t).
Proof. intros _ Hi. rewrite get_lookup in Hi. by rewrite list_lookup_fmap, Hi. Qed.

Lemma wp_push i t k l (Q : unit -> machine -> Prop) (R : Fault -> machine -> Prop) x h ks c :
  wf_at i t x ks c -> get ks i = Some l -> frame_ok (bindings_per_task (limits x)) k ->
  (forall x' st', wf_at i (with_stack t st') x' (upd ks i (k :: l)) (c + is_cleaned k) ->
     local i x x' -> Q tt (x', h)) ->
  (~ (len l < frames_per_task (limits x) /\ total_frames ks < len (slots (frames x))) ->
     R Frames (x, h)) ->
  wp (push i k) Q R (x, h).
Proof.
  intros Hwf Hl Hk HQ HR. pose proof Hwf as (Hcore & _ & Hi & _ & _).
  unfold push. apply wp_bind, wp_exec. unfold wp. rewrite (on_stack_eval i t) by done.
  rewrite get_lookup in Hl. pose proof (push_spec _ _ _ _ _ _ k
    (frames_per_task (limits x)) (core_pool _ _ Hcore) (stacks_get _ _ _ _ Hcore Hi) Hl) as Hp.
  revert Hp. case_decide as Hroom; intros Hp.
  - destruct Hp as (pool' & st' & -> & Hst & Hlen); [by intros ->|].
    destruct (wf_at_stack i t x ks c l (k :: l) (c + is_cleaned k) pool' st') as [Hw Hloc];
      eauto; simpl.
    + by rewrite get_lookup.
    + lia.
    + constructor; [done|]. pose proof (core_frames _ _ Hcore) as Hf.
      by eapply Forall_lookup_1 in Hf.
    + unfold len. simpl. unfold len in Hroom. lia.
  - rewrite Hp by (by intros ->). rewrite install_id by done. by apply HR.
Qed.

Lemma wp_pop i t l (Q : option (FrameKind V E) -> machine -> Prop) (R : Fault -> machine -> Prop)
    x h ks c :
  wf_at i t x ks c -> get ks i = Some l ->
  (l = [] -> Q None (x, h)) ->
  (forall k l' x' st' c', l = k :: l' -> frame_ok (bindings_per_task (limits x)) k ->
     c' + is_cleaned k = c ->
     wf_at i (with_stack t st') x' (upd ks i l') c' -> local i x x' -> Q (Some k) (x', h)) ->
  wp (pop i) Q R (x, h).
Proof.
  intros Hwf Hl HN HS. pose proof Hwf as (Hcore & Hclean & Hi & Hu & _).
  pose proof (Hclean i t l Hi Hu Hl) as Hc. rewrite decide_True in Hc by done.
  unfold pop, wp. rewrite (on_stack_eval i t) by done. pose proof Hl as Hl0.
  rewrite get_lookup in Hl. pose proof (pop_spec _ _ _ _ _ _ (core_pool _ _ Hcore)
    (stacks_get _ _ _ _ Hcore Hi) Hl) as Hp.
  destruct l as [|k l'].
  - rewrite Hp, install_id by done. by apply HN.
  - destruct Hp as (pool' & st' & -> & Hst & Hlen).
    pose proof (core_frames _ _ Hcore) as Hf. eapply Forall_lookup_1 in Hf; [|done].
    apply list.Forall_cons in Hf as [Hfk Hfl].
    pose proof (core_depth _ _ Hcore) as Hd. eapply Forall_lookup_1 in Hd; [|done].
    simpl in Hc, Hd.
    destruct (wf_at_stack i t x ks c (k :: l') l' (c - is_cleaned k) pool' st') as [Hw Hloc];
      eauto; simpl.
    + lia.
    + unfold len in *. simpl in Hd. lia.
    + eapply HS; eauto. lia.
Qed.

Lemma wp_check i t l count (Q : unit -> machine -> Prop) (R : Fault -> machine -> Prop) x h ks c
    max_depth :
  wf_at i t x ks c -> get ks i = Some l -> count <= u32_max ->
  (len l + count <= max_depth /\ total_frames ks + count <= len (slots (frames x)) ->
     Q tt (x, h)) ->
  R Frames (x, h) ->
  wp (on_stack i (Frame.check count max_depth)) Q R (x, h).
Proof.
  intros Hwf Hl Hcount HQ HR. pose proof Hwf as (Hcore & _ & Hi & _ & _).
  unfold wp. rewrite (on_stack_eval i t) by done. rewrite get_lookup in Hl.
  rewrite (check_spec _ _ _ _ _ _ _ _ (core_pool _ _ Hcore)
    (stacks_get _ _ _ _ Hcore Hi) Hl Hcount).
  case_decide; rewrite install_id by done; auto.
Qed.

(** *** Binding rows *)

Lemma row_index x i slot :
  rows_ok x -> i < len (tasks x) -> slot < bindings_per_task (limits x) ->
  i * bindings_per_task (limits x) + slot < len (bindings x).
Proof. intros [] Hi Hs. nia. Qed.

Lemma binding_index_eval {X} x h i slot :
  rows_ok x -> i < len (tasks x) -> slot < bindings_per_task (limits x) ->
  binding_index (X := X) i slot (x, h) =
    Val (i * bindings_per_task (limits x) + slot) (x, h).
Proof.
  intros Hc Hi Hs. pose proof (row_index _ _ _ Hc Hi Hs) as Hlt. destruct Hc as [_ Hb].
  unfold binding_index, bind, exec, gets, checked_mul, checked_add. simpl.
  rewrite (proj2 (N.leb_le _ _)) by lia. simpl. rewrite (proj2 (N.leb_le _ _)) by lia. done.
Qed.

Lemma wp_read_binding {X} i slot (Q : option V -> machine -> Prop) (R : X -> machine -> Prop)
    x h :
  rows_ok x -> i < len (tasks x) -> slot < bindings_per_task (limits x) ->
  (forall v, get (bindings x) (i * bindings_per_task (limits x) + slot) = Some v ->
     Q v (x, h)) ->
  wp (read_binding i slot) Q R (x, h).
Proof.
  intros Hc Hi Hs HQ. destruct (get_lt _ _ (row_index _ _ _ Hc Hi Hs)) as [v Hv].
  unfold wp, read_binding, bind. rewrite (binding_index_eval x) by done. simpl.
  rewrite Hv. simpl. auto.
Qed.

Definition set_binding (i slot : N) (v : option V) x : Execution V E :=
  with_bindings x (upd (bindings x) (i * bindings_per_task (limits x) + slot) v).

Lemma wp_write_binding {X} i slot v (Q : unit -> machine -> Prop) (R : X -> machine -> Prop)
    x h :
  rows_ok x -> i < len (tasks x) -> slot < bindings_per_task (limits x) ->
  Q tt (set_binding i slot v x, h) ->
  wp (write_binding i slot v) Q R (x, h).
Proof.
  intros Hc Hi Hs HQ. destruct (get_lt _ _ (row_index _ _ _ Hc Hi Hs)) as [w Hw].
  unfold wp, write_binding, bind. rewrite (binding_index_eval x) by done. simpl.
  by rewrite Hw.
Qed.

Lemma wf_core_bindings x ks bs :
  wf_core x ks -> len bs = len (bindings x) -> wf_core (with_bindings x bs) ks.
Proof. intros [] Hb. split; unfold rows_ok; simpl; rewrite ?Hb; done. Qed.

Lemma wf_at_bindings i t x ks c bs :
  wf_at i t x ks c -> len bs = len (bindings x) ->
  wf_at i t (with_bindings x bs) ks c /\ local i x (with_bindings x bs).
Proof.
  intros (Hc & Hcl & Hi & Hu & Hl) Hb. split; [|by split].
  split_and!; try done. by apply wf_core_bindings.
Qed.

(** ** Steps of a leaf task *)

(** The invariant holds again, task [i] is still a leaf, and nothing else moved. *)
Definition good (i : N) x (s : machine (H := H)) : Prop :=
  exists t ks, wf_at i t (fst s) ks (task_cleaning t) /\ local i x (fst s).

Lemma good_intro i x0 x t ks c h :
  wf_at i t x ks c -> task_cleaning t = c -> local i x0 x -> good i x0 (x, h).
Proof. intros Hw <- Hl. by exists t, ks. Qed.

Lemma wp_finish i t node r image (Q : unit -> machine -> Prop) (R : Fault -> machine -> Prop)
    x h ks c :
  wf_at i t x ks c ->
  (forall x' t' h', wf_at i t' x' ks c -> local i x x' ->
     task_cleaning t' = task_cleaning t -> plain (task_state t') -> Q tt (x', h')) ->
  (get (nodes image) node = None -> R InvalidNode (x, h)) ->
  wp (finish i node r image) Q R (x, h).
Proof.
  intros Hwf HQ HR. unfold finish. apply wp_bind. unfold node_at.
  apply wp_lift_result; [|destruct (get (nodes image) node); intros ? [= <-]; by apply HR].
  intros n _. apply wp_bind, wp_exec, wp_bind, wp_host. intros r' h' _.
  destruct r' as [v|e].
  - destruct (node_next n).
    + eapply wp_start; [done|]. intros x' Hw Hl. by eapply HQ.
    + eapply wp_set_state; [done..|]. intros x' Hw Hl. by eapply HQ.
  - eapply wp_set_state; [done..|]. intros x' Hw Hl. by eapply HQ.
Qed.

Lemma wp_returning i t r (R : Fault -> machine -> Prop) x0 x h ks c :
  wf_at i t x ks c -> task_cleaning t = c -> local i x0 x ->
  wp (returning i r) (fun _ => good i x0) R (x, h).
Proof.
  intros Hw Hc Hl. unfold returning. eapply wp_set_state; [done..|].
  intros x' Hw' Hl'. eapply good_intro; [done|done|]. by etrans.
Qed.

Lemma wp_start_good {X} i t pc v (R : X -> machine -> Prop) x0 x h ks c :
  wf_at i t x ks c -> task_cleaning t = c -> local i x0 x ->
  wp (start i pc v) (fun _ => good i x0) R (x, h).
Proof.
  intros Hw Hc Hl. eapply wp_start; [done..|].
  intros x' Hw' Hl'. eapply good_intro; [done|done|]. by etrans.
Qed.

Lemma wp_finish_good i t node r image x0 x h ks c :
  wf_at i t x ks c -> task_cleaning t = c -> local i x0 x ->
  wp (finish i node r image) (fun _ => good i x0) (fun _ => good i x0) (x, h).
Proof.
  intros Hw Hc Hl. eapply wp_finish; [done| |by intros _; eapply good_intro].
  intros x' t' h' Hw' Hl' Ht' _. eapply good_intro; [done|congruence|]. by etrans.
Qed.

Lemma get_upd_eq_ks ks i l l0 : get ks i = Some l0 -> get (upd ks i l) i = Some l.
Proof. intros Hk. apply get_upd_eq. by eapply get_Some_lt. Qed.
End rules.

(** Reading the current task. *)
Ltac wp_task := wp_step wp_task_at; [done|].

#[export] Hint Resolve wp_returning wp_start_good wp_finish_good good_intro : leaf.

(** ** Transitions of a leaf *)

Section leaf_steps.
Context {H V E : Type} `{!Values H V E}.
Implicit Types (x : Execution V E) (h : H) (t : Task V E).
Implicit Types (ks : list (list (FrameKind V E))).

Lemma wp_bind_value i t slot body value x0 x h ks c :
  wf_at i t x ks c -> task_cleaning t = c -> local i x0 x ->
  slot < bindings_per_task (limits x) ->
  wp (bind_value i slot body value) (fun _ => good i x0) (fun _ => good i x0) (x, h).
Proof.
  intros Hw Hc Hl Hs. pose proof Hw as (Hcore & _ & Hi & _ & _).
  pose proof (get_Some_lt _ _ _ Hi) as Hlt.
  destruct (wf_core_stack _ _ _ _ Hcore Hi) as (l & Hk & _). unfold bind_value.
  apply wp_bind, wp_exec, wp_bind. eapply wp_check; [done..| |by eapply good_intro].
  intros Hroom.
  pose proof (core_rows _ _ Hcore) as Hrows.
  apply wp_bind, wp_read_binding; [done..|]. intros prev Hprev.
  apply wp_bind, wp_write_binding; [done..|].
  destruct (wf_at_bindings i t x ks c
    (upd (bindings x) (i * bindings_per_task (limits x) + slot) None) Hw (len_upd _ _ _))
    as [Hw1 Hl1].
  apply wp_bind. eapply wp_push; [done..| |].
  2: { intros Hno. simpl in Hno. exfalso. apply Hno. simpl. lia. }
  intros x2 st2 Hw2 Hl2. simpl in Hw2. rewrite N.add_0_r in Hw2.
  pose proof Hw2 as (Hcore2 & _ & Hi2 & _ & _).
  apply wp_bind, wp_write_binding;
    [by eapply core_rows|by eapply get_Some_lt|by rewrite (local_limits _ _ _ Hl2)|].
  destruct (wf_at_bindings i _ x2 _ c
    (upd (bindings x2) (i * bindings_per_task (limits x2) + slot) (Some value)) Hw2
    (len_upd _ _ _)) as [Hw3 Hl3].
  eapply wp_start_good; [done|done|]. do 3 (etrans; [eassumption|]). done.
Qed.

Lemma wp_resume_frame i t k outcome image x0 x h ks c :
  wf_at i t x ks c -> c + is_cleaned k = task_cleaning t ->
  frame_ok (bindings_per_task (limits x)) k -> local i x0 x ->
  wp (resume_frame i k outcome image) (fun _ => good i x0) (fun _ => good i x0) (x, h).
Proof.
  intros Hw Hc Hk Hl. pose proof Hw as (Hcore & _ & Hi & _ & _).
  pose proof (get_Some_lt _ _ _ Hi) as Hlt.
  destruct (wf_core_stack _ _ _ _ Hcore Hi) as (l & Hkl & _).
  destruct k as [|node|next|recover|cleanup input|original|cond body left_ value
    |cond body left_|ctx|yes no input|slot body|slot prev|node ent]; simpl in Hc, Hk;
    try (rewrite N.add_0_r in Hc); unfold resume_frame, truth_of; try done.
  - eauto with leaf.
  - destruct outcome; eauto with leaf.
  - apply wp_bind. eapply wp_task_at; [done|].
    destruct outcome as [v|e]; [eauto with leaf|].
    destruct (_ || _); [|eauto with leaf]. apply wp_bind, wp_host. intros v h1 _.
    apply wp_bind. destruct (task_input t).
    + apply wp_host. eauto with leaf.
    + apply wp_ret. eauto with leaf.
  - apply wp_bind. eapply wp_push; [done..| |eauto with leaf].
    intros x1 st1 Hw1 Hl1. pose proof Hw1 as (_ & _ & Hi1 & _ & _).
    apply wp_bind. eapply wp_task_at; [done|]. apply wp_bind.
    eapply wp_expect.
    { apply checked_add_Some. split; [done|]. simpl. pose proof (wf_at_depth _ _ _ _ _ Hw). lia. }
    apply wp_bind. eapply (wp_set_cleaning i _ (fun _ => task_cleaning (with_stack t st1) + 1));
      [done|]. intros x2 Hw2 Hl2. eapply wp_start_good; [done|simpl; lia|].
    do 2 (etrans; [eassumption|]). done.
  - apply wp_bind. eapply (wp_set_cleaning i t (fun n => saturating_sub n 1)); [done|].
    intros x1 Hw1 Hl1. apply wp_bind, wp_host. intros v h1 _.
    apply wp_bind, wp_host. intros r h2 _.
    eapply wp_returning; [done| |by etrans]. unfold saturating_sub. simpl. lia.
  - destruct outcome as [test|e]; [|eauto with leaf]. apply wp_bind, wp_host. intros d h1 _.
    destruct d as [[]|e]; [| |eauto with leaf].
    + destruct (0 <? left_).
      * apply wp_bind. eapply wp_push; [done..| |eauto with leaf]. intros x1 st1 Hw1 Hl1.
        apply wp_bind, wp_host. intros v h2 _.
        eapply wp_start_good; [done|simpl; lia|by etrans].
      * apply wp_bind, wp_host. eauto with leaf.
    + apply wp_bind, wp_host. eauto with leaf.
  - destruct outcome as [v|e]; [|eauto with leaf].
    apply wp_bind. eapply wp_push; [done..| |eauto with leaf]. intros x1 st1 Hw1 Hl1.
    eapply wp_start_good; [done|simpl; lia|by etrans].
  - apply wp_bind. eapply wp_set_context; [done|]. intros x1 Hw1 Hl1.
    eapply wp_returning; [done|done|by etrans].
  - destruct outcome as [test|e]; [|eauto with leaf]. apply wp_bind, wp_host. intros d h1 _.
    destruct d as [b|e]; [|eauto with leaf]. apply wp_bind, wp_host. eauto with leaf.
  - destruct outcome as [v|e]; [|eauto with leaf]. apply wp_bind, wp_exec.
    destruct (N.leb_spec (bindings_per_task (limits x)) slot).
    + apply wp_throw. eauto with leaf.
    + by eapply wp_bind_value.
  - apply wp_bind, wp_write_binding; [by eapply core_rows|done..|].
    destruct (wf_at_bindings i t x ks c
      (upd (bindings x) (i * bindings_per_task (limits x) + slot) prev) Hw (len_upd _ _ _))
      as [Hw1 Hl1]. eapply wp_returning; [done|done|by etrans].
  - eauto with leaf.
Qed.

Lemma wp_unwind i t outcome image x0 x h ks :
  wf_at i t x ks (task_cleaning t) -> local i x0 x ->
  wp (unwind i outcome image)
    (fun a s => a = None /\ good i x0 s) (fun _ => good i x0) (x, h).
Proof.
  intros Hw Hl. pose proof Hw as (Hcore & _ & Hi & _ & _).
  destruct (wf_core_stack _ _ _ _ Hcore Hi) as (l & Hk & _). unfold unwind.
  apply wp_bind. eapply wp_pop; [done..| |].
  - intros _. apply wp_bind. eapply wp_set_state; [done..|]. intros x2 Hw2 Hl2.
    split; [done|]. eapply good_intro; [done|done|]. by etrans.
  - intros k l' x2 st2 c2 -> Hk2 Hc2 Hw2 Hl2. apply wp_bind. eapply wp_mono.
    + eapply (wp_resume_frame i _ k outcome image x0 x2); [done|done| |by etrans].
      by rewrite (local_limits _ _ _ Hl2).
    + intros [] s Hs. by split.
    + done.
Qed.

Lemma wp_transition_returning i t outcome image x0 x h ks :
  wf_at i t x ks (task_cleaning t) -> local i x0 x ->
  wp (transition_returning i outcome image)
    (fun a s => a = None /\ good i x0 s) (fun _ => good i x0) (x, h).
Proof.
  intros Hw Hl. pose proof Hw as (_ & _ & Hi & _ & _). unfold transition_returning.
  apply wp_bind, wp_exec, wp_bind, wp_host. intros r h1 _.
  apply wp_bind, wp_host. intros v h2 _. apply wp_bind. eapply wp_task_at; [done|].
  apply wp_bind. destruct (task_input t); [apply wp_host|apply wp_ret]; intros;
    (apply wp_bind; eapply wp_set_input; [done|]; intros x1 Hw1 Hl1;
     eapply wp_unwind; [exact Hw1|by etrans]).
Qed.

(** What every step keeps: sizes, limits, identity and the host's counters. *)
Record evolves x x' : Prop := {
  evolves_count : len (tasks x') = len (tasks x);
  evolves_limits : limits x' = limits x;
  evolves_slots : len (slots (frames x')) = len (slots (frames x));
  evolves_rows : len (bindings x') = len (bindings x);
  evolves_id : exec_image_id x' = exec_image_id x;
  evolves_aborting : aborting x' = aborting x;
  evolves_cursor : cursor x' = cursor x;
  evolves_steps : steps x' = steps x;
  evolves_cleanup : cleanup_steps x' = cleanup_steps x;
  evolves_ticket : ticket x <= ticket x';
  evolves_waits : forall j k, waits (tasks x') j k -> waits (tasks x) j k \/ ticket x < k
}.

#[export] Instance evolves_refl : Reflexive evolves.
Proof. intros x; split; auto with lia. Qed.

#[export] Instance evolves_trans : Transitive evolves.
Proof.
  intros x y z [] []. split; try congruence; [lia|]. intros j k Hz.
  destruct (evolves_waits1 j k Hz) as [Hy|]; [auto|right; lia].
Qed.

Lemma local_evolves i x x' : local i x x' -> evolves x x'.
Proof.
  intros []. split; try congruence; [lia|]. intros j k Hw. left.
  destruct (decide (j = i)) as [->|Hne]; [by auto|]. destruct Hw as (t & n & Hj & Hs).
  rewrite local_others0 in Hj by done. by exists t, n.
Qed.

(** A waiting task that was not touched, except that it may have been cancelled. *)
Definition held t t' : Prop :=
  task_state t' = task_state t /\ task_cleaning t' = task_cleaning t /\
  (task_cancelled t = true -> task_cancelled t' = true).

#[export] Instance held_refl : Reflexive held.
Proof. by intros t. Qed.

#[export] Instance held_trans : Transitive held.
Proof. intros t u v (E1 & E2 & H1) (E3 & E4 & H2). split_and!; [congruence..|auto]. Qed.

(** The tasks that wait for the host wait on, and the others for new tickets only. *)
Record spares x x' : Prop := {
  spares_ticket : ticket x <= ticket x';
  spares_new : forall j t' k n, get (tasks x') j = Some t' -> task_state t' = SWaiting k n ->
    (exists t, get (tasks x) j = Some t /\ held t t') \/ ticket x < k;
  spares_old : forall j t k n, get (tasks x) j = Some t -> task_state t = SWaiting k n ->
    exists t', get (tasks x') j = Some t' /\ held t t'
}.

#[export] Instance spares_refl : Reflexive spares.
Proof. intros x. split; [lia|eauto using held_refl..]. Qed.

#[export] Instance spares_trans : Transitive spares.
Proof.
  intros x y z [Ht1 Hn1 Ho1] [Ht2 Hn2 Ho2]. split; [lia|..].
  - intros j t' k n Hj Hs. destruct (Hn2 j t' k n Hj Hs) as [(u & Hu & Hh)|Hlt]; [|right; lia].
    destruct (Hn1 j u k n Hu) as [(t & Ht & Hh')|Hlt]; [by destruct Hh as [<- _]| |by right].
    left. exists t. split; [done|]. by etrans.
  - intros j t k n Hj Hs. destruct (Ho1 j t k n Hj Hs) as (u & Hu & Hh).
    destruct (Ho2 j u k n Hu) as (v & Hv & Hh'); [by destruct Hh as [-> _]|].
    exists v. split; [done|]. by etrans.
Qed.

(** Task [i] does not wait for the host. *)
Definition idle (i : N) x : Prop := forall k, ~ waits (tasks x) i k.

Lemma spares_tasks x x' : tasks x' = tasks x -> ticket x <= ticket x' -> spares x x'.
Proof. intros Et Hk. split; [done|rewrite Et; eauto using held_refl..]. Qed.

Lemma local_spares i x x' : local i x x' -> idle i x -> spares x x'.
Proof.
  intros Hl Hidle. pose proof (local_others _ _ _ Hl) as Ho. split.
  - rewrite (local_issued _ _ _ Hl). lia.
  - intros j t' k n Hj Hs. left. destruct (decide (j = i)) as [->|Hne].
    + destruct (Hidle k). apply (local_waits _ _ _ Hl). by exists t', n.
    + rewrite Ho in Hj by done. by exists t'.
  - intros j t k n Hj Hs. destruct (decide (j = i)) as [->|Hne].
    + destruct (Hidle k). by exists t, n.
    + exists t. by rewrite Ho.
Qed.

(** What a step of task [i] does to the rest of the execution. *)
Definition passes (i : N) x x' : Prop := evolves x x' /\ (idle i x -> spares x x').

Lemma local_passes i x x' : local i x x' -> passes i x x'.
Proof. intros Hl. split; [by eapply local_evolves|by eapply local_spares]. Qed.

(** A request: a fresh ticket, delivered to the task that waits for it. *)
Definition requested (i : N) (q : Request V) x0 x : Prop :=
  request_task q = i /\ request_ticket q = ticket x /\ ticket x = ticket x0 + 1 /\
  (forall j, j <> i -> get (tasks x) j = get (tasks x0) j) /\
  exists t n, get (tasks x) i = Some t /\ task_state t = SWaiting (ticket x) n /\
    task_input t = Some (request_input q).

(** What one transition of task [i] may answer, the invariant restored. *)
Definition answered (i : N) x0 (a : option (Advance V E)) (s : machine (H := H)) : Prop :=
  wf (fst s) /\ passes i x0 (fst s) /\
  match a with
  | None => ticket (fst s) = ticket x0
  | Some (ARequest q) => requested i q x0 (fst s)
  | Some _ => False
  end.

(** After an early return the caller replaces the state of task [i] by a return. *)
Definition repairable (i : N) x0 (s : machine (H := H)) : Prop :=
  passes i x0 (fst s) /\ ticket (fst s) = ticket x0 /\
  exists t, get (tasks (fst s)) i = Some t /\
    forall r, wf (with_tasks (fst s) (upd (tasks (fst s)) i (with_state t (SReturning r)))).

Lemma good_answered i x0 s : good i x0 s -> answered i x0 None s.
Proof.
  intros (t & ks & Hw & Hl). split_and!.
  - by eapply wf_at_wf.
  - by apply local_passes.
  - apply (local_issued _ _ _ Hl).
Qed.

Lemma good_repairable i x0 s : good i x0 s -> repairable i x0 s.
Proof.
  intros (t & ks & Hw & Hl). split_and!.
  - by apply local_passes.
  - apply (local_issued _ _ _ Hl).
  - exists t. split; [apply Hw|]. intros r.
    destruct (wf_at_same _ _ _ _ _ Hw) as (? & _ & _).
    destruct (wf_at_update i t (with_state t (SReturning r)) _ ks _ Hw) as [Hw' _]; try done.
    by eapply wf_at_wf.
Qed.

Lemma wf_core_ticket x ks n :
  wf_core x ks -> ticket x <= n -> n <= u64_max -> wf_core (with_ticket x n) ks.
Proof.
  intros [] Hn Hm. split; unfold rows_ok; simpl; try done.
  destruct core_tickets0 as [H1 H2]. split; [|done].
  intros j t Hj k m Hs. specialize (H1 _ _ Hj _ _ Hs). lia.
Qed.

Lemma wf_at_ticket i t x ks c n :
  wf_at i t x ks c -> ticket x <= n -> n <= u64_max -> wf_at i t (with_ticket x n) ks c.
Proof.
  intros (Hc & Hcl & Hi & Hu & Hl) Hn Hm. split_and!; try done. by apply wf_core_ticket.
Qed.

(** Issuing a request from a leaf that holds its input. *)
Lemma wp_issue i t pc import position input x0 x h ks :
  wf_at i t x ks (task_cleaning t) -> local i x0 x -> task_input t = Some input ->
  wp (issue i pc import position input) (answered i x0) (fun _ => good i x0) (x, h).
Proof.
  intros Hw Hl Hin. unfold issue. apply wp_bind, wp_exec, wp_bind, wp_require.
  2: { intros _. by eapply good_intro. }
  intros tick [-> Hmax]%checked_add_Some. apply wp_bind, wp_put_exec.
  pose proof (wf_at_ticket i t x ks _ (ticket x + 1) Hw ltac:(lia) Hmax) as Hw1.
  pose proof Hw1 as (_ & _ & Hi1 & _ & _). pose proof (get_Some_lt _ _ _ Hi1) as Hlt.
  apply wp_bind. eapply wp_update_task; [done|].
  destruct (wf_at_update i t (with_state t (SWaiting (ticket x + 1) pc)) _ _ _ Hw1)
    as [Hw2 _]; [done|done|done|done|by eexists|done| |].
  { intros k m [= <- <-]. split; [simpl; lia|]. intros j tj n' Hne Hj Hs.
    destruct Hw as (Hcore & _). destruct (core_tickets _ _ Hcore) as [H1 _].
    specialize (H1 _ _ Hj _ _ Hs). lia. }
  pose proof Hw2 as (_ & _ & Hi2 & _ & _). pose proof (local_issued _ _ _ Hl) as E1.
  apply wp_bind. eapply wp_task_at; [done|]. apply wp_ret. split; [by eapply wf_at_wf|]. split; [split|].
  - etrans; [by eapply local_evolves|]. split; simpl; try done; [by rewrite len_upd|lia|].
    intros j k (u & m & Hj & Hs). apply get_upd_inv in Hj as [[-> ->]|[_ Hj]]; [|by left; exists u, m|done].
    right. simpl in Hs. simplify_eq. lia.
  - intros Hidle. pose proof (local_spares _ _ _ Hl Hidle) as Hsp. split; simpl; [lia|..].
    + intros j u k m Hj Hs. apply get_upd_inv in Hj as [[-> ->]|[_ Hj]]; [|by eapply spares_new|done].
      right. simpl in Hs. simplify_eq. lia.
    + intros j u k m Hj Hs. assert (j <> i) as Hne by (intros ->; destruct (Hidle k); by exists u, m).
      rewrite get_upd_ne by done. by eapply spares_old.
  - unfold requested. simpl. split_and!; [done|done|congruence|..].
    { intros j Hj. rewrite get_upd_ne by done. by apply (local_others _ _ _ Hl). }
    do 2 eexists. rewrite get_upd_eq by done. by split_and!.
Qed.
End leaf_steps.
