(* ===== verification/MachineStep.v ===== *)
(** * Transitions preserve the machine's invariant

    Every arm of [Execution::transition] restores [wf]: instructions of a leaf task,
    the [Fork] that turns a leaf into a joining task with two children, and the
    join that frees them again.  A [Throw] leaves a state that the scheduler repairs by
    making the task return the fault. *)

From stdpp Require Import base numbers list option.
From S2P Require Import Prelude Program Frame Machine MachineInv.

Local Open Scope N_scope.
Local Open Scope comp_scope.

(** ** Instructions of a leaf task *)
Section instructions.
Context {H V E : Type} `{!Values H V E}.
Implicit Types (x : Execution V E) (h : H) (t : Task V E).
Implicit Types (ks : list (list (FrameKind V E))).

(** A computation that moves only a leaf, followed by the [None] of its arm. *)
Lemma wp_then_none i x0 (c : comp (machine (H := H)) Fault unit) s :
  wp c (fun _ => good i x0) (fun _ => good i x0) s ->
  wp (c ;;; ret None) (answered i x0) (fun _ : Fault => good i x0) s.
Proof.
  intros Hc. apply wp_bind. eapply wp_mono; [exact Hc| |done].
  intros [] s' Hs. apply wp_ret. by apply good_answered.
Qed.

(** Pushing a frame that is not a cleanup scope, then running [c]. *)
Lemma wp_push_then {A} i t k (c : comp (machine (H := H)) Fault A) Q x0 x h ks :
  wf_at i t x ks (task_cleaning t) -> local i x0 x ->
  frame_ok (bindings_per_task (limits x)) k -> is_cleaned k = 0 ->
  (forall t' x' ks', wf_at i t' x' ks' (task_cleaning t') -> local i x0 x' ->
     wp c Q (fun _ : Fault => good i x0) (x', h)) ->
  wp (push i k ;;; c) Q (fun _ : Fault => good i x0) (x, h).
Proof.
  intros Hw Hl Hk Hc Hcont. pose proof Hw as (Hcore & _ & Hi & _ & _).
  destruct (wf_core_stack _ _ _ _ Hcore Hi) as (l & Hkl & _).
  apply wp_bind. eapply wp_push; [done..| |].
  - intros x' st' Hw' Hl'. rewrite Hc, N.add_0_r in Hw'.
    eapply (Hcont (with_stack t st')); [exact Hw'|by etrans].
  - intros _. by eapply good_intro.
Qed.

Lemma wp_start_none i t pc v x0 x h ks :
  wf_at i t x ks (task_cleaning t) -> local i x0 x ->
  wp (start i pc v ;;; ret None) (answered i x0) (fun _ : Fault => good i x0) (x, h).
Proof. intros Hw Hl. apply wp_then_none. eauto with leaf. Qed.

Lemma wp_finish_none i t pc r image x0 x h ks :
  wf_at i t x ks (task_cleaning t) -> local i x0 x ->
  wp (finish i pc r image ;;; ret None) (answered i x0) (fun _ : Fault => good i x0) (x, h).
Proof. intros Hw Hl. apply wp_then_none. eauto with leaf. Qed.

(** The input an instruction needs is still in the task. *)
Definition holds_input (n : Node V E) t (input : V) : Prop :=
  match node_kind n with
  | NRequest _ | NScope _ _ => task_input t = Some input
  | _ => True
  end.

Definition is_fork (n : Node V E) : bool :=
  match node_kind n with NFork _ _ _ => true | _ => false end.

Lemma wp_execute_leaf i t pc n input image x0 x h ks :
  wf_at i t x ks (task_cleaning t) -> local i x0 x -> holds_input n t input ->
  is_fork n = false ->
  wp (execute i pc n input image) (answered i x0) (fun _ : Fault => good i x0) (x, h).
Proof.
  intros Hw Hl Hin Hf. pose proof Hw as (Hcore & _ & Hi & _ & _).
  pose proof (get_Some_lt _ _ _ Hi) as Hlt. pose proof (core_rows _ _ Hcore) as Hrows.
  assert (good i x0 (x, h)) as Hgood by (by eapply good_intro).
  unfold execute, holds_input, is_fork in *.
  destruct (node_kind n); try discriminate;
    try (repeat (eapply wp_push_then; [eassumption..|done|done|clear Hw Hl; intros ??? Hw Hl]);
         by eapply wp_start_none).
  - apply wp_bind, wp_host. intros v h' _. by eapply wp_finish_none.
  - by eapply wp_finish_none.
  - apply wp_bind, wp_exec. destruct (N.leb_spec (bindings_per_task (limits x)) slot);
      [by apply wp_throw|].
    apply wp_bind, wp_read_binding; [done..|]. intros stored _.
    apply wp_bind, wp_require; [|done]. intros v ->. apply wp_bind, wp_host. intros v' h' _.
    by eapply wp_finish_none.
  - by eapply wp_finish_none.
  - destruct (imports image <=? _); [by apply wp_throw|]. by eapply wp_issue.
  - apply wp_bind, wp_host. intros [test|e] h' _; [|by eapply wp_finish_none].
    eapply wp_push_then; [eassumption..|done|done|]. intros. by eapply wp_start_none.
  - destruct (imports image <=? _); [by apply wp_throw|]. by eapply wp_issue.
Qed.
End instructions.

(** ** Forking *)

Section fork_tree.
Context {V E : Type}.
Implicit Types (ts : list (Task V E)) (t : Task V E) (ks : list (list (FrameKind V E))).

Lemma elem_of_free_slots k ts i :
  i ∈ free_slots k ts -> k <= i /\ exists t, get ts (i - k) = Some t /\ task_state t = SFree.
Proof.
  revert k i. induction ts as [|t ts IH]; intros k i Hi; simpl in Hi.
  { by apply not_elem_of_nil in Hi. }
  assert (forall i, i ∈ free_slots (k + 1) ts ->
    k < i /\ exists t', get (t :: ts) (i - k) = Some t' /\ task_state t' = SFree) as Hrec.
  { intros i' (? & t' & Ht' & ?)%IH. split; [lia|]. exists t'. split; [|done].
    rewrite get_lookup in *. replace (N.to_nat (i' - k)) with (S (N.to_nat (i' - (k + 1)))) by lia.
    done. }
  destruct (task_state t) eqn:Hs; simpl in Hi; try (apply Hrec in Hi as [? ?]; split; [lia|done]).
  apply elem_of_cons in Hi as [->|Hi].
  - split; [lia|]. exists t. by rewrite N.sub_diag.
  - apply Hrec in Hi as [? ?]. split; [lia|done].
Qed.

Lemma free_slots_above k ts i : i ∈ free_slots k ts -> k <= i.
Proof. intros Hi%elem_of_free_slots. apply Hi. Qed.

Lemma NoDup_free_slots k ts : NoDup (free_slots k ts).
Proof.
  revert k. induction ts as [|t ts IH]; intros k; simpl; [constructor|].
  destruct (is_free (task_state t)); [|done]. apply list.NoDup_cons. split; [|done].
  intros Hi%free_slots_above. lia.
Qed.

(** The two slots a fork takes. *)
Lemma free_slots_two ts a b :
  head (free_slots 0 ts) = Some a -> head (tail (free_slots 0 ts)) = Some b ->
  a <> b /\ (exists ta, get ts a = Some ta /\ task_state ta = SFree) /\
  (exists tb, get ts b = Some tb /\ task_state tb = SFree).
Proof.
  intros Ha Hb. pose proof (NoDup_free_slots 0 ts) as Hnd.
  pose proof (elem_of_free_slots 0 ts) as Hel.
  destruct (free_slots 0 ts) as [|a' [|b' l]]; simplify_eq/=.
  apply list.NoDup_cons in Hnd as [Hne _]. split.
  { intros ->. apply Hne. by left. }
  split; [specialize (Hel a)|specialize (Hel b)]; rewrite N.sub_0_r in Hel; apply Hel;
    repeat constructor.
Qed.

(** A fresh child of task [i]. *)
Definition child (i pc : N) (input : V) t : Task V E :=
  mkTask SReady pc (Some input) default_stack (task_context t) (Some i) (task_cleaning t) false.

(** Task [i] has forked into the slots [a] and [b]. *)
Definition forked ts (i : N) t (a b pa pb : N) (input : V) (kind : Join) (pc : N)
    : list (Task V E) :=
  upd (upd (upd ts a (child i pa input t)) b (child i pb input t)) i
    (with_state t (SJoining (mkJoin a b kind pc))).

Lemma get_forked ts i t a b pa pb input kind pc j :
  get ts i = Some t -> a < len ts -> b < len ts -> a <> b -> a <> i -> b <> i ->
  get (forked ts i t a b pa pb input kind pc) j =
    if decide (j = i) then Some (with_state t (SJoining (mkJoin a b kind pc)))
    else if decide (j = a) then Some (child i pa input t)
    else if decide (j = b) then Some (child i pb input t)
    else get ts j.
Proof.
  intros Hi Ha Hb Hab Hai Hbi. pose proof (get_Some_lt _ _ _ Hi).
  unfold forked. rewrite !get_upd, !len_upd.
  repeat case_decide; naive_solver.
Qed.

(** Slots that are free are nobody's parent. *)
Lemma parent_used ts j tj p :
  tree ts -> get ts j = Some tj -> task_parent tj = Some p ->
  exists tp, get ts p = Some tp /\ used tp.
Proof.
  intros Ht Hj Hp. destruct (decide (j = 0)) as [->|Hj0].
  { destruct (tree_root _ Ht) as (t0 & ? & ? & ?). congruence. }
  assert (used tj) as Hu.
  { intros Hs. rewrite (tree_free _ Ht _ _ Hj Hs) in Hp. done. }
  destruct (tree_parent _ Ht j tj Hj Hu Hj0) as (p' & tp & jn & ? & ? & Hjn & _).
  simplify_eq. exists tp. split; [done|]. intros Hs. by rewrite Hs in Hjn.
Qed.

(** A table without new waiting tasks keeps its tickets distinct. *)
Lemma tickets_sub issued ts ts' :
  tickets_ok issued ts ->
  (forall j t' k n, get ts' j = Some t' -> task_state t' = SWaiting k n ->
     exists t, get ts j = Some t /\ task_state t = SWaiting k n) ->
  tickets_ok issued ts'.
Proof.
  intros [H1 H2] Hsub. split.
  - intros j t' Hj k n Hs. destruct (Hsub _ _ _ _ Hj Hs) as (t & ? & ?). eauto.
  - intros i1 i2 t1 t2 k n1 n2 G1 G2 S1 S2.
    destruct (Hsub _ _ _ _ G1 S1) as (u1 & ? & ?), (Hsub _ _ _ _ G2 S2) as (u2 & ? & ?). eauto.
Qed.

(** The stack of an unused slot is empty. *)
Lemma free_stack x ks i t :
  wf_core x ks -> get (tasks x) i = Some t -> task_state t = SFree -> get ks i = Some [].
Proof.
  intros Hcore Hi Hs. destruct (wf_core_stack _ _ _ _ Hcore Hi) as (l & Hl & Hd).
  rewrite (tree_free _ (core_tree _ _ Hcore) _ _ Hi Hs) in Hd. destruct l; [done|].
  unfold len in Hd. simpl in Hd. lia.
Qed.
End fork_tree.

(** A leaf [t] at [i] forks into the free slots [a] and [b]. *)
Section forking.
Context {V E : Type} (x : Execution V E) (ks : list (list (FrameKind V E))).
Context (i : N) (t : Task V E) (a b pa pb : N) (input : V) (kind : Join) (pc : N).
Context (Hw : wf_at i t x ks (task_cleaning t)) (Hab : a <> b).
Context (Ha : exists ta, get (tasks x) a = Some ta /\ task_state ta = SFree).
Context (Hb : exists tb, get (tasks x) b = Some tb /\ task_state tb = SFree).
Let ts := tasks x.
Let ts' := forked ts i t a b pa pb input kind pc.
Let joining := with_state t (SJoining (mkJoin a b kind pc)).

Lemma fork_ne : a <> i /\ b <> i.
Proof using Hw Ha Hb.
  clear - Hw Ha Hb. destruct Hw as (_ & _ & Hi & Hu & _), Ha as (? & ? & ?), Hb as (? & ? & ?).
  unfold used in Hu. split; intros ->; congruence.
Qed.

Lemma fork_get j : get ts' j =
  if decide (j = i) then Some joining
  else if decide (j = a) then Some (child i pa input t)
  else if decide (j = b) then Some (child i pb input t)
  else get ts j.
Proof.
  destruct fork_ne. destruct Hw as (_ & _ & Hi & _ & _), Ha as (? & ? & _), Hb as (? & ? & _).
  apply get_forked; eauto using get_Some_lt.
Qed.

(** The tasks of the forked table: the parent, its children, or one from before. *)
Lemma fork_cases j tj : get ts' j = Some tj ->
  j = i /\ tj = joining \/
  (exists p, (j = a \/ j = b) /\ j <> i /\ tj = child i p input t) \/
  (j <> i /\ j <> a /\ j <> b /\ get ts j = Some tj).
Proof. destruct fork_ne. rewrite fork_get. repeat case_decide; naive_solver. Qed.

Lemma fork_keep j tj : get ts j = Some tj -> used tj -> j <> i -> get ts' j = Some tj.
Proof.
  intros Hj Hu Hne. rewrite fork_get. destruct Ha as (? & ? & ?), Hb as (? & ? & ?).
  unfold used, ts in *. repeat case_decide; subst; congruence.
Qed.

Lemma fork_tree : tree ts'.
Proof.
  destruct Hw as (Hcore & _ & Hi & Hu & Hl). pose proof (core_tree _ _ Hcore) as Ht.
  destruct fork_ne as [Hai Hbi]. split.
  - destruct (tree_root _ Ht) as (t0 & H0 & Hu0 & Hp0). destruct (decide (i = 0)) as [Hi0|].
    + exists joining. rewrite fork_get, decide_True by done. split_and!; [done|done|].
      simpl. congruence.
    + exists t0. split; [by apply fork_keep|done].
  - intros j tj [[-> ->]|[(p & _ & _ & ->)|(_ & _ & _ & Hj)]]%fork_cases; try done.
    exact (tree_free _ Ht _ _ Hj).
  - intros j tj [[-> ->]|[(p & Hjab & _ & ->)|(Hji & _ & _ & Hj)]]%fork_cases Huj Hj0.
    + destruct (tree_parent _ Ht i t Hi Hu Hj0) as (p & tp & jn & Hp & Hgp & Hjn & Hlr).
      exists p, tp, jn. split_and!; try done. apply fork_keep; [done| |].
      * intros Hs. by rewrite Hs in Hjn.
      * intros ->. unfold leaf in Hl. congruence.
    + exists i, joining. eexists. split_and!; [done| |done|done].
      by rewrite fork_get, decide_True.
    + destruct (tree_parent _ Ht j tj Hj Huj Hj0) as (p & tp & jn & Hp & Hgp & Hjn & Hlr).
      exists p, tp, jn. split_and!; try done. apply fork_keep; [done| |].
      * intros Hs. by rewrite Hs in Hjn.
      * intros ->. unfold leaf in Hl. congruence.
  - intros j tj jn [[-> ->]|[(p & _ & _ & ->)|(Hji & _ & _ & Hj)]]%fork_cases Hjn; [|done|].
    + injection Hjn as <-. split; [done|]. intros c Hc. simpl in Hc.
      rewrite fork_get. destruct Hc as [-> | ->];
        repeat case_decide; simplify_eq; eexists; split_and!; done.
    + destruct (tree_join _ Ht j tj jn Hj Hjn) as [? Hch]. split; [done|].
      intros c Hc. destruct (Hch c Hc) as (tc & Hgc & Huc & Hpc).
      destruct (decide (c = i)) as [Hci|]; [|exists tc; split; [by apply fork_keep|done]].
      exists joining. rewrite fork_get, decide_True by done. split_and!; [done|done|].
      simpl. congruence.
  - destruct (tree_acyclic _ Ht) as [rank Hrank].
    exists (fun j => if decide (j = a \/ j = b) then S (rank i) else rank j).
    assert (forall j tj p, get ts j = Some tj -> task_parent tj = Some p -> ~ (p = a \/ p = b))
      as Hpn.
    { intros j tj p Hj Hp. destruct (parent_used _ _ _ _ Ht Hj Hp) as (tp & Hgp & Hup).
      destruct Ha as (? & ? & ?), Hb as (? & ? & ?). unfold used in Hup.
      intros [-> | ->]; congruence. }
    intros j tj p [[-> ->]|[(q & Hjab & _ & ->)|(Hji & Hja & Hjb & Hj)]]%fork_cases Hp.
    + simpl in Hp. rewrite (decide_False (P := p = a \/ _)), decide_False by naive_solver. eauto.
    + injection Hp as <-. rewrite decide_False, decide_True by naive_solver. lia.
    + rewrite (decide_False (P := p = a \/ _)), decide_False by naive_solver. eauto.
  - intros j tj [[-> ->]|[(p & _ & _ & ->)|(_ & _ & _ & Hj)]]%fork_cases; try done.
    by apply (tree_halted _ Ht).
Qed.

Lemma fork_stacks : task_stack <$> ts' = task_stack <$> ts.
Proof.
  destruct Hw as (Hcore & _ & Hi & _ & _). destruct fork_ne as [Hai Hbi].
  destruct Ha as (ta & Hga & Hsa), Hb as (tb & Hgb & Hsb).
  pose proof (tree_free _ (core_tree _ _ Hcore) _ _ Hga Hsa) as ->.
  pose proof (tree_free _ (core_tree _ _ Hcore) _ _ Hgb Hsb) as ->.
  unfold ts', forked. rewrite !upd_fmap. simpl.
  rewrite (upd_id (task_stack <$> ts) a) by (by rewrite get_fmap; unfold ts; rewrite Hga).
  rewrite (upd_id (task_stack <$> ts) b) by (by rewrite get_fmap; unfold ts; rewrite Hgb).
  by rewrite (upd_id (task_stack <$> ts) i) by (by rewrite get_fmap; unfold ts; rewrite Hi).
Qed.

Lemma fork_inherited tj p :
  task_parent tj = Some p -> p <> a -> p <> b -> inherited ts' tj = inherited ts tj.
Proof.
  intros Hp Hpa Hpb. destruct Hw as (_ & _ & Hi & _ & _). unfold inherited.
  rewrite Hp, fork_get. repeat case_decide; try done. subst p. unfold ts. by rewrite Hi.
Qed.

Lemma fork_clean : clean ts' ks.
Proof.
  destruct Hw as (Hcore & Hclean & Hi & Hu & Hl). pose proof (core_tree _ _ Hcore) as Ht.
  assert (forall j tj, get ts j = Some tj -> inherited ts' tj = inherited ts tj) as Hinh.
  { intros j tj Hj. destruct (task_parent tj) as [p|] eqn:Hp.
    - destruct (parent_used _ _ _ _ Ht Hj Hp) as (tp & Hgp & Hup).
      destruct Ha as (? & ? & ?), Hb as (? & ? & ?). unfold used in Hup.
      eapply fork_inherited; [done|..]; intros ->; congruence.
    - unfold inherited. by rewrite Hp. }
  intros j tj l [[-> ->]|[(p & Hjab & _ & ->)|(Hji & _ & _ & Hj)]]%fork_cases Huj Hlj.
  - specialize (Hclean i t l Hi Hu Hlj). rewrite decide_True in Hclean by done.
    specialize (Hinh i t Hi). unfold joining, inherited in *. simpl. by rewrite Hinh.
  - assert (l = []) as ->.
    { destruct Ha as (ta & Hga & Hsa), Hb as (tb & Hgb & Hsb).
      pose proof (free_stack _ _ _ _ Hcore Hga Hsa). pose proof (free_stack _ _ _ _ Hcore Hgb Hsb).
      destruct Hjab as [-> | ->]; congruence. }
    unfold inherited. simpl. by rewrite fork_get, decide_True.
  - specialize (Hclean j tj l Hj Huj Hlj). rewrite decide_False in Hclean by done.
    by rewrite (Hinh _ _ Hj).
Qed.

Lemma wf_fork : wf (with_tasks x ts').
Proof.
  destruct Hw as (Hcore & _ & Hi & Hu & _).
  assert (len ts' = len ts) as Hlen by (unfold ts', forked; by rewrite !len_upd).
  pose proof (core_input _ _ Hcore) as Hin.
  exists ks. split; [|exact fork_clean]. destruct Hcore. split; unfold rows_ok; simpl;
    rewrite ?Hlen, ?fork_stacks; try done.
  - exact fork_tree.
  - eapply tickets_sub; [done|].
    intros j tj k n [[-> ->]|[(p & _ & _ & ->)|(_ & _ & _ & Hj)]]%fork_cases Hs; try done.
    by exists tj.
  - intros j tj [[-> ->]|[(p & _ & _ & ->)|(_ & _ & _ & Hj)]]%fork_cases Huj; [|done|].
    + exact (Hin i t Hi Hu).
    + exact (Hin j tj Hj Huj).
Qed.
End forking.

(** The first [done] bindings of row [from] have been copied to row [to]. *)
Definition row_copied {V} (bpt from to done : N) (bs bs' : list (option V)) : Prop :=
  len bs' = len bs /\
  forall n, get bs' n =
    if decide (to * bpt <= n < to * bpt + done) then get bs (from * bpt + (n - to * bpt))
    else get bs n.

Lemma row_copied_step {V} (bpt from to k : N) (bs bs' : list (option V)) v :
  row_copied bpt from to k bs bs' -> k < bpt -> from <> to -> to * bpt + k < len bs ->
  get bs' (from * bpt + k) = Some v ->
  row_copied bpt from to (k + 1) bs (upd bs' (to * bpt + k) v).
Proof.
  intros [Hlen Hget] Hk Hne Hlt Hv. split; [by rewrite len_upd|]. intros n.
  rewrite get_upd, Hlen. rewrite Hget, decide_False in Hv by nia.
  destruct (decide (n = to * bpt + k)) as [->|Hn].
  - rewrite !decide_True by lia. replace (to * bpt + k - to * bpt) with k by lia. done.
  - rewrite decide_False by naive_solver. rewrite Hget. repeat case_decide; try done; lia.
Qed.

Section fork_rules.
Context {H V E : Type} `{!Values H V E}.
Implicit Types (x : Execution V E) (h : H) (t : Task V E).
Implicit Types (ks : list (list (FrameKind V E))).

Lemma wp_copy_row i c (Q : unit -> machine -> Prop) (R : Fault -> machine -> Prop) x h :
  rows_ok x -> i < len (tasks x) -> c < len (tasks x) -> i <> c ->
  (forall bs, row_copied (bindings_per_task (limits x)) i c (bindings_per_task (limits x))
     (bindings x) bs -> Q tt (with_bindings x bs, h)) ->
  wp (for_each (range (bindings_per_task (limits x))) (fun slot =>
        let* value := read_binding i slot in write_binding c slot value)) Q R (x, h).
Proof.
  intros Hrows Hi Hc Hne HQ. set (bpt := bindings_per_task (limits x)) in *.
  eapply wp_mono.
  - apply (wp_for_range bpt _
      (fun k s => exists bs, row_copied bpt i c k (bindings x) bs /\ s = (with_bindings x bs, h)) R).
    + intros k s Hk (bs & Hbs & ->). pose proof Hbs as [Hlen _].
      assert (rows_ok (with_bindings x bs)) as Hrows'.
      { destruct Hrows. split; simpl; by rewrite Hlen. }
      apply wp_bind, wp_read_binding; [done..|]. intros v Hv.
      apply wp_write_binding; [done..|]. eexists. split; [|reflexivity].
      apply row_copied_step; try done. rewrite <- Hlen.
      apply (row_index (with_bindings x bs)); done.
    + exists (bindings x). split; [|by destruct x]. split; [done|]. intros n.
      rewrite decide_False; [done|]. lia.
  - intros [] s (bs & Hbs & ->). by apply HQ.
  - done.
Qed.

(** What [adopt] makes of the child's slot. *)
Definition adopted (i : N) t tc : Task V E :=
  mkTask (task_state tc) (task_pc tc) (task_input tc) (task_stack tc) (task_context t)
    (Some i) (task_cleaning t) (task_cancelled tc).

Lemma wp_adopt i c t tc (Q : unit -> machine -> Prop) (R : Fault -> machine -> Prop) x h :
  rows_ok x -> get (tasks x) i = Some t -> get (tasks x) c = Some tc -> i <> c ->
  (forall bs, row_copied (bindings_per_task (limits x)) i c (bindings_per_task (limits x))
     (bindings x) bs ->
     Q tt (with_bindings (with_tasks x (upd (tasks x) c (adopted i t tc))) bs, h)) ->
  wp (adopt i c) Q R (x, h).
Proof.
  intros Hrows Hi Hc Hne HQ. pose proof (get_Some_lt _ _ _ Hc) as Hlt.
  unfold adopt. apply wp_bind. eapply wp_update_task; [done|].
  apply wp_bind, (wp_task_at i t); [simpl; by rewrite get_upd_ne by done|].
  apply wp_bind. eapply wp_update_task; [simpl; by apply get_upd_eq|].
  apply wp_bind. eapply wp_update_task; [simpl; rewrite get_upd_eq; [done|by rewrite len_upd]|].
  simpl. rewrite !upd_upd. apply wp_bind, wp_exec. apply wp_copy_row; simpl; rewrite ?len_upd.
  - destruct Hrows. split; simpl; by rewrite ?len_upd.
  - by eapply get_Some_lt.
  - done.
  - done.
  - exact HQ.
Qed.

Lemma wp_fork i t pc l r kind input (Q : unit -> machine -> Prop)
    (R : Fault -> machine -> Prop) x h ks :
  wf_at i t x ks (task_cleaning t) ->
  (forall a b bs1 bs, a <> b ->
     (exists ta, get (tasks x) a = Some ta /\ task_state ta = SFree) ->
     (exists tb, get (tasks x) b = Some tb /\ task_state tb = SFree) ->
     let bpt := bindings_per_task (limits x) in
     row_copied bpt i a bpt (bindings x) bs1 -> row_copied bpt i b bpt bs1 bs ->
     Q tt (with_bindings (with_tasks x (forked (tasks x) i t a b l r input kind pc)) bs, h)) ->
  (forall f, R f (x, h)) ->
  wp (fork i pc l r kind input) Q R (x, h).
Proof.
  intros Hw HQ HR. unfold fork. apply wp_bind, wp_exec.
  apply wp_bind, wp_require; [|done]. intros a Hha.
  apply wp_bind, wp_require; [|done]. intros b Hhb.
  destruct (free_slots_two _ _ _ Hha Hhb) as (Hab & Ha & Hb). clear Hha Hhb.
  assert (a <> i /\ b <> i) as [Hai Hbi] by (by eapply fork_ne).
  destruct Ha as (ta & Hga & Hsa), Hb as (tb & Hgb & Hsb).
  pose proof Hw as (Hcore & _ & Hi & _ & _). pose proof (core_rows _ _ Hcore) as Hrows.
  pose proof (tree_free _ (core_tree _ _ Hcore) _ _ Hga Hsa) as ->.
  pose proof (tree_free _ (core_tree _ _ Hcore) _ _ Hgb Hsb) as ->.
  pose proof (get_Some_lt _ _ _ Hga) as Hla. pose proof (get_Some_lt _ _ _ Hgb) as Hlb.
  unfold start. apply wp_bind. eapply wp_update_task; [done|]. simpl.
  apply wp_bind. eapply wp_update_task; [simpl; by rewrite get_upd_ne by done|]. simpl.
  apply wp_bind. eapply (wp_adopt i a t); simpl.
  { destruct Hrows. split; simpl; by rewrite ?len_upd. }
  { by rewrite !get_upd_ne by done. }
  { rewrite get_upd_ne, get_upd_eq by done. done. }
  { done. }
  intros bs1 Hbs1. rewrite (upd_comm _ b a), upd_upd by done. cbn [adopted task_state task_pc
    task_input task_stack task_cancelled].
  apply wp_bind. eapply (wp_adopt i b t); simpl.
  { destruct Hrows, Hbs1 as [Hlen _]. split; simpl; by rewrite ?len_upd, Hlen. }
  { by rewrite !get_upd_ne by done. }
  { rewrite get_upd_eq; [done|by rewrite len_upd]. }
  { done. }
  intros bs Hbs. rewrite upd_upd. unfold set_state. eapply (wp_update_task _ t); simpl.
  { by rewrite !get_upd_ne by done. }
  apply (HQ a b bs1 bs Hab); eauto.
Qed.

Lemma wp_execute_fork i t pc l r kind input x0 x h ks :
  wf_at i t x ks (task_cleaning t) -> local i x0 x ->
  wp (fork i pc l r kind input ;;; ret None) (answered i x0) (fun _ => good i x0) (x, h).
Proof.
  intros Hw Hl. apply wp_bind. eapply wp_fork; [done| |].
  - intros a b bs1 bs Hab Ha Hb bpt [Hb1 _] [Hb2 _]. apply wp_ret.
    assert (len bs = len (bindings x)) as Hbs by congruence.
    destruct (wf_fork x ks i t a b l r input kind pc Hw Hab Ha Hb) as (ks' & Hcore & Hclean).
    pose proof (fork_cases x ks i t a b l r input kind pc Hw Hab Ha Hb) as Hcases.
    split_and!; [|split|].
    + exists ks'. split; [|done]. by apply wf_core_bindings.
    + etrans; [by eapply local_evolves|]. split; simpl; try done.
      { unfold forked. by rewrite !len_upd. }
      intros j k (u & n & Hj & Hs). left.
      apply Hcases in Hj as [[-> ->]|[(p & _ & _ & ->)|(_ & _ & _ & Hj)]]; try done. by exists u, n.
    + intros Hidle. etrans; [by eapply local_spares|]. split; simpl; [lia|..].
      * intros j u k n Hj Hs. left.
        apply Hcases in Hj as [[-> ->]|[(p & _ & _ & ->)|(_ & _ & _ & Hj)]]; try done. by exists u.
      * intros j u k n Hj Hs. exists u. split; [|done].
        eapply (fork_keep x ks i t a b l r input kind pc); try done; [unfold used; by rewrite Hs|].
        intros ->. destruct (Hidle k), (local_waits _ _ _ Hl k) as (u' & n' & ? & ?); [by exists u, n|].
        by exists u', n'.
    + apply (local_issued _ _ _ Hl).
  - intros f. by eapply good_intro.
Qed.

Lemma wp_transition_ready i t image x0 x h ks :
  wf_at i t x ks (task_cleaning t) -> local i x0 x ->
  wp (transition_ready i image) (answered i x0) (fun _ => good i x0) (x, h).
Proof.
  intros Hw Hl. pose proof Hw as (_ & _ & Hi & _ & _). unfold transition_ready.
  assert (good i x0 (x, h)) as Hgood by (by eapply good_intro).
  wp_task.
  apply wp_bind, wp_lift_result; [|done]. intros n _.
  apply wp_bind, wp_require; [|done]. intros input Hin.
  apply wp_bind. unfold retained_input.
  assert (forall v h', holds_input n (with_input t (Some v)) input ->
    wp (set_input i (Some v) ;;; execute i (task_pc t) n input image)
      (answered i x0) (fun _ => good i x0) (x, h')) as Hgo.
  { intros v h' Hhold. apply wp_bind. eapply wp_set_input; [done|]. intros x1 Hw1 Hl1.
    destruct (is_fork n) eqn:Hf.
    - unfold is_fork, execute in *. destruct (node_kind n); try discriminate.
      eapply wp_execute_fork; [exact Hw1|by etrans].
    - eapply wp_execute_leaf; [exact Hw1|by etrans|done|done]. }
  unfold holds_input in Hgo. destruct (node_kind n); try (apply wp_host; intros; by apply Hgo);
    apply wp_ret; by apply Hgo.
Qed.
End fork_rules.
