(* ===== verification/MachineJoin.v ===== *)
(** * Cancellation, joins and the transition function

    Cancellation only raises flags of used tasks; a completed join frees its two
    children and makes their parent a leaf again.  Together with the instructions of
    [MachineStep] this covers every arm of [Execution::transition]. *)

From stdpp Require Import base numbers list option.
From S2P Require Import Prelude Program Frame Machine MachineInv MachineStep.

Local Open Scope N_scope.
Local Open Scope comp_scope.

(** ** Raising cancellation flags *)
Section flags.
Context {V E : Type}.
Implicit Types (x : Execution V E) (ts : list (Task V E)) (t : Task V E).

Definition flagged t t' : Prop := t' = t \/ used t /\ t' = with_cancelled t true.

Lemma flagged_fields t t' : flagged t t' ->
  task_state t' = task_state t /\ task_input t' = task_input t /\
  task_stack t' = task_stack t /\ task_parent t' = task_parent t /\
  task_cleaning t' = task_cleaning t /\ task_context t' = task_context t /\
  (task_state t = SFree -> t' = t).
Proof. unfold used. intros [->|[? ->]]; by destruct t. Qed.

Lemma flags_get ts ts' j t' :
  Forall2 flagged ts ts' -> get ts' j = Some t' -> exists t, get ts j = Some t /\ flagged t t'.
Proof.
  intros Hf. rewrite get_lookup. intros Hj.
  destruct (Forall2_lookup_r _ _ _ _ _ Hf Hj) as (t & ? & ?). exists t. by rewrite get_lookup.
Qed.

Lemma flags_put ts ts' j t :
  Forall2 flagged ts ts' -> get ts j = Some t -> exists t', get ts' j = Some t' /\ flagged t t'.
Proof.
  intros Hf. rewrite get_lookup. intros Hj.
  destruct (Forall2_lookup_l _ _ _ _ _ Hf Hj) as (t' & ? & ?). exists t'. by rewrite get_lookup.
Qed.

Lemma flags_fmap {A} (f : Task V E -> A) ts ts' :
  (forall t t', flagged t t' -> f t' = f t) -> Forall2 flagged ts ts' -> f <$> ts' = f <$> ts.
Proof.
  intros Hf. induction 1 as [|t t' ts ts' Ht _ IH]; [done|]. csimpl. f_equal; auto.
Qed.

Lemma flags_refl ts : Forall2 flagged ts ts.
Proof. induction ts; constructor; [by left|done]. Qed.

Lemma flags_len ts ts' : Forall2 flagged ts ts' -> len ts' = len ts.
Proof. intros Hf%Forall2_length. unfold len. by rewrite Hf. Qed.

Lemma tree_flags ts ts' : tree ts -> Forall2 flagged ts ts' -> tree ts'.
Proof.
  intros Ht Hf. split.
  - destruct (tree_root _ Ht) as (t0 & H0 & Hu & Hp).
    destruct (flags_put _ _ _ _ Hf H0) as (t' & H' & Hfl%flagged_fields).
    exists t'. unfold used in *. destruct Hfl as (-> & _ & _ & -> & _). done.
  - intros i t' Hi Hs. destruct (flags_get _ _ _ _ Hf Hi) as (t & Ht' & Hfl%flagged_fields).
    destruct Hfl as (E1 & _ & _ & _ & _ & _ & Hfree). rewrite E1 in Hs. rewrite Hfree by done.
    by eapply tree_free.
  - intros i t' Hi Hu Hi0. destruct (flags_get _ _ _ _ Hf Hi) as (t & Hgt & Hfl%flagged_fields).
    destruct Hfl as (E1 & _ & _ & E2 & _). unfold used in Hu. rewrite E1 in Hu.
    destruct (tree_parent _ Ht i t Hgt Hu Hi0) as (p & tp & j & Hp & Hgp & Hj & Hlr).
    destruct (flags_put _ _ _ _ Hf Hgp) as (tp' & Hgp' & Hflp%flagged_fields).
    exists p, tp', j. destruct Hflp as (-> & _). by rewrite E2.
  - intros i t' j Hi Hj. destruct (flags_get _ _ _ _ Hf Hi) as (t & Hgt & Hfl%flagged_fields).
    destruct Hfl as (E1 & _). rewrite E1 in Hj.
    destruct (tree_join _ Ht i t j Hgt Hj) as [Hne Hch]. split; [done|]. intros c Hc.
    destruct (Hch c Hc) as (tc & Hgc & Huc & Hpc).
    destruct (flags_put _ _ _ _ Hf Hgc) as (tc' & Hgc' & Hflc%flagged_fields).
    exists tc'. unfold used in *. destruct Hflc as (-> & _ & _ & -> & _). done.
  - destruct (tree_acyclic _ Ht) as [rank Hrank]. exists rank. intros i t' p Hi Hp.
    destruct (flags_get _ _ _ _ Hf Hi) as (t & Hgt & Hfl%flagged_fields).
    destruct Hfl as (_ & _ & _ & E2 & _). rewrite E2 in Hp. eauto.
  - intros i t' Hi Hh. destruct (flags_get _ _ _ _ Hf Hi) as (t & Hgt & Hfl%flagged_fields).
    destruct Hfl as (E1 & _). unfold is_halted in Hh. rewrite E1 in Hh.
    by apply (tree_halted _ Ht i t).
Qed.

(** Flags are no part of the invariant. *)
Lemma wf_flags x ts' : wf x -> Forall2 flagged (tasks x) ts' -> wf (with_tasks x ts').
Proof.
  intros (ks & Hcore & Hclean) Hf. exists ks. pose proof (flags_len _ _ Hf) as Hlen. split.
  - destruct Hcore. split; unfold rows_ok; simpl; rewrite ?Hlen; try done.
    + rewrite (flags_fmap task_stack _ _) by (done || by intros t t' ?%flagged_fields; naive_solver).
      done.
    + by eapply tree_flags.
    + eapply tickets_sub; [done|]. intros j t' k n Hj Hs.
      destruct (flags_get _ _ _ _ Hf Hj) as (t & Hgt & Hfl%flagged_fields).
      exists t. split; [done|]. destruct Hfl as (<- & _). done.
    + intros j t' Hj Hu. destruct (flags_get _ _ _ _ Hf Hj) as (t & Hgt & Hfl%flagged_fields).
      unfold used in *. destruct Hfl as (E1 & -> & _). rewrite E1 in Hu. eauto.
  - intros j t' l Hj Hu Hl. destruct (flags_get _ _ _ _ Hf Hj) as (t & Hgt & Hfl%flagged_fields).
    unfold used in Hu. destruct Hfl as (E1 & _ & _ & E2 & E3 & _). rewrite E1 in Hu.
    rewrite E3, (Hclean j t l Hgt Hu Hl). f_equal. unfold inherited. simpl. rewrite E2.
    destruct (task_parent t) as [p|]; [|done]. destruct (get (tasks x) p) as [tp|] eqn:Hp.
    + destruct (flags_put _ _ _ _ Hf Hp) as (tp' & -> & Hflp%flagged_fields).
      by destruct Hflp as (_ & _ & _ & _ & -> & _).
    + apply get_None in Hp. rewrite <- Hlen in Hp. apply get_None in Hp. by rewrite Hp.
Qed.
End flags.

(** ** Cancelling a subtree *)

(** Task [j] is a proper descendant of [root]. *)
Inductive below {V E} (ts : list (Task V E)) (root : N) : N -> Prop :=
| below_child j t : get ts j = Some t -> task_parent t = Some root -> below ts root j
| below_step j t p : get ts j = Some t -> task_parent t = Some p -> below ts root p ->
    below ts root j.

Section cancel_tree.
Context {H V E : Type} `{!Values H V E}.
Implicit Types (x : Execution V E) (h : H) (ts : list (Task V E)) (t : Task V E).

Lemma below_flags ts ts' root j :
  Forall2 flagged ts ts' -> below ts' root j <-> below ts root j.
Proof.
  intros Hf. split; induction 1 as [j t Hj Hp|j t p Hj Hp _ IH].
  - destruct (flags_get _ _ _ _ Hf Hj) as (t' & Ht' & Hfl%flagged_fields).
    eapply below_child; [done|]. by destruct Hfl as (_ & _ & _ & <- & _).
  - destruct (flags_get _ _ _ _ Hf Hj) as (t' & Ht' & Hfl%flagged_fields).
    eapply below_step; [done| |done]. by destruct Hfl as (_ & _ & _ & <- & _).
  - destruct (flags_put _ _ _ _ Hf Hj) as (t' & Ht' & Hfl%flagged_fields).
    eapply below_child; [done|]. by destruct Hfl as (_ & _ & _ & -> & _).
  - destruct (flags_put _ _ _ _ Hf Hj) as (t' & Ht' & Hfl%flagged_fields).
    eapply below_step; [done| |done]. by destruct Hfl as (_ & _ & _ & -> & _).
Qed.

(** A descendant is a used task. *)
Lemma below_used ts root j t :
  tree ts -> below ts root j -> get ts j = Some t -> used t.
Proof.
  intros Ht Hb Hj Hs. rewrite (tree_free _ Ht _ _ Hj Hs) in Hj.
  destruct Hb; simplify_eq.
Qed.

(** The walk to the root ends within the size of the table and decides [below]. *)
Lemma wp_has_ancestor {X} fuel root j t passed rank (Q : bool -> machine -> Prop)
    (R : X -> machine -> Prop) x h :
  tree (tasks x) ->
  (forall i u p, get (tasks x) i = Some u -> task_parent u = Some p -> (rank p < rank i)%nat) ->
  get (tasks x) j = Some t -> passed_below (tasks x) rank j passed ->
  len (tasks x) <= N.of_nat fuel + len passed ->
  (forall b, (b = true <-> below (tasks x) root j) -> Q b (x, h)) ->
  wp (has_ancestor fuel root (task_parent t)) Q R (x, h).
Proof.
  intros Ht Hrank. revert j t passed. induction fuel as [|fuel IH];
    intros j t passed Hj Hpass Hfuel HQ;
    pose proof (passed_room _ _ _ _ Hpass (get_Some_lt _ _ _ Hj)); [lia|].
  simpl. destruct (task_parent t) as [p|] eqn:Hp.
  - destruct (N.eqb_spec p root) as [->|Hne].
    + apply wp_ret, HQ. split; [|done]. intros _. by eapply below_child.
    + destruct (parent_used _ _ _ _ Ht Hj Hp) as (tp & Hgp & _).
      wp_task.
      eapply (IH p tp (j :: passed) Hgp).
      * eapply passed_step; eauto using get_Some_lt.
      * unfold len in *. simpl. lia.
      * intros b Hb. apply HQ. rewrite Hb. split.
        -- intros ?. by eapply below_step.
        -- inversion 1; simplify_eq. done.
  - apply wp_ret, HQ. split; [done|]. inversion 1; simplify_eq.
Qed.

(** The flag that [cancel_tree] gives the tasks below [k]. *)
Definition swept ts (root k : N) ts' : Prop :=
  Forall2 flagged ts ts' /\
  forall j t, get ts j = Some t -> exists t', get ts' j = Some t' /\
    (j = root \/ (j < k /\ below ts root j) -> t' = with_cancelled t true) /\
    (~ (j = root \/ (j < k /\ below ts root j)) -> t' = t).

Lemma with_cancelled_twice t : with_cancelled (with_cancelled t true) true = with_cancelled t true.
Proof. by destruct t. Qed.

Lemma flagged_upd ts ts' j t' :
  Forall2 flagged ts ts' -> get ts' j = Some t' -> used t' ->
  Forall2 flagged ts (upd ts' j (with_cancelled t' true)).
Proof.
  intros Hf Hj Hu. rewrite get_lookup in Hj.
  destruct (Forall2_lookup_r _ _ _ _ _ Hf Hj) as (t & Ht & Hfl).
  rewrite <- (list_insert_id ts (N.to_nat j) t) by done. apply Forall2_insert; [done|].
  destruct Hfl as [->|[Hu' ->]]; [by right|]. right. by rewrite with_cancelled_twice.
Qed.

Lemma swept_step ts root k ts' t' :
  swept ts root k ts' -> get ts' k = Some t' -> used t' -> below ts root k ->
  swept ts root (k + 1) (upd ts' k (with_cancelled t' true)).
Proof.
  intros [Hf Hs] Hk Hu Hb. split; [by apply flagged_upd|]. intros j t Hj.
  destruct (Hs j t Hj) as (u & Hu' & Hin & Hout). destruct (decide (j = k)) as [->|Hne].
  - assert (u = t') as -> by congruence. exists (with_cancelled t' true). split_and!.
    + by eauto with slices.
    + intros _. destruct (flags_get _ _ _ _ Hf Hu') as (t0 & ? & [->|[_ ->]]); simplify_eq;
        by rewrite ?with_cancelled_twice.
    + intros []. right. split; [lia|done].
  - exists u. rewrite get_upd_ne by done. split_and!; [done|..].
    + intros [->|[? ?]]; apply Hin; [by left|]. right. split; [lia|done].
    + intros Hn. apply Hout. intros [->|[? ?]]; apply Hn; [by left|]. right. split; [lia|done].
Qed.

Lemma swept_skip ts root k ts' : swept ts root k ts' -> ~ below ts root k ->
  swept ts root (k + 1) ts'.
Proof.
  intros [Hf Hs] Hb. split; [done|]. intros j t Hj.
  destruct (Hs j t Hj) as (u & Hu' & Hin & Hout). exists u. split_and!; [done|..].
  - intros [->|[? ?]]; apply Hin; [by left|]. right. split; [|done].
    assert (j <> k) by congruence. lia.
  - intros Hn. apply Hout. intros [->|[? ?]]; apply Hn; [by left|]. right. split; [lia|done].
Qed.

(** [cancel_tree] raises the flag of the root task and of all its descendants, and
    nothing else. *)
Lemma wp_cancel_tree {X} root t (Q : unit -> machine -> Prop) (R : X -> machine -> Prop) x h :
  tree (tasks x) -> get (tasks x) root = Some t -> used t ->
  (forall ts', swept (tasks x) root (len (tasks x)) ts' -> Q tt (with_tasks x ts', h)) ->
  wp (cancel_tree root) Q R (x, h).
Proof.
  intros Ht Hr Hu HQ. set (ts := tasks x) in *. pose proof (get_Some_lt _ _ _ Hr) as Hlt.
  unfold cancel_tree. apply wp_bind. eapply wp_update_task; [done|].
  apply wp_bind, wp_exec. cbn [tasks with_tasks]. fold ts. rewrite len_upd.
  eapply wp_mono.
  - apply (wp_for_range (len ts) _
      (fun k s => exists ts', swept ts root k ts' /\ s = (with_tasks x ts', h)) R).
    + intros k s Hk (ts' & Hsw & ->). pose proof Hsw as [Hf _].
      pose proof (tree_flags _ _ Ht Hf) as Ht'. destruct (tree_acyclic _ Ht') as [rank Hrank].
      destruct (get_lt ts' k) as [t' Hk']; [by rewrite (flags_len _ _ Hf)|].
      wp_task. apply wp_bind.
      eapply (wp_has_ancestor _ root k t' []); [done|exact Hrank|done| | |].
      { split; [constructor|]. by intros v ?%not_elem_of_nil. }
      { simpl. rewrite (flags_len _ _ Hf). unfold upd. rewrite length_insert. unfold len. lia. }
      simpl. intros b Hb. rewrite (below_flags ts) in Hb by done. destruct b.
      * eapply wp_update_task; [done|]. eexists. split; [|reflexivity].
        apply swept_step; [done|done| |by apply Hb].
        apply (below_used ts' root k); [done| |done]. rewrite (below_flags ts) by done. by apply Hb.
      * apply wp_ret. exists ts'. split; [|done]. apply swept_skip; [done|]. naive_solver.
    + eexists. split; [|reflexivity]. split.
      { apply flagged_upd; [apply flags_refl|done|done]. }
      intros j tj Hj. destruct (decide (j = root)) as [->|Hne].
      * exists (with_cancelled t true). rewrite get_upd_eq by done. simplify_eq.
        split_and!; [done|done|]. naive_solver.
      * exists tj. rewrite get_upd_ne by done. split_and!; [done|..]; [|done].
        intros [?|[? _]]; [done|lia].
  - intros [] s (ts' & Hsw & ->). by apply HQ.
  - done.
Qed.
End cancel_tree.

(** ** Freeing a task *)

(** [bs'] is [bs] with the entries in [P] emptied. *)
Definition emptied {V} (P : N -> Prop) (bs bs' : list (option V)) : Prop :=
  len bs' = len bs /\
  forall n, (P n -> n < len bs -> get bs' n = Some None) /\ (~ P n -> get bs' n = get bs n).

Lemma emptied_step {V} (P P' : N -> Prop) (bs bs' : list (option V)) n :
  emptied P bs bs' -> n < len bs -> (forall m, P' m <-> P m \/ m = n) ->
  emptied P' bs (upd bs' n None).
Proof.
  intros [Hlen Hget] Hn HP. split; [by rewrite len_upd|]. intros m.
  rewrite get_upd, HP. specialize (Hget m). rewrite Hlen. split.
  - intros [Hm| ->] Hlt; case_decide; naive_solver.
  - intros Hm. rewrite decide_False by naive_solver. naive_solver.
Qed.

Lemma emptied_ext {V} (P P' : N -> Prop) (bs bs' : list (option V)) :
  (forall m, P m <-> P' m) -> emptied P bs bs' -> emptied P' bs bs'.
Proof. intros HP [Hlen Hget]. split; [done|]. intros m. specialize (Hget m). naive_solver. Qed.

Section freeing.
Context {H V E : Type} `{!Values H V E}.
Implicit Types (x : Execution V E) (h : H) (t : Task V E).
Implicit Types (ks : list (list (FrameKind V E))).

(** Emptying the slots [first .. first + count] of one row. *)
Lemma wp_empty_row {X} i first count (Q : unit -> machine -> Prop) (R : X -> machine -> Prop) x h :
  rows_ok x -> i < len (tasks x) ->
  first + N.of_nat count <= bindings_per_task (limits x) ->
  (forall bs, emptied (fun n => i * bindings_per_task (limits x) + first <= n <
       i * bindings_per_task (limits x) + first + N.of_nat count) (bindings x) bs ->
     Q tt (with_bindings x bs, h)) ->
  wp (for_each (range_from first count) (fun slot => write_binding i slot None)) Q R (x, h).
Proof.
  intros Hrows Hi. revert first x Hrows Hi Q. induction count as [|count IH];
    intros first x Hrows Hi Q Hc HQ.
  - apply wp_ret. replace (x, h) with (with_bindings x (bindings x), h) by (by destruct x).
    apply HQ. split; [done|]. intros n. split; [lia|done].
  - simpl. apply wp_bind, wp_write_binding; [done|done|lia|]. unfold set_binding.
    apply IH; simpl.
    + destruct Hrows. split; simpl; by rewrite ?len_upd.
    + done.
    + lia.
    + intros bs [Hlen Hget]. apply HQ. split; [by rewrite Hlen, len_upd|]. intros n.
      specialize (Hget n). rewrite get_upd, len_upd in Hget. destruct Hget as [Hin Hout].
      destruct (decide (n = i * bindings_per_task (limits x) + first)) as [->|Hne].
      * split; [|lia]. intros _ Hlt. rewrite Hout by lia. by rewrite decide_True.
      * split; intros Hn; [apply Hin; lia|]. rewrite Hout by lia. apply decide_False. naive_solver.
Qed.

Lemma wp_drain fuel i t l (Q : unit -> machine -> Prop) (R : Fault -> machine -> Prop) x h ks :
  pool_stacks (frames x) (task_stack <$> tasks x) ks ->
  get (tasks x) i = Some t -> get ks i = Some l -> (length l <= fuel)%nat ->
  (forall pool', pool_stacks pool' (upd (task_stack <$> tasks x) i default_stack) (upd ks i []) ->
     len (slots pool') = len (slots (frames x)) ->
     Q tt (with_frames (with_tasks x (upd (tasks x) i (with_stack t default_stack))) pool', h)) ->
  wp (drain fuel i) Q R (x, h).
Proof.
  revert l t x ks Q. induction fuel as [|fuel IH]; intros l t x ks Q Hpool Hi Hl Hfuel HQ;
    pose proof Hi as Hi'; pose proof Hl as Hl'; rewrite get_lookup in Hi';
    rewrite get_lookup in Hl';
    (assert ((task_stack <$> tasks x) !! N.to_nat i = Some (task_stack t)) as Hst
      by (by rewrite list_lookup_fmap, Hi'));
    pose proof (pop_spec _ _ _ _ _ _ Hpool Hst Hl') as Hp; simpl;
    apply wp_bind; unfold pop, wp; rewrite (on_stack_eval i t) by done; destruct l as [|k l'].
  1, 3: rewrite Hp; pose proof (stacks_empty _ _ _ _ _ Hpool Hst Hl') as Est; rewrite Est;
    apply HQ; [|done]; rewrite <- Est; rewrite (upd_id ks i) by done;
    rewrite upd_id; [done|by rewrite get_lookup].
  - simpl in Hfuel. lia.
  - destruct Hp as (pool' & st' & -> & Hpool' & Hlen).
    eapply (IH l' (with_stack t st') _ (upd ks i l')); simpl.
    + rewrite upd_fmap. exact Hpool'.
    + by eauto with slices.
    + by eauto with slices.
    + simpl in Hfuel. lia.
    + intros pool2 Hpool2 Hlen2. rewrite upd_upd in *.
      apply (HQ pool2); [|by rewrite Hlen2]. by rewrite upd_fmap, !upd_upd in Hpool2.
Qed.

(** The row of task [i] in the binding table. *)
Definition in_row (bpt i n : N) : Prop := i * bpt <= n < i * bpt + bpt.

(** [free] returns the task's frames, empties its row and resets its slot. *)
Lemma wp_free i t (Q : unit -> machine -> Prop) (R : Fault -> machine -> Prop) x h ks :
  pool_stacks (frames x) (task_stack <$> tasks x) ks -> rows_ok x ->
  get (tasks x) i = Some t ->
  (forall pool' bs,
     pool_stacks pool' (upd (task_stack <$> tasks x) i default_stack) (upd ks i []) ->
     len (slots pool') = len (slots (frames x)) ->
     emptied (in_row (bindings_per_task (limits x)) i) (bindings x) bs ->
     Q tt (with_bindings (with_frames (with_tasks x (upd (tasks x) i default_task)) pool') bs, h)) ->
  wp (free i) Q R (x, h).
Proof.
  intros Hpool Hrows Hi HQ. pose proof (get_Some_lt _ _ _ Hi) as Hlt.
  pose proof Hi as Hi'. rewrite get_lookup in Hi'.
  destruct (stacks_lookup _ _ _ (N.to_nat i) (task_stack t) Hpool) as (l & Hl & Hd).
  { by rewrite list_lookup_fmap, Hi'. }
  unfold free. wp_task.
  apply wp_bind. eapply (wp_drain _ i t l); [done|done|by rewrite get_lookup| |].
  { rewrite Hd. unfold len. lia. }
  intros pool' Hpool' Hlen. apply wp_bind, wp_exec. apply wp_bind. unfold range.
  apply wp_empty_row; simpl; rewrite ?len_upd.
  - destruct Hrows. split; simpl; by rewrite ?len_upd.
  - done.
  - lia.
  - intros bs Hbs. eapply wp_update_task; [simpl; by apply get_upd_eq|]. simpl.
    rewrite upd_upd. apply HQ; [done|done|]. eapply emptied_ext; [|exact Hbs].
    intros n. unfold in_row. simpl. lia.
Qed.
End freeing.

(** ** Completing a join *)

Lemma join_children {V E} (ts : list (Task V E)) i t tl tr j :
  tree ts -> get ts i = Some t -> task_state t = SJoining j ->
  get ts (join_left j) = Some tl -> get ts (join_right j) = Some tr -> leaf tl -> leaf tr ->
  join_left j <> join_right j /\ join_left j <> i /\ join_right j <> i /\
  task_parent tl = Some i /\ task_parent tr = Some i /\ used tl /\ used tr /\
  join_left j <> 0 /\ join_right j <> 0.
Proof.
  intros Ht Hi Hj Hl Hr Hll Hlr.
  assert (state_join (task_state t) = Some j) as Hjn by (by rewrite Hj).
  destruct (tree_join _ Ht i t j Hi Hjn) as [Hne Hch].
  destruct (Hch (join_left j)) as (a & Ha & Hua & Hpa); [by left|].
  destruct (Hch (join_right j)) as (b & Hb & Hub & Hpb); [by right|].
  assert (a = tl) as -> by congruence. assert (b = tr) as -> by congruence.
  destruct (tree_root _ Ht) as (t0 & H0 & _ & Hp0). unfold leaf in *.
  split_and!; try done; intros E0; rewrite E0 in *; congruence.
Qed.

Section joining.
Context {V E : Type} (x : Execution V E) (ks : list (list (FrameKind V E))).
Context (i : N) (t : Task V E) (tl tr : Task V E) (j : JoinState).
Context (Hcore : wf_core x ks) (Hclean : clean (tasks x) ks).
Context (Hi : get (tasks x) i = Some t) (Hj : task_state t = SJoining j).
Context (Hl : get (tasks x) (join_left j) = Some tl) (Hr : get (tasks x) (join_right j) = Some tr).
Context (Hll : leaf tl) (Hlr : leaf tr).
Context (t' : Task V E) (Hp : task_parent t' = task_parent t) (Hl' : leaf t') (Hu' : used t').
Context (Hnh : ~ is_halted t') (Hnw : forall k n, task_state t' <> SWaiting k n).
Context (Hst : task_stack t' = task_stack t) (Hct : task_cleaning t' = task_cleaning t).
Context (Hin : is_Some (task_input t')).

(** The tables with the two children freed and the parent made the leaf [t']. *)
Definition joined_tasks : list (Task V E) :=
  upd (upd (upd (tasks x) (join_left j) default_task) (join_right j) default_task) i t'.
Definition joined_stacks : list (list (FrameKind V E)) :=
  upd (upd ks (join_left j) []) (join_right j) [].

Let Ht : tree (tasks x) := core_tree _ _ Hcore.

Let join_facts := join_children _ i t tl tr j Ht Hi Hj Hl Hr Hll Hlr.

Lemma joined_get n : get joined_tasks n =
  if decide (n = i) then Some t'
  else if decide (n = join_left j \/ n = join_right j) then Some default_task
  else get (tasks x) n.
Proof.
  destruct join_facts as (? & ? & ? & _).
  pose proof (get_Some_lt _ _ _ Hi). pose proof (get_Some_lt _ _ _ Hl).
  pose proof (get_Some_lt _ _ _ Hr). unfold joined_tasks. rewrite !get_upd, !len_upd.
  repeat case_decide; naive_solver.
Qed.

Lemma joined_cases n u : get joined_tasks n = Some u ->
  n = i /\ u = t' \/
  n <> i /\ (n = join_left j \/ n = join_right j) /\ u = default_task \/
  n <> i /\ n <> join_left j /\ n <> join_right j /\ get (tasks x) n = Some u.
Proof. rewrite joined_get. repeat case_decide; naive_solver. Qed.

(** A task outside the join whose parent stays. *)
Lemma joined_parent n u p tp jn :
  get (tasks x) n = Some u -> task_parent u = Some p -> n <> join_left j -> n <> join_right j ->
  get (tasks x) p = Some tp -> state_join (task_state tp) = Some jn ->
  n = join_left jn \/ n = join_right jn -> get joined_tasks p = Some tp.
Proof.
  intros Hn Hpu Hnl Hnr Hgp Hjn Hlrn. rewrite joined_get.
  destruct (decide (p = i)) as [->|].
  { exfalso. assert (tp = t) as -> by congruence. rewrite Hj in Hjn. naive_solver. }
  rewrite decide_False; [done|]. unfold leaf in *. intros [-> | ->]; congruence.
Qed.

Lemma joined_tree : tree joined_tasks.
Proof.
  destruct join_facts as (Hne & Hli & Hri & Hpl & Hpr & Hul & Hur & Hl0 & Hr0). split.
  - destruct (tree_root _ Ht) as (t0 & H0 & Hu0 & Hp0). rewrite joined_get. case_decide as Hi0.
    + exists t'. split_and!; [done|done|]. congruence.
    + rewrite decide_False by naive_solver. by exists t0.
  - intros n u [[-> ->]|[(_ & _ & ->)|(_ & _ & _ & Hn)]]%joined_cases Hs; [done|done|].
    exact (tree_free _ Ht _ _ Hn Hs).
  - intros n u [[-> ->]|[(_ & _ & ->)|(Hni & Hnl & Hnr & Hn)]]%joined_cases Hun Hn0; [|done|].
    + assert (used t) as Hut by (unfold used; by rewrite Hj).
      destruct (tree_parent _ Ht i t Hi Hut Hn0) as (p & tp & jn & Hpp & Hgp & Hjn & Hc).
      exists p, tp, jn. rewrite Hp. split_and!; try done.
      eapply (joined_parent i t p tp jn); try done; congruence.
    + destruct (tree_parent _ Ht n u Hn Hun Hn0) as (p & tp & jn & Hpp & Hgp & Hjn & Hc).
      exists p, tp, jn. split_and!; try done.
      by eapply (joined_parent n u p tp jn).
  - intros n u jn [[-> ->]|[(_ & _ & ->)|(Hni & Hnl & Hnr & Hn)]]%joined_cases Hjn.
    { unfold leaf in Hl'. congruence. }
    { done. }
    destruct (tree_join _ Ht n u jn Hn Hjn) as [? Hch]. split; [done|]. intros c Hc.
    destruct (Hch c Hc) as (tc & Hgc & Huc & Hpc). rewrite joined_get. case_decide as Hci.
    + exists t'. subst c. split_and!; [done|done|]. congruence.
    + rewrite decide_False by (intros [-> | ->]; congruence). by exists tc.
  - destruct (tree_acyclic _ Ht) as [rank Hrank]. exists rank.
    intros n u p [[-> ->]|[(_ & _ & ->)|(_ & _ & _ & Hn)]]%joined_cases Hpp; [|done|eauto].
    rewrite Hp in Hpp. eauto.
  - intros n u [[-> ->]|[(_ & _ & ->)|(_ & _ & _ & Hn)]]%joined_cases; [done|done|].
    by apply (tree_halted _ Ht).
Qed.

Lemma joined_clean : clean joined_tasks joined_stacks.
Proof.
  destruct join_facts as (Hne & Hli & Hri & Hpl & Hpr & Hul & Hur & Hl0 & Hr0).
  assert (forall n u, get (tasks x) n = Some u -> inherited joined_tasks u = inherited (tasks x) u)
    as Hinh.
  { intros n u Hn. unfold inherited. destruct (task_parent u) as [p|] eqn:Hpu; [|done].
    destruct (parent_used _ _ _ _ Ht Hn Hpu) as (tp & Hgp & Hup). rewrite joined_get.
    case_decide as Hpi; [subst p; by rewrite Hi|].
    assert (used u) as Huu.
    { intros Hs. by rewrite (tree_free _ Ht _ _ Hn Hs) in Hpu. }
    rewrite decide_False; [done|]. intros [-> | ->].
    - by apply (leaf_no_child _ _ tl n u Ht Hl Hll Hn Huu).
    - by apply (leaf_no_child _ _ tr n u Ht Hr Hlr Hn Huu). }
  intros n u ls [[-> ->]|[(_ & _ & ->)|(Hni & Hnl & Hnr & Hn)]]%joined_cases Hun Hls; [|done|];
    unfold joined_stacks in Hls; rewrite !get_upd_ne in Hls by done.
  - rewrite Hct. assert (inherited joined_tasks t' = inherited joined_tasks t) as ->.
    { unfold inherited. by rewrite Hp. }
    rewrite (Hinh _ _ Hi). apply (Hclean i t ls Hi); [|done]. unfold used. by rewrite Hj.
  - rewrite (Hinh _ _ Hn). by apply (Hclean n u ls).
Qed.

Lemma wf_joined pool' bs :
  pool_stacks pool' (upd (upd (task_stack <$> tasks x) (join_left j) default_stack)
    (join_right j) default_stack) joined_stacks ->
  len (slots pool') = len (slots (frames x)) -> len bs = len (bindings x) ->
  wf (with_bindings (with_frames (with_tasks x joined_tasks) pool') bs).
Proof.
  intros Hpool Hslots Hbs.
  destruct join_facts as (Hne & Hli & Hri & Hpl & Hpr & Hul & Hur & Hl0 & Hr0).
  assert (len joined_tasks = len (tasks x)) as Hlen by (unfold joined_tasks; by rewrite !len_upd).
  exists joined_stacks. split; [|exact joined_clean].
  pose proof (core_input _ _ Hcore) as Hinput.
  pose proof (core_frames _ _ Hcore) as Hframes. pose proof (core_depth _ _ Hcore) as Hdepth.
  pose proof Hcore as []. split; unfold rows_ok; simpl; rewrite ?Hlen, ?Hbs; try done.
  - unfold joined_tasks. rewrite !upd_fmap, Hst. rewrite (upd_id _ i); [done|].
    rewrite !get_upd_ne by done. by rewrite get_fmap, Hi.
  - exact joined_tree.
  - eapply tickets_sub; [done|].
    intros n u k m [[-> ->]|[(_ & _ & ->)|(_ & _ & _ & Hn)]]%joined_cases Hs.
    + by apply Hnw in Hs.
    + done.
    + by exists u.
  - intros n u [[-> ->]|[(_ & _ & ->)|(_ & _ & _ & Hn)]]%joined_cases Hun; [done|done|].
    exact (Hinput n u Hn Hun).
  - unfold joined_stacks, upd. by do 2 (apply Forall_insert; [|by constructor]).
  - unfold joined_stacks, upd. do 2 (apply Forall_insert; [|unfold len; simpl; lia]). done.
Qed.
End joining.

Section transitions.
Context {H V E : Type} `{!Values H V E}.
Implicit Types (x : Execution V E) (h : H) (t : Task V E).
Implicit Types (ks : list (list (FrameKind V E))).

(** [finish] rewrites one task, to a ready or to a returning state. *)
Lemma wp_finish_raw i t node r image (Q : unit -> machine -> Prop)
    (R : Fault -> machine -> Prop) x h :
  get (tasks x) i = Some t ->
  (forall next v h', Q tt (with_tasks x (upd (tasks x) i
     (mkTask SReady next (Some v) (task_stack t) (task_context t) (task_parent t)
        (task_cleaning t) (task_cancelled t))), h')) ->
  (forall r' h', Q tt (with_tasks x (upd (tasks x) i (with_state t (SReturning r'))), h')) ->
  (forall f, R f (x, h)) ->
  wp (finish i node r image) Q R (x, h).
Proof.
  intros Hi HQ1 HQ2 HR. unfold finish. apply wp_bind, wp_lift_result; [|done]. intros n _.
  apply wp_bind, wp_exec, wp_bind, wp_host. intros r' h' _.
  destruct r' as [v|e]; [destruct (node_next n)|];
    unfold start, set_state; (eapply wp_update_task; [done|]); auto.
Qed.

Lemma is_done_leaf t : is_done (task_state t) = true -> leaf t.
Proof. unfold leaf. by destruct (task_state t). Qed.

(** A settled join leaves the tasks that wait alone. *)
Lemma joined_spares x i j t t' tl tr pool bs :
  get (tasks x) i = Some t -> task_state t = SJoining j ->
  get (tasks x) (join_left j) = Some tl -> get (tasks x) (join_right j) = Some tr ->
  is_done (task_state tl) = true -> is_done (task_state tr) = true ->
  (forall k n, task_state t' <> SWaiting k n) ->
  spares x (with_bindings (with_frames (with_tasks x (joined_tasks x i j t')) pool) bs).
Proof.
  intros Hi Hj Hl Hr Hdl Hdr Hnw. split; simpl; [lia|..]; unfold joined_tasks.
  - intros n u k m Hn Hs. left. rewrite !get_upd, !len_upd in Hn. repeat case_decide; simplify_eq/=.
    + by destruct (Hnw k m).
    + by exists u.
  - intros n u k m Hn Hs. exists u. split; [|done].
    assert (n <> i /\ n <> join_left j /\ n <> join_right j) as (? & ? & ?).
    { split_and!; intros ->; simplify_eq; by rewrite Hs in *. }
    by rewrite !get_upd_ne.
Qed.

(** The freed join, its parent any leaf that keeps its place in the tree. *)
Lemma wp_join_free i t j tl tr result image x0 x h :
  wf x -> get (tasks x) i = Some t -> task_state t = SJoining j ->
  get (tasks x) (join_left j) = Some tl -> get (tasks x) (join_right j) = Some tr ->
  is_done (task_state tl) = true -> is_done (task_state tr) = true ->
  passes i x0 x -> ticket x = ticket x0 ->
  let cleared := with_tasks x (upd (upd (tasks x) (join_left j) (with_state tl SFree))
    (join_right j) (with_state tr SFree)) in
  wp (free (join_left j) ;;; free (join_right j) ;;; finish i (join_node j) result image ;;; ret None)
    (answered i x0) (fun _ => repairable i x0) (cleared, h).
Proof.
  intros (ks & Hcore & Hclean) Hi Hj Hl Hr Hdl Hdr [Hev Hsp] Htk cleared.
  pose proof (is_done_leaf _ Hdl) as Hll. pose proof (is_done_leaf _ Hdr) as Hlr.
  destruct (join_children _ i t tl tr j (core_tree _ _ Hcore) Hi Hj Hl Hr Hll Hlr)
    as (Hne & Hli & Hri & _ & _ & _ & _ & _ & _).
  pose proof (get_Some_lt _ _ _ Hl) as Hltl. pose proof (get_Some_lt _ _ _ Hr) as Hltr.
  assert (task_stack <$> tasks cleared = task_stack <$> tasks x) as Hstacks.
  { simpl. rewrite !upd_fmap. rewrite (upd_id (task_stack <$> tasks x)).
    2: by rewrite get_fmap, Hl. apply upd_id. by rewrite get_fmap, Hr. }
  apply wp_bind. eapply (wp_free (join_left j)).
  { rewrite Hstacks. apply Hcore. }
  { destruct (core_rows _ _ Hcore). split; simpl; by rewrite ?len_upd. }
  { simpl. rewrite get_upd_ne, get_upd_eq by done. done. }
  intros pool1 bs1 Hpool1 Hslots1 [Hlen1 _]. rewrite Hstacks in Hpool1. simpl in *.
  rewrite (upd_comm _ (join_right j) (join_left j)), upd_upd by done.
  apply wp_bind. eapply (wp_free (join_right j)); simpl.
  { rewrite !upd_fmap. simpl. 
    rewrite (upd_id (upd _ _ _)); [exact Hpool1|].
    rewrite get_upd_ne by done. by rewrite get_fmap, Hr. }
  { destruct (core_rows _ _ Hcore). split; simpl; rewrite ?len_upd; by rewrite ?Hlen1. }
  { apply get_upd_eq. by rewrite len_upd. }
  intros pool2 bs2 Hpool2 Hslots2 [Hlen2 _]. rewrite upd_upd. rewrite !upd_fmap in Hpool2.
  rewrite upd_upd in Hpool2. simpl in Hpool2.
  assert (forall t', task_parent t' = task_parent t -> leaf t' -> used t' -> ~ is_halted t' ->
    (forall k n, task_state t' <> SWaiting k n) -> task_stack t' = task_stack t ->
    task_cleaning t' = task_cleaning t -> is_Some (task_input t') ->
    wf (with_bindings (with_frames (with_tasks x (joined_tasks x i j t')) pool2) bs2)) as Hwf.
  { intros t' ????????. eapply (wf_joined x ks i t tl tr); try done; congruence. }
  assert (used t) as Hu by (unfold used; by rewrite Hj).
  pose proof (core_input _ _ Hcore i t Hi Hu) as Hin.
  assert (forall t', (forall k n, task_state t' <> SWaiting k n) ->
    passes i x0 (with_bindings (with_frames (with_tasks x (joined_tasks x i j t')) pool2) bs2))
    as Hev'.
  { intros t' Hnw. split.
    2:{ intros Hidle. etrans; [by apply Hsp|]. by eapply joined_spares. }
    etrans; [exact Hev|]. split; simpl; try done; try congruence.
    - unfold joined_tasks. by rewrite !len_upd.
    - intros n k (u & m & Hn & Hs). left. unfold joined_tasks in Hn.
      rewrite !get_upd, !len_upd in Hn. repeat case_decide; simplify_eq/=.
      + by destruct (Hnw k m).
      + by exists u, m. }
  apply wp_bind. eapply (wp_finish_raw i t); simpl.
  - by rewrite !get_upd_ne by done.
  - intros next v h'. apply wp_ret. split_and!; [|by apply Hev'|done]. apply Hwf; unfold leaf, used, is_halted; simpl; naive_solver.
  - intros r' h'. apply wp_ret. split_and!; [|by apply Hev'|done]. apply Hwf; unfold leaf, used, is_halted; simpl; naive_solver.
  - intros f. split_and!.
    + specialize (Hev' t). unfold joined_tasks in Hev'. rewrite (upd_id _ i) in Hev'.
      * apply Hev'. by rewrite Hj.
      * by rewrite !get_upd_ne by done.
    + done.
    + exists t. simpl. split; [by rewrite !get_upd_ne by done|]. intros r'. apply Hwf; unfold leaf, used, is_halted; simpl; naive_solver.
Qed.

Lemma flags_spares x ts' : Forall2 flagged (tasks x) ts' -> spares x (with_tasks x ts').
Proof.
  assert (forall t t' : Task V E, flagged t t' -> held t t') as Hheld by (intros t t' [->|[_ ->]]; done).
  intros Hf. split; simpl; [lia|..].
  - intros j u k n Hj _. left. destruct (flags_get _ _ _ _ Hf Hj) as (t & ? & ?). eauto.
  - intros j u k n Hj _. destruct (flags_put _ _ _ _ Hf Hj) as (t & ? & ?). eauto.
Qed.

Lemma flags_evolves x ts' : Forall2 flagged (tasks x) ts' -> evolves x (with_tasks x ts').
Proof.
  intros Hf. split; simpl; try done; [by apply flags_len|].
  intros j k (u & n & Hj & Hs). left.
  destruct (flags_get _ _ _ _ Hf Hj) as (t & Ht & Hfl%flagged_fields).
  exists t, n. split; [done|]. by destruct Hfl as (<- & _).
Qed.

Lemma wp_settle_join i t j tl tr image x0 x h :
  wf x -> get (tasks x) i = Some t -> task_state t = SJoining j ->
  get (tasks x) (join_left j) = Some tl -> get (tasks x) (join_right j) = Some tr ->
  is_done (task_state tl) && is_done (task_state tr) = true ->
  passes i x0 x -> ticket x = ticket x0 ->
  wp (settle_join i j image) (answered i x0) (fun _ => repairable i x0) (x, h).
Proof.
  intros Hw Hi Hj Hl Hr [Hdl Hdr]%andb_true_iff Hp Htk. pose proof Hw as (ks & Hcore & _).
  pose proof (is_done_leaf _ Hdl) as Hll. pose proof (is_done_leaf _ Hdr) as Hlr.
  destruct (join_children _ i t tl tr j (core_tree _ _ Hcore) Hi Hj Hl Hr Hll Hlr)
    as (Hne & _). unfold settle_join.
  wp_task.
  apply wp_bind. eapply wp_update_task; [done|].
  apply wp_bind, (wp_task_at _ tr); [simpl; by rewrite get_upd_ne|].
  apply wp_bind, (wp_update_task _ tr); [simpl; by rewrite get_upd_ne|]. simpl.
  destruct (task_state tl) as [| | | | |a|] eqn:Htl; try done.
  destruct (task_state tr) as [| | | | |b|] eqn:Htr; try done.
  do 3 (apply wp_bind, wp_host; intros ? ? _). apply wp_bind.
  eapply wp_task_at.
  { simpl. rewrite get_upd_ne by done. by eauto with slices. }
  do 2 (apply wp_bind, wp_host; intros ? ? _).
  apply (wp_join_free i t j tl tr _ image x0 x); by rewrite ?Htl, ?Htr.
Qed.

Lemma wp_transition_joining i t j image x h :
  wf x -> get (tasks x) i = Some t -> task_state t = SJoining j ->
  wp (transition_joining i j image) (answered i x) (fun _ => repairable i x)
    (with_tasks x (upd (tasks x) i (with_state t SReady)), h).
Proof.
  intros Hw Hi Hj. pose proof (get_Some_lt _ _ _ Hi) as Hlt. pose proof Hw as (ks & Hcore & _).
  assert (state_join (task_state t) = Some j) as Hjn by (by rewrite Hj).
  destruct (tree_join _ (core_tree _ _ Hcore) i t j Hi Hjn) as [Hne Hch].
  destruct (Hch (join_left j)) as (tl & Hl & Hul & _); [by left|].
  destruct (Hch (join_right j)) as (tr & Hr & Hur & _); [by right|].
  unfold transition_joining. apply wp_bind. eapply wp_update_task; [simpl; by apply get_upd_eq|].
  simpl. rewrite upd_upd. assert (with_state (with_state t SReady) (SJoining j) = t) as ->.
  { destruct t. simpl in *. by subst. }
  rewrite (upd_id (tasks x) i t) by done. replace (with_tasks _ _) with x by (by destruct x).
  wp_task. wp_task.
  apply wp_bind. destruct (_ && (_ || _)).
  - set (loser := if is_done (task_state tl) then join_right j else join_left j).
    assert (exists u, get (tasks x) loser = Some u /\ used u) as (u & Hu & Huu).
    { unfold loser. destruct (is_done _); eauto. }
    eapply (wp_cancel_tree loser u); [apply Hcore|done|done|]. intros ts' [Hf _].
    destruct (flags_put _ _ _ _ Hf Hi) as (t' & Hi' & Hft%flagged_fields).
    destruct (flags_put _ _ _ _ Hf Hl) as (tl' & Hl' & Hfl%flagged_fields).
    destruct (flags_put _ _ _ _ Hf Hr) as (tr' & Hr' & Hfr%flagged_fields).
    destruct Hft as (Hst & _), Hfl as (<- & _), Hfr as (<- & _).
    assert (wf (with_tasks x ts')) as Hw' by (by apply wf_flags).
    assert (passes i x (with_tasks x ts')) as Hp.
    { split; [by apply flags_evolves|]. intros _. by apply flags_spares. }
    destruct (_ && _) eqn:Hd; [|by apply wp_ret].
    eapply (wp_settle_join i t' j tl' tr'); simpl; try done. congruence.
  - apply wp_ret. destruct (_ && _) eqn:Hd; [|by apply wp_ret].
    by eapply (wp_settle_join i t j tl tr).
Qed.

(** Putting back the state of a task that the match took. *)
Lemma wp_restore i t s x h :
  wf x -> get (tasks x) i = Some t -> task_state t = s ->
  wp (set_state i SReady) (fun _ => wp (set_state i s ;;; ret None) (answered i x)
    (fun _ : Fault => repairable i x)) (fun _ : Fault => repairable i x) (x, h).
Proof.
  intros Hw Hi Hs. eapply wp_update_task; [done|]. apply wp_bind.
  eapply wp_update_task; [simpl; apply get_upd_eq; by eapply get_Some_lt|].
  simpl. rewrite upd_upd. assert (with_state (with_state t SReady) s = t) as ->.
  { destruct t. simpl in *. by subst. }
  rewrite (upd_id (tasks x) i t) by done. replace (with_tasks _ _) with x by (by destruct x).
  by apply wp_ret.
Qed.

(** Every transition of a task keeps the invariant and never stops the program. *)
Lemma wp_transition i t image x h :
  wf x -> get (tasks x) i = Some t ->
  wp (transition i image) (answered i x) (fun _ => repairable i x) (x, h).
Proof.
  intros Hw Hi. pose proof (get_Some_lt _ _ _ Hi) as Hlt. unfold transition.
  wp_task. apply wp_bind.
  destruct (task_state t) as [| |k n|j|r|r|r o] eqn:Hs;
    try (by eapply wp_restore).
  - assert (used t /\ leaf t) as [Hu Hl] by (unfold used, leaf; by rewrite Hs).
    destruct (wf_focus i t x Hw Hi Hu Hl) as [ks Hw'].
    eapply wp_set_state; [done|done|]. intros x1 Hw1 Hl1. eapply wp_mono.
    + eapply wp_transition_ready; [exact Hw1|done].
    + done.
    + intros f s. apply good_repairable.
  - eapply wp_update_task; [done|]. by apply wp_transition_joining.
  - assert (used t /\ leaf t) as [Hu Hl] by (unfold used, leaf; by rewrite Hs).
    destruct (wf_focus i t x Hw Hi Hu Hl) as [ks Hw'].
    eapply wp_set_state; [done|done|]. intros x1 Hw1 Hl1. eapply wp_mono.
    + eapply wp_transition_returning; [exact Hw1|done].
    + intros a s [-> Hg]. by apply good_answered.
    + intros f s. apply good_repairable.
Qed.
End transitions.
