(* ===== verification/MachineSafe.v ===== *)
(** * Safety of the scheduler

    One turn of [Execution::advance] keeps the machine's invariant, never stops the
    program, and answers truthfully: a request names a task that waits for its fresh
    ticket, [Waiting] means that every live task is blocked, [Done] carries the result
    the root holds. *)

From stdpp Require Import base numbers list option.
From S2P Require Import Prelude Program Frame Machine MachineInv MachineStep MachineJoin.

Local Open Scope N_scope.
Local Open Scope comp_scope.

(** ** Changes outside the moved task *)
Section changes.
Context {V E : Type}.
Implicit Types (x : Execution V E) (ts : list (Task V E)) (t : Task V E).

(** Replacing a task by one with the same place in the tree. *)
Lemma tree_restate ts i t t' :
  tree ts -> get ts i = Some t -> used t -> used t' ->
  state_join (task_state t') = state_join (task_state t) ->
  task_parent t' = task_parent t -> (is_halted t' -> i = 0) -> tree (upd ts i t').
Proof.
  intros Ht Hi Hu Hu' Hj Hp Hh. pose proof (get_Some_lt _ _ _ Hi) as Hlt.
  assert (forall n u, get (upd ts i t') n = Some u ->
    n = i /\ u = t' \/ n <> i /\ get ts n = Some u) as Hcase by (intros; by apply get_upd_inv).
  assert (forall n u, get ts n = Some u -> exists u', get (upd ts i t') n = Some u' /\
    state_join (task_state u') = state_join (task_state u) /\ task_parent u' = task_parent u /\
    (used u -> used u')) as Hput.
  { intros n u Hn. destruct (decide (n = i)) as [->|].
    - exists t'. rewrite get_upd_eq by done. simplify_eq. done.
    - exists u. by rewrite get_upd_ne. }
  assert (forall n u, get (upd ts i t') n = Some u -> exists u0, get ts n = Some u0 /\
    state_join (task_state u0) = state_join (task_state u) /\ task_parent u0 = task_parent u /\
    (used u -> used u0)) as Hget.
  { intros n u [[-> ->]|[_ Hn]]%Hcase; [by exists t|by exists u]. }
  split.
  - destruct (tree_root _ Ht) as (t0 & H0 & Hu0 & Hp0).
    destruct (Hput _ _ H0) as (u & ? & _ & ? & ?). exists u. split_and!; [done|auto|congruence].
  - intros n u [[-> ->]|[_ Hn]]%Hcase Hs; [done|]. by eapply tree_free.
  - intros n u Hn Hun Hn0. destruct (Hget _ _ Hn) as (u0 & Hn' & _ & Hpu & Huu).
    destruct (tree_parent _ Ht n u0 Hn' (Huu Hun) Hn0) as (p & tp & j & Hpp & Hgp & Hjp & Hlr).
    destruct (Hput _ _ Hgp) as (tp' & ? & ? & _). exists p, tp', j. split_and!; congruence.
  - intros n u j Hn Hjn. destruct (Hget _ _ Hn) as (u0 & Hn' & Hju & _).
    destruct (tree_join _ Ht n u0 j Hn') as [Hne Hch]; [congruence|]. split; [done|].
    intros c Hc. destruct (Hch c Hc) as (tc & Hgc & Huc & Hpc).
    destruct (Hput _ _ Hgc) as (tc' & ? & _ & ? & ?). exists tc'. split_and!; [done|auto|congruence].
  - destruct (tree_acyclic _ Ht) as [rank Hrank]. exists rank. intros n u p Hn Hpu.
    destruct (Hget _ _ Hn) as (u0 & ? & _ & ? & _). eapply Hrank; [done|congruence].
  - intros n u [[-> ->]|[_ Hn]]%Hcase; [done|]. by apply (tree_halted _ Ht).
Qed.

(** A change of state that keeps the task's joins and asks for nothing. *)
Lemma wf_restate x i t s :
  wf x -> get (tasks x) i = Some t -> used t -> s <> SFree ->
  state_join s = state_join (task_state t) -> (forall k n, s <> SWaiting k n) ->
  (is_halted (with_state t s) -> i = 0) ->
  wf (with_tasks x (upd (tasks x) i (with_state t s))).
Proof.
  intros (ks & Hcore & Hclean) Hi Hu Hs Hj Hw Hh. pose proof (get_Some_lt _ _ _ Hi) as Hlt.
  exists ks. split.
  - pose proof (core_input _ _ Hcore) as Hin. destruct Hcore.
    split; unfold rows_ok; simpl; rewrite ?len_upd; try done.
    + rewrite upd_fmap. simpl. rewrite upd_id; [done|]. by rewrite get_fmap, Hi.
    + by eapply tree_restate.
    + eapply tickets_sub; [done|]. intros n u k m Hn Hsu.
      apply get_upd_inv in Hn as [[-> ->]|[_ Hn]]; [by apply Hw in Hsu|by exists u|done].
    + intros n u [[-> ->]|[_ Hn]]%get_upd_inv Hun; simpl; eauto.
  - assert (forall u, inherited (upd (tasks x) i (with_state t s)) u = inherited (tasks x) u)
      as Hinh.
    { intros u. unfold inherited. destruct (task_parent u) as [p|]; [|done].
      rewrite get_upd. case_decide as Hd; [|done]. destruct Hd as [-> _]. by rewrite Hi. }
    intros n u l Hn Hun Hl. simpl in *. rewrite Hinh.
    apply get_upd_inv in Hn as [[-> ->]|[_ Hn]]; [|by apply (Hclean n u l)|done].
    by apply (Hclean i t l).
Qed.

Lemma wf_set_aborting x b : wf x -> wf (with_aborting x b).
Proof. intros (ks & [] & ?). exists ks. split; [|done]. by split. Qed.

Lemma wf_set_steps x n : wf x -> wf (with_steps x n).
Proof. intros (ks & [] & ?). exists ks. split; [|done]. by split. Qed.

Lemma wf_set_cleanup x n : wf x -> wf (with_cleanup_steps x n).
Proof. intros (ks & [] & ?). exists ks. split; [|done]. by split. Qed.

Lemma wf_set_cursor x n : wf x -> n < len (tasks x) -> wf (with_cursor x n).
Proof. intros (ks & [] & ?) Hn. exists ks. split; [|done]. by split. Qed.

Lemma mark_flagged ts : Forall2 flagged ts (mark_cancelled <$> ts).
Proof.
  induction ts as [|t ts IH]; constructor; [|done]. unfold mark_cancelled, is_live, flagged, used.
  destruct (task_state t); simpl; auto.
Qed.

(** [cancel] raises flags and nothing else. *)
Lemma wf_cancel x : wf x -> wf (cancel x).
Proof.
  intros Hw. unfold cancel. destruct (root_result x); [done|].
  apply wf_set_aborting, wf_flags; [done|]. apply mark_flagged.
Qed.

Lemma cancel_root x : wf x -> root_result (cancel x) = root_result x.
Proof.
  intros Hw. unfold cancel. destruct (root_result x) eqn:Hr; [done|].
  unfold root_result in *. simpl. rewrite get_fmap. destruct (get (tasks x) 0) as [t|]; [|done].
  simpl in *. unfold mark_cancelled. by destruct (is_live (task_state t)).
Qed.
End changes.

(** ** The scan for a task that can move *)

Section scanning.
Context {H V E : Type} `{!Values H V E}.
Implicit Types (x : Execution V E) (h : H) (t : Task V E).

(** A task the scan passes over. *)
Definition blocked x t : Prop :=
  match task_state t with
  | SFree | SDone _ => True
  | SWaiting _ _ => ~ (task_cancelled t = true /\ task_cleaning t = 0)
  | SJoining j => exists l r, get (tasks x) (join_left j) = Some l /\
      get (tasks x) (join_right j) = Some r /\ join_ready j l r = false
  | _ => False
  end.

(** The task the scan chooses: it can move as it is, or was made to return. *)
Definition chosen x (i : N) x' : Prop :=
  exists t, get (tasks x) i = Some t /\ used t /\
    (forall r, task_state t <> SDone r) /\ (forall k n, task_state t <> SWaiting k n) /\
    (x' = x \/
     leaf t /\ task_cancelled t = true /\
     exists r, x' = with_tasks x (upd (tasks x) i (with_state t (SReturning r)))).

Definition scanned x (offsets : list N) (sel : selection) (s : machine (H := H)) : Prop :=
  match sel with
  | Selected i => chosen x i (fst s)
  | MustCancel i k => fst s = x /\ exists t n, get (tasks x) i = Some t /\
      task_state t = SWaiting k n /\ task_cancelled t = true /\ task_cleaning t = 0
  | Nothing => fst s = x /\ forall o, o ∈ offsets -> exists t,
      get (tasks x) ((cursor x + o) mod len (tasks x)) = Some t /\ blocked x t
  end.

(** A running execution: well-formed, its root not yet terminal. *)
Definition running x : Prop := wf x /\ root_result x = None.

Lemma running_not_halted x i t :
  running x -> get (tasks x) i = Some t -> ~ is_halted t.
Proof.
  intros [(ks & Hcore & _) Hr] Hi Hh. pose proof (tree_halted _ (core_tree _ _ Hcore) _ _ Hi Hh).
  subst i. unfold root_result in Hr. rewrite Hi in Hr. unfold is_halted in Hh. simpl in Hr.
  by destruct (task_state t).
Qed.

(** What the cancellation check does to a task that is neither free nor done. *)
Lemma wp_cancel_point i t (Q : option N -> machine -> Prop) R x h :
  get (tasks x) i = Some t ->
  (forall k n, task_state t = SWaiting k n -> task_cancelled t = true -> task_cleaning t = 0 ->
     Q (Some k) (x, h)) ->
  ((forall k n, task_state t = SWaiting k n -> ~ (task_cancelled t = true /\ task_cleaning t = 0)) ->
     Q None (x, h)) ->
  (leaf t \/ is_halted t -> task_cancelled t = true -> (forall k n, task_state t <> SWaiting k n) ->
     forall r h', Q None (with_tasks x (upd (tasks x) i (with_state t (SReturning r))), h')) ->
  wp (cancel_point i) Q R (x, h).
Proof.
  intros Hi Hwait Hnone Hret. unfold cancel_point. wp_task.
  destruct (task_cancelled t) eqn:Hc; simpl; [|apply wp_ret, Hnone; naive_solver].
  destruct (N.eqb_spec (task_cleaning t) 0) as [Hz|Hz]; [|apply wp_ret, Hnone; naive_solver].
  unfold leaf, is_halted in Hret.
  destruct (task_state t) as [| |k n|j|[v|e]|r|r o] eqn:Hs;
    try (apply wp_ret; first [by eapply Hwait | apply Hnone; naive_solver]);
    try (apply wp_bind, wp_exec, wp_bind, wp_host; intros r' h' _; apply wp_bind;
         eapply wp_update_task; [done|]; apply wp_ret, Hret; naive_solver).
Qed.

Lemma wp_is_ready i t (Q : bool -> machine -> Prop) R x h :
  get (tasks x) i = Some t -> wf x ->
  (match task_state t with
   | SWaiting _ _ => Q false (x, h)
   | SJoining j => forall l r, get (tasks x) (join_left j) = Some l ->
       get (tasks x) (join_right j) = Some r -> Q (join_ready j l r) (x, h)
   | _ => Q true (x, h)
   end) ->
  wp (is_ready i) Q R (x, h).
Proof.
  intros Hi (ks & Hcore & _) HQ. unfold is_ready. wp_task.
  destruct (task_state t) as [| |k n|j|r|r|r o] eqn:Hs; try (by apply wp_ret).
  destruct (tree_join _ (core_tree _ _ Hcore) i t j Hi) as [_ Hch]; [by rewrite Hs|].
  destruct (Hch (join_left j)) as (tl & Hl & _); [by left|].
  destruct (Hch (join_right j)) as (tr & Hr & _); [by right|].
  wp_task. wp_task.
  apply wp_ret. eauto.
Qed.

Lemma scanned_cons x o offsets sel (s : machine (H := H)) t :
  get (tasks x) ((cursor x + o) mod len (tasks x)) = Some t -> blocked x t ->
  scanned x offsets sel s -> scanned x (o :: offsets) sel s.
Proof.
  intros Ht Hb. destruct sel; simpl; try done. intros [-> Hall]. split; [done|].
  intros o' [->|Ho']%elem_of_cons; eauto.
Qed.

(** The visit of a task that is neither free nor done. *)
Lemma wp_visit i t c (Q : selection -> machine -> Prop) R x h :
  running x -> get (tasks x) i = Some t -> used t -> (forall r, task_state t <> SDone r) ->
  (blocked x t -> wp c Q R (x, h)) ->
  (forall k n, task_state t = SWaiting k n -> task_cancelled t = true -> task_cleaning t = 0 ->
     Q (MustCancel i k) (x, h)) ->
  (forall x' h', chosen x i x' -> Q (Selected i) (x', h')) ->
  wp (let* pending := cancel_point i in
      match pending with
      | Some tick => ret (MustCancel i tick)
      | None => let* ready := is_ready i in
                if (ready : bool) then ret (Selected i) else c
      end) Q R (x, h).
Proof.
  intros Hrun Hi Hu Hd Hc Hm Hsel. pose proof (running_not_halted _ _ _ Hrun Hi) as Hnh.
  apply wp_bind. eapply wp_cancel_point; [done|..].
  - intros k n Hs Hcan Hcl. apply wp_ret. by eapply Hm.
  - intros Hw. apply wp_bind. eapply wp_is_ready; [done|apply Hrun|].
    assert ((forall k n, task_state t <> SWaiting k n) -> chosen x i x) as Hch.
    { intros Hnw. exists t. eauto 10. }
    unfold is_halted, used, blocked in *. destruct (task_state t) as [| |k n|j|r|r|r o] eqn:Hs;
      try done; try (apply wp_ret, Hsel, Hch; by intros).
    + apply Hc. eapply Hw. done.
    + intros l r Hl Hr. destruct (join_ready j l r) eqn:Hj; [apply wp_ret, Hsel, Hch; by intros|].
      apply Hc. eauto.
  - intros [Hl|Hh] Hcan Hnw r h'; [|done]. apply wp_bind. unfold is_ready. apply wp_bind.
    eapply wp_task_at; [simpl; apply get_upd_eq; by eapply get_Some_lt|]. apply wp_ret, wp_ret, Hsel.
    exists t. split_and!; eauto 10.
Qed.

Lemma wp_scan offsets R x h :
  running x -> (forall o, o ∈ offsets -> o < len (tasks x)) ->
  wp (scan offsets) (scanned x offsets) R (x, h).
Proof.
  intros Hrun. pose proof Hrun as [Hw _]. pose proof Hw as (ks & Hcore & _).
  pose proof (core_tasks _ _ Hcore) as [Hpos Hmax]. pose proof (core_cursor _ _ Hcore) as Hcur.
  assert (u32_max + u32_max <= usize_max) as Hwide by done.
  revert h. induction offsets as [|o offsets IH]; intros h Ho; simpl.
  { apply wp_ret. split; [done|]. by intros o ?%not_elem_of_nil. }
  assert (o < len (tasks x)) as Hlt by (apply Ho; by left).
  apply wp_bind, wp_exec, wp_bind. eapply wp_expect; [by apply checked_add_Some; split; [|lia]|].
  set (i := (cursor x + o) mod len (tasks x)).
  destruct (get_lt (tasks x) i) as [t Hi]; [apply N.mod_lt; lia|].
  wp_task.
  assert (blocked x t -> wp (scan offsets) (scanned x (o :: offsets)) R (x, h)) as Hskip.
  { intros Hb. eapply wp_mono; [apply IH; intros; apply Ho; by right| |done].
    intros sel s'. by apply (scanned_cons x o offsets sel s' t). }
  assert (used t -> (forall r, task_state t <> SDone r) ->
    wp (let* pending := cancel_point i in
        match pending with
        | Some tick => ret (MustCancel i tick)
        | None => let* ready := is_ready i in
                  if (ready : bool) then ret (Selected i) else scan offsets
        end) (scanned x (o :: offsets)) R (x, h)) as Hvisit.
  { intros Hu Hd. eapply wp_visit; try done. intros k n Hs Hc Hcl. simpl. eauto 10. }
  unfold used in Hvisit. destruct (task_state t) eqn:Hs; try (by apply Hvisit);
    apply Hskip; unfold blocked; by rewrite Hs.
Qed.
End scanning.

(** ** No deadlock *)
Section progress.
Context {V E : Type}.
Implicit Types (x : Execution V E) (t : Task V E).

Definition waiting x : Prop := exists i k, waits (tasks x) i k.

(** A join that does not move has a branch that is not done. *)
Lemma join_stuck j (l r : Task V E) :
  join_ready j l r = false -> is_done (task_state l) = false \/ is_done (task_state r) = false.
Proof. unfold join_ready. by destruct (is_done (task_state l)), (is_done (task_state r)); auto. Qed.

(** Below a task that is not done, where every task is blocked, one waits for the host. *)
Lemma blocked_waits x rank M :
  tree (tasks x) ->
  (forall j u p, get (tasks x) j = Some u -> task_parent u = Some p -> (rank p < rank j)%nat) ->
  (forall j, j < len (tasks x) -> (rank j <= M)%nat) ->
  (forall j u, get (tasks x) j = Some u -> blocked x u) ->
  forall fuel i t, (M - rank i < fuel)%nat -> get (tasks x) i = Some t -> used t ->
    is_done (task_state t) = false -> waiting x.
Proof.
  intros Ht Hrank HM Hall. induction fuel as [|fuel IH]; intros i t Hf Hi Hu Hd; [lia|].
  pose proof (Hall i t Hi) as Hb. unfold blocked in Hb. unfold used in Hu.
  destruct (task_state t) as [| |k n|j|r|r|r o] eqn:Hs; try done.
  - by exists i, k, t, n.
  - destruct Hb as (l & r & Hl & Hr & Hj).
    destruct (tree_join _ Ht i t j Hi) as [_ Hch]; [by rewrite Hs|].
    destruct (Hch (join_left j)) as (l' & Hl' & Hul & Hpl); [by left|].
    destruct (Hch (join_right j)) as (r' & Hr' & Hur & Hpr); [by right|].
    simplify_eq. pose proof (Hrank _ _ _ Hl Hpl). pose proof (Hrank _ _ _ Hr Hpr).
    pose proof (HM _ (get_Some_lt _ _ _ Hl)). pose proof (HM _ (get_Some_lt _ _ _ Hr)).
    destruct (join_stuck _ _ _ Hj) as [Hn|Hn];
      [eapply (IH (join_left j))|eapply (IH (join_right j))]; try done; lia.
Qed.

(** The offsets of the scan reach every slot. *)
Lemma scan_covers (n c i : N) :
  i < n -> c < n -> exists o, o < n /\ (c + o) mod n = i.
Proof.
  intros Hi Hc. destruct (N.le_gt_cases c i).
  - exists (i - c). split; [lia|]. replace (c + (i - c)) with i by lia. by apply N.mod_small.
  - exists (i + n - c). split; [lia|]. replace (c + (i + n - c)) with (i + 1 * n) by lia.
    rewrite N.Div0.mod_add. by apply N.mod_small.
Qed.

(** A scan that finds nothing has passed over every task. *)
Lemma scan_blocked x :
  running x ->
  (forall o, o ∈ range (len (tasks x)) -> exists t,
     get (tasks x) ((cursor x + o) mod len (tasks x)) = Some t /\ blocked x t) ->
  forall j u, get (tasks x) j = Some u -> blocked x u.
Proof.
  intros [(ks & Hcore & _) _] Hscan j u Hj. pose proof (get_Some_lt _ _ _ Hj) as Hlt.
  destruct (scan_covers (len (tasks x)) (cursor x) j) as (o & Ho & Hm); [done|by apply Hcore|].
  destruct (Hscan o) as (u' & Hu' & Hb); [by apply elem_of_range|]. rewrite Hm in Hu'.
  by simplify_eq.
Qed.

(** When the scan finds nothing, the host owes an answer: there is no deadlock. *)
Lemma no_deadlock x :
  running x -> (forall j u, get (tasks x) j = Some u -> blocked x u) -> waiting x.
Proof.
  intros [(ks & Hcore & _) Hroot] Hall. pose proof (core_tree _ _ Hcore) as Ht.
  destruct (tree_acyclic _ Ht) as [rank Hrank].
  destruct (finite_bound (len (tasks x)) rank) as [M HM].
  destruct (tree_root _ Ht) as (t0 & H0 & Hu0 & _).
  eapply (blocked_waits x rank M Ht Hrank HM); [done|apply Nat.lt_succ_diag_r|exact H0|done|].
  unfold root_result in Hroot. rewrite H0 in Hroot. simpl in Hroot. by destruct (task_state t0).
Qed.
End progress.

(** ** One turn of the scheduler *)
Section turns.
Context {H V E : Type} `{!Values H V E}.
Implicit Types (x : Execution V E) (h : H) (t : Task V E).

(** What any number of turns keeps. *)
Record grows x x' : Prop := {
  grows_count : len (tasks x') = len (tasks x);
  grows_limits : limits x' = limits x;
  grows_slots : len (slots (frames x')) = len (slots (frames x));
  grows_rows : len (bindings x') = len (bindings x);
  grows_id : exec_image_id x' = exec_image_id x;
  grows_ticket : ticket x <= ticket x';
  grows_aborting : aborting x = true -> aborting x' = true;
  grows_waits : forall j k, waits (tasks x') j k -> waits (tasks x) j k \/ ticket x < k
}.

#[export] Instance grows_refl : Reflexive grows.
Proof. intros x. split; auto with lia. Qed.

#[export] Instance grows_trans : Transitive grows.
Proof.
  intros x y z [] []. split; try congruence; [lia|auto|]. intros j k Hz.
  destruct (grows_waits1 j k Hz) as [Hy|]; [auto|right; lia].
Qed.

Lemma evolves_grows x x' : evolves x x' -> grows x x'.
Proof. intros []. by split; try congruence. Qed.

(** The counter a selected task is charged to. *)
Definition charged x x' : Prop :=
  aborting x' = aborting x /\
  if aborting x then
    cleanup_steps x < limit_cleanup_steps (limits x) /\
    cleanup_steps x' = cleanup_steps x + 1 /\ steps x' = steps x
  else steps x' = saturating_add u64_max (steps x) 1 /\ cleanup_steps x' = cleanup_steps x.

(** The answers of a turn. *)
Definition answers x (a : option (Advance V E)) x' : Prop :=
  match a with
  | None => charged (enforce_step_limit x) x'
  | Some (ADone r) => root_result x' = Some r
  | Some (ARequest q) => ticket x < request_ticket q /\
      is_pending x' (request_task q) (request_ticket q) = true /\
      exists t, get (tasks x') (request_task q) = Some t /\ task_input t = Some (request_input q)
  | Some (ACancel i k) => is_pending x' i k = true /\
      exists t, get (tasks x') i = Some t /\ task_cancelled t = true /\ task_cleaning t = 0
  | Some AWaiting => root_result x' = None /\ waiting x'
  | Some AYielded => False
  end.

(** What a turn that does not end the execution leaves alone: it issues at most one ticket, and
    reports that it waits only when every task is blocked. *)
Definition undisturbed x (a : option (Advance V E)) x' : Prop :=
  match a with
  | Some (ADone _) => True
  | Some (ARequest q) => spares x x' /\ request_ticket q = ticket x' /\ ticket x' = ticket x + 1
  | Some AWaiting => spares x x' /\ ticket x' = ticket x /\
      forall j u, get (tasks x') j = Some u -> blocked x' u
  | _ => spares x x' /\ ticket x' = ticket x
  end.

Lemma spares_restate x x' i t s :
  spares x x' -> i < len (tasks x') -> idle i x -> (forall k n, s <> SWaiting k n) ->
  spares x (with_tasks x' (upd (tasks x') i (with_state t s))).
Proof.
  intros Hsp Hlt Hidle Hs. split; simpl; [apply Hsp|..].
  - intros j u k n Hj Hu. apply get_upd_inv in Hj as [[-> ->]|[_ Hj]]; [by apply Hs in Hu| |done].
    by eapply spares_new.
  - intros j u k n Hj Hu. rewrite get_upd_ne; [by eapply spares_old|].
    intros ->. destruct (Hidle k). by exists u, n.
Qed.

Lemma evolves_restate x i t s :
  i < len (tasks x) -> (forall k n, s <> SWaiting k n) ->
  evolves x (with_tasks x (upd (tasks x) i (with_state t s))).
Proof.
  intros Hlt Hs. split; simpl; try done; [apply len_upd|]. intros j k (u & n & Hj & Hu). left.
  apply get_upd_inv in Hj as [[-> ->]|[_ Hj]]; [by apply Hs in Hu|by exists u, n|done].
Qed.

Lemma cancel_grows x : grows x (cancel x).
Proof.
  unfold cancel. destruct (root_result x); [done|].
  destruct (flags_evolves x _ (mark_flagged (tasks x))). by split.
Qed.

Lemma cancel_spares x : spares x (cancel x).
Proof.
  unfold cancel. destruct (root_result x); [done|].
  etrans; [exact (flags_spares x _ (mark_flagged (tasks x)))|by apply spares_tasks].
Qed.

Lemma enforce_spares x : spares x (enforce_step_limit x).
Proof. unfold enforce_step_limit. destruct (_ && _); [apply cancel_spares|done]. Qed.

Lemma enforce_ticket x : ticket (enforce_step_limit x) = ticket x.
Proof. unfold enforce_step_limit, cancel. destruct (_ && _), (root_result x); done. Qed.

Lemma chosen_idle x i x' :
  chosen x i x' -> idle i x /\ idle i x' /\ spares x x' /\ ticket x' = ticket x.
Proof.
  intros (t & Hi & Hu & _ & Hnw & Hx').
  assert (idle i x) as Hidle by (intros k (u & n & ? & ?); simplify_eq; by eapply Hnw).
  destruct Hx' as [->|(_ & _ & r & ->)]; [done|]. pose proof (get_Some_lt _ _ _ Hi). split_and!; [done|..].
  - intros k (u & n & Hj & Hs). simpl in Hj. rewrite get_upd_eq in Hj by done. by simplify_eq.
  - by apply (spares_restate x x).
  - done.
Qed.

Lemma enforce_running x : running x -> running (enforce_step_limit x) /\ grows x (enforce_step_limit x).
Proof.
  intros [Hw Hr]. unfold enforce_step_limit. destruct (_ && _); [|done]. split.
  - split; [by apply wf_cancel|]. by rewrite cancel_root.
  - apply cancel_grows.
Qed.

(** The chosen task's state after the scan. *)
Lemma chosen_running x i x' :
  running x -> chosen x i x' -> running x' /\ grows x x' /\
  aborting x' = aborting x /\ steps x' = steps x /\ cleanup_steps x' = cleanup_steps x /\
  exists t, get (tasks x') i = Some t.
Proof.
  intros [Hw Hr] (t & Hi & Hu & Hd & Hnw & [->|(Hl & _ & r & ->)]).
  { split_and!; try done. by exists t. }
  pose proof (get_Some_lt _ _ _ Hi) as Hlt. split_and!; simpl; try done.
  - split.
    + by apply wf_restate.
    + unfold root_result in *. simpl. rewrite get_upd. by case_decide.
  - by apply evolves_grows, evolves_restate.
  - eexists. by apply get_upd_eq.
Qed.

(** The charge of the selected task, or the halt when cleanup has no budget left. *)
Lemma wp_charge (Q : option (Result V E) -> machine -> Prop) R x h :
  running x ->
  (forall r x' h', wf x' -> grows x x' -> root_result x' = Some r -> Q (Some r) (x', h')) ->
  (forall x', running x' -> grows x x' -> charged x x' -> tasks x' = tasks x ->
     cursor x' = cursor x -> ticket x' = ticket x -> Q None (x', h)) ->
  wp charge Q R (x, h).
Proof.
  intros [Hw Hr] Hhalt Hgo. unfold charge. apply wp_bind, wp_exec.
  pose proof Hw as (ks & Hcore & _). pose proof (core_budget _ _ Hcore) as Hb.
  destruct (aborting x) eqn:Ha.
  - destruct (N.leb_spec (limit_cleanup_steps (limits x)) (cleanup_steps x)) as [Hle|Hlt].
    + apply wp_bind, wp_host. intros r h' _.
      destruct (tree_root _ (core_tree _ _ Hcore)) as (t & Ht & Hu & _).
      wp_task. apply wp_bind. eapply wp_update_task; [done|].
      apply wp_ret. apply Hhalt.
      * apply (wf_restate x 0 t); try done. simpl. by destruct (state_join _).
      * apply evolves_grows, (evolves_restate x 0 t); [by eapply get_Some_lt|done].
      * unfold root_result. simpl. rewrite get_upd_eq; [done|by eapply get_Some_lt].
    + apply wp_bind. eapply wp_expect; [apply checked_add_Some; split; [done|lia]|].
      apply wp_bind, wp_put_exec, wp_ret. apply Hgo; simpl; try done.
      * split; [by apply wf_set_cleanup|done].
      * split; simpl; auto with lia.
      * unfold charged. simpl. by rewrite Ha.
  - apply wp_bind, wp_put_exec, wp_ret. apply Hgo; simpl; try done.
    + split; [by apply wf_set_steps|done].
    + split; simpl; auto with lia.
    + unfold charged. simpl. by rewrite Ha.
Qed.

(** A request issued by a task of a running execution is pending. *)
Lemma requested_pending i q x0 x :
  root_result x0 = None -> wf x0 -> requested i q x0 x ->
  is_pending x (request_task q) (request_ticket q) = true.
Proof.
  intros Hr Hw (-> & -> & Ht & Hothers & t & n & Hi & Hs & Hin). unfold is_pending.
  assert (root_result x = None) as ->.
  { unfold root_result in *. destruct (decide (i = 0)) as [->|Hne].
    - rewrite Hi. simpl. by rewrite Hs.
    - by rewrite Hothers. }
  rewrite Hi. simpl. rewrite Hs. apply N.eqb_refl.
Qed.

(** The transition of the selected task, its fault turned into a return. *)
Lemma wp_step i t image (R : Empty_set -> machine -> Prop) x0 x h :
  running x -> get (tasks x) i = Some t -> charged (enforce_step_limit x0) x -> grows x0 x ->
  idle i x -> spares x0 x -> ticket x = ticket x0 ->
  wp (let* moved := attempt (transition i image) in
      match moved with
      | Ok action => ret action
      | Err fault =>
          let* x := exec in
          let* result := host (fault_result x i fault) in
          set_state i (SReturning result) ;;;
          ret None
      end)
    (fun a s => (wf (fst s) /\ grows x0 (fst s) /\ answers x0 a (fst s)) /\
       undisturbed x0 a (fst s)) R (x, h).
Proof.
  intros [Hw Hr] Hi Hch Hg Hidle Hsp Hek. apply wp_bind, wp_attempt.
  assert (forall x', evolves x x' -> charged (enforce_step_limit x0) x') as Hch'.
  { intros x' []. unfold charged in *. destruct (aborting (enforce_step_limit x0)); split_and!;
      intuition congruence. }
  eapply wp_mono; [by eapply wp_transition|..].
  - intros a s (Hw' & [Hev Hs] & Ha). assert (spares x0 (fst s)) as Hsp' by (etrans; [done|auto]).
    destruct a as [a|]; apply wp_ret.
    + destruct a as [q| | | |]; try done. pose proof (requested_pending _ _ _ _ Hr Hw Ha) as Hp.
      destruct Ha as (Hq & Hqk & Htk & _ & t' & n & Ht' & _ & Hin). subst i.
      pose proof (grows_ticket _ _ Hg). simpl.
      split_and!; [done| |lia|done|by exists t'|done|done|congruence].
      etrans; [done|]. by apply evolves_grows.
    + simpl. split_and!; [done| |by apply Hch'|done|congruence]. etrans; [done|]. by apply evolves_grows.
  - intros f [x' h'] ([Hev Hs] & Htk & t' & Hi' & Hrep). simpl in *. apply wp_bind, wp_exec.
    apply wp_bind, wp_host. intros r h2 _. apply wp_bind. eapply wp_update_task; [done|].
    pose proof (get_Some_lt _ _ _ Hi') as Hlt.
    apply wp_ret. simpl. split_and!.
    + apply Hrep.
    + etrans; [done|]. etrans; [by apply evolves_grows|]. by apply evolves_grows, evolves_restate.
    + apply (Hch' (with_tasks _ _)). etrans; [done|]. by apply evolves_restate.
    + etrans; [exact Hsp|]. by apply spares_restate; [apply Hs|..].
    + congruence.
Qed.

(** A turn keeps the invariant, cannot stop the program, and answers truthfully; the tasks
    that wait for the host are left alone. *)
Lemma wp_turn_spares image (R : Empty_set -> machine -> Prop) x h :
  wf x ->
  wp (turn image) (fun a s => (wf (fst s) /\ grows x (fst s) /\ answers x a (fst s)) /\
    undisturbed x a (fst s)) R (x, h).
Proof.
  intros Hw. pose proof Hw as (ks & Hcore & _).
  destruct (tree_root _ (core_tree _ _ Hcore)) as (t0 & H0 & _ & _).
  unfold turn. wp_task.
  destruct (terminal_result (task_state t0)) as [r|] eqn:Hterm.
  { apply wp_ret. split_and!; [done|done| |done]. simpl. unfold root_result. by rewrite H0. }
  assert (running x) as Hrun by (split; [done|]; unfold root_result; by rewrite H0).
  apply wp_bind, wp_exec, wp_bind, wp_put_exec, wp_bind, wp_exec, wp_bind.
  destruct (enforce_running x Hrun) as [Hrun1 Hg1]. pose proof (enforce_spares x) as Hsp1.
  pose proof (enforce_ticket x) as Htk1. set (x1 := enforce_step_limit x) in *.
  eapply wp_mono; [apply wp_scan; [done|]; by intros o ?%elem_of_range| |done].
  intros sel [x2 h2] Hscan. destruct sel as [i|i k|]; simpl in Hscan.
  - destruct (chosen_running _ _ _ Hrun1 Hscan) as (Hrun2 & Hg2 & Ha2 & Hs2 & Hc2 & t & Hi).
    destruct (chosen_idle _ _ _ Hscan) as (_ & Hidle & Hsp2 & Htk2).
    apply wp_bind. eapply (wp_charge _ _ x2); [done|..].
    + intros r x3 h3 Hw3 Hg3 Hr3. apply wp_ret. split_and!; [done| |done|done].
      do 2 (etrans; [done|]). done.
    + intros x3 [Hw3 Hr3] Hg3 Hch3 Ht3 Hcur3 Htk3. apply wp_bind, wp_exec, wp_bind, wp_put_exec.
      assert (0 < len (tasks x3)) as Hpos by (destruct Hw3 as (? & [] & _); lia).
      eapply (wp_step i t); simpl.
      * split; [|done]. apply wf_set_cursor; [done|]. apply N.mod_lt. lia.
      * by rewrite Ht3.
      * unfold charged in *. simpl. pose proof (grows_limits _ _ Hg2) as El.
        rewrite Ha2, Hs2, Hc2, El in Hch3. done.
      * do 3 (etrans; [done|]). split; simpl; auto with lia.
      * intros k. simpl. rewrite Ht3. apply Hidle.
      * do 2 (etrans; [done|]). apply spares_tasks; [done|simpl; lia].
      * congruence.
  - destruct Hscan as (-> & t & n & Hi & Hs & Hc & Hcl). apply wp_ret. simpl.
    split_and!; [apply Hrun1|done| |by exists t|done|done].
    unfold is_pending. destruct Hrun1 as [_ ->]. rewrite Hi. simpl. rewrite Hs. apply N.eqb_refl.
  - destruct Hscan as [-> Hall]. pose proof (scan_blocked _ Hrun1 Hall) as Hblocked. apply wp_ret. simpl.
    split_and!; [apply Hrun1|done|apply Hrun1|by apply no_deadlock|done..].
Qed.

Lemma wp_turn image (R : Empty_set -> machine -> Prop) x h :
  wf x ->
  wp (turn image) (fun a s => wf (fst s) /\ grows x (fst s) /\ answers x a (fst s)) R (x, h).
Proof. intros Hw. eapply wp_mono; [by apply (wp_turn_spares image R)| |done]. by intros a s [Ha _]. Qed.
End turns.
