(* ===== verification/MachineHost.v ===== *)
(** * The operations a host calls

    [new], [advance], [complete], [cancel], [clear_bindings], [suspend] and [resume]
    keep the machine's invariant and never stop the program.  [advance] ends within
    the budgets of the execution. *)

From stdpp Require Import base numbers list option.
From S2P Require Import Prelude Program Frame Machine Scenarios.
From S2P Require Import MachineInv MachineStep MachineJoin MachineSafe.

Local Open Scope N_scope.
Local Open Scope comp_scope.

(** ** Advancing *)
Section advancing.
Context {H V E : Type} `{!Values H V E}.
Implicit Types (x : Execution V E) (h : H) (t : Task V E).

(** The answers of [advance]: those of a turn, or that the fuel ran out. *)
Definition advanced x (a : Advance V E) x' : Prop :=
  match a with AYielded => True | _ => answers x (Some a) x' end.

Lemma answers_mono x x1 a x' : grows x x1 -> answers x1 (Some a) x' -> advanced x a x'.
Proof.
  intros Hg. pose proof (grows_ticket _ _ Hg). destruct a; simpl; try done.
  intros (? & ? & ?). split_and!; [lia|done|done].
Qed.

Lemma wp_turns fuel image x h :
  wf x ->
  wp (turns fuel image) (fun a s => wf (fst s) /\ grows x (fst s) /\ advanced x a (fst s))
    (fun _ _ => False) (x, h).
Proof.
  revert x h. induction fuel as [|fuel IH]; intros x h Hw; simpl; [by apply wp_ret|].
  apply wp_bind. eapply wp_mono; [by apply (wp_turn image (fun _ _ => False))| |done].
  intros [a|] [x1 h1] (Hw1 & Hg1 & Ha1); simpl in *.
  - apply wp_ret. split_and!; [done|done|]. by apply (answers_mono x x).
  - eapply wp_mono; [by apply IH| |done]. intros a [x2 h2] (Hw2 & Hg2 & Ha2). simpl in *.
    split_and!; [done|by etrans|]. destruct a; simpl in *; try done.
    pose proof (grows_ticket _ _ Hg1). destruct Ha2 as (? & ? & ?). split_and!; [lia|done|done].
Qed.

Lemma wp_total {S A} (c : comp S Empty_set A) Q R s :
  wp c Q R s -> exists a s', c s = Val a s' /\ Q a s'.
Proof. unfold wp. destruct (c s) as [a s'|[]|]; [eauto|done]. Qed.

(** ** Budgets *)

(** Transitions left before the execution must have ended. *)
Definition remaining x : N :=
  (if aborting x then 0
   else match max_steps (limits x) with Some max => max - steps x | None => 0 end)
  + (limit_cleanup_steps (limits x) - cleanup_steps x).

(** The execution is being aborted, or has a step limit within [u64]. *)
Definition budgeted x : Prop :=
  aborting x = true \/ exists max, max_steps (limits x) = Some max /\ max <= u64_max.

Lemma charged_remaining x x' :
  running x -> budgeted x -> grows x x' -> charged (enforce_step_limit x) x' ->
  remaining x' < remaining x /\ budgeted x'.
Proof.
  intros [_ Hr] Hb Hg Hc. pose proof (grows_limits _ _ Hg) as El. unfold charged in Hc.
  unfold enforce_step_limit, cancel in Hc. rewrite Hr in Hc. unfold remaining, budgeted in *.
  rewrite El. destruct (aborting x) eqn:Ha; simpl in Hc.
  - rewrite Ha in Hc. destruct Hc as (-> & ? & -> & _). split; [lia|by left].
  - destruct Hb as [Hb|(max & Hmax & Hle)]; [done|]. rewrite Hmax in *.
    destruct (N.leb_spec max (steps x)) as [Hover|Hunder]; simpl in Hc.
    + destruct Hc as (-> & ? & -> & _). split; [lia|by left].
    + rewrite Ha in Hc. destruct Hc as (-> & -> & ->). split; [|by eauto].
      unfold saturating_add. lia.
Qed.

Lemma wp_turns_budget fuel image x h :
  wf x -> budgeted x -> (N.to_nat (remaining x) < fuel)%nat ->
  wp (turns fuel image) (fun a _ => a <> AYielded) (fun _ _ => False) (x, h).
Proof.
  revert x h. induction fuel as [|fuel IH]; intros x h Hw Hb Hf; [lia|]. simpl.
  destruct (root_result x) as [r|] eqn:Hr.
  { apply wp_bind. unfold turn. pose proof Hw as (ks & Hcore & _).
    destruct (tree_root _ (core_tree _ _ Hcore)) as (t0 & H0 & _ & _).
    unfold root_result in Hr. rewrite H0 in Hr. simpl in Hr.
    wp_task. rewrite Hr. by do 2 apply wp_ret. }
  apply wp_bind. eapply wp_mono; [by apply (wp_turn image (fun _ _ => False))| |done].
  intros [a|] [x1 h1] (Hw1 & Hg1 & Ha1); simpl in *.
  - apply wp_ret. by intros ->.
  - destruct (charged_remaining x x1) as [Hlt Hb1]; [done..|]. apply IH; [done|done|lia].
Qed.
End advancing.

(** ** Completing a request *)
Section completing.
Context {H V E : Type} `{!Values H V E}.
Implicit Types (x : Execution V E) (h : H) (t : Task V E).
Implicit Types (ks : list (list (FrameKind V E))).

(** A response was accepted: the task moved on, the others did not. *)
Definition accepted (i : N) x (s : machine (H := H)) : Prop :=
  wf (fst s) /\ local i x (fst s) /\ forall k, ~ waits (tasks (fst s)) i k.

(** A response was refused: at most its control was kept. *)
Definition refused (i : N) x (s : machine (H := H)) : Prop :=
  wf (fst s) /\
  (fst s = x \/ exists t v, get (tasks x) i = Some t /\
     fst s = with_tasks x (upd (tasks x) i (with_input t (Some v)))).

Lemma accepted_intro i t x0 x h ks c :
  wf_at i t x ks c -> task_cleaning t = c -> local i x0 x -> plain (task_state t) ->
  accepted i x0 (x, h).
Proof.
  intros Hw Hc Hl Hp. split_and!; [by eapply wf_at_wf|done|].
  intros k (u & n & Hu & Hs). destruct Hw as (_ & _ & Hi & _ & _). simpl in Hu. simplify_eq.
  by rewrite Hs in Hp.
Qed.

Lemma total_frames_push ks i l (k : FrameKind V E) :
  get ks i = Some l -> total_frames (upd ks i (k :: l)) = total_frames ks + 1.
Proof.
  rewrite get_lookup. intros Hl. unfold total_frames, len, upd.
  rewrite (Permutation_length (concat_insert_cons _ _ k _ Hl)). simpl. lia.
Qed.

(** Entering a scope takes two frames or none. *)
Lemma wp_enter_scope i t node context image x0 x h ks :
  wf_at i t x ks (task_cleaning t) -> local i x0 x -> refused i x0 (x, h) ->
  wp (enter_scope i node context image) (fun _ => accepted i x0) (fun _ => refused i x0) (x, h).
Proof.
  intros Hw Hl0 Href. pose proof Hw as (Hcore & _ & Hi & _ & _).
  destruct (wf_core_stack _ _ _ _ Hcore Hi) as (l & Hl & _). unfold enter_scope.
  apply wp_bind, wp_lift_result; [|done]. intros n _.
  destruct (node_kind n); try (by apply wp_throw).
  apply wp_bind, wp_exec, wp_bind. eapply wp_check; [done..| |done]. intros [Hd Ha].
  apply wp_bind. eapply wp_push; [done..| |intros []; lia]. intros x1 st1 Hw1 Hl1.
  pose proof Hw1 as (_ & _ & Hi1 & _ & _).
  wp_task. apply wp_bind.
  eapply wp_push; [done| |done| |].
  { by eauto with slices. }
  2: { intros []. rewrite total_frames_push by done.
       rewrite (local_limits _ _ _ Hl1), (local_slots _ _ _ Hl1). unfold len in *. simpl. lia. }
  intros x2 st2 Hw2 Hl2. apply wp_bind. eapply wp_set_context; [done|]. intros x3 Hw3 Hl3.
  pose proof Hw3 as (Hcore3 & _ & Hi3 & Hu3 & _).
  wp_task. apply wp_bind. eapply wp_update_task; [done|].
  pose proof (core_input _ _ Hcore3 _ _ Hi3 Hu3) as [v Hv]. simpl in Hv.
  apply wp_bind, wp_require; [|simpl; by rewrite Hv]. intros v' _.
  eapply wp_update_task; [simpl; apply get_upd_eq; by eapply get_Some_lt|]. simpl.
  rewrite upd_upd. destruct (wf_at_update _ _ (mkTask SReady body (Some v') st2 context
    (task_parent t) (task_cleaning t) (task_cancelled t)) _ _ _ Hw3) as [Hw4 Hl4]; [done..|].
  eapply accepted_intro; [exact Hw4|simpl; lia| |done].
  do 4 (etrans; [eassumption|]). by apply Hl4.
Qed.

Lemma wp_enter_continuation i t node entry input image x0 x h ks :
  wf_at i t x ks (task_cleaning t) -> local i x0 x -> refused i x0 (x, h) ->
  wp (enter_continuation i node entry input image) (fun _ => accepted i x0)
    (fun _ => refused i x0) (x, h).
Proof.
  intros Hw Hl0 Href. pose proof Hw as (Hcore & _ & Hi & _ & _).
  destruct (wf_core_stack _ _ _ _ Hcore Hi) as (l & Hl & _). unfold enter_continuation.
  apply wp_bind, wp_lift_result; [|done]. intros n _.
  apply wp_bind. eapply wp_push; [done..| |done]. intros x1 st1 Hw1 Hl1.
  pose proof Hw1 as (_ & _ & Hi1 & _ & _). wp_task.
  apply wp_bind. simpl. destruct (task_input t); [apply wp_host|apply wp_ret]; intros;
    (eapply wp_start; [done|]; intros x2 Hw2 Hl2;
     eapply accepted_intro; [exact Hw2|simpl; lia| |done]; do 2 (etrans; [eassumption|]); done).
Qed.

Lemma wp_accept_result i t node r image x0 x h ks :
  wf_at i t x ks (task_cleaning t) -> local i x0 x -> refused i x0 (x, h) ->
  wp (finish i node r image) (fun _ => accepted i x0) (fun _ => refused i x0) (x, h).
Proof.
  intros Hw Hl0 Href. eapply wp_finish; [done| |done]. intros x' t' h' Hw' Hl' Hc' Hp'.
  eapply accepted_intro; [done|done| |done]. by etrans.
Qed.

(** The control of a response is kept before it is accepted. *)
Lemma wp_keep_control i t control (Q : unit -> machine -> Prop) (R : Fault -> machine -> Prop)
    x h ks :
  wf_at i t x ks (task_cleaning t) ->
  (forall t' x' h', wf_at i t' x' ks (task_cleaning t') -> local i x x' ->
     refused i x (x', h') -> Q tt (x', h')) ->
  wp (keep_control i control) Q R (x, h).
Proof.
  intros Hw HQ. pose proof Hw as (_ & _ & Hi & _ & _). unfold keep_control.
  destruct control as [control|].
  2: { apply wp_ret. eapply HQ; [done|done|]. split; [by eapply wf_at_wf|by left]. }
  wp_task. apply wp_bind.
  assert (forall v h', wp (set_input i (Some v)) Q R (x, h')) as Hset.
  { intros v h'. destruct (wf_at_same _ _ _ _ _ Hw) as (_ & ? & ?).
    destruct Hw as (Hc & Hcl & _ & Hu & Hl). eapply wp_update_task; [done|].
    destruct (wf_at_update i t (with_input t (Some v)) x ks (task_cleaning t)) as [Hw' Hl'];
      try done.
    eapply HQ; [exact Hw'|by apply Hl'|]. split; [by eapply wf_at_wf|]. right. by exists t, v. }
  destruct (task_input t); [apply wp_host; intros ? ? _|apply wp_ret]; apply Hset.
Qed.

Lemma wp_event_control node event image (Q : option V -> machine -> Prop)
    (R : Fault -> machine -> Prop) x h :
  (forall c h', Q c (x, h')) -> (forall f, R f (x, h)) -> wp (event_control node event image) Q R (x, h).
Proof.
  intros HQ HR. unfold event_control. destruct event as [r|ctx|entry v].
  - apply wp_bind, wp_host. intros. by apply wp_ret.
  - by apply wp_ret.
  - apply wp_bind, wp_lift_result; [|done]. intros n _. destruct (node_kind n); try (by apply wp_throw).
    apply wp_bind, wp_host. intros. by apply wp_ret.
Qed.

Lemma wp_complete i k event image x h :
  wf x ->
  wp (complete i k event image)
    (fun _ s => accepted i x s /\ is_pending x i k = true) (fun _ => refused i x) (x, h).
Proof.
  intros Hw. pose proof Hw as (ks0 & Hcore & _).
  destruct (tree_root _ (core_tree _ _ Hcore)) as (t0 & H0 & _ & _).
  assert (forall h, refused i x (x, h)) as Href by (intros; split; [done|by left]).
  unfold complete. apply wp_bind, wp_exec. destruct (negb _); [by apply wp_throw|].
  wp_task.
  destruct (terminal_result (task_state t0)) eqn:Hterm; [by apply wp_throw|].
  destruct (get (tasks x) i) as [t|] eqn:Hi; [|by apply wp_throw]. simpl.
  destruct (task_state t) as [| |live node| | | |] eqn:Hs; try (by apply wp_throw).
  destruct (N.eqb_spec live k) as [->|]; [|by apply wp_throw].
  assert (is_pending x i k = true) as Hp.
  { unfold is_pending, root_result. rewrite H0. simpl. rewrite Hterm, Hi. simpl. rewrite Hs.
    apply N.eqb_refl. }
  assert (used t /\ leaf t) as [Hu Hl] by (unfold used, leaf; by rewrite Hs).
  destruct (wf_focus i t x Hw Hi Hu Hl) as [ks Hwt].
  apply wp_bind, wp_event_control; [|done]. intros c h1.
  apply wp_bind. eapply wp_keep_control; [done|]. intros t' x' h' Hw' Hl' Href'.
  eapply wp_mono with (Q := fun _ => accepted i x) (R := fun _ => refused i x);
    [|by intros [] s ?|done].
  destruct event as [r|ctx|entry v].
  - by eapply wp_accept_result.
  - by eapply wp_enter_scope.
  - by eapply wp_enter_continuation.
Qed.
End completing.

(** ** Requests *)
Section requests.
Context {H V E : Type} `{!Values H V E}.
Implicit Types (x : Execution V E) (h : H) (t : Task V E) (image : ProgramImage V E).

(** A request is made by a task that then waits at an instruction of the image. *)
Definition made_by image (a : option (Advance V E)) (s : machine (H := H)) : Prop :=
  match a with
  | Some (ARequest q) => exists t n,
      get (tasks (fst s)) (request_task q) = Some t /\
      task_state t = SWaiting (request_ticket q) n /\ is_Some (get (nodes image) n) /\
      request_cleanup q = (0 <? task_cleaning t)
  | _ => True
  end.

Lemma wlp_none {X A} image (c : comp (machine (H := H)) X A) s :
  wlp (c ;;; ret None) (made_by image) (fun _ _ => True) s.
Proof. by apply wlp_any. Qed.

Lemma wlp_issue_made image i pc import position v s :
  is_Some (get (nodes image) pc) -> wlp (issue i pc import position v) (made_by image) (fun _ _ => True) s.
Proof.
  intros Hn. unfold issue. apply wlp_any. intros x s1. apply wlp_any. intros tick s2. apply wlp_any.
  intros [] [x3 h3]. unfold wlp, set_state, update_task, task_at, bind, exec, gets. simpl.
  destruct (get (tasks x3) i) as [t|] eqn:Hi; simpl; [|done].
  rewrite get_upd_eq by (by eapply get_Some_lt). simpl. do 2 eexists.
  rewrite get_upd_eq by (by eapply get_Some_lt). done.
Qed.

Lemma wlp_execute_made image i pc n v s :
  is_Some (get (nodes image) pc) -> wlp (execute i pc n v image) (made_by image) (fun _ _ => True) s.
Proof.
  intros Hn. unfold execute. destruct (node_kind n);
    repeat ((by apply wlp_issue_made) || apply wlp_none || case_match || (apply wlp_any; intros) || done).
Qed.

Lemma wlp_transition_made image i s :
  wlp (transition i image) (made_by image) (fun _ _ => True) s.
Proof.
  unfold transition. apply wlp_any. intros t s1. apply wlp_any. intros [] s2.
  destruct (task_state t); try apply wlp_none.
  - unfold transition_ready. apply wlp_any. intros t1 s3. apply wlp_bind, wlp_lift_result; [|done].
    intros n Hn. do 3 (apply wlp_any; intros). apply wlp_execute_made. unfold node_at, ok_or in Hn. by destruct (get (nodes image) _).
  - unfold transition_joining, settle_join.
    repeat (apply wlp_none || (apply wlp_any; intros) || case_match || done).
  - unfold transition_returning, unwind.
    repeat (apply wlp_none || (apply wlp_any; intros) || case_match || done).
Qed.

Lemma wlp_turn_made image s : wlp (turn image) (made_by image) (fun _ _ => True) s.
Proof.
  unfold turn. apply wlp_any. intros t s1. case_match; [done|].
  do 4 (apply wlp_any; intros). case_match; try done. apply wlp_any. intros [r|] s2; [done|].
  do 2 (apply wlp_any; intros). apply wlp_bind, wlp_attempt.
  eapply wlp_mono; [apply wlp_transition_made|done|]. intros f s3 _.
  do 2 (apply wlp_any; intros). apply wlp_none.
Qed.
End requests.

(** ** Creating, growing and clearing an execution *)
Section storage.
Context {V E : Type}.
Implicit Types (x : Execution V E) (t : Task V E) (image : ProgramImage V E).

(** The widths of the fields of [ExecutionLimits] and of a slice's length. *)
Definition sizes_ok (lim : ExecutionLimits) (bs : list (option V)) : Prop :=
  limit_cleanup_steps lim <= u64_max /\ len bs <= usize_max.

(** A table whose only used task is the root. *)
Definition single (n : nat) t : list (Task V E) := upd (replicate n default_task) 0 t.

Lemma single_cases n t i u : (0 < n)%nat -> get (single n t) i = Some u ->
  i = 0 /\ u = t \/ i <> 0 /\ u = default_task.
Proof.
  intros Hn Hi. apply get_upd_inv in Hi as [[-> ->]|[Hne Hi]]; [by left| |].
  - right. split; [done|]. rewrite get_lookup in Hi. by apply lookup_replicate in Hi as [-> _].
  - unfold len. rewrite length_replicate. lia.
Qed.

Lemma single_len n t : len (single n t) = N.of_nat n.
Proof. unfold single. rewrite len_upd. unfold len. by rewrite length_replicate. Qed.

Lemma tree_single n t :
  used t -> leaf t -> task_parent t = None -> (0 < n)%nat -> ~ is_halted t -> tree (single n t).
Proof.
  intros Hu Hl Hp Hn Hh.
  pose proof (fun i u => single_cases n t i u Hn) as Hcase. unfold leaf in Hl. split.
  - exists t. split_and!; [|done|done]. apply get_upd_eq. unfold len.
    rewrite length_replicate. lia.
  - intros i u [[-> ->]|[_ ->]]%Hcase Hs; done.
  - intros i u [[-> ->]|[_ ->]]%Hcase Hs; done.
  - intros i u j [[-> ->]|[_ ->]]%Hcase Hj; [congruence|done].
  - exists (fun _ => 0%nat). intros i u p [[-> ->]|[_ ->]]%Hcase Hpu; [congruence|done].
  - intros i u [[-> ->]|[_ ->]]%Hcase Hs; done.
Qed.

Lemma fmap_const_replicate {A B} (l : list A) (b : B) : (fun _ => b) <$> l = replicate (length l) b.
Proof. induction l; csimpl; by f_equal. Qed.

(** The execution [new] creates. *)
Definition fresh image (n : nat) (fs : list (option (Frame V E))) (bs : list (option V))
    (lim : ExecutionLimits) (input : V) (context : N) : Execution V E :=
  mkExec (single n (mkTask SReady (entry image) (Some input) default_stack context None 0 false))
    (pool_new fs) ((fun _ => None) <$> bs) lim 0 0 0 0 false (image_id image).

Lemma wf_fresh image n fs bs lim input context :
  0 < N.of_nat n <= u32_max -> len fs <= u32_max ->
  N.of_nat n * bindings_per_task lim <= len bs -> sizes_ok lim bs ->
  wf (fresh image n fs bs lim input context).
Proof.
  intros [Hpos Hts] Hfs Hbs [Hclean Hlen]. set (t := mkTask SReady (entry image) (Some input)
    default_stack context None 0 false : Task V E).
  assert (0 < n)%nat as Hn by lia. pose proof (fun i u => single_cases n t i u Hn) as Hcase.
  exists (replicate n []). split.
  - split; unfold rows_ok; simpl; fold t; rewrite ?single_len, ?len_fmap; try done.
    + unfold single. rewrite upd_fmap, fmap_replicate. simpl. rewrite upd_id.
      * by apply pool_new_spec.
      * rewrite get_lookup. apply lookup_replicate. split; [done|lia].
    + apply tree_single; try done; by intros [].
    + split.
      * by intros i u [[-> ->]|[_ ->]]%Hcase k m Hs.
      * by intros i1 i2 u1 u2 k n1 n2 [[-> ->]|[_ ->]]%Hcase _ Hs.
    + by intros i u [[-> ->]|[_ ->]]%Hcase Hu.
    + apply Forall_replicate. constructor.
    + apply Forall_replicate. unfold len. simpl. lia.
  - intros i u l [[-> ->]|[_ ->]]%Hcase Hu Hl; [|done].
    rewrite get_lookup in Hl. by apply lookup_replicate in Hl as [-> _].
Qed.

Lemma new_fresh image (ts : list (Task V E)) fs bs lim input context x :
  new image ts fs bs lim input context = Ok x ->
  x = fresh image (length ts) fs bs lim input context /\ validate image = Ok tt /\
  0 < len ts <= u32_max /\ len fs <= u32_max /\ image_bindings image <= bindings_per_task lim /\
  len ts * bindings_per_task lim <= len bs.
Proof.
  unfold new. destruct (validate image) as [[]|]; [|done].
  destruct ((len ts =? 0) || _) eqn:Ht; [done|].
  destruct (u32_max <? len fs) eqn:Hf; [done|].
  destruct (_ || (len bs / len ts <? _)) eqn:Hb; [done|]. intros [= <-].
  apply orb_false_iff in Ht as [Hz%N.eqb_neq Hm%N.ltb_ge].
  apply orb_false_iff in Hb as [Hi%N.ltb_ge Hr%N.ltb_ge]. apply N.ltb_ge in Hf.
  split_and!; try done; try lia.
  - unfold fresh, single. by rewrite fmap_const_replicate.
  - pose proof (N.Div0.mul_div_le (len bs) (len ts)). nia.
Qed.

(** Appending unused slots to the task table. *)
Lemma tree_grow (ts : list (Task V E)) n : tree ts -> tree (ts ++ replicate n default_task).
Proof.
  intros Ht.
  assert (forall i u, get (ts ++ replicate n default_task) i = Some u ->
    get ts i = Some u \/ u = default_task) as Hcase.
  { intros i u [?|[_ ->]]%get_app_replicate; auto. }
  split.
  - destruct (tree_root _ Ht) as (t & ? & ? & ?). exists t. split; [by apply get_app_l|done].
  - intros i u [Hi| ->]%Hcase Hs; [|done]. exact (tree_free _ Ht _ _ Hi Hs).
  - intros i u [Hi| ->]%Hcase Hu Hi0; [|done].
    destruct (tree_parent _ Ht i u Hi Hu Hi0) as (p & tp & j & ? & ? & ? & ?).
    exists p, tp, j. split_and!; try done. by apply get_app_l.
  - intros i u j [Hi| ->]%Hcase Hj; [|done].
    destruct (tree_join _ Ht i u j Hi Hj) as [? Hch]. split; [done|]. intros c Hc.
    destruct (Hch c Hc) as (tc & ? & ? & ?). exists tc. split; [by apply get_app_l|done].
  - destruct (tree_acyclic _ Ht) as [rank Hrank]. exists rank.
    intros i u p [Hi| ->]%Hcase Hp; [eauto|done].
  - intros i u [Hi| ->]%Hcase Hh; [|done]. by apply (tree_halted _ Ht i u).
Qed.

(** The storage a host may resume with: the same slots, more of them, wider limits. *)
Definition grown x (n m : nat) (lim : ExecutionLimits) (bs : list (option V)) : Execution V E :=
  mkExec (tasks x ++ replicate n default_task)
    (mkPool (slots (frames x) ++ replicate m None) (meta (frames x))) bs lim
    (steps x) (cleanup_steps x) (ticket x) (cursor x) (aborting x) (exec_image_id x).

Definition wider (lim lim' : ExecutionLimits) : Prop :=
  frames_per_task lim <= frames_per_task lim' /\ bindings_per_task lim <= bindings_per_task lim' /\
  limit_cleanup_steps lim' <= u64_max.

Lemma wf_grown x n m lim bs :
  wf x -> wider (limits x) lim ->
  len (tasks x) + N.of_nat n <= u32_max ->
  len (slots (frames x)) + N.of_nat m <= u32_max ->
  (len (tasks x) + N.of_nat n) * bindings_per_task lim <= len bs -> len bs <= usize_max ->
  wf (grown x n m lim bs).
Proof.
  intros (ks & Hcore & Hclean) (Hfr & Hbi & Hcl) Hts Hfs Hrows Hbs.
  assert (forall i u, get (tasks x ++ replicate n default_task) i = Some u ->
    get (tasks x) i = Some u \/ u = default_task) as Hcase.
  { intros i u [?|[_ ->]]%get_app_replicate; auto. }
  assert (len ks = len (tasks x)) as Hks.
  { unfold len. by rewrite (stacks_length _ _ _ (core_pool _ _ Hcore)), length_fmap. }
  pose proof (core_input _ _ Hcore) as Hin. pose proof (core_tree _ _ Hcore) as Ht.
  pose proof (core_frames _ _ Hcore) as Hframes. pose proof (core_depth _ _ Hcore) as Hdepth.
  exists (ks ++ replicate n []). split.
  - destruct Hcore. split; unfold rows_ok; simpl; rewrite ?len_app_replicate; try done; try lia.
    + rewrite fmap_app, fmap_replicate. apply pool_grow; [done|]. by rewrite len_app_replicate.
    + by apply tree_grow.
    + eapply tickets_sub; [done|]. intros j u k r [Hj| ->]%Hcase Hs; [|done]. by exists u.
    + intros i u [Hi| ->]%Hcase Hu; [by eauto|done].
    + apply Forall_app. split; [|apply Forall_replicate; constructor].
      eapply Forall_impl; [|exact Hframes]. intros l Hl. eapply Forall_impl; [|exact Hl].
      intros k. unfold frame_ok. destruct k; try done. lia.
    + apply Forall_app. split; [|apply Forall_replicate; unfold len; simpl; lia].
      eapply Forall_impl; [|exact Hdepth]. simpl. intros. lia.
  - intros i u l [Hi| ->]%Hcase Hu Hl; [|done].
    rewrite (Hclean i u l Hi Hu).
    + f_equal. unfold inherited. destruct (task_parent u) as [p|] eqn:Hp; [|done].
      destruct (parent_used _ _ _ _ Ht Hi Hp) as (tp & Hgp & _). simpl.
      by rewrite Hgp, (get_app_l _ _ _ _ Hgp).
    + apply get_app_replicate in Hl as [Hl|[Hge _]]; [done|].
      apply get_Some_lt in Hi. lia.
Qed.

(** A host may change the public [limits] of the metadata it holds. *)
Definition with_susp_limits (m : SuspendedExecution) (lim : ExecutionLimits) : SuspendedExecution :=
  mkSuspended (task_count m) (frame_count m) (susp_image_id m) lim (frame_pool m) (susp_steps m)
    (susp_cleanup_steps m) (susp_ticket m) (susp_cursor m) (susp_aborting m).

(** Resuming in place or in larger storage. *)
Lemma resume_grown image x n m lim bs :
  wf x -> image_id image = exec_image_id x ->
  image_bindings image <= bindings_per_task lim ->
  len (tasks x) + N.of_nat n <= u32_max ->
  len (slots (frames x)) + N.of_nat m <= u32_max ->
  (len (tasks x) + N.of_nat n) * bindings_per_task lim <= len bs ->
  resume image (with_susp_limits (suspend x) lim) (tasks x ++ replicate n default_task)
    (slots (frames x) ++ replicate m None) bs = Some (Ok (grown x n m lim bs)).
Proof.
  intros (ks & Hcore & _) Hid Hb Ht Hf Hr. pose proof (core_tasks _ _ Hcore) as [Hpos _].
  unfold resume. rewrite bool_decide_true by done. cbn [negb].
  rewrite !len_app_replicate. simpl.
  rewrite (proj2 (N.ltb_ge (len (tasks x) + _) _)), (proj2 (N.ltb_ge u32_max _)) by lia. simpl.
  rewrite (proj2 (N.ltb_ge (len (slots (frames x)) + _) _)), (proj2 (N.ltb_ge u32_max _)) by lia.
  simpl. rewrite (proj2 (N.ltb_ge (bindings_per_task lim) _)) by done.
  rewrite (proj2 (N.eqb_neq _ 0)) by lia. rewrite (proj2 (N.ltb_ge (_ / _) _)); [done|].
  apply N.div_le_lower_bound; lia.
Qed.
End storage.

Section clearing.
Context {H V E : Type} `{!Values H V E}.
Implicit Types (x : Execution V E) (h : H).

(** Slot [n] of the table is one of [first .. last] in the row of a task below [k]. *)
Definition in_columns (bpt first last k n : N) : Prop :=
  exists task, task < k /\ task * bpt + first <= n < task * bpt + last.

Lemma wp_clear_rows first last x h :
  rows_ok x -> first <= last -> last <= bindings_per_task (limits x) ->
  wp (for_each (range (len (tasks x))) (fun task =>
        for_each (range_from first (N.to_nat (last - first))) (fun slot =>
          write_binding task slot None)))
    (fun _ s => exists bs, s = (with_bindings x bs, h) /\
       emptied (in_columns (bindings_per_task (limits x)) first last (len (tasks x)))
         (bindings x) bs)
    (fun _ : Fault => fun _ => False) (x, h).
Proof.
  intros Hrows Hle Hmax. set (bpt := bindings_per_task (limits x)) in *.
  apply (wp_for_range (len (tasks x)) _ (fun k s => exists bs, s = (with_bindings x bs, h) /\
    emptied (in_columns bpt first last k) (bindings x) bs)).
  - intros k s Hk (bs & -> & Hlen & Hget).
    apply wp_empty_row; simpl.
    + destruct Hrows. split; simpl; by rewrite Hlen.
    + done.
    + fold bpt. lia.
    + intros bs' [Hlen' Hget']. exists bs'. split; [done|]. split; [by rewrite Hlen'|].
      intros n. specialize (Hget n). specialize (Hget' n). rewrite Hlen in Hget'.
      destruct Hget as [Hin Hout], Hget' as [Hin' Hout']. fold bpt in Hin', Hout'.
      destruct (decide (k * bpt + first <= n < k * bpt + first + N.of_nat (N.to_nat (last - first))))
        as [Hrow|Hrow].
      * split; [intros _ Hn; by apply Hin'|]. intros Hnot. destruct Hnot. exists k. lia.
      * rewrite Hout' by done. split.
        -- intros (task & Ht & Hn) Hlt. apply Hin; [|done]. exists task.
           assert (task <> k) by (intros ->; lia). lia.
        -- intros Hnot. apply Hout. intros (task & Ht & Hn). apply Hnot. exists task. lia.
  - exists (bindings x). split; [by destruct x|]. split; [done|]. intros n.
    split; [|done]. intros (task & ? & _). lia.
Qed.

Lemma wp_clear_bindings first last x h :
  rows_ok x ->
  wp (clear_bindings first last)
    (fun _ s => exists bs, s = (with_bindings x bs, h) /\
       emptied (in_columns (bindings_per_task (limits x)) first last (len (tasks x)))
         (bindings x) bs)
    (fun f s => s = (x, h) /\ f = InvalidBinding /\
       (last < first \/ bindings_per_task (limits x) < last)) (x, h).
Proof.
  intros Hrows. unfold clear_bindings. apply wp_bind, wp_exec.
  destruct ((last <? first) || _) eqn:Hbad.
  { apply wp_throw. split_and!; [done..|]. apply orb_true_iff in Hbad as [?%N.ltb_lt|?%N.ltb_lt]; auto. }
  apply orb_false_iff in Hbad as [Hle%N.ltb_ge Hmax%N.ltb_ge].
  destruct (N.ltb_spec first last) as [Hlt|Hge].
  - eapply wp_mono; [by apply (wp_clear_rows first last)|done|done].
  - apply wp_ret. exists (bindings x). split; [by destruct x|]. split; [done|]. intros n.
    split; [|done]. intros (task & ? & ?). lia.
Qed.
End clearing.

(** ** Cleanup scopes *)
Section cleanups.
Context {H V E : Type} `{!Values H V E}.
Implicit Types (x : Execution V E) (h : H) (t : Task V E).
Implicit Types (ks : list (list (FrameKind V E))).

Lemma total_frames_le pool stacks ks :
  pool_stacks pool stacks ks -> total_frames ks <= len (slots (V := V) (E := E) pool).
Proof.
  intros (ents & free & Hrep & ->). pose proof (total_frames_ents ents) as Htot.
  unfold total_frames in *. pose proof (rep_counts _ _ _ _ Hrep). pose proof (rep_used _ _ _ _ Hrep).
  lia.
Qed.

Lemma total_frames_pop ks i k l :
  get ks i = Some (k :: l) -> total_frames (upd ks i l) + 1 = total_frames (V := V) (E := E) ks.
Proof.
  intros Hk. rewrite <- (total_frames_push (upd ks i l) i l k).
  - by rewrite upd_upd, (upd_id ks i).
  - by eauto with slices.
Qed.

(** The frame a [Finally] gives back is the one its cleanup takes. *)
Lemma wp_unwind_finally i t outcome cleanup input l image x h ks :
  wf_at i t x ks (task_cleaning t) -> get ks i = Some (FFinally cleanup input :: l) ->
  wp (unwind i outcome image)
    (fun a s => a = None /\ exists t', get (tasks (fst s)) i = Some t' /\
       task_state t' = SReady /\ task_pc t' = cleanup /\ task_input t' = Some input /\
       task_cleaning t' = task_cleaning t + 1 /\
       (exists ks', pool_stacks (frames (fst s)) (task_stack <$> tasks (fst s)) ks' /\
          get ks' i = Some (FCleaned outcome :: l)))
    (fun _ _ => False) (x, h).
Proof.
  intros Hw Hk. pose proof Hw as (Hcore & _ & Hi & _ & _).
  pose proof (total_frames_le _ _ _ (core_pool _ _ Hcore)) as Htot.
  pose proof (total_frames_pop _ _ _ _ Hk) as Hpop.
  assert (len (FFinally cleanup input :: l) <= frames_per_task (limits x)) as Hdepth.
  { pose proof (core_depth _ _ Hcore) as Hd. pose proof Hk as Hk'. rewrite get_lookup in Hk'.
    eapply Forall_lookup_1 in Hd; [|done]. done. }
  unfold unwind. apply wp_bind. eapply wp_pop; [done|done|done|].
  intros k l' x1 st1 c1 [= <- <-] _ Hc1 Hw1 Hl1. simpl in Hc1. apply wp_bind. simpl.
  apply wp_bind. eapply (wp_push i _ (FCleaned outcome) l); [exact Hw1| |done| |].
  { by eauto with slices. }
  2: { intros []. rewrite (local_limits _ _ _ Hl1), (local_slots _ _ _ Hl1).
       unfold len in *. simpl in *. lia. }
  intros x2 st2 Hw2 Hl2. pose proof Hw2 as (_ & _ & Hi2 & _ & _).
  wp_task. apply wp_bind. eapply wp_expect.
  { apply checked_add_Some. split; [done|]. simpl. pose proof (wf_at_depth _ _ _ _ _ Hw). lia. }
  apply wp_bind. eapply (wp_set_cleaning i _ (fun _ => task_cleaning (with_stack
    (with_stack t st1) st2) + 1)); [done|]. intros x3 Hw3 Hl3.
  eapply wp_start; [done|]. intros x4 (Hcore4 & _ & Hi4 & _ & _) Hl4. apply wp_ret.
  split; [done|]. eexists. split; [done|]. split_and!; try done.
  eexists. split; [apply (core_pool _ _ Hcore4)|].
  rewrite upd_upd. by eauto with slices.
Qed.

(** What a task's outcome is once it carries the influence of the task's control. *)
Definition carried t (outcome : Result V E) (h : H) : Result V E :=
  match task_input t with
  | Some control => fst (influence_result outcome control h)
  | None => outcome
  end.

(** The innermost continuation of a task is the one that [pop] takes. *)
Lemma pop_top i t k l x h ks :
  pool_stacks (frames x) (task_stack <$> tasks x) ks -> get (tasks x) i = Some t ->
  get ks i = Some (k :: l) -> exists s, pop i (x, h) = Val (Some k) s.
Proof.
  intros Hp Hi Hk. rewrite get_lookup in Hk. unfold pop. rewrite (on_stack_eval i t) by done.
  assert ((task_stack <$> tasks x) !! N.to_nat i = Some (task_stack t)) as Hst.
  { rewrite list_lookup_fmap. rewrite get_lookup in Hi. by rewrite Hi. }
  destruct (pop_spec _ _ _ _ _ _ Hp Hst Hk) as (pool' & st' & -> & _). eauto.
Qed.

(** Task [i] runs the cleanup at [cleanup] on [input], under the continuation that keeps
    the outcome [kept] of the body. *)
Definition cleaning_up (i : N) t (cleanup : N) (input : V) (kept : Result V E)
    (s : Execution V E * H) : Prop :=
  exists t', get (tasks (fst s)) i = Some t' /\ task_state t' = SReady /\ task_pc t' = cleanup /\
    task_input t' = Some input /\ task_cleaning t' = task_cleaning t + 1 /\
    exists s', pop i s = Val (Some (FCleaned kept)) s'.

Lemma wp_transition_finally i t outcome cleanup input l image x h ks :
  wf_at i t x ks (task_cleaning t) -> get ks i = Some (FFinally cleanup input :: l) ->
  task_state t = SReturning outcome ->
  wp (transition i image)
    (fun a s => a = None /\ cleaning_up i t cleanup input (carried t outcome h) s)
    (fun _ _ => False) (x, h).
Proof.
  intros Hw Hk Hs. pose proof Hw as (_ & _ & Hi & _ & _). unfold transition.
  wp_task. apply wp_bind. eapply wp_set_state; [done|done|].
  intros x1 Hw1 Hl1. rewrite Hs. unfold transition_returning. pose proof Hw1 as (_ & _ & Hi1 & _ & _).
  apply wp_bind, wp_exec, wp_bind, wp_host. intros r h1 Hr.
  assert (r = carried t outcome h) as <-.
  { unfold task_influence_result in Hr. rewrite Hi1 in Hr. unfold carried. simpl in Hr.
    destruct (task_input t); [by rewrite Hr|by injection Hr]. }
  apply wp_bind, wp_host. intros v h2 _. wp_task. simpl.
  assert (forall v h', wp (set_input i (Some v) ;;; unwind i r image)
    (fun a s => a = None /\ cleaning_up i t cleanup input r s) (fun _ _ => False) (x1, h')) as Hgo.
  { intros w h'. apply wp_bind. eapply wp_set_input; [done|]. intros x2 Hw2 Hl2.
    eapply wp_mono;
      [eapply (wp_unwind_finally i _ r cleanup input l image x2); [exact Hw2|exact Hk]| |done].
    intros a [x3 h3] (-> & t' & Ht & ? & ? & ? & ? & ks' & Hp & Hk'). split; [done|].
    exists t'. split_and!; try done. by eapply pop_top. }
  apply wp_bind. destruct (task_input t); [apply wp_host; intros ? ? _|apply wp_ret]; apply Hgo.
Qed.
End cleanups.
