(* ===== verification/MachineProps.v ===== *)
(** * What a host may rely on

    The executions a host can reach by creating one and calling its operations in any
    order, with any responses and any images of the same identity, are [reachable].
    The theorems are about those. *)

From stdpp Require Import base numbers list option relations.
From S2P Require Import Prelude Program Frame Machine Scenarios.
From S2P Require Import MachineInv MachineStep MachineJoin MachineSafe MachineHost.

Local Open Scope N_scope.
Local Open Scope comp_scope.

Section hosts.
Context {H V E : Type} `{!Values H V E}.
Implicit Types (x : Execution V E) (h : H) (s : machine (H := H) (V := V) (E := E)).
Implicit Types (image : ProgramImage V E).

(** One call of a host.  Between calls the host's own state may change, and it may
    move the execution into larger storage. *)
Inductive host_step : machine (H := H) -> machine -> Prop :=
| host_advance image fuel a s s' :
    advance image fuel s = Val a s' -> host_step s s'
| host_complete image i k event s s' :
    complete i k event image s = Val tt s' -> host_step s s'
| host_refused image i k event f s s' :
    complete i k event image s = Throw f s' -> host_step s s'
| host_cancel x h :
    host_step (x, h) (cancel x, h)
| host_clear first last s s' :
    clear_bindings first last s = Val tt s' -> host_step s s'
| host_resume image n m lim bs x x' h :
    wider (limits x) lim -> len bs <= usize_max ->
    resume image (with_susp_limits (suspend x) lim) (tasks x ++ replicate n default_task)
      (slots (frames x) ++ replicate m None) bs = Some (Ok x') ->
    host_step (x, h) (x', h)
| host_values x h h' :
    host_step (x, h) (x, h').

Inductive reachable : machine (H := H) -> Prop :=
| reach_new image ts fs bs lim input context x h :
    new image ts fs bs lim input context = Ok x -> sizes_ok lim bs -> reachable (x, h)
| reach_step s s' :
    reachable s -> host_step s s' -> reachable s'.

(** What no host step undoes. *)
Record follows x x' : Prop := {
  follows_id : exec_image_id x' = exec_image_id x;
  follows_ticket : ticket x <= ticket x';
  follows_waits : forall j k, waits (tasks x') j k -> waits (tasks x) j k \/ ticket x < k
}.

Lemma follows_refl x : follows x x.
Proof. split; auto with lia. Qed.

Lemma grows_follows x x' : grows x x' -> follows x x'.
Proof. intros []. by split. Qed.

Lemma evolves_follows x x' : evolves x x' -> follows x x'.
Proof. intros []. by split. Qed.

Lemma advance_wp image fuel x h :
  wf x ->
  wp (advance image fuel) (fun a s => wf (fst s) /\ grows x (fst s) /\
    (image_id image = exec_image_id x -> advanced x a (fst s))) (fun _ _ => False) (x, h).
Proof.
  intros Hw. unfold advance. apply wp_bind, wp_exec.
  destruct (bool_decide_reflect (image_id image = exec_image_id x)) as [Heq|Hne]; simpl.
  - eapply wp_mono; [by apply wp_turns| |done]. naive_solver.
  - apply wp_bind, wp_host. intros r h' _. apply wp_ret. split_and!; done.
Qed.

Lemma resume_inv image x n m lim bs x' :
  resume image (with_susp_limits (suspend x) lim) (tasks x ++ replicate n default_task)
    (slots (frames x) ++ replicate m None) bs = Some (Ok x') ->
  x' = grown x n m lim bs /\ len (tasks x) + N.of_nat n <= u32_max /\
  len (slots (frames x)) + N.of_nat m <= u32_max /\
  (len (tasks x) + N.of_nat n) * bindings_per_task lim <= len bs.
Proof.
  unfold resume. destruct (negb _); [done|]. rewrite !len_app_replicate. simpl.
  destruct (N.ltb_spec (len (tasks x) + N.of_nat n) (len (tasks x))); [done|].
  destruct (N.ltb_spec u32_max (len (tasks x) + N.of_nat n)); [done|].
  destruct (N.ltb_spec (len (slots (frames x)) + N.of_nat m) (len (slots (frames x)))); [done|].
  destruct (N.ltb_spec u32_max (len (slots (frames x)) + N.of_nat m)); [done|]. simpl.
  destruct (_ <? image_bindings image); [done|].
  destruct (N.eqb_spec (len (tasks x) + N.of_nat n) 0); [done|].
  destruct (N.ltb_spec (len bs / (len (tasks x) + N.of_nat n)) (bindings_per_task lim)); [done|].
  intros [= <-]. split_and!; try done.
  pose proof (N.Div0.mul_div_le (len bs) (len (tasks x) + N.of_nat n)). nia.
Qed.

Lemma waits_with_input x i t v j k :
  get (tasks x) i = Some t ->
  waits (upd (tasks x) i (with_input t (Some v))) j k -> waits (tasks x) j k.
Proof.
  intros Hi (u & n & Hj & Hs).
  apply get_upd_inv in Hj as [[-> ->]|[_ Hj]]; [by exists t, n|by exists u, n|].
  by eapply get_Some_lt.
Qed.

Lemma refused_follows i x s : refused i x s -> wf (fst s) /\ follows x (fst s).
Proof.
  intros [Hw [Eq|(t & v & Hi & Eq)]]; (split; [done|]); rewrite Eq; [apply follows_refl|].
  split; simpl; [done|lia|]. intros j k Hj. left. by eapply waits_with_input.
Qed.

Lemma waits_grown x n m lim bs j k : waits (tasks (grown x n m lim bs)) j k -> waits (tasks x) j k.
Proof. intros (u & r & [Hj|[_ ->]]%get_app_replicate & Hs); [by exists u, r|done]. Qed.

Lemma host_step_wf s s' :
  wf (fst s) -> host_step s s' -> wf (fst s') /\ follows (fst s) (fst s').
Proof.
  intros Hw Hs. destruct Hs as [image fuel a [x h] s' He|image i k event [x h] s' He
    |image i k event f [x h] s' He|x h|first last [x h] s' He|image n m lim bs x x' h Hl Hb He|x h h'];
    simpl in *.
  - destruct (wp_val _ _ _ _ _ _ (advance_wp image fuel x h Hw) He) as (? & ? & _).
    split; [done|by apply grows_follows].
  - destruct (wp_val _ _ _ _ _ _ (wp_complete i k event image x h Hw) He) as [(? & Hl & _) _].
    split; [done|]. by eapply evolves_follows, local_evolves.
  - eapply refused_follows, (wp_thrown _ _ _ _ _ _ (wp_complete i k event image x h Hw) He).
  - split; [by apply wf_cancel|]. apply grows_follows, cancel_grows.
  - pose proof Hw as (ks & Hcore & Hclean).
    destruct (wp_val _ _ _ _ _ _ (wp_clear_bindings first last x h (core_rows _ _ Hcore)) He)
      as (bs & -> & Hlen & _). simpl. split.
    + exists ks. split; [by apply wf_core_bindings|done].
    + split; simpl; auto with lia.
  - destruct (resume_inv _ _ _ _ _ _ _ He) as (-> & ? & ? & ?). split.
    + by apply wf_grown.
    + split; simpl; [done|lia|]. intros j k Hj. left. by eapply (waits_grown x n m lim bs).
  - split; [done|apply follows_refl].
Qed.

Lemma reachable_wf s : reachable s -> wf (fst s).
Proof.
  induction 1 as [image ts fs bs lim input context x h Hn Hs|s s' _ IH Hstep].
  - destruct (new_fresh _ _ _ _ _ _ _ _ Hn) as (-> & _ & ? & ? & _ & ?). simpl.
    apply wf_fresh; unfold len in *; try done; lia.
  - eapply host_step_wf; eauto.
Qed.

(** A ticket that nobody waits for any more stays retired. *)
Lemma retired_stays i k s s' :
  reachable s -> rtc host_step s s' ->
  k <= ticket (fst s) -> ~ waits (tasks (fst s)) i k ->
  reachable s' /\ exec_image_id (fst s') = exec_image_id (fst s) /\ ~ waits (tasks (fst s')) i k.
Proof.
  intros Hr Hsteps. induction Hsteps as [s|s s1 s2 Hstep _ IH]; intros Hk Hn; [done|].
  destruct (host_step_wf s s1 (reachable_wf _ Hr) Hstep) as [Hw1 [Hid Htk Hwt]].
  destruct IH as (? & Hid2 & ?).
  - by eapply reach_step.
  - lia.
  - intros Hw. destruct (Hwt _ _ Hw); [done|lia].
  - split_and!; [done|congruence|done].
Qed.

Lemma complete_stale i k event image s :
  reachable s -> image_id image = exec_image_id (fst s) -> ~ waits (tasks (fst s)) i k ->
  complete i k event image s = Throw StaleEvent s.
Proof.
  intros Hr Hid Hn. destruct s as [x h]. pose proof (reachable_wf _ Hr) as (ks & Hcore & _).
  simpl in *. destruct (tree_root _ (core_tree _ _ Hcore)) as (t0 & H0 & _ & _).
  assert (wp (complete i k event image) (fun _ _ => False)
    (fun f s => f = StaleEvent /\ s = (x, h)) (x, h)) as Hwp.
  { unfold complete. apply wp_bind, wp_exec. rewrite bool_decide_true by done. cbn [negb].
    wp_task.
    destruct (terminal_result (task_state t0)); [by apply wp_throw|].
    destruct (get (tasks x) i) as [t|] eqn:Hi; [|by apply wp_throw]. simpl.
    destruct (task_state t) as [| |live node| | | |] eqn:Hs; try (by apply wp_throw).
    destruct (N.eqb_spec live k) as [->|]; [|by apply wp_throw]. destruct Hn. by exists t, node. }
  unfold wp in Hwp. destruct (complete i k event image (x, h)); naive_solver.
Qed.

Lemma refused_pending i x s :
  refused i x s -> forall j k, is_pending (fst s) j k = is_pending x j k.
Proof.
  intros [_ [Eq|(t & v & Hi & Eq)]] j k; rewrite Eq; [done|].
  assert (forall n, task_state <$> get (upd (tasks x) i (with_input t (Some v))) n =
    task_state <$> get (tasks x) n) as Hst.
  { intros n. rewrite get_upd. case_decide as Hd; [|done]. destruct Hd as [-> _]. by rewrite Hi. }
  unfold is_pending, root_result. simpl. rewrite Hst. specialize (Hst 0).
  destruct (get (upd _ _ _) 0), (get (tasks x) 0); simplify_eq/=; by rewrite ?Hst.
Qed.

(** C3. Running an execution cannot crash: after any sequence of host calls on an
    execution that [Execution::new] accepted, with any responses, no call of [advance],
    [complete] or [clear_bindings] indexes out of bounds, overflows an integer, or walks the
    task tree or a frame list without end. *)
Theorem machine_never_stops s :
  reachable s ->
  (forall image fuel, exists a s', advance image fuel s = Val a s') /\
  (forall i k event image why, complete i k event image s <> Stop why) /\
  (forall first last why, clear_bindings first last s <> Stop why).
Proof.
  intros Hr. destruct s as [x h]. pose proof (reachable_wf _ Hr) as Hw. simpl in Hw. split_and!.
  - intros image fuel. destruct (wp_total _ _ _ _ (advance_wp image fuel x h Hw)) as (a & s' & ? & _).
    eauto.
  - intros i k event image why Hs. pose proof (wp_complete i k event image x h Hw) as Hc.
    unfold wp in Hc. by rewrite Hs in Hc.
  - intros first last why Hs. pose proof Hw as (ks & Hcore & _).
    pose proof (wp_clear_bindings first last x h (core_rows _ _ Hcore)) as Hc.
    unfold wp in Hc. by rewrite Hs in Hc.
Qed.

(** C4. What [advance] answers is true of the execution it leaves: a [Request] is
    pending under a ticket never issued before and its task holds the request's input; a
    [Cancel] names a pending request of a cancelled task outside cleanup; [Waiting]
    means that a task waits for the host, so there is no deadlock; [Done] is the root's
    result. An image other than the one the execution was made for leaves the execution as it
    was: the answer is [Done] with the host's error for [ImageMismatch], under the influence of all
    control that the execution retains. *)
Theorem advance_answers_truthfully x h image fuel :
  reachable (x, h) ->
  exists a s', advance image fuel (x, h) = Val a s' /\
    if decide (image_id image = exec_image_id x) then
      match a with
      | ARequest q => ticket x < request_ticket q /\
          is_pending (fst s') (request_task q) (request_ticket q) = true /\
          exists t, get (tasks (fst s')) (request_task q) = Some t /\
            task_input t = Some (request_input q)
      | ACancel i k => is_pending (fst s') i k = true /\
          exists t, get (tasks (fst s')) i = Some t /\ task_cancelled t = true /\ task_cleaning t = 0
      | AWaiting => root_result (fst s') = None /\ exists i k, waits (tasks (fst s')) i k
      | ADone r => root_result (fst s') = Some r
      | AYielded => True
      end
    else fst s' = x /\ exists control h1 e h2 r,
      exec_retain_control x h = (control, h1) /\ error ImageMismatch h1 = (e, h2) /\
      influence_result (Err e) control h2 = (r, snd s') /\ a = ADone r.
Proof.
  intros Hr. pose proof (reachable_wf _ Hr) as Hw. simpl in *.
  destruct (decide (image_id image = exec_image_id x)) as [Hid|Hid].
  - destruct (wp_total _ _ _ _ (advance_wp image fuel x h Hw)) as (a & s' & He & _ & _ & Ha).
    exists a, s'. split; [done|]. by destruct a; apply Ha.
  - unfold advance, bind, exec, gets. simpl. rewrite bool_decide_false by done. simpl.
    unfold bind, host, terminal_fault. simpl.
    destruct (exec_retain_control x h) as [control h1]. destruct (error ImageMismatch h1) as [e h2] eqn:He.
    destruct (influence_result (Err e) control h2) as [r h3] eqn:Hi.
    do 2 eexists. split; [done|]. split; [done|]. by exists control, h1, e, h2, r.
Qed.

(** C5. An execution that is being aborted, or that has a step limit, answers
    within its budgets: [advance] of its image with more fuel than ordinary and cleanup steps remain
    does not yield. *)
Theorem advance_ends_within_budget s image fuel :
  reachable s -> image_id image = exec_image_id (fst s) ->
  budgeted (fst s) -> remaining (fst s) < fuel ->
  exists a s', advance image fuel s = Val a s' /\ a <> AYielded.
Proof.
  intros Hr Hid Hb Hf. destruct s as [x h]. pose proof (reachable_wf _ Hr) as Hw. simpl in *.
  apply (wp_total _ _ (fun _ _ => False)). unfold advance. apply wp_bind, wp_exec.
  rewrite bool_decide_true by done. apply wp_turns_budget; [done|done|lia].
Qed.

(** C6. [complete] takes effect or does not: an accepted response was awaited,
    moves its task on and touches no other; a refused one leaves every pending request
    pending and changes at most the control its task retains. *)
Theorem complete_is_atomic x h i k event image :
  reachable (x, h) ->
  match complete i k event image (x, h) with
  | Val _ s' => is_pending x i k = true /\
      (forall j, j <> i -> get (tasks (fst s')) j = get (tasks x) j) /\
      (forall k', ~ waits (tasks (fst s')) i k')
  | Throw _ s' => (forall j k', is_pending (fst s') j k' = is_pending x j k') /\
      (fst s' = x \/ exists t v, get (tasks x) i = Some t /\
         fst s' = with_tasks x (upd (tasks x) i (with_input t (Some v))))
  | Stop _ => False
  end.
Proof.
  intros Hr. pose proof (wp_complete i k event image x h (reachable_wf _ Hr)) as Hc.
  unfold wp in Hc. destruct (complete i k event image (x, h)) as [u s'|f s'|why]; [| |done].
  - destruct Hc as [(_ & Hl & Hn) Hp]. split_and!; [done| |done]. apply (local_others _ _ _ Hl).
  - split; [by eapply refused_pending|]. apply Hc.
Qed.

(** C24. A ticket is used once: after a response was accepted under it, any later
    response under it is refused, whatever the host did in between, and changes nothing: as stale, or
    as a mismatch when it comes with another image. *)
Theorem ticket_used_once s s1 s2 i k event event' image image' :
  reachable s -> complete i k event image s = Val tt s1 -> rtc host_step s1 s2 ->
  complete i k event' image' s2 =
    Throw (if decide (image_id image' = exec_image_id (fst s)) then StaleEvent else ImageMismatch) s2.
Proof.
  intros Hr Hc Hsteps. destruct s as [x h]. pose proof (reachable_wf _ Hr) as Hw.
  destruct (wp_val _ _ _ _ _ _ (wp_complete i k event image x h Hw) Hc) as [(Hw1 & Hl & Hn) Hp].
  assert (k <= ticket x) as Hk.
  { unfold is_pending in Hp. destruct (root_result x); [done|].
    destruct (get (tasks x) i) as [t|] eqn:Hi; [|done]. simpl in Hp.
    destruct (task_state t) as [| |live n| | | |] eqn:Hs; try done. apply N.eqb_eq in Hp as ->.
    destruct Hw as (ks & Hcore & _). destruct (core_tickets _ _ Hcore) as [H1 _]. eauto. }
  destruct (retired_stays i k s1 s2) as (Hr2 & Hid2 & Hn2); try done.
  - eapply reach_step; [done|]. by eapply host_complete.
  - by rewrite (local_issued _ _ _ Hl).
  - rewrite (local_id _ _ _ Hl) in Hid2. simpl. rewrite <- Hid2. case_decide as Hid.
    + by apply complete_stale.
    + unfold complete, bind, exec, gets. simpl. by rewrite bool_decide_false.
Qed.

(** A finished execution stays finished: [advance] repeats the root's result,
    no response is accepted any more, [cancel] does nothing, and the execution is unchanged. *)
Theorem finished_is_stable x h r :
  root_result x = Some r ->
  cancel x = x /\
  (forall image fuel, image_id image = exec_image_id x -> 0 < fuel ->
     advance image fuel (x, h) = Val (ADone r) (x, h)) /\
  (forall i k event image, image_id image = exec_image_id x ->
     complete i k event image (x, h) = Throw StaleEvent (x, h)).
Proof.
  intros Hr. assert (exists t, get (tasks x) 0 = Some t /\ terminal_result (task_state t) = Some r)
    as (t & H0 & Ht).
  { unfold root_result in Hr. destruct (get (tasks x) 0) as [t|]; [|done]. by exists t. }
  assert (task_at (X := Fault) 0 (x, h) = Val t (x, h)) as Ha1.
  { unfold task_at, bind, exec, gets. simpl. by rewrite H0. }
  assert (task_at (X := Empty_set) 0 (x, h) = Val t (x, h)) as Ha2.
  { unfold task_at, bind, exec, gets. simpl. by rewrite H0. }
  split_and!.
  - unfold cancel. by rewrite Hr.
  - intros image fuel Hid Hf. unfold advance, bind at 1. simpl.
    rewrite bool_decide_true by done. destruct (N.to_nat fuel) as [|n] eqn:Hn; [lia|]. simpl.
    unfold turn, bind. rewrite Ha2. by rewrite Ht.
  - intros i k event image Hid. unfold complete, bind at 1. simpl.
    rewrite bool_decide_true by done. simpl. unfold bind. rewrite Ha1. by rewrite Ht.
Qed.

(** C9. A cleanup always starts: when the innermost continuation of a returning task is a
    [Finally] frame, its transition cannot run out of frames; it enters the cleanup on
    the saved input, one cleanup scope deeper, and keeps the body's outcome, with the
    influence of the task's control, in the continuation that the cleanup returns to. *)
Theorem cleanup_always_starts x h i t outcome cleanup input s1 image :
  reachable (x, h) -> get (tasks x) i = Some t -> task_state t = SReturning outcome ->
  pop i (x, h) = Val (Some (FFinally cleanup input)) s1 ->
  exists s' t', transition i image (x, h) = Val None s' /\
    get (tasks (fst s')) i = Some t' /\ task_state t' = SReady /\ task_pc t' = cleanup /\
    task_input t' = Some input /\ task_cleaning t' = task_cleaning t + 1 /\
    exists s2, pop i s' = Val (Some (FCleaned (match task_input t with
      | Some control => fst (influence_result outcome control h)
      | None => outcome
      end))) s2.
Proof.
  intros Hr Hi Hs Hp. assert (used t /\ leaf t) as [Hu Hl] by (unfold used, leaf; by rewrite Hs).
  destruct (wf_focus i t x (reachable_wf _ Hr) Hi Hu Hl) as [ks Hw].
  destruct Hw as (Hcore & Hrest) eqn:Hw'. destruct (wf_core_stack _ _ _ _ Hcore Hi) as (l & Hk & _).
  assert (wp (X := Fault) (pop i) (fun k _ => match k with Some k => exists l', l = k :: l'
    | None => l = [] end) (fun _ _ => False) (x, h)) as Hpop.
  { eapply wp_pop; [exact Hw|done|done|]. intros k l' ? ? ? -> ? ? ? ?. by exists l'. }
  destruct (wp_val _ _ _ _ _ _ Hpop Hp) as [l' ->].
  pose proof (wp_transition_finally i t outcome cleanup input l' image x h ks Hw Hk Hs) as Ht.
  unfold wp in Ht. destruct (transition i image (x, h)) as [a s'|f s'|]; [|done|done].
  destruct Ht as (-> & t' & Ht'). by exists s', t'.
Qed.

(** [cancel_tree] reaches exactly the subtree: it raises the cancellation flag of
    the task and of every task below it, and changes nothing else, in time bounded
    by the task table. *)
Theorem cancel_tree_flags_the_subtree x h root t :
  reachable (x, h) -> get (tasks x) root = Some t -> used t ->
  exists ts', cancel_tree (X := Fault) root (x, h) = Val tt (with_tasks x ts', h) /\
    len ts' = len (tasks x) /\
    forall j u, get (tasks x) j = Some u -> exists u', get ts' j = Some u' /\
      (j = root \/ below (tasks x) root j -> u' = with_cancelled u true) /\
      (~ (j = root \/ below (tasks x) root j) -> u' = u).
Proof.
  intros Hr Hi Hu. destruct (reachable_wf _ Hr) as (ks & Hcore & _). simpl in Hcore.
  assert (wp (X := Fault) (cancel_tree root) (fun _ s => exists ts', s = (with_tasks x ts', h) /\
    swept (tasks x) root (len (tasks x)) ts') (fun _ _ => False) (x, h)) as Hwp.
  { eapply wp_cancel_tree; [apply Hcore|done|done|]. eauto. }
  unfold wp in Hwp. destruct (cancel_tree root (x, h)) as [[] s'|f s'|]; [|done|done].
  destruct Hwp as (ts' & -> & Hf & Hall). exists ts'. split_and!; [done|by apply flags_len|].
  intros j u Hj. pose proof (get_Some_lt _ _ _ Hj) as Hlt.
  destruct (Hall j u Hj) as (u' & ? & Hin & Hout). exists u'. split_and!; [done|..].
  - intros [?|?]; apply Hin; auto.
  - intros Hn. apply Hout. intros [?|[_ ?]]; apply Hn; auto.
Qed.

(** The binding [slot] of task [i]. *)
Definition binding_of x (i slot : N) : option (option V) :=
  get (bindings x) (i * bindings_per_task (limits x) + slot).

Lemma row_copied_get bpt from to (bs bs' : list (option V)) slot :
  row_copied bpt from to bpt bs bs' -> slot < bpt -> get bs' (to * bpt + slot) = get bs (from * bpt + slot).
Proof.
  intros [_ Hget] Hs. rewrite Hget, decide_True by lia. f_equal. lia.
Qed.

Lemma row_copied_other bpt from to (bs bs' : list (option V)) row slot :
  row_copied bpt from to bpt bs bs' -> slot < bpt -> row <> to ->
  get bs' (row * bpt + slot) = get bs (row * bpt + slot).
Proof. intros [_ Hget] Hs Hne. rewrite Hget, decide_False; [done|]. nia. Qed.

(** [Fork] takes two free slots for children that start the two branches on the
    forking task's input, with a copy of its bindings, its context and its cleanup depth, and
    suspends it until they are joined. *)
Theorem fork_spawns_two_children x h i t input l r kind pc a s' :
  reachable (x, h) -> get (tasks x) i = Some t -> task_state t = SReady ->
  fork i pc l r kind input (x, h) = Val a s' ->
  exists left_ right_, left_ <> right_ /\
    (forall c, c = left_ \/ c = right_ -> get (tasks x) c = Some default_task) /\
    get (tasks (fst s')) left_ = Some (child i l input t) /\
    get (tasks (fst s')) right_ = Some (child i r input t) /\
    get (tasks (fst s')) i = Some (with_state t (SJoining (mkJoin left_ right_ kind pc))) /\
    (forall j, j <> left_ -> j <> right_ -> j <> i -> get (tasks (fst s')) j = get (tasks x) j) /\
    (forall c slot, c = left_ \/ c = right_ -> slot < bindings_per_task (limits x) ->
       binding_of (fst s') c slot = binding_of x i slot).
Proof.
  intros Hr Hi Hs He. assert (used t /\ leaf t) as [Hu Hl] by (unfold used, leaf; by rewrite Hs).
  destruct (wf_focus i t x (reachable_wf _ Hr) Hi Hu Hl) as [ks Hw].
  pose proof Hw as (Hcore & _). pose proof (core_tree _ _ Hcore) as Htree.
  set (bpt := bindings_per_task (limits x)).
  assert (wp (fork i pc l r kind input) (fun _ s => exists c1 c2 bs1 bs, c1 <> c2 /\
    (exists ta, get (tasks x) c1 = Some ta /\ task_state ta = SFree) /\
    (exists tb, get (tasks x) c2 = Some tb /\ task_state tb = SFree) /\
    row_copied bpt i c1 bpt (bindings x) bs1 /\ row_copied bpt i c2 bpt bs1 bs /\
    s = (with_bindings (with_tasks x (forked (tasks x) i t c1 c2 l r input kind pc)) bs, h))
    (fun _ _ => True) (x, h)) as Hwp.
  { eapply wp_fork; [done| |done]. intros c1 c2 bs1 bs ?????. by exists c1, c2, bs1, bs. }
  destruct (wp_val _ _ _ _ _ _ Hwp He) as (c1 & c2 & bs1 & bs & Hne & Hc1 & Hc2 & Hb1 & Hb2 & ->).
  simpl.
  pose proof (fork_ne x ks i t c1 c2 Hw Hc1 Hc2) as [Hn1 Hn2].
  pose proof (fork_get x ks i t c1 c2 l r input kind pc Hw Hne Hc1 Hc2) as Hget.
  exists c1, c2. split_and!.
  - done.
  - destruct Hc1 as (u1 & G1 & S1), Hc2 as (u2 & G2 & S2).
    intros c [-> | ->]; [rewrite G1|rewrite G2]; f_equal; by eapply tree_free.
  - by rewrite Hget, decide_False, decide_True by done.
  - by rewrite Hget, decide_False, decide_False, decide_True by done.
  - by rewrite Hget, decide_True by done.
  - intros j ???. by rewrite Hget, !decide_False by done.
  - intros c slot Hc Hslot. unfold binding_of. simpl. fold bpt.
    assert (get bs1 (i * bpt + slot) = get (bindings x) (i * bpt + slot)) as Ei
      by (by eapply (row_copied_other _ i c1)).
    destruct Hc as [-> | ->].
    + rewrite (row_copied_other _ _ _ _ _ _ _ Hb2) by done.
      by rewrite (row_copied_get _ _ _ _ _ _ Hb1).
    + by rewrite (row_copied_get _ _ _ _ _ _ Hb2).
Qed.

(** C12. Suspending an execution and resuming it loses nothing: in the same storage
    the resumed execution is the suspended one, and in larger storage with wider limits it
    has the same tasks, frames and counters and is again an execution that cannot crash. *)
Theorem suspend_resume_roundtrip x h image n m lim bs :
  reachable (x, h) -> image_id image = exec_image_id x ->
  (image_bindings image <= bindings_per_task (limits x) ->
   resume image (suspend x) (tasks x) (slots (frames x)) (bindings x) = Some (Ok x)) /\
  (image_bindings image <= bindings_per_task lim -> wider (limits x) lim ->
   len (tasks x) + N.of_nat n <= u32_max -> len (slots (frames x)) + N.of_nat m <= u32_max ->
   (len (tasks x) + N.of_nat n) * bindings_per_task lim <= len bs -> len bs <= usize_max ->
   let x' := grown x n m lim bs in
   resume image (with_susp_limits (suspend x) lim) (tasks x ++ replicate n default_task)
     (slots (frames x) ++ replicate m None) bs = Some (Ok x') /\ reachable (x', h)).
Proof.
  intros Hr Hid. pose proof (reachable_wf _ Hr) as Hw. simpl in Hw. split.
  - intros Hb. destruct Hw as (ks & Hcore & Hclean) eqn:Ew.
    pose proof (resume_grown image x 0 0 (limits x) (bindings x) Hw Hid Hb) as Hres.
    pose proof (core_tasks _ _ Hcore) as [_ ?].
    assert (len (slots (frames x)) <= u32_max).
    { destruct (core_pool _ _ Hcore) as (ents & free & Hrep & _). apply (rep_width _ _ _ _ Hrep). }
    destruct (core_rows _ _ Hcore) as [Hrows _].
    simpl replicate in Hres. rewrite !app_nil_r in Hres.
    assert (with_susp_limits (suspend x) (limits x) = suspend x) as Es by done. rewrite Es in Hres.
    rewrite Hres; [|rewrite N.add_0_r; lia..].
    do 2 f_equal. unfold grown. simpl replicate. rewrite !app_nil_r. by destruct x as [? [] ? ? ? ? ? ? ? ?].
  - intros Hb Hwd Ht Hf Hrows Hbs x'. pose proof (resume_grown image x n m lim bs) as Hres.
    rewrite Hres by done. split; [done|]. eapply reach_step; [exact Hr|].
    eapply (host_resume image n m lim bs); [done|done|]. by apply Hres.
Qed.

Lemma same_row b task i first last slot :
  task * b + first <= i * b + slot < task * b + last -> last <= b -> slot < b -> task = i.
Proof.
  intros [H1 H2] Hl Hs. destruct (N.lt_trichotomy task i) as [Hlt|[->|Hlt]]; [|done|].
  - assert ((task + 1) * b <= i * b) by (apply N.mul_le_mono_r; lia). lia.
  - assert ((i + 1) * b <= task * b) by (apply N.mul_le_mono_r; lia). lia.
Qed.

(** [clear_bindings] empties the given slots in the row of every task and no other
    binding; it refuses a range outside the rows and then changes nothing. *)
Theorem clear_bindings_clears_columns x h first last :
  reachable (x, h) ->
  match clear_bindings first last (x, h) with
  | Val _ s' => first <= last <= bindings_per_task (limits x) /\
      exists bs, s' = (with_bindings x bs, h) /\ len bs = len (bindings x) /\
      forall i slot, i < len (tasks x) -> slot < bindings_per_task (limits x) ->
        get bs (i * bindings_per_task (limits x) + slot) =
          if (first <=? slot) && (slot <? last) then Some None else binding_of x i slot
  | Throw f s' => f = InvalidBinding /\ s' = (x, h) /\
      ~ (first <= last <= bindings_per_task (limits x))
  | Stop _ => False
  end.
Proof.
  intros Hr. destruct (reachable_wf _ Hr) as (ks & Hcore & _). simpl in Hcore.
  pose proof (core_rows _ _ Hcore) as Hrows.
  pose proof (wp_clear_bindings first last x h Hrows) as Hc. unfold wp in Hc.
  assert (forall u s', clear_bindings first last (x, h) = Val u s' ->
    first <= last <= bindings_per_task (limits x)) as Hval.
  { intros u s' Hv. unfold clear_bindings, bind, exec, gets in Hv. simpl in Hv.
    destruct ((last <? first) || _) eqn:Hbad; [done|].
    apply orb_false_iff in Hbad as [?%N.ltb_ge ?%N.ltb_ge]. done. }
  destruct (clear_bindings first last (x, h)) as [u s'|f s'|] eqn:He; [| |done].
  - destruct (Hval _ _ eq_refl) as [Hfl Hlb]. split; [done|]. destruct Hc as (bs & -> & Hlen & Hget). exists bs. split_and!; try done.
    intros i slot Hi Hs. destruct (Hget (i * bindings_per_task (limits x) + slot)) as [Hin Hout].
    destruct (N.leb_spec first slot), (N.ltb_spec slot last); simpl.
    + apply Hin; [exists i; lia|]. by apply row_index.
    + apply Hout. intros (task & Ht & Hn). pose proof (same_row _ _ _ _ _ _ Hn Hlb Hs). subst. lia.
    + apply Hout. intros (task & Ht & Hn). pose proof (same_row _ _ _ _ _ _ Hn Hlb Hs). subst. lia.
    + apply Hout. intros (task & Ht & Hn). pose proof (same_row _ _ _ _ _ _ Hn Hlb Hs). subst. lia.
  - destruct Hc as (-> & -> & Hbad). split_and!; [done|done|lia].
Qed.

(** A finished root leaves no task behind: when the root is done (and was not
    halted while aborting), every other slot is free again. *)
Theorem done_root_frees_all_tasks x h t r :
  reachable (x, h) -> get (tasks x) 0 = Some t -> task_state t = SDone r ->
  forall i u, get (tasks x) i = Some u -> i <> 0 -> u = default_task.
Proof.
  intros Hr H0 Hs. destruct (reachable_wf _ Hr) as (ks & Hcore & _). simpl in Hcore.
  pose proof (core_tree _ _ Hcore) as Ht. destruct (tree_acyclic _ Ht) as [rank Hrank].
  assert (forall n i u, (rank i < n)%nat -> get (tasks x) i = Some u -> used u -> i = 0) as Hno.
  { induction n as [|n IH]; intros i u Hn Hi Hu; [lia|].
    destruct (decide (i = 0)) as [|Hi0]; [done|].
    destruct (tree_parent _ Ht i u Hi Hu Hi0) as (p & tp & j & Hp & Hgp & Hj & _).
    pose proof (Hrank _ _ _ Hi Hp). assert (used tp) as Hup by (intros E0; by rewrite E0 in Hj).
    assert (p = 0) as -> by (eapply (IH p tp); [lia|done|done]).
    assert (tp = t) as -> by congruence. by rewrite Hs in Hj. }
  intros i u Hi Hi0. apply (tree_free _ Ht i u Hi).
  destruct (task_state u) eqn:Hu; try done; destruct Hi0; apply (Hno (S (rank i)) i u);
    try lia; try done; unfold used; by rewrite Hu.
Qed.
End hosts.

(** ** Witnesses

    Programs of [Scenarios] on the [Numbers] host. *)

Definition demo_execution (ns : list (Node Z Fault)) : Execution Z Fault :=
  fresh (demo_image ns) 5 (replicate 64 None) (replicate 10 None) demo_limits 0%Z 7.

Lemma demo_reachable ns :
  validate (demo_image ns) = Ok tt -> reachable (demo_execution ns, tt).
Proof.
  intros Hv. apply (reach_new (demo_image ns) (replicate 5 default_task) (replicate 64 None)
    (replicate 10 None) demo_limits 0%Z 7).
  - unfold new. rewrite Hv. reflexivity.
  - split; vm_compute; discriminate.
Qed.

(** The state a computation leaves. *)
Definition left_by {S X A} (c : comp S X A) (s : S) : S :=
  match c s with Val _ s' | Throw _ s' => s' | Stop _ => s end.

Definition loop_image : ProgramImage Z Fault := demo_image (loop_nodes 20).
Definition loop_requested : Execution Z Fault :=
  fst (left_by (advance loop_image 9) (demo_execution (loop_nodes 20), tt)).

Lemma loop_requested_reachable : reachable (loop_requested, tt).
Proof.
  eapply reach_step; [apply (demo_reachable (loop_nodes 20)); reflexivity|].
  eapply (host_advance loop_image 9). vm_compute. reflexivity.
Qed.

Definition finally_image : ProgramImage Z Fault := demo_image finally_nodes.
Definition finally_returning : Execution Z Fault :=
  fst (left_by (advance finally_image 2) (demo_execution finally_nodes, tt)).

Lemma finally_returning_reachable : reachable (finally_returning, tt).
Proof.
  eapply reach_step; [apply (demo_reachable finally_nodes); reflexivity|].
  eapply (host_advance finally_image 2). vm_compute. reflexivity.
Qed.

Lemma machine_never_stops_witness :
  exists a s', advance loop_image 31 (demo_execution (loop_nodes 20), tt) = Val a s'.
Proof.
  apply (machine_never_stops (demo_execution (loop_nodes 20), tt)).
  apply demo_reachable. reflexivity.
Defined.

Lemma advance_answers_truthfully_witness :
  exists a s', advance loop_image 31 (loop_requested, tt) = Val a s' /\
    match a with
    | AWaiting => root_result (fst s') = None /\ exists i k, waits (tasks (fst s')) i k
    | _ => False
    end.
Proof.
  destruct (advance_answers_truthfully loop_requested tt loop_image 31) as (a & s' & He & Ha).
  - exact loop_requested_reachable.
  - exists a, s'. split; [exact He|]. rewrite decide_True in Ha by (vm_compute; reflexivity).
    vm_compute in He. injection He as <- _. exact Ha.
Defined.

Lemma advance_ends_within_budget_witness :
  exists a s', advance loop_image 5000 (cancel (demo_execution (loop_nodes 20)), tt) = Val a s' /\
    a <> AYielded.
Proof.
  apply (advance_ends_within_budget (cancel (demo_execution (loop_nodes 20)), tt)).
  - eapply reach_step; [apply (demo_reachable (loop_nodes 20)); reflexivity|]. apply host_cancel.
  - reflexivity.
  - left. reflexivity.
  - vm_compute. reflexivity.
Defined.

Lemma complete_is_atomic_witness :
  is_pending loop_requested 0 1 = true.
Proof.
  pose proof (complete_is_atomic loop_requested tt 0 1 (HComplete (Ok 1%Z)) loop_image
    loop_requested_reachable) as Hc.
  assert (exists s', complete 0 1 (HComplete (Ok 1%Z)) loop_image (loop_requested, tt) =
    Val tt s') as [s' He] by (eexists; vm_compute; reflexivity).
  rewrite He in Hc. apply Hc.
Defined.

Definition loop_completed : Execution Z Fault :=
  fst (left_by (complete 0 1 (HComplete (Ok 1%Z)) loop_image) (loop_requested, tt)).

Lemma ticket_used_once_witness :
  complete 0 1 (HComplete (Ok 0%Z)) loop_image (loop_completed, tt) =
  Throw StaleEvent (loop_completed, tt).
Proof.
  rewrite (ticket_used_once (loop_requested, tt) (loop_completed, tt) (loop_completed, tt) 0 1
    (HComplete (Ok 1%Z)) (HComplete (Ok 0%Z)) loop_image loop_image).
  - vm_compute. reflexivity.
  - exact loop_requested_reachable.
  - vm_compute. reflexivity.
  - apply rtc_refl.
Defined.

Lemma cleanup_always_starts_witness :
  exists s' t', transition 0 finally_image (finally_returning, tt) = Val None s' /\
    get (tasks (fst s')) 0 = Some t' /\ task_state t' = SReady /\ task_pc t' = 2 /\
    task_input t' = Some 0%Z /\ task_cleaning t' = 1 /\
    exists s2, pop 0 s' = Val (Some (FCleaned (Err TypeFault))) s2.
Proof.
  assert (exists t s1, get (tasks finally_returning) 0 = Some t /\
    task_state t = SReturning (Err TypeFault) /\ task_cleaning t = 0 /\ is_Some (task_input t) /\
    pop 0 (finally_returning, tt) = Val (Some (FFinally 2 0%Z)) s1) as (t & s1 & Hi & Hs & Hc & [v Hv] & Hp).
  { do 2 eexists. split_and!; [vm_compute; reflexivity..|eexists; reflexivity|vm_compute; reflexivity]. }
  destruct (cleanup_always_starts finally_returning tt 0 t (Err TypeFault) 2 0%Z s1 finally_image
    finally_returning_reachable Hi Hs Hp) as (s' & t' & He & Ht & ? & ? & ? & Hd & Hk).
  exists s', t'. rewrite Hc in Hd. rewrite Hv in Hk. auto 10.
Defined.

Definition race_image : ProgramImage Z Fault := demo_image (fork_nodes Race).

Definition forked_race : Execution Z Fault :=
  fst (left_by (advance race_image 3) (demo_execution (fork_nodes Race), tt)).

Lemma forked_race_reachable : reachable (forked_race, tt).
Proof.
  eapply reach_step; [apply (demo_reachable (fork_nodes Race)); reflexivity|].
  eapply (host_advance race_image 3). vm_compute. reflexivity.
Qed.

Lemma suspend_resume_roundtrip_witness :
  resume race_image (suspend forked_race) (tasks forked_race) (slots (frames forked_race))
    (bindings forked_race) = Some (Ok forked_race).
Proof.
  apply (suspend_resume_roundtrip forked_race tt race_image 1 1 demo_limits []).
  - exact forked_race_reachable.
  - vm_compute. reflexivity.
  - vm_compute. discriminate.
Defined.

