(* ===== verification/Authority.v ===== *)
(** * Capability handles

    [HandleTable] of crates/xolotl-core/src/authority.rs over the lifecycle rules of
    authority/slot.rs: generational handles, delegation with attenuated rights, release
    that keeps delegations alive, and revocation that invalidates every descendant.
    A table is the list of its slots; the operations are computations over it. *)

From stdpp Require Import base numbers list option relations.
From S2P Require Import Prelude.

Local Open Scope N_scope.
Local Open Scope comp_scope.

(** ** Slots *)

Record HandleKey : Type := mkKey { key_slot : N; key_generation : N }.

#[export] Instance HandleKey_eq_dec : EqDecision HandleKey.
Proof. solve_decision. Defined.

Inductive AuthorityError : Type := Capacity | Stale | Owner | Rights.

Inductive SlotState : Type := Vacant | Active | Released.

#[export] Instance SlotState_eq_dec : EqDecision SlotState.
Proof. solve_decision. Defined.

Record HandleSlot : Type := mkSlot {
  slot_generation : N;
  slot_state : SlotState;
  slot_parent : option HandleKey;
  slot_children : N
}.

Inductive HandleSlotChange : Type :=
| Unchanged
| Retained
| Reclaimed (parent : option HandleKey).

(** [HandleSlot::vacant]; the derived default has generation 0. *)
Definition vacant (generation : N) : HandleSlot := mkSlot generation Vacant None 0.

Definition reusable (self : HandleSlot) : bool :=
  bool_decide (slot_state self = Vacant) && (slot_generation self <? u64_max).

(** [HandleSlot::install]: the generation and the slot after it. *)
Definition slot_install (self : HandleSlot) (parent : option HandleKey)
    : Result (N * HandleSlot) AuthorityError :=
  if negb (reusable self) then Err Capacity
  else if match parent with Some key => key_generation key =? 0 | None => false end then Err Stale
  else
    let generation := slot_generation self + 1 in
    Ok (generation, mkSlot generation Active parent (slot_children self)).

Definition matches (self : HandleSlot) (generation : N) : bool :=
  bool_decide (slot_state self = Active) && (slot_generation self =? generation).

Definition retains (self : HandleSlot) (generation : N) : bool :=
  negb (bool_decide (slot_state self = Vacant)) && (slot_generation self =? generation).

Definition with_children (self : HandleSlot) (n : N) : HandleSlot :=
  mkSlot (slot_generation self) (slot_state self) (slot_parent self) n.
Definition with_slot_state (self : HandleSlot) (s : SlotState) : HandleSlot :=
  mkSlot (slot_generation self) s (slot_parent self) (slot_children self).

Definition attach_child (self : HandleSlot) (generation : N) : Result HandleSlot AuthorityError :=
  if negb (matches self generation) then Err Stale
  else match checked_add usize_max (slot_children self) 1 with
       | Some n => Ok (with_children self n)
       | None => Err Capacity
       end.

(** [HandleSlot::reclaim]. *)
Definition reclaim (self : HandleSlot) : HandleSlotChange * HandleSlot :=
  (Reclaimed (slot_parent self), vacant (slot_generation self)).

Definition slot_release (self : HandleSlot) (generation : N) : HandleSlotChange * HandleSlot :=
  if negb (matches self generation) then (Unchanged, self)
  else
    let self := with_slot_state self Released in
    if slot_children self =? 0 then reclaim self else (Retained, self).

Definition slot_revoke (self : HandleSlot) (generation : N) : HandleSlotChange * HandleSlot :=
  if negb (retains self generation) then (Unchanged, self) else reclaim self.

(** [None] when [self.children -= 1] underflows. *)
Definition detach_child (self : HandleSlot) (generation : N) : option (HandleSlotChange * HandleSlot) :=
  if negb (retains self generation) || (slot_children self =? 0) then Some (Unchanged, self)
  else
    children ← checked_sub (slot_children self) 1;
    let self := with_children self children in
    if (slot_children self =? 0) && bool_decide (slot_state self = Released) then Some (reclaim self)
    else Some (Retained, self).

(** The [while let Some(key) = parent] loop of [HandleSlot::validate]. *)
Fixpoint validate_chain (remaining : nat) (lookup : HandleKey -> option HandleSlot)
    (parent : option HandleKey) : Result unit AuthorityError :=
  match parent with
  | None => Ok tt
  | Some key =>
      match remaining with
      | O => Err Stale
      | S remaining =>
          match lookup key with
          | None => Err Stale
          | Some ancestor =>
              if negb (retains ancestor (key_generation key)) then Err Stale
              else validate_chain remaining lookup (slot_parent ancestor)
          end
      end
  end.

(** [HandleSlot::validate]. *)
Definition slot_validate (self : HandleSlot) (generation capacity : N)
    (lookup : HandleKey -> option HandleSlot) : Result unit AuthorityError :=
  if negb (matches self generation) then Err Stale
  else validate_chain (N.to_nat capacity) lookup (slot_parent self).

(** ** The table *)

Record Handle : Type := mkHandle {
  owner : N;
  resource : N;
  methods : N;
  handle_slot : HandleSlot
}.

(** [Handle::default]. *)
Definition default_handle : Handle := mkHandle 0 0 0 (vacant 0).

Definition with_handle_slot (self : Handle) (s : HandleSlot) : Handle :=
  mkHandle (owner self) (resource self) (methods self) s.

(** [HandleTable]: [HandleTable::new] attaches the host's slots as they are. *)
Definition HandleTable : Type := list Handle.

Definition handle_at {X} (index : N) : comp HandleTable X Handle :=
  let* slots := gets id in expect (get slots index) OutOfBounds.
Definition put_handle {X} (index : N) (h : Handle) : comp HandleTable X unit :=
  modify (fun slots => upd slots index h).

(** [self.slots.iter().enumerate().find(|(_, slot)| slot.slot.reusable())]. *)
Fixpoint find_reusable (index : N) (slots : list Handle) : option (N * Handle) :=
  match slots with
  | [] => None
  | h :: slots' =>
      if reusable (handle_slot h) then Some (index, h) else find_reusable (index + 1) slots'
  end.

(** [HandleTable::install_with_parent]. *)
Definition install_with_parent (owner resource methods : N) (parent : option HandleKey)
    : comp HandleTable AuthorityError HandleKey :=
  let* slots := gets id in
  let* (index, h) := require (find_reusable 0 slots) Capacity in
  if u32_max <? index then throw Capacity
  else
    let* (generation, authority) := lift_result (slot_install (handle_slot h) parent) in
    (match parent with
     | Some parent =>
         let* p := handle_at (key_slot parent) in
         let* s := lift_result (attach_child (handle_slot p) (key_generation parent)) in
         put_handle (key_slot parent) (with_handle_slot p s)
     | None => ret tt
     end) ;;;
    put_handle index (mkHandle owner resource methods authority) ;;;
    ret (mkKey index generation).

(** [HandleTable::install]. *)
Definition install (owner resource methods : N) : comp HandleTable AuthorityError HandleKey :=
  install_with_parent owner resource methods None.

(** [HandleTable::local]. *)
Definition local (slots : HandleTable) (key : HandleKey) (o : N) : Result Handle AuthorityError :=
  match get slots (key_slot key) with
  | None => Err Stale
  | Some h =>
      if negb (retains (handle_slot h) (key_generation key)) then Err Stale
      else if negb (owner h =? o) then Err Owner
      else Ok h
  end.

Definition lookup_slot (slots : HandleTable) (key : HandleKey) : option HandleSlot :=
  handle_slot <$> get slots (key_slot key).

(** [HandleTable::get]. *)
Definition get_handle (slots : HandleTable) (key : HandleKey) (o : N)
    : Result Handle AuthorityError :=
  match get slots (key_slot key) with
  | None => Err Stale
  | Some h =>
      match slot_validate (handle_slot h) (key_generation key) (len slots) (lookup_slot slots) with
      | Err e => Err e
      | Ok _ => if negb (owner h =? o) then Err Owner else Ok h
      end
  end.

(** [HandleTable::authorize]; [1u64.checked_shl(method)] is [None] from bit 64 on. *)
Definition authorize (slots : HandleTable) (key : HandleKey) (o method : N)
    : Result N AuthorityError :=
  match get_handle slots key o with
  | Err e => Err e
  | Ok h =>
      if 64 <=? method then Err Rights
      else if N.land (methods h) (N.shiftl 1 method) =? 0 then Err Rights
      else Ok (resource h)
  end.

(** [HandleTable::derive]; [methods & !slot.methods] is the difference of the bit sets. *)
Definition derive (parent : HandleKey) (o child rights : N)
    : comp HandleTable AuthorityError HandleKey :=
  let* slots := gets id in
  let* h := lift_result (get_handle slots parent o) in
  if negb (N.ldiff rights (methods h) =? 0) then throw Rights
  else install_with_parent child (resource h) rights (Some parent).

(** [HandleTable::reclaim_ancestors]; every turn after the first vacates a slot. *)
Fixpoint reclaim_ancestors (fuel : nat) (change : HandleSlotChange)
    : comp HandleTable AuthorityError unit :=
  match change with
  | Reclaimed (Some parent) =>
      let* slots := gets id in
      match get slots (key_slot parent) with
      | None => ret tt
      | Some h =>
          match fuel with
          | O => halt Unbounded
          | S fuel =>
              let* (change, s) := expect (detach_child (handle_slot h) (key_generation parent)) Overflow in
              put_handle (key_slot parent) (with_handle_slot h s) ;;;
              reclaim_ancestors fuel change
          end
      end
  | _ => ret tt
  end.

(** [HandleTable::release] and [HandleTable::revoke]. *)
Definition release (key : HandleKey) (o : N) : comp HandleTable AuthorityError unit :=
  let* slots := gets id in
  let* h := lift_result (local slots key o) in
  let '(change, s) := slot_release (handle_slot h) (key_generation key) in
  put_handle (key_slot key) (with_handle_slot h s) ;;;
  match change with
  | Unchanged => throw Stale
  | _ => reclaim_ancestors (length slots) change
  end.

Definition revoke (key : HandleKey) (o : N) : comp HandleTable AuthorityError unit :=
  let* slots := gets id in
  let* h := lift_result (local slots key o) in
  let '(change, s) := slot_revoke (handle_slot h) (key_generation key) in
  put_handle (key_slot key) (with_handle_slot h s) ;;;
  reclaim_ancestors (length slots) change.

(** ** Invariant *)

Implicit Types (ts : HandleTable) (h : Handle) (k : HandleKey).

Definition live h : Prop := slot_state (handle_slot h) <> Vacant.
Definition key_of (i : N) h : HandleKey := mkKey i (slot_generation (handle_slot h)).

#[export] Instance live_dec h : Decision (live h).
Proof. unfold live. apply _. Defined.

(** The key names a slot that retains it. *)
Definition retained ts k : Prop :=
  exists h, get ts (key_slot k) = Some h /\ retains (handle_slot h) (key_generation k) = true.

(** [h] holds a reference to [k]. *)
Definition is_child k h : bool :=
  bool_decide (live h /\ slot_parent (handle_slot h) = Some k).

Fixpoint count ts k : N :=
  match ts with
  | [] => 0
  | h :: ts' => (if is_child k h then 1 else 0) + count ts' k
  end.

(** One attenuated delegation. *)
Definition attenuated h hp : Prop := N.ldiff (methods h) (methods hp) = 0 /\ resource h = resource hp.

(** The invariant of a table in which one reference to [debt] was just dropped. *)
Record inv_at (debt : option HandleKey) ts : Prop := {
  inv_vacant : forall i h, get ts i = Some h -> ~ live h -> handle_slot h = vacant (slot_generation (handle_slot h));
  inv_released : forall i h, get ts i = Some h -> slot_state (handle_slot h) = Released ->
    0 < slot_children (handle_slot h);
  inv_parent : forall i h p, get ts i = Some h -> live h -> slot_parent (handle_slot h) = Some p ->
    exists hp, get ts (key_slot p) = Some hp /\
      key_generation p <= slot_generation (handle_slot hp) /\
      (retains (handle_slot hp) (key_generation p) = true -> attenuated h hp);
  inv_count : forall i h, get ts i = Some h -> live h ->
    slot_children (handle_slot h) =
      count ts (key_of i h) + (if decide (debt = Some (key_of i h)) then 1 else 0);
  inv_rank : exists rank : N -> nat, forall i h p, get ts i = Some h -> live h ->
    slot_parent (handle_slot h) = Some p -> retained ts p -> (rank (key_slot p) < rank i)%nat;
  inv_width : forall i h, get ts i = Some h -> slot_generation (handle_slot h) <= u64_max;
  inv_positive : forall i h, get ts i = Some h -> live h -> 0 < slot_generation (handle_slot h)
}.

Definition inv ts : Prop := inv_at None ts.

Lemma retains_live h g : retains (handle_slot h) g = true <->
  live h /\ slot_generation (handle_slot h) = g.
Proof.
  unfold retains, live. rewrite andb_true_iff, negb_true_iff, N.eqb_eq, bool_decide_eq_false. done.
Qed.

Lemma matches_active h g : matches (handle_slot h) g = true <->
  slot_state (handle_slot h) = Active /\ slot_generation (handle_slot h) = g.
Proof. unfold matches. by rewrite andb_true_iff, N.eqb_eq, bool_decide_eq_true. Qed.

Lemma retained_key ts i h : get ts i = Some h -> live h -> retained ts (key_of i h).
Proof. intros Hi Hl. exists h. split; [done|]. by apply retains_live. Qed.

Lemma retained_inv ts k : retained ts k -> exists h, get ts (key_slot k) = Some h /\ live h /\
  k = key_of (key_slot k) h.
Proof.
  intros (h & Hi & [Hl Hg]%retains_live). exists h. split_and!; [done|done|].
  unfold key_of. rewrite Hg. by destruct k.
Qed.

(** Replacing one slot changes a count by what that slot contributes. *)
Lemma count_upd ts i h h' k :
  get ts i = Some h ->
  count (upd ts i h') k + (if is_child k h then 1 else 0) =
  count ts k + (if is_child k h' then 1 else 0).
Proof.
  rewrite get_lookup. unfold upd. generalize (N.to_nat i). clear i.
  induction ts as [|h0 ts IH]; intros [|i] Hi; simplify_eq/=; [lia|].
  specialize (IH i Hi). lia.
Qed.

Lemma count_pos ts k i h : get ts i = Some h -> is_child k h = true -> 0 < count ts k.
Proof.
  rewrite get_lookup. generalize (N.to_nat i). clear i.
  induction ts as [|h0 ts IH]; intros [|i] Hi Hc; simplify_eq/=.
  - rewrite Hc. lia.
  - specialize (IH i Hi Hc). lia.
Qed.

Lemma count_zero ts k i h :
  count ts k = 0 -> get ts i = Some h -> live h -> slot_parent (handle_slot h) <> Some k.
Proof.
  intros Hz Hi Hl Hp. assert (is_child k h = true) as Hc by (by apply bool_decide_eq_true).
  pose proof (count_pos _ _ _ _ Hi Hc). lia.
Qed.

Lemma count_le ts k : count ts k <= len ts.
Proof.
  induction ts as [|h ts IH]; [done|]. unfold len in *. simpl. destruct (is_child k h); lia.
Qed.

(** A debt to a key that is no longer retained is void. *)
Lemma inv_void p ts : inv_at (Some p) ts -> ~ retained ts p -> inv ts.
Proof.
  intros [] Hn. split; try done. intros i h Hi Hl. rewrite (inv_count0 i h Hi Hl).
  rewrite decide_False; [by rewrite decide_False|]. intros [= ->]. by apply Hn, retained_key.
Qed.

(** ** The three changes an operation makes *)

Lemma is_child_eq k h h' :
  (live h <-> live h') -> slot_parent (handle_slot h) = slot_parent (handle_slot h') ->
  is_child k h = is_child k h'.
Proof. intros Hl Hp. unfold is_child. apply bool_decide_ext. by rewrite Hl, Hp. Qed.

Lemma is_child_dead k h : ~ live h -> is_child k h = false.
Proof. intros Hl. apply bool_decide_eq_false. naive_solver. Qed.

Lemma is_child_live k h : live h ->
  is_child k h = bool_decide (slot_parent (handle_slot h) = Some k).
Proof. intros Hl. unfold is_child. apply bool_decide_ext. naive_solver. Qed.

(** A slot is vacated: its reference to its parent becomes a debt. *)
Lemma inv_vacate debt ts i h :
  inv_at debt ts -> (debt = None \/ debt = Some (key_of i h)) ->
  get ts i = Some h -> live h ->
  inv_at (slot_parent (handle_slot h))
    (upd ts i (with_handle_slot h (vacant (slot_generation (handle_slot h))))).
Proof.
  intros Hinv Hdebt Hi Hl. pose proof (get_Some_lt _ _ _ Hi) as Hlt.
  set (h' := with_handle_slot h (vacant (slot_generation (handle_slot h)))).
  assert (~ live h') as Hdead by (unfold live; simpl; naive_solver).
  assert (forall j hj, get (upd ts i h') j = Some hj -> j = i /\ hj = h' \/ j <> i /\ get ts j = Some hj)
    as Hcase by (intros; by apply get_upd_inv).
  assert (forall p, retained (upd ts i h') p -> retained ts p) as Hret.
  { intros p (hp & Hp & Hr). apply Hcase in Hp as [[_ ->]|[_ Hp]]; [|by exists hp].
    by apply retains_live in Hr as [? _]. }
  destruct Hinv. split.
  - intros j hj [[-> ->]|[_ Hj]]%Hcase Hlj; [done|by eapply inv_vacant0].
  - intros j hj [[-> ->]|[_ Hj]]%Hcase Hs; [done|by eapply inv_released0].
  - intros j hj p [[-> ->]|[Hne Hj]]%Hcase Hlj Hp; [done|].
    destruct (inv_parent0 j hj p Hj Hlj Hp) as (hp & Hgp & Hle & Hatt).
    destruct (decide (key_slot p = i)) as [Hpi|Hpi].
    + rewrite Hpi in Hgp |- *. exists h'. rewrite get_upd_eq by done. simplify_eq.
      split_and!; [done|done|]. by intros [? _]%retains_live.
    + exists hp. by rewrite get_upd_ne by done.
  - intros j hj [[-> ->]|[Hne Hj]]%Hcase Hlj; [done|]. rewrite (inv_count0 j hj Hj Hlj).
    rewrite decide_False by (destruct Hdebt as [-> | ->]; unfold key_of; congruence).
    pose proof (count_upd ts i h h' (key_of j hj) Hi) as Hc.
    rewrite (is_child_dead _ _ Hdead), (is_child_live _ h Hl) in Hc.
    destruct (decide (slot_parent (handle_slot h) = Some (key_of j hj))) as [Hd|Hd];
      [rewrite bool_decide_true in Hc by done|rewrite bool_decide_false in Hc by done]; lia.
  - destruct inv_rank0 as [rank Hrank]. exists rank.
    intros j hj p [[-> ->]|[_ Hj]]%Hcase Hlj Hp Hrp; [done|]. eauto.
  - intros j hj [[-> ->]|[_ Hj]]%Hcase; [by apply (inv_width0 i h)|by eapply inv_width0].
  - intros j hj [[-> ->]|[_ Hj]]%Hcase Hlj; [done|by eapply inv_positive0].
Qed.

(** A live slot changes its count of references or its state. *)
Lemma inv_relabel debt debt' ts i h s' :
  inv_at debt ts -> get ts i = Some h -> live h ->
  slot_generation s' = slot_generation (handle_slot h) -> slot_parent s' = slot_parent (handle_slot h) ->
  slot_state s' <> Vacant -> (slot_state s' = Released -> 0 < slot_children s') ->
  slot_children s' = count ts (key_of i h) + (if decide (debt' = Some (key_of i h)) then 1 else 0) ->
  (forall j hj, j <> i -> get ts j = Some hj -> (debt' = Some (key_of j hj) <-> debt = Some (key_of j hj))) ->
  inv_at debt' (upd ts i (with_handle_slot h s')).
Proof.
  intros Hinv Hi Hl Hg Hp Hst Hrel Hch Hdebt. pose proof (get_Some_lt _ _ _ Hi) as Hlt.
  set (h' := with_handle_slot h s').
  assert (live h') as Hl' by done.
  assert (forall j hj, get (upd ts i h') j = Some hj -> j = i /\ hj = h' \/ j <> i /\ get ts j = Some hj)
    as Hcase by (intros; by apply get_upd_inv).
  assert (forall p, retained (upd ts i h') p -> retained ts p) as Hret.
  { intros p (hp & Hgp & [Hlp Hgen]%retains_live). apply Hcase in Hgp as [[Hpi ->]|[_ Hgp]].
    - exists h. rewrite Hpi. split; [done|]. apply retains_live. split; [done|]. by rewrite <- Hgen.
    - exists hp. split; [done|]. by apply retains_live. }
  assert (forall k, count (upd ts i h') k = count ts k) as Hcnt.
  { intros k. pose proof (count_upd ts i h h' k Hi) as Hc. rewrite (is_child_eq k h h') in Hc by done. lia. }
  destruct Hinv. split.
  - intros j hj [[-> ->]|[_ Hj]]%Hcase Hlj; [done|by eapply inv_vacant0].
  - intros j hj [[-> ->]|[_ Hj]]%Hcase Hs; [by apply Hrel|by eapply inv_released0].
  - assert (forall j hj p, get ts j = Some hj -> live hj -> slot_parent (handle_slot hj) = Some p ->
      exists hp, get (upd ts i h') (key_slot p) = Some hp /\
        key_generation p <= slot_generation (handle_slot hp) /\
        (retains (handle_slot hp) (key_generation p) = true -> attenuated hj hp)) as Hpar.
    { intros j hj p Hj Hlj Hpj. destruct (inv_parent0 j hj p Hj Hlj Hpj) as (hp & Hgp & Hle & Hatt).
      destruct (decide (key_slot p = i)) as [Hpi|Hpi].
      - rewrite Hpi in Hgp |- *. simplify_eq. exists h'. rewrite get_upd_eq by done.
        split_and!; [done|by simpl; rewrite Hg|]. intros [_ Hr]%retains_live.
        apply Hatt, retains_live. split; [done|]. by rewrite <- Hr, <- Hg.
      - exists hp. by rewrite get_upd_ne by done. }
    intros j hj p [[-> ->]|[_ Hj]]%Hcase Hlj Hpj; [|by eapply Hpar].
    simpl in Hpj. rewrite Hp in Hpj. exact (Hpar i h p Hi Hl Hpj).
  - intros j hj [[-> ->]|[Hne Hj]]%Hcase Hlj; rewrite Hcnt.
    + unfold key_of in *. simpl. by rewrite Hg, Hch.
    + rewrite (inv_count0 j hj Hj Hlj). f_equal. pose proof (Hdebt j hj Hne Hj).
      repeat case_decide; naive_solver.
  - destruct inv_rank0 as [rank Hrank]. exists rank.
    intros j hj p [[-> ->]|[_ Hj]]%Hcase Hlj Hpj Hrp; [|by eauto].
    simpl in Hpj. rewrite Hp in Hpj. eauto.
  - intros j hj [[-> ->]|[_ Hj]]%Hcase; [|by eapply inv_width0]. simpl. rewrite Hg. eauto.
  - intros j hj [[-> ->]|[_ Hj]]%Hcase Hlj; [|by eapply inv_positive0]. simpl. rewrite Hg. eauto.
Qed.

Lemma count_none ts k : (forall i h, get ts i = Some h -> is_child k h = false) -> count ts k = 0.
Proof.
  induction ts as [|h ts IH]; intros Hn; [done|]. simpl. rewrite (Hn 0 h) by done.
  rewrite IH; [done|]. intros i h' Hi. apply (Hn (i + 1) h').
  rewrite get_lookup in *. by replace (N.to_nat (i + 1)) with (S (N.to_nat i)) by lia.
Qed.

(** A vacant slot is occupied by a child that settles the debt to its parent. *)
Lemma inv_occupy debt ts i h o r m :
  inv_at debt ts -> get ts i = Some h -> ~ live h -> slot_generation (handle_slot h) < u64_max ->
  (forall p, debt = Some p -> exists hp, get ts (key_slot p) = Some hp /\
     retains (handle_slot hp) (key_generation p) = true /\
     N.ldiff m (methods hp) = 0 /\ r = resource hp) ->
  inv (upd ts i (mkHandle o r m (mkSlot (slot_generation (handle_slot h) + 1) Active debt 0))).
Proof.
  intros Hinv Hi Hd Hmax Hpar. pose proof (get_Some_lt _ _ _ Hi) as Hlt.
  set (h' := mkHandle o r m (mkSlot (slot_generation (handle_slot h) + 1) Active debt 0)).
  assert (live h') as Hl' by done.
  assert (forall j hj, get (upd ts i h') j = Some hj -> j = i /\ hj = h' \/ j <> i /\ get ts j = Some hj)
    as Hcase by (intros; by apply get_upd_inv).
  assert (forall k, count (upd ts i h') k = count ts k + (if is_child k h' then 1 else 0)) as Hcnt.
  { intros k. pose proof (count_upd ts i h h' k Hi) as Hc. rewrite (is_child_dead k h Hd) in Hc. lia. }
  assert (forall p, debt = Some p -> key_slot p <> i) as Hpi.
  { intros p [hp (Hgp & [Hlp _]%retains_live & _)]%Hpar Hx. rewrite Hx in Hgp. by simplify_eq. }
  destruct Hinv.
  assert (forall j hj p, get ts j = Some hj -> live hj -> slot_parent (handle_slot hj) = Some p ->
    retained (upd ts i h') p -> retained ts p) as Hret.
  { intros j hj p Hj Hlj Hpj (hp & Hgp & [Hlp Hgen]%retains_live).
    apply Hcase in Hgp as [[Hx ->]|[_ Hgp]]; [|exists hp; split; [done|by apply retains_live]].
    destruct (inv_parent0 j hj p Hj Hlj Hpj) as (hp & Hgp & Hle & _). rewrite Hx in Hgp.
    simplify_eq/=. lia. }
  split.
  - intros j hj [[-> ->]|[_ Hj]]%Hcase Hlj; [done|by eapply inv_vacant0].
  - intros j hj [[-> ->]|[_ Hj]]%Hcase Hs; [done|by eapply inv_released0].
  - intros j hj p [[-> ->]|[Hne Hj]]%Hcase Hlj Hpj.
    + simpl in Hpj. destruct (Hpar p Hpj) as (hp & Hgp & Hr & Hm & Hres).
      exists hp. rewrite get_upd_ne by (symmetry; by apply Hpi). split_and!; [done| |done].
      apply retains_live in Hr as [_ ->]. lia.
    + destruct (inv_parent0 j hj p Hj Hlj Hpj) as (hp & Hgp & Hle & Hatt).
      destruct (decide (key_slot p = i)) as [Hx|Hx]; [|exists hp; by rewrite get_upd_ne].
      rewrite Hx in Hgp |- *. simplify_eq. exists h'. rewrite get_upd_eq by done.
      split_and!; [done|simpl; lia|]. intros [_ Hr]%retains_live. simpl in Hr. lia.
  - intros j hj [[-> ->]|[Hne Hj]]%Hcase Hlj; rewrite Hcnt, decide_False by done.
    + rewrite (is_child_live _ h' Hl'). unfold key_of. simpl.
      rewrite bool_decide_false by (intros Hx; by apply (Hpi _ Hx)).
      rewrite count_none; [done|]. intros j hj Hj. apply bool_decide_eq_false. intros [Hlj' Hpj].
      destruct (inv_parent0 j hj _ Hj Hlj' Hpj) as (hp & Hgp & Hle & _). simplify_eq/=. lia.
    + rewrite (inv_count0 j hj Hj Hlj), (is_child_live _ h' Hl'). simpl.
      destruct (decide (debt = Some (key_of j hj))) as [Hx|Hx];
        [rewrite bool_decide_true by done|rewrite bool_decide_false by done]; lia.
  - destruct inv_rank0 as [rank Hrank].
    exists (fun j => if decide (j = i) then match debt with Some p => S (rank (key_slot p)) | None => 0%nat end
            else rank j).
    intros j hj p [[-> ->]|[Hne Hj]]%Hcase Hlj Hpj Hrp.
    + simpl in Hpj. subst debt. rewrite decide_False by (by apply Hpi). rewrite decide_True by done. lia.
    + pose proof (Hret j hj p Hj Hlj Hpj Hrp) as Hrp'. rewrite (decide_False (P := j = i)) by done.
      rewrite decide_False; [by eauto|]. intros Hx.
      destruct Hrp' as (hp & Hgp & [Hlp _]%retains_live). rewrite Hx in Hgp. by simplify_eq.
  - intros j hj [[-> ->]|[_ Hj]]%Hcase; [simpl; lia|by eapply inv_width0].
  - intros j hj [[-> ->]|[_ Hj]]%Hcase Hlj; [simpl; lia|by eapply inv_positive0].
Qed.

(** ** What a handle is worth *)

(** The delegation chain from a parent reference up to a root handle, all retained. *)
Inductive chain ts : option HandleKey -> list HandleKey -> Prop :=
| chain_root : chain ts None []
| chain_link k h l : get ts (key_slot k) = Some h ->
    retains (handle_slot h) (key_generation k) = true ->
    chain ts (slot_parent (handle_slot h)) l -> chain ts (Some k) (k :: l).

(** The handle is active and so is, or was until its release, every delegator. *)
Definition valid_via ts k (l : list HandleKey) : Prop :=
  exists h, get ts (key_slot k) = Some h /\ slot_state (handle_slot h) = Active /\
    slot_generation (handle_slot h) = key_generation k /\ chain ts (slot_parent (handle_slot h)) l.

Definition valid ts k : Prop := exists l, valid_via ts k l.

Lemma chain_unique ts po l1 l2 : chain ts po l1 -> chain ts po l2 -> l1 = l2.
Proof.
  intros H1. revert l2. induction H1 as [|k h l Hk Hr _ IH]; intros l2 H2; inversion H2; simplify_eq;
    [done|]. f_equal. auto.
Qed.

Lemma chain_retained ts po l k : chain ts po l -> k ∈ l -> retained ts k.
Proof.
  induction 1 as [|k' h l Hk Hr _ IH]; [by intros ?%not_elem_of_nil|].
  intros [->|?]%elem_of_cons; [by exists h|auto].
Qed.

Lemma validate_chain_iff ts n po :
  validate_chain n (lookup_slot ts) po = Ok tt <-> exists l, chain ts po l /\ (length l <= n)%nat.
Proof.
  revert po. induction n as [|n IH]; intros [k|]; simpl.
  - split; [done|]. intros (l & Hl & Hn). inversion Hl; subst. simpl in Hn. lia.
  - split; [|done]. intros _. exists []. split; [constructor|simpl; lia].
  - unfold lookup_slot at 1. destruct (get ts (key_slot k)) as [h|] eqn:Hk; simpl.
    + destruct (retains (handle_slot h) (key_generation k)) eqn:Hr; simpl.
      * rewrite IH. split.
        -- intros (l & Hl & Hn). exists (k :: l). split; [by econstructor|simpl; lia].
        -- intros (l & Hl & Hn). inversion Hl; simplify_eq/=. eexists. split; [done|lia].
      * split; [done|]. intros (l & Hl & _). inversion Hl. congruence.
    + split; [done|]. intros (l & Hl & _). inversion Hl. congruence.
  - split; [|done]. intros _. exists []. split; [constructor|simpl; lia].
Qed.

(** Chains visit distinct slots, so the table's size bounds them. *)
Lemma chain_length ts po l :
  inv ts -> chain ts po l -> (length l <= length ts)%nat.
Proof.
  intros Hinv Hc. destruct (inv_rank _ _ Hinv) as [rank Hrank].
  assert (forall po l, chain ts po l -> NoDup (key_slot <$> l) /\
    (forall k, k ∈ l -> key_slot k < len ts) /\
    (forall p, po = Some p -> forall k, k ∈ l -> (rank (key_slot k) <= rank (key_slot p))%nat)) as Hd.
  { clear po l Hc. induction 1 as [|k h l Hk Hr Hc (IHnd & IHlt & IHr)].
    - split_and!; [apply NoDup_nil_2|by intros k ?%not_elem_of_nil|by intros p _ k ?%not_elem_of_nil].
    - pose proof (proj1 (retains_live _ _) Hr) as [Hl Hg].
      assert (forall k', k' ∈ l -> (rank (key_slot k') < rank (key_slot k))%nat) as Hlow.
      { intros k' Hk'. inversion Hc as [Hn|p hp l' Hp Hrp Hc' Hpar]; subst.
        - by apply not_elem_of_nil in Hk'.
        - assert (rank (key_slot p) < rank (key_slot k))%nat.
          { eapply (Hrank (key_slot k) h p); [done|done|done|by exists hp]. }
          specialize (IHr p (eq_sym Hpar) k' Hk'). lia. }
      split_and!.
      + csimpl. apply list.NoDup_cons. split; [|done].
        intros (k' & Hx & Hk')%list_elem_of_fmap. specialize (Hlow k' Hk'). rewrite Hx in Hlow. lia.
      + intros k' [->|Hk']%elem_of_cons; [by eapply get_Some_lt|by apply IHlt].
      + intros p [= <-] k' [->|Hk']%elem_of_cons; [done|]. specialize (Hlow k' Hk'). lia. }
  destruct (Hd po l Hc) as (Hnd & Hlt & _).
  assert (len (key_slot <$> l) <= len ts) as Hle.
  { apply pigeonhole; [done|]. intros s (k & -> & Hk)%list_elem_of_fmap. auto. }
  unfold len in Hle. rewrite length_fmap in Hle. lia.
Qed.

Lemma get_handle_iff ts k o h :
  inv ts -> get_handle ts k o = Ok h <->
  get ts (key_slot k) = Some h /\ valid ts k /\ owner h = o.
Proof.
  intros Hinv. unfold get_handle, slot_validate, valid, valid_via.
  destruct (get ts (key_slot k)) as [h0|] eqn:Hk; [|naive_solver].
  destruct (matches (handle_slot h0) (key_generation k)) eqn:Hm; simpl.
  - apply matches_active in Hm as [Ha Hg].
    pose proof (validate_chain_iff ts (N.to_nat (len ts)) (slot_parent (handle_slot h0))) as Hv.
    destruct (validate_chain _ _ _) as [[]|e].
    + destruct Hv as [(l & Hl & _) _]; [done|]. destruct (N.eqb_spec (owner h0) o); simpl; naive_solver.
    + split; [done|]. intros (Hx & (l & h1 & Hx1 & _ & _ & Hl) & _). simplify_eq.
      destruct Hv as [_ Hv]. enough (Err e = Ok tt) by done. apply Hv. exists l. split; [done|].
      pose proof (chain_length ts _ l Hinv Hl). unfold len. lia.
  - split; [done|]. intros (Hx & (l & h1 & Hx1 & Ha & Hg & _) & _). simplify_eq.
    by rewrite (proj2 (matches_active _ _) (conj Ha Hg)) in Hm.
Qed.

(** ** Releasing references *)

(** What an operation that only gives up authority keeps: active handles in the slots [A]
    stay active, and a delegator in [C] is retained as long as a delegate is. *)
Record pres (A : N -> Prop) (C : HandleKey -> Prop) ts ts' : Prop := {
  pres_len : len ts' = len ts;
  pres_get : forall i h, get ts i = Some h -> exists h', get ts' i = Some h' /\
    slot_generation (handle_slot h') = slot_generation (handle_slot h) /\
    owner h' = owner h /\ resource h' = resource h /\ methods h' = methods h /\
    (live h' -> live h /\ slot_parent (handle_slot h') = slot_parent (handle_slot h)) /\
    (A i -> slot_state (handle_slot h) = Active -> slot_state (handle_slot h') = Active);
  pres_chain : forall j hj p, get ts' j = Some hj -> live hj ->
    slot_parent (handle_slot hj) = Some p -> C p -> retained ts p -> retained ts' p
}.

Lemma get_same_len {A B} (l : list A) (l' : list B) i x :
  len l' = len l -> get l' i = Some x -> exists y, get l i = Some y.
Proof. intros Hl Hi%get_Some_lt. apply get_lt. by rewrite <- Hl. Qed.

Lemma pres_refl A C ts : pres A C ts ts.
Proof. split; [done| |done]. intros i h Hi. exists h. naive_solver. Qed.

Lemma pres_trans A1 C1 A2 C2 ts1 ts2 ts3 :
  pres A1 C1 ts1 ts2 -> pres A2 C2 ts2 ts3 ->
  pres (fun i => A1 i /\ A2 i) (fun k => C1 k /\ C2 k) ts1 ts3.
Proof.
  intros [L1 G1 P1] [L2 G2 P2]. split; [congruence|..].
  - intros i h Hi. destruct (G1 i h Hi) as (h2 & Hi2 & E1 & E2 & E3 & E4 & Hl1 & Ha1).
    destruct (G2 i h2 Hi2) as (h3 & Hi3 & F1 & F2 & F3 & F4 & Hl2 & Ha2).
    exists h3. split_and!; try congruence; [|tauto].
    intros Hl3. destruct (Hl2 Hl3) as [Hlive2 Ep2], (Hl1 (proj1 (Hl2 Hl3))) as [? Ep1].
    split; [done|congruence].
  - intros j hj p Hj Hl Hp [HC1 HC2] Hr. eapply (P2 j hj p); try done.
    destruct (get_same_len ts2 ts3 j hj L2 Hj) as [h2 Hj2].
    destruct (G2 j h2 Hj2) as (h3 & Hj3 & _ & _ & _ & _ & Hl2 & _). simplify_eq.
    destruct (Hl2 Hl) as [Hlive2 Ep]. eapply (P1 j h2 p); try done. congruence.
Qed.

Lemma pres_weaken (A A' : N -> Prop) (C C' : HandleKey -> Prop) ts ts' :
  (forall i, A' i -> A i) -> (forall k, C' k -> C k) -> pres A C ts ts' -> pres A' C' ts ts'.
Proof.
  intros HA HC [L G P]. split; [done|..].
  - intros i h Hi. destruct (G i h Hi) as (h' & ?). exists h'. naive_solver.
  - naive_solver.
Qed.

Lemma pres_vacate (C : HandleKey -> Prop) ts i h :
  get ts i = Some h -> live h ->
  (C (key_of i h) -> count ts (key_of i h) = 0) ->
  pres (fun j => j <> i \/ slot_state (handle_slot h) <> Active) C ts
    (upd ts i (with_handle_slot h (vacant (slot_generation (handle_slot h))))).
Proof.
  intros Hi Hl Hz. pose proof (get_Some_lt _ _ _ Hi) as Hlt. split; [by rewrite len_upd|..].
  - intros j hj Hj. destruct (decide (j = i)) as [->|Hne].
    + simplify_eq. eexists. rewrite get_upd_eq by done. split; [done|].
      split_and!; try done. by intros [?|?].
    + exists hj. rewrite get_upd_ne by done. naive_solver.
  - intros j hj p Hj Hlj Hp HC Hr. apply get_upd_inv in Hj as [[-> ->]|[Hne Hj]]; [done| |done].
    destruct (decide (key_slot p = i)) as [Hx|Hx].
    + destruct (retained_inv _ _ Hr) as (hp & Hgp & _ & Ep). rewrite Hx in Hgp, Ep. simplify_eq.
      by destruct (count_zero _ _ _ _ (Hz HC) Hj Hlj).
    + destruct Hr as (hp & Hgp & Hr). exists hp. by rewrite get_upd_ne.
Qed.

Lemma pres_relabel C ts i h s' :
  get ts i = Some h -> live h ->
  slot_generation s' = slot_generation (handle_slot h) -> slot_parent s' = slot_parent (handle_slot h) ->
  slot_state s' <> Vacant ->
  pres (fun j => j <> i \/ slot_state s' = slot_state (handle_slot h)) C ts
    (upd ts i (with_handle_slot h s')).
Proof.
  intros Hi Hl Hg Hp Hs. pose proof (get_Some_lt _ _ _ Hi) as Hlt. split; [by rewrite len_upd|..].
  - intros j hj Hj. destruct (decide (j = i)) as [->|Hne].
    + simplify_eq. eexists. rewrite get_upd_eq by done. split; [done|].
      split_and!; try done. intros [?|Hst] Ha; [done|]. simpl. congruence.
    + exists hj. rewrite get_upd_ne by done. naive_solver.
  - intros j hj p Hj Hlj _ _ (hp & Hgp & [Hlp Hgen]%retains_live).
    destruct (decide (key_slot p = i)) as [Hx|Hx].
    + rewrite Hx in Hgp. assert (hp = h) as -> by congruence.
      exists (with_handle_slot h s'). rewrite Hx, get_upd_eq by done.
      split; [done|]. apply retains_live. split; [done|]. simpl. congruence.
    + exists hp. rewrite get_upd_ne by done. split; [done|]. by apply retains_live.
Qed.

Fixpoint lives ts : nat :=
  match ts with
  | [] => 0
  | h :: ts' => ((if decide (live h) then 1 else 0) + lives ts')%nat
  end.

Lemma lives_le ts : (lives ts <= length ts)%nat.
Proof. induction ts as [|h ts IH]; simpl; [done|]. case_decide; lia. Qed.

Lemma lives_vacate ts i h h' :
  get ts i = Some h -> live h -> ~ live h' -> (lives (upd ts i h') + 1 = lives ts)%nat.
Proof.
  rewrite get_lookup. unfold upd. generalize (N.to_nat i). clear i.
  induction ts as [|h0 ts IH]; intros [|i] Hi Hl Hd; simplify_eq/=.
  - rewrite decide_False, decide_True by done. lia.
  - specialize (IH i Hi Hl Hd). lia.
Qed.

Lemma wp_handle_put {X} i h (Q : unit -> HandleTable -> Prop) (R : X -> HandleTable -> Prop) ts :
  Q tt (upd ts i h) -> wp (put_handle i h) Q R ts.
Proof. done. Qed.

(** Dropping a reference to [p]: released ancestors without references go, one by one. *)
Lemma wp_reclaim fuel p ts :
  inv_at (Some p) ts -> (lives ts < fuel)%nat ->
  wp (reclaim_ancestors fuel (Reclaimed (Some p)))
    (fun _ ts' => inv ts' /\ pres (fun _ => True) (fun _ => True) ts ts') (fun _ _ => False) ts.
Proof.
  revert p ts. induction fuel as [|fuel IH]; intros p ts Hinv Hf; [lia|]. simpl.
  apply wp_bind, wp_gets. unfold id. destruct (get ts (key_slot p)) as [h|] eqn:Hp.
  2: { apply wp_ret. split; [|apply pres_refl]. eapply inv_void; [done|].
       intros (hp & Hgp & _). congruence. }
  apply wp_bind. unfold detach_child. destruct (retains (handle_slot h) (key_generation p)) eqn:Hr; simpl.
  2: { apply wp_ret, wp_bind, wp_handle_put. replace (with_handle_slot h (handle_slot h)) with h by (by destruct h).
       rewrite upd_id by done. assert (inv ts).
       { eapply inv_void; [done|]. intros (hp & Hgp & Hrp). congruence. }
       destruct fuel; (apply wp_ret; split; [done|apply pres_refl]). }
  apply retains_live in Hr as [Hl Hg].
  assert (p = key_of (key_slot p) h) as Ep by (unfold key_of; rewrite Hg; by destruct p).
  pose proof (inv_count _ _ Hinv _ _ Hp Hl) as Hc. rewrite decide_True in Hc by congruence.
  destruct (N.eqb_spec (slot_children (handle_slot h)) 0) as [Hz|Hz]; [lia|].
  rewrite (proj2 (checked_sub_Some _ 1 (slot_children (handle_slot h) - 1))) by lia. simpl.
  destruct ((slot_children (handle_slot h) - 1 =? 0) &&
    bool_decide (slot_state (handle_slot h) = Released)) eqn:Hgo; simpl; apply wp_ret, wp_bind, wp_handle_put.
  - cbn [slot_parent slot_generation with_children]. apply andb_true_iff in Hgo as [Hzero%N.eqb_eq Hrel%bool_decide_eq_true].
    assert (count ts (key_of (key_slot p) h) = 0) as Hcz by lia.
    pose proof (inv_vacate _ ts (key_slot p) h Hinv (or_intror (f_equal Some Ep)) Hp Hl) as Hinv'.
    assert (pres (fun _ => True) (fun _ => True) ts (upd ts (key_slot p)
      (with_handle_slot h (vacant (slot_generation (handle_slot h)))))) as Hpres.
    { eapply pres_weaken; [| |by apply (pres_vacate (fun _ => True))]; [|done].
      intros. right. congruence. }
    destruct (slot_parent (handle_slot h)) as [q|].
    + eapply wp_mono; [apply IH; [exact Hinv'|]| |done].
      * pose proof (lives_vacate ts (key_slot p) h
          (with_handle_slot h (vacant (slot_generation (handle_slot h)))) Hp Hl) as Hlv.
        assert (lives (upd ts (key_slot p) (with_handle_slot h
          (vacant (slot_generation (handle_slot h))))) + 1 = lives ts)%nat by (apply Hlv; by intros []).
        lia.
      * intros [] ts' [? Hp']. split; [done|]. eapply pres_weaken; [| |by eapply pres_trans]; done.
    + destruct fuel; (apply wp_ret; by split).
  - assert (forall n, reclaim_ancestors n Retained = ret tt) as -> by (by intros []).
    apply wp_ret. split.
    + eapply (inv_relabel (Some p)); simpl; try done.
      * intros Hrel. apply andb_false_iff in Hgo as [?%N.eqb_neq|?%bool_decide_eq_false]; [lia|done].
      * lia.
      * intros j hj Hne Hj. split; [done|]. intros [= Ej]. rewrite Ej in Hne. by destruct Hne.
    + eapply pres_weaken; [| |by eapply (pres_relabel (fun _ => True))]; [|done]. intros. by right.
Qed.

Lemma pres_retained A C ts ts' k : pres A C ts ts' -> retained ts' k -> retained ts k.
Proof.
  intros [L G _] (h' & Hk & [Hl Hg]%retains_live).
  destruct (get_same_len ts ts' _ _ L Hk) as [h Hk0].
  destruct (G _ _ Hk0) as (h2 & Hk2 & E & _ & _ & _ & Hlive & _). simplify_eq.
  exists h. split; [done|]. apply retains_live. split; [by apply Hlive|congruence].
Qed.

Lemma local_inv ts k o h :
  local ts k o = Ok h -> get ts (key_slot k) = Some h /\ live h /\ owner h = o /\
  k = key_of (key_slot k) h.
Proof.
  unfold local. destruct (get ts (key_slot k)) as [h0|]; [|done].
  destruct (retains (handle_slot h0) (key_generation k)) eqn:Hr; [|done]. simpl.
  destruct (N.eqb_spec (owner h0) o); simpl; [|done]. intros [= <-].
  apply retains_live in Hr as [Hl Hg]. split_and!; try done. unfold key_of. rewrite Hg. by destruct k.
Qed.

(** The reference dropped by a vacated slot is settled by the loop. *)
Lemma wp_reclaim_after debt ts0 ts :
  inv_at debt ts -> (lives ts < length ts0)%nat ->
  wp (reclaim_ancestors (length ts0) (Reclaimed debt))
    (fun _ ts' => inv ts' /\ pres (fun _ => True) (fun _ => True) ts ts') (fun _ _ => False) ts.
Proof.
  intros Hinv Hf. destruct debt as [p|]; [by apply wp_reclaim|].
  destruct (length ts0); (apply wp_ret; split; [done|apply pres_refl]).
Qed.

Lemma vacated_dead ts i h : i < len ts -> ~ live h ->
  forall k, key_slot k = i -> ~ retained (upd ts i h) k.
Proof.
  intros Hlt Hd k Hk (h' & Hi & [Hl _]%retains_live). rewrite Hk, get_upd_eq in Hi by done.
  by simplify_eq.
Qed.

(** Vacating the slot of [k] and reclaiming upwards. *)
Lemma wp_vacate_and_reclaim C ts k h :
  inv ts -> get ts (key_slot k) = Some h -> live h -> k = key_of (key_slot k) h ->
  (C k -> count ts k = 0) ->
  wp (put_handle (key_slot k) (with_handle_slot h (vacant (slot_generation (handle_slot h)))) ;;;
      reclaim_ancestors (length ts) (Reclaimed (slot_parent (handle_slot h))))
    (fun _ ts' => inv ts' /\ ~ retained ts' k /\
       pres (fun i => i <> key_slot k \/ slot_state (handle_slot h) <> Active) C ts ts')
    (fun _ _ => False) ts.
Proof.
  intros Hinv Hk Hl Ek HC. apply wp_bind, wp_handle_put.
  set (h' := with_handle_slot h (vacant (slot_generation (handle_slot h)))).
  assert (~ live h') as Hd by (by intros []).
  pose proof (inv_vacate None ts (key_slot k) h Hinv (or_introl eq_refl) Hk Hl) as Hinv'.
  fold h' in Hinv'. pose proof (lives_vacate ts (key_slot k) h h' Hk Hl Hd) as Hlv.
  pose proof (lives_le ts). eapply wp_mono; [apply wp_reclaim_after; [exact Hinv'|lia]| |done].
  intros [] ts' [Hi' Hp']. split_and!; [done|..].
  - intros Hr%(pres_retained _ _ _ _ _ Hp'). revert Hr. apply vacated_dead; [by eapply get_Some_lt|done|done].
  - eapply pres_weaken; [| |eapply pres_trans; [|exact Hp']].
    3: { apply (pres_vacate C ts (key_slot k) h Hk Hl). rewrite <- Ek. exact HC. }
    + intros i Hi. by split.
    + intros k' Hk'. by split.
Qed.

Lemma wp_revoke k o ts :
  inv ts ->
  wp (revoke k o)
    (fun _ ts' => inv ts' /\ retained ts k /\ ~ retained ts' k /\
       pres (fun i => i <> key_slot k) (fun k' => k' <> k) ts ts')
    (fun e ts' => ts' = ts /\ (e = Stale \/ e = Owner)) ts.
Proof.
  intros Hinv. unfold revoke. apply wp_bind, wp_gets. unfold id. apply wp_bind, wp_lift_result.
  - intros h (Hk & Hl & Ho & Ek)%local_inv. unfold slot_revoke.
    rewrite (proj2 (retains_live h (key_generation k))).
    2: { split; [done|]. rewrite Ek. done. }
    simpl. eapply wp_mono; [apply (wp_vacate_and_reclaim (fun k' => k' <> k) ts k h); [done..|]| |done].
    { done. }
    intros [] ts' (? & ? & Hp). split_and!; try done.
    + rewrite Ek. by apply retained_key.
    + eapply pres_weaken; [| |exact Hp]; [by left|done].
  - intros e He. split; [done|]. unfold local in He. destruct (get ts (key_slot k)); [|naive_solver].
    destruct (negb _); [naive_solver|]. destruct (negb _); naive_solver.
Qed.

Lemma wp_release k o ts :
  inv ts ->
  wp (release k o)
    (fun _ ts' => inv ts' /\ (exists h', get ts' (key_slot k) = Some h' /\
         slot_state (handle_slot h') <> Active) /\
       pres (fun i => i <> key_slot k) (fun _ => True) ts ts')
    (fun e ts' => ts' = ts /\ (e = Stale \/ e = Owner)) ts.
Proof.
  intros Hinv. unfold release. apply wp_bind, wp_gets. unfold id. apply wp_bind, wp_lift_result.
  2: { intros e He. split; [done|]. unfold local in He. destruct (get ts (key_slot k)); [|naive_solver].
       destruct (negb _); [naive_solver|]. destruct (negb _); naive_solver. }
  intros h (Hk & Hl & Ho & Ek)%local_inv. pose proof (get_Some_lt _ _ _ Hk) as Hlt. unfold slot_release.
  destruct (matches (handle_slot h) (key_generation k)) eqn:Hm; simpl.
  2: { apply wp_bind, wp_handle_put, wp_throw. split; [|by left].
       replace (with_handle_slot h (handle_slot h)) with h by (by destruct h). by apply upd_id. }
  apply matches_active in Hm as [Ha Hg].
  pose proof (inv_count _ _ Hinv _ _ Hk Hl) as Hc. rewrite <- Ek, decide_False, N.add_0_r in Hc by done.
  destruct (N.eqb_spec (slot_children (handle_slot h)) 0) as [Hz|Hz]; simpl.
  - eapply wp_mono; [apply (wp_vacate_and_reclaim (fun _ => True) ts k h); try done; lia| |done].
    intros [] ts' (? & Hdead & Hp). split_and!; try done.
    + destruct (pres_get _ _ _ _ Hp _ _ Hk) as (h' & Hk' & Hg' & _). exists h'. split; [done|].
      intros Ha'. apply Hdead. exists h'. split; [done|]. apply retains_live.
      split; [unfold live; by rewrite Ha'|congruence].
    + eapply pres_weaken; [| |exact Hp]; [by left|done].
  - apply wp_bind, wp_handle_put.
    assert (forall n, reclaim_ancestors n Retained = ret tt) as -> by (by intros []).
    apply wp_ret. split_and!.
    + eapply (inv_relabel None); simpl; try done; [lia|]. rewrite <- Ek. lia.
    + eexists. rewrite get_upd_eq by done. done.
    + eapply pres_weaken; [| |by eapply (pres_relabel (fun _ => True))]; [|done]. intros. by left.
Qed.

Lemma find_reusable_inv n ts i h :
  find_reusable n ts = Some (i, h) -> n <= i /\ get ts (i - n) = Some h /\ reusable (handle_slot h) = true.
Proof.
  revert n. induction ts as [|h0 ts IH]; intros n; simpl; [done|].
  destruct (reusable (handle_slot h0)) eqn:Hr.
  - intros [= <- <-]. rewrite N.sub_diag. split_and!; [lia|done|done].
  - intros (Hle & Hg & ?)%IH. split_and!; [lia| |done]. rewrite get_lookup in *.
    by replace (N.to_nat (i - n)) with (S (N.to_nat (i - (n + 1)))) by lia.
Qed.

(** What installing a handle does to the others. *)
Definition installed ts (k : HandleKey) h0 (h : Handle) (parent : option HandleKey) ts' : Prop :=
  get ts (key_slot k) = Some h0 /\ ~ live h0 /\
  key_generation k = slot_generation (handle_slot h0) + 1 /\ key_generation k <= u64_max /\
  get ts' (key_slot k) = Some h /\ slot_state (handle_slot h) = Active /\
  slot_generation (handle_slot h) = key_generation k /\ slot_parent (handle_slot h) = parent /\
  len ts' = len ts /\
  forall j hj, j <> key_slot k -> get ts j = Some hj -> exists n,
    get ts' j = Some (with_handle_slot hj (with_children (handle_slot hj) n)).

Lemma with_children_id h : with_handle_slot h (with_children (handle_slot h) (slot_children (handle_slot h))) = h.
Proof. by destruct h as [? ? ? []]. Qed.

Lemma wp_install_with_parent o r m parent ts :
  inv ts ->
  (forall p, parent = Some p -> exists hp, get ts (key_slot p) = Some hp /\
     matches (handle_slot hp) (key_generation p) = true /\
     N.ldiff m (methods hp) = 0 /\ r = resource hp) ->
  wp (install_with_parent o r m parent)
    (fun k ts' => inv ts' /\ exists h0 s, installed ts k h0 (mkHandle o r m s) parent ts')
    (fun _ ts' => ts' = ts) ts.
Proof.
  intros Hinv Hpar. unfold install_with_parent. apply wp_bind, wp_gets. unfold id.
  apply wp_bind, wp_require; [|done]. intros [i h] (_ & Hi & Hre)%find_reusable_inv.
  rewrite N.sub_0_r in Hi. pose proof (get_Some_lt _ _ _ Hi) as Hlt.
  destruct (u32_max <? i); [by apply wp_throw|].
  pose proof Hre as [Hv%bool_decide_eq_true Hmax%N.ltb_lt]%andb_true_iff.
  assert (~ live h) as Hd by (unfold live; naive_solver).
  pose proof (inv_vacant _ _ Hinv _ _ Hi Hd) as Evac.
  assert (slot_children (handle_slot h) = 0) as Ec by (by rewrite Evac).
  apply wp_bind, wp_lift_result; [|done]. unfold slot_install. rewrite Hre. simpl.
  intros [generation authority]. destruct (match parent with Some _ => _ | None => _ end); [done|].
  intros [= <- <-]. rewrite Ec. destruct parent as [p|].
  - destruct (Hpar p eq_refl) as (hp & Hgp & Hm & Hmeth & Hres).
    pose proof Hm as [Ha Hg]%matches_active. pose proof (get_Some_lt _ _ _ Hgp) as Hltp.
    assert (live hp) as Hlp by (unfold live; by rewrite Ha).
    assert (key_slot p <> i) as Hne by (intros Hx; rewrite Hx in Hgp; by simplify_eq).
    assert (p = key_of (key_slot p) hp) as Ep by (unfold key_of; rewrite Hg; by destruct p).
    apply wp_bind, wp_bind. unfold handle_at. apply wp_bind, wp_gets. unfold id.
    eapply wp_expect; [done|]. apply wp_bind, wp_lift_result.
    2: { done. }
    unfold attach_child. rewrite Hm. simpl.
    intros s. destruct (checked_add usize_max _ 1) as [n|] eqn:Hn; [|done]. intros [= <-].
    apply checked_add_Some in Hn as [-> _]. apply wp_handle_put, wp_bind, wp_handle_put, wp_ret.
    pose proof (inv_count _ _ Hinv _ _ Hgp Hlp) as Hcnt. rewrite decide_False in Hcnt by done.
    assert (inv_at (Some p) (upd ts (key_slot p) (with_handle_slot hp
      (with_children (handle_slot hp) (slot_children (handle_slot hp) + 1))))) as Hinv1.
    { eapply (inv_relabel None); simpl; try done.
      - congruence.
      - rewrite decide_True by congruence. lia.
      - intros j hj Hj _. split; [|done]. intros [= Ej]. rewrite Ej in Hj. by destruct Hj. }
    split.
    + eapply (inv_occupy (Some p)); [exact Hinv1| |done|done|].
      * by rewrite get_upd_ne.
      * intros q [= <-]. eexists. rewrite get_upd_eq by done. split_and!; [done| |done|done].
        apply retains_live. by split.
    + exists h, (mkSlot (slot_generation (handle_slot h) + 1) Active (Some p) 0).
      unfold installed. simpl. split_and!; try done; [lia|by rewrite get_upd_eq by (by rewrite len_upd)
        |by rewrite !len_upd|].
      intros j hj Hj Hgj. rewrite get_upd_ne by done. rewrite get_upd. case_decide as Hx.
      * destruct Hx as [<- _]. simplify_eq. by eexists.
      * exists (slot_children (handle_slot hj)). by rewrite with_children_id.
  - apply wp_bind, wp_ret, wp_bind, wp_handle_put, wp_ret. split.
    + by eapply (inv_occupy None).
    + exists h, (mkSlot (slot_generation (handle_slot h) + 1) Active None 0).
      unfold installed. simpl. split_and!; try done; [lia|by rewrite get_upd_eq|by rewrite len_upd|].
      intros j hj Hj Hgj. rewrite get_upd_ne by done. exists (slot_children (handle_slot hj)).
      by rewrite with_children_id.
Qed.

Lemma wp_install o r m ts :
  inv ts ->
  wp (install o r m)
    (fun k ts' => inv ts' /\ exists h0 s, installed ts k h0 (mkHandle o r m s) None ts')
    (fun _ ts' => ts' = ts) ts.
Proof. intros Hinv. by apply wp_install_with_parent. Qed.

Lemma wp_derive p o child rights ts :
  inv ts ->
  wp (derive p o child rights)
    (fun k ts' => inv ts' /\ exists hp h0 s, get ts (key_slot p) = Some hp /\ valid ts p /\ owner hp = o /\
       N.ldiff rights (methods hp) = 0 /\
       installed ts k h0 (mkHandle child (resource hp) rights s) (Some p) ts')
    (fun _ ts' => ts' = ts) ts.
Proof.
  intros Hinv. unfold derive. apply wp_bind, wp_gets. unfold id. apply wp_bind, wp_lift_result; [|done].
  intros hp (Hgp & Hv & Ho)%get_handle_iff; [|done].
  destruct (N.eqb_spec (N.ldiff rights (methods hp)) 0) as [Hz|Hz]; simpl; [|by apply wp_throw].
  eapply wp_mono; [apply wp_install_with_parent; [done|]| |done].
  - intros q [= <-]. exists hp. split_and!; try done. destruct Hv as (l & h & Hgh & Ha & Hg & _).
    simplify_eq. by apply matches_active.
  - intros k ts' (? & h0 & s & Hin). split; [done|]. exists hp, h0, s. done.
Qed.

(** ** Histories *)

(** A table as a host attaches it: no handle installed yet. *)
Definition initial ts : Prop :=
  Forall (fun h => exists g, g <= u64_max /\ handle_slot h = vacant g) ts.

(** One successful operation; a refused one leaves the table as it was. *)
Inductive table_step : HandleTable -> HandleTable -> Prop :=
| table_install o r m k ts ts' : install o r m ts = Val k ts' -> table_step ts ts'
| table_derive p o c m k ts ts' : derive p o c m ts = Val k ts' -> table_step ts ts'
| table_release k o ts ts' : release k o ts = Val tt ts' -> table_step ts ts'
| table_revoke k o ts ts' : revoke k o ts = Val tt ts' -> table_step ts ts'.

Definition table_reachable ts : Prop := exists ts0, initial ts0 /\ rtc table_step ts0 ts.

Lemma initial_inv ts : initial ts -> inv ts.
Proof.
  intros Hi. assert (forall i h, get ts i = Some h -> exists g, g <= u64_max /\ handle_slot h = vacant g)
    as Hv. { intros i h Hg. rewrite get_lookup in Hg. by eapply Forall_lookup_1 in Hi. }
  assert (forall i h, get ts i = Some h -> ~ live h) as Hd.
  { intros i h (g & _ & E)%Hv Hl. unfold live in Hl. by rewrite E in Hl. }
  split.
  - intros i h (g & _ & E)%Hv _. by rewrite E.
  - intros i h Hg Hs. destruct (Hv i h Hg) as (g & _ & E). by rewrite E in Hs.
  - intros i h p Hg Hl. by apply Hd in Hg.
  - intros i h Hg Hl. by apply Hd in Hg.
  - exists (fun _ => 0%nat). intros i h p Hg Hl. by apply Hd in Hg.
  - intros i h (g & ? & E)%Hv. by rewrite E.
  - intros i h Hg Hl. by apply Hd in Hg.
Qed.

(** Generations grow, and a slot that keeps its generation keeps its delegator. *)
Definition older ts ts' : Prop :=
  len ts' = len ts /\
  forall i h, get ts i = Some h -> exists h', get ts' i = Some h' /\
    slot_generation (handle_slot h) <= slot_generation (handle_slot h') /\
    (live h' -> slot_generation (handle_slot h') = slot_generation (handle_slot h) ->
       live h /\ slot_parent (handle_slot h') = slot_parent (handle_slot h)).

Lemma older_refl ts : older ts ts.
Proof. split; [done|]. intros i h Hi. exists h. by split_and!. Qed.

Lemma older_trans ts1 ts2 ts3 : older ts1 ts2 -> older ts2 ts3 -> older ts1 ts3.
Proof.
  intros [L1 G1] [L2 G2]. split; [congruence|]. intros i h Hi.
  destruct (G1 i h Hi) as (h2 & Hi2 & Hle1 & Hs1). destruct (G2 i h2 Hi2) as (h3 & Hi3 & Hle2 & Hs2).
  exists h3. split_and!; [done|lia|]. intros Hl Hg.
  destruct (Hs2 Hl) as [Hl2 Ep2]; [lia|]. destruct (Hs1 Hl2) as [Hl1 Ep1]; [lia|].
  split; [done|congruence].
Qed.

Lemma pres_older A C ts ts' : pres A C ts ts' -> older ts ts'.
Proof.
  intros [L G _]. split; [done|]. intros i h Hi.
  destruct (G i h Hi) as (h' & Hi' & E & _ & _ & _ & Hl & _). exists h'. split_and!; [done|lia|auto].
Qed.

Lemma installed_older ts k h0 h parent ts' : installed ts k h0 h parent ts' -> older ts ts'.
Proof.
  intros (Hk & _ & Hg & _ & Hk' & _ & Hg' & _ & Hlen & Hrest). split; [done|]. intros i hi Hi.
  destruct (decide (i = key_slot k)) as [->|Hne].
  - simplify_eq. exists h. split_and!; [done|lia|]. intros _ Hx. lia.
  - destruct (Hrest i hi Hne Hi) as [n Hn]. eexists. split; [done|]. by split_and!.
Qed.

Lemma table_step_inv ts ts' : inv ts -> table_step ts ts' -> inv ts' /\ older ts ts'.
Proof.
  intros Hinv Hs. destruct Hs as [o r m k ts ts' He|p o c m k ts ts' He|k o ts ts' He|k o ts ts' He].
  - destruct (wp_val _ _ _ _ _ _ (wp_install o r m ts Hinv) He) as (? & h0 & s & Hi).
    split; [done|by eapply installed_older].
  - destruct (wp_val _ _ _ _ _ _ (wp_derive p o c m ts Hinv) He) as (? & hp & h0 & s & _ & _ & _ & _ & Hi).
    split; [done|by eapply installed_older].
  - destruct (wp_val _ _ _ _ _ _ (wp_release k o ts Hinv) He) as (? & _ & Hp).
    split; [done|by eapply pres_older].
  - destruct (wp_val _ _ _ _ _ _ (wp_revoke k o ts Hinv) He) as (? & _ & _ & Hp).
    split; [done|by eapply pres_older].
Qed.

Lemma table_steps_inv ts ts' : inv ts -> rtc table_step ts ts' -> inv ts' /\ older ts ts'.
Proof.
  intros Hinv Hs. induction Hs as [ts|ts ts1 ts2 Hs _ IH]; [split; [done|apply older_refl]|].
  destruct (table_step_inv _ _ Hinv Hs) as [Hinv1 Ho1]. destruct (IH Hinv1) as [? ?].
  split; [done|by eapply older_trans].
Qed.

Lemma table_reachable_inv ts : table_reachable ts -> inv ts.
Proof. intros (ts0 & Hi%initial_inv & Hs). by eapply table_steps_inv. Qed.

(** A key retained later was retained before, unless its generation is new. *)
Lemma older_retained ts ts' k h :
  older ts ts' -> get ts (key_slot k) = Some h -> key_generation k <= slot_generation (handle_slot h) ->
  retained ts' k -> retained ts k.
Proof.
  intros [L G] Hk Hg (h' & Hk' & [Hl Hg']%retains_live).
  destruct (G _ _ Hk) as (h2 & Hk2 & Hle & Hs). simplify_eq.
  destruct (Hs Hl) as [Hlive _]; [lia|]. exists h. split; [done|]. apply retains_live. split; [done|lia].
Qed.

(** Chains seen in two tables of one history agree as far as both go. *)
Lemma older_chain ts ts' po l l' :
  older ts ts' -> chain ts po l -> chain ts' po l' -> l' = l.
Proof.
  intros [L G] Hc. revert l'. induction Hc as [|k h l Hk Hr Hc IH]; intros l' Hc'.
  - by inversion Hc'.
  - inversion Hc' as [|k2 h2 l2 Hk2 Hr2 Hc2]; subst. f_equal. apply IH.
    apply retains_live in Hr as [Hl Hg], Hr2 as [Hl2 Hg2].
    destruct (G _ _ Hk) as (h3 & Hk3 & _ & Hs). simplify_eq.
    destruct (Hs Hl2) as [_ <-]; [congruence|]. done.
Qed.

(** Giving up authority keeps the chains of the handles that stay active. *)
Lemma pres_chains A (C : HandleKey -> Prop) ts ts' j hj l :
  pres A C ts ts' -> get ts' j = Some hj -> live hj ->
  chain ts (slot_parent (handle_slot hj)) l -> (forall k, k ∈ l -> C k) ->
  chain ts' (slot_parent (handle_slot hj)) l.
Proof.
  intros Hp Hj Hl Hc HC. remember (slot_parent (handle_slot hj)) as po eqn:Epo.
  revert j hj Hj Hl Epo HC. induction Hc as [|k h l Hk Hr Hc IH]; intros j hj Hj Hl Epo HC; [constructor|].
  assert (retained ts' k) as (h' & Hk' & Hr').
  { eapply (pres_chain _ _ _ _ Hp j hj); [done|done|done| |by exists h]. apply HC. by left. }
  destruct (pres_get _ _ _ _ Hp _ _ Hk) as (h2 & Hk2 & _ & _ & _ & _ & Hlive & _). simplify_eq.
  pose proof Hr' as [Hl' _]%retains_live. destruct (Hlive Hl') as [_ Ep].
  econstructor; [done|done|]. rewrite Ep. eapply (IH (key_slot k) h'); try done.
  intros k' Hk''. apply HC. by right.
Qed.

Lemma pres_valid A (C : HandleKey -> Prop) ts ts' k l :
  pres A C ts ts' -> valid_via ts k l -> A (key_slot k) -> (forall k', k' ∈ l -> C k') ->
  valid_via ts' k l /\ exists h h', get ts (key_slot k) = Some h /\ get ts' (key_slot k) = Some h' /\
    owner h' = owner h /\ resource h' = resource h /\ methods h' = methods h.
Proof.
  intros Hp (h & Hk & Ha & Hg & Hc) HA HC.
  destruct (pres_get _ _ _ _ Hp _ _ Hk) as (h' & Hk' & E & ? & ? & ? & Hlive & Hact).
  specialize (Hact HA Ha). assert (live h') as Hl' by (unfold live; by rewrite Hact).
  destruct (Hlive Hl') as [_ Ep]. split; [|by exists h, h'].
  exists h'. split_and!; [done|done|congruence|]. rewrite <- Ep in Hc. by eapply pres_chains.
Qed.

Lemma testbit_land m n : N.land m (N.shiftl 1 n) =? 0 = negb (N.testbit m n).
Proof.
  rewrite N.shiftl_1_l. destruct (N.testbit m n) eqn:Hb; simpl.
  - apply N.eqb_neq. intros Hz. assert (N.testbit (N.land m (2 ^ n)) n = true) as Ht.
    { rewrite N.land_spec, Hb, N.pow2_bits_true. done. }
    rewrite Hz in Ht. by rewrite N.bits_0 in Ht.
  - apply N.eqb_eq, N.bits_inj. intros j. rewrite N.land_spec, N.pow2_bits_eqb, N.bits_0.
    destruct (N.eqb_spec n j) as [->|]; [by rewrite Hb|apply andb_false_r].
Qed.

(** C15. [authorize] grants a method exactly to the owner of an active handle that
    holds the right and whose whole delegation chain is still retained, and answers that
    handle's resource. *)
Theorem authorize_iff ts k o method r :
  table_reachable ts ->
  authorize ts k o method = Ok r <->
  exists h, get ts (key_slot k) = Some h /\ valid ts k /\ owner h = o /\ method < 64 /\
    N.testbit (methods h) method = true /\ resource h = r.
Proof.
  intros Hinv%table_reachable_inv. unfold authorize.
  pose proof (fun h => get_handle_iff ts k o h Hinv) as Hget.
  destruct (get_handle ts k o) as [h|e].
  - destruct (proj1 (Hget h) eq_refl) as (Hk & Hv & Ho). rewrite testbit_land.
    destruct (N.leb_spec 64 method), (N.testbit (methods h) method) eqn:Hb; simpl;
      (split; [try done; intros [= <-]; exists h; by split_and!|]);
      intros (h' & Hk' & _ & _ & ? & ? & ?); simplify_eq; first [done | lia | congruence].
  - split; [done|]. intros (h & Hk & Hv & Ho & _). pose proof (proj2 (Hget h)). naive_solver.
Qed.

(** C16. Delegation only attenuates: every right of a valid handle is a right of every
    handle it was derived from, for the same resource. *)
Theorem delegation_attenuates ts k l k' h h' :
  table_reachable ts -> valid_via ts k l -> k' ∈ l ->
  get ts (key_slot k) = Some h -> get ts (key_slot k') = Some h' ->
  resource h = resource h' /\ forall n, N.testbit (methods h) n = true -> N.testbit (methods h') n = true.
Proof.
  intros Hinv%table_reachable_inv (h0 & Hk0 & Ha & _ & Hc) Hin Hk Hk'.
  assert (h0 = h) as -> by congruence. clear Hk.
  assert (live h) as Hl by (unfold live; by rewrite Ha). clear Ha.
  remember (slot_parent (handle_slot h)) as po eqn:Epo. revert k h Hk0 Hl Epo.
  induction Hc as [|p hp l Hp Hr Hc IH]; intros k h Hk Hl Epo; [by apply not_elem_of_nil in Hin|].
  destruct (inv_parent _ _ Hinv _ _ _ Hk Hl (eq_sym Epo)) as (hp' & Hp' & _ & Hatt).
  assert (hp' = hp) as -> by congruence. destruct (Hatt Hr) as [Hm Hres].
  assert (forall n, N.testbit (methods h) n = true -> N.testbit (methods hp) n = true) as Hsub.
  { intros n Hn. assert (N.testbit (N.ldiff (methods h) (methods hp)) n = false) as Hf
      by (rewrite Hm; apply N.bits_0).
    rewrite N.ldiff_spec, Hn in Hf. by destruct (N.testbit (methods hp) n). }
  pose proof Hr as [Hlp _]%retains_live.
  apply elem_of_cons in Hin as [->|Hin].
  - simplify_eq. done.
  - destruct (IH Hin p hp Hp Hlp eq_refl) as [Hres' Hsub']. split; [congruence|]. auto.
Qed.

Lemma valid_retained ts k l : valid_via ts k l -> retained ts k.
Proof.
  intros (h & Hk & Ha & Hg & _). exists h. split; [done|]. apply retains_live.
  split; [unfold live; by rewrite Ha|done].
Qed.

Lemma invalid_unauthorized ts k o method r : inv ts -> ~ valid ts k -> authorize ts k o method <> Ok r.
Proof.
  intros Hinv Hn Ha. unfold authorize in Ha. destruct (get_handle ts k o) as [h|] eqn:He; [|done].
  apply get_handle_iff in He as (_ & Hv & _); done.
Qed.

Lemma revoked_unauthorized ts ts1 ts2 k o d l o' method r :
  table_reachable ts -> revoke k o ts = Val tt ts1 -> rtc table_step ts1 ts2 ->
  d = k \/ (valid_via ts d l /\ k ∈ l) -> authorize ts2 d o' method <> Ok r.
Proof.
  intros Hinv%table_reachable_inv He Hs Hd.
  destruct (wp_val _ _ _ _ _ _ (wp_revoke k o ts Hinv) He) as (Hinv1 & Hret & Hdead & Hp).
  destruct (table_steps_inv _ _ Hinv1 Hs) as [Hinv2 Hold].
  assert (older ts ts2) as Hold2 by (eapply older_trans; [by eapply pres_older|done]).
  destruct (retained_inv _ _ Hret) as (h & Hk & Hl & Ek).
  assert (~ retained ts2 k) as Hdead2.
  { destruct (pres_get _ _ _ _ Hp _ _ Hk) as (h1 & Hk1 & Eg & _). intros Hr. apply Hdead.
    eapply older_retained; [exact Hold|exact Hk1| |done]. rewrite Ek, Eg. simpl. lia. }
  apply invalid_unauthorized; [done|]. intros [l2 Hv2]. destruct Hd as [->|[Hv Hin]].
  - by eapply Hdead2, valid_retained.
  - destruct Hv as (hd & Hgd & Ha & Hg & Hc), Hv2 as (hd2 & Hgd2 & Ha2 & Hg2 & Hc2).
    destruct Hold2 as [L G]. destruct (G _ _ Hgd) as (hd3 & Hgd3 & _ & Hsame). simplify_eq.
    destruct (Hsame (ltac:(unfold live; by rewrite Ha2))) as [_ Ep]; [congruence|].
    rewrite Ep in Hc2. assert (l2 = l) as -> by (by eapply (older_chain ts ts2)).
    by eapply Hdead2, chain_retained.
Qed.

(** C17. Revocation is final and transitive: after a handle was revoked, neither it nor
    any handle delegated from it, directly or not, is ever authorized again, whatever
    operations follow. *)
Theorem revocation_is_final ts ts1 ts2 k o d l :
  table_reachable ts -> revoke k o ts = Val tt ts1 -> rtc table_step ts1 ts2 ->
  d = k \/ (valid_via ts d l /\ k ∈ l) ->
  forall o' method r, authorize ts2 d o' method <> Ok r.
Proof. intros. by eapply revoked_unauthorized. Qed.

(** Revocation is exact: a valid handle that is neither the revoked one nor delegated
    from it stays valid through the same chain, with the same owner, resource and rights. *)
Theorem revocation_spares_others ts ts' k o d l :
  table_reachable ts -> revoke k o ts = Val tt ts' ->
  valid_via ts d l -> d <> k -> k ∉ l ->
  valid_via ts' d l /\ exists h h', get ts (key_slot d) = Some h /\ get ts' (key_slot d) = Some h' /\
    owner h' = owner h /\ resource h' = resource h /\ methods h' = methods h.
Proof.
  intros Hinv%table_reachable_inv He Hv Hne Hnin.
  destruct (wp_val _ _ _ _ _ _ (wp_revoke k o ts Hinv) He) as (Hinv1 & Hret & Hdead & Hp).
  eapply pres_valid; [exact Hp|done|..].
  - intros Hx. destruct (retained_inv _ _ Hret) as (h & Hk & _ & Ek).
    destruct (retained_inv _ _ (valid_retained _ _ _ Hv)) as (h2 & Hk2 & _ & Ek2).
    apply Hne. rewrite Hx in Hk2, Ek2. congruence.
  - intros k' Hk' ->. done.
Qed.

(** Releasing a handle ends its own authority and nobody else's: every other valid
    handle, delegates of the released one included, stays valid through the same chain. *)
Theorem release_keeps_delegations ts ts' k o :
  table_reachable ts -> release k o ts = Val tt ts' ->
  (forall o' method r, authorize ts' k o' method <> Ok r) /\
  forall d l, valid_via ts d l -> d <> k ->
    valid_via ts' d l /\ exists h h', get ts (key_slot d) = Some h /\ get ts' (key_slot d) = Some h' /\
      owner h' = owner h /\ resource h' = resource h /\ methods h' = methods h.
Proof.
  intros Hinv%table_reachable_inv He.
  destruct (wp_val _ _ _ _ _ _ (wp_release k o ts Hinv) He) as (Hinv1 & (h' & Hk' & Hna) & Hp).
  split.
  - intros o' method r. apply invalid_unauthorized; [done|].
    intros (l & h2 & Hk2 & Ha & _). congruence.
  - intros d l Hv Hne. eapply pres_valid; [exact Hp|done| |done]. intros Hx.
    assert (exists h, get ts (key_slot k) = Some h /\ k = key_of (key_slot k) h) as (h & Hk & Ek).
    { unfold release, bind, gets in He. simpl in He. unfold id in He.
      destruct (local ts k o) as [h|e] eqn:Hloc; [|done].
      apply local_inv in Hloc as (? & _ & _ & ?). by exists h. }
    destruct (retained_inv _ _ (valid_retained _ _ _ Hv)) as (h2 & Hk2 & _ & Ek2).
    apply Hne. rewrite Hx in Hk2, Ek2. congruence.
Qed.

Lemma installed_chain ts k h0 h parent ts' po l :
  installed ts k h0 h parent ts' -> chain ts po l -> chain ts' po l.
Proof.
  intros (Hk & Hd & _ & _ & _ & _ & _ & _ & _ & Hrest).
  induction 1 as [|p hp l Hp Hr Hc IH]; [constructor|].
  assert (key_slot p <> key_slot k) as Hne.
  { intros Hx. rewrite Hx in Hp. simplify_eq. by apply retains_live in Hr as [? _]. }
  destruct (Hrest _ _ Hne Hp) as [n Hn]. econstructor; [exact Hn|done|done].
Qed.

(** Keys are never reissued: the key of a newly installed or derived handle was not
    a key of any handle at any earlier point of the table's history, and it is valid. *)
Theorem keys_are_fresh ts0 ts ts' o r m k :
  table_reachable ts0 -> rtc table_step ts0 ts ->
  install o r m ts = Val k ts' \/ (exists p c, derive p o c m ts = Val k ts') ->
  ~ retained ts0 k /\ ~ retained ts k /\ valid ts' k.
Proof.
  intros Hinv0%table_reachable_inv Hs He. destruct (table_steps_inv _ _ Hinv0 Hs) as [Hinv [L G]].
  assert (exists h0 h parent, installed ts k h0 h parent ts' /\ exists l, chain ts parent l)
    as (h0 & h & parent & Hin & l & Hl).
  { destruct He as [He|(p & c & He)].
    - destruct (wp_val _ _ _ _ _ _ (wp_install o r m ts Hinv) He) as (_ & h0 & s & Hin).
      do 3 eexists. split; [exact Hin|]. exists []. constructor.
    - destruct (wp_val _ _ _ _ _ _ (wp_derive p o c m ts Hinv) He)
        as (_ & hp & h0 & s & Hp & [l (hp' & Hp' & Ha & Hg & Hc)] & _ & _ & Hin).
      do 3 eexists. split; [exact Hin|]. exists (p :: l). econstructor; [done| |done].
      apply retains_live. split; [unfold live; by rewrite Ha|done]. }
  pose proof (installed_chain _ _ _ _ _ _ _ _ Hin Hl) as Hl'.
  destruct Hin as (Hk & Hd & Hg & Hmax & Hk' & Ha & Hg' & Hp & _). split_and!.
  - intros (h1 & Hk0 & [_ Hgen]%retains_live). destruct (G _ _ Hk0) as (h2 & Hk2 & Hle & _).
    simplify_eq. lia.
  - intros (h1 & Hk0 & [Hlv _]%retains_live). by simplify_eq.
  - exists l, h. split_and!; try done. by rewrite Hp.
Qed.

(** The handles that refer to [k]. *)
Lemma count_filter ts k :
  count ts k = len (filter (fun c => slot_state (handle_slot c) <> Vacant /\
    slot_parent (handle_slot c) = Some k) (ts : list Handle)).
Proof.
  induction ts as [|c ts IH]; [done|]. cbn [count]. rewrite IH, filter_cons. unfold is_child.
  destruct (decide (slot_state (handle_slot c) <> Vacant /\ slot_parent (handle_slot c) = Some k)) as [Hc|Hc].
  - rewrite bool_decide_true by done. unfold len. simpl. lia.
  - by rewrite bool_decide_false.
Qed.

Lemma count_lt ts k i h : get ts i = Some h -> is_child k h = false -> count ts k < len ts.
Proof.
  rewrite get_lookup. generalize (N.to_nat i). clear i. unfold len.
  induction ts as [|h0 ts IH]; intros [|i] Hi Hc; simplify_eq/=.
  - rewrite Hc. pose proof (count_le ts k). unfold len in *. lia.
  - specialize (IH i Hi Hc). destruct (is_child k h0); lia.
Qed.

(** No handle refers to itself. *)
Lemma inv_not_own_child debt ts i h :
  inv_at debt ts -> get ts i = Some h -> live h -> is_child (key_of i h) h = false.
Proof.
  intros Hinv Hi Hl. apply bool_decide_eq_false. intros [_ Hp].
  destruct (inv_rank _ _ Hinv) as [rank Hrank].
  specialize (Hrank i h _ Hi Hl Hp (retained_key _ _ _ Hi Hl)). simpl in Hrank. lia.
Qed.

(** C21. Handle operations cannot crash: in every reachable table the reference count of
    a handle is the number of handles derived from it, which is less than the size of the
    table, so that counting one more does not overflow and counting one less does not
    underflow; every index is in range, and reclaiming released ancestors ends. *)
Theorem handle_operations_never_stop ts :
  table_reachable ts ->
  (forall i h, get ts i = Some h -> slot_state (handle_slot h) <> Vacant ->
     slot_children (handle_slot h) =
       len (filter (fun c => slot_state (handle_slot c) <> Vacant /\
              slot_parent (handle_slot c) = Some (mkKey i (slot_generation (handle_slot h)))) (ts : list Handle)) /\
     slot_children (handle_slot h) < len ts) /\
  (forall o r m why, install o r m ts <> Stop why) /\
  (forall p o c m why, derive p o c m ts <> Stop why) /\
  (forall k o why, release k o ts <> Stop why) /\
  (forall k o why, revoke k o ts <> Stop why).
Proof.
  intros Hinv%table_reachable_inv. split_and!.
  - intros i h Hi Hl. rewrite (inv_count _ _ Hinv i h Hi Hl), decide_False, N.add_0_r by done.
    split; [apply count_filter|]. eapply count_lt; [exact Hi|]. by eapply inv_not_own_child.
  - intros o r m why He. pose proof (wp_install o r m ts Hinv) as Hw. unfold wp in Hw. by rewrite He in Hw.
  - intros p o c m why He. pose proof (wp_derive p o c m ts Hinv) as Hw. unfold wp in Hw.
    by rewrite He in Hw.
  - intros k o why He. pose proof (wp_release k o ts Hinv) as Hw. unfold wp in Hw. by rewrite He in Hw.
  - intros k o why He. pose proof (wp_revoke k o ts Hinv) as Hw. unfold wp in Hw. by rewrite He in Hw.
Qed.

(** ** Witnesses

    Owner 1 holds a handle with rights 3, has given right 1 to owner 2, and owner 2 has
    passed it on to owner 3. *)
Definition empty_table : HandleTable := replicate 4 default_handle.

Definition table_after {A} (c : comp HandleTable AuthorityError A) ts : HandleTable :=
  match c ts with Val _ ts' | Throw _ ts' => ts' | Stop _ => ts end.

Definition demo_key (i : N) : HandleKey := mkKey i 1.
Definition demo_table1 : HandleTable := table_after (install 1 9 3) empty_table.
Definition demo_table2 : HandleTable := table_after (derive (demo_key 0) 1 2 1) demo_table1.
Definition demo_table3 : HandleTable := table_after (derive (demo_key 1) 2 3 1) demo_table2.

Lemma demo_initial : initial empty_table.
Proof. apply Forall_replicate. exists 0. split; [done|reflexivity]. Qed.

Lemma demo_steps : rtc table_step empty_table demo_table3.
Proof.
  eapply rtc_l; [eapply (table_install 1 9 3); reflexivity|].
  eapply rtc_l; [eapply (table_derive (demo_key 0) 1 2 1); reflexivity|].
  eapply rtc_l; [eapply (table_derive (demo_key 1) 2 3 1); reflexivity|]. apply rtc_refl.
Qed.

Lemma demo_table_reachable : table_reachable demo_table3.
Proof. exists empty_table. split; [apply demo_initial|apply demo_steps]. Qed.

Lemma demo_valid : valid_via demo_table3 (demo_key 2) [demo_key 1; demo_key 0].
Proof.
  eexists. split; [reflexivity|]. split_and!; [done|done|].
  do 2 (eapply chain_link; [reflexivity|reflexivity|]). apply chain_root.
Qed.

Lemma authorize_iff_witness : authorize demo_table3 (demo_key 2) 3 0 = Ok 9.
Proof.
  apply (authorize_iff demo_table3 (demo_key 2) 3 0 9); [apply demo_table_reachable|].
  eexists. split; [reflexivity|]. split_and!; try reflexivity. exists [demo_key 1; demo_key 0].
  apply demo_valid.
Defined.

Lemma delegation_attenuates_witness : N.testbit 3 0 = true.
Proof.
  destruct (delegation_attenuates demo_table3 (demo_key 2) [demo_key 1; demo_key 0] (demo_key 0)
    (mkHandle 3 9 1 (mkSlot 1 Active (Some (demo_key 1)) 0))
    (mkHandle 1 9 3 (mkSlot 1 Active None 1))) as [_ Hsub].
  - apply demo_table_reachable.
  - apply demo_valid.
  - right. left.
  - reflexivity.
  - reflexivity.
  - apply (Hsub 0). reflexivity.
Defined.

Lemma revocation_is_final_witness :
  authorize (table_after (revoke (demo_key 0) 1) demo_table3) (demo_key 2) 3 0 <> Ok 9.
Proof.
  apply (revocation_is_final demo_table3 (table_after (revoke (demo_key 0) 1) demo_table3)
    (table_after (revoke (demo_key 0) 1) demo_table3) (demo_key 0) 1 (demo_key 2)
    [demo_key 1; demo_key 0]).
  - apply demo_table_reachable.
  - reflexivity.
  - apply rtc_refl.
  - right. split; [apply demo_valid|]. right. left.
Defined.

Lemma handle_operations_never_stop_witness :
  retained demo_table3 (demo_key 0) /\ forall k o why, revoke k o demo_table3 <> Stop why.
Proof.
  split; [eexists; split; reflexivity|].
  destruct (handle_operations_never_stop demo_table3) as (_ & _ & _ & _ & Hr);
    [apply demo_table_reachable|exact Hr].
Defined.
