(* ===== verification/Stream.v ===== *)
(** * Bounded channels

    [Channel] of crates/xolotl-core/src/stream.rs: a ring buffer over slots the host
    supplies, with backpressure and a terminal result.  It refines a bounded
    first-in-first-out queue. *)

From stdpp Require Import base numbers list option.
From S2P Require Import Prelude.

Local Open Scope N_scope.
Local Open Scope comp_scope.

(** ** The ring buffer *)

Inductive SendError (T : Type) : Type :=
| Full (value : T)
| Closed (value : T).
Arguments Full {T} _.
Arguments Closed {T} _.

Inductive Receive (T E : Type) : Type :=
| Item (value : T)
| Pending
| End_ (result : Result unit E).
Arguments Item {T E} _.
Arguments Pending {T E}.
Arguments End_ {T E} _.

Record Channel (T E : Type) : Type := mkChannel {
  ring : list (option T);
  ring_head : N;
  ring_len : N;
  ring_end : option (Result unit E)
}.
Arguments mkChannel {T E} _ _ _ _.
Arguments ring {T E} _.
Arguments ring_head {T E} _.
Arguments ring_len {T E} _.
Arguments ring_end {T E} _.

Section channel.
Context {T E : Type}.
Implicit Types (ch : Channel T E) (slots : list (option T)) (items : list T).

(** [Channel::new]. *)
Definition channel_new (slots : list (option T)) : Channel T E :=
  mkChannel ((fun _ => None) <$> slots) 0 0 None.

(** [Channel::try_send]. *)
Definition try_send (value : T) : comp (Channel T E) (SendError T) unit :=
  let* ch := gets id in
  match ring_end ch with
  | Some _ => throw (Closed value)
  | None =>
      if ring_len ch =? len (ring ch) then throw (Full value)
      else
        let* sum := expect (checked_add usize_max (ring_head ch) (ring_len ch)) Overflow in
        let* index := expect (if len (ring ch) =? 0 then None else Some (sum mod len (ring ch)))
                        OutOfBounds in
        let* _ := expect (get (ring ch) index) OutOfBounds in
        let* n := expect (checked_add usize_max (ring_len ch) 1) Overflow in
        modify (fun ch => mkChannel (upd (ring ch) index (Some value)) (ring_head ch) n (ring_end ch))
  end.

(** The end of [Channel::receive]. *)
Definition readiness ch : Receive T E :=
  match ring_end ch with
  | Some result => End_ result
  | None => Pending
  end.

(** [Channel::receive]. *)
Definition receive : comp (Channel T E) Empty_set (Receive T E) :=
  let* ch := gets id in
  if 0 <? ring_len ch then
    let* value := expect (get (ring ch) (ring_head ch)) OutOfBounds in
    let* next := expect (checked_add usize_max (ring_head ch) 1) Overflow in
    let* head := expect (if len (ring ch) =? 0 then None else Some (next mod len (ring ch)))
                   OutOfBounds in
    let* n := expect (checked_sub (ring_len ch) 1) Overflow in
    modify (fun ch => mkChannel (upd (ring ch) (ring_head ch) None) head n (ring_end ch)) ;;;
    match value with
    | Some value => ret (Item value)
    | None => gets readiness
    end
  else gets readiness.

(** [Channel::close]: the first terminal result wins. *)
Definition close ch (result : Result unit E) : Channel T E :=
  match ring_end ch with
  | None => mkChannel (ring ch) (ring_head ch) (ring_len ch) (Some result)
  | Some _ => ch
  end.

(** [Channel::len], [Channel::is_empty] and [Channel::capacity]. *)
Definition channel_len ch : N := ring_len ch.
Definition is_empty ch : bool := ring_len ch =? 0.
Definition capacity ch : N := len (ring ch).

(** ** The queue it implements *)

Record Queue : Type := mkQueue {
  queued : list T;
  bound : N;
  ended : option (Result unit E)
}.

Definition queue_send (q : Queue) (value : T) : Result unit (SendError T) * Queue :=
  match ended q with
  | Some _ => (Err (Closed value), q)
  | None =>
      if len (queued q) =? bound q then (Err (Full value), q)
      else (Ok tt, mkQueue (queued q ++ [value]) (bound q) (ended q))
  end.

Definition queue_receive (q : Queue) : Receive T E * Queue :=
  match queued q with
  | value :: rest => (Item value, mkQueue rest (bound q) (ended q))
  | [] => (match ended q with Some result => End_ result | None => Pending end, q)
  end.

Definition queue_close (q : Queue) (result : Result unit E) : Queue :=
  match ended q with
  | None => mkQueue (queued q) (bound q) (Some result)
  | Some _ => q
  end.

(** ** Representation *)

(** The [j]-th item is in the [j]-th slot after the head, around the ring. *)
Record rep ch (q : Queue) : Prop := {
  rep_bound : bound q = len (ring ch);
  rep_end : ended q = ring_end ch;
  rep_len : ring_len ch = len (queued q);
  rep_fits : len (queued q) <= len (ring ch);
  rep_head : len (ring ch) = 0 \/ ring_head ch < len (ring ch);
  rep_items : forall j, j < len (queued q) ->
    get (ring ch) ((ring_head ch + j) mod len (ring ch)) = Some (get (queued q) j)
}.

(** The length of a slice of sized elements is at most [isize::MAX]. *)
Definition isize_max : N := 2 ^ 63 - 1.

Lemma mod_inj n a i j : i < n -> j < n -> (a + i) mod n = (a + j) mod n -> i = j.
Proof.
  intros Hi Hj Hm. assert (n <> 0) as Hn by lia.
  pose proof (N.Div0.div_mod (a + i) n) as E1. pose proof (N.Div0.div_mod (a + j) n) as E2.
  rewrite Hm in E1. assert ((a + i) / n = (a + j) / n) as Ed; [|rewrite Ed in E1; lia].
  pose proof (N.mod_lt (a + j) n Hn).
  destruct (N.lt_trichotomy ((a + i) / n) ((a + j) / n)) as [Hlt|[?|Hlt]]; [|done|].
  - assert (n * ((a + i) / n + 1) <= n * ((a + j) / n)) by (apply N.mul_le_mono_l; lia). lia.
  - assert (n * ((a + j) / n + 1) <= n * ((a + i) / n)) by (apply N.mul_le_mono_l; lia). lia.
Qed.

Lemma get_cons (v : T) l j : get (v :: l) (j + 1) = get l j.
Proof. rewrite !get_lookup. by replace (N.to_nat (j + 1)) with (S (N.to_nat j)) by lia. Qed.

Lemma new_rep slots : rep (channel_new slots) (mkQueue [] (len slots) None).
Proof.
  split; simpl; rewrite ?len_fmap; try done.
  - unfold len. simpl. lia.
  - destruct (N.eq_dec (len slots) 0); [by left|right; lia].
  - intros j Hj. unfold len in Hj. simpl in Hj. lia.
Qed.

Lemma wp_try_send value ch q :
  rep ch q -> len (ring ch) <= isize_max ->
  wp (try_send value)
    (fun _ ch' => rep ch' (snd (queue_send q value)) /\ fst (queue_send q value) = Ok tt /\
       len (ring ch') = len (ring ch))
    (fun e ch' => ch' = ch /\ queue_send q value = (Err e, q)) ch.
Proof.
  intros [Hb He Hl Hf Hh Hi] Hw. unfold try_send, queue_send. apply wp_bind, wp_gets. unfold id.
  rewrite He, Hl, Hb. destruct (ring_end ch) as [r|] eqn:Hend; [by apply wp_throw|].
  destruct (N.eqb_spec (len (queued q)) (len (ring ch))) as [Heq|Hne]; [by apply wp_throw|].
  assert (0 < len (ring ch)) as Hpos by lia. destruct Hh as [?|Hh]; [lia|].
  assert (isize_max + isize_max <= usize_max) by done.
  apply wp_bind. eapply wp_expect; [apply checked_add_Some; split; [done|lia]|].
  apply wp_bind. rewrite (proj2 (N.eqb_neq (len (ring ch)) 0)) by lia. eapply wp_expect; [done|].
  set (index := (ring_head ch + len (queued q)) mod len (ring ch)).
  assert (index < len (ring ch)) as Hidx by (apply N.mod_lt; lia).
  destruct (get_lt (ring ch) index Hidx) as [old Hold].
  apply wp_bind. eapply wp_expect; [done|].
  apply wp_bind. eapply wp_expect; [apply checked_add_Some; split; [done|lia]|].
  apply wp_modify. simpl. split_and!; [|done|by rewrite len_upd].
  split; simpl; rewrite ?len_upd, ?len_snoc; try done; [lia|by right|].
  intros j Hj. destruct (N.eq_dec j (len (queued q))) as [->|Hjne].
  - fold index. rewrite get_upd_eq by done. by rewrite get_snoc.
  - rewrite get_upd_ne.
    + rewrite Hi by lia. f_equal. rewrite !get_lookup. symmetry. apply lookup_app_l.
      unfold len in *. lia.
    + intros Hx. apply Hjne. symmetry. eapply (mod_inj (len (ring ch)) (ring_head ch)); [lia|lia|done].
Qed.

Lemma wp_receive ch q :
  rep ch q -> len (ring ch) <= isize_max ->
  wp receive
    (fun r ch' => r = fst (queue_receive q) /\ rep ch' (snd (queue_receive q)) /\
       len (ring ch') = len (ring ch))
    (fun _ _ => False) ch.
Proof.
  intros Hrep Hw. pose proof Hrep as [Hb He Hl Hf Hh Hi]. unfold receive, queue_receive.
  apply wp_bind, wp_gets. unfold id. rewrite Hl.
  destruct (queued q) as [|v rest] eqn:Hq.
  { apply wp_gets. simpl. unfold readiness. by rewrite He. }
  rewrite len_cons in *. rewrite (proj2 (N.ltb_lt 0 (len rest + 1))) by lia.
  destruct Hh as [?|Hh]; [lia|]. assert (isize_max + 1 <= usize_max) by done.
  assert (get (ring ch) (ring_head ch) = Some (Some v)) as Hv.
  { specialize (Hi 0 ltac:(lia)). rewrite N.add_0_r, N.mod_small in Hi by done. rewrite Hi.
    by rewrite get_lookup. }
  apply wp_bind. eapply wp_expect; [done|].
  apply wp_bind. eapply wp_expect; [apply checked_add_Some; split; [done|lia]|].
  apply wp_bind. rewrite (proj2 (N.eqb_neq (len (ring ch)) 0)) by lia. eapply wp_expect; [done|].
  apply wp_bind. eapply wp_expect; [apply checked_sub_Some; split; [done|lia]|].
  apply wp_bind, wp_modify, wp_ret. simpl. split_and!; [done| |by rewrite len_upd].
  split; simpl; rewrite ?len_upd; try done; try lia.
  - right. apply N.mod_lt. lia.
  - intros j Hj. rewrite N.Div0.add_mod_idemp_l.
    replace (ring_head ch + 1 + j) with (ring_head ch + (j + 1)) by lia. rewrite get_upd_ne.
    + rewrite Hi by lia. by rewrite get_cons.
    + intros Hx. assert (j + 1 = 0); [|lia].
      eapply (mod_inj (len (ring ch)) (ring_head ch)); [lia|lia|].
      rewrite N.add_0_r, (N.mod_small (ring_head ch)) by done. done.
Qed.

Lemma close_rep ch q result : rep ch q -> rep (close ch result) (queue_close q result).
Proof.
  intros [Hb He Hl Hf Hh Hi]. unfold close, queue_close. rewrite He.
  destruct (ring_end ch) eqn:Hr; split; simpl; try done; congruence.
Qed.

(** ** Sequences of operations *)

Inductive channel_op : Type :=
| OpSend (value : T)
| OpReceive
| OpClose (result : Result unit E).

Inductive channel_reply : Type :=
| Sent (r : Result unit (SendError T))
| Received (r : Receive T E)
| ClosedNow.

Definition queue_op (op : channel_op) (q : Queue) : channel_reply * Queue :=
  match op with
  | OpSend v => let '(r, q) := queue_send q v in (Sent r, q)
  | OpReceive => let '(r, q) := queue_receive q in (Received r, q)
  | OpClose r => (ClosedNow, queue_close q r)
  end.

Definition ring_op (op : channel_op) (ch : Channel T E) : option (channel_reply * Channel T E) :=
  match op with
  | OpSend v =>
      match try_send v ch with
      | Val _ ch' => Some (Sent (Ok tt), ch')
      | Throw e ch' => Some (Sent (Err e), ch')
      | Stop _ => None
      end
  | OpReceive =>
      match receive ch with
      | Val r ch' => Some (Received r, ch')
      | _ => None
      end
  | OpClose r => Some (ClosedNow, close ch r)
  end.

Fixpoint queue_run (ops : list channel_op) (q : Queue) : list channel_reply * Queue :=
  match ops with
  | [] => ([], q)
  | op :: ops' =>
      let '(r, q) := queue_op op q in
      let '(rs, q) := queue_run ops' q in (r :: rs, q)
  end.

Fixpoint ring_run (ops : list channel_op) (ch : Channel T E)
    : option (list channel_reply * Channel T E) :=
  match ops with
  | [] => Some ([], ch)
  | op :: ops' =>
      match ring_op op ch with
      | Some (r, ch) =>
          match ring_run ops' ch with
          | Some (rs, ch) => Some (r :: rs, ch)
          | None => None
          end
      | None => None
      end
  end.

Lemma ring_op_spec op ch q :
  rep ch q -> len (ring ch) <= isize_max ->
  exists ch', ring_op op ch = Some (fst (queue_op op q), ch') /\ rep ch' (snd (queue_op op q)) /\
    len (ring ch') = len (ring ch).
Proof.
  intros Hrep Hw. destruct op as [v| |r]; simpl.
  - pose proof (wp_try_send v ch q Hrep Hw) as Hs. unfold wp in Hs.
    destruct (try_send v ch) as [[] ch'|e ch'|]; [| |done].
    + destruct Hs as (? & Hr & ?). exists ch'. destruct (queue_send q v). simpl in *. by subst.
    + destruct Hs as [-> ->]. by exists ch.
  - pose proof (wp_receive ch q Hrep Hw) as Hs. unfold wp in Hs.
    destruct (receive ch) as [r ch'|[]|]; [|done]. destruct Hs as (-> & ? & ?). exists ch'.
    by destruct (queue_receive q).
  - exists (close ch r). split_and!; [done|by apply close_rep|]. unfold close. by destruct (ring_end ch).
Qed.

Lemma ring_run_spec ops ch q :
  rep ch q -> len (ring ch) <= isize_max ->
  exists ch', ring_run ops ch = Some (fst (queue_run ops q), ch') /\ rep ch' (snd (queue_run ops q)).
Proof.
  revert ch q. induction ops as [|op ops IH]; intros ch q Hrep Hw; simpl; [by exists ch|].
  destruct (ring_op_spec op ch q Hrep Hw) as (ch1 & -> & Hrep1 & Hlen1).
  destruct (queue_op op q) as [r q1]. simpl in *.
  destruct (IH ch1 q1 Hrep1) as (ch2 & -> & Hrep2); [by rewrite Hlen1|].
  destruct (queue_run ops q1) as [rs q2]. by exists ch2.
Qed.

(** C22. A [Channel] is a bounded first-in-first-out queue: over any sequence of sends,
    receives and closes it never indexes out of range, answers exactly what the queue
    answers (no value is lost, reordered or duplicated, a full or closed channel returns
    the value to the sender, and the terminal result comes after the buffered values), and
    its length and capacity are the queue's. *)
Theorem channel_refines_queue ops slots :
  len slots <= isize_max ->
  exists ch, let '(replies, q) := queue_run ops (mkQueue [] (len slots) None) in
    ring_run ops (channel_new slots) = Some (replies, ch) /\
    channel_len ch = len (queued q) /\ capacity ch = bound q /\
    is_empty ch = bool_decide (queued q = []).
Proof.
  intros Hw. destruct (ring_run_spec ops (channel_new slots) _ (new_rep slots)) as (ch & He & Hrep).
  { simpl. by rewrite len_fmap. }
  exists ch. destruct (queue_run ops _) as [rs q]. simpl in *. destruct Hrep as [Hb _ Hl _ _ _].
  split_and!; [done|done|by symmetry|]. unfold is_empty. rewrite Hl.
  destruct (queued q); [done|]. rewrite len_cons. rewrite bool_decide_false by done.
  apply N.eqb_neq. lia.
Qed.
End channel.

Lemma channel_refines_queue_witness :
  exists ch, ring_run [OpSend 1%Z; OpSend 2%Z; OpSend 3%Z; OpReceive; OpSend 4%Z; OpClose (Ok tt);
                       OpReceive; OpReceive; OpReceive]
    (channel_new (E := unit) (replicate 2 None)) =
    Some ([Sent (Ok tt); Sent (Ok tt); Sent (Err (Full 3%Z)); Received (Item 1%Z); Sent (Ok tt);
           ClosedNow; Received (Item 2%Z); Received (Item 4%Z); Received (End_ (Ok tt))], ch).
Proof.
  destruct (channel_refines_queue (E := unit) [OpSend 1%Z; OpSend 2%Z; OpSend 3%Z; OpReceive; OpSend 4%Z;
    OpClose (Ok tt); OpReceive; OpReceive; OpReceive] (replicate 2 None)) as (ch & He & _).
  - vm_compute. discriminate.
  - exists ch. exact He.
Defined.
