(* ===== verification/Link.v ===== *)
(** * Capability-linked programs

    [LinkedProgram] of crates/xolotl-core/src/link.rs binds the imports of an image to
    handles, and [Execution::advance_linked] of machine.rs checks the handle again before
    a request reaches the host.  The theorems join the machine's and the handle table's. *)

From stdpp Require Import base numbers list option relations.
From S2P Require Import Prelude Authority.
From S2P Require Import Program Frame Machine Scenarios.
From S2P Require Import MachineInv MachineStep MachineJoin MachineSafe MachineHost MachineProps.

Local Open Scope N_scope.
Local Open Scope comp_scope.

Record ImportBinding : Type := mkBinding { bound_handle : HandleKey; bound_method : N }.

Record LinkedProgram (V E : Type) : Type := mkLinked {
  linked_image : ProgramImage V E;
  linked_bindings : list ImportBinding;
  linked_owner : N
}.
Arguments mkLinked {V E} _ _ _.
Arguments linked_image {V E} _.
Arguments linked_bindings {V E} _.
Arguments linked_owner {V E} _.

(** [LinkedProgram::authorize]. *)
Definition linked_authorize {V E} (self : LinkedProgram V E) (import : N) (handles : HandleTable)
    : Result N Fault :=
  match get (linked_bindings self) import with
  | None => Err InvalidImport
  | Some b =>
      match authorize handles (bound_handle b) (linked_owner self) (bound_method b) with
      | Ok r => Ok r
      | Err _ => Err Program.Authority
      end
  end.

(** The [for import in 0..bindings.len()] loop of [LinkedProgram::new]. *)
Fixpoint check_imports {V E} (self : LinkedProgram V E) (handles : HandleTable) (imports : list N)
    : Result unit Fault :=
  match imports with
  | [] => Ok tt
  | import :: rest =>
      match linked_authorize self import handles with
      | Err f => Err f
      | Ok _ => check_imports self handles rest
      end
  end.

(** [LinkedProgram::new]. *)
Definition linked_new {V E} (image : ProgramImage V E) (bindings : list ImportBinding)
    (handles : HandleTable) (owner : N) : Result (LinkedProgram V E) Fault :=
  match validate image with
  | Err f => Err f
  | Ok _ =>
      if negb (len bindings =? imports image) then Err InvalidImport
      else
        let linked := mkLinked image bindings owner in
        match check_imports linked handles (range (len bindings)) with
        | Err f => Err f
        | Ok _ => Ok linked
        end
  end.

Section linked.
Context {H V E : Type} `{!Values H V E}.
Implicit Types (p : LinkedProgram V E) (handles : HandleTable).

(** What [advance_linked] does with a request whose import is no longer authorized. *)
Definition deny (q : Request V) (fault : Fault) (image : ProgramImage V E)
    : comp (machine (H := H)) Empty_set (Advance V E) :=
  let* e := host (error fault) in
  let* result := attempt (complete (request_task q) (request_ticket q) (HComplete (Err e)) image) in
  match result with
  | Ok _ => ret AYielded
  | Err f =>
      let* x := exec in
      let* outcome := host (terminal_fault x f) in
      ret (ADone outcome)
  end.

(** [Execution::advance_linked]. *)
Definition advance_linked p handles (fuel : N)
    : comp (machine (H := H)) Empty_set (Advance V E) :=
  let* action := advance (linked_image p) fuel in
  match action with
  | ARequest q =>
      match linked_authorize p (request_import q) handles with
      | Ok _ => ret (ARequest q)
      | Err fault => deny q fault (linked_image p)
      end
  | other => ret other
  end.

Lemma check_imports_ok p handles ns :
  check_imports p handles ns = Ok tt <-> forall n, n ∈ ns -> exists r, linked_authorize p n handles = Ok r.
Proof.
  induction ns as [|n ns IH]; simpl.
  - split; [|done]. by intros _ n ?%not_elem_of_nil.
  - destruct (linked_authorize p n handles) as [r|f] eqn:Ha.
    + rewrite IH. split.
      * intros Hall n' [->|?]%elem_of_cons; eauto.
      * intros Hall n' Hn. apply Hall. by right.
    + split; [done|]. intros Hall. destruct (Hall n) as [r Hr]; [by left|]. congruence.
Qed.

(** Linking admits exactly the well-formed programs whose imports the owner is
    authorized for: the image validates, every import has a binding, and every binding's handle
    grants its method at link time. *)
Theorem linking_checks_every_import image bindings handles owner :
  (exists p, linked_new image bindings handles owner = Ok p) <->
  validate image = Ok tt /\ len bindings = imports image /\
  forall import b, get bindings import = Some b ->
    exists r, authorize handles (bound_handle b) owner (bound_method b) = Ok r.
Proof.
  unfold linked_new. destruct (validate image) as [[]|f]; [|naive_solver].
  destruct (N.eqb_spec (len bindings) (imports image)) as [Hlen|Hlen]; simpl; [|naive_solver].
  set (p := mkLinked image bindings owner).
  assert (check_imports p handles (range (len bindings)) = Ok tt <->
    forall import b, get bindings import = Some b ->
      exists r, authorize handles (bound_handle b) owner (bound_method b) = Ok r) as Hiff.
  { rewrite check_imports_ok. unfold linked_authorize. simpl. split.
    - intros Hall import b Hb. destruct (Hall import) as [r Hr].
      { apply elem_of_range. by eapply get_Some_lt. }
      rewrite Hb in Hr. destruct (authorize _ _ _ _) as [r'|]; [|done]. by exists r'.
    - intros Hall n Hn%elem_of_range. destruct (get_lt _ _ Hn) as [b Hb]. rewrite Hb.
      destruct (Hall n b Hb) as [r Hr]. rewrite Hr. by exists r. }
  destruct (check_imports p handles (range (len bindings))) as [[]|f].
  - split; [|by exists p]. intros _. split_and!; [done|done|]. by apply Hiff.
  - split; [by intros [? ?]|]. intros (_ & _ & Hall). by apply Hiff in Hall.
Qed.

Lemma linked_authorize_inv p import handles r :
  linked_authorize p import handles = Ok r -> exists b, get (linked_bindings p) import = Some b /\
    authorize handles (bound_handle b) (linked_owner p) (bound_method b) = Ok r.
Proof.
  unfold linked_authorize. destruct (get (linked_bindings p) import) as [b|]; [|done].
  destruct (authorize _ _ _ _) as [r'|] eqn:Ha; [|done]. intros [= <-]. by exists b.
Qed.

(** An [advance_linked] call is a sequence of host steps. *)
Lemma wp_advance_linked p handles fuel s :
  reachable s ->
  wp (advance_linked p handles fuel)
    (fun a s' => rtc host_step s s' /\
       match a with
       | ARequest q => exists r, linked_authorize p (request_import q) handles = Ok r /\
           advance (linked_image p) fuel s = Val (ARequest q) s'
       | _ => True
       end) (fun _ _ => False) s.
Proof.
  intros Hr. destruct s as [x h]. unfold advance_linked.
  destruct (wp_total _ _ _ _ (advance_wp (linked_image p) fuel x h (reachable_wf _ Hr)))
    as (a & [x1 h1] & He & Hw1 & _). simpl in Hw1.
  assert (host_step (x, h) (x1, h1)) as Hstep by (by eapply host_advance).
  apply wp_bind. unfold wp at 1. rewrite He.
  destruct a as [q|i k| |r|]; try (apply wp_ret; split; [by apply rtc_once|done]).
  destruct (linked_authorize p (request_import q) handles) as [r|f] eqn:Ha.
  { apply wp_ret. split; [by apply rtc_once|]. by exists r. }
  unfold deny. apply wp_bind, wp_host. intros e h2 _. apply wp_bind, wp_attempt.
  pose proof (wp_complete (request_task q) (request_ticket q) (HComplete (Err e)) (linked_image p)
    x1 h2 Hw1) as Hc. unfold wp in Hc.
  destruct (complete _ _ _ _ (x1, h2)) as [[] s2|f2 [x2 h3]|] eqn:Hce; [| |done].
  - eapply wp_of_val; [exact Hce|]. apply wp_ret. split; [|done].
    eapply rtc_l; [done|]. eapply rtc_l; [apply (host_values x1 h1 h2)|].
    apply rtc_once. by eapply host_complete.
  - eapply wp_of_throw; [exact Hce|]. apply wp_bind, wp_exec, wp_bind, wp_host. intros res h4 _.
    apply wp_ret. split; [|done]. eapply rtc_l; [done|]. eapply rtc_l; [apply (host_values x1 h1 h2)|].
    eapply rtc_l; [by eapply host_refused|]. apply rtc_once. apply host_values.
Qed.

Lemma reachable_rtc s s' : reachable (H := H) (V := V) (E := E) s -> rtc host_step s s' -> reachable s'.
Proof.
  intros Hr Hs. induction Hs as [s|s s1 s2 Hstep _ IH]; [done|]. apply IH. by eapply reach_step.
Qed.

(** A linked execution asks the host only for what its owner may do: a request
    [advance_linked] returns is pending and its import is bound to a handle that the table grants
    the owner, method included, at that moment.  The call always returns and leaves a
    reachable execution. *)
Theorem linked_requests_are_authorized p handles fuel s :
  reachable s ->
  exists a s', advance_linked p handles fuel s = Val a s' /\ reachable s' /\
    match a with
    | ARequest q => exists b r, get (linked_bindings p) (request_import q) = Some b /\
        authorize handles (bound_handle b) (linked_owner p) (bound_method b) = Ok r
    | _ => True
    end.
Proof.
  intros Hr. destruct (wp_total _ _ _ _ (wp_advance_linked p handles fuel s Hr)) as (a & s' & He & Hs & Ha).
  exists a, s'. split_and!; [done|by eapply reachable_rtc|]. destruct a; try done.
  destruct Ha as (r & Hb & _). destruct (linked_authorize_inv _ _ _ _ Hb) as (b & ? & ?). by exists b, r.
Qed.

(** Revocation reaches running programs: once a handle has been revoked, no execution
    linked to it or to any of its delegates, however the table changes later, gets another
    request of that import to the host. *)
Theorem revoked_imports_stay_silent ts ts1 ts2 k o d l p fuel s a s' q b :
  table_reachable ts -> revoke k o ts = Val tt ts1 -> rtc table_step ts1 ts2 ->
  d = k \/ (valid_via ts d l /\ k ∈ l) ->
  reachable s -> advance_linked p ts2 fuel s = Val a s' -> a = ARequest q ->
  get (linked_bindings p) (request_import q) = Some b -> bound_handle b <> d.
Proof.
  intros Ht Hrev Hsteps Hd Hr He -> Hb Hx.
  destruct (wp_val _ _ _ _ _ _ (wp_advance_linked p ts2 fuel s Hr) He) as (_ & r & Ha & _).
  apply linked_authorize_inv in Ha as (b' & Hb' & Ha). simplify_eq.
  eapply revoked_unauthorized; eauto.
Qed.
End linked.

(** ** Witnesses

    The loop program of [Scenarios] imports four operations; all are bound to the handle
    that owner 3 holds in the demonstration table. *)
Definition demo_bindings : list ImportBinding := replicate 4 (mkBinding (demo_key 2) 0).
Definition demo_linked : LinkedProgram Z Fault := mkLinked loop_image demo_bindings 3.

(** A program linked to owner 1's own handle keeps running after its delegate was revoked. *)
Definition root_linked : LinkedProgram Z Fault :=
  mkLinked loop_image (replicate 4 (mkBinding (demo_key 0) 0)) 1.

Definition delegate_revoked : HandleTable := table_after (revoke (demo_key 1) 2) demo_table3.

