(* ===== verification/Analysis.v ===== *)
(** * Structural resource bounds

    [ProgramImage::module_requirements] and [resource_requirements] of
    crates/xolotl-core/src/analysis.rs: a depth-first traversal of the instructions reachable
    from an entry, in scratch storage of one slot per instruction, that computes peak
    tasks and continuation frames. *)

From stdpp Require Import base numbers list option relations.
From S2P Require Import Prelude Program.

Local Open Scope N_scope.
Local Open Scope comp_scope.

(** ** Data *)

Record ResourceRequirements : Type := mkRequirements {
  req_tasks : option N;
  req_frames_per_task : option N;
  req_frames : option N;
  req_bindings_per_task : N
}.

Inductive Visit : Type := Unseen | Active | Complete.

#[export] Instance Visit_eq_dec : EqDecision Visit.
Proof. solve_decision. Defined.

Record Usage : Type := mkUsage {
  own_frames : option N;
  child_frames : option N;
  use_tasks : option N;
  use_frames : option N
}.

Definition default_usage : Usage := mkUsage (Some 0) (Some 0) (Some 1) (Some 0).

Record AnalysisSlot : Type := mkAnalysis {
  visit : Visit;
  slot_parent_of : option N;
  slot_edge : N;
  usage : Usage
}.

Definition default_analysis : AnalysisSlot := mkAnalysis Unseen None 0 default_usage.

(** [maximum] and [sum] on [Option<usize>]. *)
Definition maximum (a b : option N) : option N :=
  match a, b with
  | Some a, Some b => Some (N.max a b)
  | _, _ => None
  end.
Definition sum (a b : option N) : option N :=
  match a, b with
  | Some a, Some b => checked_add usize_max a b
  | _, _ => None
  end.

Record Edge : Type := mkEdge { edge_entry : N; edge_frames : N; edge_fork : bool }.

Definition local_edge (entry frames : N) : option Edge := Some (mkEdge entry frames false).
Definition fork_edge (entry : N) : option Edge := Some (mkEdge entry 0 true).

(** [edges]: the four slots of the array. *)
Definition edges {V E} (node : Node V E) : list (option Edge) :=
  match node_kind node with
  | NThen first then_ => [local_edge first 2; local_edge then_ 1; None]
  | NCatch body recover => [local_edge body 2; local_edge recover 1; None]
  | NFinally body cleanup => [local_edge body 2; local_edge cleanup 2; None]
  | NIf yes no => [local_edge yes 1; local_edge no 1; None]
  | NBranch condition yes no => [local_edge condition 2; local_edge yes 1; local_edge no 1]
  | NLet _ value body | NWhile value body _ => [local_edge value 2; local_edge body 2; None]
  | NFork left_ right_ _ => [fork_edge left_; fork_edge right_; None]
  | NCall entry => [local_edge entry 1; None; None]
  | NScope _ body => [local_edge body 2; None; None]
  | NLiteral _ | NInput | NLoad _ | NFail _ | NRequest _ => [None; None; None]
  end ++ [match node_next node with Some entry => local_edge entry 0 | None => None end].

Definition is_fork_node {V E} (node : Node V E) : bool :=
  match node_kind node with NFork _ _ _ => true | _ => false end.

(** ** The usage of a completed node *)

(** An edge back to a node in progress has no finite bound. *)
Definition unbounded_usage : Usage := mkUsage None None (Some 1) None.

Definition slot_usage (s : AnalysisSlot) : Usage :=
  if decide (visit s = Active) then unbounded_usage else usage s.

(** The [for edge in edges.into_iter().flatten()] loop: the accumulated usage and the
    sums over the fork branches. *)
Definition add_edge (child : Usage) (e : Edge) (acc : Usage * option N * option N)
    : Usage * option N * option N :=
  let '(u, fork_tasks, fork_frames) := acc in
  if edge_fork e then
    (mkUsage (own_frames u)
       (maximum (child_frames u) (maximum (own_frames child) (child_frames child)))
       (use_tasks u) (use_frames u),
     sum fork_tasks (use_tasks child), sum fork_frames (use_frames child))
  else
    (mkUsage (maximum (own_frames u) (sum (Some (edge_frames e)) (own_frames child)))
       (maximum (child_frames u) (child_frames child))
       (maximum (use_tasks u) (use_tasks child))
       (maximum (use_frames u) (sum (Some (edge_frames e)) (use_frames child))),
     fork_tasks, fork_frames).

Fixpoint add_edges (child_of : N -> Usage) (es : list (option Edge))
    (acc : Usage * option N * option N) : Usage * option N * option N :=
  match es with
  | [] => acc
  | Some e :: es' => add_edges child_of es' (add_edge (child_of (edge_entry e)) e acc)
  | None :: es' => add_edges child_of es' acc
  end.

(** The usage of a node from those of its successors. *)
Definition node_usage (child_of : N -> Usage) (es : list (option Edge)) : Usage :=
  let '(u, fork_tasks, fork_frames) := add_edges child_of es (default_usage, Some 1, Some 0) in
  mkUsage (own_frames u) (child_frames u) (maximum (use_tasks u) fork_tasks)
    (maximum (use_frames u) fork_frames).

(** ** The traversal *)

(** The [scratch], [current], [cyclic] and [forks] variables. *)
Record Traversal : Type := mkTraversal {
  scratch : list AnalysisSlot;
  current : N;
  cyclic : bool;
  forks : bool
}.

Section traversal.
Context {V E : Type}.
Implicit Types (module : list (Node V E)) (tr : Traversal).

(** Following one edge: an unseen successor becomes current. *)
Definition follow (child : N) : comp Traversal Empty_set unit :=
  let* tr := gets id in
  let* s := expect (get (scratch tr) child) OutOfBounds in
  match visit s with
  | Unseen =>
      modify (fun tr => mkTraversal
        (upd (scratch tr) child (mkAnalysis Active (Some (current tr)) (slot_edge s) (usage s)))
        child (cyclic tr) (forks tr))
  | Active => modify (fun tr => mkTraversal (scratch tr) (current tr) true (forks tr))
  | Complete => ret tt
  end.

(** [scratch[edge.entry as usize - nodes.start]] for the successors of a node. *)
Definition successor_usage tr (start entry : N) : Usage :=
  match get (scratch tr) (entry - start) with
  | Some s => slot_usage s
  | None => default_usage
  end.

(** All successors of a node are slots of the scratch storage. *)
Definition successors_in_range tr (start : N) (es : list (option Edge)) : bool :=
  forallb (fun e => match e with
                    | Some e => (start <=? edge_entry e) && (edge_entry e - start <? len (scratch tr))
                    | None => true
                    end) es.

(** One turn of the [loop]: [Some] when the entry's usage is known. *)
Definition analysis_turn module (start : N) : comp Traversal Empty_set (option Usage) :=
  let* tr := gets id in
  let* node := expect (get module (current tr)) OutOfBounds in
  let es := edges node in
  modify (fun tr => mkTraversal (scratch tr) (current tr) (cyclic tr) (forks tr || is_fork_node node)) ;;;
  let* s := expect (get (scratch tr) (current tr)) OutOfBounds in
  if slot_edge s <? len es then
    let* edge := expect (get es (slot_edge s)) OutOfBounds in
    modify (fun tr => mkTraversal
      (upd (scratch tr) (current tr)
         (mkAnalysis (visit s) (slot_parent_of s) (slot_edge s + 1) (usage s)))
      (current tr) (cyclic tr) (forks tr)) ;;;
    (match edge with
     | Some e =>
         let* child := expect (checked_sub (edge_entry e) start) Overflow in
         follow child
     | None => ret tt
     end) ;;;
    ret None
  else
    if negb (successors_in_range tr start es) then halt OutOfBounds
    else
      let u := node_usage (successor_usage tr start) es in
      modify (fun tr => mkTraversal
        (upd (scratch tr) (current tr) (mkAnalysis Complete (slot_parent_of s) (slot_edge s) u))
        (current tr) (cyclic tr) (forks tr)) ;;;
      match slot_parent_of s with
      | Some parent =>
          modify (fun tr => mkTraversal (scratch tr) parent (cyclic tr) (forks tr)) ;;; ret None
      | None => ret (Some u)
      end.

(** The [loop]: every turn takes an edge or completes a node, five turns per node at most. *)
Fixpoint analysis_loop (fuel : nat) module (start : N) : comp Traversal Empty_set Usage :=
  match fuel with
  | O => halt Unbounded
  | S fuel =>
      let* finished := analysis_turn module start in
      match finished with
      | Some u => ret u
      | None => analysis_loop fuel module start
      end
  end.

(** The addresses of a module's instructions: code in the module's range, imports and
    bindings in the image's. *)
Definition check_module_node (first last : N) : visitor unit Fault :=
  fun index s => (if (first <=? index) && (index <? last) then Ok tt else Err InvalidNode, s).

Fixpoint check_module (image : ProgramImage V E) (first last : N) (l : list (Node V E))
    : Result unit Fault :=
  match l with
  | [] => Ok tt
  | n :: l' =>
      match visit_indices (check_module_node first last) (check_import image) (check_binding image)
              n tt with
      | (Ok _, _) => check_module image first last l'
      | (Err f, _) => Err f
      end
  end.

(** [self.nodes.get(first..last)]. *)
Definition slice (image : ProgramImage V E) (first last : N) : option (list (Node V E)) :=
  if (first <=? last) && (last <=? len (nodes image))
  then Some (take (N.to_nat (last - first)) (drop (N.to_nat first) (nodes image)))
  else None.

Definition requirements (bindings : N) (u : Usage) (cyclic forks : bool) : ResourceRequirements :=
  mkRequirements
    (if cyclic && forks then None else use_tasks u)
    (if cyclic then None else maximum (own_frames u) (child_frames u))
    (if cyclic then None else use_frames u)
    bindings.

(** [ProgramImage::module_requirements]; [slots] is the length of the caller's scratch. *)
Definition module_requirements (image : ProgramImage V E) (entry first last slots : N)
    : outcome unit Fault ResourceRequirements :=
  if negb (version image =? IMAGE_VERSION) then Throw Version tt
  else match slice image first last with
  | None => Throw InvalidNode tt
  | Some module =>
      if negb ((first <=? entry) && (entry <? last)) then Throw InvalidNode tt
      else match check_module image first last module with
      | Err f => Throw f tt
      | Ok _ =>
          if slots <? len module then Throw AnalysisCapacity tt
          else
            let start := entry - first in
            let fresh := replicate (length module) default_analysis in
            let tr := mkTraversal
              (upd fresh start (mkAnalysis Active None 0 default_usage)) start false false in
            match analysis_loop (5 * length module + 1) module first tr with
            | Val u tr' => Val (requirements (image_bindings image) u (cyclic tr') (forks tr')) tt
            | Throw e _ => match e with end
            | Stop why => Stop why
            end
      end
  end.

(** [ProgramImage::resource_requirements]. *)
Definition resource_requirements (image : ProgramImage V E) (slots : N)
    : outcome unit Fault ResourceRequirements :=
  module_requirements image (entry image) 0 (len (nodes image)) slots.
End traversal.

(** ** The edges of a module as a graph, and the recursion over them *)

Section graph.
Context {V E : Type}.
Context (module : list (Node V E)) (start : N).

Definition edges_at (i : N) : list (option Edge) :=
  match get module i with Some n => edges n | None => [] end.

Definition forks_at (i : N) : bool :=
  match get module i with Some n => is_fork_node n | None => false end.

(** An edge leads from instruction [i] to instruction [j]. *)
Definition edge_to (i j : N) : Prop :=
  exists e, Some e ∈ edges_at i /\ edge_entry e - start = j.

(** A cycle that can be reached from an instruction. *)
Definition edge_cycle (i : N) : Prop := exists j, rtc edge_to i j /\ tc edge_to j j.

Definition edge_forks (i : N) : Prop := exists j, rtc edge_to i j /\ forks_at j = true.

(** The bound by recursion on the instructions, to a given depth. *)
Fixpoint usage_to (depth : nat) (i : N) : Usage :=
  match depth with
  | O => unbounded_usage
  | S depth => node_usage (fun entry => usage_to depth (entry - start)) (edges_at i)
  end.

(** Every successor is an instruction of the module. *)
Definition closed : Prop :=
  forall i e, Some e ∈ edges_at i -> start <= edge_entry e /\ edge_entry e - start < len module.

Lemma edges_at_get i n : get module i = Some n -> edges_at i = edges n.
Proof. unfold edges_at. by intros ->. Qed.

Lemma len_edges (n : Node V E) : len (edges n) = 4.
Proof. unfold edges. destruct (node_kind n); done. Qed.

(** The usage of a node depends on its successors only. *)
Lemma add_edges_ext (f g : N -> Usage) es acc :
  (forall e, Some e ∈ es -> f (edge_entry e) = g (edge_entry e)) ->
  add_edges f es acc = add_edges g es acc.
Proof.
  revert acc. induction es as [|[e|] es IH]; intros acc Hfg; simpl; [done| |].
  - rewrite (Hfg e) by left. apply IH. intros. apply Hfg. by right.
  - apply IH. intros. apply Hfg. by right.
Qed.

Lemma node_usage_ext (f g : N -> Usage) es :
  (forall e, Some e ∈ es -> f (edge_entry e) = g (edge_entry e)) ->
  node_usage f es = node_usage g es.
Proof. intros Hfg. unfold node_usage. by rewrite (add_edges_ext f g). Qed.

(** Completion orders, latest first: successors complete before their predecessors. *)
Fixpoint ordered (l : list N) : Prop :=
  match l with
  | [] => True
  | x :: l' => (forall j, edge_to x j -> j ∈ l') /\ ordered l'
  end.

Lemma usage_to_ordered l : ordered l ->
  forall i d, i ∈ l -> (length l <= d)%nat -> usage_to d i = usage_to (length l) i.
Proof.
  induction l as [|x l IH]; intros Hord i d Hi Hd; [by apply not_elem_of_nil in Hi|].
  destruct Hord as [Hx Hord]. apply elem_of_cons in Hi as [->|Hi].
  - destruct d as [|d]; simpl in Hd; [lia|]. simpl. apply node_usage_ext. intros e He.
    apply IH; [done|apply Hx; by exists e|lia].
  - rewrite (IH Hord i d), (IH Hord i (length (x :: l))); simpl in *; done || lia.
Qed.

Lemma ordered_after l i j : ordered l -> i ∈ l -> tc edge_to i j -> j ∈ l.
Proof.
  intros Hord Hi Htc. revert Hi. induction Htc as [i j Hs|i k j Hs _ IH]; intros Hi.
  - induction l as [|x l IHl]; [by apply not_elem_of_nil in Hi|]. destruct Hord as [Hx Hord].
    apply elem_of_cons in Hi as [->|Hi]; right; auto.
  - apply IH. clear IH. induction l as [|x l IHl]; [by apply not_elem_of_nil in Hi|].
    destruct Hord as [Hx Hord]. apply elem_of_cons in Hi as [->|Hi]; right; auto.
Qed.

Lemma ordered_acyclic l i : ordered l -> NoDup l -> i ∈ l -> ~ tc edge_to i i.
Proof.
  induction l as [|x l IH]; intros Hord Hnd Hi Htc; [by apply not_elem_of_nil in Hi|].
  destruct Hord as [Hx Hord]. apply list.NoDup_cons in Hnd as [Hxl Hnd].
  apply elem_of_cons in Hi as [->|Hi]; [|by apply IH].
  apply Hxl. inversion Htc as [? ? Hs|? k ? Hs Ht]; subst; [by apply Hx|].
  eapply ordered_after; [done| |done]. by apply Hx.
Qed.
End graph.

(** ** The traversal's invariant *)

Section invariant.
Context {V E : Type}.
Context (module : list (Node V E)) (start root : N).
Hypothesis Hclosed : closed module start.
Implicit Types (sc : list AnalysisSlot) (path done : list N).

(** Of the first [k] successors of [x], all are complete, or active because the traversal
    went there ([above]) or came from there (a cycle). *)
Definition explored path done (cyc : bool) (x k : N) (above : option N) : Prop :=
  forall j e, j < k -> get (edges_at module x) j = Some (Some e) ->
    edge_entry e - start ∈ done \/
    edge_entry e - start ∈ path /\ (cyc = true \/ above = Some (edge_entry e - start)).

(** The active nodes from the current one down to the root, linked by [parent]. *)
Fixpoint walks sc (P : N -> N -> option N -> Prop) (above : option N) (path : list N) : Prop :=
  match path with
  | [] => forall x, above = Some x -> x = root
  | x :: rest =>
      (exists s, get sc x = Some s /\ slot_edge s <= 4 /\ slot_parent_of s = head rest /\
         P x (slot_edge s) above) /\
      (forall y, head rest = Some y -> edge_to module start y x) /\
      walks sc P (Some x) rest
  end.

Record traversing (tr : Traversal) path done : Prop := {
  tv_len : len (scratch tr) = len module;
  tv_current : forall x, head path = Some x -> current tr = x;
  tv_nodup : NoDup (path ++ done);
  tv_active : forall i s, get (scratch tr) i = Some s -> visit s = Active <-> i ∈ path;
  tv_complete : forall i s, get (scratch tr) i = Some s -> visit s = Complete <-> i ∈ done;
  tv_unseen : forall i s, get (scratch tr) i = Some s -> visit s = Unseen -> slot_edge s = 0;
  tv_range : forall i, i ∈ path ++ done -> i < len module;
  tv_walks : walks (scratch tr) (explored path done (cyclic tr)) None path;
  tv_reach : forall i, i ∈ path ++ done -> rtc (edge_to module start) root i;
  tv_closed : forall i j, i ∈ done -> edge_to module start i j -> j ∈ path ++ done;
  tv_cyclic : cyclic tr = true -> edge_cycle module start root;
  tv_ordered : cyclic tr = false -> ordered module start done /\
    forall i s, i ∈ done -> get (scratch tr) i = Some s ->
      usage s = usage_to module start (length module) i;
  tv_forks : forks tr = true -> edge_forks module start root;
  tv_forked : forall i, i ∈ done -> forks_at module i = true -> forks tr = true;
  tv_tasks : forks tr = false -> forall i s, get (scratch tr) i = Some s ->
    use_tasks (usage s) = Some 1
}.

Lemma walks_impl sc (P P' : N -> N -> option N -> Prop) above path :
  (forall x k a, x ∈ path -> P x k a -> P' x k a) -> walks sc P above path -> walks sc P' above path.
Proof.
  revert above. induction path as [|x rest IH]; intros above HP Hw; [done|].
  destruct Hw as ((s & Hs & Hk & Hp & HPs) & Hsucc & Hw). split; [|split; [done|]].
  - exists s. do 3 (split; [done|]). apply HP; [left|done].
  - apply IH; [|done]. intros. apply HP; [by right|done].
Qed.

Lemma walks_upd sc P above path i s :
  i ∉ path -> walks sc P above path -> walks (upd sc i s) P above path.
Proof.
  revert above. induction path as [|x rest IH]; intros above Hi Hw; [done|].
  apply not_elem_of_cons in Hi as [Hx Hi].
  destruct Hw as ((s' & Hs & Hrest) & Hsucc & Hw). split; [|split; [done|by apply IH]].
  exists s'. by rewrite get_upd_ne.
Qed.

(** The current node's successors, and the rest of the path below it. *)
Lemma walks_head sc (P : N -> N -> option N -> Prop) above above' x rest :
  walks sc P above (x :: rest) -> (forall k, P x k above -> P x k above') ->
  walks sc P above' (x :: rest).
Proof.
  intros ((s & Hs & Hk & Hp & HP) & Hsucc & Hw) HPP. split; [|done].
  exists s. by eauto.
Qed.

Lemma walks_reach sc P above x rest c :
  walks sc P above (x :: rest) -> c ∈ x :: rest -> rtc (edge_to module start) c x.
Proof.
  revert above x. induction rest as [|y rest IH]; intros above x (_ & Hsucc & Hw) Hc.
  - apply elem_of_cons in Hc as [->|Hc]; [done|by apply not_elem_of_nil in Hc].
  - apply elem_of_cons in Hc as [->|Hc]; [done|].
    eapply rtc_r; [by eapply IH|]. by apply Hsucc.
Qed.

Lemma explored_mono path done cyc path' done' cyc' x k above above' :
  explored path done cyc x k above ->
  (forall t, t ∈ done -> t ∈ done') ->
  (forall t, t ∈ path -> cyc = true \/ above = Some t ->
     t ∈ done' \/ t ∈ path' /\ (cyc' = true \/ above' = Some t)) ->
  explored path' done' cyc' x k above'.
Proof. intros Hex Hd Hp j e Hj He. destruct (Hex j e Hj He) as [?|[? ?]]; eauto. Qed.

(** The turns still to make: the untaken edges and the completion of every node. *)
Definition slot_turns (s : AnalysisSlot) : N :=
  if decide (visit s = Complete) then 0 else 5 - slot_edge s.

Definition turns_left sc : N := foldr (fun s n => slot_turns s + n) 0 sc.

Lemma turns_left_upd sc i s s' :
  get sc i = Some s -> turns_left (upd sc i s') + slot_turns s = turns_left sc + slot_turns s'.
Proof.
  rewrite get_lookup. unfold upd. generalize (N.to_nat i). clear i.
  induction sc as [|s0 sc IH]; intros [|i] Hi; simplify_eq/=; [lia|].
  specialize (IH i Hi). lia.
Qed.

(** The forks flag after looking at the current node. *)
Lemma traversing_forks tr path done n :
  traversing tr path done -> current tr ∈ path -> get module (current tr) = Some n ->
  traversing (mkTraversal (scratch tr) (current tr) (cyclic tr) (forks tr || is_fork_node n)) path done.
Proof.
  intros [] Hc Hn. split; simpl; try done.
  - intros [?|?]%orb_true_iff; [auto|]. exists (current tr). unfold forks_at. rewrite Hn.
    split; [|done]. apply tv_reach0, elem_of_app. by left.
  - intros i Hi Hf. apply orb_true_iff. left. eauto.
  - intros [? _]%orb_false_iff. by apply tv_tasks0.
Qed.

(** A slot of the path that keeps its visit and parent. *)
Definition taken (s : AnalysisSlot) : AnalysisSlot :=
  mkAnalysis (visit s) (slot_parent_of s) (slot_edge s + 1) (usage s).

Section turn.
Context (sc : list AnalysisSlot) (x : N) (cyc fk : bool) (rest done : list N) (s : AnalysisSlot).
Hypothesis Htr : traversing (mkTraversal sc x cyc fk) (x :: rest) done.
Hypothesis Hs : get sc x = Some s.

Lemma turn_lt : x < len sc.
Proof. by eapply get_Some_lt. Qed.

Lemma turn_active : visit s = Active.
Proof. apply (tv_active _ _ _ Htr x s Hs). left. Qed.

Lemma turn_fresh : x ∉ rest /\ x ∉ done /\ NoDup (rest ++ done).
Proof.
  pose proof (tv_nodup _ _ _ Htr) as Hnd. simpl in Hnd. apply list.NoDup_cons in Hnd as [Hx Hnd].
  rewrite elem_of_app in Hx. naive_solver.
Qed.

Lemma turn_head :
  slot_edge s <= 4 /\ slot_parent_of s = head rest /\
  explored (x :: rest) done cyc x (slot_edge s) None.
Proof.
  destruct (tv_walks _ _ _ Htr) as ((s' & Hs' & ? & ? & ?) & _). simpl in Hs'.
  assert (s' = s) as -> by congruence. done.
Qed.

(** Taking an edge that leads nowhere new. *)
Lemma traversing_stay cyc' o :
  slot_edge s < 4 -> get (edges_at module x) (slot_edge s) = Some o ->
  (forall e, o = Some e -> edge_entry e - start ∈ done \/
     cyc' = true /\ edge_entry e - start ∈ x :: rest) ->
  (cyc = true -> cyc' = true) -> (cyc' = true -> edge_cycle module start root) ->
  traversing (mkTraversal (upd sc x (taken s)) x cyc' fk) (x :: rest) done.
Proof.
  intros Hk Ho Hnew Hcyc Hcycle. destruct Htr. simpl in *. pose proof turn_lt as Hlt.
  destruct turn_fresh as (Hxr & Hxd & _). destruct turn_head as (_ & Hp & Hex).
  split; simpl; try done.
  - by rewrite len_upd.
  - intros i s' [[-> ->]|[_ Hi]]%get_upd_inv; eauto. simpl. by apply tv_active0.
  - intros i s' [[-> ->]|[_ Hi]]%get_upd_inv; eauto. simpl. by apply tv_complete0.
  - intros i s' [[-> ->]|[_ Hi]]%get_upd_inv; eauto. simpl. rewrite turn_active. done.
  - destruct tv_walks0 as (_ & Hsucc & Hw). split; [|split; [done|]].
    + exists (taken s). rewrite get_upd_eq by done. simpl. do 3 (split; [by auto with lia|]).
      intros j e Hj He. destruct (decide (j = slot_edge s)) as [->|].
      * assert (o = Some e) as -> by congruence. destruct (Hnew e eq_refl); naive_solver.
      * destruct (Hex j e) as [?|[? [?|?]]]; [lia|done|..]; naive_solver.
    + apply walks_upd; [done|]. eapply walks_impl; [|exact Hw].
      intros y k a Hy Hey. eapply explored_mono; [exact Hey|done|]. naive_solver.
  - intros Hc. destruct cyc; [by rewrite Hcyc in Hc|]. destruct (tv_ordered0 eq_refl) as [? Hu].
    split; [done|]. intros i s' Hi Hg. destruct (decide (i = x)) as [->|]; [done|].
    rewrite get_upd_ne in Hg by done. eauto.
  - intros Hf i s' [[-> ->]|[_ Hi]]%get_upd_inv; [simpl|..]; eauto.
Qed.

Lemma descend_slots t st : get sc t = Some st ->
  forall i s', get (upd (upd sc x (taken s)) t
    (mkAnalysis Active (Some x) (slot_edge st) (usage st))) i = Some s' ->
  i = t /\ s' = mkAnalysis Active (Some x) (slot_edge st) (usage st) \/
  i <> t /\ exists s0, get sc i = Some s0 /\ visit s' = visit s0 /\ usage s' = usage s0 /\
    (slot_edge s' = slot_edge s0 \/ i = x).
Proof.
  intros Ht%get_Some_lt i s' [[-> ->]|[? Hi]]%get_upd_inv; [by left| |by rewrite len_upd].
  right. split; [done|]. apply get_upd_inv in Hi as [[-> ->]|[? Hi]]; [..|apply turn_lt];
    [exists s|exists s']; auto.
Qed.

(** Taking an edge to a node not seen before, which becomes current. *)
Lemma traversing_descend e st :
  slot_edge s < 4 -> get (edges_at module x) (slot_edge s) = Some (Some e) ->
  get sc (edge_entry e - start) = Some st -> visit st = Unseen ->
  traversing (mkTraversal
    (upd (upd sc x (taken s)) (edge_entry e - start)
       (mkAnalysis Active (Some x) (slot_edge st) (usage st))) (edge_entry e - start) cyc fk)
    (edge_entry e - start :: x :: rest) done.
Proof.
  set (t := edge_entry e - start). intros Hk He Ht Hun. pose proof turn_lt as Hlt.
  assert (edge_to module start x t) as Hsucc.
  { exists e. split; [|done]. rewrite get_lookup in He. by eapply list_elem_of_lookup_2. }
  destruct Htr. simpl in *. assert (t ∉ x :: rest) as Htp.
  { intros ?%(tv_active0 t st Ht). congruence. }
  assert (t ∉ done) as Htd. { intros ?%(tv_complete0 t st Ht). congruence. }
  assert (t <> x) as Htx. { intros ->. apply Htp. left. }
  destruct turn_fresh as (Hxr & Hxd & _). destruct turn_head as (_ & Hp & Hex).
  pose proof (get_Some_lt _ _ _ Ht) as Htl.
  pose proof (descend_slots t st Ht) as Hinv. fold t in Hinv.
  split; simpl.
  - by rewrite !len_upd.
  - by intros ? [= ->].
  - constructor; [|done]. by rewrite app_comm_cons, not_elem_of_app.
  - intros i s' [[-> ->]|(? & s0 & Hs0 & -> & _)]%Hinv; rewrite elem_of_cons; [naive_solver|].
    rewrite (tv_active0 i s0 Hs0). naive_solver.
  - intros i s' [[-> ->]|(? & s0 & Hs0 & -> & _)]%Hinv; [done|eauto].
  - intros i s' [[-> ->]|(? & s0 & Hs0 & -> & _ & [->| ->])]%Hinv Hv; [done|eauto|].
    assert (s0 = s) as -> by congruence. by rewrite turn_active in Hv.
  - intros i [->|Hi]%elem_of_cons; [by rewrite <- tv_len0|auto].
  - split; [|split].
    + rewrite get_upd_eq by by rewrite len_upd. eexists. split; [done|]. simpl.
      rewrite (tv_unseen0 t st Ht Hun). split; [lia|]. split; [done|]. intros j e' Hj. lia.
    + by intros ? [= <-].
    + apply (walks_upd _ _ _ (x :: rest)); [done|]. destruct tv_walks0 as (_ & Hsx & Hw). split; [|split; [done|]].
      * exists (taken s). rewrite get_upd_eq by done. simpl. do 3 (split; [by auto with lia|]).
        intros j e' Hj He'. destruct (decide (j = slot_edge s)) as [->|].
        -- assert (e' = e) as -> by congruence. right. split; [left|by right].
        -- destruct (Hex j e') as [?|[? [?|?]]]; [lia|done|by left| |done].
           right. split; [by right|by left].
      * apply walks_upd; [done|]. eapply walks_impl; [|exact Hw].
        intros y k a Hy Hey. eapply explored_mono; [exact Hey|done|].
        intros. right. split; [by right|done].
  - intros i [->|Hi]%elem_of_cons; [|auto]. eapply rtc_r; [|done]. apply tv_reach0. left.
  - intros i j Hi Hj. right. eauto.
  - done.
  - intros Hc. destruct (tv_ordered0 Hc) as [? Hu]. split; [done|]. intros i s' Hi Hg.
    apply Hinv in Hg as [[-> ->]|(? & s0 & Hs0 & _ & -> & _)]; [done|eauto].
  - done.
  - done.
  - intros Hf i s' [[-> ->]|(? & s0 & Hs0 & _ & -> & _)]%Hinv; [simpl|]; eauto.
Qed.

(** With every edge taken, all successors are complete, or active because of a cycle. *)
Lemma successors_explored j :
  4 <= slot_edge s -> edge_to module start x j ->
  j ∈ done \/ j ∈ x :: rest /\ cyc = true.
Proof.
  intros Hk (e & He & <-). destruct turn_head as (_ & _ & Hex).
  apply list_elem_of_lookup in He as [k Hk'].
  destruct (Hex (N.of_nat k) e) as [?|[? [?|?]]]; [..|by left|by right|done].
  - apply lookup_lt_Some in Hk'. unfold edges_at in Hk'.
    destruct (get module x) as [n|]; simpl in *; [|lia].
    pose proof (len_edges n). unfold len in *. lia.
  - by rewrite get_lookup, Nat2N.id.
Qed.

Lemma successors_done j :
  4 <= slot_edge s -> cyc = false -> edge_to module start x j -> j ∈ done.
Proof. intros Hk Hc Hj. destruct (successors_explored j Hk Hj) as [?|[_ ?]]; [done|congruence]. Qed.

Lemma successors_seen j :
  4 <= slot_edge s -> edge_to module start x j -> j ∈ (x :: rest) ++ done.
Proof.
  intros Hk Hj. apply elem_of_app. destruct (successors_explored j Hk Hj) as [?|[? _]]; auto.
Qed.

Let u := node_usage (successor_usage (mkTraversal sc x cyc fk) start) (edges_at module x).

(** Without a cycle, the usage computed is the recursive bound. *)
Lemma finished_usage :
  4 <= slot_edge s -> cyc = false ->
  ordered module start (x :: done) /\ u = usage_to module start (length module) x.
Proof.
  intros Hk Hc. destruct (tv_ordered _ _ _ Htr Hc) as [Hord Hu].
  assert (ordered module start (x :: done)) as Hord'.
  { split; [|done]. intros. by apply successors_done. }
  split; [done|]. assert (length (x :: done) <= length module)%nat as Hlen.
  { destruct turn_fresh as (_ & Hxd & [_ [_ Hnd]]%list.NoDup_app).
    assert (len (x :: done) <= len module) as Hl; [|unfold len in Hl; lia].
    apply pigeonhole; [by constructor|]. intros i Hi. apply (tv_range _ _ _ Htr).
    simpl. rewrite elem_of_cons, elem_of_app. apply elem_of_cons in Hi. naive_solver. }
  rewrite (usage_to_ordered _ _ (x :: done) Hord' x (length module)) by (done || left).
  rewrite <- (usage_to_ordered _ _ (x :: done) Hord' x (S (length module))) by (lia || left).
  simpl. unfold u. apply node_usage_ext. intros e He. unfold successor_usage. simpl.
  assert (edge_entry e - start ∈ done) as Hd by (apply successors_done; [done..|by exists e]).
  destruct (get_lt sc (edge_entry e - start)) as [st Hst].
  { rewrite (tv_len _ _ _ Htr : len sc = _). by apply (Hclosed x). }
  rewrite Hst. unfold slot_usage. rewrite decide_False; [by apply Hu|].
  assert (visit st = Complete) as -> by by apply (tv_complete _ _ _ Htr _ _ Hst). done.
Qed.

(** Without a fork, one task suffices. *)
Lemma finished_tasks : fk = false -> forks_at module x = false -> use_tasks u = Some 1.
Proof.
  intros Hf Hx. unfold u, node_usage.
  assert (forall es acc, (forall e, Some e ∈ es -> edge_fork e = false) ->
    use_tasks acc.1.1 = Some 1 -> acc.1.2 = Some 1 ->
    let r := add_edges (successor_usage (mkTraversal sc x cyc fk) start) es acc in
    use_tasks r.1.1 = Some 1 /\ r.1.2 = Some 1) as Hadd.
  { induction es as [|[e|] es IH]; intros [[v ft] ff] Hes Hv Hft; simpl in *; [done| |].
    - rewrite (Hes e) by left. apply IH; [|simpl|done]; [intros; apply Hes; by right|].
      rewrite Hv. unfold successor_usage, slot_usage. simpl.
      destruct (get sc (edge_entry e - start)) as [st|] eqn:Hst; [|done].
      destruct (decide (visit st = Active)); [done|].
      by rewrite (tv_tasks _ _ _ Htr Hf _ _ Hst).
    - apply IH; [|done..]. intros. apply Hes. by right. }
  specialize (Hadd (edges_at module x) (default_usage, Some 1, Some 0)). simpl in Hadd.
  destruct (add_edges _ _ _) as [[v ft] ff]. simpl in *.
  destruct Hadd as [-> ->]; [|done..]. intros e. unfold edges_at. unfold forks_at in Hx.
  destruct (get module x) as [[k nx po]|]; [|by intros ?%not_elem_of_nil].
  unfold edges, local_edge, is_fork_node in *. simpl in *.
  intros Hin. destruct k; simpl in Hin, Hx; try discriminate;
    repeat (apply elem_of_cons in Hin as [Hin|Hin]; [by destruct nx; simplify_eq/=|]);
    by apply not_elem_of_nil in Hin.
Qed.

(** Completing the current node. *)
Lemma traversing_finish below :
  4 <= slot_edge s -> (forks_at module x = true -> fk = true) ->
  (forall y, head rest = Some y -> below = y) ->
  traversing (mkTraversal (upd sc x (mkAnalysis Complete (slot_parent_of s) (slot_edge s) u))
    below cyc fk) rest (x :: done).
Proof.
  intros Hk Hfx Hbelow. pose proof turn_lt as Hlt. pose proof finished_usage as Hfin.
  pose proof finished_tasks as Htasks. pose proof successors_seen as Hseen.
  destruct turn_fresh as (Hxr & Hxd & Hnd).
  assert (forall i, i ∈ rest ++ x :: done <-> i ∈ x :: rest ++ done) as Hperm.
  { intros i. rewrite elem_of_cons, !elem_of_app, elem_of_cons. naive_solver. }
  destruct Htr. simpl in *. split; simpl.
  - by rewrite len_upd.
  - done.
  - apply list.NoDup_app in Hnd as (? & ? & ?). apply list.NoDup_app. split_and!; [done| |by constructor].
    intros y Hy [->|?]%elem_of_cons; naive_solver.
  - intros i s' [[-> ->]|[? Hi]]%get_upd_inv; [simpl|..|done].
    + split; [done|]. intros ?. by destruct Hxr.
    + rewrite (tv_active0 i s' Hi), elem_of_cons. naive_solver.
  - intros i s' [[-> ->]|[? Hi]]%get_upd_inv; [simpl|..|done].
    + split; [intros _; left|done].
    + rewrite (tv_complete0 i s' Hi), elem_of_cons. naive_solver.
  - intros i s' [[-> ->]|[? Hi]]%get_upd_inv; [done|eauto|done].
  - intros i Hi%Hperm. auto.
  - apply walks_upd; [done|]. destruct tv_walks0 as (_ & _ & Hw).
    assert (walks sc (explored rest (x :: done) cyc) (Some x) rest) as Hw'.
    { eapply walks_impl; [|exact Hw]. intros y k a Hy Hex. eapply explored_mono; [exact Hex|by right|].
      intros t [->|Ht]%elem_of_cons Ha; [left; left|by right]. }
    destruct rest as [|y rest']; [done|]. eapply walks_head; [exact Hw'|].
    intros k Hex. eapply explored_mono; [exact Hex|done|].
    intros t Ht [Hc|[= ->]]; [right; split; [done|by left]|left; left].
  - intros i Hi%Hperm. auto.
  - intros i j [->|Hi]%elem_of_cons Hj; apply Hperm; [by apply Hseen|eauto].
  - done.
  - intros Hc. destruct (Hfin Hk Hc) as [Hord Hu]. split; [done|].
    intros i s' Hi [[-> ->]|[? Hg]]%get_upd_inv; [done| |done]. destruct (tv_ordered0 Hc) as [_ Hdone].
    apply Hdone; [|done]. apply elem_of_cons in Hi. naive_solver.
  - done.
  - intros i [->|Hi]%elem_of_cons; eauto.
  - intros Hf i s' [[-> ->]|[? Hg]]%get_upd_inv; [simpl|eauto|done]. apply Htasks; [done|].
    destruct (forks_at module x); [|done]. rewrite Hfx in Hf; done.
Qed.
End turn.

(** ** One turn and the loop *)

Lemma successors_found tr i :
  len (scratch tr) = len module -> successors_in_range tr start (edges_at module i) = true.
Proof.
  intros Hl. unfold successors_in_range. apply forallb_forall. intros [e|] He; [|done].
  destruct (Hclosed i e) as [? ?]; [by apply list_elem_of_In|].
  apply andb_true_iff. rewrite N.leb_le, N.ltb_lt, Hl. done.
Qed.

(** The answer of a turn: the traversal goes on with fewer turns left, or is over. *)
Definition turned (before : N) (answer : option Usage) (tr : Traversal) : Prop :=
  match answer with
  | None => turns_left (scratch tr) < before /\
      exists x rest done, traversing tr (x :: rest) done
  | Some u => exists done, traversing tr [] done /\ root ∈ done /\
      exists s, get (scratch tr) root = Some s /\ usage s = u
  end.

Lemma turns_left_taken sc x s :
  get sc x = Some s -> visit s = Active -> slot_edge s < 4 ->
  turns_left (upd sc x (taken s)) < turns_left sc.
Proof.
  intros Hs Hv Hk. pose proof (turns_left_upd sc x s (taken s) Hs) as Ht.
  unfold slot_turns in Ht. simpl in Ht. rewrite Hv, !decide_False in Ht by done. lia.
Qed.

Lemma wp_follow sc x cyc fk rest done s e :
  traversing (mkTraversal sc x cyc fk) (x :: rest) done -> get sc x = Some s ->
  slot_edge s < 4 -> get (edges_at module x) (slot_edge s) = Some (Some e) ->
  wp (follow (edge_entry e - start))
    (fun _ => turned (turns_left sc) None) (fun _ _ => False)
    (mkTraversal (upd sc x (taken s)) x cyc fk).
Proof.
  intros Htr Hs Hk He. set (t := edge_entry e - start).
  pose proof (turn_active _ _ _ _ _ _ _ Htr Hs) as Hv. pose proof (tv_len _ _ _ Htr) as Hlen.
  assert (edge_to module start x t) as Hsucc.
  { exists e. split; [|done]. rewrite get_lookup in He. by eapply list_elem_of_lookup_2. }
  assert (t < len sc) as Htl. { simpl in Hlen. rewrite Hlen. destruct Hsucc as (e' & ? & <-). by apply (Hclosed x). }
  pose proof (turns_left_taken _ _ _ Hs Hv Hk) as Hless.
  destruct (get_lt (upd sc x (taken s)) t) as [st Hst]; [by rewrite len_upd|].
  unfold follow. apply wp_bind, wp_gets, wp_bind. eapply wp_expect; [exact Hst|].
  destruct (visit st) eqn:Hvt.
  - apply wp_modify. simpl. apply get_upd_inv in Hst as [[_ ->]|[Hne Hst]];
      [simpl in Hvt; congruence| |by eapply get_Some_lt].
    split; [|do 3 eexists; by apply (traversing_descend _ _ _ _ _ _ _ Htr Hs)].
    eapply N.le_lt_trans; [|exact Hless]. simpl.
    pose proof (turns_left_upd (upd sc x (taken s)) t st
      (mkAnalysis Active (Some x) (slot_edge st) (usage st))) as Ht.
    rewrite get_upd_ne in Ht by done. specialize (Ht Hst). unfold slot_turns in Ht. simpl in Ht.
    rewrite Hvt, !decide_False in Ht by done. lia.
  - apply wp_modify. simpl. split; [done|]. exists x, rest, done.
    assert (t ∈ x :: rest) as Ht.
    { apply get_upd_inv in Hst as [[Hx _]|[_ Hst]]; [rewrite Hx; left| |by eapply get_Some_lt].
      by apply (tv_active _ _ _ Htr t st). }
    eapply traversing_stay; eauto; [by intros e' [= <-]; right|]. intros _. exists t. split.
    + apply (tv_reach _ _ _ Htr). apply elem_of_app. by left.
    + eapply tc_rtc_l; [|by apply tc_once]. eapply walks_reach; [|done]. apply (tv_walks _ _ _ Htr).
  - apply wp_ret. split; [done|]. exists x, rest, done.
    apply get_upd_inv in Hst as [[_ ->]|[Hne Hst]]; [simpl in Hvt; congruence| |by eapply get_Some_lt].
    eapply traversing_stay; eauto; [|apply (tv_cyclic _ _ _ Htr)].
    intros e' [= <-]. left. by apply (tv_complete _ _ _ Htr t st).
Qed.

Lemma wp_finish_node sc x cyc fk rest done s n :
  traversing (mkTraversal sc x cyc fk) (x :: rest) done -> get sc x = Some s ->
  get module x = Some n -> 4 <= slot_edge s -> (is_fork_node n = true -> fk = true) ->
  let u := node_usage (successor_usage (mkTraversal sc x cyc fk) start) (edges_at module x) in
  let sc' := upd sc x (mkAnalysis Complete (slot_parent_of s) (slot_edge s) u) in
  match slot_parent_of s with
  | Some parent => turned (turns_left sc) None (mkTraversal sc' parent cyc fk)
  | None => turned (turns_left sc) (Some u) (mkTraversal sc' x cyc fk)
  end.
Proof.
  intros Htr Hs Hn Hk Hf u sc'. destruct (turn_head _ _ _ _ _ _ _ Htr Hs) as (Hk' & Hp & _).
  assert (forks_at module x = true -> fk = true) as Hfx by (unfold forks_at; by rewrite Hn).
  pose proof (get_Some_lt _ _ _ Hs) as Hlt.
  destruct rest as [|y rest]; simpl in Hp; rewrite Hp.
  - exists (x :: done). unfold sc'. split.
    + by apply (traversing_finish _ _ _ _ _ _ _ Htr Hs x).
    + destruct (tv_walks _ _ _ Htr) as (_ & _ & Hroot). simpl in Hroot.
      rewrite <- (Hroot x eq_refl). split; [left|]. simpl. rewrite get_upd_eq by done. by eexists.
  - split.
    + simpl. unfold sc'. pose proof (turns_left_upd sc x s
        (mkAnalysis Complete (slot_parent_of s) (slot_edge s) u) Hs) as Ht.
      unfold slot_turns in Ht. simpl in Ht.
      rewrite (turn_active _ _ _ _ _ _ _ Htr Hs) in Ht. rewrite decide_False in Ht by done.
      lia.
    + exists y, rest, (x :: done). unfold sc'. apply (traversing_finish _ _ _ _ _ _ _ Htr Hs y); [done..|].
      by intros ? [= ->].
Qed.

Lemma wp_analysis_turn tr x rest done :
  traversing tr (x :: rest) done ->
  wp (analysis_turn module start) (turned (turns_left (scratch tr))) (fun _ _ => False) tr.
Proof.
  intros Htr. destruct tr as [sc y cyc fk].
  pose proof (tv_current _ _ _ Htr x eq_refl) as Hx. simpl in Hx. subst y.
  destruct (get_lt module x) as [n Hn]; [apply (tv_range _ _ _ Htr); left|].
  destruct (get_lt sc x) as [s Hs]; [rewrite (tv_len _ _ _ Htr : len sc = _); by eapply get_Some_lt|].
  pose proof (traversing_forks _ _ _ n Htr ltac:(left) Hn) as Htr'. simpl in Htr'.
  unfold analysis_turn. apply wp_bind, wp_gets, wp_bind. eapply wp_expect; [exact Hn|].
  apply wp_bind, wp_modify, wp_bind. eapply wp_expect; [exact Hs|]. simpl.
  rewrite <- (edges_at_get _ _ _ Hn).
  assert (len (edges_at module x) = 4) as Hl by (rewrite (edges_at_get _ _ _ Hn); apply len_edges).
  rewrite Hl. destruct (N.ltb_spec (slot_edge s) 4) as [Hk|Hk].
  - destruct (get_lt (edges_at module x) (slot_edge s)) as [o Ho]; [lia|].
    apply wp_bind. eapply wp_expect; [exact Ho|]. apply wp_bind, wp_modify, wp_bind. simpl.
    fold (taken s). eapply (wp_mono _ (fun _ => turned (turns_left sc) None));
      [|by intros _ tr' ?|done]. destruct o as [e|].
    + apply wp_bind. eapply wp_expect.
      { apply checked_sub_Some. split; [done|]. apply (Hclosed x e).
        rewrite get_lookup in Ho. by eapply list_elem_of_lookup_2. }
      by eapply wp_follow.
    + apply wp_ret. split; [|exists x, rest, done].
      * apply turns_left_taken; [done| |done]. by eapply turn_active.
      * eapply traversing_stay; eauto; [done|]. apply (tv_cyclic _ _ _ Htr').
  - rewrite successors_found by apply (tv_len _ _ _ Htr). simpl. apply wp_bind, wp_modify. simpl.
    pose proof (wp_finish_node _ _ _ _ _ _ _ _ Htr' Hs Hn Hk) as Hfin.
    assert (is_fork_node n = true -> fk || is_fork_node n = true) as Hf
      by (intros ->; apply orb_true_r). specialize (Hfin Hf). simpl in Hfin.
    change (successor_usage (mkTraversal sc x cyc (fk || is_fork_node n)) start)
      with (successor_usage (mkTraversal sc x cyc fk) start) in Hfin.
    destruct (slot_parent_of s); [apply wp_bind, wp_modify, wp_ret|apply wp_ret]; exact Hfin.
Qed.

Lemma wp_analysis_loop fuel tr x rest done :
  traversing tr (x :: rest) done -> turns_left (scratch tr) < N.of_nat fuel ->
  wp (analysis_loop fuel module start)
    (fun u tr' => exists n, turned n (Some u) tr') (fun _ _ => False) tr.
Proof.
  revert tr x rest done. induction fuel as [|fuel IH]; intros tr x rest done Htr Hf; [lia|].
  simpl. apply wp_bind. eapply wp_mono; [by eapply wp_analysis_turn| |done].
  intros [u|] tr' Ht; [apply wp_ret; by exists 0|].
  destruct Ht as (Hless & x' & rest' & done' & Htr'). eapply IH; [done|lia].
Qed.
End invariant.

(** ** Admission of a module *)

(** An address of an instruction of the module [first..last]. *)
Definition resolves_in {V E} (image : ProgramImage V E) (first last : N) (a : address) : Prop :=
  match a with
  | ANode i => first <= i < last
  | _ => resolves image a
  end.

(** What [module_requirements] demands of a module and of the caller's scratch. *)
Definition module_ok {V E} (image : ProgramImage V E) (entry first last slots : N)
    (module : list (Node V E)) : Prop :=
  version image = IMAGE_VERSION /\ slice image first last = Some module /\
  first <= entry < last /\
  Forall (fun n => Forall (resolves_in image first last) (addresses n)) module /\
  len module <= slots.

Section admission.
Context {V E : Type}.
Implicit Types (image : ProgramImage V E).

Lemma visit_module_ok image first last l :
  fst (visit_all (check_module_node first last) (check_import image) (check_binding image) l tt)
    = Ok tt <-> Forall (resolves_in image first last) l.
Proof.
  induction l as [|a l IH]; [by split|]. rewrite list.Forall_cons, <- IH.
  destruct a as [i|i|i]; simpl; unfold and_then, check_module_node, check_import, check_binding.
  - destruct (N.leb_spec first i), (N.ltb_spec i last); simpl;
      (split; [intros ?; (done || by split)|intros [? ?]; (done || lia)]).
  - destruct (N.ltb_spec i (imports image)); simpl;
      (split; [intros ?; (done || by split)|intros [? ?]; (done || lia)]).
  - destruct (N.ltb_spec i (image_bindings image)); simpl;
      (split; [intros ?; (done || by split)|intros [? ?]; (done || lia)]).
Qed.

Lemma check_module_ok image first last l :
  check_module image first last l = Ok tt <->
  Forall (fun n => Forall (resolves_in image first last) (addresses n)) l.
Proof.
  induction l as [|n l IH]; [by split|]. rewrite list.Forall_cons, <- IH, <- visit_module_ok. simpl.
  rewrite <- visit_all_addresses. destruct (visit_indices _ _ _ n tt) as [[[]|f] []]; simpl; naive_solver.
Qed.

(** Every successor is one of the instruction's code addresses. *)
Lemma edges_addresses (n : Node V E) e :
  Some e ∈ edges n -> ANode (edge_entry e) ∈ addresses n.
Proof.
  destruct n as [k nx po]. unfold edges, addresses, local_edge, fork_edge. simpl.
  rewrite !elem_of_app. intros [Hin|Hin].
  - right. destruct k; simpl in Hin;
      repeat (apply elem_of_cons in Hin as [Hin|Hin];
        [simplify_eq/=; rewrite ?elem_of_cons; by auto 10|]); by apply not_elem_of_nil in Hin.
  - left. apply list_elem_of_singleton in Hin. destruct nx; simplify_eq/=. left.
Qed.

Lemma slice_len image first last module :
  slice image first last = Some module -> len module = last - first.
Proof.
  unfold slice. destruct (N.leb_spec first last), (N.leb_spec last (len (nodes image))); simpl; try done.
  intros [= <-]. unfold len in *. rewrite length_take, length_drop. lia.
Qed.

Lemma module_closed image entry first last slots module :
  module_ok image entry first last slots module -> closed module first.
Proof.
  intros (_ & Hsl & _ & Hall & _) i e He. unfold edges_at in He.
  destruct (get module i) as [n|] eqn:Hn; [|by apply not_elem_of_nil in He].
  rewrite get_lookup in Hn. eapply Forall_lookup in Hall; [|exact Hn]. simpl in Hall.
  rewrite Forall_forall in Hall. apply edges_addresses in He.
  apply Hall in He as [? ?]. rewrite (slice_len _ _ _ _ Hsl). lia.
Qed.

(** The state in which the loop starts. *)
Definition traversal_start (module : list (Node V E)) (root : N) : Traversal :=
  mkTraversal (upd (replicate (length module) default_analysis) root
    (mkAnalysis Active None 0 default_usage)) root false false.

Lemma traversing_start (module : list (Node V E)) start root :
  root < len module -> traversing module start root (traversal_start module root) [root] [].
Proof.
  intros Hroot.
  assert (len (replicate (length module) default_analysis) = len module) as Hl
    by (unfold len; by rewrite length_replicate).
  assert (forall i s, get (scratch (traversal_start module root)) i = Some s ->
    i = root /\ s = mkAnalysis Active None 0 default_usage \/ i <> root /\ s = default_analysis) as Hinv.
  { intros i s [[-> ->]|[? Hi]]%get_upd_inv; [by left|right|by rewrite Hl].
    rewrite get_lookup in Hi. by apply lookup_replicate in Hi as [-> _]. }
  split; simpl; try done.
  - by rewrite len_upd.
  - by intros ? [= ->].
  - apply NoDup_singleton.
  - intros i s [[-> ->]|[? ->]]%Hinv; rewrite list_elem_of_singleton; naive_solver.
  - intros i s [[-> ->]|[? ->]]%Hinv; (split; [done|by intros ?%not_elem_of_nil]).
  - by intros i s [[-> ->]|[? ->]]%Hinv.
  - by intros i ->%list_elem_of_singleton.
  - split; [|split; [done|by intros ? [= ->]]]. rewrite get_upd_eq by by rewrite Hl.
    eexists. split; [done|]. simpl. split; [lia|]. split; [done|]. intros j e Hj. lia.
  - by intros i ->%list_elem_of_singleton.
  - by intros i j ?%not_elem_of_nil.
  - intros _. split; [done|]. by intros i s ?%not_elem_of_nil.
  - by intros i ?%not_elem_of_nil.
  - by intros _ i s [[-> ->]|[? ->]]%Hinv.
Qed.

Lemma turns_left_start (module : list (Node V E)) root :
  root < len module ->
  turns_left (scratch (traversal_start module root)) = 5 * len module.
Proof.
  intros Hroot. unfold traversal_start. simpl.
  destruct (get_lt (replicate (length module) default_analysis) root) as [s Hs].
  { unfold len in *. by rewrite length_replicate. }
  pose proof (turns_left_upd _ _ _ (mkAnalysis Active None 0 default_usage) Hs) as Ht.
  rewrite get_lookup in Hs. apply lookup_replicate in Hs as [-> _].
  unfold slot_turns in Ht. simpl in Ht. apply N.add_cancel_r in Ht. rewrite Ht. unfold len. clear.
  induction (length module) as [|m IH]; simpl in *; unfold slot_turns; simpl; lia.
Qed.
End admission.

(** ** Properties *)

(** ** What the analysis promises

    The specification reads the instructions themselves: which instructions are parts of
    an instruction comes from the addresses in it, and what it needs from an equation for
    each kind of instruction, over an algebra of needs. *)

(** Running with [k] continuations of the same task below. *)
Definition under (k : N) (u : Usage) : Usage :=
  mkUsage (sum (Some k) (own_frames u)) (child_frames u) (use_tasks u) (sum (Some k) (use_frames u)).

(** One or the other, never both at once. *)
Definition either (u v : Usage) : Usage :=
  mkUsage (maximum (own_frames u) (own_frames v)) (maximum (child_frames u) (child_frames v))
    (maximum (use_tasks u) (use_tasks v)) (maximum (use_frames u) (use_frames v)).

(** Two child tasks at once, beside the task that waits for them. *)
Definition alongside (u v : Usage) : Usage :=
  mkUsage (Some 0)
    (maximum (maximum (own_frames u) (child_frames u)) (maximum (own_frames v) (child_frames v)))
    (sum (Some 1) (sum (use_tasks u) (use_tasks v))) (sum (use_frames u) (use_frames v)).

(** One task and no continuations. *)
Definition nothing : Usage := mkUsage (Some 0) (Some 0) (Some 1) (Some 0).

Section specification.
Context {V E : Type}.
Context (module : list (Node V E)) (start : N).

(** Instruction [j] is a part of instruction [i] or runs after it. *)
Definition successor (i j : N) : Prop :=
  exists n a, get module i = Some n /\ ANode a ∈ addresses n /\ a - start = j.

(** A cycle that can be reached from an instruction. *)
Definition cycle_from (i : N) : Prop := exists j, rtc successor i j /\ tc successor j j.

(** A fork that can be reached from an instruction. *)
Definition fork_from (i : N) : Prop :=
  exists j n l r policy, rtc successor i j /\ get module j = Some n /\ node_kind n = NFork l r policy.

(** What an instruction needs, from what its parts need: a part runs with the
    continuation of its instruction and, where the instruction returns to another part or
    to its own successor, with the one that resumes it. *)
Definition needs_of (part : N -> Usage) (n : Node V E) : Usage :=
  match node_kind n with
  | NLiteral _ | NInput | NLoad _ | NFail _ | NRequest _ => nothing
  | NCall f => under 1 (part f)
  | NThen first then_ => either (under 2 (part first)) (under 1 (part then_))
  | NCatch body recover => either (under 2 (part body)) (under 1 (part recover))
  | NFinally body cleanup => either (under 2 (part body)) (under 2 (part cleanup))
  | NIf yes no => either (under 1 (part yes)) (under 1 (part no))
  | NBranch condition yes no =>
      either (under 2 (part condition)) (either (under 1 (part yes)) (under 1 (part no)))
  | NLet _ value body => either (under 2 (part value)) (under 2 (part body))
  | NWhile condition body _ => either (under 2 (part condition)) (under 2 (part body))
  | NFork l r _ => alongside (part l) (part r)
  | NScope _ body => under 2 (part body)
  end.

(** The recursion over the instructions, to a given depth. *)
Fixpoint needs (depth : nat) (i : N) : Usage :=
  match depth with
  | O => unbounded_usage
  | S depth =>
      let part a := needs depth (a - start) in
      match get module i with
      | None => nothing
      | Some n => either nothing (either (needs_of part n)
          (match node_next n with Some next => under 0 (part next) | None => nothing end))
      end
  end.

(** Without a reachable cycle the bounds are those of the recursion over the
    instructions; with one no frame bound is claimed, and a task bound only where no fork
    is reachable. *)
Definition structural (root bindings : N) (r : ResourceRequirements) : Prop :=
  req_bindings_per_task r = bindings /\
  (~ cycle_from root ->
     let u := needs (length module) root in
     req_tasks r = use_tasks u /\ req_frames r = use_frames u /\
     req_frames_per_task r = maximum (own_frames u) (child_frames u)) /\
  (cycle_from root ->
     req_frames r = None /\ req_frames_per_task r = None /\
     (fork_from root -> req_tasks r = None) /\
     (~ fork_from root -> req_tasks r = Some 1)).

(** The edges of an instruction are its code addresses. *)
Lemma edges_node (n : Node V E) a :
  ANode a ∈ addresses n <-> exists e, Some e ∈ edges n /\ edge_entry e = a.
Proof.
  split; [|intros (e & He & <-); by apply edges_addresses].
  destruct n as [k nx po]. unfold edges, addresses, local_edge, fork_edge. simpl.
  rewrite elem_of_app. intros [Hin|Hin].
  - destruct nx; [|by apply not_elem_of_nil in Hin]. apply list_elem_of_singleton in Hin as [= ->].
    eexists (mkEdge _ 0 false). split; [|done]. apply elem_of_app. right. left.
  - destruct k; simpl in Hin;
      repeat (apply elem_of_cons in Hin as [Hin|Hin]; [simplify_eq/=;
        eexists (mkEdge _ _ _); (split; [|reflexivity]); rewrite ?elem_of_cons; eauto 10|]);
      by apply not_elem_of_nil in Hin.
Qed.

Lemma edge_to_successor i j : edge_to module start i j <-> successor i j.
Proof.
  unfold edge_to, successor, edges_at. split.
  - intros (e & He & <-). destruct (get module i) as [n|]; [|by apply not_elem_of_nil in He].
    exists n, (edge_entry e). split; [done|]. split; [|done]. apply edges_node. eauto.
  - intros (n & a & -> & (e & He & <-)%edges_node & <-). eauto.
Qed.

Lemma edge_cycle_from i : edge_cycle module start i <-> cycle_from i.
Proof.
  split; intros (j & Hij & Hjj); exists j; (split;
    [eapply rtc_subrel; [|exact Hij]|eapply (tc_congruence id); [|exact Hjj]]);
    intros ? ? ?; by apply edge_to_successor.
Qed.

Lemma edge_fork_from i : edge_forks module start i <-> fork_from i.
Proof.
  split.
  - intros (j & Hij & Hf). unfold forks_at, is_fork_node in Hf.
    destruct (get module j) as [n|] eqn:Hn; [|done].
    destruct (node_kind n) as [| | | | | | | | | | | |l r policy| |] eqn:Hk; try done.
    exists j, n, l, r, policy. split; [|done]. eapply rtc_subrel; [|exact Hij].
    intros ? ? ?. by apply edge_to_successor.
  - intros (j & n & l & r & policy & Hij & Hn & Hk). exists j. split.
    + eapply rtc_subrel; [|exact Hij]. intros ? ? ?. by apply edge_to_successor.
    + unfold forks_at, is_fork_node. by rewrite Hn, Hk.
Qed.
Lemma sum_zero a b : sum (sum (Some 0) a) b = sum a b.
Proof.
  destruct a as [a|], b as [b|]; simpl; unfold checked_add; rewrite ?N.add_0_l; try done.
  - destruct (N.leb_spec a usize_max); simpl; unfold checked_add; [done|].
    destruct (N.leb_spec (a + b) usize_max); [lia|done].
  - by destruct (a <=? usize_max).
Qed.

Lemma sum_assoc a b c : sum (sum a b) c = sum a (sum b c).
Proof.
  destruct a as [a|], b as [b|], c as [c|]; simpl; unfold checked_add; try done.
  2: by destruct (a + b <=? usize_max).
  destruct (N.leb_spec (a + b) usize_max), (N.leb_spec (b + c) usize_max); simpl; unfold checked_add;
    rewrite ?N.add_assoc; try done; destruct (N.leb_spec (a + b + c) usize_max); done || lia.
Qed.

(** The loop over the edges computes the equation of the instruction. *)
Lemma node_usage_needs (f : N -> Usage) (n : Node V E) :
  node_usage f (edges n) = either nothing (either (needs_of f n)
    (match node_next n with Some next => under 0 (f next) | None => nothing end)).
Proof.
  destruct n as [k nx po]. unfold node_usage, edges, needs_of. cbn [node_kind node_next].
  destruct k, nx; cbn -[sum maximum]; unfold either, under, alongside, nothing; cbn -[sum maximum];
    rewrite ?sum_zero, ?sum_assoc; f_equal;
    repeat match goal with
    | |- context [sum ?a ?b] => generalize (sum a b); intros ?
    | |- context [child_frames ?u] => generalize (child_frames u); intros ?
    | |- context [own_frames ?u] => generalize (own_frames u); intros ?
    | |- context [use_tasks ?u] => generalize (use_tasks u); intros ?
    end;
    repeat match goal with o : option N |- _ => destruct o as [?|] end; simpl; done || (f_equal; lia).
Qed.

Lemma usage_to_needs d i : usage_to module start d i = needs d i.
Proof.
  revert i. induction d as [|d IH]; intros i; [done|]. simpl. unfold edges_at.
  rewrite (node_usage_ext _ (fun a => needs d (a - start))) by (intros; apply IH).
  destruct (get module i) as [n|]; [apply node_usage_needs|done].
Qed.
End specification.

Section conclusion.
Context {V E : Type}.
Implicit Types (module : list (Node V E)).

Lemma done_reachable module start root tr done i j :
  traversing module start root tr [] done -> i ∈ done ->
  rtc (edge_to module start) i j -> j ∈ done.
Proof.
  intros Htr Hi Hij. revert Hi. induction Hij as [|i k j Hik _ IH]; [done|]. intros Hi.
  apply IH. by apply (tv_closed _ _ _ _ _ _ Htr i).
Qed.

(** A finished traversal has found the cycles and the forks, and the usage. *)
Lemma traversed_structural module start root bindings tr done s :
  traversing module start root tr [] done -> root ∈ done ->
  get (scratch tr) root = Some s ->
  structural module start root bindings (requirements bindings (usage s) (cyclic tr) (forks tr)).
Proof.
  unfold structural. rewrite <- edge_cycle_from, <- edge_fork_from, <- usage_to_needs.
  intros Htr Hroot Hs. pose proof (tv_nodup _ _ _ _ _ _ Htr) as Hnd. simpl in Hnd.
  destruct (cyclic tr) eqn:Hc; split; [done| |done|].
  - split; [intros []; by apply (tv_cyclic _ _ _ _ _ _ Htr)|]. intros _. split_and!; [done..| |].
    + intros (j & Hj & Hf). simpl. rewrite (tv_forked _ _ _ _ _ _ Htr j); [done| |done].
      by eapply done_reachable.
    + intros Hf. simpl. destruct (forks tr) eqn:Hft.
      * destruct Hf. by apply (tv_forks _ _ _ _ _ _ Htr).
      * by apply (tv_tasks _ _ _ _ _ _ Htr Hft root).
  - destruct (tv_ordered _ _ _ _ _ _ Htr Hc) as [Hord Hu]. rewrite (Hu root s Hroot Hs). split.
    + done.
    + intros (j & Hj & Hjj). exfalso. eapply (ordered_acyclic _ _ done j); [done..| |done].
      by eapply done_reachable.
Qed.

(** C27: the analysis always ends and never indexes out of its scratch storage.  It
    accepts exactly the modules of the supported version whose addresses resolve, given a slot per
    instruction;
    on those it finds the cycles and the forks reachable through the addresses of the
    instructions.  Where there is no such cycle its bounds are the solution of the equations that [needs_of]
    gives for each kind of instruction; where there is one it claims no bound on frames, and
    one task exactly if no fork is reachable. *)
Theorem module_requirements_structural (image : ProgramImage V E) (entry first last slots : N) :
  match module_requirements image entry first last slots with
  | Val r _ => exists module, module_ok image entry first last slots module /\
      structural module first (entry - first) (image_bindings image) r
  | Throw _ _ => forall module, ~ module_ok image entry first last slots module
  | Stop _ => False
  end.
Proof.
  unfold module_requirements, module_ok.
  destruct (N.eqb_spec (version image) IMAGE_VERSION) as [Hv|Hv]; simpl; [|naive_solver].
  destruct (slice image first last) as [module|] eqn:Hsl; [|naive_solver].
  destruct (N.leb_spec first entry), (N.ltb_spec entry last); simpl; try naive_solver lia.
  destruct (check_module image first last module) as [[]|f] eqn:Hcheck.
  2: { intros m (_ & [= <-] & _ & Hall & _). apply check_module_ok in Hall. congruence. }
  destruct (N.ltb_spec slots (len module)); [naive_solver lia|].
  assert (module_ok image entry first last slots module) as Hok
    by (split_and!; [done..|by apply check_module_ok|done]).
  assert (entry - first < len module) as Hlt by (rewrite (slice_len _ _ _ _ Hsl); lia).
  pose proof (wp_analysis_loop module first (entry - first) (module_closed _ _ _ _ _ _ Hok)
    (5 * length module + 1) _ _ _ _ (traversing_start module first (entry - first) Hlt)) as Hwp.
  rewrite turns_left_start in Hwp by done. specialize (Hwp ltac:(unfold len; lia)).
  unfold wp, traversal_start in Hwp. destruct (analysis_loop _ _ _ _) as [u tr'|e|]; [|done..].
  destruct Hwp as (_ & done & Htr & Hroot & s & Hs & <-). exists module.
  split; [unfold module_ok in Hok; naive_solver|]. by eapply traversed_structural.
Qed.
End conclusion.
