(* ===== verification/Text.v ===== *)
(** * Text

    Rust strings as sequences of UTF-8 bytes, with the operations of [str] that the
    path and capability grammars use: searching, splitting, trimming, and the [FromStr]
    parsers of [i64] and [f64]. *)

From Stdlib Require Import ZArith SpecFloat Ascii.
From stdpp Require Import base numbers list option strings.
From S2P Require Import Prelude.

Local Open Scope char_scope.
Local Open Scope Z_scope.

Definition text : Type := list ascii.

(** A literal. *)
Definition t (s : string) : text := String.list_ascii_of_string s.
Arguments t : simpl never.

Definition code (c : ascii) : N := Ascii.N_of_ascii c.

(** ** Character classes *)

Definition in_range (first last : ascii) (c : ascii) : bool :=
  ((code first <=? code c) && (code c <=? code last))%N.

Definition is_ascii_byte (c : ascii) : bool := (code c <? 128)%N.
Definition is_ascii_alphabetic (c : ascii) : bool := in_range "a" "z" c || in_range "A" "Z" c.
Definition is_ascii_digit (c : ascii) : bool := in_range "0" "9" c.
Definition is_ascii_alphanumeric (c : ascii) : bool := is_ascii_alphabetic c || is_ascii_digit c.

(** [str::is_ascii]. *)
Definition is_ascii (s : text) : bool := forallb is_ascii_byte s.

(** ** Searching and splitting *)

Definition contains (c : ascii) (s : text) : bool := existsb (Ascii.eqb c) s.

Fixpoint strip_prefix (p s : text) : option text :=
  match p, s with
  | [], _ => Some s
  | c :: p', d :: s' => if decide (c = d) then strip_prefix p' s' else None
  | _ :: _, [] => None
  end.

Definition starts_with (p s : text) : bool := bool_decide (is_Some (strip_prefix p s)).

Definition ends_with (c : ascii) (s : text) : bool :=
  match last s with Some d => Ascii.eqb c d | None => false end.

(** [str::split_once]: at the first occurrence of the separator. *)
Fixpoint split_once (sep s : text) : option (text * text) :=
  match strip_prefix sep s with
  | Some rest => Some ([], rest)
  | None =>
      match s with
      | [] => None
      | c :: s' =>
          match split_once sep s' with
          | Some (a, b) => Some (c :: a, b)
          | None => None
          end
      end
  end.

(** [str::split] at a character: one piece more than separators. *)
Fixpoint split (sep : ascii) (s : text) : list text :=
  match s with
  | [] => [[]]
  | c :: s' =>
      if decide (c = sep) then [] :: split sep s'
      else match split sep s' with
           | piece :: pieces => (c :: piece) :: pieces
           | [] => [[c]]
           end
  end.

(** The text before and from the first character that satisfies a test, [str::find]. *)
Fixpoint find_split (f : ascii -> bool) (s : text) : option (text * text) :=
  match s with
  | [] => None
  | c :: s' =>
      if f c then Some ([], s)
      else match find_split f s' with
           | Some (a, b) => Some (c :: a, b)
           | None => None
           end
  end.

(** ** Trimming *)

Definition bytes (l : list N) : text := Ascii.ascii_of_N <$> l.

(** The UTF-8 encodings of the characters with the [White_Space] property. *)
Definition whitespace : list text :=
  Eval cbv in (bytes <$> [[9]; [10]; [11]; [12]; [13]; [32]; [194; 133]; [194; 160]; [225; 154; 128];
    [226; 128; 128]; [226; 128; 129]; [226; 128; 130]; [226; 128; 131]; [226; 128; 132];
    [226; 128; 133]; [226; 128; 134]; [226; 128; 135]; [226; 128; 136]; [226; 128; 137];
    [226; 128; 138]; [226; 128; 168]; [226; 128; 169]; [226; 128; 175]; [226; 129; 159];
    [227; 128; 128]]%N).

(** What is left after the first of some prefixes that the text has. *)
Fixpoint strip_any (prefixes : list text) (s : text) : option text :=
  match prefixes with
  | [] => None
  | p :: ps => match strip_prefix p s with Some rest => Some rest | None => strip_any ps s end
  end.

Fixpoint strip_all (fuel : nat) (prefixes : list text) (s : text) : text :=
  match fuel with
  | O => s
  | S fuel => match strip_any prefixes s with
              | Some rest => strip_all fuel prefixes rest
              | None => s
              end
  end.

Definition trim_start (s : text) : text := strip_all (length s) whitespace s.
Definition trim_end (s : text) : text :=
  reverse (strip_all (length s) (reverse <$> whitespace) (reverse s)).

(** [str::trim]. *)
Definition trim (s : text) : text := trim_end (trim_start s).

(** ** [i64::from_str] *)

Definition i64_min : Z := -9223372036854775808.
Definition i64_max : Z := 9223372036854775807.

Fixpoint digits_value (s : text) (acc : Z) : option Z :=
  match s with
  | [] => Some acc
  | c :: s' => if is_ascii_digit c then digits_value s' (10 * acc + Z.of_N (code c - 48)) else None
  end.

Definition parse_digits (s : text) : option Z :=
  match s with [] => None | _ => digits_value s 0 end.

(** An optional sign: whether it is negative, and what follows it. *)
Definition take_sign (s : text) : bool * text :=
  match s with
  | c :: s' => if decide (c = "-"%char) then (true, s')
               else if decide (c = "+"%char) then (false, s') else (false, s)
  | [] => (false, [])
  end.

Definition parse_i64 (s : text) : option Z :=
  let '(negative, digits) := take_sign s in
  match parse_digits digits with
  | Some n =>
      let v := if negative then - n else n in
      if (i64_min <=? v) && (v <=? i64_max) then Some v else None
  | None => None
  end.

(** ** [f64::from_str]

    Doubles are the binary64 values of the Standard Library's [SpecFloat]; a decimal is
    rounded once, to the nearest. *)

Definition f64 : Type := spec_float.

Definition prec64 : Z := 53.
Definition emax64 : Z := 1024.

Definition is_finite (x : f64) : bool :=
  match x with S754_zero _ | S754_finite _ _ _ => true | _ => false end.

Definition f64_eqb (x y : f64) : bool := SFeqb x y.
Definition f64_ltb (x y : f64) : bool := SFltb x y.
Definition f64_leb (x y : f64) : bool := SFleb x y.

(** [f64::from_bits]: the sign, eleven bits of exponent and fifty-two of the fraction. *)
Definition f64_from_bits (bits : N) : f64 :=
  let negative := N.testbit bits 63 in
  let exponent := (N.shiftr bits 52 mod 2048)%N in
  let fraction := (bits mod 2 ^ 52)%N in
  if (exponent =? 0)%N then
    match fraction with
    | 0%N => S754_zero negative
    | Npos m => S754_finite negative m (-1074)
    end
  else if (exponent =? 2047)%N then
    if (fraction =? 0)%N then S754_infinity negative else S754_nan
  else S754_finite negative (N.succ_pos (fraction + (2 ^ 52 - 1))) (Z.of_N exponent - 1075).

(** [f64::to_bits], of the quiet NaN where the number is one. *)
Definition f64_to_bits (x : f64) : N :=
  let sign (negative : bool) := (if negative then 2 ^ 63 else 0)%N in
  match x with
  | S754_zero negative => sign negative
  | S754_infinity negative => (sign negative + 2047 * 2 ^ 52)%N
  | S754_nan => (2047 * 2 ^ 52 + 2 ^ 51)%N
  | S754_finite negative m e =>
      (sign negative +
       if N.pos m <? 2 ^ 52 then N.pos m
       else Z.to_N (e + 1075) * 2 ^ 52 + (N.pos m - 2 ^ 52))%N
  end.

Lemma digits2_bounds m : 2 ^ (Z.pos (digits2_pos m) - 1) <= Z.pos m < 2 ^ Z.pos (digits2_pos m).
Proof.
  induction m as [m IH|m IH|]; [| |done]; cbn [digits2_pos]; rewrite Pos2Z.inj_succ.
  all: rewrite Z.pow_succ_r by lia.
  all: replace (2 ^ (Z.succ (Z.pos (digits2_pos m)) - 1)) with (2 * 2 ^ (Z.pos (digits2_pos m) - 1))
    by (rewrite <- Z.pow_succ_r by lia; f_equal; lia); lia.
Qed.

(** A finite number is the one its bits stand for. *)
Lemma from_bits_finite (s : bool) m e :
  bounded prec64 emax64 m e = true ->
  f64_from_bits (f64_to_bits (S754_finite s m e)) = S754_finite s m e.
Proof.
  unfold bounded, canonical_mantissa, fexp, emin, prec64, emax64. intros [Hc He]%andb_prop.
  apply Z.eqb_eq in Hc. apply Z.leb_le in He. pose proof (digits2_bounds m) as Hd.
  set (d := Z.pos (digits2_pos m)) in *.
  assert (exists k f, k < 2047 /\ f < 2 ^ 52 /\
    f64_to_bits (S754_finite s m e) = (if s then 2 ^ 63 else 0) + k * 2 ^ 52 + f /\
    (k = 0 /\ f = N.pos m /\ e = (-1074)%Z \/ 0 < k /\ Npos m = f + 2 ^ 52 /\ e = (Z.of_N k - 1075)%Z))%N as (k & f & Hk & Hf & -> & Hcase).
  { unfold f64_to_bits. destruct (N.ltb_spec (N.pos m) (2 ^ 52)) as [Hm|Hm].
    - exists 0%N, (N.pos m). split; [lia|]. split; [lia|]. split; [lia|]. left.
      assert (d <= 53 - 1). { destruct (Z_le_gt_dec d 52) as [|Hgt]; [lia|]. 
        assert (2 ^ 52 <= 2 ^ (d - 1)) by (apply Z.pow_le_mono_r; lia). lia. } lia.
    - exists (Z.to_N (e + 1075)), (N.pos m - 2 ^ 52)%N.
      assert (d <= 53). { destruct (Z_le_gt_dec d 53) as [|Hgt]; lia. }
      assert (53 <= d). { destruct (Z_le_gt_dec 53 d) as [|Hgt]; [lia|]. 
        assert (2 ^ d <= 2 ^ 52) by (apply Z.pow_le_mono_r; lia). lia. }
      assert (d = 53) as Hd53 by lia. rewrite Hd53 in Hd.  split; [lia|]. split; [lia|]. split; [lia|]. right. lia. }
  assert (N.testbit ((if s then 2 ^ 63 else 0) + k * 2 ^ 52 + f) 63 = s) as Hs.
  { rewrite N.testbit_eqb. destruct s.
    - replace (_ / _)%N with 1%N; [done|]. apply (N.div_unique _ _ _ (k * 2 ^ 52 + f)); lia.
    - rewrite N.div_small by lia. done. }
  unfold f64_from_bits. rewrite Hs, N.shiftr_div_pow2.
  replace (_ / 2 ^ 52)%N with ((if s then 2048 else 0) + k)%N; cycle 1.
  { apply (N.div_unique _ _ _ f); destruct s; lia. }
  replace ((_ + k * 2 ^ 52 + f) mod 2 ^ 52)%N with f; cycle 1.
  { apply (N.mod_unique _ _ ((if s then 2048 else 0) + k)); destruct s; lia. }
  replace (_ mod 2048)%N with k; cycle 1.
  { apply (N.mod_unique _ _ (if s then 1 else 0)); destruct s; lia. }
  destruct Hcase as [(-> & -> & ->)|(Hk0 & Hm & ->)]; [done|].
  rewrite (proj2 (N.eqb_neq k 0)), (proj2 (N.eqb_neq k 2047)) by lia. f_equal.
  assert (N.pos (N.succ_pos (f + (2 ^ 52 - 1))) = N.pos m) as [= ->]; [|done]. rewrite N.succ_pos_spec. lia.
Qed.

(** [(-1)^negative * mantissa * 10^exponent], rounded. *)
Definition decimal (negative : bool) (mantissa exponent : Z) : f64 :=
  match mantissa with
  | Zpos m =>
      if 0 <=? exponent
      then binary_normalize prec64 emax64
             ((if negative then Z.opp else id) (mantissa * 10 ^ exponent)) 0 negative
      else SFdiv prec64 emax64 (S754_finite negative m 0)
             (S754_finite false (Z.to_pos (10 ^ (- exponent))) 0)
  | _ => S754_zero negative
  end.

(** The longest prefix of digits, and the rest. *)
Fixpoint span_digits (s : text) : text * text :=
  match s with
  | c :: s' => if is_ascii_digit c then let '(d, r) := span_digits s' in (c :: d, r) else ([], s)
  | [] => ([], [])
  end.

Definition lowercase (c : ascii) : ascii :=
  if in_range "A" "Z" c then Ascii.ascii_of_N (code c + 32)%N else c.

Definition parse_exponent (s : text) : option Z :=
  match s with
  | [] => Some 0
  | c :: s' =>
      if decide (lowercase c = "e"%char)
      then let '(negative, digits) := take_sign s' in
           (fun n => if negative then - n else n) <$> parse_digits digits
      else None
  end.

Definition parse_f64 (s : text) : option f64 :=
  let '(negative, body) := take_sign s in
  if decide (lowercase <$> body = t "inf") then Some (S754_infinity negative)
  else if decide (lowercase <$> body = t "infinity") then Some (S754_infinity negative)
  else if decide (lowercase <$> body = t "nan") then Some S754_nan
  else
    let '(whole, rest) := span_digits body in
    let '(fraction, rest) :=
      match rest with
      | c :: rest' => if decide (c = "."%char) then span_digits rest' else ([], rest)
      | [] => ([], [])
      end in
    match parse_digits (whole ++ fraction), parse_exponent rest with
    | Some m, Some e => Some (decimal negative m (e - Z.of_nat (length fraction)))
    | _, _ => None
    end.

(** ** UTF-8 *)

Definition between (a b : N) (c : ascii) : bool := ((a <=? code c) && (code c <=? b))%N.
Definition continuation_byte : ascii -> bool := between 128 191.

(** [String::from_utf8] accepts the byte sequence. *)
Fixpoint valid_utf8 (s : text) : bool :=
  match s with
  | [] => true
  | a :: r0 =>
      if is_ascii_byte a then valid_utf8 r0
      else match r0 with
      | b :: r1 =>
          if between 194 223 a then continuation_byte b && valid_utf8 r1
          else match r1 with
          | c :: r2 =>
              if between 224 239 a then
                between (if (code a =? 224)%N then 160 else 128)%N
                        (if (code a =? 237)%N then 159 else 191)%N b &&
                continuation_byte c && valid_utf8 r2
              else match r2 with
              | d :: r3 =>
                  between 240 244 a &&
                  between (if (code a =? 240)%N then 144 else 128)%N
                          (if (code a =? 244)%N then 143 else 191)%N b &&
                  continuation_byte c && continuation_byte d && valid_utf8 r3
              | [] => false
              end
          | [] => false
          end
      | [] => false
      end
  end.

(** ** Lemmas *)

Lemma contains_elem c s : contains c s = true <-> c ∈ s.
Proof.
  unfold contains. rewrite existsb_exists. split.
  - intros (d & Hd & ->%Ascii.eqb_eq). by apply list_elem_of_In.
  - intros Hc. exists c. split; [by apply list_elem_of_In|]. apply Ascii.eqb_refl.
Qed.

Lemma contains_false c s : contains c s = false <-> c ∉ s.
Proof. rewrite <- contains_elem. destruct (contains c s); naive_solver. Qed.

Lemma strip_prefix_Some p s r : strip_prefix p s = Some r <-> s = p ++ r.
Proof.
  revert s. induction p as [|c p IH]; intros s; simpl; [naive_solver|].
  destruct s as [|d s]; [naive_solver|]. case_decide; [subst; rewrite IH|]; naive_solver.
Qed.

Lemma strip_prefix_app p r : strip_prefix p (p ++ r) = Some r.
Proof. by apply strip_prefix_Some. Qed.

Lemma split_once_app sep s a b : split_once sep s = Some (a, b) -> s = a ++ sep ++ b.
Proof.
  revert a. induction s as [|c s IH]; intros a; simpl;
    destruct (strip_prefix sep _) as [r|] eqn:Hp; intros H; simplify_eq/=.
  - by apply strip_prefix_Some in Hp.
  - by apply strip_prefix_Some in Hp.
  - destruct (split_once sep s) as [[a' b']|] eqn:Hs; simplify_eq/=.
    by rewrite (IH a' eq_refl).
Qed.

(** A separator whose first character does not occur before it is found there. *)
Lemma split_once_at c sep a b :
  c ∉ a -> split_once (c :: sep) (a ++ c :: sep ++ b) = Some (a, b).
Proof.
  induction a as [|d a IH]; intros Hc; simpl.
  - rewrite decide_True by done. by rewrite strip_prefix_app.
  - apply not_elem_of_cons in Hc as [Hd Ha]. rewrite decide_False by done. by rewrite IH.
Qed.

Lemma split_once_char c a b : c ∉ a -> split_once [c] (a ++ c :: b) = Some (a, b).
Proof. apply (split_once_at c []). Qed.

Lemma split_once_char_None c s : c ∉ s -> split_once [c] s = None.
Proof.
  induction s as [|d s IH]; intros Hc; simpl; [done|].
  apply not_elem_of_cons in Hc as [Hd Hs]. rewrite decide_False by done. by rewrite IH.
Qed.

Lemma split_once_char_before c s a b : split_once [c] s = Some (a, b) -> c ∉ a.
Proof.
  revert a. induction s as [|d s IH]; intros a; simpl; [done|].
  case_decide as Hd; intros H; simplify_eq/=; [apply not_elem_of_nil|].
  destruct (split_once [c] s) as [[a' b']|] eqn:Hs; simplify_eq/=.
  apply not_elem_of_cons. split; [done|]. by apply (IH a').
Qed.

(** Joining pieces with a separator. *)
Fixpoint join (sep : ascii) (l : list text) : text :=
  match l with
  | [] => []
  | [p] => p
  | p :: l' => p ++ sep :: join sep l'
  end.

Lemma join_cons sep p l : l <> [] -> join sep (p :: l) = p ++ sep :: join sep l.
Proof. by destruct l. Qed.

Lemma split_nonempty sep s : split sep s <> [].
Proof. destruct s as [|c s]; simpl; [done|]. case_decide; [done|]. by destruct (split sep s). Qed.

Lemma join_split sep s : join sep (split sep s) = s.
Proof.
  induction s as [|c s IH]; simpl; [done|]. case_decide as Hc.
  - subst. rewrite join_cons by apply split_nonempty. by rewrite IH.
  - destruct (split sep s) as [|p l] eqn:Hs; [by apply split_nonempty in Hs|].
    destruct l as [|q l]; simpl in *; by rewrite IH.
Qed.

Lemma split_app_sep sep p s : sep ∉ p -> split sep (p ++ sep :: s) = p :: split sep s.
Proof.
  induction p as [|c p IH]; intros Hp; simpl; [by rewrite decide_True|].
  apply not_elem_of_cons in Hp as [Hc Hp]. rewrite decide_False by done. by rewrite IH.
Qed.

Lemma split_one sep p : sep ∉ p -> split sep p = [p].
Proof.
  induction p as [|c p IH]; intros Hp; simpl; [done|].
  apply not_elem_of_cons in Hp as [Hc Hp]. rewrite decide_False by done. by rewrite IH.
Qed.

Lemma split_join sep l :
  l <> [] -> Forall (fun p => sep ∉ p) l -> split sep (join sep l) = l.
Proof.
  induction l as [|p l IH]; intros Hne Hall; [done|].
  apply list.Forall_cons in Hall as [Hp Hall]. destruct l as [|q l]; [by apply split_one|].
  rewrite join_cons by done. rewrite split_app_sep by done. by rewrite IH.
Qed.

Lemma split_pieces sep s : Forall (fun p => sep ∉ p) (split sep s).
Proof.
  induction s as [|c s IH]; simpl; [constructor; [apply not_elem_of_nil|done]|].
  case_decide as Hc; [constructor; [apply not_elem_of_nil|done]|].
  destruct (split sep s) as [|p l]; [constructor; [|done]|].
  - by apply not_elem_of_cons; split; [|apply not_elem_of_nil].
  - apply list.Forall_cons in IH as [Hp Hl]. constructor; [|done]. by apply not_elem_of_cons.
Qed.

Lemma find_split_app f s a b : find_split f s = Some (a, b) ->
  s = a ++ b /\ forallb (fun c => negb (f c)) a = true /\ exists c b', b = c :: b' /\ f c = true.
Proof.
  revert a. induction s as [|c s IH]; intros a; simpl; [done|].
  destruct (f c) eqn:Hf; intros H; simplify_eq/=; [by split_and!; [..|exists c, s]|].
  destruct (find_split f s) as [[a' b']|] eqn:Hs; simplify_eq/=.
  destruct (IH a' eq_refl) as (-> & Ha & ?). by rewrite Hf, Ha.
Qed.

Lemma find_split_at f a c b :
  forallb (fun c => negb (f c)) a = true -> f c = true ->
  find_split f (a ++ c :: b) = Some (a, c :: b).
Proof.
  induction a as [|d a IH]; intros Ha Hc; simpl in *; [by rewrite Hc|].
  apply andb_true_iff in Ha as [Hd%negb_true_iff Ha]. rewrite Hd. by rewrite IH.
Qed.

Lemma find_split_None f s : find_split f s = None <-> forallb (fun c => negb (f c)) s = true.
Proof.
  induction s as [|c s IH]; simpl; [done|]. destruct (f c); simpl; [done|].
  rewrite <- IH. by destruct (find_split f s) as [[]|].
Qed.

(** ** Trimmed texts *)

(** No whitespace at the start, and none at the end. *)
Definition trimmed (s : text) : Prop :=
  strip_any whitespace s = None /\ strip_any (reverse <$> whitespace) (reverse s) = None.

Lemma strip_any_Some ps s r :
  strip_any ps s = Some r -> exists p, p ∈ ps /\ s = p ++ r.
Proof.
  induction ps as [|p ps IH]; simpl; [done|].
  destruct (strip_prefix p s) as [r'|] eqn:Hp; intros H; simplify_eq/=.
  - exists p. split; [left|by apply strip_prefix_Some].
  - destruct (IH H) as (q & ? & ?). exists q. split; [by right|done].
Qed.

Lemma strip_any_None ps s : strip_any ps s = None <-> forall p r, p ∈ ps -> s <> p ++ r.
Proof.
  induction ps as [|p ps IH]; simpl; [split; [intros _ p r []%not_elem_of_nil|done]|].
  destruct (strip_prefix p s) as [r'|] eqn:Hp.
  - apply strip_prefix_Some in Hp. split; [done|]. intros H. exfalso. apply (H p r'); [left|done].
  - rewrite IH. split; intros H q r Hq; [|apply H; by right].
    apply elem_of_cons in Hq as [->|Hq]; [|by apply H].
    intros Hs%strip_prefix_Some. congruence.
Qed.

Lemma strip_all_None fuel ps s :
  (forall p, p ∈ ps -> p <> []) -> (length s <= fuel)%nat ->
  strip_any ps (strip_all fuel ps s) = None.
Proof.
  intros Hps. revert s. induction fuel as [|fuel IH]; intros s Hl; simpl.
  - destruct s; simpl in Hl; [|lia]. apply strip_any_None. intros p r Hp. specialize (Hps p Hp).
    by destruct p.
  - destruct (strip_any ps s) as [r|] eqn:Hs; [|done]. apply IH.
    apply strip_any_Some in Hs as (p & Hp & ->). specialize (Hps p Hp).
    rewrite length_app in Hl. destruct p; simpl in *; [done|lia].
Qed.

Lemma strip_all_suffix fuel ps s : exists p, s = p ++ strip_all fuel ps s.
Proof.
  revert s. induction fuel as [|fuel IH]; intros s; simpl; [by exists []|].
  destruct (strip_any ps s) as [r|] eqn:Hs; [|by exists []].
  apply strip_any_Some in Hs as (p & _ & ->). destruct (IH r) as [q Hq].
  exists (p ++ q). by rewrite <- app_assoc, <- Hq.
Qed.

Lemma strip_all_id fuel ps s : strip_any ps s = None -> strip_all fuel ps s = s.
Proof. destruct fuel; simpl; [done|]. by intros ->. Qed.

Lemma whitespace_nonempty p : p ∈ whitespace -> p <> [].
Proof. intros Hp ->. revert Hp. rewrite <- (bool_decide_spec ([] ∈ whitespace)). by vm_compute. Qed.

Lemma trim_trimmed s : trimmed (trim s).
Proof.
  assert (forall p, p ∈ reverse <$> whitespace -> p <> []) as Hrev.
  { intros p (q & -> & Hq)%list_elem_of_fmap Hn. apply (whitespace_nonempty q Hq).
    by rewrite <- (reverse_involutive q), Hn. }
  unfold trim, trimmed, trim_end. rewrite reverse_involutive. split.
  - apply strip_any_None. intros p r Hp Heq.
    destruct (strip_all_suffix (length (trim_start s)) (reverse <$> whitespace) (reverse (trim_start s)))
      as [q Hq]. apply (f_equal reverse) in Hq. rewrite reverse_app, reverse_involutive, Heq in Hq.
    assert (strip_any whitespace (trim_start s) = None) as Hn
      by (apply strip_all_None; [apply whitespace_nonempty|lia]).
    rewrite strip_any_None in Hn. apply (Hn p (r ++ reverse q) Hp). by rewrite app_assoc.
  - apply strip_all_None; [done|]. by rewrite length_reverse.
Qed.

Lemma trim_id s : trimmed s -> trim s = s.
Proof.
  intros [Hs He]. unfold trim, trim_start. rewrite strip_all_id by done.
  unfold trim_end. rewrite strip_all_id by done. apply reverse_involutive.
Qed.

(** ** The order of texts

    [str] is ordered by its bytes. *)

Fixpoint text_cmp (a b : text) : comparison :=
  match a, b with
  | [], [] => Eq
  | [], _ :: _ => Lt
  | _ :: _, [] => Gt
  | x :: a', y :: b' =>
      match N.compare (code x) (code y) with
      | Eq => text_cmp a' b'
      | c => c
      end
  end.

(** [a <= b]. *)
Definition text_leb (a b : text) : bool :=
  match text_cmp a b with Gt => false | _ => true end.

Definition text_lt (a b : text) : Prop := text_cmp a b = Lt.

Lemma code_inj x y : code x = code y -> x = y.
Proof.
  unfold code. intros H. by rewrite <- (Ascii.ascii_N_embedding x), <- (Ascii.ascii_N_embedding y), H.
Qed.

Lemma text_cmp_eq a b : text_cmp a b = Eq <-> a = b.
Proof.
  revert b. induction a as [|x a IH]; intros [|y b]; simpl; try done.
  destruct (N.compare_spec (code x) (code y)) as [H|H|H].
  - apply code_inj in H as ->. rewrite IH. naive_solver.
  - split; [done|]. intros [= -> ->]. lia.
  - split; [done|]. intros [= -> ->]. lia.
Qed.

Lemma text_cmp_refl a : text_cmp a a = Eq.
Proof. by apply text_cmp_eq. Qed.

Lemma text_cmp_antisym a b : text_cmp b a = CompOpp (text_cmp a b).
Proof.
  revert b. induction a as [|x a IH]; intros [|y b]; simpl; try done.
  rewrite (N.compare_antisym (code x) (code y)). destruct (N.compare (code x) (code y)); simpl; auto.
Qed.

Lemma text_lt_trans a b c : text_lt a b -> text_lt b c -> text_lt a c.
Proof.
  unfold text_lt. revert b c. induction a as [|x a IH]; intros [|y b] [|z c]; simpl; try done.
  destruct (N.compare_spec (code x) (code y)), (N.compare_spec (code y) (code z)),
    (N.compare_spec (code x) (code z)); try done; try lia. by apply IH.
Qed.

Lemma text_lt_irrefl a : ~ text_lt a a.
Proof. unfold text_lt. by rewrite text_cmp_refl. Qed.

Lemma text_leb_lt a b : text_leb a b = false <-> text_lt b a.
Proof. unfold text_leb, text_lt. rewrite (text_cmp_antisym a b). by destruct (text_cmp a b). Qed.

Lemma text_leb_spec a b : text_leb a b = true <-> a = b \/ text_lt a b.
Proof. rewrite <- text_cmp_eq. unfold text_leb, text_lt. destruct (text_cmp a b); naive_solver. Qed.
