(* ===== verification/Path.v ===== *)
(** * Paths

    crates/xolotl-types/src/path.rs, path/identifier.rs and path/namespace.rs: the
    addressing type, its grammar and canonical text, and wildcard matching. *)

From Stdlib Require Import Ascii.
From stdpp Require Import base numbers list option strings.
From S2P Require Import Prelude Text.

Local Open Scope char_scope.
Local Open Scope N_scope.

(** ** Identifiers *)

Inductive IdentifierKind : Type := Scheme | Cluster | Segment.
Inductive IdentifierError : Type := IdEmpty | IdCharacter.

Record Identifier : Type := mkIdentifier {
  id_kind : IdentifierKind;
  id_position : N;
  id_wildcards : N;
  id_invalid : bool
}.

Definition identifier_new (kind : IdentifierKind) : Identifier := mkIdentifier kind 0 0 false.

(** [matches!(byte, b'_' | b'-')] and its extension for segments. *)
Definition is_joiner (byte : ascii) : bool := Ascii.eqb byte "_" || Ascii.eqb byte "-".
Definition is_segment_mark (byte : ascii) : bool :=
  is_joiner byte || Ascii.eqb byte "." || Ascii.eqb byte ":".

(** Whether the next byte is valid, and the wildcards counted with it. *)
Definition accepts (self : Identifier) (byte : ascii) : bool * N :=
  let first := id_position self =? 0 in
  match id_kind self with
  | Scheme =>
      if first then (is_ascii_alphabetic byte, id_wildcards self)
      else (is_ascii_alphanumeric byte || is_joiner byte, id_wildcards self)
  | Cluster => (is_ascii_alphanumeric byte || is_joiner byte, id_wildcards self)
  | Segment =>
      if (0 <? id_wildcards self) || first && Ascii.eqb byte "*" then
        let valid := Ascii.eqb byte "*" && (id_wildcards self <? 2) in
        (valid, id_wildcards self + (if valid then 1 else 0))
      else if first then (is_ascii_alphanumeric byte, id_wildcards self)
      else (is_ascii_alphanumeric byte || is_segment_mark byte, id_wildcards self)
  end.

(** The [for] loop of [Identifier::push]. *)
Fixpoint push_bytes (self : Identifier) (bytes : text) : Identifier * Result unit IdentifierError :=
  match bytes with
  | [] => (self, Ok tt)
  | byte :: bytes' =>
      let '(valid, wildcards) := accepts self byte in
      if negb valid then
        (mkIdentifier (id_kind self) (id_position self) wildcards true, Err IdCharacter)
      else
        push_bytes (mkIdentifier (id_kind self)
          (N.min (saturating_add 255 (id_position self) 1) 8) wildcards (id_invalid self)) bytes'
  end.

Definition identifier_push (self : Identifier) (bytes : text)
    : Identifier * Result unit IdentifierError :=
  if id_invalid self then (self, Err IdCharacter) else push_bytes self bytes.

Definition identifier_finish (self : Identifier) : Result unit IdentifierError :=
  if id_invalid self then Err IdCharacter
  else if id_position self =? 0 then Err IdEmpty else Ok tt.

Definition validate_identifier (bytes : text) (kind : IdentifierKind) : Result unit IdentifierError :=
  let '(self, r) := identifier_push (identifier_new kind) bytes in
  result_bind r (fun _ => identifier_finish self).

Definition is_scheme_ident (s : text) : bool := is_ok (validate_identifier s Scheme).
Definition is_cluster_ident (s : text) : bool := is_ok (validate_identifier s Cluster).
Definition is_segment_ident (s : text) : bool := is_ok (validate_identifier s Segment).

(** ** Paths and their errors *)

Record Path : Type := mkPath {
  path_cluster : option text;
  path_scheme : text;
  path_segments : list text
}.

#[export] Instance Path_eq_dec : EqDecision Path.
Proof. solve_decision. Defined.

Inductive PathError : Type :=
| Empty
| MissingScheme
| MissingSeparator
| BadScheme
| EmptySegment
| ParamsUnsupported
| BadSchemeChar (scheme : text)
| ReservedScheme
| BadSegmentChar (segment : text)
| WildcardSegment (segment : text)
| BadClusterChar (cluster : text)
| NonAscii.

Definition validate_cluster_ident (s : text) : Result unit PathError :=
  if negb (is_ascii s) then Err NonAscii
  else if negb (is_cluster_ident s) then Err (BadClusterChar s)
  else Ok tt.

Definition validate_segment (segment : text) : Result unit PathError :=
  match segment with
  | [] => Err EmptySegment
  | _ =>
      if negb (is_ascii segment) then Err NonAscii
      else if negb (is_segment_ident segment) then Err (BadSegmentChar segment)
      else Ok tt
  end.

Definition is_wildcard_segment (s : text) : bool :=
  bool_decide (s = t "*") || bool_decide (s = t "**").

(** A single unqualified ID. *)
Definition is_simple_id_segment (id : text) : bool :=
  match id with
  | first :: bytes =>
      is_ascii_alphanumeric first && forallb (fun b => is_ascii_alphanumeric b || is_joiner b) bytes
  | [] => false
  end.

(** ** Construction *)

Local Open Scope result_scope.

Definition try_new (scheme : text) : Result Path PathError :=
  match scheme with
  | [] => Err MissingScheme
  | _ =>
      if negb (is_ascii scheme) then Err NonAscii
      else if contains "/" scheme then Err BadScheme
      else if negb (is_scheme_ident scheme) then Err (BadSchemeChar scheme)
      else if decide (scheme = t "path") then Err ReservedScheme
      else Ok (mkPath None scheme [])
  end.

(** Validating the segments in turn. *)
Fixpoint validate_segments (l : list text) : Result (list text) PathError :=
  match l with
  | [] => Ok []
  | seg :: l' =>
      let? _ := validate_segment seg in
      let? segs := validate_segments l' in
      Ok (seg :: segs)
  end.

(** The part of [Path::parse] before the scheme is checked. *)
Definition parse_head (s : text) : Result (option text * text * text) PathError :=
  match strip_prefix (t "path://") s with
  | Some clustered =>
      let? (cluster, rest) := ok_or (split_once (t "/") clustered) MissingScheme in
      let? _ := validate_cluster_ident cluster in
      let '(scheme, body) := default (rest, []) (split_once (t "/") rest) in
      if ends_with "/" rest then Err EmptySegment else Ok (Some cluster, scheme, body)
  | None =>
      let? (scheme, body) := ok_or (split_once (t "://") s) MissingSeparator in
      Ok (None, scheme, body)
  end.

Definition parse (s : text) : Result Path PathError :=
  match s with
  | [] => Err Empty
  | _ =>
      if negb (is_ascii s) then Err NonAscii
      else if contains "@" s then Err ParamsUnsupported
      else
        let? (cluster, scheme, body) := parse_head s in
        match scheme with
        | [] => Err MissingScheme
        | _ =>
            if contains "/" scheme then Err BadScheme
            else if negb (is_scheme_ident scheme) then Err (BadSchemeChar scheme)
            else if decide (scheme = t "path") then Err ReservedScheme
            else
              let? segments := match body with
                               | [] => Ok []
                               | _ => validate_segments (split "/" body)
                               end in
              Ok (mkPath cluster scheme segments)
        end
  end.

Definition pop_segment (self : Path) : bool * Path :=
  match reverse (path_segments self) with
  | [] => (false, self)
  | _ :: rest => (true, mkPath (path_cluster self) (path_scheme self) (reverse rest))
  end.

Definition try_push (self : Path) (seg : text) : Result Path PathError :=
  let? _ := validate_segment seg in
  Ok (mkPath (path_cluster self) (path_scheme self) (path_segments self ++ [seg])).

Definition try_push_literal (self : Path) (seg : text) : Result Path PathError :=
  if is_wildcard_segment seg then Err (WildcardSegment seg) else try_push self seg.

Definition try_with_cluster (self : Path) (c : text) : Result Path PathError :=
  let? _ := validate_cluster_ident c in
  Ok (mkPath (Some c) (path_scheme self) (path_segments self)).

(** ** Matching *)

Section matching.
Variable covers : text -> text -> bool.

(** The loop of [match_segment_tokens]; [None] when the fuel is spent. *)
Fixpoint match_loop (fuel : nat) (pat seg : list text) (pi si : nat)
    (globstar : option nat) (retry_si : nat) : option bool :=
  match fuel with
  | O => None
  | S fuel =>
      match seg !! si with
      | None => Some (forallb (fun p => bool_decide (p = t "**")) (drop pi pat))
      | Some s =>
          let retry :=
            match globstar with
            | None => Some false
            | Some star_pi =>
                match_loop fuel pat seg (star_pi + 1) (retry_si + 1) globstar (retry_si + 1)
            end in
          match pat !! pi with
          | Some p =>
              if decide (p = t "**") then match_loop fuel pat seg (pi + 1) si (Some pi) si
              else if covers p s then match_loop fuel pat seg (pi + 1) (si + 1) globstar retry_si
              else retry
          | None => retry
          end
      end
  end.

Definition match_fuel (pat seg : list text) : nat := (length seg + 2) * (length pat + 2) + 1.

Definition match_segment_tokens (pat seg : list text) : bool :=
  default false (match_loop (match_fuel pat seg) pat seg 0 0 None 0).
End matching.

Definition match_segments (pat seg : list text) : bool :=
  match_segment_tokens (fun pattern target =>
    bool_decide (pattern = t "*") || bool_decide (pattern = target)) pat seg.

Definition pattern_subsumes_segments (parent child : list text) : bool :=
  match_segment_tokens (fun pattern target =>
    bool_decide (pattern = target) ||
    bool_decide (pattern = t "*") && negb (bool_decide (target = t "**"))) parent child.

(** [Path::matches]. *)
Definition path_matches (self pattern : Path) : bool :=
  bool_decide (path_cluster pattern = path_cluster self) &&
  bool_decide (path_scheme pattern = path_scheme self) &&
  match_segments (path_segments pattern) (path_segments self).

Definition is_prefix_of (self other : Path) : bool :=
  bool_decide (path_cluster self = path_cluster other) &&
  bool_decide (path_scheme self = path_scheme other) &&
  (length (path_segments self) <=? length (path_segments other))%nat &&
  forallb (fun '(a, b) => bool_decide (a = b)) (zip (path_segments self) (path_segments other)).

Definition is_concrete (self : Path) : bool :=
  forallb (fun segment => negb (is_wildcard_segment segment)) (path_segments self).

(** ** Reserved namespaces *)

Definition first_segment (path : Path) : option text := head (path_segments path).

Definition is_kernel_reserved (path : Path) : bool :=
  bool_decide (path_cluster path = None) &&
  (bool_decide (path_scheme path = t "state") || bool_decide (path_scheme path = t "effect")) &&
  bool_decide (first_segment path = Some (t "kernel")).

Definition is_vault_reserved (path : Path) : bool :=
  bool_decide (path_cluster path = None) && bool_decide (path_scheme path = t "state") &&
  bool_decide (first_segment path = Some (t "vault")).

Definition is_fact_reserved (path : Path) : bool :=
  bool_decide (path_cluster path = None) && bool_decide (path_scheme path = t "state") &&
  bool_decide (first_segment path = Some (t "fact")).

(** ** Canonical text *)

Record CanonicalParts : Type := mkParts {
  cp_path : Path;
  cp_prefix : N;
  cp_segments : list text;
  cp_separator : bool;
  cp_pending : option text
}.

Definition canonical_parts (self : Path) : CanonicalParts :=
  mkParts self 0 (path_segments self) (bool_decide (is_Some (path_cluster self))) None.

(** The parts before the segments. *)
Definition prefix_part (self : CanonicalParts) : option text :=
  match path_cluster (cp_path self), cp_prefix self with
  | Some _, 0 => Some (t "path://")
  | Some cluster, 1 => Some cluster
  | Some _, 2 => Some (t "/")
  | Some _, 3 | None, 0 => Some (path_scheme (cp_path self))
  | None, 1 => Some (t "://")
  | _, _ => None
  end.

(** [CanonicalParts::next]. *)
Definition next_part (self : CanonicalParts) : option (text * CanonicalParts) :=
  match prefix_part self with
  | Some prefix =>
      Some (prefix, mkParts (cp_path self) (cp_prefix self + 1) (cp_segments self)
              (cp_separator self) (cp_pending self))
  | None =>
      match cp_pending self with
      | Some segment =>
          Some (segment, mkParts (cp_path self) (cp_prefix self) (cp_segments self)
                  (cp_separator self) None)
      | None =>
          match cp_segments self with
          | [] => None
          | segment :: segments =>
              if cp_separator self
              then Some (t "/", mkParts (cp_path self) (cp_prefix self) segments true (Some segment))
              else Some (segment, mkParts (cp_path self) (cp_prefix self) segments true None)
          end
      end
  end.

(** Driving the iterator: at most four prefix parts and two parts per segment. *)
Fixpoint all_parts (fuel : nat) (self : CanonicalParts) : list text :=
  match fuel with
  | O => []
  | S fuel => match next_part self with
              | None => []
              | Some (part, self') => part :: all_parts fuel self'
              end
  end.

Definition parts (self : Path) : list text :=
  all_parts (2 * length (path_segments self) + 5) (canonical_parts self).

(** [Display]. *)
Definition to_string (self : Path) : text := concat (parts self).

Definition canonical_len (self : Path) : option N :=
  foldl (fun bytes part => bytes ← bytes; checked_add usize_max bytes (len part)) (Some 0) (parts self).

(** ** The language of a pattern *)

Section language.
Variable covers : text -> text -> bool.
Implicit Types (pat seg block : list text).

(** [**] stands for any sequence of segments, every other token for one it covers. *)
Inductive matches : list text -> list text -> Prop :=
| matches_nil : matches [] []
| matches_skip pat seg : matches pat seg -> matches (t "**" :: pat) seg
| matches_take pat s seg : matches (t "**" :: pat) seg -> matches (t "**" :: pat) (s :: seg)
| matches_one p pat s seg :
    p <> t "**" -> covers p s = true -> matches pat seg -> matches (p :: pat) (s :: seg).

(** A [**] leaves some suffix to the rest of the pattern. *)
Lemma matches_star pat seg :
  matches (t "**" :: pat) seg <-> exists k, matches pat (drop k seg).
Proof.
  split.
  - intros H. remember (t "**" :: pat) as q eqn:Hq. revert pat Hq.
    induction H as [|pat' seg H _|pat' s seg H IH|p pat' s seg Hp]; intros pat Hq; simplify_eq.
    + by exists 0%nat.
    + destruct (IH pat eq_refl) as [k Hk]. by exists (S k).
  - intros [k Hk]. revert seg Hk. induction k as [|k IH]; intros seg Hk; [by apply matches_skip|].
    destruct seg as [|s seg]; [by apply matches_skip|]. simpl in Hk. apply matches_take. by apply IH.
Qed.

Lemma matches_stars pat :
  matches pat [] <-> forallb (fun p => bool_decide (p = t "**")) pat = true.
Proof.
  induction pat as [|p pat IH]; simpl; [split; [done|constructor]|].
  rewrite andb_true_iff, bool_decide_eq_true. split.
  - intros H. inversion H; subst; by rewrite <- IH.
  - intros [-> H]. apply matches_skip. by apply IH.
Qed.

(** A block without [**] takes as many segments as it has tokens. *)
Definition plain block : Prop := Forall (fun p => p <> t "**") block.

Lemma matches_block block pat seg : plain block ->
  matches (block ++ pat) seg <->
  exists front back, seg = front ++ back /\
    Forall2 (fun p s => covers p s = true) block front /\ matches pat back.
Proof.
  intros Hb. revert seg. induction Hb as [|p block Hp Hb IH]; intros seg; simpl.
  - split.
    + intros H. by exists [], seg.
    + by intros (f & b & -> & ->%Forall2_nil_inv_l & H).
  - split.
    + intros H. inversion H as [|? ? H'|? ? ? H'|? ? s seg' _ Hc Hm]; subst; [done..|].
      apply IH in Hm as (f & b & -> & Hf & Hm). exists (s :: f), b. by split_and!; [|constructor|].
    + intros (f & b & -> & Hf & Hm). apply Forall2_cons_inv_l in Hf as (s & f' & Hc & Hf & ->).
      apply matches_one; [done..|]. apply IH. by exists f', b.
Qed.

Lemma matches_drop_ge pat seg k : (length seg <= k)%nat ->
  matches pat (drop k seg) -> matches pat [].
Proof. intros Hk. by rewrite drop_ge. Qed.

(** What the loop knows: the text before the indices is settled, up to where the latest
    [**], if any, may still move. *)
Definition settled pat seg (pi si : nat) (globstar : option nat) (retry_si : nat) : Prop :=
  (pi <= length pat)%nat /\ (si <= length seg)%nat /\ (retry_si <= si)%nat /\
  match globstar with
  | None => matches pat seg <-> matches (drop pi pat) (drop si seg)
  | Some star => exists block, plain block /\
      drop (star + 1) pat = block ++ drop pi pat /\ (star + 1 + length block = pi)%nat /\
      exists front, drop retry_si seg = front ++ drop si seg /\
        Forall2 (fun p s => covers p s = true) block front /\
        (matches pat seg <->
          exists r, (retry_si <= r)%nat /\ matches (drop (star + 1) pat) (drop r seg))
  end.

Lemma drop_lookup {A} (l : list A) i x : l !! i = Some x -> drop i l = x :: drop (i + 1) l.
Proof. intros H. rewrite Nat.add_1_r. by apply drop_S. Qed.

(** A later start of the block needs a later end. *)
Lemma matches_later block pat seg r : plain block ->
  matches (block ++ pat) (drop r seg) ->
  matches pat (drop (r + length block) seg).
Proof.
  intros Hb (f & b & Hd & Hf & Hm)%matches_block; [|done].
  rewrite <- drop_drop, Hd. apply Forall2_length in Hf. by rewrite drop_app_length'.
Qed.

Lemma settled_end pat seg pi si g r :
  settled pat seg pi si g r -> seg !! si = None ->
  matches pat seg <-> forallb (fun p => bool_decide (p = t "**")) (drop pi pat) = true.
Proof.
  intros (Hpi & Hsi & Hr & Hg) Hend%lookup_ge_None. rewrite <- matches_stars.
  rewrite (drop_ge seg si) in Hg by lia. destruct g as [star|]; [|done].
  destruct Hg as (block & Hb & Hpat & Hlen & front & Hf & Hcov & ->). rewrite Hpat. split.
  - intros (r' & Hr' & Hm). apply matches_later in Hm; [|done]. rewrite (drop_ge seg) in Hm; [done|].
    rewrite app_nil_r in Hf. apply (f_equal length) in Hf. rewrite length_drop in Hf.
    apply Forall2_length in Hcov. lia.
  - intros Hm. exists r. split; [done|]. apply matches_block; [done|]. by exists front, [].
Qed.

Lemma settled_star pat seg pi si g r :
  settled pat seg pi si g r -> pat !! pi = Some (t "**") ->
  settled pat seg (pi + 1) si (Some pi) si.
Proof.
  intros (Hpi & Hsi & Hr & Hg) Hp. pose proof (lookup_lt_Some _ _ _ Hp).
  split; [lia|]. split; [done|]. split; [done|]. exists []. split; [constructor|].
  split; [done|]. split; [simpl; lia|]. exists []. split; [done|]. split; [constructor|].
  assert (matches (t "**" :: drop (pi + 1) pat) (drop si seg) <->
    exists r', (si <= r')%nat /\ matches (drop (pi + 1) pat) (drop r' seg)) as Hs.
  { rewrite matches_star. split.
    - intros [k Hk]. rewrite drop_drop in Hk. exists (si + k)%nat. split; [lia|done].
    - intros (r' & Hr' & Hm). exists (r' - si)%nat. rewrite drop_drop.
      by replace (si + (r' - si))%nat with r' by lia. }
  rewrite (drop_lookup _ _ _ Hp) in Hg. destruct g as [star|]; [|by rewrite Hg].
  destruct Hg as (block & Hb & Hpat & Hlen & front & Hf & Hcov & ->). rewrite Hpat, <- Hs. split.
  - intros (r' & Hr' & Hm). apply matches_later in Hm; [|done]. apply matches_star in Hm as [k Hk].
    apply matches_star. rewrite drop_drop in Hk. exists (r' + length block + k - si)%nat.
    rewrite drop_drop. apply (f_equal length) in Hf. rewrite length_app, !length_drop in Hf.
    apply Forall2_length in Hcov. by replace (si + _)%nat with (r' + length block + k)%nat by lia.
  - intros Hm. exists r. split; [done|]. rewrite Hf. apply matches_block; [done|]. by exists front, (drop si seg).
Qed.

Lemma settled_one pat seg pi si g r p s :
  settled pat seg pi si g r -> pat !! pi = Some p -> seg !! si = Some s ->
  p <> t "**" -> covers p s = true -> settled pat seg (pi + 1) (si + 1) g r.
Proof.
  intros (Hpi & Hsi & Hr & Hg) Hp Hs Hne Hc.
  pose proof (lookup_lt_Some _ _ _ Hp). pose proof (lookup_lt_Some _ _ _ Hs).
  split; [lia|]. split; [lia|]. split; [lia|].
  rewrite (drop_lookup _ _ _ Hp), (drop_lookup _ _ _ Hs) in Hg. destruct g as [star|].
  - destruct Hg as (block & Hb & Hpat & Hlen & front & Hf & Hcov & Hm).
    exists (block ++ [p]). split; [by apply Forall_app; split; [|constructor]|].
    split; [by rewrite <- app_assoc|]. split; [rewrite length_app; simpl; lia|].
    exists (front ++ [s]). split; [by rewrite <- app_assoc|]. split; [|done].
    by apply Forall2_app; [|constructor].
  - rewrite Hg. split; [|by apply matches_one]. intros Hm. by inversion Hm; subst.
Qed.

(** A mismatch at the indices. *)
Definition stuck pat (pi : nat) (s : text) : Prop :=
  match pat !! pi with Some p => p <> t "**" /\ covers p s = false | None => True end.

Lemma stuck_no_match pat seg pi si s :
  stuck pat pi s -> seg !! si = Some s -> ~ matches (drop pi pat) (drop si seg).
Proof.
  unfold stuck. intros Hst Hs. rewrite (drop_lookup _ _ _ Hs).
  destruct (pat !! pi) as [p|] eqn:Hp.
  - rewrite (drop_lookup _ _ _ Hp). intros Hm. destruct Hst as [Hst Hc]. inversion Hm; subst; first [by apply Hst|congruence].
  - apply lookup_ge_None in Hp. rewrite drop_ge by done. intros Hm. inversion Hm.
Qed.

Lemma settled_retry pat seg pi si star r s :
  settled pat seg pi si (Some star) r -> seg !! si = Some s -> stuck pat pi s ->
  settled pat seg (star + 1) (r + 1) (Some star) (r + 1).
Proof.
  intros (Hpi & Hsi & Hr & block & Hb & Hpat & Hlen & front & Hf & Hcov & Hm) Hs Hst.
  pose proof (lookup_lt_Some _ _ _ Hs). split; [lia|]. split; [lia|]. split; [done|].
  exists []. split; [constructor|]. split; [done|]. split; [simpl; lia|].
  exists []. split; [done|]. split; [constructor|]. rewrite Hm. split.
  - intros (r' & Hr' & Hm'). destruct (decide (r' = r)) as [->|]; [|exists r'; split; [lia|done]].
    exfalso. rewrite Hpat in Hm'. apply matches_later in Hm'; [|done].
    apply (stuck_no_match pat seg pi si s Hst Hs). rewrite <- drop_drop, Hf in Hm'.
    apply Forall2_length in Hcov. by rewrite drop_app_length' in Hm'.
  - intros (r' & Hr' & Hm'). exists r'. split; [lia|done].
Qed.

(** The fuel a state still needs. *)
Definition match_left pat seg (pi retry_si : nat) : nat :=
  (length seg + 1 - retry_si) * (length pat + 2) + (length pat + 1 - pi).

Lemma match_loop_correct fuel pat seg pi si g r :
  settled pat seg pi si g r -> (match_left pat seg pi r < fuel)%nat ->
  exists b, match_loop covers fuel pat seg pi si g r = Some b /\ (b = true <-> matches pat seg).
Proof.
  revert pi si g r. induction fuel as [|fuel IH]; intros pi si g r Hs Hf; [lia|]. simpl.
  pose proof Hs as (Hpi & Hsi & Hr & _).
  destruct (seg !! si) as [s|] eqn:Hseg.
  2: { eexists. split; [done|]. symmetry. by eapply settled_end. }
  pose proof (lookup_lt_Some _ _ _ Hseg).
  assert (stuck pat pi s -> exists b,
    match g with
    | None => Some false
    | Some star_pi => match_loop covers fuel pat seg (star_pi + 1) (r + 1) g (r + 1)
    end = Some b /\ (b = true <-> matches pat seg)) as Hretry.
  { intros Hst. destruct g as [star|].
    - apply IH; [by eapply settled_retry|]. unfold match_left in *.
      replace (length seg + 1 - r)%nat with (S (length seg + 1 - (r + 1)))%nat in Hf by lia.
      destruct Hs as (_ & _ & _ & block & _ & _ & ? & _). nia.
    - exists false. split; [done|]. destruct Hs as (_ & _ & _ & ->). split; [done|].
      intros Hm. by apply (stuck_no_match pat seg pi si s) in Hm. }
  destruct (pat !! pi) as [p|] eqn:Hp; [|apply Hretry; unfold stuck; by rewrite Hp].
  pose proof (lookup_lt_Some _ _ _ Hp). destruct (decide (p = t "**")) as [->|Hne].
  - apply IH; [by eapply settled_star|]. unfold match_left in *. nia.
  - destruct (covers p s) eqn:Hc; [|apply Hretry; unfold stuck; by rewrite Hp].
    apply IH; [by eapply settled_one|]. unfold match_left in *. lia.
Qed.

Lemma match_segment_tokens_matches pat seg :
  match_segment_tokens covers pat seg = true <-> matches pat seg.
Proof.
  unfold match_segment_tokens.
  destruct (match_loop_correct (match_fuel pat seg) pat seg 0 0 None 0) as (b & -> & Hb).
  - split; [lia|]. split; [lia|]. split; [lia|]. by rewrite !drop_0.
  - unfold match_left, match_fuel. lia.
  - done.
Qed.
End language.

(** ** Subsumption is inclusion of languages *)

Definition segment_covers (pattern target : text) : bool :=
  bool_decide (pattern = t "*") || bool_decide (pattern = target).
Definition pattern_covers (pattern target : text) : bool :=
  bool_decide (pattern = target) ||
  bool_decide (pattern = t "*") && negb (bool_decide (target = t "**")).

Lemma matches_tail covers c child seg :
  matches covers (c :: child) seg -> exists k, matches covers child (drop k seg).
Proof.
  intros H. inversion H as [|? ? Hm|? s seg' Hm|? ? s seg' Hp Hc Hm]; subst.
  - by exists 0%nat.
  - by apply matches_star in H.
  - by exists 1%nat.
Qed.

Lemma matches_trans parent child : matches pattern_covers parent child ->
  forall seg, matches segment_covers child seg -> matches segment_covers parent seg.
Proof.
  induction 1 as [|pat seg _ IH|pat c child _ IH|p pat c child Hp Hc _ IH]; intros segs Hm.
  - done.
  - apply matches_skip. by apply IH.
  - apply matches_tail in Hm as [k Hk]. apply IH, matches_star in Hk as [j Hj].
    apply matches_star. exists (k + j)%nat. by rewrite <- drop_drop.
  - unfold pattern_covers in Hc.
    assert (c <> t "**" /\ (p = c \/ p = t "*")) as [Hcs Hpc].
    { rewrite orb_true_iff, andb_true_iff, negb_true_iff, !bool_decide_eq_true, bool_decide_eq_false in Hc.
      destruct Hc as [->|[-> ?]]; by auto. }
    inversion Hm as [|? ? Hx|? ? ? Hx|? ? s seg' _ Hcs' Hm']; subst; [by destruct Hcs..|].
    apply matches_one; [done| |by apply IH]. unfold segment_covers in *.
    rewrite orb_true_iff, !bool_decide_eq_true in *. naive_solver.
Qed.

Lemma match_segments_matches pat seg :
  match_segments pat seg = true <-> matches segment_covers pat seg.
Proof. apply match_segment_tokens_matches. Qed.

Lemma pattern_subsumes_inclusion parent child seg :
  pattern_subsumes_segments parent child = true ->
  match_segments child seg = true -> match_segments parent seg = true.
Proof.
  unfold pattern_subsumes_segments. rewrite match_segment_tokens_matches, !match_segments_matches.
  intros Hp Hm. by eapply matches_trans.
Qed.

(** ** The grammar of identifiers *)

Definition ident_byte (b : ascii) : bool := is_ascii_alphanumeric b || is_joiner b.
Definition segment_byte (b : ascii) : bool := is_ascii_alphanumeric b || is_segment_mark b.

Definition grammar (kind : IdentifierKind) (s : text) : Prop :=
  match kind, s with
  | _, [] => False
  | Scheme, c :: r => is_ascii_alphabetic c = true /\ forallb ident_byte r = true
  | Cluster, c :: r => ident_byte c = true /\ forallb ident_byte r = true
  | Segment, c :: r => s = t "*" \/ s = t "**" \/
      is_ascii_alphanumeric c = true /\ forallb segment_byte r = true
  end.

Lemma next_position p : 0 < N.min (saturating_add 255 p 1) 8.
Proof. unfold saturating_add. lia. Qed.

(** After the first byte, with no wildcard seen, a byte class decides. *)
Definition later_byte (kind : IdentifierKind) : ascii -> bool :=
  match kind with Segment => segment_byte | _ => ident_byte end.

Lemma accepts_later kind p b : 0 < p ->
  accepts (mkIdentifier kind p 0 false) b = (later_byte kind b, 0).
Proof.
  intros Hp. unfold accepts. simpl. rewrite (proj2 (N.eqb_neq p 0)) by lia.
  by destruct kind.
Qed.

Lemma push_later kind p s : 0 < p ->
  let '(self, r) := push_bytes (mkIdentifier kind p 0 false) s in
  (r = Ok tt <-> forallb (later_byte kind) s = true) /\
  (r = Ok tt -> id_invalid self = false /\ 0 < id_position self).
Proof.
  revert p. induction s as [|b s IH]; intros p Hp; [simpl; naive_solver|].
  cbn [push_bytes]. rewrite accepts_later by done. cbn [id_kind id_position id_invalid].
  destruct (later_byte kind b) eqn:Hb; cbn [negb forallb]; rewrite Hb; [|simpl; naive_solver].
  apply IH. apply next_position.
Qed.

Lemma validate_later kind s self r :
  (let '(self, r) := (self, r) in
   (r = Ok tt <-> forallb (later_byte kind) s = true) /\
   (r = Ok tt -> id_invalid self = false /\ 0 < id_position self)) ->
  result_bind r (fun _ => identifier_finish self) = Ok tt <-> forallb (later_byte kind) s = true.
Proof.
  intros [Hr Hfin]. rewrite <- Hr. destruct r as [[]|e]; simpl; [|done].
  destruct (Hfin eq_refl) as [Hi Hp]. unfold identifier_finish.
  rewrite Hi. by rewrite (proj2 (N.eqb_neq _ 0)) by lia.
Qed.

(** Wildcards are one or two stars and nothing else. *)
Lemma push_wild p w s : 0 < p -> 0 < w <= 2 ->
  let '(self, r) := push_bytes (mkIdentifier Segment p w false) s in
  result_bind r (fun _ => identifier_finish self) = Ok tt <->
  s = [] \/ s = t "*" /\ w = 1.
Proof.
  intros Hp Hw. destruct s as [|b s].
  { simpl. unfold identifier_finish. simpl. rewrite (proj2 (N.eqb_neq p 0)) by lia. naive_solver. }
  cbn [push_bytes]. unfold accepts. cbn [id_kind id_wildcards id_position id_invalid].
  rewrite (proj2 (N.ltb_lt 0 w)) by lia. cbn [orb].
  destruct (Ascii.eqb_spec b "*") as [->|Hb]; cbn [andb negb]; [|split; [done|]; intros [|[Hs _]]; [done|]; by injection Hs].
  destruct (N.ltb_spec w 2); cbn [negb]; [|split; [done|intros [|[? ?]]; [done|lia]]].
  assert (w = 1) as -> by lia. destruct s as [|b' s].
  { cbn. pose proof (next_position p). unfold identifier_finish. cbn [id_invalid id_position].
    rewrite (proj2 (N.eqb_neq _ 0)) by lia. split; [by right|done]. }
  cbn [push_bytes]. unfold accepts. cbn [id_kind id_wildcards id_position id_invalid].
  change (0 <? 1 + 1) with true. cbn [orb]. change (1 + 1 <? 2) with false.
  rewrite andb_false_r. cbn. split; [done|]. by intros [|[? _]].
Qed.

Lemma validate_identifier_grammar s kind :
  validate_identifier s kind = Ok tt <-> grammar kind s.
Proof.
  unfold validate_identifier, identifier_push, identifier_new. cbn [id_invalid].
  destruct s as [|b s]; [by destruct kind|]. cbn [push_bytes]. unfold accepts.
  cbn [id_kind id_position id_wildcards id_invalid]. change (0 =? 0) with true.
  change (0 <? 0) with false. cbn [orb andb]. pose proof (next_position 0) as Hp.
  destruct kind; cbn [grammar].
  - destruct (is_ascii_alphabetic b); cbn [negb]; [|by split; [|intros []]].
    pose proof (push_later Scheme _ s Hp) as Hl. destruct (push_bytes _ s) as [self r].
    rewrite (validate_later Scheme s self r Hl). naive_solver.
  - fold (ident_byte b). destruct (ident_byte b); cbn [negb]; [|by split; [|intros []]].
    pose proof (push_later Cluster _ s Hp) as Hl. destruct (push_bytes _ s) as [self r].
    rewrite (validate_later Cluster s self r Hl). naive_solver.
  - destruct (Ascii.eqb_spec b "*") as [->|Hb]; cbn [andb].
    + change (0 <? 2) with true. cbn [negb]. change (0 + 1) with 1.
      pose proof (push_wild _ 1 s Hp) as Hw. destruct (push_bytes _ s) as [self r].
      rewrite Hw by lia. split.
      * intros [->|[-> _]]; by auto.
      * intros [[= ->]|[[= ->]|[? _]]]; by auto.
    + destruct (is_ascii_alphanumeric b); cbn [negb].
      * pose proof (push_later Segment _ s Hp) as Hl. destruct (push_bytes _ s) as [self r].
        rewrite (validate_later Segment s self r Hl). split; [by auto|].
        intros [[= ? _]|[[= ? _]|[_ ?]]]; done.
      * split; [done|]. intros [[= ? _]|[[= ? _]|[? _]]]; done.
Qed.

(** ** Paths and their canonical text *)

(** Bytes that no identifier contains. *)
Definition reserved (b : ascii) : bool :=
  negb (is_ascii_byte b) || existsb (Ascii.eqb b) (t "/@#").

Lemma ident_byte_free b : ident_byte b = true -> reserved b = false /\ b <> ":".
Proof. by destruct b as [[] [] [] [] [] [] [] []]; vm_compute. Qed.

Lemma segment_byte_free b : segment_byte b = true -> reserved b = false.
Proof. by destruct b as [[] [] [] [] [] [] [] []]; vm_compute. Qed.

Lemma alphabetic_ident b : is_ascii_alphabetic b = true -> ident_byte b = true.
Proof. unfold ident_byte, is_ascii_alphanumeric. by intros ->. Qed.

Lemma alphanumeric_segment b : is_ascii_alphanumeric b = true -> segment_byte b = true.
Proof. unfold segment_byte. by intros ->. Qed.

Definition unreserved_text (s : text) : Prop := Forall (fun b => reserved b = false) s.

Lemma unreserved_ascii s : unreserved_text s -> is_ascii s = true.
Proof.
  unfold is_ascii. rewrite forallb_forall. intros Hs b Hb. unfold unreserved_text in Hs.
  rewrite Forall_forall in Hs. apply list_elem_of_In in Hb. specialize (Hs b Hb).
  unfold reserved in Hs. apply orb_false_iff in Hs as [Hs _]. by apply negb_false_iff in Hs.
Qed.

Lemma unreserved_free c s : c ∈ t "/@#" -> unreserved_text s -> c ∉ s.
Proof.
  unfold unreserved_text. rewrite Forall_forall. intros Hc Hs Hin. specialize (Hs c Hin).
  unfold reserved in Hs. apply orb_false_iff in Hs as [_ Hs].
  assert (existsb (Ascii.eqb c) (t "/@#") = true) as Hx; [|congruence].
  apply existsb_exists. exists c. split; [by apply list_elem_of_In|apply Ascii.eqb_refl].
Qed.

Lemma Forall_forallb (f : ascii -> bool) s : forallb f s = true <-> Forall (fun b => f b = true) s.
Proof. rewrite forallb_forall, Forall_forall. by setoid_rewrite list_elem_of_In. Qed.

(** The texts of each kind of identifier are free of reserved bytes. *)
Lemma grammar_unreserved kind s : grammar kind s -> unreserved_text s.
Proof.
  assert (forall r, forallb ident_byte r = true -> unreserved_text r) as Hi.
  { intros r Hr%Forall_forallb. eapply Forall_impl; [exact Hr|]. intros b Hb. by apply ident_byte_free. }
  assert (forall r, forallb segment_byte r = true -> unreserved_text r) as Hs.
  { intros r Hr%Forall_forallb. eapply Forall_impl; [exact Hr|]. intros b Hb. by apply segment_byte_free. }
  destruct kind, s as [|c r]; try done.
  - intros [Hc%alphabetic_ident Hr]. apply Hi. simpl. by rewrite Hc.
  - intros [Hc Hr]. apply Hi. simpl. by rewrite Hc.
  - intros [->|[->|[Hc%alphanumeric_segment Hr]]]; [by repeat constructor..|].
    apply Hs. simpl. by rewrite Hc.
Qed.

Lemma grammar_no_colon kind s : kind <> Segment -> grammar kind s -> ":"%char ∉ s.
Proof.
  assert (forall r, forallb ident_byte r = true -> ":"%char ∉ r) as Hi.
  { intros r Hr%Forall_forallb Hin. rewrite Forall_forall in Hr. by apply Hr, ident_byte_free in Hin as []. }
  intros Hk. destruct kind, s as [|c r]; try done.
  - intros [Hc%alphabetic_ident Hr]. apply Hi. simpl. by rewrite Hc.
  - intros [Hc Hr]. apply Hi. simpl. by rewrite Hc.
Qed.

Lemma grammar_nonempty kind s : grammar kind s -> s <> [].
Proof. by destruct kind, s. Qed.

(** Well-formed paths: what the constructors establish. *)
Definition valid_path (p : Path) : Prop :=
  (forall c, path_cluster p = Some c -> grammar Cluster c) /\
  grammar Scheme (path_scheme p) /\ path_scheme p <> t "path" /\
  Forall (grammar Segment) (path_segments p).

Lemma is_ok_grammar s kind : is_ok (validate_identifier s kind) = true <-> grammar kind s.
Proof.
  rewrite <- validate_identifier_grammar. by destruct (validate_identifier s kind) as [[]|].
Qed.

Lemma validate_cluster_ident_ok s : validate_cluster_ident s = Ok tt <-> grammar Cluster s.
Proof.
  unfold validate_cluster_ident, is_cluster_ident. split.
  - destruct (is_ascii s); [|done]. destruct (is_ok _) eqn:Ho; [|done]. intros _. by apply is_ok_grammar.
  - intros Hg. rewrite unreserved_ascii by by eapply grammar_unreserved.
    by rewrite (proj2 (is_ok_grammar s Cluster)).
Qed.

Lemma validate_segment_ok s : validate_segment s = Ok tt <-> grammar Segment s.
Proof.
  unfold validate_segment, is_segment_ident. destruct s as [|c s]; [done|]. split.
  - destruct (is_ascii _); [|done]. destruct (is_ok _) eqn:Ho; [|done]. intros _. by apply is_ok_grammar.
  - intros Hg. rewrite unreserved_ascii by by eapply grammar_unreserved.
    by rewrite (proj2 (is_ok_grammar _ Segment)).
Qed.

Lemma validate_segments_ok l segs :
  validate_segments l = Ok segs <-> segs = l /\ Forall (grammar Segment) l.
Proof.
  revert segs. induction l as [|s l IH]; intros segs; simpl; [naive_solver|].
  rewrite list.Forall_cons, <- validate_segment_ok.
  destruct (validate_segment s) as [[]|e]; simpl; [|naive_solver].
  destruct (validate_segments l) as [l'|e] eqn:Hl; simpl; split.
  - intros [= <-]. by destruct (proj1 (IH l') eq_refl) as [-> ?].
  - intros [-> [_ Hall]]. pose proof (proj2 (IH l) (conj eq_refl Hall)). congruence.
  - done.
  - intros [-> [_ Hall]]. by pose proof (proj2 (IH l) (conj eq_refl Hall)).
Qed.

(** The canonical text, written out. *)
Definition path_text (p : Path) : text :=
  match path_cluster p with
  | None => path_scheme p ++ t "://" ++ join "/" (path_segments p)
  | Some c => t "path://" ++ c ++ t "/" ++ join "/" (path_scheme p :: path_segments p)
  end.

Fixpoint slashed (l : list text) : text :=
  match l with [] => [] | s :: l' => t "/" ++ s ++ slashed l' end.

Lemma join_slashed s l : join "/" (s :: l) = s ++ slashed l.
Proof.
  revert s. induction l as [|s' l IH]; intros s; [by rewrite app_nil_r|].
  rewrite join_cons by done. by rewrite IH.
Qed.

(** The iterator past its prefix, with the separator due. *)
Lemma all_parts_slashed fuel p pre segs :
  prefix_part (mkParts p pre segs true None) = None -> (2 * length segs < fuel)%nat ->
  concat (all_parts fuel (mkParts p pre segs true None)) = slashed segs.
Proof.
  revert fuel. induction segs as [|s segs IH]; intros fuel Hpre Hf.
  - destruct fuel; [lia|]. cbn [all_parts next_part]. unfold next_part. by rewrite Hpre.
  - destruct fuel as [|[|fuel]]; simpl in Hf; [lia..|]. cbn [all_parts]. unfold next_part at 1.
    rewrite Hpre. cbn [cp_pending cp_segments cp_separator cp_path cp_prefix].
    unfold next_part. change (prefix_part (mkParts p pre segs true (Some s)))
      with (prefix_part (mkParts p pre (s :: segs) true None)). rewrite Hpre.
    cbn [cp_pending cp_segments cp_separator cp_path cp_prefix concat slashed].
    rewrite IH; [done|done|lia].
Qed.

Lemma all_parts_next fuel self part self' :
  next_part self = Some (part, self') ->
  concat (all_parts (S fuel) self) = part ++ concat (all_parts fuel self').
Proof. simpl. by intros ->. Qed.

Lemma to_string_text p : to_string p = path_text p.
Proof.
  unfold to_string, parts, path_text, canonical_parts. destruct p as [[c|] sch segs];
    cbn [path_cluster path_scheme path_segments].
  - replace (2 * length segs + 5)%nat with (S (S (S (S (2 * length segs + 1)))))%nat by lia.
    rewrite bool_decide_true by eauto. do 4 erewrite all_parts_next by reflexivity.
    rewrite all_parts_slashed by (done || simpl; lia). by rewrite join_slashed.
  - rewrite bool_decide_false by by intros [? ?].
    replace (2 * length segs + 5)%nat with (S (S (2 * length segs + 3)))%nat by lia.
    do 2 erewrite all_parts_next by reflexivity. f_equal. f_equal. destruct segs as [|s segs]; [done|].
    replace (2 * length (s :: segs) + 3)%nat with (S (2 * length segs + 4))%nat by (simpl; lia).
    erewrite all_parts_next by reflexivity.
    rewrite all_parts_slashed by (done || simpl; lia). by rewrite join_slashed.
Qed.

Lemma segment_no_slash s : grammar Segment s -> "/"%char ∉ s.
Proof. intros Hs. apply unreserved_free; [by vm_compute; constructor|by eapply grammar_unreserved]. Qed.

Lemma scheme_no_slash s : grammar Scheme s -> "/"%char ∉ s.
Proof. intros Hs. apply unreserved_free; [by vm_compute; constructor|by eapply grammar_unreserved]. Qed.

Lemma cluster_no_slash s : grammar Cluster s -> "/"%char ∉ s.
Proof. intros Hs. apply unreserved_free; [by vm_compute; constructor|by eapply grammar_unreserved]. Qed.

(** The body of a path is parsed to its segments and printed back. *)
Lemma body_segments body segs :
  match body with [] => Ok [] | _ => validate_segments (split "/" body) end = Ok segs <->
  Forall (grammar Segment) segs /\ body = join "/" segs.
Proof.
  split.
  - destruct body as [|b body]; [by intros [= <-]|].
    intros [-> Hall]%validate_segments_ok. by rewrite join_split.
  - intros [Hall ->]. destruct segs as [|s segs]; [done|].
    destruct (join "/" (s :: segs)) as [|b body] eqn:Hj.
    + apply list.Forall_cons in Hall as [Hs%grammar_nonempty _]. rewrite join_slashed in Hj.
      by apply app_eq_nil in Hj as [-> _].
    + rewrite <- Hj, split_join; [by apply validate_segments_ok|done|].
      eapply Forall_impl; [exact Hall|]. apply segment_no_slash.
Qed.

Lemma ends_with_snoc c s : ends_with c s = true <-> exists r, s = r ++ [c].
Proof.
  unfold ends_with. rewrite <- (reverse_involutive s). destruct (reverse s) as [|d r].
  - rewrite reverse_nil. simpl. split; [done|]. intros [r Hr]. by destruct r.
  - rewrite reverse_cons, last_snoc. split.
    + intros ->%Ascii.eqb_eq. by eexists.
    + intros [r' Hr]. apply app_inj_tail in Hr as [_ ->]. apply Ascii.eqb_refl.
Qed.

(** Joined pieces end in the last piece. *)
Lemma join_no_trailing s segs :
  grammar Scheme s -> Forall (grammar Segment) segs -> ends_with "/" (join "/" (s :: segs)) = false.
Proof.
  intros Hs Hall. destruct (ends_with _ _) eqn:He; [|done]. exfalso.
  apply ends_with_snoc in He as [r Hr].
  assert (forall p, p <> [] -> "/"%char ∉ p -> forall x, x ++ p <> r ++ ["/"%char]) as Hend.
  { intros p Hp Hn x Hx. destruct (exists_last Hp) as (p' & d & ->). rewrite app_assoc in Hx.
    apply app_inj_tail in Hx as [_ ->]. apply Hn. apply elem_of_app. right. left. }
  rewrite join_slashed in Hr. destruct segs as [|q segs _] using rev_ind.
  - rewrite app_nil_r in Hr. apply (Hend s (grammar_nonempty _ _ Hs) (scheme_no_slash _ Hs) []). done.
  - apply Forall_app in Hall as [_ [Hq _]%list.Forall_cons].
    assert (forall l, slashed (l ++ [q]) = slashed l ++ t "/" ++ q) as Hsl.
    { induction l as [|y l IH]; simpl; [by rewrite app_nil_r|]. rewrite IH. by rewrite <- !app_assoc. }
    rewrite Hsl in Hr. rewrite !app_assoc in Hr.
    eapply (Hend q); [by eapply grammar_nonempty|by apply segment_no_slash|exact Hr].
Qed.

(** The head of a local path, and of a clustered one. *)
Lemma parse_head_local scheme body :
  grammar Scheme scheme -> scheme <> t "path" ->
  parse_head (scheme ++ t "://" ++ body) = Ok (None, scheme, body).
Proof.
  intros Hs Hne. assert (":"%char ∉ scheme) as Hc by by apply (grammar_no_colon Scheme).
  pose proof (split_once_at ":" (t "//") scheme body Hc) as Hsp.
  unfold parse_head. destruct (strip_prefix (t "path://") _) as [r|] eqn:Hp.
  - apply strip_prefix_Some in Hp. exfalso. apply Hne.
    change (t "path://" ++ r) with (t "path" ++ ":"%char :: t "//" ++ r) in Hp.
    change (t "://" ++ body) with (":"%char :: t "//" ++ body) in Hp. rewrite Hp in Hsp.
    rewrite split_once_at in Hsp by by apply (bool_decide_unpack _); vm_compute. by simplify_eq.
  - change (split_once (t "://") (scheme ++ t "://" ++ body))
      with (split_once (":"%char :: t "//") (scheme ++ ":"%char :: t "//" ++ body)). by rewrite Hsp.
Qed.

Lemma parse_head_clustered c scheme segs :
  grammar Cluster c -> grammar Scheme scheme -> Forall (grammar Segment) segs ->
  parse_head (t "path://" ++ c ++ t "/" ++ join "/" (scheme :: segs)) =
  Ok (Some c, scheme, join "/" segs).
Proof.
  intros Hc Hs Hall. unfold parse_head. rewrite strip_prefix_app.
  change (t "/" ++ join "/" (scheme :: segs)) with ("/"%char :: [] ++ join "/" (scheme :: segs)).
  rewrite (split_once_at "/" [] c) by by apply cluster_no_slash. cbn [ok_or result_bind].
  rewrite (proj2 (validate_cluster_ident_ok c)) by done. cbn [result_bind].
  rewrite join_no_trailing by done. destruct segs as [|s segs].
  - cbn [join]. change (t "/") with ["/"%char]. by rewrite split_once_char_None by by apply scheme_no_slash.
  - rewrite join_cons by done. change ("/"%char :: join "/" (s :: segs)) with ("/"%char :: [] ++ join "/" (s :: segs)).
    rewrite (split_once_at "/" [] scheme) by by apply scheme_no_slash. done.
Qed.

(** What a parsed head stands for. *)
Lemma parse_head_text s cluster scheme body :
  parse_head s = Ok (cluster, scheme, body) ->
  match cluster with
  | None => s = scheme ++ t "://" ++ body
  | Some c => grammar Cluster c /\
      s = t "path://" ++ c ++ t "/" ++ scheme ++ match body with [] => [] | _ => t "/" ++ body end
  end.
Proof.
  unfold parse_head. destruct (strip_prefix _ s) as [cl|] eqn:Hp.
  - apply strip_prefix_Some in Hp as ->.
    destruct (split_once (t "/") cl) as [[c rest]|] eqn:Hs; cbn [ok_or result_bind]; [|done].
    apply split_once_app in Hs as ->. destruct (validate_cluster_ident c) as [[]|] eqn:Hc; [|done].
    apply validate_cluster_ident_ok in Hc. cbn [result_bind].
    destruct (split_once (t "/") rest) as [[sch b]|] eqn:Hr; cbn [default from_option id].
    + apply split_once_app in Hr as ->. destruct (ends_with _ _) eqn:He; [done|]. intros [= <- <- <-].
      split; [done|]. destruct b; [|done]. exfalso.
      assert (ends_with "/" (sch ++ t "/" ++ []) = true) as Ht; [|congruence].
      apply ends_with_snoc. by exists sch.
    + destruct (ends_with _ _); [done|]. intros [= <- <- <-]. by rewrite app_nil_r.
  - destruct (split_once (t "://") s) as [[sch b]|] eqn:Hs; cbn [ok_or result_bind]; [|done].
    intros [= <- <- <-]. by apply split_once_app.
Qed.

Lemma unreserved_app a b : unreserved_text (a ++ b) <-> unreserved_text a /\ unreserved_text b.
Proof. apply Forall_app. Qed.

Definition plain_byte (b : ascii) : bool := is_ascii_byte b && negb (Ascii.eqb "@" b).

Lemma plain_text s : forallb plain_byte s = true <-> is_ascii s = true /\ contains "@" s = false.
Proof.
  unfold is_ascii, contains. induction s as [|b s IH]; [done|]. cbn [forallb existsb].
  rewrite andb_true_iff, IH. unfold plain_byte.
  destruct (is_ascii_byte b), (Ascii.eqb "@" b); cbn [andb orb negb]; naive_solver.
Qed.

Lemma unreserved_plain s : unreserved_text s -> forallb plain_byte s = true.
Proof.
  intros Hs. apply plain_text. split; [by apply unreserved_ascii|]. apply contains_false.
  apply unreserved_free; [|done]. by apply (bool_decide_unpack _); vm_compute.
Qed.

Lemma join_plain l : Forall unreserved_text l -> forallb plain_byte (join "/" l) = true.
Proof.
  intros Hl. destruct l as [|s l]; [done|]. rewrite join_slashed, forallb_app.
  apply list.Forall_cons in Hl as [Hs Hl]. rewrite unreserved_plain by done. simpl.
  induction Hl as [|q l Hq _ IH]; [done|]. simpl. by rewrite forallb_app, (unreserved_plain q), IH.
Qed.

Lemma valid_path_plain p : valid_path p -> is_ascii (path_text p) = true /\ contains "@" (path_text p) = false.
Proof.
  intros (Hc & Hs & _ & Hsegs). apply plain_text.
  assert (Forall unreserved_text (path_segments p)) as Hsegs'
    by (eapply Forall_impl; [exact Hsegs|]; apply (grammar_unreserved Segment)).
  unfold path_text. destruct (path_cluster p) as [c|].
  - rewrite !forallb_app, join_plain, (unreserved_plain c).
    + done.
    + eapply grammar_unreserved. by apply Hc.
    + constructor; [by eapply grammar_unreserved|done].
  - by rewrite !forallb_app, join_plain, unreserved_plain by (done || by eapply grammar_unreserved).
Qed.

Lemma path_text_nonempty p : valid_path p -> path_text p <> [].
Proof.
  intros (_ & Hs%grammar_nonempty & _). unfold path_text. destruct (path_cluster p); [done|].
  intros H. by apply app_eq_nil in H as [? _].
Qed.

Lemma parse_printed p : valid_path p -> parse (path_text p) = Ok p.
Proof.
  intros Hv. destruct (valid_path_plain p Hv) as [Ha Hat]. pose proof (path_text_nonempty p Hv) as Hne.
  unfold parse. destruct (path_text p) as [|b s] eqn:Htext; [done|].
  rewrite Ha, Hat. cbn [negb]. rewrite <- Htext. clear b s Htext Hne Ha Hat.
  destruct Hv as (Hc & Hs & Hnp & Hsegs). destruct p as [cl sch segs]. cbn [path_cluster path_scheme path_segments] in *.
  assert (parse_head (path_text (mkPath cl sch segs)) = Ok (cl, sch, join "/" segs)) as ->.
  { destruct cl as [c|]; [apply parse_head_clustered; auto|by apply parse_head_local]. }
  cbn [result_bind]. pose proof (grammar_nonempty _ _ Hs) as Hne. destruct sch as [|b sch]; [done|].
  rewrite (proj2 (contains_false "/" _)) by by apply scheme_no_slash.
  unfold is_scheme_ident. rewrite (proj2 (is_ok_grammar _ Scheme)) by done. cbn [negb].
  rewrite decide_False by done. by rewrite (proj2 (body_segments (join "/" segs) segs)).
Qed.

Lemma parse_text s p : parse s = Ok p -> valid_path p /\ path_text p = s.
Proof.
  unfold parse. destruct s as [|b s']; [done|]. generalize (b :: s'). clear b s'. intros s.
  destruct (is_ascii s); [|done]. destruct (contains "@" s); [done|]. cbn [negb].
  destruct (parse_head s) as [[[cl sch] body]|e] eqn:Hh; cbn [result_bind]; [|done].
  apply parse_head_text in Hh. destruct sch as [|b sch]; [done|]. set (scheme := b :: sch) in *.
  destruct (contains "/" scheme) eqn:Hsl; [done|].
  destruct (is_scheme_ident scheme) eqn:Hid; cbn [negb]; [|done].
  case_decide; [done|].
  destruct (match body with [] => Ok [] | _ => validate_segments (split "/" body) end)
    as [segs|e] eqn:Hb; cbn [result_bind]; [|done].
  intros [= <-]. apply body_segments in Hb as [Hall ->]. apply is_ok_grammar in Hid.
  unfold valid_path, path_text. cbn [path_cluster path_scheme path_segments]. destruct cl as [c|].
  - destruct Hh as [Hc ->]. split; [split_and!; [by intros ? [= <-]|done..]|].
    do 3 f_equal. destruct segs as [|q segs]; [by rewrite app_nil_r|]. rewrite join_cons by done.
    destruct (join "/" (q :: segs)) eqn:Hj; [|done].
    apply list.Forall_cons in Hall as [Hq%grammar_nonempty _]. rewrite join_slashed in Hj.
    by apply app_eq_nil in Hj as [? _].
  - by split; [split_and!|].
Qed.

(** ** Properties *)

(** The iterative wildcard matcher, which keeps one retry position, always ends and
    decides the language of the pattern, whatever covers a single segment. *)
Theorem match_segment_tokens_decides covers (pat seg : list text) :
  match_loop covers (match_fuel pat seg) pat seg 0 0 None 0 =
    Some (match_segment_tokens covers pat seg) /\
  (match_segment_tokens covers pat seg = true <-> matches covers pat seg).
Proof.
  split; [|apply match_segment_tokens_matches]. unfold match_segment_tokens.
  destruct (match_loop_correct covers (match_fuel pat seg) pat seg 0 0 None 0) as (b & -> & _); [| |done].
  - split; [lia|]. split; [lia|]. split; [lia|]. by rewrite !drop_0.
  - unfold match_left, match_fuel. lia.
Qed.

(** Structural coverage never widens: a path that a subsumed pattern matches is
    matched by the subsuming one. *)
Theorem pattern_subsumes_sound (parent child seg : list text) :
  pattern_subsumes_segments parent child = true ->
  match_segments child seg = true -> match_segments parent seg = true.
Proof. apply pattern_subsumes_inclusion. Qed.

(** C30: parsing and printing paths are inverse: the texts that parse are exactly the
    canonical texts of well-formed paths, each of one path. *)
Theorem path_text_bijection (s : text) (p : Path) :
  parse s = Ok p <-> valid_path p /\ to_string p = s.
Proof.
  rewrite to_string_text. split; [apply parse_text|]. intros [Hv <-]. by apply parse_printed.
Qed.
