(* ===== verification/Collection.v ===== *)
(** * Persistent collections: the shared balanced index

    crates/xolotl-types/src/value/collection/node.rs and assembly.rs: the AVL index over
    leaves of at most 32 members, with cached length, height and routing summary, its
    iterator, and the binary-carry assembly of a sequence. *)

From stdpp Require Import base numbers list option.
From S2P Require Import Prelude.

Local Open Scope N_scope.

Definition LEAF_CAPACITY : N := 32.

(** ** Data *)

(** The [Leaf] trait's routing summary of a leaf's members. *)
Class Leaf (M S : Type) : Type := leaf_summary : list M -> S.

(** [Index<L>]: cached [len], [height] and [summary], and the [Data] of the body. *)
Inductive Index (M S : Type) : Type :=
| LeafIndex (length height : N) (summary : S) (members : list M)
| BranchIndex (length height : N) (summary : S) (left_ right_ : Index M S).
Arguments LeafIndex {M S} _ _ _ _.
Arguments BranchIndex {M S} _ _ _ _ _.

Section index.
Context {M S : Type} `{!Leaf M S}.
Implicit Types (l r : Index M S).

Definition index_len l : N :=
  match l with LeafIndex n _ _ _ | BranchIndex n _ _ _ _ => n end.
Definition height l : N :=
  match l with LeafIndex _ h _ _ | BranchIndex _ h _ _ _ => h end.
Definition summary l : S :=
  match l with LeafIndex _ _ s _ | BranchIndex _ _ s _ _ => s end.

(** [Index::leaf] and [Index::branch]. *)
Definition leaf (ms : list M) : Index M S := LeafIndex (len ms) 0 (leaf_summary ms) ms.

Definition branch l r : Index M S :=
  BranchIndex (index_len l + index_len r) (N.max (height l) (height r) + 1) (summary r) l r.

(** Rotations of a left-heavy and of a right-heavy pair; [None] where no arm applies. *)
Definition balance_left l r : option (Index M S) :=
  match l with
  | BranchIndex _ _ _ outer inner =>
      if height inner <=? height outer then Some (branch outer (branch inner r))
      else match inner with
           | BranchIndex _ _ _ middle_left middle_right =>
               Some (branch (branch outer middle_left) (branch middle_right r))
           | LeafIndex _ _ _ _ => None
           end
  | LeafIndex _ _ _ _ => None
  end.

Definition balance_right l r : option (Index M S) :=
  match r with
  | BranchIndex _ _ _ inner outer =>
      if height inner <=? height outer then Some (branch (branch l inner) outer)
      else match inner with
           | BranchIndex _ _ _ middle_left middle_right =>
               Some (branch (branch l middle_left) (branch middle_right outer))
           | LeafIndex _ _ _ _ => None
           end
  | LeafIndex _ _ _ _ => None
  end.

Definition balance l r : Index M S :=
  match (if height r + 1 <? height l then balance_left l r else None) with
  | Some b => b
  | None =>
      match (if height l + 1 <? height r then balance_right l r else None) with
      | Some b => b
      | None => branch l r
      end
  end.

(** [join]: descends the taller tree's near spine. *)
Fixpoint join l : Index M S -> Index M S :=
  fix join_right r : Index M S :=
    match (if height r + 1 <? height l then
             match l with
             | BranchIndex _ _ _ outer inner => Some (balance outer (join inner r))
             | LeafIndex _ _ _ _ => None
             end
           else None) with
    | Some b => b
    | None =>
        match (if height l + 1 <? height r then
                 match r with
                 | BranchIndex _ _ _ inner outer => Some (balance (join_right inner) outer)
                 | LeafIndex _ _ _ _ => None
                 end
               else None) with
        | Some b => b
        | None => branch l r
        end
    end.

(** The descent to a position, of [ValueList::get] and [ValueMap::get_index]. *)
Fixpoint node_get l (index : N) : option M :=
  match l with
  | LeafIndex _ _ _ ms => get ms index
  | BranchIndex _ _ _ left_ right_ =>
      if index <? index_len left_ then node_get left_ index
      else node_get right_ (index - index_len left_)
  end.

(** ** The leaf iterator *)

(** [Leaves]: the next node, and the right siblings still to visit. *)
Record Leaves : Type := mkLeaves { lv_next : option (Index M S); lv_pending : list (Index M S) }.

Definition leaves_new (root : option (Index M S)) : Leaves := mkLeaves root [].

(** The descent to the leftmost leaf. *)
Fixpoint descend l (pending : list (Index M S)) : list M * list (Index M S) :=
  match l with
  | LeafIndex _ _ _ ms => (ms, pending)
  | BranchIndex _ _ _ left_ right_ => descend left_ (right_ :: pending)
  end.

(** [Leaves::next]. *)
Definition leaves_next (self : Leaves) : option (list M * Leaves) :=
  match lv_next self, lv_pending self with
  | Some node, pending | None, node :: pending =>
      let '(ms, pending) := descend node pending in Some (ms, mkLeaves None pending)
  | None, [] => None
  end.

(** Driving the iterator for a number of leaves. *)
Fixpoint drain (fuel : nat) (self : Leaves) : list M :=
  match fuel with
  | O => []
  | Datatypes.S fuel =>
      match leaves_next self with
      | Some (ms, self') => ms ++ drain fuel self'
      | None => []
      end
  end.

(** ** Assembly *)

(** [Forest::push]; the vector's last tree first. *)
Fixpoint forest_push (trees : list (Index M S)) (tree : Index M S) : list (Index M S) :=
  match trees with
  | [] => [tree]
  | left_ :: trees' =>
      if negb (height left_ =? height tree) then tree :: left_ :: trees'
      else forest_push trees' (join left_ tree)
  end.

Fixpoint forest_fold (trees : list (Index M S)) (root : Index M S) : Index M S :=
  match trees with
  | [] => root
  | left_ :: trees' => forest_fold trees' (join left_ root)
  end.

Definition forest_finish (trees : list (Index M S)) : option (Index M S) :=
  match trees with
  | [] => None
  | root :: trees' => Some (forest_fold trees' root)
  end.

Inductive CollectionError : Type := LengthOverflow | PrefixOutOfBounds | KeyOrder.

Record Assembly : Type := mkAssembly {
  as_pending : list M;
  as_forest : list (Index M S);
  as_len : N
}.

Definition assembly_new : Assembly := mkAssembly [] [] 0.

Definition assembly_flush (self : Assembly) : Assembly :=
  match as_pending self with
  | [] => self
  | members => mkAssembly [] (forest_push (as_forest self) (leaf members)) (as_len self)
  end.

Definition assembly_push (self : Assembly) (member : M) : Result Assembly CollectionError :=
  match checked_add usize_max (as_len self) 1 with
  | None => Err LengthOverflow
  | Some n =>
      let self := mkAssembly (as_pending self ++ [member]) (as_forest self) n in
      Ok (if len (as_pending self) =? LEAF_CAPACITY then assembly_flush self else self)
  end.

Definition assembly_finish (self : Assembly) : option (Index M S) :=
  forest_finish (as_forest (assembly_flush self)).

(** [collect]: leaf-sized groups of an iterator; each turn takes at least one member. *)
Fixpoint collect_loop (fuel : nat) (values : list M) (trees : list (Index M S))
    : option (Index M S) :=
  match fuel with
  | O => None
  | Datatypes.S fuel =>
      match take (N.to_nat LEAF_CAPACITY) values with
      | [] => forest_finish trees
      | members =>
          collect_loop fuel (drop (N.to_nat LEAF_CAPACITY) values) (forest_push trees (leaf members))
      end
  end.

Definition collect (values : list M) : option (Index M S) :=
  collect_loop (Datatypes.S (length values)) values [].

(** ** Iteration *)

(** [ListIter] and [MapIter]: the leaves to come, the current leaf's rest, and the exact count
    left. *)
Record ListIter : Type := mkListIter {
  it_leaves : Leaves;
  it_current : list M;
  it_remaining : N
}.

(** The [loop] of [ListIter::next]; the outer [None] when the fuel is spent. *)
Fixpoint iter_loop (fuel : nat) (self : ListIter) : option (option M * ListIter) :=
  match fuel with
  | O => None
  | Datatypes.S fuel =>
      match it_current self with
      | value :: rest => Some (Some value, mkListIter (it_leaves self) rest (it_remaining self - 1))
      | [] =>
          match leaves_next (it_leaves self) with
          | Some (ms, leaves) => iter_loop fuel (mkListIter leaves ms (it_remaining self))
          | None => Some (None, self)
          end
      end
  end.

(** Leaves are not empty, so two turns suffice. *)
Definition iter_next (self : ListIter) : option (option M * ListIter) := iter_loop 2 self.

(** ** The invariant *)

(** The members in order. *)
Fixpoint members l : list M :=
  match l with
  | LeafIndex _ _ _ ms => ms
  | BranchIndex _ _ _ left_ right_ => members left_ ++ members right_
  end.

Definition root_members (root : option (Index M S)) : list M :=
  match root with Some l => members l | None => [] end.

(** Leaves are neither empty nor over capacity, siblings differ by at most one in
    height, and the caches are right. *)
Fixpoint ok l : Prop :=
  match l with
  | LeafIndex n h s ms =>
      ms <> [] /\ len ms <= LEAF_CAPACITY /\ n = len ms /\ h = 0 /\ s = leaf_summary ms
  | BranchIndex n h s left_ right_ =>
      ok left_ /\ ok right_ /\
      height left_ <= height right_ + 1 /\ height right_ <= height left_ + 1 /\
      n = index_len left_ + index_len right_ /\
      h = N.max (height left_) (height right_) + 1 /\ s = summary right_
  end.
End index.
Arguments ListIter : clear implicits.

Section index_lemmas.
Context {M S : Type} `{!Leaf M S}.
Implicit Types (l r : Index M S).

Lemma ok_len l : ok l -> index_len l = len (members l).
Proof.
  induction l as [n h s ms|n h s l IHl r IHr]; simpl; [naive_solver|].
  intros (Hl & Hr & _ & _ & -> & _). rewrite IHl, IHr by done. unfold len. rewrite length_app. lia.
Qed.

Lemma ok_nonempty l : ok l -> members l <> [].
Proof.
  induction l as [n h s ms|n h s l IHl r IHr]; simpl; [naive_solver|].
  intros (Hl & _) [Hn _]%app_eq_nil. by apply IHl.
Qed.

Lemma ok_leaf (ms : list M) : ms <> [] -> len ms <= LEAF_CAPACITY -> ok (leaf ms).
Proof. done. Qed.

Lemma ok_branch l r :
  ok l -> ok r -> height l <= height r + 1 -> height r <= height l + 1 -> ok (branch l r).
Proof. done. Qed.

Lemma members_branch l r : members (branch l r) = members l ++ members r.
Proof. done. Qed.

(** Rotations keep the members in order. *)
Lemma members_balance l r : members (balance l r) = members l ++ members r.
Proof.
  unfold balance, balance_left, balance_right.
  repeat case_match; simplify_eq/=; rewrite <- ?app_assoc; done.
Qed.

Lemma members_join l r : members (join l r) = members l ++ members r.
Proof.
  revert r. induction l as [n h s ms|n h s outer IHo inner IHi];
    induction r as [n' h' s' ms'|n' h' s' inner' IHi' outer' IHo']; cbn [join height];
    repeat case_match; simplify_eq/=; rewrite ?members_balance; simpl;
    rewrite ?IHi, ?IHi'; simpl; by rewrite <- ?app_assoc.
Qed.

(** What [balance] and [join] do to the height. *)
Definition grows_by_one (h : N) l : Prop := h <= height l <= h + 1.

Lemma balance_left_ok l r :
  ok l -> ok r -> height l = height r + 2 ->
  exists b, balance_left l r = Some b /\ ok b /\ grows_by_one (height l) b.
Proof.
  intros Hl Hr Hh. destruct l as [n h s ms|n h s outer inner]; simpl in Hh, Hl; [naive_solver lia|].
  destruct Hl as (Ho & Hi & H1 & H2 & _ & Hmax & _). simpl.
  destruct (N.leb_spec (height inner) (height outer)).
  - eexists. split; [done|]. unfold grows_by_one. split.
    + apply ok_branch; [done| |simpl; lia..]. apply ok_branch; [done..|lia|lia].
    + simpl. lia.
  - destruct inner as [n' h' s' ms'|n' h' s' ml mr]; simpl in *; [naive_solver lia|].
    destruct Hi as (Hml & Hmr & H3 & H4 & _ & Hmax' & _).
    eexists. split; [done|]. unfold grows_by_one. split.
    + apply ok_branch; [apply ok_branch; [done..|lia|lia]|apply ok_branch; [done..|lia|lia]|simpl; lia..].
    + simpl. lia.
Qed.

Lemma balance_right_ok l r :
  ok l -> ok r -> height r = height l + 2 ->
  exists b, balance_right l r = Some b /\ ok b /\ grows_by_one (height r) b.
Proof.
  intros Hl Hr Hh. destruct r as [n h s ms|n h s inner outer]; simpl in Hh, Hr; [naive_solver lia|].
  destruct Hr as (Hi & Ho & H1 & H2 & _ & Hmax & _). simpl.
  destruct (N.leb_spec (height inner) (height outer)).
  - eexists. split; [done|]. unfold grows_by_one. split.
    + apply ok_branch; [|done|simpl; lia..]. apply ok_branch; [done..|lia|lia].
    + simpl. lia.
  - destruct inner as [n' h' s' ms'|n' h' s' ml mr]; simpl in *; [naive_solver lia|].
    destruct Hi as (Hml & Hmr & H3 & H4 & _ & Hmax' & _).
    eexists. split; [done|]. unfold grows_by_one. split.
    + apply ok_branch; [apply ok_branch; [done..|lia|lia]|apply ok_branch; [done..|lia|lia]|simpl; lia..].
    + simpl. lia.
Qed.

Lemma balance_ok l r :
  ok l -> ok r -> height l <= height r + 2 -> height r <= height l + 2 ->
  ok (balance l r) /\ grows_by_one (N.max (height l) (height r)) (balance l r) /\
  (height l <= height r + 1 -> height r <= height l + 1 ->
   height (balance l r) = N.max (height l) (height r) + 1).
Proof.
  intros Hl Hr H1 H2. unfold balance.
  destruct (N.ltb_spec (height r + 1) (height l)).
  - destruct (balance_left_ok l r Hl Hr) as (b & -> & Hb & Hg); [lia|].
    split; [done|]. split; [|lia]. unfold grows_by_one in *. lia.
  - destruct (N.ltb_spec (height l + 1) (height r)).
    + destruct (balance_right_ok l r Hl Hr) as (b & -> & Hb & Hg); [lia|].
      split; [done|]. split; [|lia]. unfold grows_by_one in *. lia.
    + split; [by apply ok_branch|]. split; [|done]. unfold grows_by_one. simpl. lia.
Qed.

Lemma join_ok l r :
  ok l -> ok r -> ok (join l r) /\ grows_by_one (N.max (height l) (height r)) (join l r).
Proof.
  revert r. induction l as [n h s ms|n h s outer IHo inner IHi];
    induction r as [n' h' s' ms'|n' h' s' inner' IHi' outer' IHo']; intros Hl Hr.
  - pose proof Hl as (_ & _ & _ & -> & _). pose proof Hr as (_ & _ & _ & -> & _).
    split; [by apply ok_branch|]. unfold grows_by_one. simpl. lia.
  - pose proof Hl as (_ & _ & _ & -> & _). pose proof Hr as (Hi' & Ho' & H1 & H2 & _ & Hh' & _).
    destruct (IHi' Hl Hi') as [Hj Hg]. unfold grows_by_one in *. cbn [join height] in *.
    destruct (N.ltb_spec (h' + 1) 0); [lia|]. destruct (N.ltb_spec (0 + 1) h').
    + destruct (balance_ok _ outer' Hj Ho') as (Hb & Hg' & Hg''); [lia..|].
      split; [done|]. unfold grows_by_one in *. lia.
    + split; [apply ok_branch; simpl; try done; lia|]. simpl. lia.
  - pose proof Hr as (_ & _ & _ & -> & _). pose proof Hl as (Ho & Hi & H1 & H2 & _ & Hh & _).
    destruct (IHi _ Hi Hr) as [Hj Hg]. unfold grows_by_one in *. cbn [join height] in *.
    destruct (N.ltb_spec (0 + 1) h).
    + destruct (balance_ok outer _ Ho Hj) as (Hb & Hg' & Hg''); [lia..|].
      split; [done|]. unfold grows_by_one in *. lia.
    + destruct (N.ltb_spec (h + 1) 0); [lia|].
      split; [apply ok_branch; simpl; try done; lia|]. simpl. lia.
  - pose proof Hl as (Ho & Hi & H1 & H2 & _ & Hh & _).
    pose proof Hr as (Hi' & Ho' & H1' & H2' & _ & Hh' & _).
    destruct (IHi _ Hi Hr) as [Hj Hg]. destruct (IHi' Hl Hi') as [Hj' Hg'].
    unfold grows_by_one in *. cbn [join height] in *. destruct (N.ltb_spec (h' + 1) h).
    + destruct (balance_ok outer _ Ho Hj) as (Hb & Hgb & Hgb'); [lia..|].
      split; [done|]. unfold grows_by_one in *. lia.
    + destruct (N.ltb_spec (h + 1) h').
      * destruct (balance_ok _ outer' Hj' Ho') as (Hb & Hgb & Hgb'); [lia..|].
        split; [done|]. unfold grows_by_one in *. lia.
      * split; [apply ok_branch; simpl; try done; lia|]. simpl. lia.
Qed.

(** Rebalancing after one subtree has grown, or shrunk, by at most one. *)
Lemma balance_grown l r hl hr :
  ok l -> ok r -> hl <= hr + 1 -> hr <= hl + 1 ->
  (grows_by_one hl l /\ height r = hr) \/ (height l = hl /\ grows_by_one hr r) ->
  ok (balance l r) /\ grows_by_one (N.max hl hr + 1) (balance l r).
Proof.
  unfold grows_by_one. intros Hl Hr H1 H2 Hg.
  destruct (balance_ok l r Hl Hr) as (Hb & Hgb & Hgb'); [lia..|].
  split; [done|]. unfold grows_by_one in *. lia.
Qed.

Lemma balance_shrunk l r hl hr :
  ok l -> ok r -> hl <= hr + 1 -> hr <= hl + 1 ->
  (height l <= hl <= height l + 1 /\ height r = hr) \/
  (height l = hl /\ height r <= hr <= height r + 1) ->
  ok (balance l r) /\ height (balance l r) <= N.max hl hr + 1 <= height (balance l r) + 1.
Proof.
  intros Hl Hr H1 H2 Hg. destruct (balance_ok l r Hl Hr) as (Hb & Hgb & Hgb'); [lia..|].
  split; [done|]. unfold grows_by_one in *. lia.
Qed.

Lemma get_app_ge (front back : list M) i :
  len front <= i -> get (front ++ back) i = get back (i - len front).
Proof.
  rewrite !get_lookup. unfold len. intros. rewrite lookup_app_r by lia. f_equal. lia.
Qed.

Lemma node_get_members l index : ok l -> node_get l index = get (members l) index.
Proof.
  revert index. induction l as [n h s ms|n h s l IHl r IHr]; intros index; simpl; [done|].
  intros (Hl & Hr & _). rewrite (ok_len l Hl). destruct (N.ltb_spec index (len (members l))).
  - by rewrite IHl, get_app_lt.
  - by rewrite IHr, get_app_ge.
Qed.

(** The member at a position of a root. *)
Lemma root_get (root : option (Index M S)) index :
  (forall l, root = Some l -> ok l) ->
  match root with
  | None => None
  | Some l => if index_len l <=? index then None else node_get l index
  end = get (root_members root) index.
Proof.
  destruct root as [l|]; intros Hr; simpl.
  - pose proof (ok_len l (Hr l eq_refl)) as Hl. destruct (N.leb_spec (index_len l) index) as [Hi|Hi].
    + symmetry. apply get_None. by rewrite <- Hl.
    + by apply node_get_members, Hr.
  - symmetry. apply get_None, N.le_0_l.
Qed.

Lemma root_len (root : option (Index M S)) :
  (forall l, root = Some l -> ok l) ->
  match root with Some l => index_len l | None => 0 end = len (root_members root).
Proof. destruct root; [|done]. intros Hr. by apply ok_len, Hr. Qed.

(** ** The height is logarithmic *)

(** The fewest members of an index of a given height, and of the next one. *)
Fixpoint fewest_pair (h : nat) : N * N :=
  match h with
  | O => (1, 2)
  | Datatypes.S h => let '(a, b) := fewest_pair h in (b, a + b)
  end.

Definition fewest (h : nat) : N := fst (fewest_pair h).

Lemma fewest_step h : fewest (2 + h) = fewest (1 + h) + fewest h.
Proof. unfold fewest. simpl. destruct (fewest_pair h). simpl. lia. Qed.

Lemma fewest_mono a b : (a <= b)%nat -> fewest a <= fewest b.
Proof.
  assert (forall n, fst (fewest_pair n) <= snd (fewest_pair n)) as Hle.
  { induction n as [|n IH]; simpl; [lia|]. destruct (fewest_pair n). simpl in *. lia. }
  induction 1 as [|b _ IH]; [lia|]. eapply N.le_trans; [exact IH|].
  unfold fewest. simpl. specialize (Hle b). by destruct (fewest_pair b).
Qed.

Lemma ok_height l : ok l -> fewest (N.to_nat (height l)) <= index_len l.
Proof.
  induction l as [n h s ms|n h s l IHl r IHr].
  - intros (Hne & _ & -> & -> & _). destruct ms; [done|]. unfold len. simpl. unfold fewest. simpl. lia.
  - intros (Hl & Hr & H1 & H2 & -> & -> & _). cbn [height index_len].
    specialize (IHl Hl). specialize (IHr Hr).
    assert (forall a b x y, fewest (N.to_nat a) <= x -> fewest (N.to_nat b) <= y -> a <= b <= a + 1 ->
      fewest (N.to_nat (b + 1)) <= x + y) as Hstep.
    { intros a b x y Hx Hy Hab. destruct (decide (b = 0)) as [->|].
      - assert (a = 0) as -> by lia. change (fewest (N.to_nat 0)) with 1 in *.
        change (fewest (N.to_nat (0 + 1))) with 2. lia.
      - replace (N.to_nat (b + 1)) with (2 + N.to_nat (b - 1))%nat by lia. rewrite fewest_step.
        replace (1 + N.to_nat (b - 1))%nat with (N.to_nat b) by lia.
        pose proof (fewest_mono (N.to_nat (b - 1)) (N.to_nat a)). lia. }
    destruct (N.le_ge_cases (height l) (height r)).
    + rewrite N.max_r by done. apply (Hstep _ _ _ _ IHl IHr). lia.
    + rewrite N.max_l by done. rewrite (N.add_comm (index_len l)). apply (Hstep _ _ _ _ IHr IHl). lia.
Qed.

Lemma height_bounded l : ok l -> index_len l <= usize_max -> height l <= 91.
Proof.
  intros Hl Hn. apply ok_height in Hl. destruct (N.le_gt_cases (height l) 91) as [|Hgt]; [done|].
  exfalso. pose proof (fewest_mono 92 (N.to_nat (height l))) as Hm.
  assert (usize_max < fewest 92) by (vm_compute; done). lia.
Qed.

(** ** Iteration *)

Fixpoint leaf_count l : nat :=
  match l with
  | LeafIndex _ _ _ _ => 1
  | BranchIndex _ _ _ left_ right_ => leaf_count left_ + leaf_count right_
  end.

Lemma descend_pending l pending :
  let '(ms, pending') := descend l pending in
  ms ++ concat (members <$> pending') = members l ++ concat (members <$> pending) /\
  (1 + sum_list (leaf_count <$> pending') = leaf_count l + sum_list (leaf_count <$> pending))%nat.
Proof.
  revert pending. induction l as [n h s ms|n h s l IHl r IHr]; intros pending; simpl; [done|].
  specialize (IHl (r :: pending)). destruct (descend l (r :: pending)) as [ms pending'].
  rewrite !fmap_cons in IHl. simpl in IHl. destruct IHl as [-> Hc].
  split; [by rewrite app_assoc|]. rewrite Hc. lia.
Qed.

Lemma drain_pending fuel pending :
  (sum_list (leaf_count <$> pending) <= fuel)%nat ->
  drain fuel (mkLeaves None pending) = concat (members <$> pending).
Proof.
  revert pending. induction fuel as [|fuel IH]; intros [|l pending] Hf; rewrite ?fmap_cons in *;
    simpl in Hf |- *; try done.
  - assert (forall l : Index M S, (1 <= leaf_count l)%nat) as Hpos by (induction l0; simpl; lia).
    specialize (Hpos l). lia.
  - unfold leaves_next. simpl. pose proof (descend_pending l pending) as Hd.
    destruct (descend l pending) as [ms pending']. destruct Hd as [<- ?]. by rewrite IH by lia.
Qed.

Lemma drain_root l : drain (leaf_count l) (leaves_new (Some l)) = members l.
Proof.
  destruct (leaf_count l) as [|fuel] eqn:Hc.
  - assert (forall l : Index M S, (1 <= leaf_count l)%nat) as Hpos by (induction l0; simpl; lia).
    specialize (Hpos l). lia.
  - simpl. unfold leaves_next. simpl. pose proof (descend_pending l []) as Hd.
    destruct (descend l []) as [ms pending']. destruct Hd as [Hm ?]. simpl in *.
    rewrite drain_pending by lia. by rewrite Hm, app_nil_r.
Qed.

(** *** Iteration *)

(** An iterator that has some members left to yield. *)
Definition iterating (it : ListIter M S) (rest : list M) : Prop :=
  it_remaining it = len rest /\
  exists pending, Forall ok pending /\
    (it_leaves it = mkLeaves None pending \/ exists l, ok l /\ it_leaves it = mkLeaves (Some l) pending) /\
    rest = it_current it ++
      match lv_next (it_leaves it) with Some l => members l | None => [] end ++
      concat (members <$> pending).

Lemma descend_ok (l : Index M S) pending :
  ok l -> Forall ok pending ->
  let '(ms, pending') := descend l pending in ms <> [] /\ Forall ok pending'.
Proof.
  revert pending. induction l as [n h s ms|n h s l IHl r IHr]; intros pending Hl Hp; simpl.
  - by destruct Hl as (? & _).
  - destruct Hl as (Hl & Hr & _). apply IHl; [done|by constructor].
Qed.

Lemma iter_next_spec it rest : iterating it rest ->
  match rest with
  | [] => iter_next it = Some (None, it)
  | value :: rest' => exists it', iter_next it = Some (Some value, it') /\ iterating it' rest'
  end.
Proof.
  intros (Hrem & pending & Hp & Hl & ->). unfold iter_next. cbn [iter_loop].
  destruct it as [leaves current remaining]. simpl in *.
  destruct current as [|v current].
  - assert (forall node stack, ok node -> Forall ok stack ->
      remaining = len (members node ++ concat (members <$> stack)) ->
      let '(ms, pending') := descend node stack in
      match members node ++ concat (members <$> stack) with
      | [] => False
      | value :: rest' => exists it',
          iter_loop 1 (mkListIter (mkLeaves None pending') ms remaining) = Some (Some value, it') /\
          iterating it' rest'
      end) as Hdesc.
    { intros node stack Hn Hst Hr. pose proof (descend_ok node stack Hn Hst) as Hd.
      pose proof (descend_pending node stack) as Hm. destruct (descend node stack) as [ms pending'].
      destruct Hd as [Hne Hst'], Hm as [Hm _]. rewrite <- Hm in Hr |- *. destruct ms as [|x ms]; [done|].
      simpl. eexists. split; [done|]. unfold iterating. simpl. split.
      - rewrite Hr. unfold len. simpl. lia.
      - exists pending'. split; [done|]. split; [by left|done]. }
    destruct Hl as [->|(l & Hl & ->)]; simpl in *.
    + destruct pending as [|node stack]; [done|]. apply list.Forall_cons in Hp as [Hn Hst].
      specialize (Hdesc node stack Hn Hst Hrem). unfold leaves_next. simpl.
      destruct (descend node stack) as [ms pending']. simpl.
      by destruct (members node ++ _).
    + specialize (Hdesc l pending Hl Hp Hrem). unfold leaves_next. simpl.
      destruct (descend l pending) as [ms pending']. by destruct (members l ++ _).
  - simpl. eexists. split; [done|]. unfold iterating. simpl. split.
    + rewrite Hrem. unfold len. simpl. lia.
    + exists pending. by split_and!.
Qed.

Lemma iter_start (root : option (Index M S)) n :
  (forall l, root = Some l -> ok l) -> n = len (root_members root) ->
  iterating (mkListIter (leaves_new root) [] n) (root_members root).
Proof.
  intros Hok ->. split; [done|]. exists []. split; [constructor|].
  destruct root as [l|]; simpl; [|by split; [left|]].
  split; [right; exists l; split; [by apply Hok|done]|]. by rewrite app_nil_r.
Qed.

(** ** Assembly *)

Definition forest_members (trees : list (Index M S)) : list M := concat (members <$> reverse trees).

Lemma forest_members_cons l trees : forest_members (l :: trees) = forest_members trees ++ members l.
Proof.
  unfold forest_members. rewrite reverse_cons, fmap_app, concat_app. simpl. by rewrite app_nil_r.
Qed.

Lemma forest_push_ok trees tree :
  Forall ok trees -> ok tree ->
  Forall ok (forest_push trees tree) /\
  forest_members (forest_push trees tree) = forest_members trees ++ members tree.
Proof.
  intros Hall. revert tree. induction Hall as [|l trees Hl Hall IH]; intros tree Ht; simpl.
  - split; [by constructor|]. by rewrite forest_members_cons.
  - destruct (negb _).
    + split; [by repeat constructor|]. by rewrite !forest_members_cons, <- app_assoc.
    + destruct (join_ok l tree Hl Ht) as [Hj _]. destruct (IH _ Hj) as [Ho ->]. split; [done|].
      by rewrite members_join, forest_members_cons, <- app_assoc.
Qed.

Lemma forest_finish_ok trees :
  Forall ok trees ->
  root_members (forest_finish trees) = forest_members trees /\
  (forall l, forest_finish trees = Some l -> ok l).
Proof.
  intros Hall. destruct Hall as [|l trees Hl Hall]; [done|]. simpl. rewrite forest_members_cons.
  assert (members (forest_fold trees l) = forest_members trees ++ members l /\
    ok (forest_fold trees l)) as [-> Hok]; [|by split; [|intros ? [= <-]]].
  revert l Hl. induction Hall as [|l' trees Hl' Hall IH]; intros l Hl; [done|]. simpl.
  destruct (join_ok l' l Hl' Hl) as [Hj _]. destruct (IH _ Hj) as [-> Hok]. split; [|done].
  by rewrite members_join, forest_members_cons, <- app_assoc.
Qed.

(** An assembly that has accepted some members. *)
Definition assembled (a : @Assembly M S) (ms : list M) : Prop :=
  Forall ok (as_forest a) /\ len (as_pending a) < LEAF_CAPACITY /\ as_len a = len ms /\
  forest_members (as_forest a) ++ as_pending a = ms.

Lemma assembled_flush a :
  Forall ok (as_forest a) -> len (as_pending a) <= LEAF_CAPACITY ->
  Forall ok (as_forest (assembly_flush a)) /\ as_pending (assembly_flush a) = [] /\
  as_len (assembly_flush a) = as_len a /\
  forest_members (as_forest (assembly_flush a)) = forest_members (as_forest a) ++ as_pending a.
Proof.
  intros Hall Hlen. unfold assembly_flush. destruct (as_pending a) as [|m ms] eqn:Hp.
  - by rewrite app_nil_r.
  - destruct (forest_push_ok (as_forest a) (leaf (m :: ms)) Hall) as [Ho Hm]; [by apply ok_leaf|].
    simpl. by rewrite Hm.
Qed.

Lemma assembled_push a ms m :
  assembled a ms ->
  match assembly_push a m with
  | Ok a' => assembled a' (ms ++ [m])
  | Err e => e = LengthOverflow /\ usize_max <= len ms
  end.
Proof.
  intros (Hall & Hlen & Hn & Hms). unfold assembly_push. rewrite Hn.
  destruct (checked_add usize_max (len ms) 1) as [n|] eqn:Hadd.
  - apply checked_add_Some in Hadd as [-> _].
    assert (len (ms ++ [m]) = len ms + 1) as Hl by (unfold len; rewrite length_app; simpl; lia).
    assert (len (as_pending a ++ [m]) = len (as_pending a) + 1) as Hl'
      by (unfold len; rewrite length_app; simpl; lia).
    cbn [as_pending]. destruct (N.eqb_spec (len (as_pending a ++ [m])) LEAF_CAPACITY).
    + destruct (assembled_flush (mkAssembly (as_pending a ++ [m]) (as_forest a) (len ms + 1)))
        as (Ho & Hp & Hn' & Hm); [done|simpl; lia|]. split; [done|]. rewrite Hp, Hn', Hm.
      split; [done|]. split; [by rewrite Hl|]. simpl. by rewrite app_nil_r, app_assoc, Hms.
    + split; [done|]. split; [simpl; lia|]. split; [by rewrite Hl|]. simpl. by rewrite app_assoc, Hms.
  - split; [done|]. unfold checked_add in Hadd. destruct (N.leb_spec (len ms + 1) usize_max); [done|lia].
Qed.

Lemma assembled_finish a ms :
  assembled a ms ->
  root_members (assembly_finish a) = ms /\ (forall l, assembly_finish a = Some l -> ok l).
Proof.
  intros (Hall & Hlen & _ & Hms). unfold assembly_finish.
  destruct (assembled_flush a Hall) as (Ho & _ & _ & Hm); [lia|].
  destruct (forest_finish_ok _ Ho) as [-> Hok]. by rewrite Hm, Hms.
Qed.

Lemma collect_loop_ok fuel (values : list M) trees :
  (length values < fuel)%nat -> Forall ok trees ->
  root_members (collect_loop fuel values trees) = forest_members trees ++ values /\
  (forall l, collect_loop fuel values trees = Some l -> ok l).
Proof.
  revert values trees. induction fuel as [|fuel IH]; intros values trees Hf Hall; [lia|]. cbn [collect_loop].
  destruct (take (N.to_nat LEAF_CAPACITY) values) as [|m ms] eqn:Ht.
  - destruct values as [|v values]; [|done]. rewrite app_nil_r. by apply forest_finish_ok.
  - rewrite <- Ht. destruct (forest_push_ok trees (leaf (take (N.to_nat LEAF_CAPACITY) values)) Hall)
      as [Ho Hm].
    { apply ok_leaf; [by rewrite Ht|]. unfold len. rewrite length_take. lia. }
    edestruct IH as [-> Hok]; [|exact Ho|].
    + destruct values; [done|]. rewrite length_drop. simpl in *. lia.
    + split; [|done]. rewrite Hm. simpl. by rewrite <- app_assoc, take_drop.
Qed.

Lemma collect_ok (values : list M) :
  root_members (collect values) = values /\ (forall l, collect values = Some l -> ok l).
Proof. unfold collect. by apply (collect_loop_ok _ values []); [lia|]. Qed.
End index_lemmas.
