(* ===== verification/ValueList.v ===== *)
(** * Persistent lists

    crates/xolotl-types/src/value/collection/list.rs and [ValueListBuilder] of assembly.rs:
    sequences over the balanced index, refined to plain lists. *)

From stdpp Require Import base numbers list option.
From S2P Require Import Prelude Collection.

Local Open Scope N_scope.

(** List leaves have no routing summary. *)
#[export] Instance list_leaf {A} : Leaf A unit := fun _ => tt.

Section value_list.
Context {A : Type}.

Definition ListIndex : Type := Index A unit.

(** [ValueList]: an optional root. *)
Definition ValueList : Type := option ListIndex.

Implicit Types (self : ValueList) (node : ListIndex).

Definition list_len self : N := match self with Some root => index_len root | None => 0 end.

Definition list_get self (index : N) : option A :=
  match self with
  | None => None
  | Some node => if index_len node <=? index then None else node_get node index
  end.

Definition list_first self : option A := list_get self 0.
Definition list_last self : option A :=
  index ← checked_sub (list_len self) 1; list_get self index.

Fixpoint append node (value : A) : ListIndex :=
  match node with
  | LeafIndex _ _ _ ms =>
      if len ms <? LEAF_CAPACITY then leaf (ms ++ [value]) else join node (leaf [value])
  | BranchIndex _ _ _ left_ right_ => balance left_ (append right_ value)
  end.

Definition list_push self (value : A) : Result ValueList CollectionError :=
  match checked_add usize_max (list_len self) 1 with
  | None => Err LengthOverflow
  | Some _ => Ok (Some (match self with
                        | Some root => append root value
                        | None => leaf [value]
                        end))
  end.

Fixpoint prune_prefix node (count : N) : ListIndex :=
  if count =? 0 then node
  else match node with
       | LeafIndex _ _ _ ms => leaf (drop (N.to_nat count) ms)
       | BranchIndex _ _ _ left_ right_ =>
           if count <? index_len left_ then join (prune_prefix left_ count) right_
           else prune_prefix right_ (count - index_len left_)
       end.

Definition remove_prefix self (count : N) : Result ValueList CollectionError :=
  if list_len self <? count then Err PrefixOutOfBounds
  else if count =? 0 then Ok self
  else Ok (if count =? list_len self then None
           else (fun root => prune_prefix root count) <$> self).

(** [replace]: the new node and the previous member; [None] out of range. *)
Fixpoint replace node (index : N) (value : A) : option (ListIndex * A) :=
  match node with
  | LeafIndex _ _ _ ms =>
      previous ← get ms index; Some (leaf (upd ms index value), previous)
  | BranchIndex _ _ _ left_ right_ =>
      if index <? index_len left_ then
        '(left', previous) ← replace left_ index value; Some (balance left' right_, previous)
      else
        '(right', previous) ← replace right_ (index - index_len left_) value;
        Some (balance left_ right', previous)
  end.

(** [set]; the outer [None] stands for an index out of range in [replace], which stops. *)
Definition list_set self (index : N) (value : A) : option (option A * ValueList) :=
  match self with
  | None => Some (None, self)
  | Some root =>
      if index_len root <=? index then Some (None, self)
      else '(root', previous) ← replace root index value; Some (Some previous, Some root')
  end.

Fixpoint copy_members node : ListIndex :=
  match node with
  | LeafIndex _ _ _ ms => leaf ms
  | BranchIndex _ _ _ left_ right_ => join (copy_members left_) (copy_members right_)
  end.

(** [concat]. *)
Definition list_concat self (other : ValueList) : Result ValueList CollectionError :=
  match checked_add usize_max (list_len self) (list_len other) with
  | None => Err LengthOverflow
  | Some _ =>
      Ok (match self, other with
          | Some left_, Some right_ => Some (join left_ (copy_members right_))
          | Some root, None | None, Some root => Some root
          | None, None => None
          end)
  end.

(** [From<Vec<Value>>]. *)
Definition list_from (values : list A) : ValueList := collect values.

(** ** Iteration *)

Definition list_iter self : ListIter A unit := mkListIter (leaves_new self) [] (list_len self).

(** ** Specification *)

(** The sequence a list stands for. *)
Definition contents self : list A := root_members self.

Definition list_ok self : Prop :=
  (forall root, self = Some root -> ok root) /\ len (contents self) <= usize_max.
End value_list.
Arguments ListIndex : clear implicits.
Arguments ValueList : clear implicits.

Section lemmas.
Context {A : Type}.
Implicit Types (self : ValueList A) (node : ListIndex A).

Lemma append_ok node value :
  ok node ->
  ok (append node value) /\ members (append node value) = members node ++ [value] /\
  grows_by_one (height node) (append node value).
Proof.
  induction node as [n h s ms|n h s l IHl r IHr]; intros Hn.
  - pose proof Hn as (Hne & Hcap & -> & -> & _). cbn [append].
    destruct (N.ltb_spec (len ms) LEAF_CAPACITY).
    + split_and!; [|done|unfold grows_by_one; simpl; lia].
      apply ok_leaf; [by destruct ms|]. unfold len in *. rewrite length_app. simpl. lia.
    + assert (ok (leaf [value])) as Hv by (apply ok_leaf; done).
      destruct (join_ok _ _ Hn Hv) as [Hj Hg]. rewrite members_join. split_and!; [done..|].
      unfold grows_by_one in *. simpl in *. lia.
  - pose proof Hn as (Hl & Hr & H1 & H2 & _ & -> & _). cbn [append height].
    destruct (IHr Hr) as (Ho & Hm & Hg).
    destruct (balance_grown l (append r value) (height l) (height r)) as [Hb Hgb]; auto.
    rewrite members_balance, Hm, app_assoc. by split_and!.
Qed.

Lemma prune_prefix_ok node count :
  ok node -> count < index_len node ->
  ok (prune_prefix node count) /\ members (prune_prefix node count) = drop (N.to_nat count) (members node).
Proof.
  revert count. induction node as [n h s ms|n h s l IHl r IHr]; intros count Hn Hc;
    cbn [prune_prefix]; (destruct (N.eqb_spec count 0) as [->|Hz]; [done|]).
  - pose proof Hn as (Hne & Hcap & -> & _). cbn [index_len] in Hc. unfold len in *. split; [|done].
    apply ok_leaf.
    + intros Hd%(f_equal length). rewrite length_drop in Hd. simpl in Hd. lia.
    + unfold len. rewrite length_drop. lia.
  - pose proof Hn as (Hl & Hr & _ & _ & -> & _). cbn [index_len] in Hc. cbn [members].
    pose proof (ok_len l Hl) as Hlen. unfold len in Hlen.
    destruct (N.ltb_spec count (index_len l)).
    + destruct (IHl count Hl) as [Ho Hm]; [done|]. destruct (join_ok _ r Ho Hr) as [Hj _].
      split; [done|]. rewrite members_join, Hm. rewrite drop_app_le by lia. done.
    + destruct (IHr (count - index_len l) Hr) as [Ho Hm]; [lia|]. split; [done|].
      rewrite Hm, drop_app_ge by lia. f_equal. lia.
Qed.

Lemma replace_ok node index value :
  ok node -> index < index_len node ->
  exists node' previous, replace node index value = Some (node', previous) /\ ok node' /\
    height node' = height node /\ members node' = upd (members node) index value /\
    get (members node) index = Some previous.
Proof.
  revert index. induction node as [n h s ms|n h s l IHl r IHr]; intros index Hn Hi; cbn [replace].
  - pose proof Hn as (Hne & Hcap & -> & -> & _). cbn [index_len] in Hi.
    destruct (get_lt ms index Hi) as [previous Hp]. rewrite Hp. simpl. do 2 eexists.
    split; [done|]. split; [|done]. apply ok_leaf; [|by rewrite len_upd].
    intros Hu%(f_equal len). rewrite len_upd in Hu. by destruct ms.
  - pose proof Hn as (Hl & Hr & H1 & H2 & -> & -> & _). cbn [index_len] in Hi. cbn [members height].
    pose proof (ok_len l Hl) as Hlen. destruct (N.ltb_spec index (index_len l)).
    + destruct (IHl index Hl) as (l' & previous & -> & Ho & Hh & Hm & Hp); [done|]. simpl.
      destruct (balance_ok l' r Ho Hr) as (Hb & _ & Hgb); [lia..|]. do 2 eexists. split; [done|].
      rewrite Hh in Hgb. rewrite members_balance, Hm, get_app_lt by lia. split_and!; [done|lia| |done].
      unfold upd. rewrite insert_app_l; [done|]. unfold len in *. lia.
    + destruct (IHr (index - index_len l) Hr) as (r' & previous & -> & Ho & Hh & Hm & Hp); [lia|]. simpl.
      destruct (balance_ok l r' Hl Ho) as (Hb & _ & Hgb); [lia..|]. do 2 eexists. split; [done|].
      rewrite Hh in Hgb. rewrite members_balance, Hm, get_app_ge by lia. rewrite <- Hlen.
      split_and!; [done|lia| |done]. unfold upd.
      replace (N.to_nat index) with (length (members l) + N.to_nat (index - index_len l))%nat
        by (unfold len in *; lia). by rewrite insert_app_r.
Qed.

Lemma copy_members_ok node : ok node -> ok (copy_members node) /\ members (copy_members node) = members node.
Proof.
  induction node as [n h s ms|n h s l IHl r IHr]; intros Hn; cbn [copy_members].
  - by destruct Hn as (? & ? & _).
  - destruct Hn as (Hl & Hr & _). destruct (IHl Hl) as [Ho Hm], (IHr Hr) as [Ho' Hm'].
    destruct (join_ok _ _ Ho Ho') as [Hj _]. split; [done|]. by rewrite members_join, Hm, Hm'.
Qed.

Lemma list_len_contents self : list_ok self -> list_len self = len (contents self).
Proof. intros [Hok _]. by apply root_len. Qed.
End lemmas.

(** ** Refinement to sequences *)

Section refinement.
Context {A : Type}.
Implicit Types (self other : ValueList A).

Lemma list_get_contents self i : list_ok self -> list_get self i = get (contents self) i.
Proof.
  intros [Hok _]. by apply root_get.
Qed.

Lemma list_push_contents self value : list_ok self ->
  match list_push self value with
  | Ok self' => list_ok self' /\ contents self' = contents self ++ [value]
  | Err e => e = LengthOverflow /\ len (contents self) = usize_max
  end.
Proof.
  intros Hok. pose proof (list_len_contents self Hok) as Hlen. unfold list_push. rewrite Hlen.
  destruct (checked_add usize_max (len (contents self)) 1) as [n|] eqn:Hadd.
  - apply checked_add_Some in Hadd as [_ Hle]. destruct Hok as [Hok _]. unfold list_ok, contents in *.
    destruct self as [root|]; simpl in *.
    + destruct (append_ok root value) as (Ho & Hm & _); [by apply Hok|]. rewrite Hm.
      split_and!; [by intros ? [= <-]| |done]. unfold len in *. rewrite length_app. simpl. lia.
    + split_and!; [by intros ? [= <-]|done|done].
  - split; [done|]. destruct Hok as [_ Hle]. unfold checked_add in Hadd.
    destruct (N.leb_spec (len (contents self) + 1) usize_max); [done|lia].
Qed.

Lemma remove_prefix_contents self count : list_ok self ->
  match remove_prefix self count with
  | Ok self' => list_ok self' /\ contents self' = drop (N.to_nat count) (contents self)
  | Err e => e = PrefixOutOfBounds /\ len (contents self) < count
  end.
Proof.
  intros Hok. pose proof (list_len_contents self Hok) as Hlen. unfold remove_prefix. rewrite Hlen.
  destruct (N.ltb_spec (len (contents self)) count) as [|Hle]; [done|].
  destruct (N.eqb_spec count 0) as [->|Hz]; [done|]. destruct Hok as [Hok Hmax].
  destruct (N.eqb_spec count (len (contents self))) as [->|Hne].
  - split; [done|]. unfold len. rewrite Nat2N.id, drop_ge by lia. done.
  - unfold list_ok, contents in *. destruct self as [root|]; simpl in *; [|lia].
    destruct (prune_prefix_ok root count) as [Ho Hm]; [by apply Hok|lia|]. rewrite Hm.
    split_and!; [by intros ? [= <-]| |done]. unfold len in *. rewrite length_drop. lia.
Qed.

Lemma list_set_contents self index value : list_ok self ->
  exists previous self', list_set self index value = Some (previous, self') /\ list_ok self' /\
    previous = get (contents self) index /\ contents self' = upd (contents self) index value.
Proof.
  intros Hok. pose proof (list_len_contents self Hok) as Hlen. unfold list_set, contents in *.
  destruct self as [root|]; simpl in *.
  2: { exists None, None. split_and!; [done..| |]; [symmetry; apply get_None, N.le_0_l|].
       unfold upd. by rewrite list_insert_ge by (simpl; lia). }
  assert (ok root) as Hroot by by apply Hok.
  destruct (N.leb_spec (index_len root) index) as [Hi|Hi].
  - exists None, (Some root). split; [done|]. split; [done|]. rewrite Hlen in Hi.
    split; [symmetry; by apply get_None|]. unfold upd. rewrite list_insert_ge; [done|].
    unfold len in Hi. lia.
  - destruct (replace_ok root index value) as (node' & previous & -> & Ho & _ & Hm & Hp); [done..|].
    simpl. exists (Some previous), (Some node'). split; [done|]. unfold list_ok, contents. simpl.
    rewrite Hm, len_upd. split_and!; [by intros ? [= <-]|by apply Hok|done|done].
Qed.

Lemma list_concat_contents self other : list_ok self -> list_ok other ->
  match list_concat self other with
  | Ok self' => list_ok self' /\ contents self' = contents self ++ contents other
  | Err e => e = LengthOverflow /\ usize_max < len (contents self ++ contents other)
  end.
Proof.
  intros Hs Ho. pose proof (list_len_contents self Hs) as Hl. pose proof (list_len_contents other Ho) as Hl'.
  assert (len (contents self ++ contents other) = len (contents self) + len (contents other)) as Happ
    by (unfold len; rewrite length_app; lia).
  unfold list_concat. rewrite Hl, Hl'. destruct (checked_add _ _ _) as [n|] eqn:Hadd.
  - apply checked_add_Some in Hadd as [_ Hle]. rewrite <- Happ in Hle.
    unfold list_ok, contents in *. destruct self as [l|], other as [r|]; simpl in *.
    + destruct (copy_members_ok r) as [Hc Hm]; [by apply Ho|].
      destruct (join_ok l (copy_members r)) as [Hj _]; [by apply Hs|done|].
      rewrite members_join, Hm. by split_and!; [intros ? [= <-]|..].
    + by rewrite app_nil_r in *.
    + done.
    + done.
  - split; [done|]. unfold checked_add in Hadd.
    destruct (N.leb_spec (len (contents self) + len (contents other)) usize_max); [done|lia].
Qed.

Lemma list_from_contents (values : list A) :
  len values <= usize_max -> list_ok (list_from values) /\ contents (list_from values) = values.
Proof.
  intros Hlen. destruct (collect_ok values) as [Hm Hok]. unfold list_ok, contents, list_from. by rewrite Hm.
Qed.

Lemma list_iter_start self : list_ok self -> iterating (list_iter self) (contents self).
Proof. intros Hok. apply iter_start; [apply Hok|by apply list_len_contents]. Qed.
End refinement.

(** ** Building *)

Section building.
Context {A : Type}.

(** Pushing members one at a time into a [ValueListBuilder]. *)
Fixpoint push_all (a : @Assembly A unit) (values : list A) : Result Assembly CollectionError :=
  match values with
  | [] => Ok a
  | v :: values' => result_bind (assembly_push a v) (fun a' => push_all a' values')
  end.

Lemma push_all_assembled a ms (values : list A) :
  assembled a ms -> len (ms ++ values) <= usize_max ->
  exists a', push_all a values = Ok a' /\ assembled a' (ms ++ values).
Proof.
  revert a ms. induction values as [|v values IH]; intros a ms Ha Hlen; simpl.
  - exists a. by rewrite app_nil_r.
  - pose proof (assembled_push a ms v Ha) as Hp. destruct (assembly_push a v) as [a'|e]; simpl.
    + replace (ms ++ v :: values) with ((ms ++ [v]) ++ values) in * by by rewrite <- app_assoc.
      by apply IH.
    + destruct Hp as [_ Hmax]. unfold len in *. rewrite length_app in Hlen. simpl in Hlen. lia.
Qed.

(** Yielding a number of members. *)
Fixpoint yield (n : nat) (it : ListIter A unit) : option (list A * ListIter A unit) :=
  match n with
  | O => Some ([], it)
  | S n =>
      match iter_next it with
      | Some (Some value, it') =>
          '(values, it'') ← yield n it'; Some (value :: values, it'')
      | _ => None
      end
  end.

Lemma yield_all rest it : iterating it rest ->
  exists it', yield (length rest) it = Some (rest, it') /\ iterating it' [].
Proof.
  revert it. induction rest as [|v rest IH]; intros it Hit; simpl; [by exists it|].
  destruct (iter_next_spec it (v :: rest) Hit) as (it' & -> & Hit').
  destruct (IH it' Hit') as (it'' & -> & Hend). by exists it''.
Qed.
End building.

(** ** Properties *)



(** Iterating a list yields its members in order, then ends, and the exact count of
    members left is right at the end of the sequence. *)
Theorem list_iteration_yields_contents {A} (self : ValueList A) :
  list_ok self ->
  it_remaining (list_iter self) = len (contents self) /\
  exists it, yield (length (contents self)) (list_iter self) = Some (contents self, it) /\
    it_remaining it = 0 /\ iter_next it = Some (None, it).
Proof.
  intros Hok. pose proof (list_iter_start self Hok) as Hit. split; [apply Hit|].
  destruct (yield_all _ _ Hit) as (it & -> & Hend). exists it.
  split; [done|]. split; [apply Hend|]. by apply (iter_next_spec it []).
Qed.

(** Both ways of building a list, from a vector and by pushing into a builder, give a
    balanced index of exactly the members given; its cached height fits the byte it is
    stored in. *)
Theorem list_building {A} (values : list A) :
  len values <= usize_max ->
  contents (list_from values) = values /\ list_ok (list_from values) /\
  (exists a, push_all assembly_new values = Ok a /\
     contents (assembly_finish a) = values /\ list_ok (assembly_finish a)) /\
  (forall root, list_from values = Some root -> height root <= 91).
Proof.
  intros Hlen. destruct (list_from_contents values Hlen) as [Hok Hc]. split_and!; [done..| |].
  - destruct (push_all_assembled assembly_new [] values) as (a & Ha & Has); [by repeat split|done|].
    exists a. split; [done|]. destruct (assembled_finish a values Has) as [Hm Hroot].
    unfold list_ok, contents. by rewrite Hm.
  - intros root Hroot. apply height_bounded; [by apply Hok|].
    pose proof (list_len_contents _ Hok) as Hl. rewrite Hc, Hroot in Hl. simpl in Hl. by rewrite Hl.
Qed.
