(* ===== verification/ValueMap.v ===== *)
(** * Persistent maps

    crates/xolotl-types/src/value/collection/map.rs and [ValueMapBuilder] of assembly.rs:
    maps in strict UTF-8 key order over the balanced index, refined to finite maps. *)

From Stdlib Require Import Sorted.
From stdpp Require Import base numbers list option strings gmap.
From S2P Require Import Prelude Text Collection.

Local Open Scope N_scope.

Section value_map.
Context {V : Type}.

(** A map leaf is routed by its last key. *)
#[export] Instance map_leaf : Leaf (text * V) text :=
  fun ms => match list.last ms with Some (key, _) => key | None => [] end.

Definition MapIndex : Type := Index (text * V) text.
Definition ValueMap : Type := option MapIndex.

Implicit Types (self : ValueMap) (node : MapIndex) (ms : list (text * V)) (key : text).

Definition map_len self : N := match self with Some root => index_len root | None => 0 end.

(** [binary_search_by] on a leaf in strict key order: the entry's position, or where it
    would be inserted. *)
Fixpoint search key ms (i : N) : Result N N :=
  match ms with
  | [] => Err i
  | (entry, _) :: ms' =>
      match text_cmp entry key with
      | Lt => search key ms' (i + 1)
      | Eq => Ok i
      | Gt => Err i
      end
  end.

(** The descent of [get]. *)
Fixpoint node_find node key : option V :=
  match node with
  | LeafIndex _ _ _ ms =>
      match search key ms 0 with
      | Ok index => snd <$> get ms index
      | Err _ => None
      end
  | BranchIndex _ _ _ left_ right_ =>
      if text_leb key (summary left_) then node_find left_ key else node_find right_ key
  end.

Definition map_get self key : option V := node ← self; node_find node key.

(** [get_index]. *)
Definition map_get_index self (index : N) : option (text * V) :=
  match self with
  | None => None
  | Some node => if index_len node <=? index then None else node_get node index
  end.

Definition contains_key self key : bool := bool_decide (is_Some (map_get self key)).

(** [members.insert(index, ...)]. *)
Definition insert_at ms (index : N) (entry : text * V) : list (text * V) :=
  take (N.to_nat index) ms ++ entry :: drop (N.to_nat index) ms.

(** [insert] on a node. *)
Fixpoint node_insert node key (value : V) : MapIndex * option V :=
  match node with
  | LeafIndex _ _ _ ms =>
      match search key ms 0 with
      | Ok index =>
          match get ms index with
          | Some (entry, previous) => (leaf (upd ms index (entry, value)), Some previous)
          | None => (node, None)
          end
      | Err index =>
          let ms := insert_at ms index (key, value) in
          if len ms <=? LEAF_CAPACITY then (leaf ms, None)
          else
            let middle := N.to_nat (len ms / 2) in
            (join (leaf (take middle ms)) (leaf (drop middle ms)), None)
      end
  | BranchIndex _ _ _ left_ right_ =>
      if text_leb key (summary left_) then
        let '(left', previous) := node_insert left_ key value in (balance left' right_, previous)
      else
        let '(right', previous) := node_insert right_ key value in (balance left_ right', previous)
  end.

(** [ValueMap::insert]. *)
Definition map_insert self key (value : V) : Result (option V * ValueMap) CollectionError :=
  if bool_decide (map_get self key = None) && bool_decide (checked_add usize_max (map_len self) 1 = None)
  then Err LengthOverflow
  else
    match self with
    | Some root => let '(root', previous) := node_insert root key value in Ok (previous, Some root')
    | None => Ok (None, Some (leaf [(key, value)]))
    end.

(** [remove] on a node. *)
Fixpoint node_remove node key : option MapIndex * option V :=
  match node with
  | LeafIndex _ _ _ ms =>
      match search key ms 0 with
      | Err _ => (Some node, None)
      | Ok index =>
          match get ms index with
          | Some (_, previous) =>
              let ms := take (N.to_nat index) ms ++ drop (N.to_nat index + 1) ms in
              (match ms with [] => None | _ => Some (leaf ms) end, Some previous)
          | None => (Some node, None)
          end
      end
  | BranchIndex _ _ _ left_ right_ =>
      if text_leb key (summary left_) then
        match node_remove left_ key with
        | (_, None) => (Some node, None)
        | (Some left', Some previous) => (Some (balance left' right_), Some previous)
        | (None, Some previous) => (Some right_, Some previous)
        end
      else
        match node_remove right_ key with
        | (_, None) => (Some node, None)
        | (Some right', Some previous) => (Some (balance left_ right'), Some previous)
        | (None, Some previous) => (Some left_, Some previous)
        end
  end.

(** [ValueMap::remove]. *)
Definition map_remove self key : option V * ValueMap :=
  match self with
  | None => (None, self)
  | Some root => let '(root', previous) := node_remove root key in (previous, root')
  end.

(** [MapIter]: the entries in key order. *)
Definition MapIter : Type := ListIter (text * V) text.

Definition map_iter self : MapIter := mkListIter (leaves_new self) [] (map_len self).

(** ** The ordered builder *)

(** [last_key]: of the unfinished leaf, or else of the last tree. *)
Definition last_key (a : @Assembly (text * V) text) : option text :=
  match list.last (as_pending a) with
  | Some (key, _) => Some key
  | None => summary <$> head (as_forest a)
  end.

Definition builder_append (a : @Assembly (text * V) text) key (value : V)
    : Result Assembly CollectionError :=
  match last_key a with
  | Some last => if text_leb key last then Err KeyOrder else assembly_push a (key, value)
  | None => assembly_push a (key, value)
  end.

(** ** Specification *)

Definition entries self : list (text * V) := root_members self.

(** The finite map a [ValueMap] stands for. *)
Definition map_of ms : gmap text V := list_to_map ms.

(** Strictly increasing keys. *)
Definition sorted ms : Prop := StronglySorted (fun a b => text_lt (fst a) (fst b)) ms.

Definition map_ok self : Prop :=
  (forall root, self = Some root -> ok root) /\ sorted (entries self) /\ len (entries self) <= usize_max.

(** Reference operations on entries in order. *)
Fixpoint sorted_find key ms : option V :=
  match ms with
  | [] => None
  | (k, v) :: ms' =>
      match text_cmp k key with Lt => sorted_find key ms' | Eq => Some v | Gt => None end
  end.

Fixpoint sorted_insert key (value : V) ms : list (text * V) :=
  match ms with
  | [] => [(key, value)]
  | (k, v) :: ms' =>
      match text_cmp k key with
      | Lt => (k, v) :: sorted_insert key value ms'
      | Eq => (k, value) :: ms'
      | Gt => (key, value) :: ms
      end
  end.

Fixpoint sorted_delete key ms : list (text * V) :=
  match ms with
  | [] => []
  | (k, v) :: ms' =>
      match text_cmp k key with
      | Lt => (k, v) :: sorted_delete key ms'
      | Eq => ms'
      | Gt => ms
      end
  end.
End value_map.
Arguments MapIndex : clear implicits.
Arguments MapIter : clear implicits.
Arguments ValueMap : clear implicits.

Section entries_lemmas.
Context {V : Type}.
Implicit Types (ms front back : list (text * V)) (key : text) (value : V).

(** All keys are before, or the search stops among them. *)
Definition below key ms : Prop := Forall (fun e => text_lt (fst e) key) ms.
Definition above key ms : Prop := Forall (fun e => text_lt key (fst e)) ms.
Definition reaches key ms : Prop := Exists (fun e => text_cmp (fst e) key <> Lt) ms.

Lemma sorted_cons e ms :
  sorted (e :: ms) <-> sorted ms /\ Forall (fun e' => text_lt (fst e) (fst e')) ms.
Proof. split; [by intros [? ?]%StronglySorted_inv|]. intros [? ?]. by constructor. Qed.

Lemma sorted_app front back :
  sorted (front ++ back) <-> sorted front /\ sorted back /\
    Forall (fun e => Forall (fun e' => text_lt (fst e) (fst e')) back) front.
Proof.
  induction front as [|e front IH]; simpl.
  - split; [intros H; split_and!; [constructor|done|constructor]|naive_solver].
  - rewrite !sorted_cons, IH, list.Forall_app, list.Forall_cons. naive_solver.
Qed.

Lemma last_reaches key ms e :
  list.last ms = Some e -> text_leb key (fst e) = true -> reaches key ms.
Proof.
  intros He%last_Some Hk. destruct He as [l ->]. apply Exists_app. right. constructor.
  unfold text_leb in Hk. rewrite (text_cmp_antisym key (fst e)). by destruct (text_cmp key (fst e)).
Qed.

Lemma last_below key ms e :
  sorted ms -> list.last ms = Some e -> text_leb key (fst e) = false -> below key ms.
Proof.
  intros Hs He%last_Some Hk%text_leb_lt. destruct He as [l ->]. apply sorted_app in Hs as (_ & _ & Hl).
  apply list.Forall_app. split; [|by constructor]. eapply list.Forall_impl; [exact Hl|].
  intros e' [He' _]%list.Forall_cons. by eapply text_lt_trans.
Qed.

(** The reference operations act on the part where the search stops. *)
Lemma sorted_find_app key front back :
  (reaches key front -> sorted_find key (front ++ back) = sorted_find key front) /\
  (below key front -> sorted_find key (front ++ back) = sorted_find key back).
Proof.
  split.
  - induction 1 as [[k v] front Hk|[k v] front _ IH]; simpl in *; [by destruct (text_cmp k key)|].
    by rewrite IH.
  - induction 1 as [|[k v] front Hk _ IH]; [done|]. simpl in *. unfold text_lt in Hk. by rewrite Hk.
Qed.

Lemma sorted_insert_app key value front back :
  (reaches key front -> sorted_insert key value (front ++ back) = sorted_insert key value front ++ back) /\
  (below key front -> sorted_insert key value (front ++ back) = front ++ sorted_insert key value back).
Proof.
  split.
  - induction 1 as [[k v] front Hk|[k v] front _ IH]; simpl in *; [by destruct (text_cmp k key)|].
    rewrite IH. by destruct (text_cmp k key).
  - induction 1 as [|[k v] front Hk _ IH]; [done|]. simpl in *. unfold text_lt in Hk. by rewrite Hk, IH.
Qed.

Lemma sorted_delete_app key front back :
  (reaches key front -> sorted_delete key (front ++ back) = sorted_delete key front ++ back) /\
  (below key front -> sorted_delete key (front ++ back) = front ++ sorted_delete key back).
Proof.
  split.
  - induction 1 as [[k v] front Hk|[k v] front _ IH]; simpl in *; [by destruct (text_cmp k key)|].
    rewrite IH. by destruct (text_cmp k key).
  - induction 1 as [|[k v] front Hk _ IH]; [done|]. simpl in *. unfold text_lt in Hk. by rewrite Hk, IH.
Qed.

Lemma sorted_delete_absent key ms : sorted_find key ms = None -> sorted_delete key ms = ms.
Proof.
  induction ms as [|[k v] ms IH]; [done|]. simpl. destruct (text_cmp k key); [done| |done].
  intros H. by rewrite IH.
Qed.

(** What the search finds. *)
Lemma search_spec key value ms i :
  match search key ms i with
  | Ok j => exists n v, j = i + N.of_nat n /\ ms !! n = Some (key, v) /\
      sorted_find key ms = Some v /\
      sorted_insert key value ms = <[n := (key, value)]> ms /\
      sorted_delete key ms = take n ms ++ drop (n + 1) ms
  | Err j => exists n, j = i + N.of_nat n /\ (n <= length ms)%nat /\
      sorted_find key ms = None /\
      sorted_insert key value ms = take n ms ++ (key, value) :: drop n ms
  end.
Proof.
  revert i. induction ms as [|[k v] ms IH]; intros i; simpl.
  - exists 0%nat. split_and!; [lia|done..].
  - destruct (text_cmp k key) eqn:Hk.
    + apply text_cmp_eq in Hk as ->. exists 0%nat, v. simpl. split_and!; [lia|done..|]. by rewrite drop_0.
    + specialize (IH (i + 1)). destruct (search key ms (i + 1)) as [j|j].
      * destruct IH as (n & v' & -> & Hn & Hf & Hi & Hd). exists (S n), v'. simpl.
        rewrite Hi, Hd. split_and!; [lia|done..].
      * destruct IH as (n & -> & Hn & Hf & Hi). exists (S n). simpl. rewrite Hi.
        split_and!; [lia|lia|done..].
    + exists 0%nat. split_and!; [lia|lia|done..].
Qed.

Lemma above_weaken k key ms :
  text_lt key k -> Forall (fun e => text_lt k (fst e)) ms -> above key ms.
Proof. intros Hk Hall. eapply list.Forall_impl; [exact Hall|]. intros e He. by eapply text_lt_trans. Qed.

Lemma key_cmp_gt a b : text_cmp a b = Gt -> text_lt b a.
Proof. intros H. unfold text_lt. by rewrite (text_cmp_antisym a b), H. Qed.

Lemma sorted_insert_Forall (P : text * V -> Prop) key value ms :
  Forall P ms -> P (key, value) -> Forall P (sorted_insert key value ms).
Proof.
  intros Hms Hp. induction Hms as [|[k v] ms Hk Hms IH]; simpl; [by constructor|].
  destruct (text_cmp k key) eqn:Hc; [|by constructor|by repeat constructor].
  apply text_cmp_eq in Hc as ->. by constructor.
Qed.

Lemma sorted_insert_sorted key value ms : sorted ms -> sorted (sorted_insert key value ms).
Proof.
  induction ms as [|[k v] ms IH]; simpl.
  - intros _. repeat constructor.
  - intros [Hs Hall]%sorted_cons. destruct (text_cmp k key) eqn:Hc.
    + by apply sorted_cons.
    + apply sorted_cons. split; [by apply IH|]. by apply sorted_insert_Forall.
    + apply key_cmp_gt in Hc. apply sorted_cons. split; [by apply sorted_cons|].
      constructor; [done|]. by eapply above_weaken.
Qed.

Lemma sorted_delete_sorted key ms : sorted ms -> sorted (sorted_delete key ms).
Proof.
  induction ms as [|[k v] ms IH]; simpl; [done|]. intros Hs. pose proof Hs as [Hms Hall]%sorted_cons.
  destruct (text_cmp k key); [done| |done]. apply sorted_cons. split; [by apply IH|].
  clear -Hall. induction Hall as [|[k' v'] ms Hk' Hall IH]; [done|]. simpl.
  destruct (text_cmp k' key); [done| |by constructor]. by constructor.
Qed.

(** ** Finite maps *)

Lemma above_absent key ms : above key ms -> map_of ms !! key = None.
Proof.
  unfold map_of. induction 1 as [|[k v] ms Hk _ IH]; [done|]. simpl.
  rewrite lookup_insert_ne; [done|]. intros ->. by apply text_lt_irrefl in Hk.
Qed.

Lemma sorted_find_map key ms : sorted ms -> sorted_find key ms = map_of ms !! key.
Proof.
  unfold map_of. induction ms as [|[k v] ms IH]; [done|]. intros [Hs Hall]%sorted_cons. simpl in *.
  destruct (text_cmp k key) eqn:Hc.
  - apply text_cmp_eq in Hc as ->. by rewrite lookup_insert_eq.
  - rewrite lookup_insert_ne by (intros ->; by rewrite text_cmp_refl in Hc). by apply IH.
  - apply key_cmp_gt in Hc. rewrite lookup_insert_ne by (intros ->; by apply text_lt_irrefl in Hc).
    symmetry. apply above_absent. by eapply above_weaken.
Qed.

Lemma sorted_insert_map key value ms :
  sorted ms -> map_of (sorted_insert key value ms) = <[key := value]> (map_of ms).
Proof.
  unfold map_of. induction ms as [|[k v] ms IH]; [done|]. intros [Hs Hall]%sorted_cons. simpl in *.
  destruct (text_cmp k key) eqn:Hc; simpl.
  - apply text_cmp_eq in Hc as ->. by rewrite insert_insert_eq.
  - rewrite IH by done. apply insert_insert_ne. intros ->. by rewrite text_cmp_refl in Hc.
  - done.
Qed.

Lemma sorted_delete_map key ms :
  sorted ms -> map_of (sorted_delete key ms) = delete key (map_of ms).
Proof.
  unfold map_of. induction ms as [|[k v] ms IH]; simpl; [by rewrite delete_empty|].
  intros [Hs Hall]%sorted_cons. simpl in *. destruct (text_cmp k key) eqn:Hc; simpl.
  - apply text_cmp_eq in Hc as ->. rewrite delete_insert_eq, delete_id; [done|]. by apply above_absent.
  - rewrite IH by done. rewrite delete_insert_ne; [done|]. intros ->. by rewrite text_cmp_refl in Hc.
  - apply key_cmp_gt in Hc. rewrite delete_insert_ne by (intros ->; by apply text_lt_irrefl in Hc).
    rewrite delete_id; [done|]. apply above_absent. by eapply above_weaken.
Qed.
End entries_lemmas.

Section node_lemmas.
Context {V : Type}.
Implicit Types (node : MapIndex V) (key : text) (value : V).

Lemma ok_summary node : ok node ->
  exists e, list.last (members node) = Some e /\ summary node = fst e.
Proof.
  induction node as [n h s ms|n h s l IHl r IHr]; simpl.
  - intros (Hne & _ & _ & _ & ->). unfold leaf_summary, map_leaf.
    destruct (list.last ms) as [[k v]|] eqn:Hl; [by eexists|]. by apply last_None in Hl.
  - intros (_ & Hr & _ & _ & _ & _ & ->). destruct (IHr Hr) as (e & He & ->). exists e.
    split; [|done]. by rewrite last_app, He.
Qed.

(** Where a branch sends a key. *)
Lemma branch_route n h s (l r : MapIndex V) key :
  ok (BranchIndex n h s l r) -> sorted (members l ++ members r) ->
  if text_leb key (summary l) then reaches key (members l) else below key (members l).
Proof.
  intros (Hl & _) (Hs & _)%sorted_app. destruct (ok_summary l Hl) as (e & He & ->).
  destruct (text_leb key (fst e)) eqn:Hk; [by eapply last_reaches|by eapply last_below].
Qed.

Lemma node_find_members node key :
  ok node -> sorted (members node) -> node_find node key = sorted_find key (members node).
Proof.
  induction node as [n h s ms|n h s l IHl r IHr]; intros Hn Hs; cbn [node_find members] in *.
  - destruct (search key ms 0) as [j|j] eqn:Hse; [|].
    + destruct ms as [|[k0 v0] ms0] eqn:Hms; [done|]. rewrite <- Hms in *.
      pose proof (search_spec key v0 ms 0) as Hsp. rewrite Hse in Hsp.
      destruct Hsp as (m & v & -> & Hm & -> & _). rewrite get_lookup.
      replace (N.to_nat (0 + N.of_nat m)) with m by lia. by rewrite Hm.
    + destruct ms as [|[k0 v0] ms0] eqn:Hms; [done|]. rewrite <- Hms in *.
      pose proof (search_spec key v0 ms 0) as Hsp. rewrite Hse in Hsp. by destruct Hsp as (m & _ & _ & -> & _).
  - pose proof (branch_route n h s l r key Hn Hs) as Hrt. pose proof Hn as (Hl & Hr & _).
    apply sorted_app in Hs as (Hsl & Hsr & _).
    destruct (sorted_find_app key (members l) (members r)) as [H1 H2].
    destruct (text_leb key (summary l)); [rewrite H1 by done|rewrite H2 by done]; auto.
Qed.

(** Inserting at a position of a leaf, splitting it when it is full. *)
Lemma leaf_insert_ok (ms' : list (text * V)) :
  ms' <> [] -> len ms' <= LEAF_CAPACITY + 1 ->
  let node' := if len ms' <=? LEAF_CAPACITY then leaf ms'
    else join (leaf (take (N.to_nat (len ms' / 2)) ms')) (leaf (drop (N.to_nat (len ms' / 2)) ms')) in
  ok node' /\ grows_by_one 0 node' /\ members node' = ms'.
Proof.
  intros Hne Hlen. cbv zeta. destruct (N.leb_spec (len ms') LEAF_CAPACITY).
  - split; [by apply ok_leaf|]. split; [unfold grows_by_one; simpl; lia|done].
  - assert (len ms' = 33) as -> by (unfold LEAF_CAPACITY in *; lia).
    change (N.to_nat (33 / 2)) with 16%nat. assert (length ms' = 33%nat) as Hl33
      by (unfold len, LEAF_CAPACITY in *; lia).
    assert (ok (leaf (take 16 ms')) /\ ok (leaf (drop 16 ms'))) as [Ha Hb].
    { split; apply ok_leaf; unfold len, LEAF_CAPACITY; rewrite ?length_take, ?length_drop; try lia;
        intros Hx%(f_equal length); rewrite ?length_take, ?length_drop in Hx; cbn [length] in Hx; lia. }
    destruct (join_ok _ _ Ha Hb) as [Hj Hg]. rewrite members_join.
    cbn [members leaf]. rewrite take_drop. split; [exact Hj|]. split; [|done].
    unfold grows_by_one in *. simpl in *. lia.
Qed.

Lemma node_insert_members node key value :
  ok node -> sorted (members node) ->
  let '(node', previous) := node_insert node key value in
  ok node' /\ grows_by_one (height node) node' /\
  members node' = sorted_insert key value (members node) /\
  previous = sorted_find key (members node).
Proof.
  induction node as [n h s ms|n h s l IHl r IHr]; intros Hn Hs; cbn [node_insert members] in *.
  - pose proof Hn as (Hne & Hcap & -> & -> & _). pose proof (search_spec key value ms 0) as Hsp.
    destruct (search key ms 0) as [j|j].
    + destruct Hsp as (m & v & -> & Hm & -> & -> & _). rewrite get_lookup. unfold upd.
      replace (N.to_nat (0 + N.of_nat m)) with m by lia. rewrite Hm.
      split_and!; [|unfold grows_by_one; simpl; lia|done..].
      apply ok_leaf; [|unfold len in *; by rewrite length_insert].
      intros Hi%(f_equal length). rewrite length_insert in Hi. by destruct ms.
    + destruct Hsp as (m & -> & Hm & -> & ->). unfold insert_at.
      replace (N.to_nat (0 + N.of_nat m)) with m by lia.
      destruct (leaf_insert_ok (take m ms ++ (key, value) :: drop m ms)) as (Ho & Hg & Hms).
      * by intros [_ ?]%app_eq_nil.
      * unfold len in *. rewrite length_app, length_take. simpl. rewrite length_drop. lia.
      * by destruct (len _ <=? LEAF_CAPACITY).
  - pose proof (branch_route n h s l r key Hn Hs) as Hrt. pose proof Hn as (Hl & Hr & H1 & H2 & _ & -> & _).
    apply sorted_app in Hs as (Hsl & Hsr & _).
    destruct (sorted_find_app key (members l) (members r)) as [Hf1 Hf2].
    destruct (sorted_insert_app key value (members l) (members r)) as [Hi1 Hi2]. cbn [height].
    destruct (text_leb key (summary l)).
    + rewrite Hf1, Hi1 by done. specialize (IHl Hl Hsl). destruct (node_insert l key value) as [l' p].
      destruct IHl as (Ho & Hg & <- & ->).
      destruct (balance_grown l' r (height l) (height r)) as [Hb Hgb]; auto. by rewrite members_balance.
    + rewrite Hf2, Hi2 by done. specialize (IHr Hr Hsr). destruct (node_insert r key value) as [r' p].
      destruct IHr as (Ho & Hg & <- & ->).
      destruct (balance_grown l r' (height l) (height r)) as [Hb Hgb]; auto. by rewrite members_balance.
Qed.

(** A removal leaves the height or lowers it by one, and empties leaves only. *)
Lemma node_remove_members node key :
  ok node -> sorted (members node) ->
  let '(root, previous) := node_remove node key in
  root_members root = sorted_delete key (members node) /\
  previous = sorted_find key (members node) /\
  match root with
  | Some node' => ok node' /\ height node' <= height node <= height node' + 1
  | None => height node = 0
  end.
Proof.
  induction node as [n h s ms|n h s l IHl r IHr]; intros Hn Hs; cbn [node_remove members] in *.
  - pose proof Hn as (Hne & Hcap & -> & -> & _). destruct ms as [|[k0 v0] ms0] eqn:Hms; [done|].
    rewrite <- Hms in *. pose proof (search_spec key v0 ms 0) as Hsp. destruct (search key ms 0) as [j|j].
    + destruct Hsp as (m & v & -> & Hm & -> & _ & ->). rewrite get_lookup.
      replace (N.to_nat (0 + N.of_nat m)) with m by lia. rewrite Hm.
      destruct (take m ms ++ drop (m + 1) ms) as [|e ms'] eqn:Hrest; [done|]. rewrite <- Hrest.
      split; [done|]. split; [done|]. split; [|simpl; lia]. apply ok_leaf; [by rewrite Hrest|].
      unfold len in *. rewrite length_app, length_take, length_drop. lia.
    + destruct Hsp as (m & -> & Hm & Hf & _). rewrite Hf. split; [|split; [done|]; split; [done|simpl; lia]].
      simpl. symmetry. by apply sorted_delete_absent.
  - pose proof (branch_route n h s l r key Hn Hs) as Hrt. pose proof Hn as (Hl & Hr & H1 & H2 & _ & Hh & _).
    apply sorted_app in Hs as (Hsl & Hsr & _).
    destruct (sorted_find_app key (members l) (members r)) as [Hf1 Hf2].
    destruct (sorted_delete_app key (members l) (members r)) as [Hd1 Hd2]. cbn [height].
    destruct (text_leb key (summary l)).
    + rewrite Hf1, Hd1 by done. specialize (IHl Hl Hsl). destruct (node_remove l key) as [root p].
      destruct IHl as (Hm & Hp & Hrest). destruct p as [p|].
      * rewrite <- Hp, <- Hm. destruct root as [l'|]; simpl.
        -- destruct Hrest as [Ho Hh'].
           destruct (balance_shrunk l' r (height l) (height r)) as [Hb Hgb]; auto.
           rewrite members_balance. split; [done|]; split; [done|]; split; [done|lia].
        -- split; [done|]; split; [done|]; split; [done|lia].
      * rewrite <- Hp, sorted_delete_absent by done.
        destruct root; (split; [done|]; split; [done|]; split; [done|simpl; lia]).
    + rewrite Hf2, Hd2 by done. specialize (IHr Hr Hsr). destruct (node_remove r key) as [root p].
      destruct IHr as (Hm & Hp & Hrest). destruct p as [p|].
      * rewrite <- Hp, <- Hm. destruct root as [r'|]; simpl.
        -- destruct Hrest as [Ho Hh'].
           destruct (balance_shrunk l r' (height l) (height r)) as [Hb Hgb]; auto.
           rewrite members_balance. split; [done|]; split; [done|]; split; [done|lia].
        -- rewrite app_nil_r. split; [done|]; split; [done|]; split; [done|lia].
      * rewrite <- Hp, sorted_delete_absent by done.
        destruct root; (split; [done|]; split; [done|]; split; [done|simpl; lia]).
Qed.
End node_lemmas.

(** ** Refinement to finite maps *)

Section refinement.
Context {V : Type}.
Implicit Types (self : ValueMap V) (key : text) (value : V).

Lemma map_get_entries self key : map_ok self -> map_get self key = map_of (entries self) !! key.
Proof.
  intros (Hok & Hs & _). unfold map_get, entries in *. destruct self as [root|]; [|done]. simpl in *.
  rewrite node_find_members by auto. by apply sorted_find_map.
Qed.

Lemma map_len_entries self : map_ok self -> map_len self = len (entries self).
Proof. intros (Hok & _). by apply root_len. Qed.

Lemma map_iter_start self : map_ok self -> iterating (map_iter self) (entries self).
Proof. intros Hok. apply iter_start; [apply Hok|by apply map_len_entries]. Qed.

Lemma length_sorted_insert key value (ms : list (text * V)) :
  len (sorted_insert key value ms) =
  len ms + (if bool_decide (sorted_find key ms = None) then 1 else 0).
Proof.
  unfold len. induction ms as [|[k v] ms IH]; [done|]. simpl. destruct (text_cmp k key); simpl; lia.
Qed.

Lemma length_sorted_delete key (ms : list (text * V)) : len (sorted_delete key ms) <= len ms.
Proof.
  unfold len. induction ms as [|[k v] ms IH]; [done|]. simpl. destruct (text_cmp k key); simpl; lia.
Qed.

Lemma map_insert_entries self key value : map_ok self ->
  match map_insert self key value with
  | Ok (previous, self') => map_ok self' /\ entries self' = sorted_insert key value (entries self) /\
      previous = map_of (entries self) !! key
  | Err e => e = LengthOverflow /\ map_of (entries self) !! key = None /\ len (entries self) = usize_max
  end.
Proof.
  intros Hmok. pose proof Hmok as (Hok & Hs & Hlen). unfold map_insert.
  rewrite map_get_entries, map_len_entries by done. pose proof (length_sorted_insert key value (entries self)) as Hli.
  rewrite (sorted_find_map key _ Hs) in Hli.
  destruct (bool_decide (map_of (entries self) !! key = None) && _) eqn:Hfull.
  - apply andb_true_iff in Hfull as [Habs%bool_decide_eq_true Hadd%bool_decide_eq_true].
    split_and!; [done..|]. unfold checked_add in Hadd. destruct (N.leb_spec (len (entries self) + 1) usize_max); [done|lia].
  - assert (len (sorted_insert key value (entries self)) <= usize_max) as Hmax.
    { rewrite Hli. destruct (bool_decide (map_of _ !! key = None)); [|lia]. simpl in Hfull.
      apply bool_decide_eq_false in Hfull. destruct (checked_add usize_max (len (entries self)) 1) eqn:Hadd; [|done].
      by apply checked_add_Some in Hadd as [_ ?]. }
    destruct self as [root|]; unfold entries in *; simpl in *.
    + pose proof (node_insert_members root key value (Hok root eq_refl) Hs) as Hi.
      destruct (node_insert root key value) as [root' previous]. destruct Hi as (Ho & _ & Hm & ->).
      rewrite (sorted_find_map key _ Hs). unfold map_ok, entries. simpl. rewrite Hm.
      split; [|done]. split_and!; [by intros ? [= <-]|by apply sorted_insert_sorted|done].
    + split; [|done]. split_and!; [by intros ? [= <-]|by apply (sorted_insert_sorted key value [])|done].
Qed.

Lemma map_remove_entries self key : map_ok self ->
  let '(previous, self') := map_remove self key in
  map_ok self' /\ entries self' = sorted_delete key (entries self) /\
  previous = map_of (entries self) !! key.
Proof.
  intros (Hok & Hs & Hlen). pose proof (length_sorted_delete key (entries self)) as Hld.
  unfold map_remove. destruct self as [root|]; [|by split_and!].
  unfold entries in *. simpl in *. pose proof (node_remove_members root key (Hok root eq_refl) Hs) as Hr.
  destruct (node_remove root key) as [root' previous]. destruct Hr as (Hm & -> & Hrest).
  rewrite (sorted_find_map key _ Hs). unfold map_ok, entries. rewrite Hm.
  split; [|done]. split_and!; [|by apply sorted_delete_sorted|lia]. intros ? ->. by destruct Hrest.
Qed.
End refinement.

(** ** The ordered builder *)

Section builder.
Context {V : Type}.

(** A builder that has accepted entries in strict order. *)
Definition building (a : @Assembly (text * V) text) (ms : list (text * V)) : Prop :=
  assembled a ms /\ sorted ms.

Lemma last_key_entries a (ms : list (text * V)) : assembled a ms -> last_key a = fst <$> list.last ms.
Proof.
  intros (Hall & _ & _ & <-). unfold last_key. rewrite last_app.
  destruct (list.last (as_pending a)) as [[k v]|]; [done|].
  destruct (as_forest a) as [|l trees]; [done|]. apply list.Forall_cons in Hall as [Hl _].
  destruct (ok_summary l Hl) as (e & He & Hsum). simpl. rewrite forest_members_cons, last_app, He, Hsum.
  done.
Qed.

Lemma sorted_snoc (ms : list (text * V)) e :
  sorted ms -> (forall last, list.last ms = Some last -> text_lt (fst last) (fst e)) -> sorted (ms ++ [e]).
Proof.
  intros Hs Hlast. apply sorted_app. split; [done|]. split; [repeat constructor|].
  destruct ms as [|x ms' _] using rev_ind; [constructor|]. rewrite last_snoc in Hlast.
  specialize (Hlast x eq_refl). apply sorted_app in Hs as (_ & _ & Hall).
  apply list.Forall_app. split; [|by repeat constructor]. eapply list.Forall_impl; [exact Hall|].
  intros y [Hy _]%list.Forall_cons. constructor; [by eapply text_lt_trans|constructor].
Qed.

Lemma builder_append_building a (ms : list (text * V)) key value :
  building a ms ->
  match builder_append a key value with
  | Ok a' => building a' (ms ++ [(key, value)])
  | Err KeyOrder => ~ sorted (ms ++ [(key, value)])
  | Err e => e = LengthOverflow /\ usize_max <= len ms
  end.
Proof.
  intros [Ha Hs]. unfold builder_append. rewrite (last_key_entries a ms Ha).
  pose proof (assembled_push a ms (key, value) Ha) as Hp.
  assert ((forall last, list.last ms = Some last -> text_lt (fst last) key) ->
    match assembly_push a (key, value) with
    | Ok a' => building a' (ms ++ [(key, value)])
    | Err KeyOrder => ~ sorted (ms ++ [(key, value)])
    | Err e => e = LengthOverflow /\ usize_max <= len ms
    end) as Hpush.
  { intros Hlast. destruct (assembly_push a (key, value)) as [a'|e]; [|by destruct Hp as [-> ?]].
    split; [done|]. by apply sorted_snoc. }
  destruct (list.last ms) as [e|] eqn:He; simpl; [|by apply Hpush].
  destruct (text_leb key (fst e)) eqn:Hk.
  - apply last_Some in He as [l ->]. intros (_ & _ & Hall)%sorted_app.
    apply list.Forall_app in Hall as [_ [[Hlt _]%list.Forall_cons _]%list.Forall_cons].
    apply text_leb_lt in Hlt. simpl in Hlt. congruence.
  - apply Hpush. intros ? [= <-]. by apply text_leb_lt.
Qed.

Lemma building_finish a (ms : list (text * V)) :
  building a ms -> len ms <= usize_max ->
  map_ok (assembly_finish a) /\ entries (assembly_finish a) = ms.
Proof.
  intros [Ha Hs] Hlen. destruct (assembled_finish a ms Ha) as [Hm Hok].
  unfold map_ok, entries. by rewrite Hm.
Qed.
End builder.

(** ** Properties *)

(** C34: the persistent map refines a finite map: lookups, insertions and removals agree
    with it, the previous value is the one it had, entries stay in strict key order on a
    balanced index, and only a new key in a map of the largest size is refused. *)
Theorem value_map_refines_finite_map {V} (self : ValueMap V) :
  map_ok self ->
  map_len self = len (entries self) /\
  (forall key, map_get self key = map_of (entries self) !! key) /\
  (forall i, map_get_index self i = get (entries self) i) /\
  (forall key value, match map_insert self key value with
     | Ok (previous, self') => map_ok self' /\
         map_of (entries self') = <[key := value]> (map_of (entries self)) /\
         previous = map_of (entries self) !! key
     | Err e => e = LengthOverflow /\ map_of (entries self) !! key = None /\
         len (entries self) = usize_max
     end) /\
  (forall key, let '(previous, self') := map_remove self key in
     map_ok self' /\ map_of (entries self') = delete key (map_of (entries self)) /\
     previous = map_of (entries self) !! key).
Proof.
  intros Hok. pose proof Hok as (Hroot & Hs & _). split; [by apply map_len_entries|].
  split; [intros; by apply map_get_entries|]. split; [intros; by apply root_get|]. split.
  - intros key value. pose proof (map_insert_entries self key value Hok) as Hi.
    destruct (map_insert self key value) as [[previous self']|e]; [|done].
    destruct Hi as (Hok' & -> & ->). by rewrite sorted_insert_map.
  - intros key. pose proof (map_remove_entries self key Hok) as Hr.
    destruct (map_remove self key) as [previous self']. destruct Hr as (Hok' & -> & ->).
    by rewrite sorted_delete_map.
Qed.

(** Sixty entries, inserted one at a time. *)
Definition demo_key (n : nat) : text := [Ascii.ascii_of_nat (n * 7 mod 60)].
Definition demo_map : ValueMap nat :=
  Eval vm_compute in
  fold_left (fun m n => match map_insert m (demo_key n) n with Ok (_, m') => m' | Err _ => m end)
    (seq 0 60) None.

Lemma demo_map_ok : map_ok demo_map.
Proof.
  assert (forall ns m, map_ok m -> map_ok (fold_left (fun m n =>
    match map_insert m (demo_key n) n with Ok (_, m') => m' | Err _ => m end) ns m)) as Hfold.
  { induction ns as [|n ns IH]; intros m Hm; [done|]. simpl. apply IH.
    pose proof (map_insert_entries m (demo_key n) n Hm) as Hi.
    destruct (map_insert m (demo_key n) n) as [[? ?]|]; [apply Hi|done]. }
  apply (Hfold (seq 0 60) None). split_and!; [done|constructor|done].
Qed.

Lemma value_map_refines_finite_map_witness :
  map_get demo_map (demo_key 13) = Some 13%nat /\
  map_of (entries (snd (map_remove demo_map (demo_key 13)))) =
    delete (demo_key 13) (map_of (entries demo_map)).
Proof.
  destruct (value_map_refines_finite_map demo_map demo_map_ok) as (_ & Hget & _ & _ & Hremove).
  split; [rewrite Hget; vm_compute; reflexivity|].
  specialize (Hremove (demo_key 13)). destruct (map_remove demo_map (demo_key 13)) as [p m].
  apply Hremove.
Defined.

(** The ordered builder accepts exactly the entries that keep the keys strictly
    increasing, and publishes a well-formed map of them. *)
Theorem map_builder_keeps_order {V} (a : @Assembly (text * V) text) (ms : list (text * V)) :
  building a ms ->
  (forall key value, match builder_append a key value with
     | Ok a' => building a' (ms ++ [(key, value)])
     | Err KeyOrder => ~ sorted (ms ++ [(key, value)])
     | Err e => e = LengthOverflow /\ usize_max <= len ms
     end) /\
  (len ms <= usize_max -> map_ok (assembly_finish a) /\ entries (assembly_finish a) = ms).
Proof.
  intros Ha. split; [intros; by apply builder_append_building|]. by apply building_finish.
Qed.
