(* ===== verification/Value.v ===== *)
(** * Values

    The resident value of crates/xolotl-types/src/value/resident.rs and value.rs: a tagged
    union over the persistent collections. *)

From Stdlib Require Import ZArith.
From stdpp Require Import base numbers list option strings.
From S2P Require Import Prelude Text Collection ValueList ValueMap.

Record BlobRef : Type := mkBlob { blob_hash : text; blob_size : N; blob_mime : option text }.

Inductive DType : Type := F16 | Bf16 | F32 | F64 | I8 | I16 | I32 | I64 | U8 | DBool.

Record TensorRef : Type := mkTensor { tensor_blob : BlobRef; tensor_dtype : DType; tensor_shape : list N }.

Inductive FrameSample : Type := Audio | Video | Pose | Sensor.

Record FrameRef : Type := mkFrameRef { frame_blob : BlobRef; frame_ts_nanos : Z; frame_kind_of : FrameSample }.

Inductive StreamMarker : Type := Done | Error (message : text).

(** [Repr]; [ValueView] has the same variants. A [FloatBits] is its bit pattern, by which it
    is also compared. *)
Inductive Value : Type :=
| VNull
| VBool (b : bool)
| VInt (n : Z)
| VFloat (bits : N)
| VStr (s : text)
| VBytes (s : text)
| VList (l : option (Index Value unit))
| VMap (m : option (Index (text * Value) text))
| VBlob (b : BlobRef)
| VTensor (x : TensorRef)
| VFrame (f : FrameRef)
| VStreamEnd (m : StreamMarker).

Definition as_list (self : Value) : option (ValueList Value) :=
  match self with VList l => Some l | _ => None end.
Definition as_map (self : Value) : option (ValueMap Value) :=
  match self with VMap m => Some m | _ => None end.
Definition as_str (self : Value) : option text :=
  match self with VStr s => Some s | _ => None end.
Definition as_int (self : Value) : option Z :=
  match self with VInt n => Some n | _ => None end.
Definition as_bool (self : Value) : option bool :=
  match self with VBool b => Some b | _ => None end.

(** The reference behind a blob, tensor or frame. *)
Definition backing_blob (self : Value) : option BlobRef :=
  match self with
  | VBlob b => Some b
  | VTensor x => Some (tensor_blob x)
  | VFrame f => Some (frame_blob f)
  | _ => None
  end.

Definition is_large_ref (self : Value) : bool := bool_decide (is_Some (backing_blob self)).

(** [Value::map] of an ordered map's entries. *)
Definition value_map (entries : list (text * Value)) : Value := VMap (collect entries).
