(* ===== verification/Event.v ===== *)
(** * Value events

    crates/xolotl-types/src/value/event.rs: the steps of a lossless value document, and the
    errors of its validation (event/validation.rs). A document is read as a sequence of tokens,
    which forgets where its data chunks end, and as a tree. *)

From Stdlib Require Import ZArith Ascii.
From stdpp Require Import base numbers list option strings.
From S2P Require Import Prelude Text Value.

Local Open Scope N_scope.

Inductive Kind : Type :=
| KDocument
| KTaint
| KString
| KBytes
| KList
| KMap
| KKey
| KBlob
| KTensor
| KShape
| KFrame
| KStreamError
| KInbound
| KFetched
| KProtected
| KPath
| KPathSegments.

Inductive Atom : Type :=
| ANull
| ABool (b : bool)
| AI64 (n : Z)
| AF64Bits (bits : N)
| AU64 (n : N)
| ADType (d : DType)
| AFrameKind (k : FrameSample)
| AAuthor
| AModel
| AStreamDone.

Inductive Event : Type :=
| EBegin (kind : Kind)
| EEnd (kind : Kind)
| EAtom (atom : Atom)
| EData (bytes : text).

#[export] Instance Kind_eq_dec : EqDecision Kind.
Proof. solve_decision. Defined.
#[export] Instance DType_eq_dec : EqDecision DType.
Proof. solve_decision. Defined.
#[export] Instance FrameSample_eq_dec : EqDecision FrameSample.
Proof. solve_decision. Defined.
#[export] Instance Atom_eq_dec : EqDecision Atom.
Proof. solve_decision. Defined.
#[export] Instance Event_eq_dec : EqDecision Event.
Proof. solve_decision. Defined.

(** [ValidationError], without the failure of an allocation. *)
Inductive ValidationError : Type :=
| UnexpectedEvent (context : option Kind)
| MismatchedEnd (expected actual : Kind)
| IncompleteRecord (kind : Kind)
| IncompleteDocument
| Utf8Error
| PathIdentifier
| MapKeyOrder
| FieldLengthOverflow
| KeyExhausted
| FrameBudget (limit : N)
| WrongCompletion
| Abandoned.

(** ** Tokens

    Neither chunk boundaries nor empty chunks carry content. *)

Inductive Token : Type :=
| TBegin (kind : Kind)
| TEnd (kind : Kind)
| TAtom (atom : Atom)
| TByte (byte : ascii).

Definition event_tokens (event : Event) : list Token :=
  match event with
  | EBegin kind => [TBegin kind]
  | EEnd kind => [TEnd kind]
  | EAtom atom => [TAtom atom]
  | EData bytes => TByte <$> bytes
  end.

Definition tokens (events : list Event) : list Token := events ≫= event_tokens.

(** The kinds whose content is data. *)
Definition is_data (kind : Kind) : bool :=
  match kind with KString | KBytes | KKey => true | _ => false end.

(** Data events, empty ones too, occur only in a field that holds data. *)
Fixpoint placed (inside : bool) (events : list Event) : bool :=
  match events with
  | [] => true
  | EBegin kind :: events' => placed (is_data kind) events'
  | EData _ :: events' => inside && placed inside events'
  | _ :: events' => placed false events'
  end.

Lemma tokens_app a b : tokens (a ++ b) = tokens a ++ tokens b.
Proof. apply bind_app. Qed.

Lemma tokens_cons e es : tokens (e :: es) = event_tokens e ++ tokens es.
Proof. done. Qed.

(** ** Trees *)

Inductive Tree : Type :=
| LeafTree (atom : Atom)
| DataTree (kind : Kind) (bytes : text)
| NodeTree (kind : Kind) (children : list Tree).

Fixpoint tree_tokens (tree : Tree) : list Token :=
  match tree with
  | LeafTree atom => [TAtom atom]
  | DataTree kind bytes => TBegin kind :: (TByte <$> bytes) ++ [TEnd kind]
  | NodeTree kind children => TBegin kind :: concat (tree_tokens <$> children) ++ [TEnd kind]
  end.

Section tree_induction.
Context (P : Tree -> Prop).
Context (Hleaf : forall atom, P (LeafTree atom)).
Context (Hdata : forall kind bytes, P (DataTree kind bytes)).
Context (Hnode : forall kind children, Forall P children -> P (NodeTree kind children)).

Fixpoint tree_induction (tree : Tree) : P tree :=
  match tree with
  | LeafTree atom => Hleaf atom
  | DataTree kind bytes => Hdata kind bytes
  | NodeTree kind children =>
      Hnode kind children
        ((fix go l : Forall P l :=
            match l with
            | [] => @List.Forall_nil _ P
            | tree :: l' => @List.Forall_cons _ P _ _ (tree_induction tree) (go l')
            end) children)
  end.
End tree_induction.
