(* ===== verification/Utf8.v ===== *)
(** * UTF-8 across chunks

    [core::str::from_utf8] and the incremental check of
    crates/xolotl-types/src/value/event/validation/utf8.rs, which keeps at most three bytes of
    an unfinished character between chunks. *)

From Stdlib Require Import Ascii.
From stdpp Require Import base numbers list option strings.
From S2P Require Import Prelude Text Event.

Local Open Scope N_scope.

(** ** [core::str::from_utf8] *)

(** The ranges that the bytes after a first byte must lie in; none for other bytes. *)
Definition lead_ranges (byte : ascii) : option (list (N * N)) :=
  let b := code byte in
  let within lo hi := (lo <=? b) && (b <=? hi) in
  let tail := (128, 191) in
  if b <? 128 then Some []
  else if within 194 223 then Some [tail]
  else if b =? 224 then Some [(160, 191); tail]
  else if within 225 236 then Some [tail; tail]
  else if b =? 237 then Some [(128, 159); tail]
  else if within 238 239 then Some [tail; tail]
  else if b =? 240 then Some [(144, 191); tail; tail]
  else if within 241 243 then Some [tail; tail; tail]
  else if b =? 244 then Some [(128, 143); tail; tail]
  else None.

(** [Utf8Error]: [error_len] is absent when the text ends within a character. *)
Record Utf8Failure : Type := mkUtf8Failure { valid_up_to : N; error_len : option N }.

(** What is expected next within a character of which [taken] bytes are read, after [valid]
    bytes of complete characters. *)
Fixpoint utf8_scan (expected : list (N * N)) (taken valid : N) (s : text)
    : Result unit Utf8Failure :=
  match s with
  | [] => match expected with [] => Ok tt | _ => Err (mkUtf8Failure valid None) end
  | byte :: s' =>
      match expected with
      | [] =>
          match lead_ranges byte with
          | None => Err (mkUtf8Failure valid (Some 1))
          | Some [] => utf8_scan [] 0 (valid + 1) s'
          | Some ranges => utf8_scan ranges 1 valid s'
          end
      | (lo, hi) :: rest =>
          if (lo <=? code byte) && (code byte <=? hi) then
            match rest with
            | [] => utf8_scan [] 0 (valid + taken + 1) s'
            | _ => utf8_scan rest (taken + 1) valid s'
            end
          else Err (mkUtf8Failure valid (Some taken))
      end
  end.

Definition from_utf8 (s : text) : Result unit Utf8Failure := utf8_scan [] 0 0 s.
Definition is_utf8 (s : text) : bool := is_ok (from_utf8 s).

(** ** The incremental check *)

(** [Utf8], with the part [tail[..length]] that is in use. *)
Record Utf8 : Type := mkUtf8 { utf8_tail : text }.

Definition utf8_default : Utf8 := mkUtf8 [].

Local Open Scope comp_scope.

(** The loop that completes an unfinished character; [joined] has room for four bytes. The
    rest of the chunk, or nothing when the chunk ends first. *)
Fixpoint utf8_join (joined bytes : text) : comp Utf8 ValidationError (option text) :=
  match bytes with
  | [] =>
      if 3 <? len joined then halt OutOfBounds
      else modify (fun _ => mkUtf8 joined) ;;; ret None
  | byte :: rest =>
      if 4 <=? len joined then halt OutOfBounds
      else
        let joined := joined ++ [byte] in
        match from_utf8 joined with
        | Ok _ => modify (fun _ => mkUtf8 []) ;;; ret (Some rest)
        | Err error =>
            if bool_decide (error_len error = None) && (len joined <? 4)
            then utf8_join joined rest
            else throw Utf8Error
        end
  end.

(** The check of what follows a complete character. *)
Definition utf8_rest (bytes : text) : comp Utf8 ValidationError unit :=
  match from_utf8 bytes with
  | Ok _ => ret tt
  | Err error =>
      match error_len error with
      | None =>
          let tail := drop (N.to_nat (valid_up_to error)) bytes in
          if 3 <? len tail then throw Utf8Error else modify (fun _ => mkUtf8 tail)
      | Some _ => throw Utf8Error
      end
  end.

(** [Utf8::push]. *)
Definition utf8_push (bytes : text) : comp Utf8 ValidationError unit :=
  let* self := gets (fun self => self) in
  if 0 <? len (utf8_tail self) then
    let* rest := utf8_join (utf8_tail self) bytes in
    match rest with
    | None => ret tt
    | Some rest => utf8_rest rest
    end
  else utf8_rest bytes.

(** [Utf8::finish]. *)
Definition utf8_finish (self : Utf8) : Result unit ValidationError :=
  if len (utf8_tail self) =? 0 then Ok tt else Err Utf8Error.

(** ** The automaton of well-formed texts *)

Definition utf8_step (expected : list (N * N)) (byte : ascii) : option (list (N * N)) :=
  match expected with
  | [] => lead_ranges byte
  | (lo, hi) :: rest => if (lo <=? code byte) && (code byte <=? hi) then Some rest else None
  end.

Fixpoint utf8_run (expected : list (N * N)) (s : text) : option (list (N * N)) :=
  match s with
  | [] => Some expected
  | byte :: s' => expected ← utf8_step expected byte; utf8_run expected s'
  end.

Lemma utf8_run_app e a b : utf8_run e (a ++ b) = e' ← utf8_run e a; utf8_run e' b.
Proof.
  revert e. induction a as [|x a IH]; intros e; simpl; [done|]. destruct (utf8_step e x); [apply IH|done].
Qed.

Lemma lead_ranges_short b ranges : lead_ranges b = Some ranges -> (length ranges <= 3)%nat.
Proof. unfold lead_ranges. intros H. repeat case_match; simplify_eq/=; lia. Qed.

(** The beginning of one character, of which some bytes are still expected. *)
Definition unfinished (s : text) (expected : list (N * N)) : Prop :=
  exists b s' ranges, s = b :: s' /\ lead_ranges b = Some ranges /\
    length ranges = (length s' + length expected)%nat.

Lemma unfinished_short s e : unfinished s e -> e <> [] -> len s <= 3.
Proof.
  intros (b & s' & ranges & -> & Hl & Hr) He. apply lead_ranges_short in Hl.
  destruct e; [done|]. unfold len. simpl in *. lia.
Qed.

(** The scan follows the automaton, and tells where the last complete character ends. *)
Lemma utf8_scan_run e taken valid s :
  match utf8_run e s with
  | None => exists v n, utf8_scan e taken valid s = Err (mkUtf8Failure v (Some n))
  | Some [] => utf8_scan e taken valid s = Ok tt
  | Some e' =>
      (length e = length s + length e' /\ e <> [] /\
        utf8_scan e taken valid s = Err (mkUtf8Failure valid None))%nat \/
      exists p q, s = p ++ q /\ utf8_run e p = Some [] /\ utf8_run [] q = Some e' /\
        unfinished q e' /\
        utf8_scan e taken valid s =
          Err (mkUtf8Failure (valid + (if decide (e = []) then 0 else taken) + len p) None)
  end.
Proof.
  revert e taken valid. induction s as [|b s IH]; intros e taken valid.
  { destruct e as [|r e]; simpl; [done|]. by left. }
  destruct e as [|[lo hi] rest]; simpl.
  - destruct (lead_ranges b) as [ranges|] eqn:Hb; simpl; [|eauto].
    destruct ranges as [|r ranges].
    + specialize (IH [] 0 (valid + 1)). destruct (utf8_run [] s) as [[|r e']|]; [done| |done].
      destruct IH as [(_ & ? & _)|(p & q & -> & Hp & Hq & Hu & ->)]; [done|]. right.
      exists (b :: p), q. simpl. rewrite Hb. simpl. split_and!; try done.
      do 2 f_equal. unfold len. simpl. lia.
    + specialize (IH (r :: ranges) 1 valid). destruct (utf8_run (r :: ranges) s) as [[|r' e']|] eqn:Hr;
        [done| |done].
      right. destruct IH as [(Hlen & _ & ->)|(p & q & -> & Hp & Hq & Hu & ->)].
      * exists [], (b :: s). simpl. rewrite Hb. simpl. split_and!; try done.
        { by exists b, s, (r :: ranges). }
        do 2 f_equal. unfold len. simpl. lia.
      * exists (b :: p), q. simpl. rewrite Hb. simpl. split_and!; try done.
        do 2 f_equal. unfold len. simpl. lia.
  - destruct ((lo <=? code b) && (code b <=? hi)) eqn:Hin; simpl; [|eauto].
    destruct rest as [|r rest].
    + specialize (IH [] 0 (valid + taken + 1)). destruct (utf8_run [] s) as [[|r e']|]; [done| |done].
      destruct IH as [(_ & ? & _)|(p & q & -> & Hp & Hq & Hu & ->)]; [done|]. right.
      exists (b :: p), q. simpl. rewrite Hin. simpl. split_and!; try done.
      do 2 f_equal. unfold len. simpl. lia.
    + specialize (IH (r :: rest) (taken + 1) valid).
      destruct (utf8_run (r :: rest) s) as [[|r' e']|]; [done| |done].
      destruct IH as [(Hlen & _ & ->)|(p & q & -> & Hp & Hq & Hu & ->)].
      * left. simpl in *. split; [lia|]. done.
      * right. exists (b :: p), q. simpl. rewrite Hin. simpl. split_and!; try done.
        do 2 f_equal. unfold len. simpl. lia.
Qed.

Lemma from_utf8_run s :
  match utf8_run [] s with
  | None => exists v n, from_utf8 s = Err (mkUtf8Failure v (Some n))
  | Some [] => from_utf8 s = Ok tt
  | Some e => exists p q, s = p ++ q /\ utf8_run [] q = Some e /\ unfinished q e /\
      from_utf8 s = Err (mkUtf8Failure (len p) None)
  end.
Proof.
  unfold from_utf8. pose proof (utf8_scan_run [] 0 0 s) as H.
  destruct (utf8_run [] s) as [[|r e]|]; [done| |done].
  destruct H as [(_ & ? & _)|(p & q & -> & _ & Hq & Hu & ->)]; [done|]. exists p, q.
  by split_and!.
Qed.

Lemma is_utf8_run s : is_utf8 s = true <-> utf8_run [] s = Some [].
Proof.
  unfold is_utf8. pose proof (from_utf8_run s) as H.
  destruct (utf8_run [] s) as [[|r e]|]; [by rewrite H| |].
  - by destruct H as (p & q & _ & _ & _ & ->).
  - by destruct H as (v & n & ->).
Qed.

(** What the check remembers of a text in which the automaton expects [expected]. *)
Definition utf8_at (self : Utf8) (expected : list (N * N)) : Prop :=
  match expected with
  | [] => utf8_tail self = []
  | _ => utf8_run [] (utf8_tail self) = Some expected /\ unfinished (utf8_tail self) expected
  end.

(** Pushing a chunk succeeds exactly when the automaton accepts it. *)
Definition utf8_pushed (e : list (N * N)) (bytes : text) (c : comp Utf8 ValidationError unit)
    (self : Utf8) : Prop :=
  match utf8_run e bytes with
  | Some e' => exists self', c self = Val tt self' /\ utf8_at self' e'
  | None => exists self', c self = Throw Utf8Error self'
  end.

Lemma utf8_rest_spec self bytes : utf8_tail self = [] -> utf8_pushed [] bytes (utf8_rest bytes) self.
Proof.
  intros Ht. unfold utf8_pushed, utf8_rest. pose proof (from_utf8_run bytes) as H.
  destruct (utf8_run [] bytes) as [[|r e]|].
  - rewrite H. by exists self.
  - destruct H as (p & q & -> & Hq & Hu & ->). simpl. apply unfinished_short in Hu as Hlen; [|done].
    replace (drop (N.to_nat (len p)) (p ++ q)) with q by (unfold len; by rewrite Nat2N.id, drop_app_length).
    rewrite (proj2 (N.ltb_ge 3 (len q))) by done. by exists (mkUtf8 q).
  - destruct H as (v & n & ->). eauto.
Qed.

Lemma utf8_join_spec joined bytes self e :
  utf8_run [] joined = Some e -> e <> [] -> unfinished joined e ->
  match utf8_run e bytes with
  | Some e' =>
      (exists self', utf8_join joined bytes self = Val None self' /\ utf8_at self' e') \/
      (exists rest, utf8_join joined bytes self = Val (Some rest) (mkUtf8 []) /\
         utf8_run [] rest = Some e')
  | None =>
      (exists self', utf8_join joined bytes self = Throw Utf8Error self') \/
      (exists rest, utf8_join joined bytes self = Val (Some rest) (mkUtf8 []) /\
         utf8_run [] rest = None)
  end.
Proof.
  revert joined e. induction bytes as [|b bytes IH]; intros joined e Hj He Hu;
    apply unfinished_short in Hu as Hlen; try done.
  { simpl. rewrite (proj2 (N.ltb_ge 3 (len joined))) by done. left. exists (mkUtf8 joined).
    by destruct e. }
  cbn [utf8_join]. rewrite (proj2 (N.leb_gt 4 (len joined))) by lia.
  pose proof (from_utf8_run (joined ++ [b])) as Hf. rewrite utf8_run_app, Hj in Hf.
  cbn [mbind option_bind utf8_run] in Hf |- *.
  destruct (utf8_step e b) as [[|r e']|] eqn:Hs; cbn [mbind option_bind] in Hf |- *.
  - rewrite Hf. destruct (utf8_run [] bytes) eqn:Hr; right; by exists bytes.
  - destruct Hf as (p & q & _ & _ & _ & ->). cbn [error_len].
    rewrite bool_decide_true by done.
    assert (unfinished (joined ++ [b]) (r :: e')) as Hu'.
    { destruct Hu as (c & s' & ranges & -> & Hl & Hr). exists c, (s' ++ [b]), ranges.
      split_and!; try done. rewrite Hr, length_app. destruct e as [|[lo hi] e0]; [done|].
      simpl in Hs |- *. case_match; simplify_eq. simpl. lia. }
    apply unfinished_short in Hu' as Hlen'; [|done].
    rewrite (proj2 (N.ltb_lt (len (joined ++ [b])) 4)) by lia. simpl.
    apply IH; [|done..]. rewrite utf8_run_app, Hj. simpl. by rewrite Hs.
  - destruct Hf as (v & n & ->). left. simpl. eauto.
Qed.

Lemma utf8_push_spec self e bytes : utf8_at self e -> utf8_pushed e bytes (utf8_push bytes) self.
Proof.
  intros Hat. unfold utf8_push, bind, gets. destruct e as [|r e].
  - simpl in Hat. unfold utf8_pushed. rewrite Hat. by apply utf8_rest_spec.
  - destruct Hat as [Hrun Hu]. destruct (utf8_tail self) as [|b tail] eqn:Ht.
    { by destruct Hu as (? & ? & ? & ? & _). }
    pose proof (utf8_join_spec (b :: tail) bytes self (r :: e) Hrun ltac:(done) Hu) as Hj.
    unfold utf8_pushed. rewrite Ht. change (0 <? len (b :: tail)) with true. cbn iota.
    destruct (utf8_run (r :: e) bytes) as [e'|].
    + destruct Hj as [(self' & -> & Hat)|(rest & -> & Hr)]; [by exists self'|].
      pose proof (utf8_rest_spec (mkUtf8 []) rest eq_refl) as H. unfold utf8_pushed in H.
      by rewrite Hr in H.
    + destruct Hj as [(self' & ->)|(rest & -> & Hr)]; [by exists self'|].
      pose proof (utf8_rest_spec (mkUtf8 []) rest eq_refl) as H. unfold utf8_pushed in H.
      by rewrite Hr in H.
Qed.

Lemma utf8_finish_spec self e : utf8_at self e ->
  utf8_finish self = if decide (e = []) then Ok tt else Err Utf8Error.
Proof.
  unfold utf8_finish. destruct e as [|r e]; simpl; [by intros ->|].
  intros [_ (b & s' & ranges & -> & _)]. done.
Qed.

(** Pushing chunks in turn, then ending the field. *)
Fixpoint utf8_check (self : Utf8) (chunks : list text) : Result unit ValidationError :=
  match chunks with
  | [] => utf8_finish self
  | chunk :: chunks' =>
      match utf8_push chunk self with
      | Val _ self' => utf8_check self' chunks'
      | Throw error _ => Err error
      | Stop _ => Err Abandoned
      end
  end.

(** However a text is cut into chunks, within characters too, the incremental check accepts it
    exactly when it is well-formed UTF-8, and never reports anything else. *)
Theorem utf8_chunks_exact (chunks : list text) :
  utf8_check utf8_default chunks = if is_utf8 (concat chunks) then Ok tt else Err Utf8Error.
Proof.
  assert (forall self e, utf8_at self e ->
    utf8_check self chunks =
      if bool_decide (utf8_run e (concat chunks) = Some []) then Ok tt else Err Utf8Error) as H.
  { induction chunks as [|chunk chunks IH]; intros self e Hat; simpl.
    - rewrite (utf8_finish_spec self e Hat). case_decide; case_bool_decide; naive_solver.
    - pose proof (utf8_push_spec self e chunk Hat) as Hp. unfold utf8_pushed in Hp.
      rewrite utf8_run_app. destruct (utf8_run e chunk) as [e'|].
      + destruct Hp as (self' & -> & Hat'). by apply IH.
      + by destruct Hp as (self' & ->). }
  rewrite (H utf8_default []) by done. pose proof (is_utf8_run (concat chunks)) as Hi.
  case_bool_decide as Hr; destruct (is_utf8 (concat chunks)); naive_solver.
Qed.
