(* ===== verification/Validation.v ===== *)
(** * Validation of value documents

    crates/xolotl-types/src/value/event/validation.rs and validation/frame.rs: a stack of
    frames that follows the event grammar across chunks. Exact comparison of map keys is left
    to effects on a workspace that the caller owns. *)

From Stdlib Require Import ZArith Ascii.
From stdpp Require Import base numbers list option strings.
From S2P Require Import Prelude Text Path Value Event Utf8.

Local Open Scope N_scope.
Local Open Scope result_scope.

(** ** Keys and their effects *)

Inductive KeyEffect : Type :=
| KeyCreate (key : N)
| KeyComparePrefix (key offset : N) (bytes : text)
| KeyAppend (key offset : N) (bytes : text)
| KeyRelease (key : N).

Inductive KeyCompletion : Type :=
| KeyDone
| KeyCompared (order : comparison).

Inductive ValidationStep : Type :=
| StepEffect (effect : KeyEffect)
| StepAccepted.

(** ** Frames *)

Record Key : Type := mkKey { key_id : N; key_length : N }.

Record KeyFrame : Type := mkKeyFrame {
  kf_current : Key;
  kf_previous : option Key;
  kf_order : comparison;
  kf_utf8 : Utf8
}.

Inductive ValidatorFrame : Type :=
| FRecord (kind : Kind) (next : N)
| FSequence (kind : Kind)
| FField (kind : Kind) (length : N) (utf8 : option Utf8) (identifier : option Identifier)
| FMap (previous : option Key) (expects_key : bool)
| FKey (key : KeyFrame).

Definition value_kind (kind : Kind) : bool :=
  match kind with
  | KString | KBytes | KList | KMap | KBlob | KTensor | KFrame | KStreamError => true
  | _ => false
  end.

Definition value_atom (atom : Atom) : bool :=
  match atom with
  | ANull | ABool _ | AI64 _ | AF64Bits _ | AStreamDone => true
  | _ => false
  end.

(** [Frame::new]. *)
Definition vframe_new (kind : Kind) (identifier : option IdentifierKind) : ValidatorFrame :=
  match kind with
  | KTaint | KList | KShape | KPathSegments => FSequence kind
  | KString | KBytes =>
      FField kind 0 (if decide (kind = KString) then Some utf8_default else None)
        (identifier_new <$> identifier)
  | KMap => FMap None true
  | _ => FRecord kind 0
  end.

(** [Frame::kind]. *)
Definition vframe_kind (self : ValidatorFrame) : Kind :=
  match self with
  | FRecord kind _ | FField kind _ _ _ | FSequence kind => kind
  | FMap _ _ => KMap
  | FKey _ => KKey
  end.

(** The fields of a fixed record: whether a child may begin, and as which identifier. *)
Definition record_begin (kind : Kind) (next : N) (child : Kind) : bool * option IdentifierKind :=
  let only kind := bool_decide (child = kind) in
  match kind, next with
  | KDocument, 0 => (only KTaint, None)
  | KDocument, 1 => (value_kind child, None)
  | KBlob, (0 | 2) | KInbound, (0 | 1) | (KFetched | KStreamError), 0 => (only KString, None)
  | (KTensor | KFrame), 0 => (only KBlob, None)
  | KTensor, 2 => (only KShape, None)
  | KProtected, 0 => (only KPath, None)
  | KPath, 0 => (only KString, Some Cluster)
  | KPath, 1 => (only KString, Some Scheme)
  | KPath, 2 => (only KPathSegments, None)
  | _, _ => (false, None)
  end.

(** [Frame::begin]: the frame after its child has begun. *)
Definition vframe_begin (self : ValidatorFrame) (child : Kind)
    : Result (option IdentifierKind * ValidatorFrame) ValidationError :=
  let '(valid, identifier, self') :=
    match self with
    | FRecord kind next =>
        let '(valid, identifier) := record_begin kind next child in
        (valid, identifier, FRecord kind (next + 1))
    | FSequence KTaint =>
        (match child with KInbound | KFetched | KProtected => true | _ => false end, None, self)
    | FSequence KList => (value_kind child, None, self)
    | FSequence KPathSegments => (bool_decide (child = KString), Some Segment, self)
    | FMap previous expects_key =>
        (if expects_key then bool_decide (child = KKey) else value_kind child, None,
         FMap previous (negb expects_key))
    | _ => (false, None, self)
    end in
  if valid then Ok (identifier, self') else Err (UnexpectedEvent (Some (vframe_kind self))).

Definition record_atom (kind : Kind) (next : N) (atom : Atom) : bool :=
  match kind, next, atom with
  | KDocument, 1, atom => value_atom atom
  | KBlob, 1, AU64 _ | KBlob, 2, ANull | KTensor, 1, ADType _ | KFrame, 1, AI64 _
  | KFrame, 2, AFrameKind _ | KPath, 0, ANull => true
  | _, _, _ => false
  end.

(** [Frame::atom]. *)
Definition vframe_atom (self : ValidatorFrame) (atom : Atom) : Result ValidatorFrame ValidationError :=
  let '(valid, self') :=
    match self with
    | FRecord kind next => (record_atom kind next atom, FRecord kind (next + 1))
    | FSequence KTaint => (match atom with AAuthor | AModel => true | _ => false end, self)
    | FSequence KList => (value_atom atom, self)
    | FSequence KShape => (match atom with AU64 _ => true | _ => false end, self)
    | FMap previous expects_key => (negb expects_key && value_atom atom, FMap previous true)
    | _ => (false, self)
    end in
  if valid then Ok self' else Err (UnexpectedEvent (Some (vframe_kind self))).

(** The number of fields that a fixed record has. *)
Definition record_fields (kind : Kind) : N :=
  match kind with
  | KDocument | KInbound => 2
  | KBlob | KTensor | KFrame | KPath => 3
  | KStreamError | KFetched | KProtected => 1
  | _ => 0
  end.

(** [Ordering::then_with]. *)
Definition then_with (order : comparison) (other : comparison) : comparison :=
  match order with Eq => other | _ => order end.

(** [Frame::finish]. *)
Definition vframe_finish (self : ValidatorFrame) : Result unit ValidationError :=
  let? complete :=
    match self with
    | FRecord kind next => Ok (next =? record_fields kind)
    | FSequence _ => Ok true
    | FField _ _ utf8 identifier =>
        let? _ := match utf8 with Some utf8 => utf8_finish utf8 | None => Ok tt end in
        let? _ := match identifier with
                  | Some identifier =>
                      match identifier_finish identifier with
                      | Ok _ => Ok tt
                      | Err _ => Err PathIdentifier
                      end
                  | None => Ok tt
                  end in
        Ok true
    | FMap _ expects_key => Ok expects_key
    | FKey key =>
        let? _ := utf8_finish (kf_utf8 key) in
        match kf_previous key with
        | Some previous =>
            match then_with (kf_order key) (key_length previous ?= key_length (kf_current key)) with
            | Lt => Ok true
            | _ => Err MapKeyOrder
            end
        | None => Ok true
        end
    end in
  if complete : bool then Ok tt else Err (IncompleteRecord (vframe_kind self)).

(** ** The validator *)

Inductive DocumentState : Type := DocumentAwaiting | DocumentOpen | DocumentComplete.

Record Validator : Type := mkValidator {
  v_frames : list ValidatorFrame;
  v_max_frames : option N;
  v_next_key : option N;
  v_document : DocumentState;
  v_failure : option ValidationError
}.

(** [Validator::new]; the last frame of the vector is the head of the list. *)
Definition validator_new (max_frames : option N) : Validator :=
  mkValidator [] max_frames (Some 0) DocumentAwaiting None.

Definition set_frames (frames : list ValidatorFrame) (self : Validator) : Validator :=
  mkValidator frames (v_max_frames self) (v_next_key self) (v_document self) (v_failure self).
Definition set_document (document : DocumentState) (self : Validator) : Validator :=
  mkValidator (v_frames self) (v_max_frames self) (v_next_key self) document (v_failure self).

Local Close Scope result_scope.
Local Open Scope comp_scope.

Definition validator_check : comp Validator ValidationError unit :=
  let* failure := gets v_failure in
  match failure with Some error => throw error | None => ret tt end.

(** [Validator::fail]: the first error stays. *)
Definition validator_fail (error : ValidationError) (self : Validator) : ValidationError * Validator :=
  match v_failure self with
  | Some error => (error, self)
  | None =>
      (error, mkValidator [] (v_max_frames self) (v_next_key self) (v_document self) (Some error))
  end.

(** [Validator::push], with storage that grows when it must. *)
Definition validator_push (frame : ValidatorFrame) : comp Validator ValidationError unit :=
  let* self := gets (fun self => self) in
  match v_max_frames self with
  | Some limit =>
      if limit <=? len (v_frames self) then throw (FrameBudget limit)
      else modify (set_frames (frame :: v_frames self))
  | None => modify (set_frames (frame :: v_frames self))
  end.

(** [Validator::key_id]. *)
Definition validator_key_id : comp Validator ValidationError N :=
  let* next := gets v_next_key in
  let* id := require next KeyExhausted in
  modify (fun self => mkValidator (v_frames self) (v_max_frames self) (checked_add u64_max id 1)
                        (v_document self) (v_failure self)) ;;;
  ret id.

(** ** The transaction of one event *)

Inductive Pending : Type :=
| PendingCreate
| PendingCompare (next_length : N)
| PendingAppend (next_length : N)
| PendingRelease.

Inductive Progress : Type :=
| ProgressFresh
| ProgressPending (pending : Pending)
| ProgressAccepted
| ProgressFailed.

Record Validation : Type := mkValidation {
  vl_validator : Validator;
  vl_event : Event;
  vl_progress : Progress
}.

Definition transaction : Type -> Type := comp Validation ValidationError.

(** A call of a method of the validator that is borrowed. *)
Definition on_validator {A} (c : comp Validator ValidationError A) : transaction A :=
  fun self =>
    match c (vl_validator self) with
    | Val a v => Val a (mkValidation v (vl_event self) (vl_progress self))
    | Throw x v => Throw x (mkValidation v (vl_event self) (vl_progress self))
    | Stop why => Stop why
    end.

Definition set_progress (progress : Progress) : transaction unit :=
  modify (fun self => mkValidation (vl_validator self) (vl_event self) progress).

Definition validation_accepted : transaction ValidationStep :=
  set_progress ProgressAccepted ;;; ret StepAccepted.
Definition validation_effect (effect : KeyEffect) (pending : Pending) : transaction ValidationStep :=
  set_progress (ProgressPending pending) ;;; ret (StepEffect effect).

Definition open_frames : transaction (list ValidatorFrame) := gets (fun self => v_frames (vl_validator self)).
Definition replace_frames (frames : list ValidatorFrame) : transaction unit :=
  on_validator (modify (set_frames frames)).

Definition next_length (length offered : N) : Result N ValidationError :=
  ok_or (checked_add u64_max length offered) FieldLengthOverflow.

(** [Validation::begin_record]. *)
Definition begin_record (kind : Kind) : transaction ValidationStep :=
  let* document := gets (fun self => v_document (vl_validator self)) in
  match document with
  | DocumentAwaiting =>
      if decide (kind = KDocument) then
        on_validator (validator_push (vframe_new kind None)) ;;;
        on_validator (modify (set_document DocumentOpen)) ;;;
        validation_accepted
      else throw (UnexpectedEvent None)
  | _ =>
      let* frames := open_frames in
      match frames with
      | [] => throw (UnexpectedEvent None)
      | parent :: rest =>
          let* (identifier, parent) := lift_result (vframe_begin parent kind) in
          replace_frames (parent :: rest) ;;;
          if decide (kind = KKey) then
            match parent with
            | FMap previous _ =>
                let* id := on_validator validator_key_id in
                on_validator (validator_push
                  (FKey (mkKeyFrame (mkKey id 0) previous Eq utf8_default))) ;;;
                validation_effect (KeyCreate id) PendingCreate
            | _ => throw (UnexpectedEvent None)
            end
          else on_validator (validator_push (vframe_new kind identifier)) ;;; validation_accepted
      end
  end.

(** [Validation::end_record]. *)
Definition end_record (kind : Kind) : transaction ValidationStep :=
  let* frames := open_frames in
  match frames with
  | [] => throw (UnexpectedEvent None)
  | frame :: rest =>
      if decide (vframe_kind frame = kind) then
        lift_result (vframe_finish frame) ;;;
        replace_frames rest ;;;
        let* release :=
          match frame with
          | FKey key =>
              match rest with
              | FMap previous expects_key :: rest' =>
                  replace_frames (FMap (Some (kf_current key)) expects_key :: rest') ;;;
                  ret previous
              | _ => throw (UnexpectedEvent None)
              end
          | FMap previous _ => ret previous
          | _ => ret None
          end in
        (if decide (kind = KDocument) then on_validator (modify (set_document DocumentComplete))
         else ret tt) ;;;
        match release with
        | Some key => validation_effect (KeyRelease (key_id key)) PendingRelease
        | None => validation_accepted
        end
      else throw (MismatchedEnd (vframe_kind frame) kind)
  end.

(** [Validation::append]. *)
Definition validation_append (next : N) : transaction ValidationStep :=
  let* self := gets (fun self => self) in
  match v_frames (vl_validator self), vl_event self with
  | FKey key :: _, EData bytes =>
      validation_effect
        (KeyAppend (key_id (kf_current key)) (key_length (kf_current key)) bytes) (PendingAppend next)
  | _, _ => throw WrongCompletion
  end.

(** [Utf8::push] and [Identifier::push] of a field. *)
Definition push_utf8 (bytes : text) (utf8 : Utf8) : transaction Utf8 :=
  match utf8_push bytes utf8 with
  | Val _ utf8 => ret utf8
  | Throw error _ => throw error
  | Stop why => halt why
  end.
Definition push_identifier (bytes : text) (identifier : Identifier) : transaction Identifier :=
  match identifier_push identifier bytes with
  | (identifier, Ok _) => ret identifier
  | (_, Err _) => throw PathIdentifier
  end.
Definition push_option {A} (push : A -> transaction A) (field : option A) : transaction (option A) :=
  match field with
  | Some a => let* a := push a in ret (Some a)
  | None => ret None
  end.

(** [Validation::data]. *)
Definition validation_data (bytes : text) : transaction ValidationStep :=
  let* frames := open_frames in
  match frames with
  | [] => throw (UnexpectedEvent None)
  | FField kind length utf8 identifier :: rest =>
      let* next := lift_result (next_length length (len bytes)) in
      let* utf8 := push_option (push_utf8 bytes) utf8 in
      let* identifier := push_option (push_identifier bytes) identifier in
      replace_frames (FField kind next utf8 identifier :: rest) ;;;
      validation_accepted
  | FKey key :: rest =>
      let* next := lift_result (next_length (key_length (kf_current key)) (len bytes)) in
      let* utf8 := push_utf8 bytes (kf_utf8 key) in
      let with_order order := mkKeyFrame (kf_current key) (kf_previous key) order utf8 in
      replace_frames (FKey (with_order (kf_order key)) :: rest) ;;;
      if len bytes =? 0 then validation_accepted
      else
        match kf_order key, kf_previous key with
        | Eq, Some previous =>
            let remaining := saturating_sub (key_length previous) (key_length (kf_current key)) in
            let common := N.min remaining (len bytes) in
            if 0 <? common then
              validation_effect
                (KeyComparePrefix (key_id previous) (key_length (kf_current key))
                   (take (N.to_nat common) bytes))
                (PendingCompare next)
            else
              replace_frames (FKey (with_order Lt) :: rest) ;;;
              validation_append next
        | _, _ => validation_append next
        end
  | frame :: _ => throw (UnexpectedEvent (Some (vframe_kind frame)))
  end.

(** [Validation::complete]. *)
Definition validation_complete (pending : Pending) (completion : KeyCompletion)
    : transaction ValidationStep :=
  let* frames := open_frames in
  match pending, completion with
  | (PendingCreate | PendingRelease), KeyDone => validation_accepted
  | PendingAppend next, KeyDone =>
      match frames with
      | FKey key :: rest =>
          replace_frames
            (FKey (mkKeyFrame (mkKey (key_id (kf_current key)) next) (kf_previous key)
                     (kf_order key) (kf_utf8 key)) :: rest) ;;;
          validation_accepted
      | _ => throw WrongCompletion
      end
  | PendingCompare next, KeyCompared order =>
      match order with
      | Gt => throw MapKeyOrder
      | _ =>
          match frames with
          | FKey key :: rest =>
              let longer := match kf_previous key with
                            | Some previous => key_length previous <? next
                            | None => false
                            end in
              let order := if bool_decide (order = Eq) && longer then Lt else order in
              replace_frames
                (FKey (mkKeyFrame (kf_current key) (kf_previous key) order (kf_utf8 key)) :: rest) ;;;
              validation_append next
          | _ => throw WrongCompletion
          end
      end
  | _, _ => throw WrongCompletion
  end.

(** [Validation::start]. *)
Definition validation_start : transaction ValidationStep :=
  let* event := gets vl_event in
  match event with
  | EBegin kind => begin_record kind
  | EEnd kind => end_record kind
  | EData bytes => validation_data bytes
  | EAtom atom =>
      let* frames := open_frames in
      match frames with
      | [] => throw (UnexpectedEvent None)
      | frame :: rest =>
          let* frame := lift_result (vframe_atom frame atom) in
          replace_frames (frame :: rest) ;;;
          validation_accepted
      end
  end.

(** [Validation::advance]. *)
Definition validation_advance (completion : option KeyCompletion) : transaction ValidationStep :=
  on_validator validator_check ;;;
  let* progress := gets vl_progress in
  set_progress ProgressFailed ;;;
  let* result :=
    attempt (match progress, completion with
             | ProgressFresh, None => validation_start
             | ProgressPending pending, Some completion => validation_complete pending completion
             | _, _ => throw WrongCompletion
             end) in
  match result with
  | Ok step => ret step
  | Err error =>
      let* error := on_validator (fun v => let '(error, v) := validator_fail error v in Val error v) in
      throw error
  end.

(** [Validator::begin]. *)
Definition validator_begin (event : Event) : comp Validator ValidationError Validation :=
  validator_check ;;;
  let* self := gets (fun self => self) in
  match v_document self with
  | DocumentComplete =>
      fun v => let '(error, v) := validator_fail (UnexpectedEvent None) v in Throw error v
  | _ => ret (mkValidation self event ProgressFresh)
  end.

(** [Drop for Validation]: what is left of the validator. *)
Definition validation_drop (self : Validation) : Validator :=
  match vl_progress self with
  | ProgressAccepted => vl_validator self
  | _ => snd (validator_fail Abandoned (vl_validator self))
  end.

(** [Validator::finish]. *)
Definition validator_finish : comp Validator ValidationError unit :=
  validator_check ;;;
  let* document := gets v_document in
  match document with
  | DocumentComplete => modify (set_frames [])
  | _ => fun v => let '(error, v) := validator_fail IncompleteDocument v in Throw error v
  end.
