(* ===== verification/Workspace.v ===== *)
(** * Driving validation

    The loop that carries out the effects of one event on a workspace of keys, which the
    resident builder and crates/xolotl-value-codec/src/validation.rs share, with the owner of a
    validator and its workspace of that file. Its futures are run to their end. *)

From Stdlib Require Import ZArith Ascii.
From stdpp Require Import base numbers list option strings gmap.
From S2P Require Import Prelude Text Event Validation.

Local Open Scope N_scope.
Local Open Scope comp_scope.

(** ** Workspaces *)

(** [KeyStore]: storage for the keys that one validator needs. *)
Class Workspace (K E : Type) : Type := {
  ws_create : N -> comp K E unit;
  ws_compare_prefix : N -> N -> text -> comp K E comparison;
  ws_append : N -> N -> text -> comp K E unit;
  ws_release : N -> comp K E unit
}.

(** What a workspace promises: it holds a text for each key, and serves every request that is
    in its place. [ws_can] is the number of bytes it has room for, [ws_ready] says that another
    key may be created, and [ws_noted] that one has just been. *)
Class WorkspaceLaws (K E : Type) `{!Workspace K E} : Type := {
  ws_view : K -> gmap N text;
  ws_can : K -> N -> Prop;
  ws_ready : K -> Prop;
  ws_noted : K -> N -> Prop;
  ws_can_less keys room room' : ws_can keys room -> room' <= room -> ws_can keys room';
  ws_create_law keys key room :
    ws_view keys !! key = None -> ws_ready keys -> ws_can keys room ->
    wp (ws_create key)
      (fun _ keys' =>
         ws_view keys' = <[key := []]> (ws_view keys) /\ ws_can keys' room /\ ws_noted keys' key)
      (fun _ _ => False) keys;
  ws_compare_law keys key offset bytes stored room :
    ws_view keys !! key = Some stored -> offset + len bytes <= len stored ->
    len stored <= u64_max -> ws_can keys room ->
    wp (ws_compare_prefix key offset bytes)
      (fun order keys' =>
         order = text_cmp (take (length bytes) (drop (N.to_nat offset) stored)) bytes /\
         ws_view keys' = ws_view keys /\ ws_can keys' room /\ (ws_ready keys -> ws_ready keys'))
      (fun _ _ => False) keys;
  ws_append_law keys key bytes stored room :
    ws_view keys !! key = Some stored -> len (stored ++ bytes) <= u64_max ->
    ws_can keys (len bytes + room) ->
    wp (ws_append key (len stored) bytes)
      (fun _ keys' =>
         ws_view keys' = <[key := stored ++ bytes]> (ws_view keys) /\ ws_can keys' room /\
         (ws_ready keys -> ws_ready keys'))
      (fun _ _ => False) keys;
  ws_release_law keys key room :
    is_Some (ws_view keys !! key) -> ws_can keys room ->
    wp (ws_release key)
      (fun _ keys' =>
         ws_view keys' = delete key (ws_view keys) /\ ws_can keys' room /\
         (ws_ready keys -> ws_ready keys'))
      (fun _ _ => False) keys
}.

(** ** The loop *)

Inductive DriveError (E : Type) : Type :=
| DriveValidation (error : ValidationError)
| DriveWorkspace (error : E).
Arguments DriveValidation {E} _.
Arguments DriveWorkspace {E} _.

Section drive.
Context {K E : Type} `{!Workspace K E}.

(** One effect and its completion. *)
Definition ws_complete (effect : KeyEffect) : comp K E KeyCompletion :=
  match effect with
  | KeyCreate key => ws_create key ;;; ret KeyDone
  | KeyComparePrefix key offset bytes =>
      let* order := ws_compare_prefix key offset bytes in
      ret (KeyCompared order)
  | KeyAppend key offset bytes => ws_append key offset bytes ;;; ret KeyDone
  | KeyRelease key => ws_release key ;;; ret KeyDone
  end.

(** A fragment of a key takes three turns, any other event fewer. *)
Fixpoint drive (fuel : nat) (completion : option KeyCompletion) (validation : Validation)
    : comp K (DriveError E) Validator :=
  match fuel with
  | O => halt Unbounded
  | S fuel =>
      match validation_advance completion validation with
      | Val StepAccepted validation => ret (validation_drop validation)
      | Val (StepEffect effect) validation =>
          let* result := attempt (ws_complete effect) in
          match result with
          | Ok completion => drive fuel (Some completion) validation
          | Err error => throw (DriveWorkspace error)
          end
      | Throw error _ => throw (DriveValidation error)
      | Stop why => halt why
      end
  end.

(** The transaction of one event. *)
Definition drive_event (event : Event) (validator : Validator) : comp K (DriveError E) Validator :=
  match validator_begin event validator with
  | Val validation _ => drive 3 None validation
  | Throw error _ => throw (DriveValidation error)
  | Stop why => halt why
  end.

(** ** [EventValidator] *)

(** [Error], of which [WireError] is the error of the framing. *)
Inductive CodecError (WireError : Type) : Type :=
| CodecValidation (error : ValidationError)
| CodecWorkspace (error : E)
| CodecWire (error : WireError)
| CodecClosed.
Arguments CodecValidation {WireError} _.
Arguments CodecWorkspace {WireError} _.
Arguments CodecWire {WireError} _.
Arguments CodecClosed {WireError}.

(** The grammar's validator with its workspace, until something fails. *)
Record EventValidator : Type := mkEventValidator { ev_session : option (Validator * K) }.

Definition event_validator_new (keys : K) (max_frames : option N) : EventValidator :=
  mkEventValidator (Some (validator_new max_frames, keys)).

Definition event_validator_is_open (self : EventValidator) : bool :=
  bool_decide (is_Some (ev_session self)).

(** [EventValidator::accept]. *)
Definition event_validator_accept {W} (event : Event) : comp EventValidator (CodecError W) unit :=
  let* session := gets ev_session in
  match session with
  | None => throw CodecClosed
  | Some (grammar, keys) =>
      modify (fun _ => mkEventValidator None) ;;;
      match drive_event event grammar keys with
      | Val grammar keys => modify (fun _ => mkEventValidator (Some (grammar, keys)))
      | Throw (DriveValidation error) _ => throw (CodecValidation error)
      | Throw (DriveWorkspace error) _ => throw (CodecWorkspace error)
      | Stop why => halt why
      end
  end.

(** [EventValidator::finish]. *)
Definition event_validator_finish {W} : comp EventValidator (CodecError W) unit :=
  let* session := gets ev_session in
  match session with
  | None => throw CodecClosed
  | Some (grammar, keys) =>
      modify (fun _ => mkEventValidator None) ;;;
      match validator_finish grammar with
      | Val _ _ => ret tt
      | Throw error _ => throw (CodecValidation error)
      | Stop why => halt why
      end
  end.
End drive.
Arguments CodecError : clear implicits.
Arguments EventValidator : clear implicits.
Arguments CodecValidation {E WireError} _.
Arguments CodecWorkspace {E WireError} _.
Arguments CodecWire {E WireError} _.
Arguments CodecClosed {E WireError}.
