(* ===== verification/Grammar.v ===== *)
(** * The grammar of documents

    A machine that reads a document as a growing tree, and the proof that the validator follows
    it: for any workspace that keeps its promises, an event is accepted exactly when the
    machine accepts it. *)

From Stdlib Require Import ZArith Ascii.
From stdpp Require Import base numbers list option strings gmap.
From S2P Require Import Prelude Text Path Event Utf8 Validation Workspace.

Local Open Scope N_scope.

(** ** The machine *)

(** A record that is open: the trees that it has, or the bytes of a field. *)
Inductive Open : Type :=
| OpenNode (kind : Kind) (children : list Tree)
| OpenData (kind : Kind) (role : option IdentifierKind) (bytes : text).

(** The frame that the code keeps for a record with some children. *)
Definition position (kind : Kind) (children : list Tree) : ValidatorFrame :=
  match kind with
  | KTaint | KList | KShape | KPathSegments => FSequence kind
  | KMap => FMap None (Nat.even (length children))
  | _ => FRecord kind (len children)
  end.

(** The last key among the children of a map. *)
Definition key_of (tree : Tree) : option text :=
  match tree with DataTree KKey key => Some key | _ => None end.
Definition last_key_of (children : list Tree) : option text := list.last (omap key_of children).

(** The key that a new one must follow. *)
Definition previous_key (kind : Kind) (parents : list Open) : option text :=
  match kind, parents with
  | KKey, OpenNode KMap children :: _ => last_key_of children
  | _, _ => None
  end.

(** How a key compares so far: [Eq] while it is a prefix of the previous one. *)
Definition key_order (previous : option text) (bytes : text) : comparison :=
  match previous with
  | Some key => text_cmp (take (length bytes) key) bytes
  | None => Eq
  end.

Definition role_run (role : option IdentifierKind) (bytes : text) : option (option Identifier) :=
  match role with
  | None => Some None
  | Some kind =>
      match push_bytes (identifier_new kind) bytes with
      | (identifier, Ok _) => Some (Some identifier)
      | _ => None
      end
  end.

(** Whether bytes may begin a field, and whether they may be all of it. *)
Definition data_open (kind : Kind) (role : option IdentifierKind) (previous : option text)
    (bytes : text) : bool :=
  (bool_decide (kind = KBytes) || bool_decide (is_Some (utf8_run [] bytes))) &&
  bool_decide (is_Some (role_run role bytes)) &&
  bool_decide (key_order previous bytes <> Gt).

Definition data_complete (kind : Kind) (role : option IdentifierKind) (previous : option text)
    (bytes : text) : bool :=
  (bool_decide (kind = KBytes) || is_utf8 bytes) &&
  match role with Some kind => is_ok (validate_identifier bytes kind) | None => true end &&
  match previous with Some key => negb (text_leb bytes key) | None => true end.

Definition open_new (kind : Kind) (role : option IdentifierKind) : Open :=
  if is_data kind then OpenData kind role [] else OpenNode kind [].

Definition open_kind (open : Open) : Kind :=
  match open with OpenNode kind _ | OpenData kind _ _ => kind end.

(** The records that are open, or the tree of a complete document. *)
Inductive Reading : Type :=
| Reads (opens : list Open)
| Read (tree : Tree).

Definition attach (tree : Tree) (opens : list Open) : option Reading :=
  match opens with
  | [] => Some (Read tree)
  | OpenNode kind children :: opens => Some (Reads (OpenNode kind (children ++ [tree]) :: opens))
  | OpenData _ _ _ :: _ => None
  end.

Definition below_limit (limit : option N) (n : N) : bool :=
  match limit with Some limit => n <? limit | None => true end.

Definition read (limit : option N) (self : Reading) (event : Event) : option Reading :=
  match self, event with
  | Reads [], EBegin KDocument =>
      guard (below_limit limit 0 = true);; Some (Reads [OpenNode KDocument []])
  | Reads (OpenNode kind children :: opens), EBegin child =>
      match vframe_begin (position kind children) child with
      | Ok (role, _) =>
          guard (below_limit limit (len opens + 1) = true);;
          Some (Reads (open_new child role :: OpenNode kind children :: opens))
      | Err _ => None
      end
  | Reads (OpenNode kind children :: opens), EAtom atom =>
      guard (is_ok (vframe_atom (position kind children) atom) = true);;
      attach (LeafTree atom) (OpenNode kind children :: opens)
  | Reads (OpenData kind role bytes :: opens), EData more =>
      guard (data_open kind role (previous_key kind opens) (bytes ++ more) = true);;
      Some (Reads (OpenData kind role (bytes ++ more) :: opens))
  | Reads (OpenNode kind children :: opens), EEnd ending =>
      guard (kind = ending /\ is_ok (vframe_finish (position kind children)) = true);;
      attach (NodeTree kind children) opens
  | Reads (OpenData kind role bytes :: opens), EEnd ending =>
      guard (kind = ending /\ data_complete kind role (previous_key kind opens) bytes = true);;
      attach (DataTree kind bytes) opens
  | _, _ => None
  end.

(** ** Frames of the validator *)

Implicit Types (view : gmap N text) (opens : list Open) (frames : list ValidatorFrame).

(** What a map remembers of its last key. *)
Definition map_previous view (children : list Tree) (previous : option Key) : Prop :=
  match previous with
  | None => last_key_of children = None
  | Some key => exists bytes, last_key_of children = Some bytes /\
      view !! key_id key = Some bytes /\ key_length key = len bytes
  end.

(** The frame of a record; it counts a child as soon as that has [begun]. *)
Definition node_frame view (begun : bool) (kind : Kind) (children : list Tree)
    (frame : ValidatorFrame) : Prop :=
  match kind with
  | KTaint | KList | KShape | KPathSegments => frame = FSequence kind
  | KMap => exists previous, map_previous view children previous /\
      frame = FMap previous (xorb begun (Nat.even (length children)))
  | KString | KBytes | KKey => False
  | _ => frame = FRecord kind (len children + (if begun then 1 else 0))
  end.

Definition utf8_field (bytes : text) (utf8 : Utf8) : Prop :=
  exists expected, utf8_run [] bytes = Some expected /\ utf8_at utf8 expected.

(** The frame of a field, within frames that begin with its parent. *)
Definition data_frame view (kind : Kind) (role : option IdentifierKind) (bytes : text)
    opens frames (frame : ValidatorFrame) : Prop :=
  match kind with
  | KKey => role = None /\
      exists id utf8 previous expects_key frames', frames = FMap previous expects_key :: frames' /\
        view !! id = Some bytes /\ utf8_field bytes utf8 /\
        key_order (previous_key KKey opens) bytes <> Gt /\
        frame = FKey (mkKeyFrame (mkKey id (len bytes)) previous
                        (key_order (previous_key KKey opens) bytes) utf8)
  | KString => exists utf8 identifier, utf8_field bytes utf8 /\ role_run role bytes = Some identifier /\
      frame = FField KString (len bytes) (Some utf8) identifier
  | KBytes => exists identifier, role_run role bytes = Some identifier /\
      frame = FField KBytes (len bytes) None identifier
  | _ => False
  end.

Definition begun_frame view (open : Open) (frame : ValidatorFrame) : Prop :=
  match open with
  | OpenNode kind children => node_frame view true kind children frame
  | OpenData _ _ _ => False
  end.

Definition open_frames_rel view opens frames : Prop :=
  match opens, frames with
  | [], [] => True
  | OpenNode kind children :: opens, frame :: frames =>
      node_frame view false kind children frame /\ Forall2 (begun_frame view) opens frames
  | OpenData kind role bytes :: opens, frame :: frames =>
      data_frame view kind role bytes opens frames frame /\ Forall2 (begun_frame view) opens frames
  | _, _ => False
  end.

(** The keys that frames refer to. *)
Definition frame_keys (frame : ValidatorFrame) : list N :=
  match frame with
  | FMap (Some key) _ => [key_id key]
  | FKey key => [key_id (kf_current key)]
  | _ => []
  end.
Definition live_keys frames : list N := frames ≫= frame_keys.

Definition reading_frames view (reading : Reading) (v : Validator) : Prop :=
  match reading with
  | Reads opens =>
      open_frames_rel view opens (v_frames v) /\
      v_document v = match opens with [] => DocumentAwaiting | _ => DocumentOpen end
  | Read _ => v_frames v = [] /\ v_document v = DocumentComplete
  end.

(** The document is the outermost record, and only that. *)
Fixpoint rooted opens : Prop :=
  match opens with
  | [] => False
  | [open] => exists children, open = OpenNode KDocument children
  | OpenNode kind _ :: opens | OpenData kind _ _ :: opens => kind <> KDocument /\ rooted opens
  end.

Definition shaped (reading : Reading) (n : N) : Prop :=
  match reading with
  | Read _ | Reads [] => True
  | Reads opens =>
      rooted opens /\ match opens with OpenData _ _ bytes :: _ => len bytes <= n | _ => True end
  end.

(** The validator after [n] tokens of a document. *)
Record follows (limit : option N) (reading : Reading) (v : Validator) view (n : N) : Prop := {
  follows_failure : v_failure v = None;
  follows_limit : v_max_frames v = limit;
  follows_frames : reading_frames view reading v;
  follows_keys : dom view = list_to_set (live_keys (v_frames v));
  follows_nodup : NoDup (live_keys (v_frames v));
  follows_next : exists next, v_next_key v = Some next /\ next <= n /\
    Forall (fun id => id < next) (live_keys (v_frames v));
  follows_lengths : map_Forall (fun _ bytes => len bytes <= n) view;
  follows_shape : shaped reading n
}.

Lemma rooted_open open opens :
  open_kind open <> KDocument -> rooted opens -> rooted (open :: opens).
Proof. intros Hk Hr. destruct open, opens; done. Qed.

Lemma rooted_attach kind children children' opens :
  rooted (OpenNode kind children :: opens) -> rooted (OpenNode kind children' :: opens).
Proof. destruct opens; [|done]. intros [? [= -> _]]. by exists children'. Qed.

Lemma rooted_tail open opens :
  rooted (open :: opens) ->
  match opens with
  | [] => exists children, open = OpenNode KDocument children
  | _ => open_kind open <> KDocument /\ rooted opens
  end.
Proof. by destruct open, opens. Qed.

Lemma last_key_snoc children tree :
  last_key_of (children ++ [tree]) =
    match key_of tree with Some key => Some key | None => last_key_of children end.
Proof.
  unfold last_key_of. rewrite omap_app, last_app. simpl. by destruct (key_of tree).
Qed.

Lemma map_previous_snoc view children tree previous :
  key_of tree = None -> map_previous view (children ++ [tree]) previous <-> map_previous view children previous.
Proof. intros Hk. unfold map_previous. by rewrite last_key_snoc, Hk. Qed.

(** A child that begins, a value that is given, and the end of a record. *)
Lemma node_frame_begin view kind children frame child :
  node_frame view false kind children frame ->
  match vframe_begin (position kind children) child with
  | Ok (role, _) => exists frame', vframe_begin frame child = Ok (role, frame') /\
      node_frame view true kind children frame' /\ frame_keys frame' = frame_keys frame
  | Err _ => exists error, vframe_begin frame child = Err error
  end.
Proof.
  destruct kind; simpl; try done.
  all: try (intros (previous & Hp & ->)); try (intros ->).
  all: unfold vframe_begin, position, len; simpl; try rewrite N.add_0_r.
  all: try (destruct (record_begin _ _ _) as [valid role]); simpl.
  all: try (destruct (Nat.even (length children)); simpl).
  all: repeat case_match; simplify_eq/=; eauto 6.
  all: eexists; split; [done|]; split; [|done]; eexists; split; [|reflexivity]; exact Hp.
Qed.

Lemma node_frame_atom view kind children frame atom :
  node_frame view false kind children frame ->
  match vframe_atom (position kind children) atom with
  | Ok _ => exists frame', vframe_atom frame atom = Ok frame' /\
      node_frame view false kind (children ++ [LeafTree atom]) frame' /\
      frame_keys frame' = frame_keys frame
  | Err _ => exists error, vframe_atom frame atom = Err error
  end.
Proof.
  destruct kind; simpl; try done.
  all: try (intros (previous & Hp & ->)); try (intros ->).
  all: unfold vframe_atom, position, len; simpl; rewrite ?N.add_0_r, ?length_app, ?Nat2N.inj_add; simpl.
  all: try (destruct (record_atom _ _ _)); simpl; eauto.
  all: try (destruct (Nat.even (length children)) eqn:He; simpl).
  all: repeat case_match; simplify_eq/=; eauto 6.
  all: eexists; split; [done|]; split; [|done]; rewrite Nat.even_add, He.
  all: eexists; split; [|reflexivity]; by apply map_previous_snoc.
Qed.

Lemma node_frame_finish view kind children frame :
  node_frame view false kind children frame ->
  vframe_finish frame = vframe_finish (position kind children) /\ vframe_kind frame = kind.
Proof.
  destruct kind; simpl; try done; rewrite ?N.add_0_r; try (by intros ->).
  by intros (previous & _ & ->).
Qed.

(** The end of a child completes what its beginning had counted. *)
Lemma node_frame_attach view kind children frame tree :
  (kind = KMap -> key_of tree = None) ->
  node_frame view true kind children frame -> node_frame view false kind (children ++ [tree]) frame.
Proof.
  intros Hk. destruct kind; simpl; try done; unfold len; rewrite length_app, ?Nat2N.inj_add;
    simpl; try (by rewrite N.add_0_r).
  intros (previous & Hp & ->). exists previous. rewrite map_previous_snoc by auto. split; [done|].
  rewrite Nat.even_add. by destruct (Nat.even (length children)).
Qed.

(** Changes to keys that a frame does not refer to. *)
Lemma node_frame_view view view' begun kind children frame :
  (forall id, id ∈ frame_keys frame -> view' !! id = view !! id) ->
  node_frame view begun kind children frame -> node_frame view' begun kind children frame.
Proof.
  intros Hv. destruct kind; simpl; try done. intros (previous & Hp & ->). exists previous.
  split; [|done]. destruct previous as [key|]; [|done]. simpl in *.
  destruct Hp as (bytes & ? & ? & ?). exists bytes. rewrite Hv by set_solver. done.
Qed.

Lemma begun_frames_view view view' opens frames :
  (forall id, id ∈ live_keys frames -> view' !! id = view !! id) ->
  Forall2 (begun_frame view) opens frames -> Forall2 (begun_frame view') opens frames.
Proof.
  intros Hv. induction 1 as [|[kind children|] frame opens frames Hf _ IH]; [constructor| |done].
  unfold live_keys in *. constructor.
  - eapply node_frame_view; [|exact Hf]. intros id Hid. apply Hv. set_solver.
  - apply IH. intros id Hid. apply Hv. set_solver.
Qed.

Lemma begun_frames_length view opens frames :
  Forall2 (begun_frame view) opens frames -> len frames = len opens.
Proof. intros H. unfold len. by rewrite (Forall2_length _ _ _ H). Qed.

Lemma open_frames_length view opens frames : open_frames_rel view opens frames -> len frames = len opens.
Proof.
  destruct opens as [|[kind children|kind role bytes] opens], frames as [|frame frames]; try done;
    intros [_ Hrest]; apply begun_frames_length in Hrest; unfold len in *; simpl; lia.
Qed.

(** Lengths only have to be bounded by what was read. *)
Lemma lengths_weaken view n n' :
  map_Forall (fun _ bytes => len bytes <= n) view -> n <= n' ->
  map_Forall (fun (_ : N) bytes => len bytes <= n') view.
Proof. intros H Hle id bytes Hid. specialize (H id bytes Hid). simpl in H. lia. Qed.

(** Steps that leave the keys alone. *)
Lemma follows_moves limit reading reading' v v' view n n' :
  follows limit reading v view n -> n <= n' ->
  v_failure v' = v_failure v -> v_max_frames v' = v_max_frames v -> v_next_key v' = v_next_key v ->
  live_keys (v_frames v') = live_keys (v_frames v) ->
  reading_frames view reading' v' -> shaped reading' n' -> follows limit reading' v' view n'.
Proof.
  intros [Hf Hl _ Hkeys Hnd (next & Hnext & Hle & Hall) Hlen _] Hn Hf' Hl' Hn' Hlive Hrel Hb.
  constructor; rewrite ?Hf', ?Hl', ?Hn', ?Hlive; try done.
  - exists next. by split_and!; [|lia|].
  - by eapply lengths_weaken.
Qed.

(** ** The transaction *)

Section transactions.
Context {K E : Type} `{!Workspace K E}.
Implicit Types (v : Validator) (keys : K).

Lemma advance_fresh v e :
  v_failure v = None ->
  validation_advance None (mkValidation v e ProgressFresh) =
    match validation_start (mkValidation v e ProgressFailed) with
    | Val step s => Val step s
    | Throw x s =>
        let '(error, v') := validator_fail x (vl_validator s) in
        Throw error (mkValidation v' (vl_event s) (vl_progress s))
    | Stop why => Stop why
    end.
Proof.
  intros Hf. unfold validation_advance, on_validator, validator_check, bind, gets. simpl. rewrite Hf.
  simpl. unfold attempt. destruct (validation_start _) as [step s|x s|why]; [done| |done].
  by destruct (validator_fail x (vl_validator s)).
Qed.

Lemma advance_pending v e pending completion :
  v_failure v = None ->
  validation_advance (Some completion) (mkValidation v e (ProgressPending pending)) =
    match validation_complete pending completion (mkValidation v e ProgressFailed) with
    | Val step s => Val step s
    | Throw x s =>
        let '(error, v') := validator_fail x (vl_validator s) in
        Throw error (mkValidation v' (vl_event s) (vl_progress s))
    | Stop why => Stop why
    end.
Proof.
  intros Hf. unfold validation_advance, on_validator, validator_check, bind, gets. simpl. rewrite Hf.
  simpl. unfold attempt. destruct (validation_complete _ _ _) as [step s|x s|why]; [done| |done].
  by destruct (validator_fail x (vl_validator s)).
Qed.

(** How a transaction may start. *)
Lemma drive_event_start v e keys :
  v_failure v = None -> v_document v <> DocumentComplete ->
  drive_event e v keys = drive 3 None (mkValidation v e ProgressFresh) keys.
Proof.
  intros Hf Hd. unfold drive_event, validator_begin, validator_check, bind, gets. rewrite Hf. simpl.
  by destruct (v_document v).
Qed.

Lemma drive_rejected v e keys x s :
  v_failure v = None -> v_document v <> DocumentComplete ->
  validation_start (mkValidation v e ProgressFailed) = Throw x s ->
  wp (drive_event e v) (fun _ _ => False) (fun x _ => exists error, x = DriveValidation error) keys.
Proof.
  intros Hf Hd Hs. unfold wp. rewrite drive_event_start by done. cbn [drive].
  rewrite advance_fresh, Hs by done. destruct (validator_fail x (vl_validator s)) as [error v'].
  by exists error.
Qed.

Lemma drive_accepted v v' e keys Q R :
  v_failure v = None -> v_document v <> DocumentComplete ->
  validation_start (mkValidation v e ProgressFailed) =
    Val StepAccepted (mkValidation v' e ProgressAccepted) ->
  Q v' keys -> wp (drive_event e v) Q R keys.
Proof.
  intros Hf Hd Hs HQ. unfold wp. rewrite drive_event_start by done. cbn [drive].
  by rewrite advance_fresh, Hs by done.
Qed.

(** A creation or release, which completes at once. *)
Lemma drive_effect v v' e keys effect pending (Q : Validator -> K -> Prop) R :
  v_failure v = None -> v_document v <> DocumentComplete -> v_failure v' = None ->
  validation_start (mkValidation v e ProgressFailed) =
    Val (StepEffect effect) (mkValidation v' e (ProgressPending pending)) ->
  pending = PendingCreate \/ pending = PendingRelease ->
  wp (ws_complete effect) (fun completion keys' => completion = KeyDone /\ Q v' keys')
    (fun _ _ => False) keys ->
  wp (drive_event e v) Q R keys.
Proof.
  intros Hf Hd Hf' Hs Hp Hc. unfold wp in *. rewrite drive_event_start by done. cbn [drive].
  rewrite advance_fresh, Hs by done. unfold bind at 1, attempt.
  destruct (ws_complete effect keys) as [completion keys'|x keys'|why]; [|done..].
  destruct Hc as [-> HQ]. cbn [drive]. rewrite advance_pending by done.
  by destruct Hp as [-> | ->].
Qed.
End transactions.

(** ** The validator follows the machine *)

Section following.
Context {K E : Type} `{!Workspace K E, !WorkspaceLaws K E}.
Implicit Types (v : Validator) (keys : K).

(** The key being read, and the key read last. *)
Definition top_key frames : option N :=
  match frames with FKey key :: _ => Some (key_id (kf_current key)) | _ => None end.
Definition current_key frames : option N :=
  match frames with
  | FKey key :: _ => Some (key_id (kf_current key))
  | FMap (Some key) _ :: _ => Some (key_id key)
  | _ => None
  end.

(** A key that has just been created is noted; otherwise another may be, and the key in a field
    keeps its place. *)
Definition noted (e : Event) frames v keys : Prop :=
  if decide (e = EBegin KKey)
  then exists key frames, v_frames v = FKey key :: frames /\ ws_noted keys (key_id (kf_current key))
  else ws_ready keys /\ (top_key frames = None \/ current_key (v_frames v) = top_key frames).

Lemma noted_other e frames v keys :
  e <> EBegin KKey -> ws_ready keys -> top_key frames = None -> noted e frames v keys.
Proof. intros He Hr Hk. unfold noted. rewrite decide_False by done. auto. Qed.

Lemma noted_key e frames v keys :
  e <> EBegin KKey -> ws_ready keys -> current_key (v_frames v) = top_key frames -> noted e frames v keys.
Proof. intros He Hr Hk. unfold noted. rewrite decide_False by done. auto. Qed.

Lemma node_top_key view begun kind children frame frames :
  node_frame view begun kind children frame -> top_key (frame :: frames) = None.
Proof. destruct kind; simpl; try done; try (by intros ->). by intros (previous & _ & ->). Qed.

Lemma field_top_key frame frames : frame_keys frame = [] -> top_key (frame :: frames) = None.
Proof. by destruct frame as [| | |[]|]. Qed.

Definition simulated (limit : option N) (reading : Reading) (e : Event) (n room : N) v keys : Prop :=
  match read limit reading e with
  | Some reading' =>
      wp (drive_event e v)
        (fun v' keys' => follows limit reading' v' (ws_view keys') (n + len (event_tokens e)) /\
           ws_can keys' room /\ noted e (v_frames v) v' keys')
        (fun _ _ => False) keys
  | None =>
      wp (drive_event e v) (fun _ _ => False)
        (fun x _ => exists error, x = DriveValidation error) keys
  end.

Lemma validator_push_eq frame v n :
  len (v_frames v) = n ->
  validator_push frame v =
    if below_limit (v_max_frames v) n then Val tt (set_frames (frame :: v_frames v) v)
    else Throw (FrameBudget (default 0 (v_max_frames v))) v.
Proof.
  intros <-. unfold validator_push, bind, gets, below_limit. simpl.
  destruct (v_max_frames v) as [limit|]; [|done].
  destruct (N.leb_spec limit (len (v_frames v))), (N.ltb_spec (len (v_frames v)) limit); try lia; done.
Qed.

(** Fresh frames. *)
Lemma vframe_new_rel view child role opens frames :
  child <> KKey -> Forall2 (begun_frame view) opens frames ->
  open_frames_rel view (open_new child role :: opens) (vframe_new child role :: frames) /\
  frame_keys (vframe_new child role) = [].
Proof.
  intros Hk Hrest. unfold open_new, vframe_new. destruct child; try done; simpl; (split; [|done]).
  all: try (split; [|done]); try done.
  - exists utf8_default, (identifier_new <$> role). split; [by exists []|]. by destruct role.
  - exists (identifier_new <$> role). by destruct role.
  - by exists None.
Qed.

Lemma read_document limit v keys n room kind :
  follows limit (Reads []) v (ws_view keys) n -> ws_ready keys -> ws_can keys room ->
  simulated limit (Reads []) (EBegin kind) n room v keys.
Proof.
  intros Hfol Hr Hc. pose proof Hfol as [Hf Hl [Hrel Hd] _ _ _ _ _]. unfold simulated, read.
  destruct (decide (kind = KDocument)) as [->|Hk].
  - destruct (below_limit limit 0) eqn:Hb; simpl.
    + eapply drive_accepted; [done|by rewrite Hd| |].
      * unfold validation_start, begin_record, bind, gets, on_validator. simpl. rewrite Hd. simpl.
        rewrite (validator_push_eq _ _ 0), Hl, Hb; [done|]. by apply open_frames_length in Hrel.
      * destruct (v_frames v) eqn:Hv; [|done]. split; [|split; [done|by apply noted_other]].
        eapply follows_moves; [exact Hfol|lia|done..| |done|]; [by rewrite Hv|].
        split; [by exists []|done].
    + eapply drive_rejected; [done|by rewrite Hd|].
      unfold validation_start, begin_record, bind, gets, on_validator. simpl. rewrite Hd. simpl.
      rewrite (validator_push_eq _ _ 0), Hl, Hb; [done|]. by apply open_frames_length in Hrel.
  - replace (match kind with KDocument => _ | _ => _ end) with (@None Reading) by by destruct kind.
    eapply drive_rejected; [done|by rewrite Hd|].
    unfold validation_start, begin_record, bind, gets. simpl. rewrite Hd.
    by rewrite decide_False by done.
Qed.

(** No record contains a document. *)
Lemma vframe_begin_child frame child role frame' :
  vframe_begin frame child = Ok (role, frame') -> child <> KDocument.
Proof.
  intros Hb ->. unfold vframe_begin in Hb. destruct frame as [kind next|kind| |previous []|]; try done.
  - destruct kind; simpl in Hb; repeat (case_match; simplify_eq/=); done.
  - by destruct kind.
Qed.

(** A key begins only in a map. *)
Lemma begin_key view kind children frame role frame' :
  node_frame view false kind children frame -> vframe_begin frame KKey = Ok (role, frame') ->
  kind = KMap /\ role = None /\ exists previous,
    map_previous view children previous /\ frame = FMap previous true /\ frame' = FMap previous false /\
    Nat.even (length children) = true.
Proof.
  destruct kind; simpl; try done; try (intros ->); unfold vframe_begin; simpl; try done.
  all: try (repeat case_match; by intros; simplify_eq/=).
  intros (previous & Hp & ->). destruct (Nat.even (length children)); simpl; [|done].
  intros [= <- <-]. eauto 10.
Qed.

Lemma follows_dead limit reading v view n id :
  follows limit reading v view n -> id ∉ live_keys (v_frames v) -> view !! id = None.
Proof. intros H Hid. apply not_elem_of_dom. rewrite (follows_keys _ _ _ _ _ H). set_solver. Qed.

Lemma read_begin_node limit v keys n room kind children opens child :
  follows limit (Reads (OpenNode kind children :: opens)) v (ws_view keys) n ->
  child <> KKey -> ws_ready keys -> ws_can keys room ->
  simulated limit (Reads (OpenNode kind children :: opens)) (EBegin child) n room v keys.
Proof.
  intros Hfol Hck Hr Hc. pose proof Hfol as [Hf Hl [Hrel Hd] _ _ _ _ [Hroot _]]. unfold simulated, read.
  destruct (v_frames v) as [|frame frames] eqn:Hv; [done|]. pose proof Hrel as [Hnode Hrest].
  pose proof (node_frame_begin _ _ _ _ child Hnode) as Hb.
  destruct (vframe_begin (position kind children) child) as [[role pos]|error].
  - destruct Hb as (frame' & Hb & Hnode' & Hkeys').
    set (v1 := set_frames (frame' :: frames) v).
    assert (len (frame' :: frames) = len opens + 1) as Hlen1
      by (apply begun_frames_length in Hrest; unfold len in *; simpl; lia).
    assert (forall e, begin_record child (mkValidation v e ProgressFailed) =
      if below_limit limit (len opens + 1)
      then Val StepAccepted (mkValidation (set_frames (vframe_new child role :: frame' :: frames) v) e ProgressAccepted)
      else Throw (FrameBudget (default 0 limit)) (mkValidation v1 e ProgressFailed)) as Hstart.
    { intros e. unfold begin_record, bind, open_frames, replace_frames, gets, on_validator, modify. simpl.
      rewrite Hd. simpl. rewrite Hv. simpl. rewrite Hb. simpl. rewrite decide_False by done.
      rewrite (validator_push_eq _ _ (len opens + 1)) by done. cbn [set_frames v_max_frames vl_validator]. rewrite Hl.
      by destruct (below_limit limit (len opens + 1)). }
    destruct (below_limit limit (len opens + 1)) eqn:Hbl; simpl.
    + destruct (vframe_new_rel (ws_view keys) child role (OpenNode kind children :: opens)
        (frame' :: frames)) as [Hnew Hnk]; [done|by constructor|].
      eapply drive_accepted; [done|by rewrite Hd|apply Hstart|]. split; [|split; [done|]].
      * eapply follows_moves; [exact Hfol|lia|done..| |done|].
        { rewrite Hv. unfold live_keys. cbn. by rewrite Hnk, Hkeys'. }
        split; [apply rooted_open; [|done]|unfold open_new; destruct (is_data child); [apply N.le_0_l|done]].
        apply vframe_begin_child in Hb. unfold open_new. by destruct (is_data child).
      * apply noted_other; [naive_solver|done|]. by eapply node_top_key.
    + eapply drive_rejected; [done|by rewrite Hd|apply Hstart].
  - destruct Hb as (error' & Hb). eapply drive_rejected; [done|by rewrite Hd|].
    unfold validation_start, begin_record, bind, open_frames, gets. simpl. rewrite Hd. simpl.
    rewrite Hv. simpl. by rewrite Hb.
Qed.

(** The validator that has begun a key, with its workspace. *)
Lemma follows_created limit children opens v v' frames previous next view n :
  follows limit (Reads (OpenNode KMap children :: opens)) v view n ->
  v_frames v = FMap previous true :: frames -> v_next_key v = Some next ->
  Nat.even (length children) = true -> map_previous view children previous ->
  v_failure v' = None -> v_max_frames v' = limit -> v_document v' = DocumentOpen ->
  v_next_key v' = Some (next + 1) ->
  v_frames v' = FKey (mkKeyFrame (mkKey next 0) previous Eq utf8_default) :: FMap previous false :: frames ->
  follows limit (Reads (OpenData KKey None [] :: OpenNode KMap children :: opens)) v'
    (<[next := []]> view) (n + 1).
Proof.
  intros [Hf Hl [Hrel Hd] Hkeys Hnd (next' & Hnext & Hle & Hall) Hlen [Hroot _]] Hv Hn Heven Hp Hf' Hl' Hd' Hn' Hv'.
  rewrite Hn in Hnext. injection Hnext as <-. rewrite Hv in *. destruct Hrel as [_ Hrest].
  assert (next ∉ live_keys (FMap previous true :: frames)) as Hdead.
  { intros Hin. rewrite list.Forall_forall in Hall. specialize (Hall next Hin). simpl in Hall. lia. }
  assert (Forall2 (begun_frame (<[next:=[]]> view)) (OpenNode KMap children :: opens)
    (FMap previous false :: frames)) as Hbegun.
  { apply (begun_frames_view view).
    - intros id Hid. apply lookup_insert_ne. intros <-. by apply Hdead.
    - constructor; [|done]. exists previous. by rewrite Heven. }
  constructor; rewrite ?Hf', ?Hl', ?Hn', ?Hv'; try done.
  - split; [|done]. rewrite Hv'. split; [|done]. split; [done|].
    assert (key_order (last_key_of children) [] = Eq) as Horder
      by (unfold key_order; by destruct (last_key_of children)).
    exists next, utf8_default, previous, false, frames. unfold previous_key. rewrite Horder.
    split_and!; [done|by rewrite lookup_insert_eq|by exists []|done..].
  - rewrite dom_insert_L, Hkeys. done.
  - constructor; [exact Hdead|exact Hnd].
  - exists (next + 1). split_and!; [done|lia|]. constructor; [simpl; lia|].
    eapply list.Forall_impl; [exact Hall|]. simpl. intros. lia.
  - apply map_Forall_insert_2; [apply N.le_0_l|]. eapply lengths_weaken; [exact Hlen|lia].
  - split; [by apply rooted_open|apply N.le_0_l].
Qed.

Lemma read_begin_key limit v keys n room kind children opens :
  follows limit (Reads (OpenNode kind children :: opens)) v (ws_view keys) n ->
  n + 1 <= u64_max -> ws_ready keys -> ws_can keys room ->
  simulated limit (Reads (OpenNode kind children :: opens)) (EBegin KKey) n room v keys.
Proof.
  intros Hfol Hmax Hr Hc. pose proof Hfol as [Hf Hl [Hrel Hd] Hkeys Hnd (next & Hnext & Hle & Hall) Hlen _].
  unfold simulated, read. destruct (v_frames v) as [|frame frames] eqn:Hv; [done|].
  pose proof Hrel as [Hnode Hrest]. pose proof (node_frame_begin _ _ _ _ KKey Hnode) as Hb.
  destruct (vframe_begin (position kind children) KKey) as [[role pos]|error]; cycle 1.
  { destruct Hb as (error' & Hb). eapply drive_rejected; [done|by rewrite Hd|].
    unfold validation_start, begin_record, bind, open_frames, gets. simpl. rewrite Hd. simpl.
    rewrite Hv. simpl. by rewrite Hb. }
  destruct Hb as (frame' & Hb & Hnode' & Hkeys').
  destruct (begin_key _ _ _ _ _ _ Hnode Hb) as (-> & -> & previous & Hp & -> & -> & Heven).
  assert (len (FMap previous false :: frames) = len opens + 1) as Hlen1
    by (apply begun_frames_length in Hrest; unfold len in *; simpl; lia).
  set (key := FKey (mkKeyFrame (mkKey next 0) previous Eq utf8_default)).
  set (v1 := mkValidator (FMap previous false :: frames) limit (Some (next + 1)) DocumentOpen None).
  assert (forall e, begin_record KKey (mkValidation v e ProgressFailed) =
    if below_limit limit (len opens + 1)
    then Val (StepEffect (KeyCreate next))
           (mkValidation (set_frames (key :: FMap previous false :: frames) v1) e
              (ProgressPending PendingCreate))
    else Throw (FrameBudget (default 0 limit)) (mkValidation v1 e ProgressFailed)) as Hstart.
  { intros e. unfold begin_record, validator_key_id, require, bind, open_frames, replace_frames, gets,
      on_validator, modify. simpl. rewrite Hd. simpl. rewrite Hv. simpl.
    rewrite Hnext. simpl. unfold checked_add. rewrite (proj2 (N.leb_le (next + 1) u64_max)) by lia.
    rewrite (validator_push_eq _ _ (len opens + 1)) by done.
    cbn [set_frames v_max_frames vl_validator v_document v_failure]. rewrite Hl, Hd, Hf.
    by destruct (below_limit limit (len opens + 1)). }
  destruct (below_limit limit (len opens + 1)); simpl;
    [|by eapply drive_rejected; [done|by rewrite Hd|apply Hstart]].
  eapply drive_effect; [done|by rewrite Hd| |apply Hstart|by left|]; [done|].
  apply wp_bind. eapply wp_mono; [apply (ws_create_law keys next room); [|done..]| |done].
  { eapply follows_dead; [exact Hfol|]. rewrite Hv. intros Hin. rewrite list.Forall_forall in Hall.
    specialize (Hall next Hin). simpl in Hall. lia. }
  intros [] keys' (Hview & Hcan & Hnote). split; [done|]. split; [|split; [done|]].
  - rewrite Hview. by eapply follows_created.
  - unfold noted. rewrite decide_True by done. by exists (mkKeyFrame (mkKey next 0) previous Eq utf8_default), (FMap previous false :: frames).
Qed.

Lemma read_atom limit v keys n room kind children opens atom :
  follows limit (Reads (OpenNode kind children :: opens)) v (ws_view keys) n ->
  ws_ready keys -> ws_can keys room ->
  simulated limit (Reads (OpenNode kind children :: opens)) (EAtom atom) n room v keys.
Proof.
  intros Hfol Hr Hc. pose proof Hfol as [Hf Hl [Hrel Hd] _ _ _ _ [Hroot _]]. unfold simulated, read.
  destruct (v_frames v) as [|frame frames] eqn:Hv; [done|]. destruct Hrel as [Hnode Hrest].
  pose proof (node_frame_atom _ _ _ _ atom Hnode) as Ha.
  destruct (vframe_atom (position kind children) atom) as [pos|error]; simpl.
  - destruct Ha as (frame' & Ha & Hnode' & Hkeys').
    eapply (drive_accepted _ (set_frames (frame' :: frames) v)); [done|by rewrite Hd| |].
    + unfold validation_start, bind, open_frames, gets. simpl. rewrite Hv. simpl. by rewrite Ha.
    + split; [|split; [done|apply noted_other; [done..|by eapply node_top_key]]].
      eapply follows_moves; [exact Hfol|lia|done..| |done|].
      * rewrite Hv. unfold live_keys. cbn. by rewrite Hkeys'.
      * split; [by eapply rooted_attach|done].
  - destruct Ha as (error' & Ha). eapply drive_rejected; [done|by rewrite Hd|].
    unfold validation_start, bind, open_frames, gets. simpl. rewrite Hv. simpl. by rewrite Ha.
Qed.

(** *** Ends *)

(** The parent of what has ended, or the end of the document. *)
Lemma attach_begun view tree opens frames :
  key_of tree = None -> Forall2 (begun_frame view) opens frames ->
  match opens with
  | [] => attach tree opens = Some (Read tree) /\ frames = []
  | _ => exists opens', attach tree opens = Some (Reads opens') /\
      open_frames_rel view opens' frames /\ (rooted opens -> rooted opens') /\
      match opens' with OpenNode _ _ :: _ => True | _ => False end
  end.
Proof.
  intros Hk Hrest. destruct Hrest as [|[kind children|] frame opens frames Hnode Hrest]; [done| |done].
  eexists. split; [done|]. split; [|by split; [apply rooted_attach|]].
  split; [|done]. by apply node_frame_attach.
Qed.

(** The validator after the end of a record. *)
Definition ended (kind : Kind) frames v : Validator :=
  if decide (kind = KDocument) then set_document DocumentComplete (set_frames frames v)
  else set_frames frames v.

Lemma follows_ended limit open opens v frame frames tree view view' n :
  follows limit (Reads (open :: opens)) v view n ->
  v_frames v = frame :: frames -> Forall2 (begun_frame view') opens frames ->
  key_of tree = None -> dom view' = list_to_set (live_keys frames) -> view' ⊆ view ->
  exists reading', attach tree opens = Some reading' /\
    follows limit reading' (ended (open_kind open) frames v) view' (n + 1).
Proof.
  intros [Hf Hl [_ Hd] _ Hnd (next & Hnext & Hle & Hall) Hlen [Hroot _]] Hv Hrest Hk Hdom Hsub.
  rewrite Hv in Hnd, Hall. unfold live_keys in Hnd, Hall. cbn in Hnd, Hall.
  apply NoDup_app in Hnd as (_ & _ & Hnd). apply list.Forall_app in Hall as [_ Hall].
  assert (map_Forall (fun _ bytes => len bytes <= n + 1) view') as Hlen'.
  { intros id bytes Hid. eapply lookup_weaken in Hid; [|exact Hsub].
    specialize (Hlen id bytes Hid). simpl in Hlen. lia. }
  apply rooted_tail in Hroot. pose proof (attach_begun view' tree opens frames Hk Hrest) as Ha.
  destruct opens as [|open' opens'].
  - destruct Ha as [Ha ->], Hroot as [children ->]. exists (Read tree). split; [done|].
    constructor; simpl; try done. exists next. by split_and!; [|lia|].
  - destruct Ha as (opens & -> & Hrel & Hroot' & Htop), Hroot as [Hkind Hroot]. exists (Reads opens).
    split; [done|]. unfold ended. rewrite decide_False by done.
    constructor; cbn [set_frames v_failure v_max_frames v_frames v_next_key]; try done.
    + split; [done|]. simpl. rewrite Hd. by destruct opens.
    + exists next. by split_and!; [|lia|].
    + destruct opens as [|[] opens]; [done| |done]. split; [auto|done].
Qed.

(** An end that releases nothing. *)
Lemma read_end_plain limit open opens v keys n room frame frames tree :
  follows limit (Reads (open :: opens)) v (ws_view keys) n -> ws_ready keys -> ws_can keys room ->
  v_frames v = frame :: frames -> Forall2 (begun_frame (ws_view keys)) opens frames ->
  vframe_kind frame = open_kind open -> vframe_finish frame = Ok tt -> frame_keys frame = [] ->
  key_of tree = None ->
  exists reading', attach tree opens = Some reading' /\
    wp (drive_event (EEnd (open_kind open)) v)
      (fun v' keys' => follows limit reading' v' (ws_view keys') (n + 1) /\
         ws_can keys' room /\ noted (EEnd (open_kind open)) (v_frames v) v' keys')
      (fun _ _ => False) keys.
Proof.
  intros Hfol Hr Hc Hv Hrest Hkind Hfin Hkeys Htree.
  pose proof Hfol as [Hf _ [_ Hd] Hdom _ _ _ _].
  destruct (follows_ended _ _ _ _ _ _ tree _ _ _ Hfol Hv Hrest Htree) as (reading' & Ha & Hfol'); [|done|].
  { rewrite Hdom, Hv. unfold live_keys. cbn. by rewrite Hkeys. }
  exists reading'. split; [done|].
  eapply (drive_accepted _ (ended (open_kind open) frames v)); [done|by rewrite Hd| |].
  - unfold validation_start, end_record, bind, open_frames, replace_frames, gets, on_validator, modify.
    simpl. rewrite Hv. simpl. rewrite decide_True by done. rewrite Hfin. simpl.
    destruct frame as [| | |[key|] expects|key]; try done; simpl in *; try (by unfold ended; case_decide).
  - split; [done|]. split; [done|]. apply noted_other; [done..|]. rewrite Hv. by apply field_top_key.
Qed.

(** The end of a map that has keys. *)
Lemma read_end_map limit children opens v keys n room key frames :
  follows limit (Reads (OpenNode KMap children :: opens)) v (ws_view keys) n ->
  ws_ready keys -> ws_can keys room -> v_frames v = FMap (Some key) true :: frames ->
  Forall2 (begun_frame (ws_view keys)) opens frames ->
  exists reading', attach (NodeTree KMap children) opens = Some reading' /\
    wp (drive_event (EEnd KMap) v)
      (fun v' keys' => follows limit reading' v' (ws_view keys') (n + 1) /\
         ws_can keys' room /\ noted (EEnd KMap) (v_frames v) v' keys')
      (fun _ _ => False) keys.
Proof.
  intros Hfol Hr Hc Hv Hrest. pose proof Hfol as [Hf _ [_ Hd] Hdom Hnd _ _ _].
  rewrite Hv in Hdom, Hnd. unfold live_keys in Hdom, Hnd. cbn in Hdom, Hnd.
  apply NoDup_cons in Hnd as [Hdead _].
  set (view' := delete (key_id key) (ws_view keys)).
  destruct (follows_ended _ _ _ _ _ _ (NodeTree KMap children) _ view' _ Hfol Hv) as (reading' & Ha & Hfol').
  { eapply begun_frames_view; [|exact Hrest]. intros id Hid. apply lookup_delete_ne. intros <-. done. }
  { done. }
  { unfold view'. rewrite dom_delete_L, Hdom. unfold live_keys. set_solver. }
  { apply delete_subseteq. }
  exists reading'. split; [done|].
  eapply (drive_effect _ (set_frames frames v)); [done|by rewrite Hd|done| |by right|].
  - unfold validation_start, end_record, bind, open_frames, replace_frames, gets, on_validator, modify.
    simpl. by rewrite Hv.
  - apply wp_bind. eapply wp_mono; [apply (ws_release_law keys (key_id key) room); [|done]| |done].
    { apply elem_of_dom. rewrite Hdom. set_solver. }
    intros [] keys' (Hview & Hcan & Hready). split; [done|]. rewrite Hview. split; [done|].
    split; [done|]. apply noted_other; [done|by apply Hready|by rewrite Hv].
Qed.

Lemma read_end_node limit v keys n room kind children opens ending :
  follows limit (Reads (OpenNode kind children :: opens)) v (ws_view keys) n ->
  ws_ready keys -> ws_can keys room ->
  simulated limit (Reads (OpenNode kind children :: opens)) (EEnd ending) n room v keys.
Proof.
  intros Hfol Hr Hc. pose proof Hfol as [Hf Hl [Hrel Hd] _ _ _ _ _]. unfold simulated, read.
  destruct (v_frames v) as [|frame frames] eqn:Hv; [done|]. destruct Hrel as [Hnode Hrest].
  destruct (node_frame_finish _ _ _ _ Hnode) as [Hfin Hkind]. rewrite <- Hfin.
  destruct (decide (kind = ending)) as [<-|Hne]; cycle 1.
  { rewrite option_guard_False by naive_solver. eapply drive_rejected; [done|by rewrite Hd|].
    unfold validation_start, end_record, bind, open_frames, gets. simpl. rewrite Hv. simpl.
    by rewrite decide_False by congruence. }
  destruct (vframe_finish frame) as [[]|error] eqn:Hf'; cycle 1.
  { rewrite option_guard_False by naive_solver. eapply drive_rejected; [done|by rewrite Hd|].
    unfold validation_start, end_record, bind, open_frames, gets. simpl. rewrite Hv. simpl.
    rewrite decide_True by done. by rewrite Hf'. }
  rewrite option_guard_True by done.
  destruct (frame_keys frame) as [|id ids] eqn:Hkeys.
  - destruct (read_end_plain limit (OpenNode kind children) opens v keys n room frame frames
      (NodeTree kind children)) as (reading' & Ha & Hwp); try done. simpl in Hwp. rewrite Hv in Hwp. by rewrite Ha.
  - destruct kind; simpl in Hnode; try done; try (by rewrite Hnode in Hkeys).
    destruct Hnode as (previous & Hp & ->). destruct previous as [key|]; [|done].
    simpl in Hf'. destruct (Nat.even (length children)); [|done].
    destruct (read_end_map limit children opens v keys n room key frames) as (reading' & Ha & Hwp); try done.
    rewrite Hv in Hwp. simpl in Hwp. by rewrite Ha.
Qed.

(** *** Ends of fields *)

Lemma text_cmp_take a b : then_with (text_cmp (take (length b) a) b) (len a ?= len b) = text_cmp a b.
Proof.
  revert b. induction a as [|x a IH]; intros [|y b]; try done. cbn [length take text_cmp].
  destruct (code x ?= code y) eqn:Hc; [|done..].
  replace (len (x :: a) ?= len (y :: b)) with (len a ?= len b); [apply IH|].
  unfold len. cbn [length]. rewrite !Nat2N.inj_succ.
  by destruct (N.compare_spec (N.of_nat (length a)) (N.of_nat (length b))), (N.compare_spec
    (N.succ (N.of_nat (length a))) (N.succ (N.of_nat (length b)))); try lia.
Qed.

Lemma validate_role kind bytes identifier :
  push_bytes (identifier_new kind) bytes = (identifier, Ok tt) ->
  validate_identifier bytes kind = identifier_finish identifier.
Proof. intros H. unfold validate_identifier, identifier_push. simpl. by rewrite H. Qed.

Lemma utf8_field_finish bytes utf8 :
  utf8_field bytes utf8 -> utf8_finish utf8 = if is_utf8 bytes then Ok tt else Err Utf8Error.
Proof.
  intros (e & Hrun & Hat). rewrite (utf8_finish_spec _ _ Hat). pose proof (is_utf8_run bytes) as Hi.
  rewrite Hrun in Hi. destruct (is_utf8 bytes); case_decide; naive_solver.
Qed.

(** Fields finish exactly when they are complete. *)
Lemma field_finish view kind role bytes opens frames frame :
  data_frame view kind role bytes opens frames frame -> kind <> KKey ->
  vframe_kind frame = kind /\ frame_keys frame = [] /\
  is_ok (vframe_finish frame) = data_complete kind role None bytes.
Proof.
  intros Hframe Hk.
  assert (forall identifier, role_run role bytes = Some identifier ->
    is_ok (match identifier with
           | Some identifier => match identifier_finish identifier with Ok _ => Ok tt | Err _ => Err PathIdentifier end
           | None => Ok tt
           end) = match role with Some kind => is_ok (validate_identifier bytes kind) | None => true end) as Hrole.
  { intros identifier Hr. destruct role as [rk|]; simpl in Hr; [|by simplify_eq].
    destruct (push_bytes (identifier_new rk) bytes) as [self [[]|]] eqn:Hp; simplify_eq.
    rewrite (validate_role _ _ _ Hp). by destruct (identifier_finish self). }
  unfold data_complete. destruct kind; try done; simpl in Hframe.
  - destruct Hframe as (utf8 & identifier & Hu & Hi & ->). split; [done|]. split; [done|].
    unfold vframe_finish. rewrite (utf8_field_finish _ _ Hu). specialize (Hrole _ Hi).
    destruct (is_utf8 bytes); simpl; [|done]. rewrite andb_true_r, <- Hrole.
    by destruct identifier as [identifier|]; [destruct (identifier_finish identifier)|].
  - destruct Hframe as (identifier & Hi & ->). split; [done|]. split; [done|]. simpl.
    specialize (Hrole _ Hi). rewrite andb_true_r, <- Hrole. unfold vframe_finish.
    by destruct identifier as [identifier|]; [destruct (identifier_finish identifier)|].
Qed.

Lemma read_end_field limit v keys n room kind role bytes opens ending :
  follows limit (Reads (OpenData kind role bytes :: opens)) v (ws_view keys) n ->
  kind <> KKey -> ws_ready keys -> ws_can keys room ->
  simulated limit (Reads (OpenData kind role bytes :: opens)) (EEnd ending) n room v keys.
Proof.
  intros Hfol Hk Hr Hc. pose proof Hfol as [Hf Hl [Hrel Hd] _ _ _ _ _]. unfold simulated, read.
  destruct (v_frames v) as [|frame frames] eqn:Hv; [done|]. destruct Hrel as [Hdata Hrest].
  destruct (field_finish _ _ _ _ _ _ _ Hdata Hk) as (Hkind & Hkeys & Hfin).
  replace (previous_key kind opens) with (@None text) by by destruct kind.
  destruct (decide (kind = ending)) as [<-|Hne]; cycle 1.
  { rewrite option_guard_False by naive_solver. eapply drive_rejected; [done|by rewrite Hd|].
    unfold validation_start, end_record, bind, open_frames, gets. simpl. rewrite Hv. simpl.
    by rewrite decide_False by congruence. }
  rewrite <- Hfin. destruct (vframe_finish frame) as [[]|error] eqn:Hf'; cycle 1.
  { rewrite option_guard_False by naive_solver. eapply drive_rejected; [done|by rewrite Hd|].
    unfold validation_start, end_record, bind, open_frames, gets. simpl. rewrite Hv. simpl.
    rewrite decide_True by done. by rewrite Hf'. }
  rewrite option_guard_True by done.
  destruct (read_end_plain limit (OpenData kind role bytes) opens v keys n room frame frames
    (DataTree kind bytes)) as (reading' & Ha & Hwp); try done; [by destruct kind|].
  simpl in Hwp. rewrite Hv in Hwp. by rewrite Ha.
Qed.

(** A key and the map that it is in. *)
Lemma key_parent view role bytes opens frames frame :
  data_frame view KKey role bytes opens frames frame -> Forall2 (begun_frame view) opens frames ->
  role = None /\ exists id utf8 previous children opens' frames',
    opens = OpenNode KMap children :: opens' /\
    frames = FMap previous (negb (Nat.even (length children))) :: frames' /\
    map_previous view children previous /\ Forall2 (begun_frame view) opens' frames' /\
    view !! id = Some bytes /\ utf8_field bytes utf8 /\ key_order (last_key_of children) bytes <> Gt /\
    frame = FKey (mkKeyFrame (mkKey id (len bytes)) previous (key_order (last_key_of children) bytes) utf8).
Proof.
  intros (-> & id & utf8 & previous & expects & frames' & -> & Hid & Hu & Ho & ->) Hrest. split; [done|].
  apply Forall2_cons_inv_r in Hrest as (open & opens' & Hbegun & Hrest & ->).
  destruct open as [kind children|]; [|done]. destruct kind; simpl in Hbegun; try done.
  destruct Hbegun as (previous' & Hp & [= <- ->]). by exists id, utf8, previous, children, opens', frames'.
Qed.

Lemma key_finish view children previous id utf8 bytes :
  map_previous view children previous -> utf8_field bytes utf8 ->
  is_ok (vframe_finish (FKey (mkKeyFrame (mkKey id (len bytes)) previous
    (key_order (last_key_of children) bytes) utf8))) =
  data_complete KKey None (last_key_of children) bytes.
Proof.
  intros Hp Hu. unfold vframe_finish, data_complete. cbn [kf_utf8 kf_previous kf_order kf_current].
  rewrite (utf8_field_finish _ _ Hu). destruct (is_utf8 bytes); [|done].
  destruct previous as [key|]; simpl in Hp; [|by rewrite Hp].
  destruct Hp as (stored & -> & _ & ->). cbn [result_bind key_order key_length].
  rewrite text_cmp_take. unfold text_leb. rewrite (text_cmp_antisym stored bytes). simpl.
  by destruct (text_cmp stored bytes).
Qed.

(** The end of a key makes it the last one of its map. *)
Lemma follows_key_ended limit children bytes role opens v n view id utf8 previous order frames :
  follows limit (Reads (OpenData KKey role bytes :: OpenNode KMap children :: opens)) v view n ->
  v_frames v = FKey (mkKeyFrame (mkKey id (len bytes)) previous order utf8) ::
    FMap previous (negb (Nat.even (length children))) :: frames ->
  Forall2 (begun_frame view) opens frames -> view !! id = Some bytes ->
  follows limit (Reads (OpenNode KMap (children ++ [DataTree KKey bytes]) :: opens))
    (set_frames (FMap (Some (mkKey id (len bytes))) (negb (Nat.even (length children))) :: frames) v)
    (from_option (fun key => delete (key_id key) view) view previous) (n + 1).
Proof.
  intros [Hf Hl [_ Hd] Hdom Hnd (next & Hnext & Hle & Hall) Hlen [Hroot _]] Hv Hrest Hid.
  rewrite Hv in Hdom, Hnd, Hall. unfold live_keys in Hdom, Hnd, Hall. cbn in Hdom, Hnd, Hall.
  set (view' := from_option (fun key => delete (key_id key) view) view previous).
  assert (view' ⊆ view) as Hsub by (destruct previous; [apply delete_subseteq|done]).
  assert (forall i, i ∈ id :: live_keys frames -> view' !! i = view !! i) as Hkept.
  { intros i Hi. destruct previous as [key|]; [|done]. simpl. apply lookup_delete_ne. intros <-.
    unfold live_keys in Hi. apply NoDup_cons in Hnd as [Hn1 Hnd]. simpl in *.
    apply NoDup_cons in Hnd as [Hn2 _]. apply elem_of_cons in Hi as [Hi|Hi]; set_solver. }
  apply rooted_tail in Hroot as [_ Hroot].
  constructor; cbn [set_frames v_failure v_max_frames v_frames v_next_key]; try done.
  - split; [|done]. split.
    + exists (Some (mkKey id (len bytes))). split; [|by rewrite length_app, Nat.even_add; destruct (Nat.even _)].
      exists bytes. rewrite last_key_snoc, Hkept by set_solver. done.
    + eapply begun_frames_view; [|exact Hrest]. intros i Hi. apply Hkept. set_solver.
  - unfold live_keys. cbn. destruct previous as [key|]; simpl in *; [|done].
    unfold view'. simpl. rewrite dom_delete_L, Hdom. apply NoDup_cons in Hnd as [Hn1 Hnd].
    apply NoDup_cons in Hnd as [Hn2 _]. unfold live_keys in *. set_solver.
  - unfold live_keys. cbn. destruct previous as [key|]; simpl in *; [|done].
    apply NoDup_cons in Hnd as [Hn1 Hnd]. apply NoDup_cons in Hnd as [Hn2 Hnd]. constructor; [set_solver|done].
  - exists next. split_and!; [done|lia|]. unfold live_keys. cbn. apply list.Forall_cons in Hall as [? Hall].
    constructor; [done|]. by destruct previous as [key|]; simpl in *; [apply list.Forall_cons in Hall as [_ ?]|].
  - intros i stored Hi. eapply lookup_weaken in Hi; [|exact Hsub]. specialize (Hlen i stored Hi).
    simpl in Hlen. lia.
  - split; [by eapply rooted_attach|done].
Qed.

Lemma read_end_key limit v keys n room role bytes opens ending :
  follows limit (Reads (OpenData KKey role bytes :: opens)) v (ws_view keys) n ->
  ws_ready keys -> ws_can keys room ->
  simulated limit (Reads (OpenData KKey role bytes :: opens)) (EEnd ending) n room v keys.
Proof.
  intros Hfol Hr Hc. pose proof Hfol as [Hf Hl [Hrel Hd] Hdom _ _ _ _]. unfold simulated, read.
  destruct (v_frames v) as [|frame frames] eqn:Hv; [done|]. destruct Hrel as [Hdata Hrest].
  destruct (key_parent _ _ _ _ _ _ Hdata Hrest)
    as (-> & id & utf8 & previous & children & opens' & frames' & -> & -> & Hp & Hrest' & Hid & Hu & _ & ->).
  change (previous_key KKey (OpenNode KMap children :: opens')) with (last_key_of children).
  pose proof (key_finish (ws_view keys) children previous id utf8 bytes Hp Hu) as Hfin.
  destruct (decide (KKey = ending)) as [<-|Hne]; cycle 1.
  { rewrite option_guard_False by naive_solver. eapply drive_rejected; [done|by rewrite Hd|].
    unfold validation_start, end_record, bind, open_frames, gets. simpl. rewrite Hv. simpl.
    by rewrite decide_False by congruence. }
  rewrite <- Hfin. destruct (vframe_finish _) as [[]|error] eqn:Hf'; cycle 1.
  { rewrite option_guard_False by naive_solver. eapply drive_rejected; [done|by rewrite Hd|].
    unfold validation_start, end_record, bind, open_frames, gets. cbn [vl_event vl_validator].
    rewrite Hv. cbv beta iota. rewrite decide_True by done. by rewrite Hf'. }
  rewrite option_guard_True by done. simpl.
  pose proof (follows_key_ended _ _ _ _ _ _ _ _ _ _ _ _ _ Hfol Hv Hrest' Hid) as Hended.
  set (v' := set_frames (FMap (Some (mkKey id (len bytes))) (negb (Nat.even (length children))) :: frames') v).
  assert (forall e, end_record KKey (mkValidation v e ProgressFailed) =
    match previous with
    | Some key => validation_effect (KeyRelease (key_id key)) PendingRelease
    | None => validation_accepted
    end (mkValidation v' e ProgressFailed)) as Hstart.
  { intros e. unfold end_record, bind at 1, open_frames, gets. cbn [vl_validator]. rewrite Hv.
    cbv beta iota. rewrite decide_True by done. rewrite Hf'. by destruct previous. }
  destruct previous as [key|].
  - eapply (drive_effect _ v'); [done|by rewrite Hd|done|apply Hstart|by right|].
    apply wp_bind. eapply wp_mono; [apply (ws_release_law keys (key_id key) room); [|done]| |done].
    { apply elem_of_dom. rewrite Hdom. unfold live_keys. set_solver. }
    intros [] keys' (Hview & Hcan & Hready). split; [done|]. rewrite Hview. split; [done|].
    split; [done|]. apply noted_key; [done|by apply Hready|done].
  - eapply (drive_accepted _ v'); [done|by rewrite Hd|apply Hstart|]. split; [done|].
    split; [done|]. by apply noted_key.
Qed.

(** *** Data *)

Lemma push_utf8_spec bytes more utf8 s :
  utf8_field bytes utf8 ->
  match utf8_run [] (bytes ++ more) with
  | Some _ => exists utf8', push_utf8 more utf8 s = Val utf8' s /\ utf8_field (bytes ++ more) utf8'
  | None => exists x, push_utf8 more utf8 s = Throw x s
  end.
Proof.
  intros (e & Hrun & Hat). pose proof (utf8_push_spec _ _ more Hat) as Hp. unfold utf8_pushed in Hp.
  unfold utf8_field. rewrite utf8_run_app, Hrun. simpl. unfold push_utf8.
  destruct (utf8_run e more) as [e'|].
  - destruct Hp as (utf8' & -> & Hat'). exists utf8'. split; [done|]. by exists e'.
  - destruct Hp as (utf8' & ->). by eexists.
Qed.

Lemma push_bytes_app self a b :
  push_bytes self (a ++ b) =
    match push_bytes self a with
    | (self', Ok _) => push_bytes self' b
    | (self', Err e) => (self', Err e)
    end.
Proof.
  revert self. induction a as [|x a IH]; intros self; simpl; [done|].
  destruct (accepts self x) as [valid wildcards]. destruct valid; simpl; [apply IH|done].
Qed.

Lemma push_bytes_valid self a self' :
  push_bytes self a = (self', Ok tt) -> id_invalid self' = id_invalid self.
Proof.
  revert self. induction a as [|x a IH]; intros self; simpl; [by intros [= ->]|].
  destruct (accepts self x) as [valid wildcards]. destruct valid; simpl; [|done].
  intros H. by apply IH in H.
Qed.

Lemma push_role_spec role bytes identifier more s :
  role_run role bytes = Some identifier ->
  match role_run role (bytes ++ more) with
  | Some identifier' => push_option (push_identifier more) identifier s = Val identifier' s
  | None => exists x, push_option (push_identifier more) identifier s = Throw x s
  end.
Proof.
  destruct role as [kind|]; simpl; [|by intros [= <-]]. rewrite push_bytes_app.
  destruct (push_bytes (identifier_new kind) bytes) as [self [[]|e]] eqn:Hp; [|done].
  intros [= <-]. apply push_bytes_valid in Hp. unfold push_option, push_identifier, bind, identifier_push.
  rewrite Hp. simpl. by destruct (push_bytes self more) as [self' [[]|e]]; [|eexists].
Qed.

(** The check of a field's text, if it is one. *)
Lemma push_text_spec kind bytes more utf8 s :
  kind = KString \/ kind = KBytes ->
  (if decide (kind = KString) then exists u, utf8 = Some u /\ utf8_field bytes u else utf8 = None) ->
  if bool_decide (kind = KBytes) || bool_decide (is_Some (utf8_run [] (bytes ++ more)))
  then exists utf8', push_option (push_utf8 more) utf8 s = Val utf8' s /\
    if decide (kind = KString) then exists u, utf8' = Some u /\ utf8_field (bytes ++ more) u
    else utf8' = None
  else exists x, push_option (push_utf8 more) utf8 s = Throw x s.
Proof.
  intros [-> | ->]; simpl; [|by intros ->; exists None]. intros (u & -> & Hu).
  pose proof (push_utf8_spec _ more _ s Hu) as Hp. unfold push_option, bind.
  destruct (utf8_run [] (bytes ++ more)) as [e|]; simpl.
  - destruct Hp as (u' & -> & Hu'). exists (Some u'). split; [done|]. by exists u'.
  - destruct Hp as (x & ->). by exists x.
Qed.

Lemma read_data_field limit v keys n room kind role bytes opens more :
  follows limit (Reads (OpenData kind role bytes :: opens)) v (ws_view keys) n ->
  kind <> KKey -> n + len more <= u64_max -> ws_ready keys -> ws_can keys room ->
  simulated limit (Reads (OpenData kind role bytes :: opens)) (EData more) n room v keys.
Proof.
  intros Hfol Hk Hmax Hr Hc. pose proof Hfol as [Hf Hl [Hrel Hd] _ _ _ _ [Hroot Hle]]. unfold simulated, read.
  destruct (v_frames v) as [|frame frames] eqn:Hv; [done|]. destruct Hrel as [Hdata Hrest].
  replace (previous_key kind opens) with (@None text) by by destruct kind.
  assert (exists utf8 identifier, (kind = KString \/ kind = KBytes) /\
    frame = FField kind (len bytes) utf8 identifier /\ role_run role bytes = Some identifier /\
    if decide (kind = KString) then exists u, utf8 = Some u /\ utf8_field bytes u else utf8 = None)
    as (utf8 & identifier & Hkind & -> & Hrole & Hu).
  { destruct kind; simpl in Hdata; try done.
    - destruct Hdata as (u & i & ? & ? & ->). exists (Some u), i. split_and!; [by left|done|done|by exists u].
    - destruct Hdata as (i & ? & ->). exists None, i. split_and!; [by right|done..]. }
  assert (len (event_tokens (EData more)) = len more) as -> by (unfold len; simpl; by rewrite length_fmap).
  assert (next_length (len bytes) (len more) = Ok (len (bytes ++ more))) as Hnext.
  { unfold next_length, checked_add. simpl in Hle. rewrite (proj2 (N.leb_le _ u64_max)) by lia. simpl.
    unfold len. rewrite length_app. f_equal. lia. }
  set (s := mkValidation v (EData more) ProgressFailed).
  pose proof (push_text_spec kind bytes more utf8 s Hkind Hu) as Htext.
  pose proof (push_role_spec role bytes identifier more s Hrole) as Hrole'.
  unfold data_open. destruct (bool_decide (kind = KBytes) || _); simpl; cycle 1.
  { destruct Htext as (x & Htext). eapply drive_rejected; [done|by rewrite Hd|].
    unfold validation_start, validation_data, bind, open_frames, gets. simpl. rewrite Hv, Hnext. simpl.
    fold s. by rewrite Htext. }
  destruct Htext as (utf8' & Htext & Hu'). destruct (role_run role (bytes ++ more)) as [identifier'|] eqn:Hrun; simpl; cycle 1.
  { destruct Hrole' as (x & Hrole'). eapply drive_rejected; [done|by rewrite Hd|].
    unfold validation_start, validation_data, bind, open_frames, gets. simpl. rewrite Hv, Hnext. simpl.
    fold s. by rewrite Htext, Hrole'. }
  eapply (drive_accepted _ (set_frames (FField kind (len (bytes ++ more)) utf8' identifier' :: frames) v));
    [done|by rewrite Hd| |].
  - unfold validation_start, validation_data, bind, open_frames, gets. simpl. rewrite Hv, Hnext. simpl.
    fold s. by rewrite Htext, Hrole'.
  - split; [|split; [done|by apply noted_other]].
    eapply follows_moves; [exact Hfol|lia|done..|by rewrite Hv| |].
    + split; [split; [|done]|done]. destruct Hkind as [-> | ->]; simpl in *.
      * destruct Hu' as (u & -> & Hu'). by exists u, identifier'.
      * subst utf8'. by exists identifier'.
    + split; [destruct opens; [by destruct Hroot|done]|]. unfold len in *. rewrite length_app. simpl in Hle. lia.
Qed.

(** *** Data of keys *)

Lemma text_cmp_app_l a b c : text_cmp (a ++ b) (a ++ c) = text_cmp b c.
Proof. induction a as [|x a IH]; [done|]. simpl. by rewrite N.compare_refl. Qed.

Lemma text_cmp_prefix p b m :
  text_cmp (take (length b) p) b = Lt -> text_cmp (take (length (b ++ m)) p) (b ++ m) = Lt.
Proof.
  revert p. induction b as [|y b IH]; intros p; [by destruct p|].
  destruct p as [|x p]; [done|]. cbn [length take text_cmp app].
  destruct (code x ?= code y); [apply IH|done..].
Qed.

Lemma text_cmp_eq_take p b : text_cmp (take (length b) p) b = Eq -> exists r, p = b ++ r.
Proof. intros H%text_cmp_eq. exists (drop (length b) p). by rewrite <- H at 1; rewrite take_drop. Qed.

(** A comparison within the common length settles the order. *)
Lemma text_cmp_common r m :
  let common := N.to_nat (N.min (len r) (len m)) in
  let order := text_cmp (take common r) (take common m) in
  text_cmp (take (length m) r) m =
    if bool_decide (order = Eq) && (len r <? len m) then Lt else order.
Proof.
  simpl. unfold len. rewrite <- Nat2N.inj_min, Nat2N.id. destruct (N.ltb_spec (N.of_nat (length r)) (N.of_nat (length m))).
  - rewrite Nat.min_l, take_ge, firstn_all by lia. rewrite andb_true_r. revert m H.
    induction r as [|x r IH]; intros [|y m] Hm; simpl in *; try lia; [done|].
    destruct (code x ?= code y); [|done..]. apply IH. lia.
  - rewrite Nat.min_r, andb_false_r by lia. by rewrite firstn_all.
Qed.

(** How the order of a key goes on. *)
Lemma key_order_app p b m :
  key_order (Some p) b <> Gt ->
  match key_order (Some p) b with
  | Eq => exists r, p = b ++ r /\
      let common := N.to_nat (N.min (len r) (len m)) in
      let order := text_cmp (take common r) (take common m) in
      key_order (Some p) (b ++ m) = if bool_decide (order = Eq) && (len r <? len m) then Lt else order
  | _ => key_order (Some p) (b ++ m) = Lt
  end.
Proof.
  unfold key_order. destruct (text_cmp (take (length b) p) b) eqn:Ho; intros Hgt; [|by apply text_cmp_prefix|done].
  destruct (text_cmp_eq_take p b Ho) as [r ->]. exists r. split; [done|]. cbv zeta.
  rewrite <- text_cmp_common, length_app, take_app_add. apply text_cmp_app_l.
Qed.

(** A fragment that is appended. *)
Lemma drive_append v e keys key rest next bytes more room fuel (Q : Validator -> K -> Prop) R :
  v_failure v = None -> v_frames v = FKey key :: rest ->
  ws_view keys !! key_id (kf_current key) = Some bytes -> key_length (kf_current key) = len bytes ->
  len (bytes ++ more) <= u64_max -> ws_can keys (len more + room) -> ws_ready keys ->
  (forall keys', ws_view keys' = <[key_id (kf_current key) := bytes ++ more]> (ws_view keys) ->
     ws_can keys' room -> ws_ready keys' ->
     Q (set_frames (FKey (mkKeyFrame (mkKey (key_id (kf_current key)) next) (kf_previous key)
                     (kf_order key) (kf_utf8 key)) :: rest) v) keys') ->
  wp (let* result := attempt (ws_complete
        (KeyAppend (key_id (kf_current key)) (key_length (kf_current key)) more)) in
      match result with
      | Ok completion =>
          drive (S fuel) (Some completion) (mkValidation v e (ProgressPending (PendingAppend next)))
      | Err error => throw (DriveWorkspace error)
      end)%comp Q R keys.
Proof.
  intros Hf Hv Hid Hlen Hmax Hcan Hr HQ. apply wp_bind, wp_attempt. simpl. apply wp_bind. rewrite Hlen.
  eapply wp_mono; [eapply (ws_append_law keys _ more bytes room); done| |done].
  intros [] keys' (Hview & Hcan' & Hready). unfold wp. simpl.
  rewrite advance_pending by done. unfold validation_complete, bind, open_frames, gets. simpl.
  rewrite Hv. simpl. apply HQ; auto.
Qed.

(** The frames of a key to which bytes were appended. *)
Lemma follows_key_data limit role bytes more children opens v n view id utf8 previous order frames :
  follows limit (Reads (OpenData KKey role bytes :: OpenNode KMap children :: opens)) v view n ->
  v_frames v = FKey (mkKeyFrame (mkKey id (len bytes)) previous order utf8) ::
    FMap previous (negb (Nat.even (length children))) :: frames ->
  forall utf8', utf8_field (bytes ++ more) utf8' ->
  key_order (last_key_of children) (bytes ++ more) <> Gt ->
  follows limit (Reads (OpenData KKey role (bytes ++ more) :: OpenNode KMap children :: opens))
    (set_frames (FKey (mkKeyFrame (mkKey id (len (bytes ++ more))) previous
                   (key_order (last_key_of children) (bytes ++ more)) utf8') ::
                 FMap previous (negb (Nat.even (length children))) :: frames) v)
    (<[id := bytes ++ more]> view) (n + len more).
Proof.
  intros Hfol Hv utf8' Hu Ho. pose proof Hfol as [Hf Hl [Hrel Hd] Hdom Hnd Hnext Hlen [Hroot Hle]].
  rewrite Hv in Hrel, Hdom, Hnd, Hnext. destruct Hrel as [Hdata Hrest].
  destruct Hdata as (-> & id' & u' & p' & x' & frames' & [= <- <- <-] & Hid & _ & _ & [= -> _]).
  assert (len (bytes ++ more) = len bytes + len more) as Hsum by (unfold len; rewrite length_app; lia).
  simpl in Hle. constructor; cbn [set_frames v_failure v_max_frames v_frames v_next_key]; try done.
  - split; [|done]. split.
    + split; [done|]. exists id', utf8', previous, (negb (Nat.even (length children))), frames.
      split_and!; try done. by rewrite lookup_insert_eq.
    + eapply begun_frames_view; [|exact Hrest]. intros i Hi. apply lookup_insert_ne. intros <-.
      by apply NoDup_cons in Hnd as [Hn _].
  - rewrite dom_insert_lookup_L by by eexists. done.
  - destruct Hnext as (next & ? & ? & ?). exists next. by split_and!; [|lia|].
  - apply map_Forall_insert_2; [lia|]. eapply lengths_weaken; [exact Hlen|lia].
  - split; [done|lia].
Qed.

(** The turns of a transaction. *)
Definition drive_on (fuel : nat) (effect : KeyEffect) (s : Validation) : comp K (DriveError E) Validator :=
  (let* result := attempt (ws_complete effect) in
   match result with
   | Ok completion => drive fuel (Some completion) s
   | Err error => throw (DriveWorkspace error)
   end)%comp.

Lemma drive_first v e effect s Q R keys :
  v_failure v = None -> v_document v <> DocumentComplete ->
  validation_start (mkValidation v e ProgressFailed) = Val (StepEffect effect) s ->
  wp (drive_on 2 effect s) Q R keys -> wp (drive_event e v) Q R keys.
Proof.
  intros Hf Hd Hs Hwp. unfold wp. rewrite drive_event_start by done. cbn [drive].
  by rewrite advance_fresh, Hs by done.
Qed.

Section key_data.
Context (limit : option N) (v : Validator) (keys : K) (n room : N) (bytes more : text).
Context (children : list Tree) (opens : list Open) (id : N) (utf8 utf8' : Utf8) (previous : option Key).
Context (frames : list ValidatorFrame).
Let order := key_order (last_key_of children).
Let parent := FMap previous (negb (Nat.even (length children))).
Let key (length : N) (o : comparison) (u : Utf8) : ValidatorFrame :=
  FKey (mkKeyFrame (mkKey id length) previous o u).
Let result (v' : Validator) (keys' : K) : Prop :=
  follows limit (Reads (OpenData KKey None (bytes ++ more) :: OpenNode KMap children :: opens)) v'
    (ws_view keys') (n + len more) /\ ws_can keys' room /\ noted (EData more) (v_frames v) v' keys'.
Context (Hfol : follows limit (Reads (OpenData KKey None bytes :: OpenNode KMap children :: opens)) v
                  (ws_view keys) n).
Context (Hv : v_frames v = key (len bytes) (order bytes) utf8 :: parent :: frames).
Context (Hp : map_previous (ws_view keys) children previous) (Hid : ws_view keys !! id = Some bytes).
Context (Hmax : n + len more <= u64_max) (Hr : ws_ready keys) (Hc : ws_can keys (len more + room)).
Context (Hpush : forall s, push_utf8 more utf8 s = Val utf8' s) (Hu : utf8_field (bytes ++ more) utf8').

Let at_append (o : comparison) : Validation :=
  mkValidation (set_frames (key (len bytes) o utf8' :: parent :: frames) v) (EData more)
    (ProgressPending (PendingAppend (len (bytes ++ more)))).

Lemma key_sum : len (bytes ++ more) = len bytes + len more.
Proof. unfold len. rewrite length_app. lia. Qed.

Lemma key_next : next_length (len bytes) (len more) = Ok (len (bytes ++ more)).
Proof.
  destruct (follows_shape _ _ _ _ _ Hfol) as [_ Hle]. simpl in Hle. rewrite key_sum.
  unfold next_length, checked_add. by rewrite (proj2 (N.leb_le _ u64_max)) by lia.
Qed.

Lemma key_appended keys' fuel :
  order (bytes ++ more) <> Gt -> ws_view keys' = ws_view keys -> ws_ready keys' ->
  ws_can keys' (len more + room) ->
  wp (drive_on (S fuel) (KeyAppend id (len bytes) more) (at_append (order (bytes ++ more)))) result
    (fun _ _ => False) keys'.
Proof.
  intros Ho Hview Hr' Hc'. destruct (follows_shape _ _ _ _ _ Hfol) as [_ Hle]. simpl in Hle.
  eapply (drive_append _ _ keys' (mkKeyFrame (mkKey id (len bytes)) previous (order (bytes ++ more)) utf8'));
    [apply Hfol|done|by rewrite Hview|done|rewrite key_sum; lia|done|done|].
  intros keys'' Hview' Hcan' Hr''. split; [|split; [done|by apply noted_key; [..|rewrite Hv]]].
  rewrite Hview', Hview. exact (follows_key_data _ _ _ _ _ _ _ _ _ _ _ _ _ _ Hfol Hv utf8' Hu Ho).
Qed.

(** What the code does with a fragment once its text is checked. *)
Lemma key_start :
  validation_start (mkValidation v (EData more) ProgressFailed) =
    let s o := mkValidation (set_frames (key (len bytes) o utf8' :: parent :: frames) v) (EData more)
                 ProgressFailed in
    if len more =? 0 then validation_accepted (s (order bytes))
    else match order bytes, previous with
         | Eq, Some old =>
             let common := N.min (key_length old - len bytes) (len more) in
             if 0 <? common then
               validation_effect
                 (KeyComparePrefix (key_id old) (len bytes) (take (N.to_nat common) more))
                 (PendingCompare (len (bytes ++ more))) (s (order bytes))
             else validation_append (len (bytes ++ more)) (s Lt)
         | _, _ => validation_append (len (bytes ++ more)) (s (order bytes))
         end.
Proof.
  unfold validation_start, validation_data, bind, open_frames, replace_frames, gets, on_validator, modify.
  simpl. rewrite Hv. simpl. rewrite key_next. simpl. rewrite Hpush. simpl.
  destruct (len more =? 0); [done|]. destruct (order bytes); [|done..]. destruct previous as [old|]; [|done].
  unfold saturating_sub. by destruct (0 <? N.min (key_length old - len bytes) (len more)).
Qed.

Lemma key_append_eq o :
  validation_append (len (bytes ++ more))
    (mkValidation (set_frames (key (len bytes) o utf8' :: parent :: frames) v) (EData more) ProgressFailed) =
  Val (StepEffect (KeyAppend id (len bytes) more)) (at_append o).
Proof. done. Qed.

Lemma key_open_state : v_failure v = None /\ v_document v <> DocumentComplete.
Proof. destruct Hfol as [Hf _ [_ Hd] _ _ _ _ _]. by rewrite Hd. Qed.

(** A fragment whose order is already known, or need not be compared. *)
Lemma key_data_known :
  validation_start (mkValidation v (EData more) ProgressFailed) =
    Val (StepEffect (KeyAppend id (len bytes) more)) (at_append (order (bytes ++ more))) ->
  order (bytes ++ more) <> Gt ->
  wp (drive_event (EData more) v) result (fun _ _ => False) keys.
Proof.
  intros Hs Ho. destruct key_open_state. eapply drive_first; [done..|]. by apply key_appended.
Qed.

Lemma key_compare_complete o old :
  o <> Gt -> previous = Some old ->
  validation_complete (PendingCompare (len (bytes ++ more))) (KeyCompared o)
    (mkValidation (set_frames (key (len bytes) Eq utf8' :: parent :: frames) v) (EData more) ProgressFailed) =
  Val (StepEffect (KeyAppend id (len bytes) more))
    (at_append (if bool_decide (o = Eq) && (key_length old <? len (bytes ++ more)) then Lt else o)).
Proof. intros Hgt Hprev. unfold at_append, key. rewrite Hprev. by destruct o. Qed.

(** A fragment that is compared with the previous key. *)
Lemma key_data_compared old p r :
  previous = Some old -> last_key_of children = Some p -> ws_view keys !! key_id old = Some p ->
  key_length old = len p -> p = bytes ++ r -> order bytes = Eq -> 0 < N.min (len r) (len more) ->
  (key_order (Some p) (bytes ++ more) =
     let common := N.to_nat (N.min (len r) (len more)) in
     let o := text_cmp (take common r) (take common more) in
     if bool_decide (o = Eq) && (len r <? len more) then Lt else o) ->
  if decide (order (bytes ++ more) = Gt)
  then wp (drive_event (EData more) v) (fun _ _ => False)
         (fun x _ => exists error, x = DriveValidation error) keys
  else wp (drive_event (EData more) v) result (fun _ _ => False) keys.
Proof.
  intros Hprev Hlast Hold Hlen Hr' Heq Hpos Horder. destruct key_open_state as [Hf Hd].
  pose proof key_start as Hs. cbv zeta in Hs. rewrite Heq, Hprev in Hs. rewrite Hlen in Hs.
  assert (len p - len bytes = len r) as Hrem by (subst p; unfold len; rewrite length_app; lia).
  rewrite Hrem in Hs. rewrite (proj2 (N.eqb_neq (len more) 0)) in Hs by lia.
  rewrite (proj2 (N.ltb_lt 0 _)) in Hs by done.
  set (common := N.to_nat (N.min (len r) (len more))) in *. cbv zeta in Horder.
  set (o := text_cmp (take common r) (take common more)) in *.
  assert (order (bytes ++ more) = if bool_decide (o = Eq) && (len r <? len more) then Lt else o) as Ho
    by (unfold order; by rewrite Hlast).
  assert (forall (Q : Validator -> K -> Prop) R, (forall keys', ws_view keys' = ws_view keys -> ws_ready keys' -> ws_can keys' (len more + room) ->
    wp (drive 2 (Some (KeyCompared o)) (mkValidation (set_frames (key (len bytes) Eq utf8' :: parent :: frames) v)
      (EData more) (ProgressPending (PendingCompare (len (bytes ++ more)))))) Q R keys') ->
    wp (drive_event (EData more) v) Q R keys) as Hcompare.
  { intros Q R Hwp. eapply drive_first; [done..|exact Hs|]. apply wp_bind, wp_attempt. simpl. apply wp_bind.
    assert (length (take common more) = common) as Htake
      by (rewrite length_take; unfold common, len; lia).
    eapply wp_mono; [eapply (ws_compare_law keys (key_id old) (len bytes) _ p); [done| | |done]| |done].
    - subst p. unfold len. rewrite Htake, length_app. unfold common, len. lia.
    - pose proof (follows_lengths _ _ _ _ _ Hfol _ _ Hold) as Hle. simpl in Hle. lia.
    - intros order' keys' (-> & Hview & Hcan & Hready). subst p. rewrite Htake. unfold len at 1.
      rewrite Nat2N.id, drop_app_length. apply Hwp; auto. }
  destruct (decide (o = Gt)) as [Hgt|Hgt].
  - rewrite Ho, Hgt. rewrite decide_True by done. apply Hcompare. intros keys' _ _ _. rewrite Hgt.
    unfold wp. cbn [drive]. rewrite advance_pending by done. simpl. unfold validator_fail. simpl. rewrite Hf.
    by eexists.
  - rewrite decide_False by (rewrite Ho; by destruct (_ && _)). apply Hcompare. intros keys' Hview Hready Hcan.
    unfold wp. cbn [drive]. rewrite advance_pending, (key_compare_complete o old) by done. cbv zeta.
    replace (key_length old <? len (bytes ++ more)) with (len r <? len more).
    + rewrite <- Ho. apply (key_appended keys' 0); [rewrite Ho; by destruct (_ && _)|done..].
    + rewrite Hlen, Hr'. unfold len. rewrite !length_app.
      destruct (N.ltb_spec (N.of_nat (length r)) (N.of_nat (length more))),
        (N.ltb_spec (N.of_nat (length bytes + length r)) (N.of_nat (length bytes + length more))); lia.
Qed.

Lemma key_data_empty : more = [] -> order bytes <> Gt ->
  wp (drive_event (EData more) v) result (fun _ _ => False) keys.
Proof.
  intros Hz Ho. destruct key_open_state as [Hf Hd]. pose proof key_start as Hs. cbv zeta in Hs.
  unfold result. rewrite Hz in Hs, Hc, Hu |- *. rewrite app_nil_r in *. simpl in Hs.
  eapply drive_accepted; [done..|exact Hs|].
  split; [|split; [eapply ws_can_less; [exact Hc|lia]|by apply noted_key; [..|rewrite Hv]]].
  pose proof (follows_key_data _ _ bytes [] _ _ _ _ _ _ _ _ _ _ Hfol Hv utf8') as Hfol'.
  rewrite app_nil_r in Hfol'. rewrite <- (insert_id (ws_view keys) id bytes) by done. by apply Hfol'.
Qed.

Lemma key_data_follows :
  order bytes <> Gt ->
  if decide (order (bytes ++ more) = Gt)
  then wp (drive_event (EData more) v) (fun _ _ => False)
         (fun x _ => exists error, x = DriveValidation error) keys
  else wp (drive_event (EData more) v) result (fun _ _ => False) keys.
Proof.
  intros Ho. destruct (decide (more = [])) as [Hz|Hz].
  { rewrite decide_False by by rewrite Hz, app_nil_r. by apply key_data_empty. }
  assert (0 < len more) as Hpos by (destruct more; [done|unfold len; simpl; lia]).
  pose proof key_start as Hs. cbv zeta in Hs. rewrite (proj2 (N.eqb_neq _ 0)) in Hs by lia.
  pose proof Hp as Hp'. assert (previous = None \/ exists old, previous = Some old) as [Hprev|[old Hprev]]
    by (destruct previous; eauto).
  { rewrite Hprev in Hs, Hp'. simpl in Hp'.
    assert (forall s, order s = Eq) as Horder by (intros; unfold order; by rewrite Hp').
    rewrite decide_False by by rewrite Horder. apply key_data_known; [|by rewrite Horder].
    rewrite Hs, !Horder. apply key_append_eq. }
  rewrite Hprev in Hs, Hp'. destruct Hp' as (p & Hlast & Hold & Hlen).
  assert (forall s, order s = key_order (Some p) s) as Horder by (intros; unfold order; by rewrite Hlast).
  pose proof (key_order_app p bytes more) as Happ. rewrite <- !Horder in Happ. specialize (Happ Ho).
  assert (order bytes = Eq \/ order bytes = Lt) as [Hord|Hord] by (destruct (order bytes); naive_solver);
    rewrite Hord in Hs, Happ.
  - destruct Happ as (r & Hr' & Happ). destruct (N.ltb_spec 0 (N.min (len r) (len more))) as [Hc'|Hc'].
    { eapply (key_data_compared old p r); try done. by rewrite <- Horder. }
    assert (r = []) as -> by (destruct r; [done|unfold len in *; simpl in *; lia]).
    assert (order (bytes ++ more) = Lt) as Hlt.
    { rewrite Happ. change (len []) with 0. rewrite N.min_0_l. simpl. by rewrite (proj2 (N.ltb_lt _ _)). }
    rewrite decide_False by by rewrite Hlt. apply key_data_known; [|by rewrite Hlt].
    rewrite Hs, Hlen, Hr', app_nil_r, N.sub_diag, N.min_0_l, Hlt. apply key_append_eq.
  - rewrite decide_False by by rewrite Happ. apply key_data_known; [|by rewrite Happ].
    rewrite Hs, Happ. apply key_append_eq.
Qed.
End key_data.

Lemma read_data_key limit v keys n room role bytes opens more :
  follows limit (Reads (OpenData KKey role bytes :: opens)) v (ws_view keys) n ->
  n + len more <= u64_max -> ws_ready keys -> ws_can keys (len more + room) ->
  simulated limit (Reads (OpenData KKey role bytes :: opens)) (EData more) n room v keys.
Proof.
  intros Hfol Hmax Hr Hc. pose proof Hfol as [Hf Hl [Hrel Hd] _ _ _ _ _]. unfold simulated, read.
  destruct (v_frames v) as [|frame frames] eqn:Hv; [done|]. destruct Hrel as [Hdata Hrest].
  destruct (key_parent _ _ _ _ _ _ Hdata Hrest)
    as (-> & id & utf8 & previous & children & opens' & frames' & -> & -> & Hp & Hrest' & Hid & Hu & Ho & ->).
  change (previous_key KKey (OpenNode KMap children :: opens')) with (last_key_of children).
  assert (len (event_tokens (EData more)) = len more) as -> by (unfold len; simpl; by rewrite length_fmap).
  unfold data_open. rewrite bool_decide_false by done. cbn [orb role_run].
  rewrite (bool_decide_true (is_Some (Some None))) by done. rewrite andb_true_r.
  destruct (utf8_run [] (bytes ++ more)) as [e|] eqn:Hrun; simpl; cycle 1.
  { pose proof (push_utf8_spec _ more _ (mkValidation v (EData more) ProgressFailed) Hu) as Hp'.
    rewrite Hrun in Hp'. destruct Hp' as (x & Hp'). eapply drive_rejected; [done|by rewrite Hd|].
    unfold validation_start, validation_data, bind, open_frames, gets. simpl. rewrite Hv.
    simpl. erewrite key_next by (done || exact Hfol). simpl.
    by rewrite Hp'. }
  assert (exists utf8', (forall s, push_utf8 more utf8 s = Val utf8' s) /\ utf8_field (bytes ++ more) utf8')
    as (utf8' & Hpush & Hu').
  { pose proof (push_utf8_spec _ more _ (mkValidation v (EData more) ProgressFailed) Hu) as Hp'.
    rewrite Hrun in Hp'. destruct Hp' as (utf8' & Hp' & Hu'). exists utf8'. split; [|done]. intros s.
    unfold push_utf8, ret, throw, halt in *. destruct (utf8_push more utf8); by simplify_eq. }
  pose proof (key_data_follows limit v keys n room bytes more children opens' id utf8 utf8' previous frames'
    Hfol Hv Hp Hid Hmax Hr Hc Hpush Hu' Ho) as Hkey.
  rewrite Hv in Hkey. case_decide as Hgt; [rewrite bool_decide_false by naive_solver|rewrite bool_decide_true by done]; done.
Qed.

(** Events that no frame accepts. *)
Lemma read_rejected limit reading e v keys n room :
  follows limit reading v (ws_view keys) n -> read limit reading e = None ->
  match reading, e with
  | Read _, _ | Reads [], (EEnd _ | EAtom _ | EData _) => True
  | Reads (OpenNode _ _ :: _), EData _ => True
  | Reads (OpenData _ _ _ :: _), (EBegin _ | EAtom _) => True
  | _, _ => False
  end -> simulated limit reading e n room v keys.
Proof.
  intros [Hf Hl Hrel _ _ _ _ _] Hnone Hcase. unfold simulated. rewrite Hnone.
  destruct reading as [opens|tree]; cycle 1.
  { destruct Hrel as [_ Hd]. unfold wp, drive_event, validator_begin, validator_check, bind, gets. rewrite Hf. simpl.
    rewrite Hd. unfold validator_fail. rewrite Hf. by eexists. }
  destruct Hrel as [Hrel Hd].
  assert (v_document v <> DocumentComplete) as Hd' by (rewrite Hd; by destruct opens).
  destruct opens as [|open opens], (v_frames v) as [|frame frames] eqn:Hv; try (by destruct open); try done.
  { destruct e as [kind|kind|atom|bytes]; [done|..]; (eapply drive_rejected; [done..|]);
      unfold validation_start, end_record, validation_data, bind, open_frames, gets; simpl; by rewrite Hv. }
  destruct open as [kind children|kind role bytes], Hrel as [Hframe _].
  - destruct e as [| | |more]; try done. eapply drive_rejected; [done..|].
    unfold validation_start, validation_data, bind, open_frames, gets. simpl. rewrite Hv.
    destruct kind; simpl in Hframe; try done; try (by subst frame). by destruct Hframe as (p & _ & ->).
  - assert (exists k l u i, frame = FField k l u i \/ exists key, frame = FKey key) as (k & l & u & i & Hf').
    { destruct kind; simpl in Hframe; try done.
      - destruct Hframe as (u & i & _ & _ & ->). do 4 eexists. by left.
      - destruct Hframe as (i & _ & ->). do 4 eexists. by left.
      - destruct Hframe as (_ & id & u & p & x & fs & _ & _ & _ & _ & ->). exists KKey, 0, None, None. right. by eexists. }
    destruct e as [child|ending|atom|]; try done; (eapply drive_rejected; [done..|]).
    + unfold validation_start, begin_record, bind, open_frames, gets. simpl. rewrite Hd. simpl. rewrite Hv.
      by destruct Hf' as [-> |[key ->]].
    + unfold validation_start, bind, open_frames, gets. simpl. rewrite Hv.
      by destruct Hf' as [-> |[key ->]].
Qed.

(** The validator accepts an event exactly when the machine does, and goes on as it. *)
Lemma drive_follows limit reading e v keys n room :
  follows limit reading v (ws_view keys) n -> n + len (event_tokens e) <= u64_max ->
  ws_ready keys -> ws_can keys (len (event_tokens e) + room) ->
  simulated limit reading e n room v keys.
Proof.
  intros Hfol Hmax Hr Hc. assert (ws_can keys room) as Hroom by (eapply ws_can_less; [exact Hc|lia]).
  assert (forall more, len (event_tokens (EData more)) = len more) as Hlen
    by (intros more; unfold len; simpl; by rewrite length_fmap).
  destruct reading as [[|[kind children|kind role bytes] opens]|tree]; cycle 3.
  { by apply read_rejected. }
  - destruct e; [by apply read_document|by apply read_rejected..].
  - destruct e as [child|ending|atom|more].
    + destruct (decide (child = KKey)) as [->|Hk]; [by apply read_begin_key|by apply read_begin_node].
    + by apply read_end_node.
    + by apply read_atom.
    + by apply read_rejected.
  - destruct e as [child|ending|atom|more]; [by apply read_rejected| |by apply read_rejected|];
      destruct (decide (kind = KKey)) as [->|Hk].
    + by apply read_end_key.
    + by apply read_end_field.
    + rewrite Hlen in Hmax, Hc. by apply read_data_key.
    + rewrite Hlen in Hmax, Hc. by apply read_data_field.
Qed.
End following.
