(* ===== verification/MemoryKeys.v ===== *)
(** * Resident storage of keys

    crates/xolotl-value-codec/src/validation/memory.rs: map keys in pages of a fixed size, with
    budgets on the keys and on the bytes that their pages reserve. *)

From Stdlib Require Import ZArith Ascii.
From stdpp Require Import base numbers list option strings gmap.
From S2P Require Import Prelude Text Event Validation Workspace Grammar.

Local Open Scope N_scope.

(** ** State *)

Record MemoryKeyOptions : Type := mkKeyOptions {
  page_bytes : N;
  max_keys : option N;
  max_bytes : option N
}.

(** [MemoryKeyError], without the failure of an allocation. *)
Inductive MemoryKeyError : Type :=
| KeyIdentity (key : N)
| KeyOffset (offset : N)
| KeyLengthOverflow
| KeyBudget (limit : N)
| KeyByteBudget (limit : N).

(** A page has the capacity that the allocator gave it. *)
Record Page : Type := mkPage { page_data : text; page_capacity : N }.

(** [Key] of memory.rs. *)
Record StoredKey : Type := mkStoredKey { sk_pages : list Page; sk_length : N }.

Record MemoryKeyStore : Type := mkKeyStore {
  ks_options : MemoryKeyOptions;
  ks_keys : gmap N StoredKey;
  ks_reserved : N
}.

Definition store_new (options : MemoryKeyOptions) : MemoryKeyStore := mkKeyStore options ∅ 0.

Definition key_count (self : MemoryKeyStore) : N := N.of_nat (size (ks_keys self)).

Local Open Scope comp_scope.

Section memory_store.
(** The capacity of a vector for which some bytes are reserved exactly. *)
Context (capacity : N -> N).

(** ** Operations *)

(** [MemoryKeyStore::create_inner]. *)
Definition create_inner (key : N) : comp MemoryKeyStore MemoryKeyError unit :=
  fun self =>
    if bool_decide (is_Some (ks_keys self !! key)) then Throw (KeyIdentity key) self
    else
      let full := match max_keys (ks_options self) with Some limit => limit <=? key_count self | None => false end in
      if full then Throw (KeyBudget (default 0 (max_keys (ks_options self)))) self
      else Val tt (mkKeyStore (ks_options self) (<[key := mkStoredKey [] 0]> (ks_keys self)) (ks_reserved self)).

(** A window of a page: [key.pages[position / page_bytes][in_page..in_page + window]]. *)
Definition page_window {T} (pages : list Page) (size position window : N) : comp T MemoryKeyError text :=
  let* page := expect (get pages (position / size)) OutOfBounds in
  let in_page := position mod size in
  if in_page + window <=? len (page_data page)
  then ret (take (N.to_nat window) (drop (N.to_nat in_page) (page_data page)))
  else halt OutOfBounds.

(** The loop of [MemoryKeyStore::compare_inner]. *)
Fixpoint compare_loop {T} (fuel : nat) (pages : list Page) (size start count : N) (bytes : text) (compared : N)
    : comp T MemoryKeyError comparison :=
  if compared <? count then
    match fuel with
    | O => halt Unbounded
    | S fuel =>
        let position := start + compared in
        let window := N.min (size - position mod size) (count - compared) in
        let* stored := page_window pages size position window in
        match text_cmp stored (take (N.to_nat window) (drop (N.to_nat compared) bytes)) with
        | Eq => compare_loop fuel pages size start count bytes (compared + window)
        | order => ret order
        end
    end
  else ret (count ?= len bytes).

(** [MemoryKeyStore::compare_inner]. *)
Definition compare_inner (key offset : N) (bytes : text) : comp MemoryKeyStore MemoryKeyError comparison :=
  let* self := gets (fun self => self) in
  let* stored := require (ks_keys self !! key) (KeyIdentity key) in
  if usize_max <? offset then throw (KeyOffset offset)
  else if sk_length stored <? offset then throw (KeyOffset offset)
  else
    let count := N.min (len bytes) (sk_length stored - offset) in
    compare_loop (N.to_nat count) (sk_pages stored) (page_bytes (ks_options self)) offset count bytes 0.

(** The key that an append borrows, with the bytes reserved by all keys. *)
Definition append_comp : Type -> Type := comp (StoredKey * N) MemoryKeyError.

(** One turn of the loop that allocates pages. *)
Definition push_page (options : MemoryKeyOptions) : append_comp unit :=
  let* (key, reserved) := gets (fun s => s) in
  let given := capacity (page_bytes options) in
  let* reserved := require (checked_add usize_max reserved given) KeyLengthOverflow in
  let over := match max_bytes options with Some limit => limit <? reserved | None => false end in
  if over then throw (KeyByteBudget (default 0 (max_bytes options)))
  else
    let page := mkPage (replicate (N.to_nat (page_bytes options)) Ascii.zero) given in
    modify (fun _ => (mkStoredKey (sk_pages key ++ [page]) (sk_length key), reserved)).

(** [copy_from_slice] into a window of a page. *)
Definition overwrite (position : nat) (chunk s : text) : text :=
  take position s ++ chunk ++ drop (position + length chunk) s.

Fixpoint copy_loop (fuel : nat) (size : N) (bytes : text) (copied : N) : append_comp unit :=
  if copied <? len bytes then
    match fuel with
    | O => halt Unbounded
    | S fuel =>
        let* (key, reserved) := gets (fun s => s) in
        let position := sk_length key + copied in
        let in_page := position mod size in
        let window := N.min (size - in_page) (len bytes - copied) in
        let* page := expect (get (sk_pages key) (position / size)) OutOfBounds in
        if in_page + window <=? len (page_data page) then
          let chunk := take (N.to_nat window) (drop (N.to_nat copied) bytes) in
          let page := mkPage (overwrite (N.to_nat in_page) chunk (page_data page)) (page_capacity page) in
          modify (fun _ => (mkStoredKey (upd (sk_pages key) (position / size) page) (sk_length key), reserved)) ;;;
          copy_loop fuel size bytes (copied + window)
        else halt OutOfBounds
    end
  else ret tt.

(** What [MemoryKeyStore::append_inner] does with the key it has found. *)
Definition append_key (options : MemoryKeyOptions) (offset : N) (bytes : text) : append_comp unit :=
  let* (key, reserved) := gets (fun s => s) in
  if u64_max <? sk_length key then throw KeyLengthOverflow
  else if negb (sk_length key =? offset) then throw (KeyOffset offset)
  else
    let* end_ := require (checked_add usize_max (sk_length key) (len bytes)) KeyLengthOverflow in
    let total_pages := (end_ + page_bytes options - 1) / page_bytes options in
    let new_pages := saturating_sub total_pages (len (sk_pages key)) in
    let* more := require (checked_mul usize_max new_pages (page_bytes options)) KeyLengthOverflow in
    let* projected := require (checked_add usize_max reserved more) KeyLengthOverflow in
    let over := match max_bytes options with Some limit => limit <? projected | None => false end in
    if over then throw (KeyByteBudget (default 0 (max_bytes options)))
    else
      for_each (replicate (N.to_nat new_pages) tt) (fun _ => push_page options) ;;;
      copy_loop (length bytes) (page_bytes options) bytes 0 ;;;
      modify (fun s => (mkStoredKey (sk_pages (fst s)) end_, snd s)).

(** [MemoryKeyStore::append_inner]: the key is changed in its place. *)
Definition append_inner (identity offset : N) (bytes : text) : comp MemoryKeyStore MemoryKeyError unit :=
  fun self =>
    match ks_keys self !! identity with
    | None => Throw (KeyIdentity identity) self
    | Some key =>
        let store '(key, reserved) :=
          mkKeyStore (ks_options self) (<[identity := key]> (ks_keys self)) reserved in
        match append_key (ks_options self) offset bytes (key, ks_reserved self) with
        | Val _ s => Val tt (store s)
        | Throw x s => Throw x (store s)
        | Stop why => Stop why
        end
    end.

(** The loop of [MemoryKeyStore::release_inner]. *)
Definition unreserve (page : Page) : comp MemoryKeyStore MemoryKeyError unit :=
  let* self := gets (fun self => self) in
  let* reserved := expect (checked_sub (ks_reserved self) (page_capacity page)) Overflow in
  modify (fun self => mkKeyStore (ks_options self) (ks_keys self) reserved).

(** [MemoryKeyStore::release_inner]. *)
Definition release_inner (key : N) : comp MemoryKeyStore MemoryKeyError unit :=
  let* self := gets (fun self => self) in
  let* stored := require (ks_keys self !! key) (KeyIdentity key) in
  modify (fun self => mkKeyStore (ks_options self) (delete key (ks_keys self)) (ks_reserved self)) ;;;
  for_each (sk_pages stored) unreserve.

(** The implementation of [KeyStore]. *)
#[local] Instance memory_workspace : Workspace MemoryKeyStore MemoryKeyError := {
  ws_create := create_inner;
  ws_compare_prefix := compare_inner;
  ws_append := append_inner;
  ws_release := release_inner
}.
End memory_store.

(** ** Pages of a fixed size *)

Definition uniform (p : nat) (ds : list text) : Prop := Forall (fun d => length d = p) ds.

Lemma uniform_concat p ds : uniform p ds -> length (concat ds) = (length ds * p)%nat.
Proof. induction 1 as [|d ds Hd _ IH]; [done|]. simpl. rewrite length_app. lia. Qed.

(** A page within the bytes of all. *)
Lemma uniform_split p ds i d :
  uniform p ds -> ds !! i = Some d ->
  concat ds = concat (take i ds) ++ d ++ concat (drop (S i) ds) /\
  length (concat (take i ds)) = (i * p)%nat /\ length d = p.
Proof.
  intros Hu Hi. pose proof (list.Forall_lookup_1 _ _ _ _ Hu Hi) as Hd. pose proof (lookup_lt_Some _ _ _ Hi).
  split; [|split; [|done]].
  - rewrite <- (take_drop_middle ds i d Hi) at 1. by rewrite concat_app.
  - rewrite (uniform_concat p) by (by apply Forall_take). rewrite length_take. f_equal. apply Nat.min_l, Nat.lt_le_incl, H.
Qed.

Lemma uniform_window p ds i d o w :
  uniform p ds -> ds !! i = Some d -> (o + w <= p)%nat ->
  take w (drop o d) = take w (drop (i * p + o) (concat ds)).
Proof.
  intros Hu Hi Hle. destruct (uniform_split _ _ _ _ Hu Hi) as (-> & Hlen & Hd).
  rewrite <- Hlen, drop_app_add, drop_app_le by lia. by rewrite take_app_le by (rewrite length_drop; lia).
Qed.

Lemma length_overwrite position chunk s :
  (position + length chunk <= length s)%nat -> length (overwrite position chunk s) = length s.
Proof. intros H. unfold overwrite. rewrite !length_app, length_take, length_drop. lia. Qed.

Lemma overwrite_middle a s b position chunk :
  (position + length chunk <= length s)%nat ->
  overwrite (length a + position) chunk (a ++ s ++ b) = a ++ overwrite position chunk s ++ b.
Proof.
  intros H. unfold overwrite. rewrite take_app_add, <- Nat.add_assoc, drop_app_add.
  rewrite take_app_le, drop_app_le by lia. by rewrite <- !app_assoc.
Qed.

Lemma uniform_overwrite p ds i d o chunk :
  uniform p ds -> ds !! i = Some d -> (o + length chunk <= p)%nat ->
  concat (<[i := overwrite o chunk d]> ds) = overwrite (i * p + o) chunk (concat ds) /\
  uniform p (<[i := overwrite o chunk d]> ds).
Proof.
  intros Hu Hi Hle. destruct (uniform_split _ _ _ _ Hu Hi) as (Hc & Hlen & Hd).
  split; [|apply Forall_insert; [done|by rewrite length_overwrite by lia]].
  rewrite insert_take_drop by (by eapply lookup_lt_Some). rewrite concat_app. simpl. rewrite Hc.
  by rewrite <- Hlen, overwrite_middle by lia.
Qed.

(** One write after another. *)
Lemma overwrite_more position a b s :
  (position + length (a ++ b) <= length s)%nat ->
  overwrite (position + length a) b (overwrite position a s) = overwrite position (a ++ b) s.
Proof.
  rewrite length_app. intros H. unfold overwrite at 2. rewrite app_assoc.
  assert (length (take position s ++ a) = position + length a)%nat as Hl by (rewrite length_app, length_take; lia).
  unfold overwrite. rewrite <- Hl, take_app_length, drop_app_add, drop_drop, Hl, length_app, <- !app_assoc.
  by rewrite Nat.add_assoc.
Qed.

Lemma overwrite_end position chunk s :
  (position + length chunk <= length s)%nat ->
  take (position + length chunk) (overwrite position chunk s) = take position s ++ chunk.
Proof.
  intros H. unfold overwrite. rewrite app_assoc. apply take_app_length'. rewrite length_app, length_take. lia.
Qed.

(** ** Keys and their text *)

Definition key_bytes (key : StoredKey) : text := concat (page_data <$> sk_pages key).
Definition key_text (key : StoredKey) : text := take (N.to_nat (sk_length key)) (key_bytes key).

(** Pages are full of bytes, and hold the key. *)
Record key_ok (size : N) (key : StoredKey) : Prop := {
  key_uniform : uniform (N.to_nat size) (page_data <$> sk_pages key);
  key_fits : sk_length key <= len (sk_pages key) * size
}.

Lemma key_bytes_length size key : key_ok size key -> len (key_bytes key) = len (sk_pages key) * size.
Proof.
  intros [Hu _]. unfold len, key_bytes. rewrite (uniform_concat _ _ Hu), length_fmap. lia.
Qed.

Lemma key_text_length size key : key_ok size key -> len (key_text key) = sk_length key.
Proof.
  intros Hk. pose proof (key_bytes_length _ _ Hk). pose proof (key_fits _ _ Hk).
  unfold len, key_text in *. rewrite length_take. lia.
Qed.

(** The page at a position, and the position in it. *)
Lemma page_at size key position :
  key_ok size key -> 0 < size -> position < len (sk_pages key) * size ->
  exists page, get (sk_pages key) (position / size) = Some page /\ len (page_data page) = size /\
    (page_data <$> sk_pages key) !! N.to_nat (position / size) = Some (page_data page) /\
    (N.to_nat (position / size) * N.to_nat size + N.to_nat (position mod size) = N.to_nat position)%nat.
Proof.
  intros [Hu _] Hs Hp. assert (position / size < len (sk_pages key)) as Hi by (apply N.Div0.div_lt_upper_bound; lia).
  destruct (lookup_lt_is_Some_2 (sk_pages key) (N.to_nat (position / size))) as [page Hpage]; [unfold len in Hi; lia|].
  exists page. assert ((page_data <$> sk_pages key) !! N.to_nat (position / size) = Some (page_data page)) as Hd
    by (by rewrite list_lookup_fmap, Hpage).
  split; [by rewrite get_lookup|]. split; [|split; [done|]].
  - pose proof (list.Forall_lookup_1 _ _ _ _ Hu Hd) as Hl. simpl in Hl. unfold len. lia.
  - pose proof (N.div_mod' position size). lia.
Qed.

Lemma page_window_spec {T} size key position window (s : T) :
  key_ok size key -> 0 < size -> position < len (sk_pages key) * size -> position mod size + window <= size ->
  page_window (sk_pages key) size position window s =
    Val (take (N.to_nat window) (drop (N.to_nat position) (key_bytes key))) s.
Proof.
  intros Hk Hs Hp Hw. destruct (page_at size key position Hk Hs Hp) as (page & Hget & Hlen & Hd & Hpos).
  unfold page_window, bind, expect. rewrite Hget. simpl. rewrite Hlen, (proj2 (N.leb_le _ _)) by done.
  unfold ret. f_equal. rewrite (uniform_window _ _ _ _ _ _ (key_uniform _ _ Hk) Hd) by lia. by rewrite Hpos.
Qed.

Lemma text_cmp_windows a b x y :
  length a = length b -> text_cmp (a ++ x) (b ++ y) = then_with (text_cmp a b) (text_cmp x y).
Proof.
  revert b. induction a as [|c a IH]; intros [|d b] Hl; try done. simpl in *.
  destruct (code c ?= code d); [|done..]. apply IH. lia.
Qed.

(** A comparison of a prefix, window by window. *)
Definition cmp_prefix (x y : text) : comparison := text_cmp (take (length y) x) y.

Lemma cmp_prefix_window w x y :
  (w <= length x)%nat -> (w <= length y)%nat ->
  cmp_prefix x y = then_with (text_cmp (take w x) (take w y)) (cmp_prefix (drop w x) (drop w y)).
Proof.
  intros Hx Hy. unfold cmp_prefix.
  rewrite <- text_cmp_windows by (rewrite !length_take; lia).
  rewrite (take_drop w y), length_drop. f_equal.
  rewrite <- (take_drop w x) at 1. rewrite take_app_ge by (rewrite length_take; lia).
  rewrite length_take. do 2 f_equal. lia.
Qed.

Lemma cmp_prefix_end x y : x = [] \/ y = [] -> cmp_prefix x y = match y with [] => Eq | _ => Lt end.
Proof. unfold cmp_prefix. intros [-> | ->]; [by destruct y|done]. Qed.

Lemma key_window key position window :
  position + window <= sk_length key ->
  take (N.to_nat window) (drop (N.to_nat position) (key_bytes key)) =
    take (N.to_nat window) (drop (N.to_nat position) (key_text key)).
Proof.
  intros H. unfold key_text. rewrite skipn_firstn_comm, take_take. f_equal. lia.
Qed.

(** ** Comparison *)

Lemma compare_ended size key start bytes :
  let count := N.min (len bytes) (sk_length key - start) in
  key_ok size key -> start <= sk_length key ->
  cmp_prefix (drop (N.to_nat (start + count)) (key_text key)) (drop (N.to_nat count) bytes) = (count ?= len bytes).
Proof.
  intros count Hk Hstart. pose proof (key_text_length _ _ Hk) as Hlen. rewrite cmp_prefix_end.
  - destruct (drop (N.to_nat count) bytes) as [|b rest] eqn:Hd; symmetry.
    + apply N.compare_eq_iff. apply (f_equal length) in Hd. rewrite length_drop in Hd. simpl in Hd. unfold len in *. lia.
    + apply N.compare_lt_iff. apply (f_equal length) in Hd. rewrite length_drop in Hd. simpl in Hd. unfold len in *. lia.
  - destruct (decide (count = len bytes)) as [->|]; [right|left]; apply nil_length_inv; rewrite length_drop;
      unfold len in *; lia.
Qed.

(** What is left of a comparison. *)
Lemma compare_loop_spec {T} fuel size key start bytes compared (s : T) :
  let count := N.min (len bytes) (sk_length key - start) in
  key_ok size key -> 0 < size -> start <= sk_length key -> compared <= count -> count - compared <= N.of_nat fuel ->
  compare_loop fuel (sk_pages key) size start count bytes compared s =
    Val (cmp_prefix (drop (N.to_nat (start + compared)) (key_text key)) (drop (N.to_nat compared) bytes)) s.
Proof.
  intros count Hk Hs Hstart. pose proof (key_text_length _ _ Hk) as Hlen. pose proof (key_fits _ _ Hk) as Hfits.
  revert compared. induction fuel as [|fuel IH]; intros compared Hle Hfuel; cbn [compare_loop];
    destruct (N.ltb_spec compared count) as [Hlt|Hge]; try lia.
  1,3: assert (compared = count) as -> by lia; unfold ret; f_equal; symmetry; exact (compare_ended size key start bytes Hk Hstart).
  set (position := start + compared). set (window := N.min (size - position mod size) (count - compared)).
  pose proof (N.mod_lt position size ltac:(lia)).
  assert (0 < window /\ window <= count - compared) as [Hw Hwc] by (unfold window; lia).
  assert (position < len (sk_pages key) * size) as Hp by (unfold position, count in *; lia).
  assert (position mod size + window <= size) as Hpw by (unfold window; lia).
  assert (position + window <= sk_length key) as Hpk by (unfold position, count in *; lia).
  unfold bind. rewrite page_window_spec, key_window by done.
  rewrite (cmp_prefix_window (N.to_nat window)); rewrite ?length_drop.
  2: { unfold len in Hlen. lia. }
  2: { unfold count, len in *. lia. }
  rewrite !drop_drop. destruct (text_cmp _ _); [|done..]. rewrite IH by lia. simpl.
  unfold position. do 2 f_equal; f_equal; lia.
Qed.

(** ** Appending *)

(** A write within a page is a write to the bytes of the key. *)
Definition write_page (size : N) (key : StoredKey) (position : N) (chunk : text) (page : Page) : StoredKey :=
  mkStoredKey (upd (sk_pages key) (position / size)
    (mkPage (overwrite (N.to_nat (position mod size)) chunk (page_data page)) (page_capacity page))) (sk_length key).

Lemma page_written size key position chunk page :
  key_ok size key -> 0 < size -> position < len (sk_pages key) * size ->
  get (sk_pages key) (position / size) = Some page -> position mod size + len chunk <= size ->
  let key' := write_page size key position chunk page in
  key_ok size key' /\ page_capacity <$> sk_pages key' = page_capacity <$> sk_pages key /\
  key_bytes key' = overwrite (N.to_nat position) chunk (key_bytes key).
Proof.
  intros Hk Hs Hp Hget Hle key'. destruct (page_at size key position Hk Hs Hp) as (page' & Hget' & Hlen & Hd & Hpos).
  rewrite Hget in Hget'. injection Hget' as <-.
  destruct (uniform_overwrite _ _ _ _ (N.to_nat (position mod size)) chunk (key_uniform _ _ Hk) Hd) as [Hc Hu];
    [unfold len in Hle; lia|]. rewrite Hpos in Hc.
  assert (page_data <$> sk_pages key' =
    <[N.to_nat (position / size) := overwrite (N.to_nat (position mod size)) chunk (page_data page)]>
      (page_data <$> sk_pages key)) as Hdata by (unfold key', write_page, upd; simpl; by rewrite list_fmap_insert).
  split; [split|split].
  - by rewrite Hdata.
  - unfold key', write_page. simpl. rewrite len_upd. apply Hk.
  - unfold key', write_page, upd. simpl. rewrite list_fmap_insert. simpl. apply list_insert_id.
    by rewrite get_lookup in Hget; rewrite list_lookup_fmap, Hget.
  - unfold key_bytes. by rewrite Hdata.
Qed.

(** What copying has done so far; the pages keep their sizes. *)
Lemma copy_loop_spec fuel size bytes copied key reserved :
  key_ok size key -> 0 < size -> sk_length key + len bytes <= len (sk_pages key) * size ->
  copied <= len bytes -> len bytes - copied <= N.of_nat fuel ->
  exists pages, copy_loop fuel size bytes copied (key, reserved) = Val tt (mkStoredKey pages (sk_length key), reserved) /\
    page_capacity <$> pages = page_capacity <$> sk_pages key /\
    key_ok size (mkStoredKey pages (sk_length key)) /\
    concat (page_data <$> pages) =
      overwrite (N.to_nat (sk_length key + copied)) (drop (N.to_nat copied) bytes) (key_bytes key).
Proof.
  revert copied key. induction fuel as [|fuel IH]; intros copied key Hk Hs Hfit Hle Hfuel; cbn [copy_loop];
    destruct (N.ltb_spec copied (len bytes)) as [Hlt|Hge]; try lia.
  1,3: exists (sk_pages key); (split; [by destruct key|]); (split; [done|]); (split; [by destruct key|]);
    rewrite drop_ge by (unfold len in *; lia); unfold overwrite; simpl; by rewrite Nat.add_0_r, take_drop.
  unfold bind at 1, gets. set (position := sk_length key + copied).
  set (window := N.min (size - position mod size) (len bytes - copied)).
  pose proof (N.mod_lt position size ltac:(lia)).
  assert (0 < window /\ window <= len bytes - copied) as [Hw Hwc] by (unfold window; lia).
  assert (position mod size + window <= size) as Hpw by (unfold window; lia).
  assert (position < len (sk_pages key) * size) as Hp by (unfold position; lia).
  destruct (page_at size key position Hk Hs Hp) as (page & Hget & Hlen & _ & _).
  unfold bind at 1, expect. rewrite Hget. simpl. rewrite Hlen, (proj2 (N.leb_le _ _)) by done.
  set (chunk := take (N.to_nat window) (drop (N.to_nat copied) bytes)).
  assert (length chunk = N.to_nat window) as Hchunk
    by (unfold chunk; rewrite length_take, length_drop; unfold len in *; lia).
  destruct (page_written size key position chunk page Hk Hs Hp Hget) as (Hk' & Hcaps & Hb); [unfold len; lia|].
  pose proof (f_equal length Hcaps) as Hl. rewrite !length_fmap in Hl.
  destruct (IH (copied + window) (write_page size key position chunk page)) as (pages & Hrun & Hcaps' & Hk'' & Hb');
    try done; [unfold len in *; simpl in *; lia|lia..|].
  exists pages. split; [exact Hrun|]. split; [by rewrite Hcaps'|]. split; [exact Hk''|]. rewrite Hb', Hb. simpl.
  assert (N.to_nat (sk_length key + (copied + window)) = N.to_nat position + length chunk)%nat as ->
    by (unfold position; lia).
  rewrite overwrite_more.
  - f_equal. rewrite <- (take_drop (N.to_nat window) (drop (N.to_nat copied) bytes)). fold chunk.
    rewrite drop_drop. do 2 f_equal. lia.
  - pose proof (key_bytes_length _ _ Hk). rewrite length_app, length_drop, Hchunk. unfold position, len in *. lia.
Qed.

Definition byte_limit (options : MemoryKeyOptions) : N :=
  match max_bytes options with Some limit => N.min limit usize_max | None => usize_max end.

Definition key_reserved (key : StoredKey) : N := foldr N.add 0 (page_capacity <$> sk_pages key).

Section appending.
Context (capacity : N -> N) (options : MemoryKeyOptions).
Let size := page_bytes options.
Context (Hcap : size <= capacity size) (Hsize : 0 < size).

Definition zero_page : Page := mkPage (replicate (N.to_nat size) Ascii.zero) (capacity size).
Definition grown (key : StoredKey) (n : nat) : StoredKey :=
  mkStoredKey (sk_pages key ++ replicate n zero_page) (sk_length key).

Lemma push_page_eq key reserved :
  if reserved + capacity size <=? byte_limit options
  then push_page capacity options (key, reserved) = Val tt (grown key 1, reserved + capacity size)
  else exists x, push_page capacity options (key, reserved) = Throw x (key, reserved).
Proof.
  unfold push_page, byte_limit, bind, gets, require, checked_add, modify, throw. fold size.
  destruct (max_bytes options) as [limit|].
  - destruct (N.leb_spec (reserved + capacity size) usize_max); simpl.
    + destruct (N.ltb_spec limit (reserved + capacity size)), (N.leb_spec (reserved + capacity size) (N.min limit usize_max));
        try lia; simpl; [by eexists|done].
    + rewrite (proj2 (N.leb_gt _ _)) by lia. by eexists.
  - destruct (N.leb_spec (reserved + capacity size) usize_max); simpl; [done|by eexists].
Qed.

Lemma grown_ok key n : key_ok size key -> key_ok size (grown key n).
Proof.
  intros [Hu Hf]. split; simpl.
  - rewrite fmap_app. apply list.Forall_app. split; [done|]. rewrite fmap_replicate. apply Forall_replicate.
    simpl. by rewrite length_replicate.
  - unfold len in *. rewrite length_app, length_replicate. nia.
Qed.

Lemma grown_text key n : key_ok size key -> key_text (grown key n) = key_text key.
Proof.
  intros Hk. pose proof (key_bytes_length _ _ Hk). pose proof (key_fits _ _ Hk). unfold key_text, key_bytes in *. simpl.
  rewrite fmap_app, concat_app, take_app_le; [done|]. unfold len in *. lia.
Qed.

Lemma grown_reserved key n : key_reserved (grown key n) = key_reserved key + N.of_nat n * capacity size.
Proof.
  unfold key_reserved, grown. cbn [sk_pages].
  induction (sk_pages key) as [|page pages IH]; cbn [app fmap list_fmap foldr] in *; [|rewrite IH; lia].
  induction n as [|n IH]; [done|]. cbn [replicate fmap list_fmap foldr]. rewrite IH. cbn [zero_page page_capacity]. lia.
Qed.

Lemma grown_grown key m n : grown (grown key m) n = grown key (m + n).
Proof. unfold grown. simpl. by rewrite <- app_assoc, <- replicate_add. Qed.

(** Pages are added until a budget is passed. *)
Lemma push_pages_spec n key reserved :
  reserved <= byte_limit options ->
  if reserved + N.of_nat n * capacity size <=? byte_limit options
  then for_each (replicate n tt) (fun _ => push_page capacity options) (key, reserved) =
         Val tt (grown key n, reserved + N.of_nat n * capacity size)
  else exists x m, for_each (replicate n tt) (fun _ => push_page capacity options) (key, reserved) =
         Throw x (grown key m, reserved + N.of_nat m * capacity size) /\
       reserved + N.of_nat m * capacity size <= byte_limit options.
Proof.
  revert key reserved. induction n as [|n IH]; intros key reserved Hle; cbn [replicate for_each].
  { rewrite (proj2 (N.leb_le _ _)) by lia. unfold ret, grown. rewrite app_nil_r, N.add_0_r. by destruct key. }
  pose proof (push_page_eq key reserved) as Hpush. unfold bind.
  destruct (N.leb_spec (reserved + capacity size) (byte_limit options)) as [H1|H1].
  - rewrite Hpush. specialize (IH (grown key 1) (reserved + capacity size) H1).
    replace (reserved + capacity size + N.of_nat n * capacity size)
      with (reserved + N.of_nat (S n) * capacity size) in IH by lia.
    destruct (_ <=? byte_limit options).
    + by rewrite IH, grown_grown.
    + destruct IH as (x & m & -> & Hm). exists x, (S m). rewrite grown_grown.
      replace (reserved + N.of_nat (S m) * capacity size)
        with (reserved + capacity size + N.of_nat m * capacity size) by lia. done.
  - rewrite (proj2 (N.leb_gt _ _)) by nia. destruct Hpush as [x ->]. exists x, 0%nat.
    unfold grown. rewrite app_nil_r, N.add_0_r. split; [by destruct key|lia].
Qed.
(** The pages that an append adds, and when it can be served. *)
Definition new_pages (key : StoredKey) (bytes : text) : N :=
  (sk_length key + len bytes + size - 1) / size - len (sk_pages key).

Definition append_fits (key : StoredKey) (reserved : N) (bytes : text) : Prop :=
  sk_length key + len bytes <= usize_max /\
  reserved + new_pages key bytes * capacity size <= byte_limit options.

Lemma new_pages_enough key bytes :
  sk_length key + len bytes <= (len (sk_pages key) + new_pages key bytes) * size.
Proof.
  unfold new_pages. set (end_ := sk_length key + len bytes).
  pose proof (N.div_mod' (end_ + size - 1) size). pose proof (N.mod_lt (end_ + size - 1) size ltac:(lia)).
  set (total := (end_ + size - 1) / size) in *. assert (end_ <= total * size) by lia.
  destruct (N.le_gt_cases total (len (sk_pages key))) as [Hle|Hgt]; nia.
Qed.

Lemma copied_text key n bytes pages :
  key_ok size key -> sk_length key + len bytes <= (len (sk_pages key) + N.of_nat n) * size ->
  concat (page_data <$> pages) = overwrite (N.to_nat (sk_length key + 0)) bytes (key_bytes (grown key n)) ->
  key_text (mkStoredKey pages (sk_length key + len bytes)) = key_text key ++ bytes.
Proof.
  intros Hk Hfit Hb. rewrite <- (grown_text key n Hk). unfold key_text, key_bytes at 1. simpl. rewrite Hb.
  replace (N.to_nat (sk_length key + len bytes)) with (N.to_nat (sk_length key + 0) + length bytes)%nat
    by (unfold len; lia).
  rewrite overwrite_end; [by rewrite N.add_0_r|].
  pose proof (key_bytes_length _ _ (grown_ok key n Hk)) as Hl. simpl in Hl.
  unfold len in *. rewrite length_app, length_replicate in Hl. nia.
Qed.

(** The copy into pages that are there. *)
Lemma append_copies key n bytes reserved :
  key_ok size key -> sk_length key + len bytes <= (len (sk_pages key) + N.of_nat n) * size ->
  exists pages, copy_loop (length bytes) size bytes 0 (grown key n, reserved) =
      Val tt (mkStoredKey pages (sk_length key), reserved) /\
    let key' := mkStoredKey pages (sk_length key + len bytes) in
    key_ok size key' /\ key_text key' = key_text key ++ bytes /\ key_reserved key' = key_reserved (grown key n).
Proof.
  intros Hk Hfit. assert (len (sk_pages (grown key n)) = len (sk_pages key) + N.of_nat n) as Hl
    by (unfold len; simpl; rewrite length_app, length_replicate; lia).
  destruct (copy_loop_spec (length bytes) size bytes 0 (grown key n) reserved (grown_ok key n Hk) Hsize)
    as (pages & Hrun & Hcaps & Hk' & Hb); [by rewrite Hl|lia|unfold len; lia|].
  exists pages. split; [exact Hrun|]. cbv zeta. split; [|split].
  - split; [apply Hk'|]. simpl. apply (f_equal length) in Hcaps. rewrite !length_fmap in Hcaps.
    unfold len in *. rewrite Hcaps. lia.
  - by apply (copied_text key n).
  - unfold key_reserved. simpl. by rewrite Hcaps.
Qed.
(** Errors of an append leave the text of the key as it was. *)
Lemma append_key_spec key reserved offset bytes :
  key_ok size key -> reserved <= byte_limit options -> sk_length key <= u64_max ->
  match append_key capacity options offset bytes (key, reserved) with
  | Val _ (key', reserved') =>
      offset = sk_length key /\ append_fits key reserved bytes /\ key_ok size key' /\
      key_text key' = key_text key ++ bytes /\ reserved' = reserved + new_pages key bytes * capacity size /\
      reserved' + key_reserved key = reserved + key_reserved key'
  | Throw _ (key', reserved') =>
      ~ (offset = sk_length key /\ append_fits key reserved bytes) /\ key_ok size key' /\
      key_text key' = key_text key /\ reserved' <= byte_limit options /\
      reserved' + key_reserved key = reserved + key_reserved key'
  | Stop _ => False
  end.
Proof.
  intros Hk Hres Hmax. unfold append_key, bind at 1, gets. rewrite (proj2 (N.ltb_ge _ _)) by done.
  destruct (N.eqb_spec (sk_length key) offset) as [<-|Hne]; simpl; [|by split_and!; [intros [-> _]|..]].
  unfold bind at 1, require, checked_add. unfold append_fits.
  destruct (N.leb_spec (sk_length key + len bytes) usize_max) as [Hend|Hend]; simpl; [|split_and!; try done; lia].
  unfold saturating_sub. fold size. fold (new_pages key bytes). set (new := new_pages key bytes).
  assert (byte_limit options <= usize_max) as Hbl by (unfold byte_limit; destruct (max_bytes options); lia).
  assert (new * size <= new * capacity size) as Hmul by nia.
  assert (reserved + new * size <= byte_limit options \/ byte_limit options < reserved + new * capacity size) as Hcase by lia.
  unfold bind at 1, require, checked_mul.
  destruct (N.leb_spec (new * size) usize_max) as [H1|H1]; simpl; [|split_and!; try done; lia].
  unfold bind at 1. destruct (N.leb_spec (reserved + new * size) usize_max) as [H2|H2]; simpl; [|split_and!; try done; lia].
  destruct (match max_bytes options with Some limit => limit <? reserved + new * size | None => false end) eqn:Hover.
  { assert (byte_limit options < reserved + new * size); [|split_and!; try done; lia].
    unfold byte_limit. destruct (max_bytes options); [|done]. apply N.ltb_lt in Hover. lia. }
  pose proof (push_pages_spec (N.to_nat new) key reserved Hres) as Hpush. rewrite N2Nat.id in Hpush.
  unfold bind at 1. destruct (N.leb_spec (reserved + new * capacity size) (byte_limit options)) as [H3|H3].
  - rewrite Hpush. destruct (append_copies key (N.to_nat new) bytes (reserved + new * capacity size) Hk)
      as (pages & Hrun & Hk' & Ht & Hr); [rewrite N2Nat.id; apply new_pages_enough|].
    unfold bind. rewrite Hrun. simpl. rewrite grown_reserved, N2Nat.id in Hr. by split_and!; [..|lia].
  - destruct Hpush as (x & m & -> & Hm). split_and!; [lia|by apply grown_ok|by apply grown_text|done|].
    rewrite grown_reserved. lia.
Qed.
End appending.

(** ** The store *)

(** The texts that a store keeps. *)
Definition store_view (self : MemoryKeyStore) : gmap N text := key_text <$> ks_keys self.

Definition store_reserved (keys : gmap N StoredKey) : N := map_fold (fun _ key n => key_reserved key + n) 0 keys.

(** Every key is in order, and what is reserved is what their pages have. *)
Record store_ok (self : MemoryKeyStore) : Prop := {
  store_size : 0 < page_bytes (ks_options self);
  store_keys : map_Forall (fun _ key => key_ok (page_bytes (ks_options self)) key /\ sk_length key <= u64_max)
                 (ks_keys self);
  store_sum : ks_reserved self = store_reserved (ks_keys self);
  store_budget : ks_reserved self <= byte_limit (ks_options self)
}.

Lemma reserved_insert keys id key :
  keys !! id = None -> store_reserved (<[id := key]> keys) = key_reserved key + store_reserved keys.
Proof. intros H. unfold store_reserved. rewrite map_fold_insert_L; [done|intros; lia|done]. Qed.

Lemma reserved_delete keys id key :
  keys !! id = Some key -> store_reserved keys = key_reserved key + store_reserved (delete id keys).
Proof. intros H. unfold store_reserved. rewrite (map_fold_delete_L _ _ id key); [done|intros; lia|done]. Qed.

Lemma reserved_update keys id key key' :
  keys !! id = Some key ->
  store_reserved (<[id := key']> keys) + key_reserved key = store_reserved keys + key_reserved key'.
Proof.
  intros H. rewrite (reserved_delete keys id key H), <- insert_delete_eq, reserved_insert by apply lookup_delete_eq. lia.
Qed.

(** Whether another key is within the budget of keys. *)
Definition keys_full (self : MemoryKeyStore) : bool :=
  match max_keys (ks_options self) with Some limit => limit <=? key_count self | None => false end.

Lemma create_spec key self :
  store_ok self ->
  match create_inner key self with
  | Val _ self' => store_view self !! key = None /\ keys_full self = false /\ store_ok self' /\
      ks_options self' = ks_options self /\ ks_reserved self' = ks_reserved self /\
      store_view self' = <[key := []]> (store_view self)
  | Throw _ self' => self' = self /\ (is_Some (store_view self !! key) \/ keys_full self = true)
  | Stop _ => False
  end.
Proof.
  intros [Hs Hk Hsum Hb]. unfold create_inner, store_view. rewrite lookup_fmap. fold (keys_full self).
  destruct (ks_keys self !! key) as [stored|] eqn:Hkey; simpl.
  { split; [done|]. by left. }
  destruct (keys_full self); [split; [done|by right]|]. split; [done|]. split; [done|].
  split; [|split; [done|split; [done|]]]; simpl; [|by rewrite fmap_insert].
  split; simpl; [done| |by rewrite reserved_insert|done].
  apply map_Forall_insert_2; [|done]. split; [|by simpl]. split; [constructor|by simpl].
Qed.

Lemma compare_spec key offset bytes self :
  store_ok self ->
  match store_view self !! key with
  | Some s =>
      if offset <=? len s
      then compare_inner key offset bytes self = Val (cmp_prefix (drop (N.to_nat offset) s) bytes) self
      else compare_inner key offset bytes self = Throw (KeyOffset offset) self
  | None => compare_inner key offset bytes self = Throw (KeyIdentity key) self
  end.
Proof.
  intros [Hs Hk Hsum Hb]. unfold store_view. rewrite lookup_fmap. unfold compare_inner, bind, gets, require.
  destruct (ks_keys self !! key) as [stored|] eqn:Hkey; [|done].
  destruct (Hk key stored Hkey) as [Hok Hmax].
  cbn [fmap option_fmap option_map]. rewrite (key_text_length _ _ Hok). unfold ret.
  destruct (N.leb_spec offset (sk_length stored)) as [Hle|Hgt].
  - rewrite (proj2 (N.ltb_ge usize_max offset)) by (unfold usize_max; lia).
    rewrite (proj2 (N.ltb_ge _ _)) by done. rewrite (compare_loop_spec _ (page_bytes (ks_options self))) by (done || lia).
    by rewrite N.add_0_r.
  - by destruct (usize_max <? offset); [|rewrite (proj2 (N.ltb_lt _ _))].
Qed.

Lemma release_pages pages options keys reserved :
  foldr N.add 0 (page_capacity <$> pages) <= reserved ->
  for_each pages unreserve (mkKeyStore options keys reserved) =
    Val tt (mkKeyStore options keys (reserved - foldr N.add 0 (page_capacity <$> pages))).
Proof.
  revert reserved. induction pages as [|page pages IH]; intros reserved Hle; cbn [for_each fmap list_fmap foldr] in *.
  { by rewrite N.sub_0_r. }
  assert (checked_sub reserved (page_capacity page) = Some (reserved - page_capacity page)) as Hsub
    by (unfold checked_sub; by rewrite (proj2 (N.leb_le _ _)) by lia).
  unfold bind, unreserve, gets, bind, expect. cbn [ks_reserved]. rewrite Hsub. unfold ret, modify.
  cbn [ks_options ks_keys]. rewrite IH by lia. do 2 f_equal. lia.
Qed.

Lemma release_spec key self :
  store_ok self ->
  match release_inner key self with
  | Val _ self' => is_Some (store_view self !! key) /\ store_ok self' /\ ks_options self' = ks_options self /\
      ks_reserved self' <= ks_reserved self /\ store_view self' = delete key (store_view self)
  | Throw _ self' => self' = self /\ store_view self !! key = None
  | Stop _ => False
  end.
Proof.
  intros [Hs Hk Hsum Hb]. unfold release_inner, store_view, bind, gets, require, modify. rewrite lookup_fmap.
  destruct (ks_keys self !! key) as [stored|] eqn:Hkey; simpl; [|done].
  pose proof (reserved_delete _ _ _ Hkey) as Hdel.
  rewrite release_pages by (fold (key_reserved stored); lia). fold (key_reserved stored).
  split; [done|]. split; [|split; [done|split; [simpl; lia|by rewrite <- fmap_delete]]].
  split; simpl; [done|by apply map_Forall_delete|lia|lia].
Qed.

(** A fragment adds no more pages than it has bytes. *)
Lemma new_pages_few options key bytes :
  0 < page_bytes options -> key_ok (page_bytes options) key -> new_pages options key bytes <= len bytes.
Proof.
  intros Hs [_ Hf]. unfold new_pages. set (size := page_bytes options) in *.
  enough ((sk_length key + len bytes + size - 1) / size < len (sk_pages key) + len bytes + 1) by lia.
  apply N.Div0.div_lt_upper_bound. nia.
Qed.

Section store.
Context (capacity : N -> N).

(** When the budget of bytes allows an append. *)
Definition append_room (self : MemoryKeyStore) (key : N) (bytes : text) : Prop :=
  exists stored, ks_keys self !! key = Some stored /\
    append_fits capacity (ks_options self) stored (ks_reserved self) bytes.

Lemma append_spec key offset bytes self :
  store_ok self -> page_bytes (ks_options self) <= capacity (page_bytes (ks_options self)) ->
  match append_inner capacity key offset bytes self with
  | Val _ self' => exists s, store_view self !! key = Some s /\ offset = len s /\ append_room self key bytes /\
      store_ok self' /\ ks_options self' = ks_options self /\
      ks_reserved self' <= ks_reserved self + len bytes * capacity (page_bytes (ks_options self)) /\
      store_view self' = <[key := s ++ bytes]> (store_view self)
  | Throw _ self' => store_ok self' /\ ks_options self' = ks_options self /\ store_view self' = store_view self /\
      ~ (exists s, store_view self !! key = Some s /\ offset = len s /\ append_room self key bytes)
  | Stop _ => False
  end.
Proof.
  intros Hok Hcap. pose proof Hok as [Hs Hk Hsum Hb]. unfold append_inner, store_view. rewrite lookup_fmap.
  destruct (ks_keys self !! key) as [stored|] eqn:Hkey; [|by split_and!; [done..|intros (? & [=] & _)]].
  destruct (Hk key stored Hkey) as [Hko Hmax].
  pose proof (append_key_spec capacity (ks_options self) Hcap Hs stored (ks_reserved self) offset bytes Hko Hb Hmax) as Ha.
  assert (forall stored' reserved', key_ok (page_bytes (ks_options self)) stored' -> sk_length stored' <= u64_max ->
    reserved' <= byte_limit (ks_options self) ->
    reserved' + key_reserved stored = ks_reserved self + key_reserved stored' ->
    store_ok (mkKeyStore (ks_options self) (<[key := stored']> (ks_keys self)) reserved')) as Hstore.
  { intros stored' reserved' Hko' Hmax' Hb' Hsum'. split; simpl; [done|by apply map_Forall_insert_2| |done].
    pose proof (reserved_update _ _ _ stored' Hkey). lia. }
  destruct (append_key _ _ _ _ _) as [[] [stored' reserved']|x [stored' reserved']|]; simpl; [| |done].
  - destruct Ha as (-> & Hfit & Hko' & Ht & Hb' & Hsum'). exists (key_text stored).
    pose proof (new_pages_few (ks_options self) stored bytes Hs Hko) as Hfew.
    split; [done|]. split; [by rewrite (key_text_length _ _ Hko)|]. split; [by exists stored|].
    split; [apply Hstore; [done| |destruct Hfit; lia|done]|split; [done|split; [nia|by rewrite fmap_insert, Ht]]].
    rewrite <- (key_text_length _ _ Hko'), Ht. pose proof (key_text_length _ _ Hko) as Hl. destruct Hfit as [Hfit _].
    unfold len, usize_max in *. rewrite length_app. lia.
  - destruct Ha as (Hno & Hko' & Ht & Hb' & Hsum'). split; [apply Hstore; try done|].
    + by rewrite <- (key_text_length _ _ Hko'), Ht, (key_text_length _ _ Hko).
    + split; [done|]. split; [rewrite fmap_insert, Ht; apply insert_id; by rewrite lookup_fmap, Hkey|].
      intros (s & [= <-] & Hoff & stored'' & [= <-]%(eq_trans (eq_sym Hkey)) & Hfit). apply Hno.
      by rewrite Hoff, (key_text_length _ _ Hko).
Qed.
End store.

Lemma store_empty self : store_ok self -> store_view self = ∅ -> ks_reserved self = 0.
Proof.
  intros [_ _ -> _] Hv. unfold store_view in Hv. apply fmap_empty_inv in Hv. by rewrite Hv.
Qed.

Lemma store_new_ok options : 0 < page_bytes options -> store_ok (store_new options).
Proof. intros Hs. split; [done|by apply map_Forall_empty|done|apply N.le_0_l]. Qed.

(** ** What the store promises to a validator *)

(** The store serves a document while no budget on keys is set and the bytes that may still come
    are within the budget on bytes, one page for each. *)
#[export] Program Instance memory_workspace_laws (capacity : N -> N)
  : @WorkspaceLaws MemoryKeyStore MemoryKeyError (memory_workspace capacity) := {
  ws_view := store_view;
  ws_can self room :=
    store_ok self /\ max_keys (ks_options self) = None /\
    page_bytes (ks_options self) <= capacity (page_bytes (ks_options self)) /\
    ks_reserved self + room * capacity (page_bytes (ks_options self)) <= byte_limit (ks_options self);
  ws_ready _ := True;
  ws_noted _ _ := True
}.
Next Obligation.
  intros capacity keys room room' (Hok & Hm & Hc & Hb) Hle. simpl in *. split_and!; try done. nia.
Qed.
Next Obligation.
  intros capacity keys key room Hk _ (Hok & Hm & Hc & Hb). simpl in *. unfold wp.
  pose proof (create_spec key keys Hok) as H. unfold keys_full in H. rewrite Hm in H.
  destruct (create_inner key keys) as [[] keys'|x keys'|]; [| |done].
  - destruct H as (_ & _ & Hok' & Ho & Hr & Hv). by rewrite Ho, Hr.
  - destruct H as [_ [[s Hs]|H]]; [by rewrite Hk in Hs|done].
Qed.
Next Obligation.
  intros capacity keys key offset bytes stored room Hk Hle Hmax Hcan. simpl in *. unfold wp.
  pose proof (compare_spec key offset bytes keys (proj1 Hcan)) as H. rewrite Hk in H.
  rewrite (proj2 (N.leb_le _ _)) in H by lia. by rewrite H.
Qed.
Next Obligation.
  intros capacity keys key bytes stored room Hk Hmax (Hok & Hm & Hc & Hb). simpl in *. unfold wp.
  pose proof (append_spec capacity key (len stored) bytes keys Hok Hc) as H.
  assert (exists key', ks_keys keys !! key = Some key' /\ stored = key_text key') as (key' & Hkey & ->).
  { unfold store_view in Hk. rewrite lookup_fmap in Hk. destruct (ks_keys keys !! key) as [key'|]; simplify_eq/=. eauto. }
  pose proof (store_keys _ Hok key key' Hkey) as [Hko _]. pose proof (key_text_length _ _ Hko) as Hl.
  assert (append_room capacity keys key bytes) as Hroom.
  { exists key'. split; [done|]. pose proof (new_pages_few _ key' bytes (store_size _ Hok) Hko).
    unfold append_fits, usize_max. unfold len in *. rewrite length_app in Hmax. split; [lia|nia]. }
  destruct (append_inner _ _ _ _ _) as [[] keys'|x keys'|]; [| |done].
  - destruct H as (s & Hs & _ & _ & Hok' & Ho & Hr & Hv). rewrite Hk in Hs. injection Hs as <-. rewrite Ho.
    split_and!; try done. nia.
  - destruct H as (_ & _ & _ & H). destruct H. by exists (key_text key').
Qed.
Next Obligation.
  intros capacity keys key room [stored Hk] (Hok & Hm & Hc & Hb). simpl in *. unfold wp.
  pose proof (release_spec key keys Hok) as H. destruct (release_inner key keys) as [[] keys'|x keys'|]; [| |done].
  - destruct H as (_ & Hok' & Ho & Hr & Hv). rewrite Ho. split_and!; try done. lia.
  - destruct H as [_ H]. by rewrite H in Hk.
Qed.

(** ** Theorems *)

(** C25. The paged store refines a map from identities to texts, whatever the
    size of a page. Each operation succeeds exactly when the key and the offset are right and the
    budgets allow it, and then does to the texts what its name says. An operation that fails
    changes no text, even if it had reserved pages. No operation panics or diverges, what is
    reserved is always the sum of what the pages have and within the budget, and it is nothing
    once all keys are released. *)
Theorem memory_store_refines_texts capacity self key :
  store_ok self -> page_bytes (ks_options self) <= capacity (page_bytes (ks_options self)) ->
  (match create_inner key self with
   | Val _ self' => store_view self !! key = None /\ keys_full self = false /\ store_ok self' /\
       store_view self' = <[key := []]> (store_view self)
   | Throw _ self' => self' = self /\ (is_Some (store_view self !! key) \/ keys_full self = true)
   | Stop _ => False
   end) /\
  (forall offset bytes,
     compare_inner key offset bytes self =
       match store_view self !! key with
       | None => Throw (KeyIdentity key) self
       | Some s => if offset <=? len s
                   then Val (text_cmp (take (length bytes) (drop (N.to_nat offset) s)) bytes) self
                   else Throw (KeyOffset offset) self
       end) /\
  (forall offset bytes,
     let served s := store_view self !! key = Some s /\ offset = len s /\ append_room capacity self key bytes in
     match append_inner capacity key offset bytes self with
     | Val _ self' => store_ok self' /\
         exists s, served s /\ store_view self' = <[key := s ++ bytes]> (store_view self)
     | Throw _ self' => store_ok self' /\ store_view self' = store_view self /\ ~ exists s, served s
     | Stop _ => False
     end) /\
  (match release_inner key self with
   | Val _ self' => is_Some (store_view self !! key) /\ store_ok self' /\
       store_view self' = delete key (store_view self)
   | Throw _ self' => self' = self /\ store_view self !! key = None
   | Stop _ => False
   end) /\
  (store_view self = ∅ -> ks_reserved self = 0).
Proof.
  intros Hok Hcap. split_and!.
  - pose proof (create_spec key self Hok) as H. destruct (create_inner key self); naive_solver.
  - intros offset bytes. pose proof (compare_spec key offset bytes self Hok) as H.
    destruct (store_view self !! key) as [s|]; [|done]. by destruct (offset <=? len s).
  - intros offset bytes served. pose proof (append_spec capacity key offset bytes self Hok Hcap) as H.
    destruct (append_inner capacity key offset bytes self) as [[] self'|x self'|]; [|naive_solver|done].
    destruct H as (s & Hs & Ho & Hr & Hok' & _ & _ & Hv). split; [done|]. by exists s.
  - pose proof (release_spec key self Hok) as H. destruct (release_inner key self); naive_solver.
  - by apply store_empty.
Qed.

(** A store with pages of two bytes, in which a key of five bytes takes three. *)
Definition sample_store : MemoryKeyStore :=
  match (create_inner 7 ;;; append_inner (fun n => n) 7 0 (t "abc") ;;; append_inner (fun n => n) 7 3 (t "de"))%comp
          (store_new (mkKeyOptions 2 (Some 1) (Some 6))) with
  | Val _ self | Throw _ self => self
  | Stop _ => store_new (mkKeyOptions 0 None None)
  end.

Lemma sample_store_ok : store_ok sample_store.
Proof.
  split; [by vm_compute| |by vm_compute|by vm_compute].
  assert (ks_keys sample_store = {[7 := mkStoredKey
    [mkPage (t "ab") 2; mkPage (t "cd") 2; mkPage ["e"%char; Ascii.zero] 2] 5]}) as -> by (vm_compute; reflexivity).
  apply map_Forall_singleton. split; [split; [by repeat constructor|by vm_compute]|by vm_compute].
Qed.

Lemma memory_store_refines_texts_witness :
  compare_inner 7 1 (t "bcdf") sample_store = Val Lt sample_store /\
  exists x self', append_inner (fun n => n) 7 5 (t "fg") sample_store = Throw x self' /\
    store_view self' = store_view sample_store.
Proof.
  destruct (memory_store_refines_texts (fun n => n) sample_store 7 sample_store_ok) as (_ & Hc & Ha & _).
  { vm_compute. discriminate. }
  split.
  - rewrite Hc. vm_compute. reflexivity.
  - specialize (Ha 5 (t "fg")). cbv zeta in Ha.
    destruct (append_inner (fun n => n) 7 5 (t "fg") sample_store) as [[] self'|x self'|] eqn:He.
    + exfalso. vm_compute in He. discriminate.
    + exists x, self'. split; [reflexivity|]. apply Ha.
    + destruct Ha.
Defined.
