(* ===== verification/Cap.v ===== *)
(** * Capabilities

    crates/xolotl-types/src/cap.rs: capability literals, their attenuation predicates,
    coverage of requests and of other capabilities, and attenuation by intersection. *)

From Stdlib Require Import ZArith Ascii SpecFloat.
From stdpp Require Import base numbers list option strings.
From S2P Require Import Prelude Text Path Collection ValueList ValueMap Value.

Local Open Scope char_scope.
Local Open Scope result_scope.

(** ** Data *)

Inductive PredOp : Type := PEq | PNe | PLe | PLt | PGe | PGt.

#[export] Instance PredOp_eq_dec : EqDecision PredOp.
Proof. solve_decision. Defined.

Record Predicate : Type := mkPredicate { pred_key : text; pred_op : PredOp; pred_value : text }.

#[export] Instance Predicate_eq_dec : EqDecision Predicate.
Proof. solve_decision. Defined.

Record Capability : Type := mkCapability {
  cap_verb : text;
  cap_cluster : option text;
  cap_scheme : text;
  cap_segments : list text;
  cap_method : option text;
  cap_predicate : option Predicate
}.

#[export] Instance Capability_eq_dec : EqDecision Capability.
Proof. solve_decision. Defined.

(** [CapError]; its messages are not modelled. *)
Inductive CapError : Type := Malformed.

(** ** Predicates *)

Definition predicate_number_text (value : text) : text := default value (strip_prefix (t "$") value).

Definition parse_predicate_integer (value : text) : Result Z CapError :=
  ok_or (parse_i64 (predicate_number_text value)) Malformed.

Definition parse_predicate_number (value : text) : Result f64 CapError :=
  let? number := ok_or (parse_f64 (predicate_number_text value)) Malformed in
  if is_finite number then Ok number else Err Malformed.

(** The characters an operator starts with. *)
Definition operator_char (c : ascii) : bool := existsb (Ascii.eqb c) (t "<>!=").

(** The operator at the start of a text, and its width. *)
Definition parse_operator (tail : text) : Result (nat * PredOp) CapError :=
  if starts_with (t "<=") tail then Ok (2%nat, PLe)
  else if starts_with (t ">=") tail then Ok (2%nat, PGe)
  else if starts_with (t "!=") tail then Ok (2%nat, PNe)
  else match tail with
       | "=" :: _ => Ok (1%nat, PEq)
       | "<" :: _ => Ok (1%nat, PLt)
       | ">" :: _ => Ok (1%nat, PGt)
       | _ => Err Malformed
       end.

(** Operators that compare numbers. *)
Definition is_ordering (op : PredOp) : bool :=
  match op with PLe | PLt | PGe | PGt => true | _ => false end.

(** The literal is one the operator can use. *)
Definition check_literal (key : text) (op : PredOp) (value : text) : Result unit CapError :=
  if decide (key = t "until") then
    if decide (op = PEq) then let? _ := ok_or (parse_i64 value) Malformed in Ok tt
    else Err Malformed
  else if is_ordering op then let? _ := parse_predicate_number value in Ok tt
  else Ok tt.

Definition predicate_parse (raw : text) : Result Predicate CapError :=
  let? (before, tail) := ok_or (find_split operator_char (trim raw)) Malformed in
  let? (width, op) := parse_operator tail in
  let key := trim before in
  let value := trim (drop width tail) in
  match key, value with
  | [], _ | _, [] => Err Malformed
  | _, _ =>
      let? _ := check_literal key op value in
      Ok (mkPredicate key op value)
  end.

Definition cmp_num (lhs : f64) (op : PredOp) (rhs : f64) : bool :=
  match op with
  | PEq => f64_eqb lhs rhs
  | PNe => negb (f64_eqb lhs rhs)
  | PLe => f64_leb lhs rhs
  | PLt => f64_ltb lhs rhs
  | PGe => f64_leb rhs lhs
  | PGt => f64_ltb rhs lhs
  end.

Definition cmp_int (lhs : Z) (op : PredOp) (rhs : Z) : bool :=
  match op with
  | PEq => (lhs =? rhs)%Z
  | PNe => negb (lhs =? rhs)%Z
  | PLe => (lhs <=? rhs)%Z
  | PLt => (lhs <? rhs)%Z
  | PGe => (rhs <=? lhs)%Z
  | PGt => (rhs <? lhs)%Z
  end.

(** [Predicate::eval]. *)
Definition predicate_eval (self : Predicate) (input : Value) (now_millis : Z) : bool :=
  if decide (pred_key self = t "until") then
    if decide (pred_op self = PEq) then
      match parse_i64 (pred_value self) with
      | Some bound => (now_millis <=? bound)%Z
      | None => false
      end
    else false
  else
    match (map ← as_map input; map_get map (pred_key self)) with
    | None => false
    | Some field =>
        match pred_op self, field with
        | PEq, VStr s => bool_decide (s = pred_value self)
        | PNe, VStr s => negb (bool_decide (s = pred_value self))
        | op, VInt n =>
            match parse_predicate_integer (pred_value self) with
            | Ok rhs => cmp_int n op rhs
            | Err _ => false
            end
        | op, VFloat bits =>
            is_finite (f64_from_bits bits) &&
            match parse_predicate_number (pred_value self) with
            | Ok rhs => cmp_num (f64_from_bits bits) op rhs
            | Err _ => false
            end
        | _, _ => false
        end
    end.

Definition op_text (op : PredOp) : text :=
  match op with
  | PEq => t "="
  | PNe => t "!="
  | PLe => t "<="
  | PLt => t "<"
  | PGe => t ">="
  | PGt => t ">"
  end.

(** [Display for Predicate]. *)
Definition predicate_text (self : Predicate) : text :=
  pred_key self ++ op_text (pred_op self) ++ pred_value self.

(** ** Construction *)

Definition is_capability_verb (verb : text) : bool :=
  existsb (fun v => bool_decide (verb = t v))
    ["*"; "perform"; "publish"; "read"; "write"; "append"; "subscribe"; "spawn"; "spawn-with";
     "act-as"; "delegate"]%string.

Definition is_wildcard_scheme (scheme : text) : bool :=
  bool_decide (scheme = t "*") || bool_decide (scheme = t "**").

Definition validate_capability_scheme (verb scheme : text) : Result unit CapError :=
  let? _ := if is_wildcard_scheme scheme then Ok tt
            else match try_new scheme with Ok _ => Ok tt | Err _ => Err Malformed end in
  if bool_decide (verb = t "*") || is_wildcard_scheme scheme then Ok tt
  else
    let expected := if decide (verb = t "spawn") then Some (t "process")
                    else if decide (verb = t "act-as") then Some (t "identity") else None in
    match expected with
    | Some expected => if decide (scheme = expected) then Ok tt else Err Malformed
    | None => Ok tt
    end.

Definition validate_capability_segment (segment : text) : Result unit CapError :=
  match result_bind (try_new (t "state")) (fun path => try_push path segment) with
  | Ok _ => Ok tt
  | Err _ => Err Malformed
  end.

Fixpoint validate_capability_segments (l : list text) : Result (list text) CapError :=
  match l with
  | [] => Ok []
  | segment :: l' =>
      let? _ := validate_capability_segment segment in
      let? segments := validate_capability_segments l' in
      Ok (segment :: segments)
  end.

(** [Capability::try_new]. *)
Definition cap_try_new (verb scheme : text) (segments : list text) (predicate : option Predicate)
    : Result Capability CapError :=
  match verb with
  | [] => Err Malformed
  | _ =>
      if negb (is_capability_verb verb) then Err Malformed
      else
        let? _ := validate_capability_scheme verb scheme in
        let? parsed := validate_capability_segments segments in
        Ok (mkCapability verb None scheme parsed None predicate)
  end.

Definition try_with_method (self : Capability) (method : text) : Result Capability CapError :=
  match method with
  | [] => Err Malformed
  | _ => Ok (mkCapability (cap_verb self) (cap_cluster self) (cap_scheme self) (cap_segments self)
               (Some method) (cap_predicate self))
  end.

Definition cap_with_cluster (self : Capability) (cluster : text) : Result Capability CapError :=
  let? _ := if decide (cluster = t "*") then Ok tt
            else match result_bind (try_new (t "state")) (fun path => Path.try_with_cluster path cluster) with
                 | Ok _ => Ok tt
                 | Err _ => Err Malformed
                 end in
  Ok (mkCapability (cap_verb self) (Some cluster) (cap_scheme self) (cap_segments self)
        (cap_method self) (cap_predicate self)).

(** ** Method names *)

Definition method_unreserved (byte : ascii) : bool :=
  is_ascii_alphanumeric byte || existsb (Ascii.eqb byte) (t "-_.~").

Definition canonical_hex (byte : ascii) : option N :=
  if in_range "0" "9" byte then Some (code byte - code "0")%N
  else if in_range "A" "F" byte then Some (code byte - code "A" + 10)%N
  else None.

(** The [while] loop of [decode_method]. *)
Fixpoint decode_bytes (encoded : text) : Result text CapError :=
  match encoded with
  | [] => Ok []
  | byte :: rest =>
      if decide (byte = "%") then
        match rest with
        | high :: low :: rest' =>
            match canonical_hex high, canonical_hex low with
            | Some high, Some low =>
                let decoded := Ascii.ascii_of_N (N.lor (N.shiftl high 4) low) in
                if method_unreserved decoded then Err Malformed
                else let? bytes := decode_bytes rest' in Ok (decoded :: bytes)
            | _, _ => Err Malformed
            end
        | _ => Err Malformed
        end
      else if method_unreserved byte then let? bytes := decode_bytes rest in Ok (byte :: bytes)
      else Err Malformed
  end.

Definition decode_method (encoded : text) : Result text CapError :=
  match encoded with
  | [] => Err Malformed
  | _ =>
      let? bytes := decode_bytes encoded in
      if valid_utf8 bytes then Ok bytes else Err Malformed
  end.

(** [{byte:02X}]. *)
Definition hex_digit (n : N) : ascii :=
  Ascii.ascii_of_N (if (n <? 10)%N then code "0" + n else code "A" + (n - 10))%N.

Definition encode_byte (byte : ascii) : text :=
  if method_unreserved byte then [byte]
  else ["%"; hex_digit (code byte / 16); hex_digit (code byte mod 16)].

Definition encode_method (method : text) : text := concat (encode_byte <$> method).

(** ** Literals *)

(** The scheme and the body after it; a bare wildcard covers every path. *)
Definition split_scheme (head : text) : text * option text :=
  if is_wildcard_scheme head then (head, Some (t "**"))
  else match split_once (t "/") head with
       | Some (s, b) => (s, Some b)
       | None => (head, None)
       end.

(** The cluster and what follows it. *)
Definition split_cluster (head : text) : Result (option text * text) CapError :=
  match strip_prefix (t "path://") head with
  | Some clustered =>
      let? (cluster, rest) := ok_or (split_once (t "/") clustered) Malformed in
      Ok (Some cluster, rest)
  | None => Ok (None, head)
  end.

(** The part before [@], and the predicate after it. *)
Definition split_predicate (rest : text) : Result (text * option Predicate) CapError :=
  match find_split (Ascii.eqb "@") rest with
  | Some (head, at_) =>
      let? predicate := predicate_parse (drop 1 at_) in
      if contains "#" (drop 1 at_) then Err Malformed else Ok (head, Some predicate)
  | None => Ok (rest, None)
  end.

(** The part before [#], and the method after it. *)
Definition split_method (head : text) : Result (text * option text) CapError :=
  match split_once (t "#") head with
  | Some (head, method) => let? method := decode_method method in Ok (head, Some method)
  | None => Ok (head, None)
  end.

Definition body_parts (body : option text) : Result (list text) CapError :=
  match body with
  | Some [] => Err Malformed
  | Some body => Ok (split "/" body)
  | None => Ok []
  end.

(** [Capability::parse]. *)
Definition cap_parse (s : text) : Result Capability CapError :=
  let? (verb, rest) := ok_or (split_once (t "://") s) Malformed in
  let? (head, predicate) := split_predicate rest in
  let? (head, method) := split_method head in
  match verb with
  | [] => Err Malformed
  | _ =>
      if negb (is_capability_verb verb) then Err Malformed
      else
        let? (cluster, head) := split_cluster head in
        let '(scheme, body) := split_scheme head in
        let? segments := body_parts body in
        let? capability := cap_try_new verb scheme segments predicate in
        let? capability := match method with
                           | Some method => try_with_method capability method
                           | None => Ok capability
                           end in
        match cluster with
        | Some cluster => cap_with_cluster capability cluster
        | None => Ok capability
        end
  end.

(** [Display for Capability]. *)
Definition cap_text (self : Capability) : text :=
  cap_verb self ++ t "://" ++
  match cap_cluster self with Some cluster => t "path://" ++ cluster ++ t "/" | None => [] end ++
  cap_scheme self ++ slashed (cap_segments self) ++
  match cap_method self with Some method => t "#" ++ encode_method method | None => [] end ++
  match cap_predicate self with Some p => t "@" ++ predicate_text p | None => [] end.

(** ** Coverage *)

Definition is_global_root (self : Capability) : bool :=
  bool_decide (cap_cluster self = None) && bool_decide (cap_verb self = t "*") &&
  bool_decide (cap_scheme self = t "**") && bool_decide (cap_segments self = [t "**"]).

(** The cluster scope against a target's, or another capability's, cluster. *)
Definition cluster_scope_covers (scope target : option text) : bool :=
  match scope, target with
  | None, None => true
  | Some cluster, Some target => bool_decide (cluster = t "*") || bool_decide (cluster = target)
  | _, _ => false
  end.

Definition cluster_covers_path (self : Capability) (target : Path) : bool :=
  is_global_root self || cluster_scope_covers (cap_cluster self) (path_cluster target).

Definition cluster_covers_cap (self other : Capability) : bool :=
  is_global_root self || cluster_scope_covers (cap_cluster self) (cap_cluster other).

Definition verb_covers (self : Capability) (verb : text) : bool :=
  bool_decide (cap_verb self = t "*") || bool_decide (cap_verb self = verb).

Definition scheme_covers (self : Capability) (scheme : text) : bool :=
  is_wildcard_scheme (cap_scheme self) || bool_decide (cap_scheme self = scheme).

Definition covers_path (self : Capability) (verb : text) (target : Path) : bool :=
  cluster_covers_path self target && verb_covers self verb && scheme_covers self (path_scheme target) &&
  match_segments (cap_segments self) (path_segments target).

Definition covers (self : Capability) (verb : text) (target : Path) : bool :=
  bool_decide (cap_method self = None) && bool_decide (cap_predicate self = None) &&
  covers_path self verb target.

Definition method_covers (self : Capability) (method : text) : bool :=
  match cap_method self with None => true | Some selected => bool_decide (selected = method) end.

Definition matches_method (self : Capability) (verb : text) (target : Path) (method : text) : bool :=
  covers_path self verb target && method_covers self method.

Definition covers_method (self : Capability) (verb : text) (target : Path) (method : text) : bool :=
  bool_decide (cap_predicate self = None) && matches_method self verb target method.

Definition covers_with (self : Capability) (verb : text) (target : Path) (input : Value)
    (now_millis : Z) : bool :=
  if bool_decide (is_Some (cap_method self)) || negb (covers_path self verb target) then false
  else match cap_predicate self with
       | None => true
       | Some pred => predicate_eval pred input now_millis
       end.

Definition matches_structure (self : Capability) (verb : text) (target : Path) : bool :=
  bool_decide (cap_method self = None) && covers_path self verb target.

Definition matches_preflight_path (self : Capability) (verb : text) (target : Path) (now_millis : Z)
    : bool :=
  covers_path self verb target &&
  negb (match cap_predicate self with
        | Some predicate =>
            bool_decide (pred_key predicate = t "until") &&
            negb (predicate_eval predicate VNull now_millis)
        | None => false
        end).

Definition matches_preflight (self : Capability) (verb : text) (target : Path) (now_millis : Z) : bool :=
  bool_decide (cap_method self = None) && matches_preflight_path self verb target now_millis.

Definition matches_method_preflight (self : Capability) (verb : text) (target : Path) (method : text)
    (now_millis : Z) : bool :=
  method_covers self method && matches_preflight_path self verb target now_millis.

Definition covers_cap_path_pattern (self other : Capability) : bool :=
  cluster_covers_cap self other && verb_covers self (cap_verb other) &&
  scheme_covers self (cap_scheme other) &&
  pattern_subsumes_segments (cap_segments self) (cap_segments other).

Definition covers_cap_pattern (self other : Capability) : bool :=
  covers_cap_path_pattern self other &&
  (bool_decide (cap_method self = None) || bool_decide (cap_method self = cap_method other)).

Definition covers_cap (self other : Capability) : bool :=
  covers_cap_pattern self other &&
  (bool_decide (cap_predicate self = None) || bool_decide (cap_predicate self = cap_predicate other)).

(** ** Capability sets *)

Definition CapSet : Type := list Capability.

Fixpoint from_strs (items : list text) : Result CapSet CapError :=
  match items with
  | [] => Ok []
  | s :: items' =>
      let? c := cap_parse s in
      let? cs := from_strs items' in
      Ok (c :: cs)
  end.

Definition set_contains (self : CapSet) (verb : text) (target : Path) : bool :=
  existsb (fun c => covers c verb target) self.

Definition set_contains_method (self : CapSet) (verb : text) (target : Path) (method : text) : bool :=
  existsb (fun c => covers_method c verb target method) self.

Definition set_matches_preflight (self : CapSet) (verb : text) (target : Path) (now_millis : Z) : bool :=
  existsb (fun c => matches_preflight c verb target now_millis) self.

Definition set_contains_with (self : CapSet) (verb : text) (target : Path) (input : Value)
    (now_millis : Z) : bool :=
  existsb (fun c => covers_with c verb target input now_millis) self.

Definition contains_all (self : CapSet) (requireds : list (text * Path)) : bool :=
  forallb (fun '(v, p) => set_contains self v p) requireds.

(** Attenuation. *)
Definition intersect (self requested : CapSet) : CapSet :=
  filter (fun r => existsb (fun p => covers_cap p r) self = true) requested.

(** ** Attenuation *)

Section attenuation.
Implicit Types (p c : Capability) (verb method : text) (target : Path).

(** Where covering a capability implies covering what it covers: on local targets, and
    for capabilities that are not the global root, or parents that are. *)
Definition comparable p c target : Prop :=
  path_cluster target = None \/ (is_global_root c = true -> is_global_root p = true).

Lemma cluster_scope_trans a b d :
  cluster_scope_covers a b = true -> cluster_scope_covers b d = true -> cluster_scope_covers a d = true.
Proof.
  destruct a as [a|], b as [b|], d as [d|]; simpl; try done.
  rewrite !orb_true_iff, !bool_decide_eq_true. naive_solver.
Qed.

Lemma root_cluster c : is_global_root c = true -> cap_cluster c = None.
Proof. unfold is_global_root. rewrite !andb_true_iff, !bool_decide_eq_true. by intros [[[? _] _] _]. Qed.

Lemma cluster_covers_trans p c target :
  comparable p c target -> cluster_covers_cap p c = true -> cluster_covers_path c target = true ->
  cluster_covers_path p target = true.
Proof.
  unfold cluster_covers_cap, cluster_covers_path, comparable.
  destruct (is_global_root p) eqn:Hp; [done|]. simpl. intros Hcmp Hpc Hct.
  destruct (is_global_root c) eqn:Hc; [|by eapply cluster_scope_trans].
  rewrite (root_cluster c Hc) in Hpc. destruct Hcmp as [->|Hcmp]; [done|]. by discriminate Hcmp.
Qed.

Lemma verb_covers_trans p c verb :
  verb_covers p (cap_verb c) = true -> verb_covers c verb = true -> verb_covers p verb = true.
Proof.
  unfold verb_covers. rewrite !orb_true_iff, !bool_decide_eq_true. intros [Hp|Hp]; [by left|]. by rewrite Hp.
Qed.

Lemma scheme_covers_trans p c scheme :
  scheme_covers p (cap_scheme c) = true -> scheme_covers c scheme = true -> scheme_covers p scheme = true.
Proof.
  unfold scheme_covers, is_wildcard_scheme. rewrite !orb_true_iff, !bool_decide_eq_true.
  intros [Hp|Hp]; [by left|]. by rewrite Hp.
Qed.

Lemma covers_path_trans p c verb target :
  comparable p c target -> covers_cap_path_pattern p c = true ->
  covers_path c verb target = true -> covers_path p verb target = true.
Proof.
  unfold covers_cap_path_pattern, covers_path. rewrite !andb_true_iff.
  intros Hcmp (((Hpc & Hpv) & Hps) & Hpp) (((Hct & Hcv) & Hcs) & Hcp). split_and!.
  - by eapply cluster_covers_trans.
  - by eapply verb_covers_trans.
  - by eapply scheme_covers_trans.
  - by eapply pattern_subsumes_inclusion.
Qed.

(** The parts of coverage. *)
Lemma covers_cap_parts p c : covers_cap p c = true ->
  covers_cap_path_pattern p c = true /\ (cap_method p = None \/ cap_method p = cap_method c) /\
  (cap_predicate p = None \/ cap_predicate p = cap_predicate c).
Proof.
  unfold covers_cap, covers_cap_pattern.
  rewrite !andb_true_iff, !orb_true_iff, !bool_decide_eq_true. naive_solver.
Qed.

Lemma covers_trans p c verb target :
  comparable p c target -> covers_cap p c = true ->
  covers c verb target = true -> covers p verb target = true.
Proof.
  intros Hcmp (Hpath & Hm & Hpr)%covers_cap_parts. unfold covers.
  rewrite !andb_true_iff, !bool_decide_eq_true. intros [[Hcm Hcp] Hcov].
  rewrite Hcm in Hm. rewrite Hcp in Hpr. split_and!; [by destruct Hm|by destruct Hpr|].
  by eapply covers_path_trans.
Qed.

Lemma covers_method_trans p c verb target method :
  comparable p c target -> covers_cap p c = true ->
  covers_method c verb target method = true -> covers_method p verb target method = true.
Proof.
  intros Hcmp (Hpath & Hm & Hpr)%covers_cap_parts. unfold covers_method, matches_method, method_covers.
  rewrite !andb_true_iff, !bool_decide_eq_true. intros (Hcp & Hcov & Hcm).
  rewrite Hcp in Hpr. split_and!; [by destruct Hpr|by eapply covers_path_trans|].
  destruct Hm as [->| ->]; done.
Qed.

Lemma covers_with_trans p c verb target input now :
  comparable p c target -> covers_cap p c = true ->
  covers_with c verb target input now = true -> covers_with p verb target input now = true.
Proof.
  intros Hcmp (Hpath & Hm & Hpr)%covers_cap_parts. unfold covers_with.
  destruct (covers_path c verb target) eqn:Hcov; [|by rewrite orb_true_r].
  rewrite (covers_path_trans p c verb target Hcmp Hpath Hcov). cbn [negb]. rewrite !orb_false_r.
  destruct (cap_method c) as [m|] eqn:Hcm; [by rewrite bool_decide_true|]. rewrite (bool_decide_false (is_Some None)) by by intros [? ?].
  assert (cap_method p = None) as -> by (by destruct Hm).
  rewrite (bool_decide_false (is_Some None)) by by intros [? ?]. destruct Hpr as [->| ->]; done.
Qed.

(** An intersection grants nothing that a parent does not. *)
Lemma intersect_covered (gate : Capability -> bool) parent requested :
  (forall p c, p ∈ parent -> c ∈ requested -> covers_cap p c = true -> gate c = true -> gate p = true) ->
  existsb gate (intersect parent requested) = true -> existsb gate parent = true.
Proof.
  intros Htrans. rewrite !existsb_exists. intros (c & Hc & Hg). apply list_elem_of_In in Hc.
  unfold intersect in Hc. apply list_elem_of_filter in Hc as [Hp Hc].
  apply existsb_exists in Hp as (p & Hp & Hcov). exists p. split; [done|].
  apply list_elem_of_In in Hp. eauto.
Qed.
End attenuation.

(** ** Properties *)

(** C36: attenuation never widens authority.  Whatever a capability allows, with or
    without a method, a predicate and an input, is allowed by every capability that covers
    it, so that an intersection allows nothing its parent set does not; on targets of
    another cluster this needs that the parents of a requested global root are roots. *)
Theorem attenuation_never_widens (parent requested : CapSet) (verb : text) (target : Path) :
  (path_cluster target = None \/
   forall p c, p ∈ parent -> c ∈ requested -> covers_cap p c = true ->
     is_global_root c = true -> is_global_root p = true) ->
  (set_contains (intersect parent requested) verb target = true ->
     set_contains parent verb target = true) /\
  (forall method, set_contains_method (intersect parent requested) verb target method = true ->
     set_contains_method parent verb target method = true) /\
  (forall input now, set_contains_with (intersect parent requested) verb target input now = true ->
     set_contains_with parent verb target input now = true).
Proof.
  intros Hsafe. assert (forall p c, p ∈ parent -> c ∈ requested -> covers_cap p c = true ->
    comparable p c target) as Hcmp.
  { intros p c Hp Hc Hcov. destruct Hsafe as [?|Hsafe]; [by left|right; eauto]. }
  split_and!; intros; (eapply intersect_covered; [|done]); intros p c Hp Hc Hcov Hg; simpl in *.
  - by apply (covers_trans p c); auto.
  - by apply (covers_method_trans p c); auto.
  - by apply (covers_with_trans p c); auto.
Qed.

Definition cap_of (s : string) : Capability :=
  match cap_parse (t s) with Ok c => c | Err _ => mkCapability [] None [] [] None None end.
Definition path_of (s : string) : Path :=
  match parse (t s) with Ok p => p | Err _ => mkPath None [] [] end.

Lemma attenuation_never_widens_witness :
  set_contains [cap_of "read://state/memory/**"] (t "read") (path_of "state://memory/alice/x") = true.
Proof.
  destruct (attenuation_never_widens [cap_of "read://state/memory/**"]
    [cap_of "read://state/memory/*/x"] (t "read") (path_of "state://memory/alice/x")) as (Hset & _).
  - left. vm_compute. reflexivity.
  - apply Hset. vm_compute. reflexivity.
Defined.

(** C37: without that condition it does.  [*://*] covers local paths only, yet it covers
    the global root [*://**], so that attenuating it can yield authority over every
    cluster. *)
Theorem local_wildcard_covers_global_root :
  let parent := cap_of "*://*" in
  let requested := cap_of "*://**" in
  let remote := path_of "path://phone/state/memory" in
  intersect [parent] [requested] = [requested] /\
  set_contains (intersect [parent] [requested]) (t "write") remote = true /\
  set_contains [parent] (t "write") remote = false.
Proof. vm_compute. done. Qed.
