(* ===== verification/CapText.v ===== *)
(** * The text of capabilities

    Round trips of the literals of Cap.v: method escapes, predicates and whole
    capabilities. The canonical text that [Display] prints parses back to the capability
    exactly for the well-formed ones, which are those that parsing gives. *)

From Stdlib Require Import ZArith Ascii.
From stdpp Require Import base numbers list option strings.
From S2P Require Import Prelude Text Path Cap.

Local Open Scope char_scope.

(** ** Escaped method names *)

Lemma method_byte_plain b : method_unreserved b = true -> b <> "%" /\ b <> "@" /\ b <> "#".
Proof. by destruct b as [[] [] [] [] [] [] [] []]; vm_compute. Qed.

(** A byte is the value of its two digits. *)
Lemma hex_digits b :
  canonical_hex (hex_digit (code b / 16)) = Some (code b / 16)%N /\
  canonical_hex (hex_digit (code b mod 16)) = Some (code b mod 16)%N /\
  Ascii.ascii_of_N (N.lor (N.shiftl (code b / 16) 4) (code b mod 16)) = b.
Proof. by destruct b as [[] [] [] [] [] [] [] []]; vm_compute. Qed.

Lemma canonical_hex_digit c n : canonical_hex c = Some n -> (n < 16)%N /\ c = hex_digit n.
Proof.
  destruct c as [[] [] [] [] [] [] [] []]; vm_compute; intros [= <-]; by split.
Qed.

(** Two digits are those of the byte they stand for. *)
Lemma hex_byte high low :
  (high < 16)%N -> (low < 16)%N ->
  let b := Ascii.ascii_of_N (N.lor (N.shiftl high 4) low) in
  (code b / 16 = high)%N /\ (code b mod 16 = low)%N.
Proof.
  intros Hh Hl b. assert (forallb (fun h => forallb (fun l =>
    let b := Ascii.ascii_of_N (N.lor (N.shiftl h 4) l) in
    (code b / 16 =? h) && (code b mod 16 =? l))%N (range 16)) (range 16) = true) as Hall
    by by vm_compute.
  rewrite forallb_forall in Hall. apply elem_of_range, list_elem_of_In in Hh.
  apply Hall in Hh. rewrite forallb_forall in Hh. apply elem_of_range, list_elem_of_In in Hl.
  apply Hh, andb_true_iff in Hl as [?%N.eqb_eq ?%N.eqb_eq]. done.
Qed.

Lemma decode_encode_bytes m : decode_bytes (encode_method m) = Ok m.
Proof.
  induction m as [|b m IH]; [done|]. unfold encode_method in *. cbn [fmap list_fmap concat].
  unfold encode_byte at 1. destruct (method_unreserved b) eqn:Hb; cbn [app decode_bytes].
  - destruct (method_byte_plain b Hb) as [Hp _]. rewrite decide_False by done. rewrite Hb.
    change (list_fmap _ _ encode_byte m) with (encode_byte <$> m). by rewrite IH.
  - rewrite decide_True by done. destruct (hex_digits b) as (-> & -> & ->). rewrite Hb.
    change (list_fmap _ _ encode_byte m) with (encode_byte <$> m). by rewrite IH.
Qed.

Lemma decode_bytes_canonical s m : decode_bytes s = Ok m -> s = encode_method m.
Proof.
  remember (length s) as n eqn:Hn. revert s m Hn.
  induction (lt_wf n) as [n _ IH]; intros s m ->. destruct s as [|b s]; [by intros [= <-]|].
  cbn [decode_bytes]. case_decide as Hb.
  - destruct s as [|h [|l s]]; [done..|].
    destruct (canonical_hex h) as [high|] eqn:Hh; [|done].
    destruct (canonical_hex l) as [low|] eqn:Hl; [|done].
    destruct (method_unreserved _) eqn:Hu; [done|].
    destruct (decode_bytes s) as [m'|] eqn:Hs; [|done]. intros [= <-].
    apply (IH (length s)) in Hs; [|simpl; lia|done].
    apply canonical_hex_digit in Hh as [Hh ->], Hl as [Hl ->].
    destruct (hex_byte high low Hh Hl) as [Hd Hm].
    unfold encode_method in *. cbn [fmap list_fmap concat]. unfold encode_byte at 1.
    by rewrite Hu, Hd, Hm, Hb, Hs.
  - destruct (method_unreserved b) eqn:Hu; [|done].
    destruct (decode_bytes s) as [m'|] eqn:Hs; [|done]. intros [= <-].
    apply (IH (length s)) in Hs; [|simpl; lia|done]. unfold encode_method in *. cbn [fmap list_fmap concat].
    unfold encode_byte at 1. by rewrite Hu, Hs.
Qed.

(** Each method name has one escaped text, and each text stands for one name. *)
Lemma decode_method_spec s m :
  decode_method s = Ok m <-> s = encode_method m /\ m <> [] /\ valid_utf8 m = true.
Proof.
  unfold decode_method. split.
  - destruct s as [|b s]; [done|]. destruct (decode_bytes _) as [m'|] eqn:Hd; [|done].
    cbn [result_bind]. destruct (valid_utf8 m') eqn:Hv; [|done]. intros [= <-].
    apply decode_bytes_canonical in Hd. split_and!; [done| |done]. by intros ->.
  - intros (-> & Hm & Hv). rewrite decode_encode_bytes. cbn [result_bind]. rewrite Hv.
    destruct (encode_method m) eqn:He; [|done]. pose proof (decode_encode_bytes m) as Hd.
    rewrite He in Hd. by injection Hd as <-.
Qed.

Lemma encode_method_free m c : c ∈ t "@#" -> c ∉ encode_method m.
Proof.
  intros Hc. unfold encode_method. induction m as [|b m IH]; [apply not_elem_of_nil|].
  cbn [fmap list_fmap concat]. apply not_elem_of_app. split; [|exact IH].
  assert (c = "@" \/ c = "#") as Hcs.
  { apply elem_of_cons in Hc as [->|Hc]; [by left|]. apply elem_of_cons in Hc as [->|Hc]; [by right|].
    by apply not_elem_of_nil in Hc. }
  clear IH Hc m. destruct Hcs as [-> | ->]; apply (bool_decide_unpack _);
    by destruct b as [[] [] [] [] [] [] [] []]; vm_compute.
Qed.

(** ** Predicates *)

Definition valid_predicate (p : Predicate) : Prop :=
  (trimmed (pred_key p) /\ pred_key p <> [] /\ forallb (fun c => negb (operator_char c)) (pred_key p) = true) /\
  (trimmed (pred_value p) /\ pred_value p <> []) /\
  check_literal (pred_key p) (pred_op p) (pred_value p) = Ok tt.

Lemma strip_any_app ps k c r :
  (forall p, p ∈ ps -> c ∉ p) -> strip_any ps k = None -> strip_any ps (k ++ c :: r) = None.
Proof.
  rewrite !strip_any_None. intros Hc Hk p q Hp Heq.
  apply app_eq_inv in Heq as [(u & -> & _)|(u & -> & Hu)]; [by eapply Hk|].
  destruct u as [|d u]; simplify_eq/=; [by eapply (Hk k []); [|by rewrite app_nil_r]; rewrite app_nil_r in Hp|].
  apply (Hc _ Hp). apply elem_of_app. right. left.
Qed.

(** Whitespace has no byte that starts an operator. *)
Lemma whitespace_no_operator c p :
  operator_char c = true -> p ∈ whitespace \/ p ∈ (reverse <$> whitespace) -> c ∉ p.
Proof.
  intros Hc Hp Hin.
  assert (forallb (forallb (fun c => negb (operator_char c))) (whitespace ++ (reverse <$> whitespace)) = true)
    as Hall by by vm_compute.
  rewrite forallb_forall in Hall. apply elem_of_app, list_elem_of_In, Hall in Hp.
  rewrite forallb_forall in Hp. apply list_elem_of_In, Hp in Hin. by rewrite Hc in Hin.
Qed.

Lemma trimmed_between k c r l d v :
  k ++ c :: r = l ++ d :: v -> operator_char c = true -> operator_char d = true ->
  trimmed k -> trimmed v -> trimmed (k ++ c :: r).
Proof.
  intros Heq Hc Hd [Hk _] [_ Hv]. split.
  - apply strip_any_app; [|done]. intros p Hp. apply whitespace_no_operator; auto.
  - rewrite Heq, reverse_app, reverse_cons, <- app_assoc. apply strip_any_app; [|done].
    intros p Hp. apply whitespace_no_operator; auto.
Qed.

(** An operator's text begins and ends with operator characters. *)
Lemma op_text_ends op : exists c r l d,
  op_text op = c :: r /\ op_text op = l ++ [d] /\ operator_char c = true /\ operator_char d = true.
Proof.
  destruct op.
  - by exists "=", [], [], "=".
  - by exists "!", ["="], ["!"], "=".
  - by exists "<", ["="], ["<"], "=".
  - by exists "<", [], [], "<".
  - by exists ">", ["="], [">"], "=".
  - by exists ">", [], [], ">".
Qed.

Lemma predicate_text_trimmed p :
  trimmed (pred_key p) -> trimmed (pred_value p) -> trimmed (predicate_text p).
Proof.
  intros Hk Hv. unfold predicate_text. destruct (op_text_ends (pred_op p)) as (c & r & l & d & Hc & Hd & Hoc & Hod).
  rewrite Hc. cbn [app]. apply (trimmed_between _ c _ (pred_key p ++ l) d (pred_value p)); [|assumption..].
  change (c :: r ++ pred_value p) with ((c :: r) ++ pred_value p). rewrite <- Hc, Hd.
  by rewrite <- !app_assoc.
Qed.

(** A number does not start with an equals sign, which would change the operator. *)
Lemma parse_f64_equals s : parse_f64 ("=" :: s) = None.
Proof.
  unfold parse_f64. change (take_sign ("=" :: s)) with (false, "=" :: s). cbv iota beta.
  cbn [fmap list_fmap]. rewrite !decide_False by by intros [= ?].
  by change (span_digits ("=" :: s)) with (@nil ascii, "=" :: s).
Qed.

Lemma number_not_equals value n : parse_predicate_number value = Ok n -> head value <> Some "=".
Proof.
  destruct value as [|c value]; [done|]. unfold parse_predicate_number. intros H [= ->].
  change (predicate_number_text ("=" :: value)) with ("=" :: value) in H.
  by rewrite parse_f64_equals in H.
Qed.

Lemma ordering_number key op value :
  is_ordering op = true -> check_literal key op value = Ok tt ->
  exists n, parse_predicate_number value = Ok n.
Proof.
  unfold check_literal. intros Ho. case_decide; [case_decide; by subst|]. rewrite Ho.
  destruct (parse_predicate_number value); [by eexists|done].
Qed.

Lemma parse_operator_text op key value :
  check_literal key op value = Ok tt ->
  parse_operator (op_text op ++ value) = Ok (length (op_text op), op).
Proof.
  intros Hl. destruct op; try done; apply ordering_number in Hl as [n Hn]; try done;
    apply number_not_equals in Hn; destruct value as [|c value]; try done;
    by destruct c as [[] [] [] [] [] [] [] []].
Qed.

Lemma elem_of_trim c s : c ∈ trim s -> c ∈ s.
Proof.
  unfold trim, trim_end, trim_start.
  destruct (strip_all_suffix (length s) whitespace s) as [p Hp]. set (s' := strip_all _ _ s) in *.
  destruct (strip_all_suffix (length s') (reverse <$> whitespace) (reverse s')) as [q Hq].
  rewrite elem_of_reverse. intros Hc. rewrite Hp. apply elem_of_app. right.
  apply elem_of_reverse. rewrite Hq. apply elem_of_app. by right.
Qed.

Lemma forallb_trim f s : forallb f s = true -> forallb f (trim s) = true.
Proof.
  rewrite !forallb_forall. intros Hs c Hc. apply Hs. apply list_elem_of_In in Hc.
  apply list_elem_of_In. by apply elem_of_trim.
Qed.

Lemma predicate_parse_text p :
  valid_predicate p -> predicate_parse (predicate_text p) = Ok p.
Proof.
  intros ((Hk & Hk0 & Hop) & (Hv & Hv0) & Hl). unfold predicate_parse.
  rewrite (trim_id (predicate_text p)) by (apply predicate_text_trimmed; assumption).
  unfold predicate_text. destruct (op_text_ends (pred_op p)) as (c & r & _ & _ & Hc & _ & Hoc & _).
  pose proof (parse_operator_text _ _ _ Hl) as Hp. rewrite Hc in Hp |- *. cbn [app] in Hp |- *.
  rewrite find_split_at by done. cbn [ok_or result_bind]. rewrite Hp. cbn [result_bind].
  change (drop (length (c :: r)) (c :: r ++ pred_value p)) with (drop (length r) (r ++ pred_value p)).
  rewrite drop_app_length, !trim_id by assumption. rewrite Hl.
  destruct p as [[|] ? [|]]; done.
Qed.

Lemma op_text_no_hash op : "#" ∉ op_text op.
Proof. destruct op; by apply (bool_decide_unpack _); vm_compute. Qed.

Lemma predicate_parse_valid raw p :
  predicate_parse raw = Ok p ->
  valid_predicate p /\ ("#" ∉ raw -> "#" ∉ predicate_text p).
Proof.
  unfold predicate_parse. destruct (find_split _ (trim raw)) as [[before tail]|] eqn:Hs; [|done].
  cbn [ok_or result_bind]. apply find_split_app in Hs as (Hraw & Hop & _).
  destruct (parse_operator tail) as [[width op]|] eqn:Hp; [|done]. cbn [result_bind].
  pose proof (trim_trimmed before) as Htk. pose proof (trim_trimmed (drop width tail)) as Htv.
  assert (forall c, c ∈ trim before -> c ∈ raw) as Hk.
  { intros c Hc%elem_of_trim. apply elem_of_trim. rewrite Hraw. apply elem_of_app. by left. }
  assert (forall c, c ∈ trim (drop width tail) -> c ∈ raw) as Hv.
  { intros c Hc%elem_of_trim. apply elem_of_trim. rewrite Hraw. apply elem_of_app. right.
    rewrite <- (take_drop width tail). apply elem_of_app. by right. }
  apply (forallb_trim _ before) in Hop.
  destruct (trim before) as [|k key] eqn:Hkey; [done|].
  destruct (trim (drop width tail)) as [|v value] eqn:Hval; [done|].
  destruct (check_literal _ _ _) as [[]|] eqn:Hl; [|done]. intros [= <-].
  split.
  { unfold valid_predicate. cbn [pred_key pred_op pred_value].
    split; [split; [exact Htk|]|split; [split; [exact Htv|]|exact Hl]]; [|discriminate].
    split; [discriminate|exact Hop]. }
  intros Hh. unfold predicate_text.
  rewrite !not_elem_of_app. split_and!; [by intros ?%Hk|apply op_text_no_hash|by intros ?%Hv].
Qed.

(** ** Capabilities *)

(** What parsing establishes. A wildcard scheme without segments is not printed as such: its
    text is the one that stands for every path. *)
Record valid_cap (c : Capability) : Prop := {
  valid_verb : is_capability_verb (cap_verb c) = true;
  valid_cluster : forall k, cap_cluster c = Some k -> k = t "*" \/ grammar Cluster k;
  valid_scheme : validate_capability_scheme (cap_verb c) (cap_scheme c) = Ok tt;
  valid_segments : Forall (grammar Segment) (cap_segments c);
  valid_wildcard : is_wildcard_scheme (cap_scheme c) = true -> cap_segments c <> [];
  valid_method : forall m, cap_method c = Some m -> m <> [] /\ valid_utf8 m = true;
  valid_restriction : forall p, cap_predicate c = Some p -> valid_predicate p /\ "#" ∉ predicate_text p
}.

Lemma wildcard_cases s : is_wildcard_scheme s = true <-> s = t "*" \/ s = t "**".
Proof. unfold is_wildcard_scheme. by rewrite orb_true_iff, !bool_decide_eq_true. Qed.

Lemma try_new_ok s : is_ok (try_new s) = true <-> grammar Scheme s /\ s <> t "path".
Proof.
  unfold try_new. destruct s as [|c s]; [by split; [|intros []]|]. split.
  - destruct (is_ascii (c :: s)), (contains "/" (c :: s)), (is_scheme_ident (c :: s)) eqn:Hi; try done; cbn [negb].
    case_decide; [done|]. intros _. split; [by apply is_ok_grammar|done].
  - intros [Hg Hp]. unfold is_scheme_ident. rewrite unreserved_ascii by by eapply grammar_unreserved.
    rewrite (proj2 (contains_false "/" (c :: s))) by by apply scheme_no_slash.
    rewrite (proj2 (is_ok_grammar (c :: s) Scheme)) by done. cbn [negb]. by rewrite decide_False.
Qed.

(** The schemes a capability may have. *)
Lemma capability_scheme verb s :
  validate_capability_scheme verb s = Ok tt ->
  is_wildcard_scheme s = true \/ grammar Scheme s /\ s <> t "path".
Proof.
  unfold validate_capability_scheme. destruct (is_wildcard_scheme s); [by left|].
  intros H. right. apply try_new_ok. by destruct (try_new s).
Qed.

Lemma scheme_free verb s c :
  validate_capability_scheme verb s = Ok tt -> c ∈ t "/@#:" -> c ∉ s.
Proof.
  intros [Hw|[Hg _]]%capability_scheme Hc.
  - intros Hs. apply wildcard_cases in Hw. assert (bool_decide (c ∈ t "/@#:") = true) as Hb
      by by apply bool_decide_eq_true.
    destruct Hw as [-> | ->]; apply list_elem_of_In in Hs; simpl in Hs;
      [destruct Hs as [<-|[]]|destruct Hs as [<-|[<-|[]]]]; by vm_compute in Hb.
  - change (t "/@#:") with (t "/@#" ++ [":"]) in Hc. apply elem_of_app in Hc as [Hc|Hc].
    + apply unreserved_free; [done|by eapply grammar_unreserved].
    + apply list_elem_of_singleton in Hc as ->. by apply (grammar_no_colon Scheme).
Qed.

Lemma verb_no_colon v : is_capability_verb v = true -> ":" ∉ v.
Proof.
  unfold is_capability_verb. intros (w & Hw & ->%bool_decide_eq_true)%existsb_exists.
  repeat (destruct Hw as [<-|Hw]; [by apply (bool_decide_unpack _); vm_compute|]). done.
Qed.

Lemma verb_nonempty v : is_capability_verb v = true -> v <> [].
Proof. by intros Hv ->. Qed.

Lemma validate_capability_segments_ok l l' :
  validate_capability_segments l = Ok l' <-> l' = l /\ Forall (grammar Segment) l.
Proof.
  assert (forall s, validate_capability_segment s = Ok tt <-> grammar Segment s) as Hs.
  { intros s. rewrite <- validate_segment_ok. unfold validate_capability_segment.
    change (try_new (t "state")) with (Ok (mkPath None (t "state") []) : Result Path PathError).
    cbn [result_bind]. unfold try_push. by destruct (validate_segment s) as [[]|]. }
  revert l'. induction l as [|s l IH]; intros l'; simpl; [naive_solver|].
  rewrite list.Forall_cons, <- Hs.
  destruct (validate_capability_segment s) as [[]|e]; simpl; [|naive_solver].
  destruct (validate_capability_segments l) as [l0|e] eqn:Hl; simpl; split.
  - intros [= <-]. by destruct (proj1 (IH l0) eq_refl) as [-> ?].
  - intros [-> [_ Hall]]. pose proof (proj2 (IH l) (conj eq_refl Hall)). congruence.
  - done.
  - intros [-> [_ Hall]]. by pose proof (proj2 (IH l) (conj eq_refl Hall)).
Qed.

(** The part of the text before the method. *)
Definition cap_head (c : Capability) : text :=
  match cap_cluster c with Some k => t "path://" ++ k ++ t "/" | None => [] end ++
  cap_scheme c ++ slashed (cap_segments c).

Lemma slashed_free segs c :
  Forall (grammar Segment) segs -> c ∈ t "@#" -> c ∉ slashed segs.
Proof.
  intros Hall Hc. assert (c ∈ t "/@#") as Hc' by by right.
  induction Hall as [|s segs Hs _ IH]; cbn [slashed]; [apply not_elem_of_nil|].
  rewrite !not_elem_of_app. split_and!; [|by apply unreserved_free; [|eapply grammar_unreserved]|done].
  intros ->%list_elem_of_singleton. revert Hc. rewrite <- (bool_decide_spec ("/" ∈ t "@#")). by vm_compute.
Qed.

Lemma cluster_no_slash_cap c k : valid_cap c -> cap_cluster c = Some k -> "/" ∉ k.
Proof.
  intros Hv [->|Hg]%(valid_cluster _ Hv); [by apply (bool_decide_unpack _); vm_compute|].
  by apply cluster_no_slash.
Qed.

Lemma cap_head_free c x : valid_cap c -> x ∈ t "@#" -> x ∉ cap_head c.
Proof.
  intros Hv Hx. unfold cap_head. rewrite !not_elem_of_app. split_and!.
  - destruct (cap_cluster c) as [k|] eqn:Hk; [|apply not_elem_of_nil].
    assert (forall s, forallb (fun y => negb (existsb (Ascii.eqb y) (t "@#"))) s = true -> x ∉ s) as Hlit.
    { intros s Hs Hin. rewrite forallb_forall in Hs. apply list_elem_of_In, Hs, negb_true_iff in Hin.
      assert (existsb (Ascii.eqb x) (t "@#") = true); [|congruence].
      apply existsb_exists. exists x. split; [by apply list_elem_of_In|apply Ascii.eqb_refl]. }
    rewrite !not_elem_of_app. split_and!; [by apply Hlit| |by apply Hlit].
    apply (valid_cluster _ Hv) in Hk as [->|Hg]; [by apply Hlit|].
    apply unreserved_free; [by right|by eapply grammar_unreserved].
  - eapply scheme_free; [by apply valid_scheme|]. change (t "/@#:") with ("/" :: t "@#" ++ [":"]).
    right. apply elem_of_app. by left.
  - apply slashed_free; [by apply valid_segments|done].
Qed.

Lemma split_scheme_text c : valid_cap c ->
  exists body, split_scheme (cap_scheme c ++ slashed (cap_segments c)) = (cap_scheme c, body) /\
    body_parts body = Ok (cap_segments c).
Proof.
  intros Hv. assert ("/" ∉ cap_scheme c) as Hns
    by (eapply scheme_free; [by apply valid_scheme|by left]).
  pose proof (valid_segments _ Hv) as Hall. pose proof (valid_wildcard _ Hv) as Hw.
  unfold split_scheme. destruct (cap_segments c) as [|s segs].
  - exists None. cbn [slashed]. rewrite app_nil_r. destruct (is_wildcard_scheme _); [by destruct Hw|].
    change (t "/") with ["/"]. by rewrite split_once_char_None.
  - exists (Some (join "/" (s :: segs))). cbn [slashed].
    rewrite <- join_slashed. destruct (is_wildcard_scheme (_ ++ _)) eqn:Hwild.
    { exfalso. apply wildcard_cases in Hwild.
      assert ("/" ∈ cap_scheme c ++ t "/" ++ join "/" (s :: segs)) as Hin.
      { apply elem_of_app. right. left. }
      destruct Hwild as [Hx|Hx]; rewrite Hx in Hin; revert Hin;
        rewrite <- (bool_decide_spec ("/" ∈ _)); by vm_compute. }
    change (t "/") with ["/"]. cbn [app]. rewrite split_once_char by done. split; [done|].
    unfold body_parts. destruct (join "/" (s :: segs)) as [|b body] eqn:Hj.
    + apply list.Forall_cons in Hall as [Hs%grammar_nonempty _]. rewrite join_slashed in Hj.
      by apply app_eq_nil in Hj as [-> _].
    + rewrite <- Hj, split_join; [done..|]. eapply Forall_impl; [exact Hall|]. apply segment_no_slash.
Qed.

Lemma split_cluster_text c : valid_cap c ->
  split_cluster (cap_head c) = Ok (cap_cluster c, cap_scheme c ++ slashed (cap_segments c)).
Proof.
  intros Hv. unfold split_cluster, cap_head. destruct (cap_cluster c) as [k|] eqn:Hk.
  - rewrite <- !app_assoc, strip_prefix_app. change (t "/") with ["/"].
    cbn [app]. rewrite split_once_char by by eapply cluster_no_slash_cap. done.
  - cbn [app]. destruct (strip_prefix _ _) as [r|] eqn:Hp; [|done]. exfalso.
    apply strip_prefix_Some in Hp. pose proof (valid_scheme _ Hv) as Hs.
    pose proof (scheme_free _ _ "/" Hs ltac:(by left)) as Hslash.
    assert (":" ∉ cap_scheme c) as Hcolon.
    { eapply scheme_free; [exact Hs|]. change (t "/@#:") with (t "/@#" ++ [":"]). apply elem_of_app. right. left. }
    change (t "path://" ++ r) with (t "path:" ++ "/" :: "/" :: r) in Hp.
    destruct (cap_segments c) as [|s segs]; cbn [slashed] in Hp.
    + rewrite app_nil_r in Hp. rewrite Hp in Hslash. apply Hslash, elem_of_app. right. left.
    + change (t "/" ++ s ++ slashed segs) with ("/" :: s ++ slashed segs) in Hp.
      apply (f_equal (split_once ["/"])) in Hp. rewrite !split_once_char in Hp; [|by apply (bool_decide_unpack _); vm_compute|done].
      injection Hp as Hp _. rewrite Hp in Hcolon. apply Hcolon. change (t "path:") with (t "path" ++ [":"]).
      apply elem_of_app. right. left.
Qed.

(** The method part of a text, and its predicate part. *)
Definition method_part (c : Capability) : text :=
  match cap_method c with Some m => t "#" ++ encode_method m | None => [] end.

Lemma cap_text_parts c :
  cap_text c = cap_verb c ++ t "://" ++ (cap_head c ++ method_part c) ++
    match cap_predicate c with Some p => t "@" ++ predicate_text p | None => [] end.
Proof. unfold cap_text, cap_head, method_part. by rewrite <- !app_assoc. Qed.

Lemma split_method_text c : valid_cap c ->
  split_method (cap_head c ++ method_part c) = Ok (cap_head c, cap_method c).
Proof.
  intros Hv. assert ("#" ∉ cap_head c) as Hh by (apply cap_head_free; [done|right; left]).
  unfold split_method, method_part. change (t "#") with ["#"].
  destruct (cap_method c) as [m|] eqn:Hm; cbn [app].
  - rewrite split_once_char by done. by rewrite (proj2 (decode_method_spec _ m)) by (split; [done|by apply (valid_method _ Hv)]).
  - by rewrite app_nil_r, split_once_char_None.
Qed.

Lemma split_predicate_text c : valid_cap c ->
  split_predicate ((cap_head c ++ method_part c) ++
    match cap_predicate c with Some p => t "@" ++ predicate_text p | None => [] end) =
  Ok (cap_head c ++ method_part c, cap_predicate c).
Proof.
  intros Hv. assert (forallb (fun x => negb (Ascii.eqb "@" x)) (cap_head c ++ method_part c) = true) as Hfree.
  { apply forallb_forall. intros x Hx%list_elem_of_In. apply negb_true_iff, Ascii.eqb_neq. intros <-.
    apply elem_of_app in Hx as [Hx|Hx]; [by apply cap_head_free in Hx; [..|left]|].
    revert Hx. unfold method_part. destruct (cap_method c) as [m|]; [|apply not_elem_of_nil].
    apply not_elem_of_app. split; [by apply (bool_decide_unpack _); vm_compute|].
    apply encode_method_free. left. }
  unfold split_predicate. destruct (cap_predicate c) as [p|] eqn:Hp.
  - change (t "@" ++ predicate_text p) with ("@" :: predicate_text p).
    rewrite find_split_at by done. change (drop 1 ("@" :: predicate_text p)) with (predicate_text p).
    destruct (valid_restriction _ Hv p Hp) as [Hvp Hh].
    rewrite predicate_parse_text by done. cbn [result_bind]. by rewrite (proj2 (contains_false _ _)).
  - by rewrite app_nil_r, (proj2 (find_split_None _ _)).
Qed.

Lemma cap_with_cluster_ok self k c :
  cap_with_cluster self k = Ok c <->
  (k = t "*" \/ grammar Cluster k) /\
  c = mkCapability (cap_verb self) (Some k) (cap_scheme self) (cap_segments self)
        (cap_method self) (cap_predicate self).
Proof.
  rewrite <- validate_cluster_ident_ok. unfold cap_with_cluster.
  change (try_new (t "state")) with (Ok (mkPath None (t "state") []) : Result Path PathError).
  cbn [result_bind]. unfold Path.try_with_cluster.
  case_decide; [|destruct (validate_cluster_ident k) as [[]|]]; cbn [result_bind]; naive_solver.
Qed.

Lemma cap_try_new_ok verb scheme segs p c :
  cap_try_new verb scheme segs p = Ok c <->
  is_capability_verb verb = true /\ validate_capability_scheme verb scheme = Ok tt /\
  Forall (grammar Segment) segs /\ c = mkCapability verb None scheme segs None p.
Proof.
  unfold cap_try_new. destruct verb as [|v verb]; [by split; [|intros [? _]]|].
  destruct (is_capability_verb _); cbn [negb]; [|by split; [|intros [? _]]].
  destruct (validate_capability_scheme _ _) as [[]|]; cbn [result_bind]; [|by split; [|intros (_ & ? & _)]].
  destruct (validate_capability_segments segs) as [l|] eqn:Hl; cbn [result_bind].
  - apply validate_capability_segments_ok in Hl as [-> Hall]. naive_solver.
  - split; [done|]. intros (_ & _ & Hall & _).
    pose proof (proj2 (validate_capability_segments_ok segs segs) (conj eq_refl Hall)). congruence.
Qed.

Lemma cap_parse_text c : valid_cap c -> cap_parse (cap_text c) = Ok c.
Proof.
  intros Hv. pose proof (valid_verb _ Hv) as Hverb. unfold cap_parse. rewrite cap_text_parts.
  change (t "://") with (":" :: t "//"). rewrite <- app_comm_cons.
  rewrite split_once_at by by apply verb_no_colon. cbn [ok_or result_bind].
  rewrite split_predicate_text by done. cbn [result_bind].
  rewrite split_method_text by done. cbn [result_bind].
  rewrite Hverb. cbn [negb]. destruct (cap_verb c) as [|v verb] eqn:Hvc; [by apply verb_nonempty in Hverb|].
  rewrite <- Hvc. rewrite split_cluster_text by done. cbn [result_bind].
  destruct (split_scheme_text c Hv) as (body & -> & ->). cbn [result_bind].
  rewrite (proj2 (cap_try_new_ok _ _ _ _ (mkCapability (cap_verb c) None (cap_scheme c)
    (cap_segments c) None (cap_predicate c))));
    [|split_and!; [by rewrite Hvc|apply valid_scheme, Hv|apply valid_segments, Hv|done]].
  cbn [result_bind]. destruct c as [verb' k scheme segs m p]. cbn [cap_method cap_cluster] in *.
  assert (match m with
          | Some m => try_with_method (mkCapability verb' None scheme segs None p) m
          | None => Ok (mkCapability verb' None scheme segs None p)
          end = Ok (mkCapability verb' None scheme segs m p)) as Hm.
  { destruct m as [m|]; [|done]. destruct (valid_method _ Hv m eq_refl) as [Hne _]. by destruct m. }
  cbn [cap_verb cap_scheme cap_segments cap_predicate]. rewrite Hm. cbn [result_bind].
  destruct k as [k|]; [|done]. apply cap_with_cluster_ok. split; [by apply (valid_cluster _ Hv)|done].
Qed.

Lemma split_predicate_valid rest head p :
  split_predicate rest = Ok (head, p) ->
  forall q, p = Some q -> valid_predicate q /\ "#" ∉ predicate_text q.
Proof.
  unfold split_predicate. destruct (find_split _ rest) as [[a b]|]; [|by intros [= <- <-]].
  destruct (predicate_parse (drop 1 b)) as [q|] eqn:Hq; [|done]. cbn [result_bind].
  destruct (contains "#" (drop 1 b)) eqn:Hh; [done|]. intros [= <- <-] q' [= <-].
  apply contains_false in Hh. apply predicate_parse_valid in Hq as [Hv Hc]. auto.
Qed.

Lemma split_method_valid s head m :
  split_method s = Ok (head, m) -> forall n, m = Some n -> n <> [] /\ valid_utf8 n = true.
Proof.
  unfold split_method. destruct (split_once _ s) as [[a b]|]; [|by intros [= <- <-]].
  destruct (decode_method b) as [n|] eqn:Hd; [|done]. intros [= <- <-] n' [= <-].
  by apply decode_method_spec in Hd as (_ & ? & ?).
Qed.

Lemma wildcard_has_segments s scheme body segs :
  split_scheme s = (scheme, body) -> body_parts body = Ok segs ->
  is_wildcard_scheme scheme = true -> segs <> [].
Proof.
  unfold split_scheme. destruct (is_wildcard_scheme s) eqn:Hw.
  - intros [= <- <-] [= <-] _. discriminate.
  - destruct (split_once _ s) as [[a b]|].
    + intros [= <- <-]. unfold body_parts. destruct b as [|x b]; [done|]. intros Hs _.
      injection Hs as <-. apply (split_nonempty "/" (x :: b)).
    + intros [= <- <-] _. congruence.
Qed.

Lemma cap_parse_valid s c : cap_parse s = Ok c -> valid_cap c.
Proof.
  unfold cap_parse. destruct (split_once _ s) as [[verb rest]|]; [|done]. cbn [ok_or result_bind].
  destruct (split_predicate rest) as [[head p]|] eqn:Hp; [|done]. cbn [result_bind].
  destruct (split_method head) as [[head' m]|] eqn:Hm; [|done]. cbn [result_bind].
  pose proof (split_predicate_valid _ _ _ Hp) as Hvp. pose proof (split_method_valid _ _ _ Hm) as Hvm.
  clear Hp Hm. destruct verb as [|v verb]; [done|]. destruct (is_capability_verb _); [|done]. cbn [negb].
  destruct (split_cluster head') as [[k rest']|]; [|done]. cbn [result_bind].
  destruct (split_scheme rest') as [scheme body] eqn:Hs.
  destruct (body_parts body) as [segs|] eqn:Hb; [|done]. cbn [result_bind].
  pose proof (wildcard_has_segments _ _ _ _ Hs Hb) as Hw.
  destruct (cap_try_new _ _ _ _) as [c0|] eqn:Hn; [|done]. cbn [result_bind].
  apply cap_try_new_ok in Hn as (Hverb & Hscheme & Hsegs & ->).
  set (c1 := mkCapability (v :: verb) None scheme segs m p).
  assert (match m with
          | Some m => try_with_method (mkCapability (v :: verb) None scheme segs None p) m
          | None => Ok (mkCapability (v :: verb) None scheme segs None p)
          end = Ok c1) as ->.
  { destruct m as [m|]; [|done]. destruct (Hvm m eq_refl) as [Hne _]. by destruct m. }
  cbn [result_bind]. destruct k as [k|]; [intros [Hk ->]%cap_with_cluster_ok|intros [= <-]];
    split; try assumption; cbn [cap_cluster c1]; [by intros ? [= <-]|done].
Qed.

(** What the public constructors build: a capability from its fields, with any predicate,
    restricted to methods (which are UTF-8 strings) and qualified by clusters. *)
Inductive built : Capability -> Prop :=
| built_new verb scheme segs p c : cap_try_new verb scheme segs p = Ok c -> built c
| built_method c m c' : built c -> valid_utf8 m = true -> try_with_method c m = Ok c' -> built c'
| built_cluster c k c' : built c -> cap_with_cluster c k = Ok c' -> built c'.

Lemma try_with_method_ok self m c :
  try_with_method self m = Ok c <->
  m <> [] /\ c = mkCapability (cap_verb self) (cap_cluster self) (cap_scheme self) (cap_segments self)
                  (Some m) (cap_predicate self).
Proof. destruct m; simpl; naive_solver. Qed.

(** What the constructors check. *)
Lemma built_fields c : built c ->
  is_capability_verb (cap_verb c) = true /\
  (forall k, cap_cluster c = Some k -> k = t "*" \/ grammar Cluster k) /\
  validate_capability_scheme (cap_verb c) (cap_scheme c) = Ok tt /\
  Forall (grammar Segment) (cap_segments c) /\
  (forall m, cap_method c = Some m -> m <> [] /\ valid_utf8 m = true).
Proof.
  induction 1 as [verb scheme segs p c Hc|c m c' _ IH Hm Hc|c k c' _ IH Hc].
  - apply cap_try_new_ok in Hc as (? & ? & ? & ->). by split_and!.
  - apply try_with_method_ok in Hc as [? ->]. destruct IH as (? & ? & ? & ? & _). simpl.
    split_and!; try done. by intros ? [= <-].
  - apply cap_with_cluster_ok in Hc as [? ->]. destruct IH as (? & _ & ? & ? & ?). simpl.
    split_and!; try done. by intros ? [= <-].
Qed.

(** The predicates that parsing gives are those that survive printing. *)
Lemma parsed_predicate p :
  valid_predicate p /\ "#" ∉ predicate_text p <->
  exists raw, predicate_parse raw = Ok p /\ "#" ∉ raw.
Proof.
  split.
  - intros [Hp Hh]. exists (predicate_text p). split; [by apply predicate_parse_text|done].
  - intros (raw & Hr & Hh). apply predicate_parse_valid in Hr as [? ?]. auto.
Qed.

(** C38: parsing and printing capabilities are inverse up to canonical form. A parsed
    capability is well formed; printing a capability and parsing the text gives it back
    exactly when it is well formed, whatever its method bytes and predicate; and a capability
    that the constructors ([try_new], [try_with_method], [try_with_cluster], in any order)
    build is well formed exactly when it has segments if its scheme is a wildcard, and its
    predicate, if any, is one that parsing a text without [#] gives. *)
Theorem capability_text_roundtrip :
  (forall s c, cap_parse s = Ok c -> valid_cap c /\ cap_parse (cap_text c) = Ok c) /\
  (forall c, cap_parse (cap_text c) = Ok c <-> valid_cap c) /\
  (forall c, built c ->
     (valid_cap c <->
        (is_wildcard_scheme (cap_scheme c) = true -> cap_segments c <> []) /\
        forall p, cap_predicate c = Some p -> exists raw, predicate_parse raw = Ok p /\ "#" ∉ raw)).
Proof.
  split_and!.
  - intros s c Hc%cap_parse_valid. split; [done|by apply cap_parse_text].
  - intros c. split; [apply cap_parse_valid|apply cap_parse_text].
  - intros c (Hv & Hk & Hs & Hall & Hm)%built_fields. split.
    + intros []. split; [done|]. intros p Hp. apply parsed_predicate. auto.
    + intros [Hw Hp]. split; try done. intros p Hq. apply parsed_predicate. auto.
Qed.
