(* ===== verification/Order.v ===== *)
(** * Ordered types

    Rust's [Ord] as a class with its laws, the orders that [derive] gives products, sequences
    and options, and the slice operations that rely on them: [sort_unstable], [dedup] and
    [binary_search]. *)

From Stdlib Require Import ZArith.
From stdpp Require Import base numbers list option sorting.
From S2P Require Import Prelude Text.

(** ** The class *)

Class Ord (A : Type) : Type := cmp : A -> A -> comparison.

Class OrdLaws (A : Type) `{!Ord A} : Prop := {
  cmp_eq (a b : A) : cmp a b = Eq <-> a = b;
  cmp_opp (a b : A) : cmp b a = CompOpp (cmp a b);
  cmp_lt_trans (a b c : A) : cmp a b = Lt -> cmp b c = Lt -> cmp a c = Lt
}.

(** [Ordering::then_with]. *)
Definition then_with (first second : comparison) : comparison :=
  match first with Eq => second | _ => first end.

(** ** Instances *)

#[export] Instance Ord_N : Ord N := N.compare.
#[export] Instance Ord_Z : Ord Z := Z.compare.
#[export] Instance Ord_text : Ord text := text_cmp.

(** Tuples and the fields of a derived [struct]. *)
#[export] Instance Ord_pair {A B} `{!Ord A} `{!Ord B} : Ord (A * B) :=
  fun x y => then_with (cmp (fst x) (fst y)) (cmp (snd x) (snd y)).

(** [None] comes first. *)
#[export] Instance Ord_option {A} `{!Ord A} : Ord (option A) :=
  fun x y => match x, y with
             | None, None => Eq
             | None, Some _ => Lt
             | Some _, None => Gt
             | Some a, Some b => cmp a b
             end.

(** Sequences, lexicographically. *)
Fixpoint list_cmp {A} `{!Ord A} (x y : list A) : comparison :=
  match x, y with
  | [], [] => Eq
  | [], _ :: _ => Lt
  | _ :: _, [] => Gt
  | a :: x', b :: y' => then_with (cmp a b) (list_cmp x' y')
  end.

#[export] Instance Ord_list {A} `{!Ord A} : Ord (list A) | 10 := list_cmp.

(** The order of a representation. *)
Definition cmp_by {A B} `{!Ord B} (f : A -> B) : Ord A := fun x y => cmp (f x) (f y).

#[export] Instance OrdLaws_N : OrdLaws N.
Proof.
  split; unfold cmp, Ord_N.
  - apply N.compare_eq_iff.
  - intros. apply N.compare_antisym.
  - intros a b c. rewrite !N.compare_lt_iff. lia.
Qed.

#[export] Instance OrdLaws_Z : OrdLaws Z.
Proof.
  split; unfold cmp, Ord_Z.
  - apply Z.compare_eq_iff.
  - intros. apply Z.compare_antisym.
  - intros a b c. rewrite !Z.compare_lt_iff. lia.
Qed.

#[export] Instance OrdLaws_text : OrdLaws text.
Proof. split; [apply text_cmp_eq|apply text_cmp_antisym|apply text_lt_trans]. Qed.

Section instances.
Context {A B : Type} `{!Ord A} `{!Ord B} `{!OrdLaws A} `{!OrdLaws B}.

Lemma cmp_refl (a : A) : cmp a a = Eq.
Proof. by apply cmp_eq. Qed.

Lemma then_with_opp x y : then_with (CompOpp x) (CompOpp y) = CompOpp (then_with x y).
Proof. by destruct x. Qed.

Lemma then_with_lt x y : then_with x y = Lt <-> x = Lt \/ x = Eq /\ y = Lt.
Proof. destruct x; simpl; naive_solver. Qed.

#[export] Instance OrdLaws_pair : OrdLaws (A * B).
Proof.
  split; unfold cmp, Ord_pair.
  - intros [a b] [a' b']; simpl. destruct (cmp a a') eqn:Ha; simpl.
    + apply cmp_eq in Ha as ->. rewrite cmp_eq. naive_solver.
    + split; [done|]. intros [= -> _]. by rewrite cmp_refl in Ha.
    + split; [done|]. intros [= -> _]. by rewrite cmp_refl in Ha.
  - intros [a b] [a' b']; simpl. rewrite (cmp_opp a a'), (cmp_opp b b'). apply then_with_opp.
  - intros [a b] [a' b'] [a'' b'']; simpl. rewrite !then_with_lt, !cmp_eq.
    intros [Ha|[-> Hb]] [Ha'|[-> Hb']]; [left; by eapply cmp_lt_trans|by left..|].
    right. split; [done|by eapply cmp_lt_trans].
Qed.

#[export] Instance OrdLaws_option : OrdLaws (option A).
Proof.
  split; unfold cmp, Ord_option.
  - intros [a|] [b|]; rewrite ?cmp_eq; naive_solver.
  - intros [a|] [b|]; [apply cmp_opp|done..].
  - intros [a|] [b|] [c|]; try done. apply cmp_lt_trans.
Qed.

#[export] Instance OrdLaws_list : OrdLaws (list A).
Proof.
  split; unfold cmp, Ord_list.
  - induction a as [|a x IH]; intros [|b y]; simpl; try done.
    destruct (cmp a b) eqn:Ha; simpl.
    + apply cmp_eq in Ha as ->. rewrite IH. naive_solver.
    + split; [done|]. intros [= -> _]. by rewrite cmp_refl in Ha.
    + split; [done|]. intros [= -> _]. by rewrite cmp_refl in Ha.
  - induction a as [|a x IH]; intros [|b y]; simpl; try done.
    rewrite (cmp_opp a b), (IH y). apply then_with_opp.
  - induction a as [|a x IH]; intros [|b y] [|c z]; simpl; try done.
    rewrite !then_with_lt, !cmp_eq.
    intros [Ha|[-> Hb]] [Ha'|[-> Hb']]; [left; by eapply cmp_lt_trans|by left..|].
    right. split; [done|by eapply IH].
Qed.
End instances.

(** An injective representation carries the laws over. *)
Lemma cmp_by_laws {A B} `{!Ord B} `{!OrdLaws B} (f : A -> B) :
  (forall x y, f x = f y -> x = y) -> @OrdLaws A (cmp_by f).
Proof.
  intros Hf. split; unfold cmp, cmp_by.
  - intros a b. rewrite cmp_eq. split; [apply Hf|by intros ->].
  - intros a b. apply cmp_opp.
  - intros a b c. apply cmp_lt_trans.
Qed.

(** ** Slices of ordered elements *)

Section slices.
Context {A : Type} `{!Ord A}.

Fixpoint sort_insert (a : A) (l : list A) : list A :=
  match l with
  | [] => [a]
  | b :: l' => match cmp a b with Gt => b :: sort_insert a l' | _ => a :: l end
  end.

(** [sort_unstable]: equal elements are identical, so the sorted slice is unique. *)
Fixpoint sort_unstable (l : list A) : list A :=
  match l with
  | [] => []
  | a :: l' => sort_insert a (sort_unstable l')
  end.

(** [Vec::dedup]: of consecutive equal elements the first stays. *)
Fixpoint dedup (l : list A) : list A :=
  match l with
  | [] => []
  | a :: l' =>
      match l' with
      | [] => [a]
      | b :: _ => match cmp a b with Eq => dedup l' | _ => a :: dedup l' end
      end
  end.

(** [binary_search(key).is_ok()] on a sorted slice. *)
Fixpoint binary_search (l : list A) (key : A) : bool :=
  match l with
  | [] => false
  | a :: l' => match cmp a key with Lt => binary_search l' key | Eq => true | Gt => false end
  end.

(** Strictly increasing. *)
Fixpoint increasing (l : list A) : Prop :=
  match l with
  | [] => True
  | a :: l' => Forall (fun b => cmp a b = Lt) l' /\ increasing l'
  end.

(** Increasing. *)
Fixpoint ascending (l : list A) : Prop :=
  match l with
  | [] => True
  | a :: l' => Forall (fun b => cmp a b <> Gt) l' /\ ascending l'
  end.

Context `{!OrdLaws A}.

Lemma cmp_le_lt (a b c : A) : cmp a b <> Gt -> cmp b c = Lt -> cmp a c = Lt.
Proof.
  intros Hab Hbc. destruct (cmp a b) eqn:Hc; [|by eapply cmp_lt_trans|done].
  by apply cmp_eq in Hc as ->.
Qed.

Lemma cmp_le_trans (a b c : A) : cmp a b <> Gt -> cmp b c <> Gt -> cmp a c <> Gt.
Proof.
  intros Hab Hbc. destruct (cmp b c) eqn:Hc; [|by rewrite (cmp_le_lt a b c)|done].
  by apply cmp_eq in Hc as ->.
Qed.

Lemma cmp_gt (a b : A) : cmp a b = Gt -> cmp b a = Lt.
Proof. intros H. by rewrite cmp_opp, H. Qed.

Lemma sort_insert_perm a l : sort_insert a l ≡ₚ a :: l.
Proof.
  induction l as [|b l IH]; simpl; [done|]. destruct (cmp a b); [done..|].
  rewrite IH. apply Permutation_swap.
Qed.

Lemma sort_perm l : sort_unstable l ≡ₚ l.
Proof. induction l as [|a l IH]; simpl; [done|]. by rewrite sort_insert_perm, IH. Qed.

Lemma sort_insert_ascending a l : ascending l -> ascending (sort_insert a l).
Proof.
  induction l as [|b l IH]; simpl; [by repeat constructor|]. intros [Hb Hl].
  assert (cmp a b <> Gt -> Forall (fun c => cmp a c <> Gt) (b :: l)) as Hle.
  { intros Hab. constructor; [done|]. eapply Forall_impl; [exact Hb|].
    intros c. by apply cmp_le_trans. }
  destruct (cmp a b) eqn:Hc; [by split; [apply Hle|]..|]. split; [|by apply IH].
  rewrite sort_insert_perm. constructor; [by rewrite (cmp_gt a b Hc)|done].
Qed.

Lemma sort_ascending l : ascending (sort_unstable l).
Proof. induction l as [|a l IH]; simpl; [done|]. by apply sort_insert_ascending. Qed.

Lemma elem_of_dedup a l : a ∈ dedup l <-> a ∈ l.
Proof.
  induction l as [|b l IH]; simpl; [done|]. destruct l as [|c l]; [done|].
  destruct (cmp b c) eqn:Hc; [|rewrite !elem_of_cons, IH, elem_of_cons; naive_solver..].
  apply cmp_eq in Hc as ->. rewrite IH. rewrite !elem_of_cons. naive_solver.
Qed.

Lemma dedup_increasing l : ascending l -> increasing (dedup l).
Proof.
  induction l as [|a l IH]; simpl; [done|]. intros [Ha Hl]. specialize (IH Hl).
  destruct l as [|b l]; [by repeat constructor|].
  destruct (cmp a b) eqn:Hc; [done| |by apply list.Forall_cons in Ha as [[] _]].
  split; [|done]. apply list.Forall_forall. intros c Hin. apply (proj1 (elem_of_dedup _ _)) in Hin.
  apply elem_of_cons in Hin as [->|Hin]; [done|]. destruct Hl as [Hb _].
  rewrite list.Forall_forall in Hb. specialize (Hb c Hin).
  destruct (cmp b c) eqn:Hbc; [by apply cmp_eq in Hbc as <-|by eapply cmp_lt_trans|done].
Qed.

(** An ascending slice is determined by its elements: whatever order they come in, sorting
    gives the same result. *)
Lemma ascending_unique l l' : ascending l -> ascending l' -> l ≡ₚ l' -> l = l'.
Proof.
  revert l'. induction l as [|a l IH]; intros [|b l'] Hl Hl' Hp;
    [done|by apply Permutation_nil_cons in Hp|by symmetry in Hp; apply Permutation_nil_cons in Hp|].
  destruct Hl as [Ha Hl], Hl' as [Hb Hl']. assert (a = b) as <-.
  { assert (a ∈ b :: l') as Hin by (rewrite <- Hp; left).
    assert (b ∈ a :: l) as Hin' by (rewrite Hp; left).
    apply elem_of_cons in Hin as [?|Hin]; [done|]. apply elem_of_cons in Hin' as [?|Hin']; [done|].
    rewrite list.Forall_forall in Ha, Hb. specialize (Ha b Hin'). specialize (Hb a Hin).
    apply cmp_eq. rewrite cmp_opp in Hb. by destruct (cmp a b). }
  f_equal. apply IH; [done..|]. by apply Permutation_cons_inv in Hp.
Qed.

Lemma sort_unstable_unique l l' : l ≡ₚ l' -> sort_unstable l = sort_unstable l'.
Proof.
  intros Hp. apply ascending_unique; [apply sort_ascending..|]. by rewrite !sort_perm.
Qed.

(** A slice is found in exactly when it has the key. *)
Lemma binary_search_elem l key : increasing l -> binary_search l key = true <-> key ∈ l.
Proof.
  induction l as [|a l IH]; simpl; [by split; [|intros ?%not_elem_of_nil]|]. intros [Ha Hl].
  rewrite elem_of_cons. destruct (cmp a key) eqn:Hc.
  - apply cmp_eq in Hc as ->. naive_solver.
  - rewrite IH by done. split; [by right|]. intros [->|?]; [|done]. by rewrite cmp_refl in Hc.
  - split; [done|]. intros [->|Hin]; [by rewrite cmp_refl in Hc|].
    rewrite list.Forall_forall in Ha. by rewrite (Ha key Hin) in Hc.
Qed.

(** [sort_unstable] and [dedup] together: the elements, once each, in order. *)
Definition normalized (l : list A) : list A := dedup (sort_unstable l).

Lemma normalized_increasing l : increasing (normalized l).
Proof. apply dedup_increasing, sort_ascending. Qed.

Lemma elem_of_normalized a l : a ∈ normalized l <-> a ∈ l.
Proof. unfold normalized. rewrite elem_of_dedup. by rewrite sort_perm. Qed.

Lemma normalized_nil l : normalized l = [] <-> l = [].
Proof.
  split; [|by intros ->]. intros Hn. destruct l as [|a l]; [done|].
  assert (a ∈ normalized (a :: l)) as Ha by (apply elem_of_normalized; left).
  rewrite Hn in Ha. by apply not_elem_of_nil in Ha.
Qed.
End slices.

#[export] Hint Resolve normalized_increasing sort_ascending : slices.
