(* ===== verification/Grant.v ===== *)
(** * Grants

    crates/xolotl-types/src/grant.rs, the source form of capabilities: method selections by
    name, compiled method bitmaps, propagation flags, selectors, constraints and expiry. The
    parts of a method that grants read come from resource.rs. *)

From Stdlib Require Import ZArith.
From stdpp Require Import base numbers list option strings.
From S2P Require Import Prelude Text Order Path Collection ValueList ValueMap Value Cap.

Local Open Scope N_scope.
Local Open Scope result_scope.

(** ** Bit sets *)

(** [bitflags]' [contains]. *)
Definition flags_contain (self other : N) : bool := N.land self other =? other.

(** [MethodBitmap::method], for a method below 64. *)
Definition bitmap_method (i : N) : N := N.shiftl 1 i.

Definition bitmap_allows (self i : N) : bool := (i <? 64) && flags_contain self (bitmap_method i).

Definition bitmap_subset (self other : N) : bool := flags_contain other self.

(** [u64::trailing_zeros] and [u64::count_ones]. *)
Fixpoint pos_zeros (p : positive) : N :=
  match p with xO p => N.succ (pos_zeros p) | _ => 0 end.
Definition trailing_zeros (bits : N) : N := match bits with N0 => 64 | Npos p => pos_zeros p end.

Fixpoint pos_ones (p : positive) : nat :=
  match p with xI p => S (pos_ones p) | xO p => pos_ones p | xH => 1 end.
Definition count_ones (bits : N) : nat := match bits with N0 => O | Npos p => pos_ones p end.

(** ** Methods *)

Inductive MethodAuthority : Type :=
| Perform | AuthRead | AuthWrite | Append | Subscribe | Publish | Spawn.

Definition authority_verb (self : MethodAuthority) : text :=
  match self with
  | Perform => t "perform"
  | AuthRead => t "read"
  | AuthWrite => t "write"
  | Append => t "append"
  | Subscribe => t "subscribe"
  | Publish => t "publish"
  | Spawn => t "spawn"
  end.

(** The fields of [Method] that authority depends on. *)
Record Method : Type := mkMethod { method_id : N; method_name : text; method_authority : MethodAuthority }.

(** [GrantMethods]. *)
Inductive GrantMethods : Type :=
| MethodsNone
| MethodsAll
| MethodsNames (names : list text).

#[export] Instance GrantMethods_eq_dec : EqDecision GrantMethods.
Proof. solve_decision. Defined.

(** Its derived order. *)
#[export] Instance Ord_GrantMethods : Ord GrantMethods :=
  cmp_by (fun m => match m with
                   | MethodsNone => (0, [])
                   | MethodsAll => (1, [])
                   | MethodsNames names => (2, names)
                   end).

(** [GrantMethods::names]. *)
Definition methods_named (names : list text) : GrantMethods :=
  let names := dedup (sort_unstable names) in
  match names with [] => MethodsNone | _ => MethodsNames names end.

Definition methods_is_empty (self : GrantMethods) : bool :=
  match self with MethodsNone => true | _ => false end.

Definition methods_allow (self : GrantMethods) (name : text) : bool :=
  match self with
  | MethodsNone => false
  | MethodsAll => true
  | MethodsNames names => binary_search names name
  end.

Definition selected_names (self : GrantMethods) : option (list text) :=
  match self with
  | MethodsNone => Some []
  | MethodsAll => None
  | MethodsNames names => Some names
  end.

(** The [while] loop of [covers_bitmap]: a turn per set bit. *)
Fixpoint covers_bits (turns : nat) (self : GrantMethods) (bits : N) (methods : list Method) : bool :=
  match turns with
  | O => true
  | S turns =>
      if bits =? 0 then true
      else
        match get methods (trailing_zeros bits) with
        | None => false
        | Some method =>
            if negb (methods_allow self (method_name method)) then false
            else covers_bits turns self (N.land bits (bits - 1)) methods
        end
  end.

Definition covers_bitmap (self : GrantMethods) (requested : N) (methods : list Method) : bool :=
  covers_bits (count_ones requested) self requested methods.

Definition methods_subset (self parent : GrantMethods) : bool :=
  match self, parent with
  | MethodsNone, _ | _, MethodsAll => true
  | MethodsAll, _ | _, MethodsNone => false
  | MethodsNames child, MethodsNames parent => forallb (binary_search parent) child
  end.

Definition methods_union (self other : GrantMethods) : GrantMethods :=
  match self, other with
  | MethodsAll, _ | _, MethodsAll => MethodsAll
  | MethodsNone, _ => other
  | _, MethodsNone => self
  | MethodsNames left_, MethodsNames right_ => methods_named (left_ ++ right_)
  end.

(** ** Rights *)

(** [RightFlags]. *)
Definition FLAG_CLONE : N := 1.
Definition FLAG_TRANSFER : N := 2.
Definition FLAG_SPAWN_WITH : N := 4.
Definition FLAG_DELEGATE : N := 8.

Inductive DeriveKind : Type := DeriveClone | DeriveTransfer | DeriveSpawnWith | DeriveDelegate.

Definition required_flag (self : DeriveKind) : N :=
  match self with
  | DeriveClone => FLAG_CLONE
  | DeriveTransfer => FLAG_TRANSFER
  | DeriveSpawnWith => FLAG_SPAWN_WITH
  | DeriveDelegate => FLAG_DELEGATE
  end.

(** Compiled rights, of handles and open requests. *)
Record Rights : Type := mkRights { right_methods : N; right_flags : N }.

#[export] Instance Rights_eq_dec : EqDecision Rights.
Proof. solve_decision. Defined.

Definition rights_subset (self parent : Rights) : bool :=
  bitmap_subset (right_methods self) (right_methods parent) &&
  flags_contain (right_flags parent) (right_flags self).

Definition allows_derive (self : Rights) (kind : DeriveKind) : bool :=
  flags_contain (right_flags self) (required_flag kind).

(** Source rights, of grants. *)
Record GrantRights : Type := mkGrantRights { granted_methods : GrantMethods; granted_flags : N }.

#[export] Instance GrantRights_eq_dec : EqDecision GrantRights.
Proof. solve_decision. Defined.

Definition grant_rights_empty (self : GrantRights) : bool :=
  methods_is_empty (granted_methods self) && (granted_flags self =? 0).

Definition grant_rights_subset (self parent : GrantRights) : bool :=
  methods_subset (granted_methods self) (granted_methods parent) &&
  flags_contain (granted_flags parent) (granted_flags self).

(** ** Grants *)

(** [ResourceSelector]: a capability pattern. *)
Definition ResourceSelector : Type := Capability.

Definition selector_all : ResourceSelector :=
  mkCapability (t "*") None (t "**") [t "**"] None None.

Definition selector_exact (verb : text) (target : Path) : Result ResourceSelector CapError :=
  if negb (is_concrete target) then Err Malformed
  else
    let? pattern := cap_try_new verb (path_scheme target) (path_segments target) None in
    match path_cluster target with
    | Some cluster => cap_with_cluster pattern cluster
    | None => Ok pattern
    end.

Definition selector_matches (self : ResourceSelector) (verb : text) (target : Path) : bool :=
  matches_structure self verb target.

(** [ConstraintSet]: every predicate must hold. *)
Definition ConstraintSet : Type := list Predicate.

Definition constraints_eval (self : ConstraintSet) (input : Value) (now_millis : Z) : bool :=
  forallb (fun p => predicate_eval p input now_millis) self.

Inductive Expiry : Type := Never | At (millis : Z).

(** Derived orders: predicates by key, operator and value; expiries with [Never] first. *)
Definition op_index (op : PredOp) : N :=
  match op with PEq => 0 | PNe => 1 | PLe => 2 | PLt => 3 | PGe => 4 | PGt => 5 end.

#[export] Instance Ord_Predicate : Ord Predicate :=
  cmp_by (fun p => (pred_key p, (op_index (pred_op p), pred_value p))).

#[export] Instance Ord_Expiry : Ord Expiry :=
  cmp_by (fun e => match e with Never => None | At millis => Some millis end).

#[export] Instance Expiry_eq_dec : EqDecision Expiry.
Proof. solve_decision. Defined.

Definition is_expired (self : Expiry) (now_millis : Z) : bool :=
  match self with Never => false | At millis => (millis <? now_millis)%Z end.

Record Grant : Type := mkGrant {
  grant_id : N;
  grant_holder : N;
  grant_selector : ResourceSelector;
  grant_rights : GrantRights;
  grant_constraints : ConstraintSet;
  grant_expires : Expiry
}.

(** The selector's own predicate. *)
Definition selector_holds (self : ResourceSelector) (input : Value) (now_millis : Z) : bool :=
  match cap_predicate self with
  | None => true
  | Some predicate => predicate_eval predicate input now_millis
  end.

(** [Grant::covers]. *)
Definition grant_covers (self : Grant) (verb : text) (target : Path) (input : Value)
    (now_millis : Z) : bool :=
  if is_expired (grant_expires self) now_millis then false
  else
    selector_matches (grant_selector self) verb target &&
    selector_holds (grant_selector self) input now_millis &&
    constraints_eval (grant_constraints self) input now_millis.

(** ** Lemmas on bit sets *)

(** [contains] as inclusion of bits. *)
Lemma flags_contain_bits self other :
  flags_contain self other = true <-> forall i, N.testbit other i = true -> N.testbit self i = true.
Proof.
  unfold flags_contain. rewrite N.eqb_eq. split.
  - intros He i Hi. rewrite <- He, N.land_spec in Hi. by apply andb_true_iff in Hi as [? _].
  - intros Hsub. apply N.bits_inj. intros i. rewrite N.land_spec.
    destruct (N.testbit other i) eqn:Ho; [by rewrite Hsub|apply andb_false_r].
Qed.

Lemma flags_contain_trans a b c :
  flags_contain a b = true -> flags_contain b c = true -> flags_contain a c = true.
Proof. rewrite !flags_contain_bits. eauto. Qed.

Lemma bitmap_allows_bit self i : i < 64 -> bitmap_allows self i = N.testbit self i.
Proof.
  intros Hi. unfold bitmap_allows. rewrite (proj2 (N.ltb_lt i 64)) by done. cbn [andb].
  apply eq_bool_prop_intro. rewrite !Is_true_true, flags_contain_bits. unfold bitmap_method. split.
  - intros H. apply H. rewrite N.shiftl_spec_high' by lia. by rewrite N.sub_diag.
  - intros H j Hj. destruct (N.lt_ge_cases j i); [by rewrite N.shiftl_spec_low in Hj|].
    rewrite N.shiftl_spec_high' in Hj by lia. destruct (N.eq_dec j i) as [->|]; [done|].
    destruct (j - i) as [|[]] eqn:Hd; simpl in Hj; (done || lia).
Qed.

(** Clearing the lowest set bit. *)
Definition clear_lowest (bits : N) : N := N.land bits (bits - 1).

Lemma clear_lowest_even p : clear_lowest (Npos p~0) = N.double (clear_lowest (Npos p)).
Proof. by destruct p. Qed.

Lemma clear_lowest_odd p : clear_lowest (Npos p~1) = N.double (Npos p).
Proof.
  unfold clear_lowest. change (N.land (Npos p~1) (Npos p~1 - 1)) with (N.double (N.land (Npos p) (Npos p))).
  by rewrite N.land_diag.
Qed.

Lemma testbit_double_succ n i : N.testbit (N.double n) (N.succ i) = N.testbit n i.
Proof. rewrite N.double_spec. apply N.testbit_even_succ. lia. Qed.

(** The lowest set bit is the one found, and the only one cleared. *)
Lemma lowest_bit p : N.testbit (Npos p) (pos_zeros p) = true.
Proof.
  induction p as [p _|p IH|]; [done| |done]. cbn [pos_zeros].
  change (Npos p~0) with (N.double (Npos p)). by rewrite testbit_double_succ.
Qed.

Lemma clear_lowest_bit p i :
  N.testbit (clear_lowest (Npos p)) i = N.testbit (Npos p) i && negb (i =? pos_zeros p).
Proof.
  revert i. induction p as [p _|p IH|]; intros i.
  - rewrite clear_lowest_odd. cbn [pos_zeros]. destruct i as [|i]; [done|]. by rewrite andb_true_r.
  - rewrite clear_lowest_even. cbn [pos_zeros]. change (Npos p~0) with (N.double (Npos p)).
    induction i as [|i _] using N.peano_ind; [by destruct (clear_lowest _)|].
    rewrite !testbit_double_succ, IH. do 2 f_equal.
    destruct (N.eqb_spec i (pos_zeros p)), (N.eqb_spec (N.succ i) (N.succ (pos_zeros p))); (done || lia).
  - by destruct i.
Qed.

Lemma clear_lowest_ones p : pos_ones p = S (count_ones (clear_lowest (Npos p))).
Proof.
  induction p as [p _|p IH|]; [by rewrite clear_lowest_odd| |done].
  rewrite clear_lowest_even. cbn [pos_ones]. rewrite IH. by destruct (clear_lowest _).
Qed.

(** ** Lemmas on method selections *)

(** What the constructors give: names in strict order, at least one. *)
Definition methods_ok (m : GrantMethods) : Prop :=
  match m with MethodsNames names => increasing names /\ names <> [] | _ => True end.

Lemma methods_named_ok names : methods_ok (methods_named names).
Proof.
  pose proof (normalized_increasing names) as Hi. unfold methods_named, normalized in *.
  by destruct (dedup _) as [|n l].
Qed.

Lemma methods_allow_names names name :
  increasing names -> methods_allow (MethodsNames names) name = true <-> name ∈ names.
Proof. apply binary_search_elem. Qed.

Lemma methods_named_allow names name :
  methods_allow (methods_named names) name = true <-> name ∈ names.
Proof.
  rewrite <- (elem_of_normalized name names). pose proof (normalized_increasing names) as Hi.
  unfold methods_named, normalized in *. destruct (dedup _) as [|n l]; [|by apply binary_search_elem].
  by split; [|intros ?%not_elem_of_nil].
Qed.

(** No finite list has every name. *)
Lemma fresh_name (names : list text) : exists name, name ∉ names.
Proof.
  exists (concat names ++ t "x"). intros Hin.
  assert (forall l : list text, forall n, n ∈ l -> (length n <= length (concat l))%nat) as Hlen.
  { induction l as [|m l IH]; intros n Hn; [by apply not_elem_of_nil in Hn|]. simpl.
    rewrite length_app. apply elem_of_cons in Hn as [->|Hn]; [lia|]. specialize (IH n Hn). lia. }
  apply Hlen in Hin. rewrite length_app in Hin. change (length (t "x")) with 1%nat in Hin. lia.
Qed.

Lemma methods_subset_allow self parent :
  methods_ok self -> methods_ok parent ->
  methods_subset self parent = true <->
  forall name, methods_allow self name = true -> methods_allow parent name = true.
Proof.
  intros Hs Hp. destruct self as [| |child], parent as [| |names]; try (simpl; naive_solver).
  - simpl. split; [done|]. intros H. by specialize (H [] eq_refl).
  - split; [done|]. intros H. destruct Hp as [Hp _]. destruct (fresh_name names) as [n Hn].
    specialize (H n eq_refl). by apply methods_allow_names in H.
  - split; [done|]. intros H. destruct Hs as [Hs Hne]. destruct child as [|n child]; [done|].
    specialize (H n). by rewrite methods_allow_names in H; [discriminate H; left|].
  - destruct Hs as [Hs _], Hp as [Hp _]. unfold methods_subset. rewrite forallb_forall.
    setoid_rewrite <- list_elem_of_In. setoid_rewrite (methods_allow_names child _ Hs). done.
Qed.

Lemma methods_union_allow a b name :
  methods_ok a -> methods_ok b ->
  methods_ok (methods_union a b) /\
  methods_allow (methods_union a b) name = methods_allow a name || methods_allow b name.
Proof.
  intros Ha Hb. destruct a as [| |l], b as [| |r]; simpl; rewrite ?orb_false_r, ?orb_true_r; try done.
  split; [apply methods_named_ok|]. destruct Ha as [Ha _], Hb as [Hb _].
  apply eq_bool_prop_intro. rewrite !Is_true_true, orb_true_iff, methods_named_allow, elem_of_app.
  by rewrite !binary_search_elem.
Qed.

(** ** Derived orders *)

#[export] Instance OrdLaws_GrantMethods : OrdLaws GrantMethods.
Proof. apply cmp_by_laws. intros [| |] [| |]; naive_solver. Qed.

#[export] Instance OrdLaws_Predicate : OrdLaws Predicate.
Proof.
  apply cmp_by_laws. intros [k o v] [k' o' v'] [= -> Ho ->]. f_equal. by destruct o, o'.
Qed.

#[export] Instance OrdLaws_Expiry : OrdLaws Expiry.
Proof. apply cmp_by_laws. intros [|] [|]; naive_solver. Qed.

(** ** Compiled bitmaps *)

(** The loop decides whether every requested bit is a method that is allowed. *)
Lemma covers_bitmap_bits self requested methods :
  covers_bitmap self requested methods = true <->
  forall i, N.testbit requested i = true ->
    exists m, get methods i = Some m /\ methods_allow self (method_name m) = true.
Proof.
  unfold covers_bitmap. remember (count_ones requested) as n eqn:Hn. revert requested Hn.
  induction n as [|n IH]; intros [|p] Hn.
  - by split.
  - by rewrite (clear_lowest_ones p : count_ones (Npos p) = _) in Hn.
  - done.
  - cbn [covers_bits]. change (Npos p =? 0) with false. cbn match.
    change (trailing_zeros (Npos p)) with (pos_zeros p).
    change (N.land (Npos p) (Npos p - 1)) with (clear_lowest (Npos p)).
    assert (count_ones (clear_lowest (Npos p)) = n) as Hc.
    { rewrite (clear_lowest_ones p : count_ones (Npos p) = _) in Hn. lia. }
    destruct (get methods (pos_zeros p)) as [m|] eqn:Hm.
    2: { split; [done|]. intros H. destruct (H _ (lowest_bit p)) as (? & ? & _). congruence. }
    destruct (methods_allow self (method_name m)) eqn:Ha; cbn [negb].
    2: { split; [done|]. intros H. destruct (H _ (lowest_bit p)) as (m' & Hm' & Ha'). congruence. }
    rewrite IH by done. setoid_rewrite clear_lowest_bit. split.
    + intros H i Hi. destruct (N.eqb_spec i (pos_zeros p)) as [->|Hne]; [by exists m|].
      apply H. rewrite Hi. by rewrite (proj2 (N.eqb_neq _ _)).
    + intros H i [Hi _]%andb_true_iff. by apply H.
Qed.

(** Attenuated methods cover fewer requests, and fewer requests are easier to cover. *)
Lemma covers_bitmap_subset self parent requested methods :
  methods_ok self -> methods_ok parent -> methods_subset self parent = true ->
  covers_bitmap self requested methods = true -> covers_bitmap parent requested methods = true.
Proof.
  intros Hs Hp Hsub. rewrite methods_subset_allow in Hsub by done. rewrite !covers_bitmap_bits.
  intros H i Hi. destruct (H i Hi) as (m & ? & ?). eauto.
Qed.
