(* ===== verification/GrantPlan.v ===== *)
(** * Planning request grants

    crates/xolotl-kernel/src/bootstrap.rs, [plan_grants_from_views]: the grants of a request
    process are planned from those of its anchor. Every parent that covers a requested grant
    contributes an alternative, restricted by the parent's own predicates and expiry. *)

From Stdlib Require Import ZArith.
From stdpp Require Import base numbers list option strings.
From S2P Require Import Prelude Text Order Path Collection ValueList ValueMap Value Cap Grant.

Local Open Scope N_scope.
Local Open Scope result_scope.

(** [RequestGrantView]: without rights, the parent's methods are inherited. *)
Record RequestGrantView : Type := mkView {
  view_selector : ResourceSelector;
  view_rights : option GrantRights
}.

Record PlannedRequestGrant : Type := mkPlanned {
  planned_selector : ResourceSelector;
  planned_rights : GrantRights;
  planned_constraints : ConstraintSet;
  planned_expires : Expiry
}.

#[export] Instance PlannedRequestGrant_eq_dec : EqDecision PlannedRequestGrant.
Proof. solve_decision. Defined.

(** The two errors of planning; the text of the refused literal is not modelled. *)
Inductive PlanError : Type :=
| RequestGrantLimit (limit : N)
| CapabilityCeiling (selector : ResourceSelector).

(** [derived_grant_constraints]: the parent's predicates, but for the one that the requested
    selector carries itself. *)
Definition derived_grant_constraints (parent : Grant) (child_predicate : option Predicate)
    : ConstraintSet :=
  let own := match cap_predicate (grant_selector parent) with
             | Some predicate => if decide (Some predicate = child_predicate) then [] else [predicate]
             | None => []
             end in
  let inherited := filter (fun predicate => Some predicate <> child_predicate) (grant_constraints parent) in
  dedup (sort_unstable (own ++ inherited)).

(** The rights asked of a parent. *)
Definition requested_rights (view : RequestGrantView) (parent : Grant) : GrantRights :=
  match view_rights view with
  | Some rights => rights
  | None => mkGrantRights (granted_methods (grant_rights parent)) 0
  end.

(** The parent can serve the request. *)
Definition eligible (view : RequestGrantView) (now_millis : Z) (parent : Grant) : bool :=
  negb (is_expired (grant_expires parent) now_millis ||
        negb (covers_cap_pattern (grant_selector parent) (view_selector view))) &&
  negb (grant_rights_empty (requested_rights view parent) ||
        negb (grant_rights_subset (requested_rights view parent) (grant_rights parent))).

Definition planned_grant (view : RequestGrantView) (parent : Grant) : PlannedRequestGrant :=
  mkPlanned (view_selector view) (requested_rights view parent)
    (derived_grant_constraints parent (cap_predicate (view_selector view)))
    (grant_expires parent).

(** [HashSet::insert]. *)
Definition set_insert {A} `{!EqDecision A} (a : A) (unique : list A) : list A :=
  if decide (a ∈ unique) then unique else unique ++ [a].

(** The inner loop, over the parents of one request. *)
Fixpoint plan_parents (parents : list Grant) (view : RequestGrantView) (now_millis : Z) (limit : N)
    (unique : list PlannedRequestGrant) (covered : bool)
    : Result (list PlannedRequestGrant * bool) PlanError :=
  match parents with
  | [] => Ok (unique, covered)
  | parent :: parents' =>
      if eligible view now_millis parent then
        let unique := set_insert (planned_grant view parent) unique in
        if limit <? len unique then Err (RequestGrantLimit limit)
        else plan_parents parents' view now_millis limit unique true
      else plan_parents parents' view now_millis limit unique covered
  end.

(** The outer loop, over the requests. *)
Fixpoint plan_views (parents : list Grant) (views : list RequestGrantView) (now_millis : Z) (limit : N)
    (unique : list PlannedRequestGrant) : Result (list PlannedRequestGrant) PlanError :=
  match views with
  | [] => Ok unique
  | view :: views' =>
      let? (unique, covered) := plan_parents parents view now_millis limit unique false in
      if covered : bool then plan_views parents views' now_millis limit unique
      else Err (CapabilityCeiling (view_selector view))
  end.

(** [compare_request_selectors] and [compare_planned_grants]. *)
Definition selector_fields (self : ResourceSelector) :=
  (cap_verb self, (cap_cluster self, (cap_scheme self,
    (cap_segments self, (cap_method self, cap_predicate self))))).

#[export] Instance Ord_PlannedRequestGrant : Ord PlannedRequestGrant :=
  cmp_by (fun g => (selector_fields (planned_selector g), (granted_methods (planned_rights g),
    (granted_flags (planned_rights g), (planned_constraints g, planned_expires g))))).

Definition plan_grants_from_views (parents : list Grant) (views : list RequestGrantView)
    (now_millis : Z) (limit : N) : Result (list PlannedRequestGrant) PlanError :=
  let? unique := plan_views parents views now_millis limit [] in
  Ok (sort_unstable unique).

(** The grant that [request_process_entry] attaches for a planned one. *)
Definition attached_grant (id holder : N) (g : PlannedRequestGrant) : Grant :=
  mkGrant id holder (planned_selector g) (planned_rights g) (planned_constraints g) (planned_expires g).

(** ** The loops *)

Lemma elem_of_set_insert {A} `{!EqDecision A} (a b : A) l : b ∈ set_insert a l <-> b = a \/ b ∈ l.
Proof.
  unfold set_insert. case_decide; [naive_solver|].
  rewrite elem_of_app, list_elem_of_singleton. naive_solver.
Qed.

Lemma NoDup_set_insert {A} `{!EqDecision A} (a : A) l : NoDup l -> NoDup (set_insert a l).
Proof.
  unfold set_insert. case_decide as Ha; [done|]. intros Hl. apply list.NoDup_app. split_and!; [done| |].
  - by intros b Hb ->%list_elem_of_singleton.
  - apply NoDup_singleton.
Qed.

Section plan.
Context (parents : list Grant) (now : Z) (limit : N).
Implicit Types (view : RequestGrantView) (g : PlannedRequestGrant) (unique : list PlannedRequestGrant).

(** An alternative that planning may produce. *)
Definition alternative (ps : list Grant) view g : Prop :=
  exists parent, parent ∈ ps /\ eligible view now parent = true /\ g = planned_grant view parent.

Lemma plan_parents_ok ps view unique covered unique' covered' :
  plan_parents ps view now limit unique covered = Ok (unique', covered') ->
  (forall g, g ∈ unique' <-> g ∈ unique \/ alternative ps view g) /\
  covered' = covered || existsb (eligible view now) ps /\
  (NoDup unique -> NoDup unique') /\ (len unique <= limit -> len unique' <= limit).
Proof.
  unfold alternative. revert unique covered. induction ps as [|parent ps IH]; intros unique covered; simpl.
  - intros [= <- <-]. rewrite orb_false_r. split_and!; [|done..].
    intros g. split; [by left|]. intros [?|(p & []%not_elem_of_nil & _)]; done.
  - destruct (eligible view now parent) eqn:He; simpl.
    + destruct (limit <? _) eqn:Hl; [done|]. apply N.ltb_ge in Hl.
      intros (Hin & -> & Hnd & Hlen)%IH. rewrite orb_true_r. split_and!; [|done| |by auto].
      * intros g. rewrite Hin, elem_of_set_insert. setoid_rewrite elem_of_cons. naive_solver.
      * intros. by apply Hnd, NoDup_set_insert.
    + intros (Hin & -> & Hnd & Hlen)%IH. split_and!; [|done..].
      intros g. rewrite Hin. setoid_rewrite elem_of_cons. split; [naive_solver|].
      intros [?|(p & [->|Hp] & Hp' & ->)]; [by left|congruence|right; eauto].
Qed.

Lemma plan_views_ok views unique unique' :
  plan_views parents views now limit unique = Ok unique' ->
  (forall g, g ∈ unique' <-> g ∈ unique \/ exists view, view ∈ views /\ alternative parents view g) /\
  (forall view, view ∈ views -> existsb (eligible view now) parents = true) /\
  (NoDup unique -> NoDup unique') /\ (len unique <= limit -> len unique' <= limit).
Proof.
  revert unique. induction views as [|view views IH]; intros unique; simpl.
  - intros [= <-]. split_and!; [|by intros ? []%not_elem_of_nil|done..].
    intros g. split; [by left|]. intros [?|(? & []%not_elem_of_nil & _)]; done.
  - destruct (plan_parents _ _ _ _ _ _) as [[unique1 covered]|] eqn:Hp; [|done]. simpl.
    apply plan_parents_ok in Hp as (Hin1 & -> & Hnd1 & Hlen1).
    destruct (existsb _ parents) eqn:Hcov; [|done]. intros (Hin & Hall & Hnd & Hlen)%IH.
    split_and!; [| |by auto..].
    + intros g. rewrite Hin, Hin1. setoid_rewrite elem_of_cons. naive_solver.
    + intros v [->|Hv]%elem_of_cons; [done|by apply Hall].
Qed.

Lemma plan_parents_error ps view unique covered e :
  plan_parents ps view now limit unique covered = Err e -> e = RequestGrantLimit limit.
Proof.
  revert unique covered. induction ps as [|p ps IH]; intros u c; simpl; [done|].
  destruct (eligible view now p); [|apply IH]. destruct (limit <? _); [by intros [= <-]|apply IH].
Qed.

(** A refusal names a request that no parent can serve. *)
Lemma plan_views_ceiling views unique selector :
  plan_views parents views now limit unique = Err (CapabilityCeiling selector) ->
  exists view, view ∈ views /\ selector = view_selector view /\
    existsb (eligible view now) parents = false.
Proof.
  revert unique. induction views as [|view views IH]; intros unique; simpl; [done|].
  destruct (plan_parents _ _ _ _ _ _) as [[unique1 covered]|e] eqn:Hp; simpl.
  - apply plan_parents_ok in Hp as (_ & -> & _). destruct (existsb _ parents) eqn:Hcov.
    + intros (v & Hv & Hrest)%IH. exists v. split; [by right|done].
    + intros [= <-]. exists view. split; [left|done].
  - intros [= ->]. by apply plan_parents_error in Hp.
Qed.
End plan.

(** ** Attenuation *)

Lemma eligible_parts view now parent : eligible view now parent = true ->
  is_expired (grant_expires parent) now = false /\
  covers_cap_pattern (grant_selector parent) (view_selector view) = true /\
  grant_rights_empty (requested_rights view parent) = false /\
  grant_rights_subset (requested_rights view parent) (grant_rights parent) = true.
Proof.
  unfold eligible. rewrite andb_true_iff, !negb_true_iff, !orb_false_iff, !negb_false_iff. naive_solver.
Qed.

(** A parent's predicate holds where the child's own and the derived ones do. *)
Lemma derived_constraints_sound parent child input now :
  selector_holds child input now = true ->
  constraints_eval (derived_grant_constraints parent (cap_predicate child)) input now = true ->
  selector_holds (grant_selector parent) input now = true /\
  constraints_eval (grant_constraints parent) input now = true.
Proof.
  unfold constraints_eval. rewrite !forallb_forall. intros Hown Hder.
  assert (forall p, p ∈ grant_constraints parent \/ cap_predicate (grant_selector parent) = Some p ->
    predicate_eval p input now = true) as Hp.
  { intros p Hp. destruct (decide (Some p = cap_predicate child)) as [He|Hne].
    - unfold selector_holds in Hown. by rewrite <- He in Hown.
    - apply Hder, list_elem_of_In. apply elem_of_normalized, elem_of_app. destruct Hp as [Hp|Hp].
      + right. by apply list_elem_of_filter.
      + left. rewrite Hp, decide_False by done. left. }
  split.
  - unfold selector_holds. destruct (cap_predicate (grant_selector parent)) as [p|] eqn:He; [|done].
    apply Hp. by right.
  - intros p Hin. apply Hp. left. by apply list_elem_of_In.
Qed.

Lemma matches_structure_trans p c verb target :
  comparable p c target -> covers_cap_pattern p c = true ->
  matches_structure c verb target = true -> matches_structure p verb target = true.
Proof.
  unfold covers_cap_pattern, matches_structure.
  rewrite !andb_true_iff, orb_true_iff, !bool_decide_eq_true. intros Hcmp [Hpath Hm] [Hc Hcov].
  rewrite Hc in Hm. split; [by destruct Hm|]. by eapply covers_path_trans.
Qed.

(** What an attached grant covers, its parent covers, at any time. *)
Lemma attached_covers view parent now id holder verb target input now' :
  eligible view now parent = true ->
  comparable (grant_selector parent) (view_selector view) target ->
  grant_covers (attached_grant id holder (planned_grant view parent)) verb target input now' = true ->
  grant_covers parent verb target input now' = true.
Proof.
  intros (_ & Hpat & _ & _)%eligible_parts Hcmp. unfold grant_covers, selector_matches. simpl.
  destruct (is_expired (grant_expires parent) now'); [done|]. rewrite !andb_true_iff.
  intros [[Hm Hown] Hder]. destruct (derived_constraints_sound parent _ _ _ Hown Hder) as [Hs Hc].
  split_and!; [by eapply matches_structure_trans|done..].
Qed.

#[export] Instance OrdLaws_PlannedRequestGrant : OrdLaws PlannedRequestGrant.
Proof.
  apply cmp_by_laws. intros [[] [] ? ?] [[] [] ? ?] [=]. by simplify_eq/=.
Qed.

(** ** Properties *)

(** C39: planning request grants only attenuates, and omits nothing. Every planned grant
    comes from a parent that is not expired and holds its rights; what it covers, for any
    target in the parent's scope, input and time, the parent covers too. Every request is
    served, every parent that can serve it contributes its alternative, and the plan lists
    each alternative once, in an order that does not depend on the order of discovery. *)
Theorem planned_grants_attenuate (parents : list Grant) (views : list RequestGrantView) (now : Z)
    (limit : N) (planned : list PlannedRequestGrant) :
  plan_grants_from_views parents views now limit = Ok planned ->
  (forall g, g ∈ planned -> exists parent view,
     parent ∈ parents /\ view ∈ views /\ planned_selector g = view_selector view /\
     is_expired (grant_expires parent) now = false /\
     grant_rights_subset (planned_rights g) (grant_rights parent) = true /\
     forall id holder verb target input now',
       comparable (grant_selector parent) (planned_selector g) target ->
       grant_covers (attached_grant id holder g) verb target input now' = true ->
       grant_covers parent verb target input now' = true) /\
  (forall view, view ∈ views -> exists g, g ∈ planned /\ planned_selector g = view_selector view) /\
  (forall view parent, view ∈ views -> parent ∈ parents -> eligible view now parent = true ->
     planned_grant view parent ∈ planned) /\
  NoDup planned /\ ascending planned /\ len planned <= limit.
Proof.
  unfold plan_grants_from_views. destruct (plan_views _ _ _ _ _) as [unique|] eqn:Hp; [|done].
  cbn [result_bind]. intros [= <-]. apply plan_views_ok in Hp as (Hin & Hall & Hnd & Hlen).
  assert (forall g, g ∈ sort_unstable unique <-> exists view, view ∈ views /\ alternative now parents view g) as Hmem.
  { intros g. rewrite sort_perm, Hin. split; [intros [[]%not_elem_of_nil|?]; done|by right]. }
  split_and!.
  - intros g (view & Hview & parent & Hparent & He & ->)%Hmem. exists parent, view.
    pose proof (eligible_parts _ _ _ He) as (Hexp & _ & _ & Hsub). split_and!; [done..|].
    intros. by eapply attached_covers.
  - intros view Hview. pose proof (Hall view Hview) as (parent & Hparent & He)%existsb_exists.
    exists (planned_grant view parent). split; [|done]. apply Hmem. exists view. split; [done|].
    exists parent. split_and!; [by apply list_elem_of_In|done..].
  - intros view parent Hview Hparent He. apply Hmem. exists view. split; [done|]. by exists parent.
  - rewrite sort_perm. apply Hnd, NoDup_nil_2.
  - apply sort_ascending.
  - unfold len. rewrite (Permutation_length (sort_perm unique)). apply Hlen. unfold len. simpl. lia.
Qed.

Definition demo_parent : Grant :=
  mkGrant 1 7 (cap_of "read://state/memory/**@account=alice")
    (mkGrantRights (methods_named [t "read"; t "list"; t "read"]) 3) [] (At 100).
Definition demo_view : RequestGrantView :=
  mkView (cap_of "read://state/memory/*/x") None.

Lemma planned_grants_attenuate_witness :
  exists g, plan_grants_from_views [demo_parent] [demo_view] 50 4 = Ok [g] /\
    planned_constraints g = [mkPredicate (t "account") PEq (t "alice")] /\
    grant_rights_subset (planned_rights g) (grant_rights demo_parent) = true.
Proof.
  exists (planned_grant demo_view demo_parent).
  assert (plan_grants_from_views [demo_parent] [demo_view] 50 4 =
    Ok [planned_grant demo_view demo_parent]) as Hp by (vm_compute; reflexivity).
  split; [exact Hp|]. split; [vm_compute; reflexivity|].
  destruct (planned_grants_attenuate _ _ _ _ _ Hp) as (Hall & _).
  destruct (Hall (planned_grant demo_view demo_parent)) as (parent & view & Hin & _ & _ & _ & Hsub & _).
  - apply list_elem_of_here.
  - apply list_elem_of_singleton in Hin. rewrite Hin in Hsub. exact Hsub.
Defined.
