(* ===== verification/Policy.v ===== *)
(** * Policy snapshots

    crates/xolotl-kernel/src/policy.rs and open/authority.rs: the residual checks that a
    handle carries, their evaluation in order, and the compilation of matched grants into
    one check of alternatives. *)

From Stdlib Require Import ZArith.
From stdpp Require Import base numbers list option strings gmap.
From S2P Require Import Prelude Text Order Path Collection ValueList ValueMap Value Cap Grant.

(** ** Decisions and checks *)

Inductive PolicyDecision : Type :=
| Allow
| Ask (approval_key reason : text)
| Deny (reason : text).

Definition is_allow (self : PolicyDecision) : bool :=
  match self with Allow => true | _ => false end.

(** What a residual check sees of an operation. *)
Record CheckCtx : Type := mkCheckCtx {
  ctx_input : Value;
  ctx_acting : N;
  ctx_now_millis : Z;
  ctx_target : N
}.

(** [CompiledCheck]: an implementation may read and change the host's state. *)
Record CompiledCheck (W : Type) : Type := mkCheck {
  check_evaluate : CheckCtx -> W -> PolicyDecision * W;
  check_guards_derivation : bool;
  check_name : text
}.
Arguments mkCheck {W} _ _ _.
Arguments check_evaluate {W} _ _ _.
Arguments check_guards_derivation {W} _.
Arguments check_name {W} _.

Section policy.
Context {W : Type}.

Definition PolicySnapshot : Type := list (CompiledCheck W).

Definition snapshot_is_empty (self : PolicySnapshot) : bool :=
  match self with [] => true | _ => false end.

(** [PolicySnapshot::merge]. *)
Definition snapshot_merge (self other : PolicySnapshot) : PolicySnapshot :=
  if snapshot_is_empty self then other
  else if snapshot_is_empty other then self
  else self ++ other.

(** [PolicySnapshot::check]: in order; the first that does not allow decides. *)
Fixpoint snapshot_check (self : PolicySnapshot) (ctx : CheckCtx) (w : W) : PolicyDecision * W :=
  match self with
  | [] => (Allow, w)
  | c :: self' =>
      let '(d, w) := check_evaluate c ctx w in
      if negb (is_allow d) then (d, w) else snapshot_check self' ctx w
  end.

(** [PolicySnapshot::check_derivation]. *)
Definition snapshot_check_derivation (self : PolicySnapshot) (ctx : CheckCtx) (w : W)
    : PolicyDecision * W :=
  snapshot_check (filter (fun c => check_guards_derivation c = true) self) ctx w.

(** ** Built-in checks *)

Definition constraint_check (constraints : ConstraintSet) : CompiledCheck W :=
  mkCheck (fun ctx w =>
    (if constraints_eval constraints (ctx_input ctx) (ctx_now_millis ctx) then Allow
     else Deny (t "input constraint not satisfied"), w)) false (t "constraint").

(** [GrantCondition]: the conjunction of one grant. *)
Record GrantCondition : Type := mkCondition {
  condition_constraints : ConstraintSet;
  condition_expires : Expiry
}.

#[export] Instance Ord_GrantCondition : Ord GrantCondition :=
  cmp_by (fun c => (condition_constraints c, condition_expires c)).

Definition condition_holds (ctx : CheckCtx) (grant : GrantCondition) : bool :=
  negb (is_expired (condition_expires grant) (ctx_now_millis ctx)) &&
  constraints_eval (condition_constraints grant) (ctx_input ctx) (ctx_now_millis ctx).

Definition grant_alternatives_check (alternatives : list GrantCondition) : CompiledCheck W :=
  mkCheck (fun ctx w =>
    (if existsb (condition_holds ctx) alternatives then Allow
     else Deny (t "no matching grant constraint is satisfied"), w)) true (t "grant_alternatives").

Inductive ApprovalDecision : Type := Pending | Approved | Denied.

(** [ApprovalRegistry], a shared map. *)
Definition ApprovalRegistry : Type := gmap text ApprovalDecision.

Definition approval_decision (self : ApprovalRegistry) (key : text) : option ApprovalDecision := self !! key.
Definition approval_set (self : ApprovalRegistry) (key : text) (decision : ApprovalDecision)
    : ApprovalRegistry := <[key := decision]> self.

(** [ApprovalCheck], with a view of the host's state as the registry it consults, if any. *)
Definition approval_check (approval_key reason : text) (registry : option (W -> ApprovalRegistry))
    : CompiledCheck W :=
  mkCheck (fun ctx w =>
    (match (r ← registry; approval_decision (r w) approval_key) with
     | Some Approved => Allow
     | Some Denied => Deny (t "approval denied: " ++ reason)
     | _ => Ask approval_key reason
     end, w)) false (t "approval").

(** [CapabilityPolicy]. *)
Definition policy_applies_to (pattern : Capability) (verb : text) (resource_path : Path) : bool :=
  matches_structure pattern verb resource_path.

Definition policy_compile (constraints : ConstraintSet) : PolicySnapshot :=
  match constraints with
  | [] => []
  | _ => [constraint_check constraints]
  end.

(** ** Compiling grants *)

Definition effective_grant_constraints (grant : Grant) : ConstraintSet :=
  match cap_predicate (grant_selector grant) with
  | None => grant_constraints grant
  | Some predicate => predicate :: grant_constraints grant
  end.

Definition unconditional_grant (grant : Grant) : bool :=
  bool_decide (grant_expires grant = Never) && bool_decide (grant_constraints grant = []) &&
  bool_decide (cap_predicate (grant_selector grant) = None).

(** One grant as a condition, normalized when it has several predicates. *)
Definition grant_condition (grant : Grant) : GrantCondition :=
  let constraints := effective_grant_constraints grant in
  mkCondition (if (1 <? len constraints)%N then dedup (sort_unstable constraints) else constraints)
    (grant_expires grant).

(** [compile_grant_snapshot]. *)
Definition compile_grant_snapshot (grants : list Grant) : PolicySnapshot :=
  if existsb unconditional_grant grants then []
  else
    let alternatives := grant_condition <$> grants in
    let alternatives := if (1 <? len alternatives)%N then dedup (sort_unstable alternatives)
                        else alternatives in
    [grant_alternatives_check alternatives].
End policy.
Arguments PolicySnapshot : clear implicits.

#[export] Instance OrdLaws_GrantCondition : OrdLaws GrantCondition.
Proof. apply cmp_by_laws. intros [] [] [= -> ->]. done. Qed.

Section compiled.
Context {W : Type}.
Implicit Types (ctx : CheckCtx) (w : W) (g : Grant).

(** Normalizing keeps what a conjunction or a disjunction over the elements decides. *)
Lemma forallb_normalized {A} `{!Ord A} `{!OrdLaws A} (f : A -> bool) l :
  forallb f (dedup (sort_unstable l)) = forallb f l.
Proof.
  apply eq_bool_prop_intro. rewrite !Is_true_true, !forallb_forall.
  setoid_rewrite <- list_elem_of_In. by setoid_rewrite elem_of_normalized.
Qed.

Lemma existsb_normalized {A} `{!Ord A} `{!OrdLaws A} (f : A -> bool) l :
  existsb f (dedup (sort_unstable l)) = existsb f l.
Proof.
  apply eq_bool_prop_intro. rewrite !Is_true_true, !existsb_exists.
  setoid_rewrite <- list_elem_of_In. by setoid_rewrite elem_of_normalized.
Qed.

(** A grant still holds for an operation on a target that its selector matches. *)
Definition grant_holds ctx g : bool :=
  negb (is_expired (grant_expires g) (ctx_now_millis ctx)) &&
  (selector_holds (grant_selector g) (ctx_input ctx) (ctx_now_millis ctx) &&
   constraints_eval (grant_constraints g) (ctx_input ctx) (ctx_now_millis ctx)).

Lemma grant_condition_holds ctx g : condition_holds ctx (grant_condition g) = grant_holds ctx g.
Proof.
  unfold condition_holds, grant_holds, grant_condition, constraints_eval. cbn [condition_expires condition_constraints].
  f_equal. destruct (1 <? _)%N; [rewrite forallb_normalized|];
    unfold effective_grant_constraints, selector_holds; by destruct (cap_predicate _).
Qed.

Lemma unconditional_holds ctx g : unconditional_grant g = true -> grant_holds ctx g = true.
Proof.
  unfold unconditional_grant, grant_holds, selector_holds.
  rewrite !andb_true_iff, !bool_decide_eq_true. by intros [[-> ->] ->].
Qed.

(** The compiled check decides whether some grant holds, and changes nothing. *)
Lemma compiled_grants_check grants ctx w :
  exists d, snapshot_check (compile_grant_snapshot grants) ctx w = (d, w) /\
    is_allow d = existsb (grant_holds ctx) grants /\
    (d = Allow \/ d = Deny (t "no matching grant constraint is satisfied")).
Proof.
  unfold compile_grant_snapshot. destruct (existsb unconditional_grant grants) eqn:Hu.
  - exists Allow. split; [done|]. split; [|by left]. symmetry.
    apply existsb_exists in Hu as (g & Hg & Hu). apply existsb_exists. exists g.
    split; [done|]. by apply unconditional_holds.
  - assert (existsb (condition_holds ctx)
      (if (1 <? len (grant_condition <$> grants))%N then dedup (sort_unstable (grant_condition <$> grants))
       else grant_condition <$> grants) = existsb (grant_holds ctx) grants) as He.
    { transitivity (existsb (condition_holds ctx) (grant_condition <$> grants)).
      - destruct (1 <? _)%N; [apply existsb_normalized|done].
      - clear Hu. induction grants as [|g l IH]; [done|]. cbn [fmap list_fmap existsb].
        rewrite grant_condition_holds. f_equal. apply IH. }
    cbn [snapshot_check grant_alternatives_check check_evaluate]. rewrite He.
    destruct (existsb (grant_holds ctx) grants); [exists Allow|exists (Deny (t "no matching grant constraint is satisfied"))];
      by split_and!; [..|auto].
Qed.

(** A merged snapshot is checked part by part. *)
Lemma snapshot_check_app (a b : PolicySnapshot W) ctx w :
  snapshot_check (a ++ b) ctx w =
  let '(d, w') := snapshot_check a ctx w in
  if is_allow d then snapshot_check b ctx w' else (d, w').
Proof.
  revert w. induction a as [|c a IH]; intros w; simpl; [done|].
  destruct (check_evaluate c ctx w) as [d w'] eqn:Hd. destruct (is_allow d) eqn:Ha; simpl; [apply IH|].
  by rewrite Ha.
Qed.

Lemma snapshot_check_merge (a b : PolicySnapshot W) ctx w :
  snapshot_check (snapshot_merge a b) ctx w =
  let '(d, w') := snapshot_check a ctx w in
  if is_allow d then snapshot_check b ctx w' else (d, w').
Proof.
  unfold snapshot_merge. destruct a as [|c a]; [done|]. cbn [snapshot_is_empty].
  rewrite <- snapshot_check_app. destruct b as [|c' b]; [|done]. by rewrite app_nil_r.
Qed.

Lemma grant_holds_covers verb target ctx g :
  selector_matches (grant_selector g) verb target = true ->
  grant_covers g verb target (ctx_input ctx) (ctx_now_millis ctx) = grant_holds ctx g.
Proof.
  intros Hm. unfold grant_covers, grant_holds. rewrite Hm. by destruct (is_expired _ _).
Qed.
End compiled.

(** ** Properties *)

(** C40: compiling grants into residual policy is exact. For grants whose selectors match
    the target, a handle's check allows an operation exactly when some grant covers it with
    the operation's input at its time, however the grants are ordered or repeated; it only
    allows or denies, and changes no state. No check at all is left exactly when a grant is
    unconditional, and rechecking before a derivation gives the same verdict. *)
Theorem grant_compilation_exact {W : Type} (grants : list Grant) (verb : text) (target : Path)
    (ctx : CheckCtx) (w : W) :
  Forall (fun g => selector_matches (grant_selector g) verb target = true) grants ->
  let snapshot := compile_grant_snapshot (W := W) grants in
  (exists d, snapshot_check snapshot ctx w = (d, w) /\
     (d = Allow <-> existsb (fun g => grant_covers g verb target (ctx_input ctx) (ctx_now_millis ctx)) grants = true) /\
     (d = Allow \/ exists reason, d = Deny reason)) /\
  snapshot_check_derivation snapshot ctx w = snapshot_check snapshot ctx w /\
  (snapshot_is_empty snapshot = true <-> existsb unconditional_grant grants = true).
Proof.
  intros Hall. assert (existsb (fun g => grant_covers g verb target (ctx_input ctx) (ctx_now_millis ctx)) grants =
    existsb (grant_holds ctx) grants) as ->.
  { induction Hall as [|g l Hg _ IH]; simpl; [done|]. by rewrite (grant_holds_covers verb target), IH. }
  destruct (compiled_grants_check grants ctx w) as (d & Hd & Ha & Hcases).
  split_and!.
  - exists d. split; [done|]. rewrite <- Ha. split; [by destruct d|]. destruct Hcases as [->| ->]; eauto.
  - unfold snapshot_check_derivation, compile_grant_snapshot. by destruct (existsb unconditional_grant grants).
  - unfold compile_grant_snapshot. by destruct (existsb unconditional_grant grants).
Qed.

Definition dated_grant (millis : Z) (predicate : string) : Grant :=
  mkGrant 1 7 (cap_of ("read://state/memory/**" +:+ predicate))
    (mkGrantRights MethodsAll 0) [] (At millis).

Lemma grant_compilation_exact_witness :
  fst (snapshot_check (W := unit) (compile_grant_snapshot [dated_grant 10 EmptyString; dated_grant 100 "@until=60"])
    (mkCheckCtx VNull 0 50 3) tt) = Allow.
Proof.
  destruct (grant_compilation_exact (W := unit) [dated_grant 10 EmptyString; dated_grant 100 "@until=60"]
    (t "read") (path_of "state://memory/x") (mkCheckCtx VNull 0 50 3) tt) as ((d & Hd & Hiff & _) & _).
  - repeat constructor.
  - rewrite Hd. apply Hiff. vm_compute. reflexivity.
Defined.
