(* ===== verification/GrantIndex.v ===== *)
(** * Grant and name indexes of the registry

    crates/xolotl-kernel/src/registry.rs: grants by id with their three selector indexes, the
    candidates that an open considers, and the resolution of resource names. *)

From Stdlib Require Import ZArith.
From stdpp Require Import base numbers list option strings gmap.
From S2P Require Import Prelude Text Path Collection ValueList ValueMap Value Cap Grant.

Local Open Scope N_scope.

#[export] Instance Path_countable : Countable Path.
Proof.
  apply (inj_countable' (fun p => (path_cluster p, path_scheme p, path_segments p))
    (fun '(c, s, l) => mkPath c s l)). by intros [].
Defined.

(** ** Grants *)

Record GrantSelectorKey : Type := mkSelectorKey {
  key_holder : N;
  key_verb : text;
  key_path : Path
}.

#[export] Instance GrantSelectorKey_eq_dec : EqDecision GrantSelectorKey.
Proof. solve_decision. Defined.

#[export] Instance GrantSelectorKey_countable : Countable GrantSelectorKey.
Proof.
  apply (inj_countable' (fun k => (key_holder k, key_verb k, key_path k))
    (fun '(h, v, p) => mkSelectorKey h v p)). by intros [].
Defined.

(** The fields of [RegistryInner] that hold grants. *)
Record Registry : Type := mkRegistry {
  grants : gmap N Grant;
  grants_by_holder : gmap N (list N);
  exact_grants : gmap GrantSelectorKey (list N);
  wildcard_grants_by_holder : gmap N (list N)
}.

Definition empty_registry : Registry := mkRegistry ∅ ∅ ∅ ∅.

(** A segment that matches more than itself. *)
Definition wildcard_segment (segment : text) : bool :=
  bool_decide (segment = t "*") || bool_decide (segment = t "**").

Fixpoint push_segments (path : Path) (segments : list text) : option Path :=
  match segments with
  | [] => Some path
  | segment :: segments' =>
      match try_push path segment with Ok path => push_segments path segments' | Err _ => None end
  end.

(** [exact_selector_key]. *)
Definition exact_selector_key (grant : Grant) : option GrantSelectorKey :=
  let pattern := grant_selector grant in
  if bool_decide (cap_verb pattern = t "*") || bool_decide (cap_cluster pattern = Some (t "*")) ||
     bool_decide (cap_scheme pattern = t "*") || bool_decide (cap_scheme pattern = t "**") ||
     existsb wildcard_segment (cap_segments pattern)
  then None
  else
    match try_new (cap_scheme pattern) with
    | Err _ => None
    | Ok path =>
        path ← match cap_cluster pattern with
               | Some cluster => match try_with_cluster path cluster with Ok path => Some path | Err _ => None end
               | None => Some path
               end;
        path ← push_segments path (cap_segments pattern);
        Some (mkSelectorKey (grant_holder grant) (cap_verb pattern) path)
    end.

Definition target_selector_key (process : N) (verb : text) (target : Path) : GrantSelectorKey :=
  mkSelectorKey process verb target.

(** [entry(key).or_default().push(id)]. *)
Definition index_push {K} `{Countable K} (index : gmap K (list N)) (key : K) (id : N) : gmap K (list N) :=
  <[key := default [] (index !! key) ++ [id]]> index.

(** [remove_indexed_id]. *)
Definition remove_indexed_id {K} `{Countable K} (index : gmap K (list N)) (key : K) (id : N)
    : gmap K (list N) :=
  match index !! key with
  | Some ids =>
      match filter (fun candidate => candidate <> id) ids with
      | [] => delete key index
      | ids' => <[key := ids']> index
      end
  | None => index
  end.

Definition index_grant (self : Registry) (id : N) (grant : Grant) : Registry :=
  let by_holder := index_push (grants_by_holder self) (grant_holder grant) id in
  match exact_selector_key grant with
  | Some key =>
      mkRegistry (grants self) by_holder (index_push (exact_grants self) key id)
        (wildcard_grants_by_holder self)
  | None =>
      mkRegistry (grants self) by_holder (exact_grants self)
        (index_push (wildcard_grants_by_holder self) (grant_holder grant) id)
  end.

Definition unindex_grant (self : Registry) (id : N) (grant : Grant) : Registry :=
  let by_holder := remove_indexed_id (grants_by_holder self) (grant_holder grant) id in
  match exact_selector_key grant with
  | Some key =>
      mkRegistry (grants self) by_holder (remove_indexed_id (exact_grants self) key id)
        (wildcard_grants_by_holder self)
  | None =>
      mkRegistry (grants self) by_holder (exact_grants self)
        (remove_indexed_id (wildcard_grants_by_holder self) (grant_holder grant) id)
  end.

Definition with_grants (self : Registry) (m : gmap N Grant) : Registry :=
  mkRegistry m (grants_by_holder self) (exact_grants self) (wildcard_grants_by_holder self).

(** [register_grant]: register or replace. *)
Definition register_grant (self : Registry) (grant : Grant) : Registry :=
  let id := grant_id grant in
  let old := grants self !! id in
  let self := with_grants self (delete id (grants self)) in
  let self := match old with Some old => unindex_grant self id old | None => self end in
  let self := index_grant self id grant in
  with_grants self (<[id := grant]> (grants self)).

(** [grants_of]. *)
Definition grants_of (self : Registry) (process : N) : list Grant :=
  omap (fun id => grants self !! id) (default [] (grants_by_holder self !! process)).

Definition SMALL_HOLDER_GRANT_SCAN_LIMIT : N := 8.

(** The ids that [visit_candidate_grants] visits. *)
Definition candidate_ids (self : Registry) (process : N) (verb : text) (target : Path) : list N :=
  match grants_by_holder self !! process with
  | None => []
  | Some holder_ids =>
      if len holder_ids <=? SMALL_HOLDER_GRANT_SCAN_LIMIT then holder_ids
      else
        default [] (exact_grants self !! target_selector_key process verb target) ++
        default [] (wildcard_grants_by_holder self !! process)
  end.

Definition candidate_grants (self : Registry) (process : N) (verb : text) (target : Path) : list Grant :=
  omap (fun id => grants self !! id) (candidate_ids self process verb target).

(** ** The indexes are exact *)

Section index.
Context {K : Type} `{Countable K}.
Implicit Types (index : gmap K (list N)) (f : Grant -> option K) (gs : gmap N Grant).

(** The ids under a key are those of the grants with that key, once each. *)
Definition indexes index f gs : Prop :=
  forall k, NoDup (default [] (index !! k)) /\
    forall id, id ∈ default [] (index !! k) <-> exists g, gs !! id = Some g /\ f g = Some k.

Lemma lookup_index_push index key id k :
  default [] (index_push index key id !! k) =
  default [] (index !! k) ++ (if decide (key = k) then [id] else []).
Proof.
  unfold index_push. destruct (decide (key = k)) as [<-|].
  - by rewrite lookup_insert_eq.
  - by rewrite lookup_insert_ne, app_nil_r.
Qed.

Lemma lookup_remove_indexed index key id k :
  default [] (remove_indexed_id index key id !! k) =
  if decide (key = k) then filter (fun c => c <> id) (default [] (index !! k))
  else default [] (index !! k).
Proof.
  unfold remove_indexed_id. destruct (index !! key) as [ids|] eqn:Hk.
  - destruct (filter _ ids) as [|i l] eqn:Hf; (destruct (decide (key = k)) as [<-|];
      [|by rewrite ?lookup_delete_ne, ?lookup_insert_ne]); rewrite Hk; simpl; rewrite Hf.
    + by rewrite lookup_delete_eq.
    + by rewrite lookup_insert_eq.
  - destruct (decide (key = k)) as [<-|]; by rewrite ?Hk.
Qed.

Lemma indexes_insert index f gs id g :
  indexes index f gs -> gs !! id = None ->
  indexes (match f g with Some key => index_push index key id | None => index end) f (<[id := g]> gs).
Proof.
  intros Hi Hid k. destruct (Hi k) as [Hnd Hin].
  assert (id ∉ default [] (index !! k)) as Hfresh by (rewrite Hin; intros (? & ? & _); congruence).
  assert (forall i, (exists g', <[id:=g]> gs !! i = Some g' /\ f g' = Some k) <->
    (i = id /\ f g = Some k) \/ i ∈ default [] (index !! k)) as Hgs.
  { intros i. rewrite Hin. destruct (decide (i = id)) as [->|Hne].
    - rewrite lookup_insert_eq, Hid. naive_solver.
    - rewrite lookup_insert_ne by done. naive_solver. }
  setoid_rewrite Hgs. destruct (f g) as [key|]; [|naive_solver].
  rewrite lookup_index_push. destruct (decide (key = k)) as [->|Hne].
  - split.
    + apply list.NoDup_app. split_and!; [done| |apply NoDup_singleton].
      intros i Hi' ->%list_elem_of_singleton. done.
    + intros i. rewrite elem_of_app, list_elem_of_singleton. naive_solver.
  - rewrite app_nil_r. split; [done|]. naive_solver.
Qed.

Lemma indexes_delete index f gs id g :
  indexes index f gs -> gs !! id = Some g ->
  indexes (match f g with Some key => remove_indexed_id index key id | None => index end) f (delete id gs).
Proof.
  intros Hi Hid k. destruct (Hi k) as [Hnd Hin].
  assert (forall i, (exists g', delete id gs !! i = Some g' /\ f g' = Some k) <->
    i <> id /\ i ∈ default [] (index !! k)) as Hgs.
  { intros i. rewrite Hin. destruct (decide (i = id)) as [->|Hne].
    - rewrite lookup_delete_eq. naive_solver.
    - rewrite lookup_delete_ne by done. naive_solver. }
  setoid_rewrite Hgs. assert (f g <> Some k -> id ∉ default [] (index !! k)) as Hout.
  { intros Hf. rewrite Hin. intros (g' & ? & ?). congruence. }
  destruct (f g) as [key|].
  - rewrite lookup_remove_indexed. destruct (decide (key = k)) as [->|Hne].
    + split; [by apply NoDup_filter|]. intros i. by rewrite list_elem_of_filter.
    + split; [done|]. intros i. split; [|by intros [_ ?]]. intros Hi'. split; [|done].
      intros ->. apply Hout; [congruence|done].
  - split; [done|]. intros i. split; [|by intros [_ ?]]. intros Hi'. split; [|done].
    intros ->. by apply Hout.
Qed.
End index.

Definition wildcard_holder (g : Grant) : option N :=
  match exact_selector_key g with Some _ => None | None => Some (grant_holder g) end.

Record registry_ok (r : Registry) : Prop := {
  ok_ids : forall id g, grants r !! id = Some g -> grant_id g = id;
  ok_holders : indexes (grants_by_holder r) (fun g => Some (grant_holder g)) (grants r);
  ok_exact : indexes (exact_grants r) exact_selector_key (grants r);
  ok_wildcard : indexes (wildcard_grants_by_holder r) wildcard_holder (grants r)
}.

Lemma empty_registry_ok : registry_ok empty_registry.
Proof.
  assert (forall K `{Countable K} (f : Grant -> option K), indexes (∅ : gmap K (list N)) f ∅) as Hi.
  { intros K ? ? f k. rewrite lookup_empty. split; [apply NoDup_nil_2|]. intros id.
    split; [by intros ?%not_elem_of_nil|]. intros (g & Hg & _). by rewrite lookup_empty in Hg. }
  by split.
Qed.

(** Each of the three indexes follows the grants: when an old grant goes, and when one comes. *)
Ltac unindexed r1 r id Hi :=
  let Hd := fresh in let Ho := fresh in
  subst r1; destruct (grants r !! id) eqn:Ho; [|by rewrite delete_id];
  pose proof (indexes_delete _ _ _ _ _ Hi Ho) as Hd; unfold unindex_grant, wildcard_holder in *;
  by destruct (exact_selector_key _).

Ltac indexed g Hi Hfree :=
  let Hd := fresh in
  pose proof (indexes_insert _ _ _ _ g Hi Hfree) as Hd; unfold index_grant, wildcard_holder in *;
  by destruct (exact_selector_key g).

Lemma register_grant_ok r g : registry_ok r -> registry_ok (register_grant r g).
Proof.
  intros [Hids Hh He Hw]. set (id := grant_id g). unfold register_grant. fold id.
  set (r1 := match grants r !! id with
             | Some old => unindex_grant (with_grants r (delete id (grants r))) id old
             | None => with_grants r (delete id (grants r)) end).
  assert (grants r1 = delete id (grants r)) as Hg1.
  { subst r1. destruct (grants r !! id); [|done]. unfold unindex_grant. by destruct (exact_selector_key _). }
  assert (registry_ok r1) as [_ Hh1 He1 Hw1].
  { split; rewrite ?Hg1.
    - intros i g' Hg'. apply lookup_delete_Some in Hg' as [_ Hg']. by apply Hids.
    - unindexed r1 r id Hh.
    - unindexed r1 r id He.
    - unindexed r1 r id Hw. }
  assert (grants r1 !! id = None) as Hfree by by rewrite Hg1, lookup_delete_eq.
  assert (grants (index_grant r1 id g) = grants r1) as Hg2
    by (unfold index_grant; by destruct (exact_selector_key g)).
  split; cbn [with_grants grants]; rewrite Hg2.
  - intros i g' Hg'. apply lookup_insert_Some in Hg' as [[<- <-]|[Hne Hg']]; [done|].
    rewrite Hg1 in Hg'. apply lookup_delete_Some in Hg' as [_ Hg']. by apply Hids.
  - indexed g Hh1 Hfree.
  - indexed g He1 Hfree.
  - indexed g Hw1 Hfree.
Qed.

(** Registries built by registration. *)
Definition registry_of (gs : list Grant) : Registry := fold_left register_grant gs empty_registry.

Lemma registry_of_ok gs : registry_ok (registry_of gs).
Proof.
  unfold registry_of. generalize empty_registry_ok. generalize empty_registry.
  induction gs as [|g gs IH]; intros r Hr; simpl; [done|]. by apply IH, register_grant_ok.
Qed.

(** ** Exact selectors match their own path only *)

Lemma match_exact pat seg :
  existsb wildcard_segment pat = false -> match_segments pat seg = true -> pat = seg.
Proof.
  intros Hw Hm. unfold match_segments in Hm.
  apply (match_segment_tokens_matches segment_covers) in Hm.
  induction Hm as [|pat seg Hm IH|pat s seg Hm IH|p pat s seg Hp Hc Hm IH]; [done|by vm_compute in Hw..|].
  - cbn [existsb] in Hw. apply orb_false_iff in Hw as [Hp' Hw]. rewrite IH by done. f_equal.
    unfold segment_covers in Hc. unfold wildcard_segment in Hp'. apply orb_false_iff in Hp' as [Hp' _].
    rewrite Hp' in Hc. by apply bool_decide_eq_true in Hc.
Qed.

Lemma push_segments_path path segments path' :
  push_segments path segments = Some path' ->
  path' = mkPath (path_cluster path) (path_scheme path) (path_segments path ++ segments).
Proof.
  revert path. induction segments as [|s l IH]; intros path; simpl.
  - intros [= <-]. rewrite app_nil_r. by destruct path.
  - unfold try_push. destruct (validate_segment s) as [[]|]; simpl; [|done].
    intros ->%IH. simpl. by rewrite <- app_assoc.
Qed.

Lemma try_new_path scheme path : try_new scheme = Ok path -> path = mkPath None scheme [].
Proof.
  unfold try_new. destruct scheme as [|c s]; [done|].
  destruct (negb _); [done|]. destruct (contains _ _); [done|]. destruct (negb _); [done|].
  case_decide; [done|]. by intros [= <-].
Qed.

Lemma exact_selector_key_path g k :
  exact_selector_key g = Some k ->
  k = mkSelectorKey (grant_holder g) (cap_verb (grant_selector g))
        (mkPath (cap_cluster (grant_selector g)) (cap_scheme (grant_selector g)) (cap_segments (grant_selector g))).
Proof.
  unfold exact_selector_key. destruct (_ || existsb _ _); [done|].
  destruct (try_new _) as [path|] eqn:Hn; [|done]. apply try_new_path in Hn as ->.
  destruct (cap_cluster _) as [c|]; simpl.
  - unfold try_with_cluster. destruct (validate_cluster_ident c) as [[]|]; simpl; [|done].
    destruct (push_segments _ _) as [path|] eqn:Hp; simpl; [|done].
    apply push_segments_path in Hp as ->. by intros [= <-].
  - destruct (push_segments _ _) as [path|] eqn:Hp; simpl; [|done].
    apply push_segments_path in Hp as ->. by intros [= <-].
Qed.

Lemma exact_selector_not_wild g k :
  exact_selector_key g = Some k ->
  cap_verb (grant_selector g) <> t "*" /\ cap_cluster (grant_selector g) <> Some (t "*") /\
  is_wildcard_scheme (cap_scheme (grant_selector g)) = false /\
  existsb wildcard_segment (cap_segments (grant_selector g)) = false.
Proof.
  unfold exact_selector_key, is_wildcard_scheme.
  destruct (_ || existsb _ _) eqn:Hw; [done|]. intros _. revert Hw.
  rewrite !orb_false_iff, !bool_decide_eq_false. naive_solver.
Qed.

(** An exact grant that matches an operation is filed under its key. *)
Lemma exact_selector_matches g k verb target :
  exact_selector_key g = Some k -> selector_matches (grant_selector g) verb target = true ->
  k = target_selector_key (grant_holder g) verb target.
Proof.
  intros Hk Hm. destruct (exact_selector_not_wild g k Hk) as (Hv & Hc & Hs & Hw).
  apply exact_selector_key_path in Hk as ->. revert Hm.
  unfold selector_matches, matches_structure, covers_path, cluster_covers_path, verb_covers, scheme_covers.
  rewrite Hs. rewrite (bool_decide_false (cap_verb _ = t "*")) by done. cbn [orb].
  rewrite !andb_true_iff, orb_true_iff, !bool_decide_eq_true.
  intros (_ & ((Hcl & <-) & Hsch) & Hseg). apply match_exact in Hseg; [|done].
  unfold target_selector_key. f_equal. destruct target as [cl sch seg]. simpl in *. subst. f_equal.
  destruct Hcl as [Hroot|Hcl].
  - unfold is_global_root in Hroot. rewrite !andb_true_iff, !bool_decide_eq_true in Hroot. naive_solver.
  - destruct (cap_cluster _) as [c|] eqn:Hcc, cl as [c'|]; simpl in Hcl; try done.
    apply orb_true_iff in Hcl as [Hcl|Hcl]; apply bool_decide_eq_true in Hcl; congruence.
Qed.

Lemma candidate_ids_spec r process verb target id :
  registry_ok r ->
  id ∈ candidate_ids r process verb target ->
  exists g, grants r !! id = Some g /\ grant_holder g = process.
Proof.
  intros [_ Hh He Hw]. unfold candidate_ids.
  destruct (grants_by_holder r !! process) as [ids|] eqn:Hids; [|by intros ?%not_elem_of_nil].
  destruct (_ <=? _).
  - intros Hin. destruct (Hh process) as [_ Hk]. rewrite Hids in Hk. simpl in Hk.
    apply Hk in Hin as (g & Hg & [= Hholder]). by exists g.
  - rewrite elem_of_app. intros [Hin|Hin].
    + apply He in Hin as (g & Hg & Hkey). exists g. split; [done|].
      by apply exact_selector_key_path in Hkey as [= -> _ _].
    + apply Hw in Hin as (g & Hg & Hkey). exists g. split; [done|]. unfold wildcard_holder in Hkey.
      destruct (exact_selector_key g); by simplify_eq.
Qed.

Lemma candidate_ids_complete r process verb target id g :
  registry_ok r -> grants r !! id = Some g -> grant_holder g = process ->
  selector_matches (grant_selector g) verb target = true ->
  id ∈ candidate_ids r process verb target.
Proof.
  intros [_ Hh He Hw] Hg Hholder Hm. unfold candidate_ids.
  assert (id ∈ default [] (grants_by_holder r !! process)) as Hin.
  { apply Hh. exists g. by rewrite Hholder. }
  destruct (grants_by_holder r !! process) as [ids|]; [|done]. destruct (_ <=? _); [done|].
  apply elem_of_app. destruct (exact_selector_key g) as [k|] eqn:Hk.
  - left. rewrite <- Hholder, <- (exact_selector_matches g k verb target Hk Hm). apply He. eauto.
  - right. apply Hw. exists g. split; [done|]. unfold wildcard_holder. rewrite Hk. congruence.
Qed.

Lemma candidate_ids_NoDup r process verb target : registry_ok r -> NoDup (candidate_ids r process verb target).
Proof.
  intros [_ Hh He Hw]. unfold candidate_ids. destruct (Hh process) as [Hnd _].
  destruct (grants_by_holder r !! process) as [ids|]; [|apply NoDup_nil_2]. destruct (_ <=? _); [done|].
  apply list.NoDup_app. split_and!; [apply He| |apply Hw].
  intros id (g & Hg & Hk)%He (g' & Hg' & Hk')%Hw. unfold wildcard_holder in Hk'.
  simplify_eq. by rewrite Hk in Hk'.
Qed.

Lemma elem_of_candidates r process verb target g :
  g ∈ candidate_grants r process verb target <->
  exists id, id ∈ candidate_ids r process verb target /\ grants r !! id = Some g.
Proof. unfold candidate_grants. by rewrite list_elem_of_omap. Qed.

(** The grant registered last under an id is the one kept. *)
Lemma registry_of_last gs id :
  grants (registry_of gs) !! id = list.last (filter (fun g => grant_id g = id) gs).
Proof.
  assert (forall r g, grants (register_grant r g) = <[grant_id g := g]> (delete (grant_id g) (grants r))) as Hreg.
  { intros r g. unfold register_grant, index_grant, unindex_grant.
    destruct (grants r !! grant_id g) as [old|]; [destruct (exact_selector_key old)|];
      by destruct (exact_selector_key g). }
  unfold registry_of. induction gs as [|g gs IH] using rev_ind; [done|].
  rewrite fold_left_app, filter_app. cbn [fold_left]. rewrite Hreg, filter_cons, filter_nil.
  destruct (decide (grant_id g = id)) as [<-|Hne].
  - by rewrite lookup_insert_eq, last_snoc.
  - by rewrite lookup_insert_ne, lookup_delete_ne, app_nil_r by done.
Qed.

(** ** Resource names *)

Inductive ResourceAddressing : Type := ExactAddressing | PrefixAddressing.

(** The names of the registry, and how the resources they name are addressed. *)
Record Names : Type := mkNames { names : gmap Path N; addressing : gmap N ResourceAddressing }.

(** A registered collection. *)
Definition collection_at (self : Names) (path : Path) : option N :=
  match names self !! path with
  | Some id => match addressing self !! id with Some PrefixAddressing => Some id | _ => None end
  | None => None
  end.

(** The [while] loop of [resolve_resource]: a turn per segment. *)
Fixpoint resolve_ancestors (turns : nat) (self : Names) (ancestor : Path) : option N :=
  match turns with
  | O => None
  | S turns =>
      match pop_segment ancestor with
      | (false, _) => None
      | (true, ancestor) =>
          match collection_at self ancestor with
          | Some id => Some id
          | None => resolve_ancestors turns self ancestor
          end
      end
  end.

(** [resolve_resource]; [None] is [ResolveError::NoSuchResource]. *)
Definition resolve_resource (self : Names) (target : Path) : option N :=
  match names self !! target with
  | Some id => Some id
  | None => resolve_ancestors (length (path_segments target)) self target
  end.

Definition ancestor_at (target : Path) (k : nat) : Path :=
  mkPath (path_cluster target) (path_scheme target) (take k (path_segments target)).

Lemma pop_segment_ancestor target k :
  (S k <= length (path_segments target))%nat ->
  pop_segment (ancestor_at target (S k)) = (true, ancestor_at target k).
Proof.
  intros Hk. unfold pop_segment, ancestor_at. cbn [path_segments path_cluster path_scheme].
  destruct (lookup_lt_is_Some_2 (path_segments target) k ltac:(lia)) as [s Hs].
  rewrite (take_S_r _ _ _ Hs), reverse_app. simpl. by rewrite reverse_involutive.
Qed.

(** The loop finds the nearest proper ancestor that is a collection. *)
Lemma resolve_ancestors_nearest self target k id :
  (k <= length (path_segments target))%nat ->
  resolve_ancestors k self (ancestor_at target k) = Some id <->
  exists j, (j < k)%nat /\ collection_at self (ancestor_at target j) = Some id /\
    forall i, (j < i < k)%nat -> collection_at self (ancestor_at target i) = None.
Proof.
  induction k as [|k IH]; intros Hk; simpl; [split; [done|intros (j & ? & _); lia]|].
  rewrite pop_segment_ancestor by done. destruct (collection_at self (ancestor_at target k)) as [id'|] eqn:Hc.
  - split.
    + intros [= <-]. exists k. split_and!; [lia|done|lia].
    + intros (j & Hj & Hjc & Hnone). destruct (decide (j = k)) as [->|]; [congruence|].
      rewrite Hnone in Hc; [done|lia].
  - rewrite IH by lia. split; intros (j & Hj & Hjc & Hnone).
    + exists j. split_and!; [lia|done|]. intros i Hi. destruct (decide (i = k)) as [->|]; [done|].
      apply Hnone. lia.
    + destruct (decide (j = k)) as [->|]; [congruence|]. exists j. split_and!; [lia|done|].
      intros i Hi. apply Hnone. lia.
Qed.

(** ** Properties *)

(** C13: the selector indexes lose nothing. Whatever grants are registered and replaced, the
    candidates an open considers for an operation are grants that the process holds, each at
    most once, and include every grant of the process that matches; the grant under an id is
    the one registered last. *)
Theorem candidate_grants_exact (gs : list Grant) (process : N) (verb : text) (target : Path) :
  let r := registry_of gs in
  (forall g, g ∈ candidate_grants r process verb target ->
     grants r !! grant_id g = Some g /\ grant_holder g = process) /\
  (forall id g, grants r !! id = Some g -> grant_holder g = process ->
     selector_matches (grant_selector g) verb target = true ->
     g ∈ candidate_grants r process verb target) /\
  NoDup (candidate_ids r process verb target) /\
  (forall id, grants r !! id = list.last (filter (fun g => grant_id g = id) gs)).
Proof.
  pose proof (registry_of_ok gs) as Hok. intros r. split_and!.
  - intros g (id & Hid & Hg)%elem_of_candidates.
    destruct (candidate_ids_spec r process verb target id Hok Hid) as (g' & Hg' & Hholder).
    simplify_eq. by rewrite (ok_ids _ Hok id g Hg).
  - intros id g Hg Hholder Hm. apply elem_of_candidates. exists id. split; [|done].
    by eapply candidate_ids_complete.
  - by apply candidate_ids_NoDup.
  - intros id. apply registry_of_last.
Qed.

(** A name resolves to its own registration, and otherwise to the nearest ancestor registered
    as a collection. *)
Theorem resolve_resource_nearest (self : Names) (target : Path) (id : N) :
  resolve_resource self target = Some id <->
  names self !! target = Some id \/
  names self !! target = None /\
  exists j, (j < length (path_segments target))%nat /\
    collection_at self (ancestor_at target j) = Some id /\
    forall i, (j < i < length (path_segments target))%nat -> collection_at self (ancestor_at target i) = None.
Proof.
  unfold resolve_resource. destruct (names self !! target) as [id'|]; [naive_solver|].
  replace target with (ancestor_at target (length (path_segments target))) at 2
    by (unfold ancestor_at; rewrite firstn_all; by destruct target).
  rewrite resolve_ancestors_nearest by done. naive_solver.
Qed.
