(* ===== verification/KernelHandles.v ===== *)
(** * The kernel's handle table

    crates/xolotl-kernel/src/handle.rs: the table of compiled capabilities, over the slot
    rules of Authority.v. It grows on demand, reuses slots through a free list, keeps an index
    of the slots of each owner for process cleanup, and hands the payloads it retires to the
    caller, who drops them after unlocking. Allocation failures, which the code reports as
    [Capacity], are not modelled. *)

From stdpp Require Import base numbers list option relations gmap.
From S2P Require Import Prelude Authority Grant.

Local Open Scope N_scope.
Local Open Scope comp_scope.

(** ** Data *)

(** [Handle]: its id, owner and rights; [P] stands for the acting identity, verb, resource,
    driver plan, policy and path, which the table only copies. *)
Record KHandle (P : Type) : Type := mkKHandle {
  handle_id : HandleKey;
  handle_process : N;
  handle_rights : Rights;
  handle_payload : P
}.
Arguments mkKHandle {P} _ _ _ _.
Arguments handle_id {P} _.
Arguments handle_process {P} _.
Arguments handle_rights {P} _.
Arguments handle_payload {P} _.

Record Slot (P : Type) : Type := mkKSlot {
  slot_authority : HandleSlot;
  slot_owner : N;
  slot_owner_position : N;
  slot_handle : option (KHandle P)
}.
Arguments mkKSlot {P} _ _ _ _.
Arguments slot_authority {P} _.
Arguments slot_owner {P} _.
Arguments slot_owner_position {P} _.
Arguments slot_handle {P} _.

Inductive OwnerSlots : Type :=
| One (index : N)
| Many (indices : list N).

(** [Slots], with the retired payloads of the transaction around it. *)
Record Slots (P : Type) : Type := mkSlots {
  table_slots : list (Slot P);
  table_free : list N;
  table_by_owner : gmap N OwnerSlots;
  table_limit : option N;
  table_retired : list (KHandle P)
}.
Arguments mkSlots {P} _ _ _ _ _.
Arguments table_slots {P} _.
Arguments table_free {P} _.
Arguments table_by_owner {P} _.
Arguments table_limit {P} _.
Arguments table_retired {P} _.

(** ** The owner index *)

(** The slots of an owner. *)
Definition owner_indices (self : OwnerSlots) : list N :=
  match self with One index => [index] | Many indices => indices end.

Definition owner_len (self : OwnerSlots) : N :=
  match self with One _ => 1 | Many indices => len indices end.

(** [OwnerSlots::first]; [Many] indexes its vector. *)
Definition owner_first (self : OwnerSlots) : option N :=
  match self with One index => Some index | Many indices => get indices 0 end.

Definition owner_at (self : OwnerSlots) (position : N) : option N :=
  match self with
  | One index => if position =? 0 then Some index else None
  | Many indices => get indices position
  end.

(** [Vec::swap_remove], for a position in range. *)
Definition swap_remove (l : list N) (position : N) : list N :=
  let l' := take (length l - 1) l in
  match list.last l with
  | Some x => if position =? len l - 1 then l' else upd l' position x
  | None => []
  end.

(** [OwnerSlots::remove]: the index after it, the slot that moved with its new position, and
    whether no slot is left. *)
Definition owner_remove {S X} (self : OwnerSlots) (index position : N)
    : comp S X (OwnerSlots * option (N * N) * bool) :=
  match self with
  | One only =>
      if (only =? index) && (position =? 0) then ret (self, None, true) else halt AssertionFailed
  | Many indices =>
      let* found := expect (get indices position) OutOfBounds in
      if negb (found =? index) then halt AssertionFailed
      else
        let indices := swap_remove indices position in
        match indices with
        | [single] => ret (One single, Some (single, 0), false)
        | _ =>
            ret (Many indices, (fun moved => (moved, position)) <$> get indices position,
                 match indices with [] => true | _ => false end)
        end
  end.

(** ** Operations *)

Section table.
Context {P : Type}.

Definition with_table_slots (self : Slots P) (slots : list (Slot P)) : Slots P :=
  mkSlots slots (table_free self) (table_by_owner self) (table_limit self) (table_retired self).
Definition with_free (self : Slots P) (free : list N) : Slots P :=
  mkSlots (table_slots self) free (table_by_owner self) (table_limit self) (table_retired self).
Definition with_by_owner (self : Slots P) (by_owner : gmap N OwnerSlots) : Slots P :=
  mkSlots (table_slots self) (table_free self) by_owner (table_limit self) (table_retired self).
Definition with_retired (self : Slots P) (retired : list (KHandle P)) : Slots P :=
  mkSlots (table_slots self) (table_free self) (table_by_owner self) (table_limit self) retired.

Definition with_authority (self : Slot P) (a : HandleSlot) : Slot P :=
  mkKSlot a (slot_owner self) (slot_owner_position self) (slot_handle self).
Definition with_owner_position (self : Slot P) (position : N) : Slot P :=
  mkKSlot (slot_authority self) (slot_owner self) position (slot_handle self).
Definition without_handle (self : Slot P) : Slot P :=
  mkKSlot (slot_authority self) (slot_owner self) (slot_owner_position self) None.

Definition handles_new : Slots P := mkSlots [] [] ∅ None [].
Definition handles_with_slot_limit (limit : N) : Slots P := mkSlots [] [] ∅ (Some limit) [].

Definition slot_at {X} (index : N) : comp (Slots P) X (Slot P) :=
  let* k := gets id in expect (get (table_slots k) index) OutOfBounds.
Definition put_slot {X} (index : N) (s : Slot P) : comp (Slots P) X unit :=
  modify (fun k => with_table_slots k (upd (table_slots k) index s)).

(** [retired.extend(handle)]. *)
Definition retire {X} (h : option (KHandle P)) : comp (Slots P) X unit :=
  modify (fun k => with_retired k (table_retired k ++ option_list h)).

(** The slot index an insertion takes, and whether it is a vacant one. *)
Definition choose_slot : comp (Slots P) AuthorityError (N * bool) :=
  let* k := gets id in
  match list.last (table_free k) with
  | Some index => ret (index, true)
  | None =>
      if match table_limit k with Some limit => limit <=? len (table_slots k) | None => false end
      then throw Capacity
      else
        let* index := require (u32_try_from (len (table_slots k))) Capacity in
        ret (index, false)
  end.

(** The owner's slots after an insertion, and the position in them. *)
Definition owner_insert (entry : option OwnerSlots) (index : N) : OwnerSlots * N :=
  match entry with
  | None => (One index, 0)
  | Some (One first) => (Many [first; index], 1)
  | Some (Many indices) => (Many (indices ++ [index]), len indices)
  end.

(** [Slots::insert_with_parent]; on an error the caller keeps the payload. *)
Definition handles_insert_with_parent (h : KHandle P) (parent : option HandleKey)
    : comp (Slots P) AuthorityError HandleKey :=
  let* (index, vacant) := choose_slot in
  let* authority := if vacant : bool then let* s := slot_at index in ret (slot_authority s)
                    else ret (Authority.vacant 0) in
  let* (generation, authority) := lift_result (slot_install authority parent) in
  let* k := gets id in
  let owner := handle_process h in
  let '(entry, position) := owner_insert (table_by_owner k !! owner) index in
  let* position := require (u32_try_from position) Capacity in
  match parent with
  | Some parent =>
      let* p := slot_at (key_slot parent) in
      let* a := lift_result (attach_child (slot_authority p) (key_generation parent)) in
      put_slot (key_slot parent) (with_authority p a)
  | None => ret tt
  end ;;;
  let key := mkKey index generation in
  let h := mkKHandle key (handle_process h) (handle_rights h) (handle_payload h) in
  modify (fun k => with_by_owner k (<[owner := entry]> (table_by_owner k))) ;;;
  let slot := mkKSlot authority owner position (Some h) in
  (if vacant : bool then
     modify (fun k => with_free k (take (length (table_free k) - 1) (table_free k))) ;;;
     put_slot index slot
   else modify (fun k => with_table_slots k (table_slots k ++ [slot]))) ;;;
  ret key.

(** [HandleWrite::insert] and [derive] retire the payload of a refused insertion. *)
Definition insert_or_retire (h : KHandle P) (parent : option HandleKey)
    : comp (Slots P) AuthorityError HandleKey :=
  let* result := attempt (handles_insert_with_parent h parent) in
  match result with
  | Ok key => ret key
  | Err e => retire (Some h) ;;; throw e
  end.

Definition handles_insert (h : KHandle P) : comp (Slots P) AuthorityError HandleKey :=
  insert_or_retire h None.

(** [Slots::validate] and [Slots::get]. *)
Definition handles_lookup (k : Slots P) (key : HandleKey) : option HandleSlot :=
  slot_authority <$> get (table_slots k) (key_slot key).

Definition handles_validate (k : Slots P) (key : HandleKey) : Result unit AuthorityError :=
  match get (table_slots k) (key_slot key) with
  | None => Err Stale
  | Some s => slot_validate (slot_authority s) (key_generation key) (len (table_slots k)) (handles_lookup k)
  end.

Definition handles_get (k : Slots P) (key : HandleKey) : option (KHandle P) :=
  match handles_validate k key with
  | Err _ => None
  | Ok _ => s ← get (table_slots k) (key_slot key); slot_handle s
  end.

(** [HandleWrite::derive]. *)
Definition handles_derive (parent : HandleKey) (rights : Rights) (kind : DeriveKind) (owner : N)
    : comp (Slots P) AuthorityError HandleKey :=
  let* k := gets id in
  let* source := require (handles_get k parent) Stale in
  if negb (rights_subset rights (handle_rights source)) || negb (allows_derive (handle_rights source) kind)
  then throw Authority.Rights
  else
    insert_or_retire (mkKHandle (handle_id source) owner rights (handle_payload source)) (Some parent).

(** [Slots::remove_owner_index]. *)
Definition remove_owner_index {X} (index : N) : comp (Slots P) X unit :=
  let* slot := slot_at index in
  let owner := slot_owner slot in
  let* k := gets id in
  match table_by_owner k !! owner with
  | None => ret tt
  | Some indices =>
      let* (indices, moved, empty) := owner_remove indices index (slot_owner_position slot) in
      modify (fun k => with_by_owner k (<[owner := indices]> (table_by_owner k))) ;;;
      match moved with
      | Some (moved, position) =>
          let* s := slot_at moved in put_slot moved (with_owner_position s position)
      | None => ret tt
      end ;;;
      if empty : bool then modify (fun k => with_by_owner k (delete owner (table_by_owner k))) else ret tt
  end.

(** [Slots::reclaim_ancestors]; every turn vacates a slot. *)
Fixpoint handles_reclaim {X} (fuel : nat) (index : N) (change : HandleSlotChange) : comp (Slots P) X unit :=
  match change with
  | Reclaimed parent =>
      match fuel with
      | O => halt Unbounded
      | S fuel =>
          let* slot := slot_at index in
          retire (slot_handle slot) ;;;
          put_slot index (without_handle slot) ;;;
          let free := reusable (slot_authority slot) in
          remove_owner_index index ;;;
          (if free : bool then modify (fun k => with_free k (table_free k ++ [index])) else ret tt) ;;;
          match parent with
          | None => ret tt
          | Some parent =>
              let* k := gets id in
              match get (table_slots k) (key_slot parent) with
              | None => ret tt
              | Some slot =>
                  let* (change, a) := expect (detach_child (slot_authority slot) (key_generation parent)) Overflow in
                  put_slot (key_slot parent) (with_authority slot a) ;;;
                  handles_reclaim fuel (key_slot parent) change
              end
          end
      end
  | _ => ret tt
  end.

(** Giving up a handle by a rule of its slot: [Slots::release] and [Slots::revoke]. *)
Definition relinquish {X} (rule : HandleSlot -> N -> HandleSlotChange * HandleSlot) (key : HandleKey)
    : comp (Slots P) X bool :=
  let* k := gets id in
  match get (table_slots k) (key_slot key) with
  | None => ret false
  | Some slot =>
      let '(change, a) := rule (slot_authority slot) (key_generation key) in
      put_slot (key_slot key) (with_authority slot a) ;;;
      match change with
      | Unchanged => ret false
      | _ =>
          let* slot := slot_at (key_slot key) in
          retire (slot_handle slot) ;;;
          put_slot (key_slot key) (without_handle slot) ;;;
          handles_reclaim (S (length (table_slots k))) (key_slot key) change ;;;
          ret true
      end
  end.

Definition handles_release {X} (key : HandleKey) : comp (Slots P) X bool := relinquish slot_release key.
Definition handles_revoke {X} (key : HandleKey) : comp (Slots P) X bool := relinquish slot_revoke key.

(** [Slots::len]: retained payloads. *)
Definition handles_len (k : Slots P) : N :=
  len (filter (fun s => is_Some (slot_handle s)) (table_slots k)).

(** [Slots::revoke_owned_by]: always the first slot of the owner. *)
Fixpoint revoke_owned_loop {X} (fuel : nat) (process count : N) : comp (Slots P) X N :=
  match fuel with
  | O => halt Unbounded
  | S fuel =>
      let* k := gets id in
      match table_by_owner k !! process with
      | None => ret count
      | Some indices =>
          let* index := expect (owner_first indices) OutOfBounds in
          let* slot := slot_at index in
          let* revoked := handles_revoke (mkKey index (slot_generation (slot_authority slot))) in
          if revoked : bool then revoke_owned_loop fuel process (count + 1) else ret count
      end
  end.

Definition revoke_owned_by {X} (process : N) : comp (Slots P) X N :=
  let* k := gets id in revoke_owned_loop (S (length (table_slots k))) process 0.

(** [Slots::release_owned_by]: backwards through the slots of the owner, which shrink. *)
Fixpoint release_owned_loop {X} (fuel : nat) (process remaining count : N) : comp (Slots P) X N :=
  match fuel with
  | O => halt Unbounded
  | S fuel =>
      let* k := gets id in
      match table_by_owner k !! process with
      | None => ret count
      | Some indices =>
          match checked_sub (N.min remaining (owner_len indices)) 1 with
          | None => ret count
          | Some position =>
              match owner_at indices position with
              | None => ret count
              | Some index =>
                  let* slot := slot_at index in
                  let* released := handles_release (mkKey index (slot_generation (slot_authority slot))) in
                  release_owned_loop fuel process position (count + if released : bool then 1 else 0)
              end
          end
      end
  end.

Definition release_owned_by {X} (process : N) : comp (Slots P) X N :=
  let* k := gets id in
  let remaining := match table_by_owner k !! process with Some indices => owner_len indices | None => 0 end in
  release_owned_loop (S (N.to_nat remaining)) process remaining 0.
End table.
