(* ===== verification/KernelTable.v ===== *)
(** * Invariant of the kernel's handle table

    The slots of KernelHandles.v are a table of Authority.v with payloads; the free list, the
    owner index and the payloads follow the slots' authority. The operations keep this, never
    stop, lose no payload, and only give up what they are asked to. *)

From stdpp Require Import base numbers list option relations gmap.
From S2P Require Import Prelude Authority Grant KernelHandles.

Local Open Scope N_scope.
Local Open Scope comp_scope.

Section table.
Context {P : Type}.
Implicit Types (k : Slots P) (s : Slot P) (i : N).

(** ** The authority of a table *)

Definition core_handle s : Handle := mkHandle (slot_owner s) 0 0 (slot_authority s).
Definition core k : HandleTable := core_handle <$> table_slots k.

Definition slive s : Prop := slot_state (slot_authority s) <> Vacant.
Definition sactive s : Prop := slot_state (slot_authority s) = Active.

#[export] Instance slive_dec s : Decision (slive s).
Proof. unfold slive. apply _. Defined.
#[export] Instance sactive_dec s : Decision (sactive s).
Proof. unfold sactive. apply _. Defined.

Lemma get_core k i : get (core k) i = core_handle <$> get (table_slots k) i.
Proof. unfold core. by rewrite !get_lookup, list_lookup_fmap. Qed.

Lemma get_core_Some k i s : get (table_slots k) i = Some s -> get (core k) i = Some (core_handle s).
Proof. intros Hi. by rewrite get_core, Hi. Qed.

Lemma len_core k : len (core k) = len (table_slots k).
Proof. unfold core, len. by rewrite length_fmap. Qed.

(** ** The owner index *)

Definition owner_list k (o : N) : list N :=
  match table_by_owner k !! o with Some e => owner_indices e | None => [] end.

(** A slot is filed for its owner while it is live, or until it has been removed. *)
Definition filed (pending : option N) k (o position i : N) : Prop :=
  exists s, get (table_slots k) i = Some s /\ (slive s \/ pending = Some i) /\
    slot_owner s = o /\ slot_owner_position s = position.

(** The invariant, where slot [pf] is not in the free list yet, [pi] still in the owner index,
    and one reference to [debt] has been dropped. *)
Record kinv_at (pf pi : option N) (debt : option HandleKey) k : Prop := {
  ki_core : inv_at debt (core k);
  ki_payload : forall i s, get (table_slots k) i = Some s -> is_Some (slot_handle s) <-> sactive s;
  ki_handle : forall i s h, get (table_slots k) i = Some s -> slot_handle s = Some h ->
    handle_id h = mkKey i (slot_generation (slot_authority s)) /\ handle_process h = slot_owner s;
  ki_free : NoDup (table_free k) /\ forall i, i ∈ table_free k <->
    exists s, get (table_slots k) i = Some s /\ reusable (slot_authority s) = true /\ pf <> Some i;
  ki_index : forall o position i, get (owner_list k o) position = Some i <-> filed pi k o position i;
  ki_entry : forall o l, table_by_owner k !! o = Some (Many l) -> 2 <= len l;
  ki_size : len (table_slots k) <= u32_max + 1
}.

Definition kinv k : Prop := kinv_at None None None k.

(** ** Removing a position *)

Lemma len_swap_remove l position :
  position < len l -> len (swap_remove l position) = len l - 1.
Proof.
  intros Hp. unfold swap_remove. destruct (list.last l) as [x|] eqn:Hl.
  - assert (len (take (length l - 1) l) = len l - 1) as Ht.
    { unfold len. rewrite length_take. unfold len in Hp. lia. }
    destruct (_ =? _); by rewrite ?len_upd.
  - apply last_None in Hl as ->. done.
Qed.

Lemma get_swap_remove l position q :
  position < len l ->
  get (swap_remove l position) q =
  if q <? len l - 1 then (if q =? position then get l (len l - 1) else get l q) else None.
Proof.
  intros Hp. destruct (N.ltb_spec q (len l - 1)) as [Hq|Hq].
  2: { apply get_None. by rewrite len_swap_remove. }
  assert (get (take (length l - 1) l) q = get l q) as Ht.
  { rewrite !get_lookup, lookup_take_lt; [done|]. unfold len in *. lia. }
  assert (list.last l = get l (len l - 1)) as Hlast.
  { rewrite get_lookup, last_lookup. f_equal. unfold len. lia. }
  unfold swap_remove. rewrite Hlast.
  destruct (get l (len l - 1)) as [x|] eqn:Hx.
  2: { apply get_None in Hx. lia. }
  destruct (N.eqb_spec position (len l - 1)) as [->|Hne].
  - rewrite Ht. destruct (N.eqb_spec q (len l - 1)); [lia|done].
  - rewrite get_upd, Ht. case_decide as Hd.
    + destruct Hd as [<- _]. by rewrite N.eqb_refl.
    + destruct (N.eqb_spec q position) as [->|]; [|done]. exfalso. apply Hd. split; [done|].
      unfold len. rewrite length_take. unfold len in *. lia.
Qed.

(** What [OwnerSlots::remove] does to the list: one slot at most changes its position. *)
Definition moved_ok (l l' : list N) (moved : option (N * N)) : Prop :=
  match moved with
  | Some (m, q) => get l' q = Some m /\
      forall q', q' <> q -> get l' q' = if q' <? len l - 1 then get l q' else None
  | None => forall q', get l' q' = if q' <? len l - 1 then get l q' else None
  end.

Lemma owner_remove_spec {S X} (e : OwnerSlots) index position :
  get (owner_indices e) position = Some index -> (forall l, e = Many l -> 2 <= len l) ->
  exists e' moved empty, (owner_remove e index position : comp S X _) = ret (e', moved, empty) /\
    moved_ok (owner_indices e) (swap_remove (owner_indices e) position) moved /\
    if empty : bool then swap_remove (owner_indices e) position = [] /\ moved = None
    else owner_indices e' = swap_remove (owner_indices e) position /\ forall l, e' = Many l -> 2 <= len l.
Proof.
  intros Hi Hmany. pose proof (get_Some_lt _ _ _ Hi) as Hlt. destruct e as [only|l]; simpl in *.
  - assert (position = 0) as -> by (unfold len in Hlt; simpl in Hlt; lia).
    injection Hi as ->. rewrite N.eqb_refl. simpl. exists (One index), None, true. split; [done|]. split; [|done].
    intros q. rewrite get_swap_remove by done. change (len [index] - 1) with 0. by destruct (N.ltb_spec q 0); [lia|].
  - specialize (Hmany l eq_refl). rewrite Hi. simpl.
    pose proof (get_swap_remove l position) as Hget. pose proof (len_swap_remove l position Hlt) as Hlen.
    exists (match swap_remove l position with [single] => One single | l' => Many l' end),
      (match swap_remove l position with
       | [single] => Some (single, 0)
       | l' => (fun moved => (moved, position)) <$> get l' position end), false.
    unfold expect, bind, ret. rewrite N.eqb_refl. simpl.
    destruct (swap_remove l position) as [|a [|b l']] eqn:E; [unfold len in *; simpl in *; lia| |].
    + split; [done|]. split; [|done]. split; [done|]. intros q Hq. unfold len in *. simpl in *.
      rewrite Hget by done. destruct (N.ltb_spec q (N.of_nat (length l) - 1)); [lia|done].
    + split; [done|]. split; [|split; [done|]; intros ? [= <-]; unfold len; simpl; lia].
      rewrite <- E in *. destruct (get (swap_remove l position) position) as [m|] eqn:Hm; simpl.
      * split; [done|]. intros q Hq. rewrite Hget by done. by destruct (N.eqb_spec q position).
      * intros q. rewrite Hget by done. apply get_None in Hm. rewrite Hlen in Hm.
        destruct (N.ltb_spec q (len l - 1)); [|done]. destruct (N.eqb_spec q position); [lia|done].
Qed.

(** The slots after an owner index was removed. *)
Definition moved_slots (slots : list (Slot P)) (moved : option (N * N)) : list (Slot P) :=
  match moved with
  | Some (m, q) =>
      match get slots m with Some s => upd slots m (with_owner_position s q) | None => slots end
  | None => slots
  end.

Lemma get_moved_slots slots moved j s' :
  get (moved_slots slots moved) j = Some s' <->
  exists s, get slots j = Some s /\ s' = match moved with
    | Some (m, q) => if decide (m = j) then with_owner_position s q else s | None => s end.
Proof.
  destruct moved as [[m q]|]; simpl; [|naive_solver].
  destruct (get slots m) as [sm|] eqn:Hm.
  - rewrite get_upd. pose proof (get_Some_lt _ _ _ Hm). repeat case_decide; naive_solver.
  - case_decide; naive_solver.
Qed.

Lemma swap_remove_inj l position :
  (forall q q' j, get l q = Some j -> get l q' = Some j -> q = q') -> position < len l ->
  forall q q' j, get (swap_remove l position) q = Some j -> get (swap_remove l position) q' = Some j -> q = q'.
Proof.
  intros Hinj Hp q q' j. rewrite !get_swap_remove by done.
  destruct (N.ltb_spec q (len l - 1)), (N.ltb_spec q' (len l - 1)); try done.
  destruct (N.eqb_spec q position), (N.eqb_spec q' position); intros H1 H2; subst; try done.
  - specialize (Hinj _ _ _ H1 H2). lia.
  - specialize (Hinj _ _ _ H1 H2). lia.
  - by apply (Hinj _ _ j).
Qed.

Section removal.
Context (pf : option N) (debt : option HandleKey) (k k' : Slots P) (i : N) (s : Slot P).
Context (moved : option (N * N)).
Notation o := (slot_owner s).
Notation position := (slot_owner_position s).
Notation l := (owner_list k o).
Context (Hk : kinv_at pf (Some i) debt k) (Hi : get (table_slots k) i = Some s) (Hdead : ~ slive s).
Context (Hmoved : moved_ok l (swap_remove l position) moved).
Context (Hslots : table_slots k' = moved_slots (table_slots k) moved).

#[local] Lemma removal_at : get l position = Some i.
Proof. apply (ki_index _ _ _ _ Hk). exists s. auto. Qed.

#[local] Lemma removal_lt : position < len l.
Proof. exact (get_Some_lt _ _ _ removal_at). Qed.

#[local] Lemma removal_inj q q' j : get l q = Some j -> get l q' = Some j -> q = q'.
Proof.
  intros (s1 & H1 & _ & _ & <-)%(ki_index _ _ _ _ Hk) (s2 & H2 & _ & _ & <-)%(ki_index _ _ _ _ Hk).
  by simplify_eq.
Qed.

(** What is left in the list was in it, at that position or at the end. *)
#[local] Lemma removal_old q j : get (swap_remove l position) q = Some j ->
  j <> i /\ exists q0, q <= q0 /\ get l q0 = Some j.
Proof.
  pose proof removal_lt as Hlt. pose proof removal_at as Hat.
  rewrite get_swap_remove by done. destruct (N.ltb_spec q (len l - 1)); [|done].
  destruct (N.eqb_spec q position) as [->|Hne]; intros Hj.
  - split; [|exists (len l - 1); split; [lia|done]]. intros ->.
    pose proof (removal_inj _ _ _ Hj Hat). lia.
  - split; [|by exists q]. intros ->. by pose proof (removal_inj _ _ _ Hj Hat).
Qed.

#[local] Lemma removal_moved m q : moved = Some (m, q) -> get (swap_remove l position) q = Some m.
Proof. intros ->. apply Hmoved. Qed.

#[local] Lemma removal_other q j : (forall q', moved <> Some (j, q')) ->
  get (swap_remove l position) q = Some j -> get l q = Some j.
Proof.
  intros Hj. destruct moved as [[m q0]|].
  - destruct Hmoved as [Hm Hq]. destruct (decide (q = q0)) as [->|Hne].
    + rewrite Hm. intros [= ->]. by destruct (Hj q0).
    + rewrite Hq by done. by destruct (q <? _).
  - simpl in Hmoved. rewrite Hmoved. by destruct (q <? _).
Qed.

#[local] Lemma removal_stays q j :
  get l q = Some j -> j <> i -> (forall q', moved <> Some (j, q')) -> get (swap_remove l position) q = Some j.
Proof.
  intros Hq Hj Hm. pose proof removal_lt as Hlt. pose proof removal_at as Hat.
  assert (q <> position) as Hne by (intros ->; congruence).
  rewrite get_swap_remove by done. rewrite (proj2 (N.eqb_neq q position)) by done.
  destruct (N.ltb_spec q (len l - 1)) as [|Hge]; [done|].
  pose proof (get_Some_lt _ _ _ Hq). assert (q = len l - 1) as -> by lia.
  assert (get (swap_remove l position) position = Some j) as Hp.
  { rewrite get_swap_remove by done. rewrite N.eqb_refl. by destruct (N.ltb_spec position (len l - 1)); [|lia]. }
  apply removal_other in Hp; [congruence|done].
Qed.

#[local] Lemma removal_case (j : N) (sj : Slot P) :
  (exists q, moved = Some (j, q)) \/
  (forall q, moved <> Some (j, q)) /\
  match moved with Some (m, q) => if decide (m = j) then with_owner_position sj q else sj | None => sj end = sj.
Proof.
  destruct moved as [[m q]|]; [|by right]. destruct (decide (m = j)) as [->|]; [left; by eexists|].
  right. split; [congruence|done].
Qed.

#[local] Lemma removal_filed q j :
  get (swap_remove l position) q = Some j <-> filed None k' o q j.
Proof.
  unfold filed. setoid_rewrite Hslots. setoid_rewrite get_moved_slots. split.
  - intros Hq. destruct (removal_old _ _ Hq) as (Hj & q0 & _ & Hq0).
    pose proof Hq0 as (sj & Hsj & Hlj & Ho & Hpj)%(ki_index _ _ _ _ Hk).
    assert (slive sj) as Hlive by (destruct Hlj as [|[= ->]]; done).
    eexists. split; [by exists sj|]. destruct (removal_case j sj) as [[q' Hm]|[Hm ->]].
    + rewrite Hm, decide_True by done. simpl. split_and!; [by left|done|].
      eapply (swap_remove_inj _ _ removal_inj removal_lt); [by apply removal_moved|done].
    + apply removal_other in Hq; [|done]. pose proof (removal_inj _ _ _ Hq Hq0) as <-. auto.
  - intros (s' & (sj & Hsj & ->) & Hlj & Ho & Hq). destruct (removal_case j sj) as [[q' Hm]|[Hm E]].
    + rewrite Hm, decide_True in Hq by done. simpl in Hq. subst q'. by apply removal_moved.
    + rewrite E in *. destruct Hlj as [Hlj|]; [|done].
      apply removal_stays; [|by intros ->; simplify_eq|done]. apply (ki_index _ _ _ _ Hk). exists sj. auto.
Qed.

(** Nothing else about a slot changes, its position does not grow, and others keep theirs. *)
#[local] Lemma removal_slot j sj : get (table_slots k) j = Some sj ->
  exists q, get (table_slots k') j = Some (with_owner_position sj q) /\
    (slive sj -> q <= slot_owner_position sj) /\ (slot_owner sj <> o -> q = slot_owner_position sj).
Proof.
  intros Hj. destruct (removal_case j sj) as [[q Hm]|[_ E]].
  - exists q. rewrite Hslots, get_moved_slots.
    destruct (removal_old _ _ (removal_moved _ _ Hm)) as (_ & q0 & Hle & Hq0).
    apply (ki_index _ _ _ _ Hk) in Hq0 as (sj' & Hj' & _ & Ho & <-).
    assert (sj' = sj) as -> by congruence. split_and!; [|done|done].
    exists sj. by rewrite Hm, decide_True.
  - exists (slot_owner_position sj). split; [|done]. rewrite Hslots, get_moved_slots. exists sj.
    rewrite E. by destruct sj.
Qed.

#[local] Lemma removal_slot_inv j sj' : get (table_slots k') j = Some sj' ->
  exists sj q, get (table_slots k) j = Some sj /\ sj' = with_owner_position sj q /\
    (slot_owner sj <> o -> q = slot_owner_position sj).
Proof.
  intros Hj'. pose proof Hj' as Hx. rewrite Hslots in Hx. apply get_moved_slots in Hx as (sj & Hj & _).
  destruct (removal_slot _ _ Hj) as (q & Hq & _ & Ho). exists sj, q. split_and!; [done|congruence|done].
Qed.

Context (Howner : owner_list k' o = swap_remove l position).
Context (Hothers : forall o', o' <> o -> table_by_owner k' !! o' = table_by_owner k !! o').
Context (Hentry : forall l', table_by_owner k' !! o = Some (Many l') -> 2 <= len l').
Context (Hfree : table_free k' = table_free k).

#[local] Lemma removal_core : core k' = core k.
Proof.
  apply list_eq. intros n. rewrite <- (Nnat.Nat2N.id n), <- !get_lookup, !get_core.
  destruct (get (table_slots k') (N.of_nat n)) as [sj'|] eqn:Hj'.
  - destruct (removal_slot_inv _ _ Hj') as (sj & q & Hj & -> & _). by rewrite Hj.
  - destruct (get (table_slots k) (N.of_nat n)) as [sj|] eqn:Hj; [|done].
    destruct (removal_slot _ _ Hj) as (q & Hq & _). congruence.
Qed.

#[local] Lemma removal_kinv : kinv_at pf None debt k'.
Proof.
  pose proof Hk as [Hcore Hpay Hhandle Hfr Hindex Hent Hsize]. split.
  - by rewrite removal_core.
  - intros j sj' (sj & q & Hj & -> & _)%removal_slot_inv. exact (Hpay j sj Hj).
  - intros j sj' h (sj & q & Hj & -> & _)%removal_slot_inv. exact (Hhandle j sj h Hj).
  - rewrite Hfree. split; [apply Hfr|]. intros j. rewrite (proj2 Hfr j). split.
    + intros (sj & Hj & ?). destruct (removal_slot _ _ Hj) as (q & Hq & _). by eexists.
    + intros (sj' & (sj & q & Hj & -> & _)%removal_slot_inv & ?). by exists sj.
  - intros o' q j. destruct (decide (o' = o)) as [->|Hne]; [by rewrite Howner, removal_filed|].
    unfold owner_list. rewrite Hothers by done. fold (owner_list k o'). rewrite Hindex. split.
    + intros (sj & Hj & Hlj & <- & <-). destruct (removal_slot _ _ Hj) as (q & Hq & _ & Eq).
      eexists. split; [done|]. split_and!; [|done|by apply Eq].
      left. destruct Hlj as [|[= ->]]; [done|]. by simplify_eq.
    + intros (sj' & (sj & q' & Hj & -> & Eq)%removal_slot_inv & [Hlj|] & Ho & Hp); [|done].
      exists sj. simpl in Ho, Hp. rewrite <- Ho in Hne. rewrite <- (Eq Hne). auto.
  - intros o' l'. destruct (decide (o' = o)) as [->|Hne]; [apply Hentry|]. rewrite Hothers by done. apply Hent.
  - by rewrite <- len_core, removal_core, len_core.
Qed.
End removal.

(** Only positions in the owner index change, and none grows. *)
Record refiled k k' : Prop := {
  rf_core : core k' = core k;
  rf_free : table_free k' = table_free k;
  rf_limit : table_limit k' = table_limit k;
  rf_retired : table_retired k' = table_retired k;
  rf_slot : forall j s, get (table_slots k) j = Some s -> exists q,
    get (table_slots k') j = Some (with_owner_position s q) /\ (slive s -> q <= slot_owner_position s)
}.

Lemma owner_list_insert k k' o e :
  table_by_owner k' = <[o := e]> (table_by_owner k) -> owner_list k' o = owner_indices e.
Proof. unfold owner_list. intros ->. by rewrite lookup_insert_eq. Qed.

Lemma owner_list_none k o : table_by_owner k !! o = None -> owner_list k o = [].
Proof. unfold owner_list. by intros ->. Qed.

Lemma wp_remove_owner_index {X} pf debt k i s :
  kinv_at pf (Some i) debt k -> get (table_slots k) i = Some s -> ~ slive s ->
  wp (remove_owner_index i) (fun _ k' => kinv_at pf None debt k' /\ refiled k k') (fun (_ : X) _ => False) k.
Proof.
  intros Hk Hi Hd. pose proof (removal_at pf debt k i s Hk Hi) as Hat.
  unfold remove_owner_index, slot_at. apply wp_bind, wp_bind, wp_gets. unfold id. eapply wp_expect; [done|].
  apply wp_bind, wp_gets. destruct (table_by_owner k !! slot_owner s) as [e|] eqn:He.
  2: { rewrite (owner_list_none _ _ He) in Hat. by destruct (N.nlt_0_r _ (get_Some_lt _ _ _ Hat)). }
  assert (owner_list k (slot_owner s) = owner_indices e) as El by (unfold owner_list; by rewrite He).
  assert (forall l, e = Many l -> 2 <= len l) as Hmany.
  { intros l ->. exact (ki_entry _ _ _ _ Hk _ _ He). }
  rewrite El in Hat. destruct (owner_remove_spec (S := Slots P) (X := X) e i _ Hat Hmany)
    as (e' & moved & empty & -> & Hmv & Hempty). apply wp_bind, wp_ret, wp_bind, wp_modify, wp_bind.
  rewrite <- El in Hmv, Hempty, Hat.
  assert (exists k', k' = with_by_owner (with_table_slots k (moved_slots (table_slots k) moved))
    (if empty then delete (slot_owner s) (<[slot_owner s := e']> (table_by_owner k))
     else <[slot_owner s := e']> (table_by_owner k))) as [k' Hk']; [by eexists|].
  assert (kinv_at pf None debt k' /\ refiled k k') as Hres.
  { assert (table_slots k' = moved_slots (table_slots k) moved) as Hs by (by subst k').
    split; [|split; [by eapply removal_core|by subst k'..|]].
    - eapply removal_kinv; try done; subst k'; [|intros o' Ho'|intros l'|done]; destruct empty; simpl.
      + destruct Hempty as [-> _]. apply owner_list_none. simpl. by rewrite lookup_delete_eq.
      + destruct Hempty as [<- _]. by apply (owner_list_insert k).
      + by rewrite lookup_delete_ne, lookup_insert_ne.
      + by rewrite lookup_insert_ne.
      + by rewrite lookup_delete_eq.
      + rewrite lookup_insert_eq. intros [= ->]. by apply Hempty.
    - intros j sj Hj. destruct (removal_slot pf debt k k' i s moved Hk Hi Hmv Hs j sj Hj) as (q & ? & ? & _).
      by exists q. }
  destruct moved as [[m q]|].
  - destruct (removal_old pf debt k i s Hk Hi q m) as (_ & q0 & _ & (sm & Hm & _)%(ki_index _ _ _ _ Hk)).
    { apply Hmv. }
    simpl in Hk'. rewrite Hm in Hk'. unfold slot_at. apply wp_bind, wp_bind, wp_gets. unfold id.
    eapply wp_expect; [done|]. apply wp_modify. destruct empty; [by destruct Hempty|].
    apply wp_ret. by subst k'.
  - apply wp_ret. destruct empty; [apply wp_modify|apply wp_ret]; by subst k'.
Qed.

(** ** Giving up authority *)

(** Every payload: in its slot, or retired. *)
Definition payloads k : list (KHandle P) := omap slot_handle (table_slots k) ++ table_retired k.

(** What an operation that gives up authority keeps: the slots in [A] stay active and the
    delegators in [C] retained (Authority.v), active slots keep their payload, no slot moves
    back in its owner's list, and no payload is lost. *)
Record shrinks (A : N -> Prop) (C : HandleKey -> Prop) k k' : Prop := {
  sh_core : pres A C (core k) (core k');
  sh_slot : forall j s s', get (table_slots k) j = Some s -> get (table_slots k') j = Some s' ->
    (slive s' -> slot_owner_position s' <= slot_owner_position s) /\
    (sactive s' -> sactive s /\ slot_handle s' = slot_handle s);
  sh_payloads : payloads k' ≡ₚ payloads k
}.

Lemma omap_upd {A B} (f : A -> option B) (l : list A) i x y :
  get l i = Some x -> omap f (upd l i y) ++ option_list (f x) ≡ₚ omap f l ++ option_list (f y).
Proof.
  rewrite get_lookup. unfold upd. generalize (N.to_nat i). clear i.
  induction l as [|z l IH]; intros [|i] Hi; simplify_eq/=.
  - destruct (f x), (f y); simpl; rewrite ?app_nil_r; try done; [|by rewrite <- Permutation_cons_append
      |by rewrite <- Permutation_cons_append].
    rewrite <- !Permutation_cons_append. apply Permutation_swap.
  - specialize (IH i Hi). destruct (f z); simpl; by rewrite IH.
Qed.

Lemma core_upd k k' i s : table_slots k' = upd (table_slots k) i s -> core k' = upd (core k) i (core_handle s).
Proof. unfold core, upd. intros ->. by rewrite list_fmap_insert. Qed.

Lemma shrinks_refl A C k : shrinks A C k k.
Proof. split; [apply pres_refl| |done]. intros j s s' ? ?. simplify_eq. by split. Qed.

Lemma pres_slot A C k k' j s : pres A C (core k) (core k') -> get (table_slots k) j = Some s ->
  exists s', get (table_slots k') j = Some s' /\ slot_owner s' = slot_owner s /\
    slot_generation (slot_authority s') = slot_generation (slot_authority s) /\
    (slive s' -> slive s) /\ (A j -> sactive s -> sactive s').
Proof.
  intros Hp Hj%get_core_Some. destruct (pres_get _ _ _ _ Hp _ _ Hj) as (h' & Hj' & Hg & Ho & _ & _ & Hl & Ha).
  rewrite get_core in Hj'. destruct (get (table_slots k') j) as [s'|]; [|done]. simplify_eq/=.
  exists s'. split_and!; try done. intros Hl'. by apply Hl.
Qed.

Lemma shrinks_trans A1 C1 A2 C2 k1 k2 k3 :
  shrinks A1 C1 k1 k2 -> shrinks A2 C2 k2 k3 ->
  shrinks (fun i => A1 i /\ A2 i) (fun p => C1 p /\ C2 p) k1 k3.
Proof.
  intros [P1 S1 L1] [P2 S2 L2]. split; [by eapply pres_trans| |by rewrite L2].
  intros j s s' Hj Hj'. destruct (pres_slot _ _ _ _ _ _ P1 Hj) as (s2 & Hj2 & _ & _ & _ & _).
  destruct (S1 j s s2 Hj Hj2) as [Q1 R1], (S2 j s2 s' Hj2 Hj') as [Q2 R2].
  destruct (pres_slot _ _ _ _ _ _ P2 Hj2) as (s3 & Hj3 & _ & _ & Hl & _). simplify_eq. split.
  - intros Hl'. specialize (Q2 Hl'). specialize (Q1 (Hl Hl')). lia.
  - intros [Ha2 E2]%R2. destruct (R1 Ha2) as [Ha E1]. split; [done|congruence].
Qed.

Lemma shrinks_weaken (A A' : N -> Prop) (C C' : HandleKey -> Prop) k k' :
  (forall i, A' i -> A i) -> (forall p, C' p -> C p) -> shrinks A C k k' -> shrinks A' C' k k'.
Proof. intros HA HC [Hp Hs Hl]. split; [by eapply pres_weaken|done|done]. Qed.

Lemma omap_fmap_ext {A B} (f : A -> option B) (l l' : list A) : f <$> l' = f <$> l -> omap f l' = omap f l.
Proof.
  revert l'. induction l as [|x l IH]; intros [|x' l'] E; simplify_eq/=; [done|].
  rewrite (IH l') by done. by destruct (f x), (f x'); simplify_eq.
Qed.

Lemma refiled_shrinks k k' : refiled k k' -> shrinks (fun _ => True) (fun _ => True) k k'.
Proof.
  intros [Hc Hf Hlim Hr Hs]. split.
  - rewrite Hc. apply pres_refl.
  - intros j s s' Hj Hj'. destruct (Hs j s Hj) as (q & Hq & Hle). simplify_eq. by split.
  - unfold payloads. rewrite Hr. replace (omap slot_handle (table_slots k')) with
      (omap slot_handle (table_slots k)); [done|]. apply omap_fmap_ext, list_eq. intros n.
    rewrite !list_lookup_fmap, <- (Nnat.Nat2N.id n), <- !get_lookup.
    destruct (get (table_slots k) (N.of_nat n)) as [sj|] eqn:Hj.
    + by destruct (Hs _ _ Hj) as (q & -> & _).
    + apply get_None in Hj. rewrite <- len_core, <- Hc, len_core in Hj. by rewrite (proj2 (get_None _ _) Hj).
Qed.

(** A live slot changes its authority, and loses its payload when it is no longer active. *)
Definition lowered s s' : Prop :=
  slot_owner s' = slot_owner s /\ slot_owner_position s' = slot_owner_position s /\
  slot_generation (slot_authority s') = slot_generation (slot_authority s) /\ (sactive s' -> sactive s) /\
  slot_handle s' = if decide (sactive s') then slot_handle s else None.

Definition pending i s : option N := if decide (slive s) then None else Some i.

Lemma reusable_dead s : reusable (slot_authority s) = true -> ~ slive s.
Proof. intros [Hv%bool_decide_eq_true _]%andb_true_iff Hl. by apply Hl. Qed.

Lemma kinv_replace debt debt' k k' i s s' :
  kinv_at None None debt k -> get (table_slots k) i = Some s -> slive s -> lowered s s' ->
  table_slots k' = upd (table_slots k) i s' -> table_free k' = table_free k ->
  table_by_owner k' = table_by_owner k -> inv_at debt' (core k') ->
  kinv_at (pending i s') (pending i s') debt' k'.
Proof.
  intros Hk Hi Hl (Ho & Hp & Hg & Ha & Hh) Hs Hf Hb Hc. pose proof (get_Some_lt _ _ _ Hi) as Hlt.
  destruct Hk as [_ Hpay Hhandle Hfr Hindex Hent Hsize].
  assert (forall j sj, get (upd (table_slots k) i s') j = Some sj ->
    j = i /\ sj = s' \/ j <> i /\ get (table_slots k) j = Some sj) as Hcase by (intros; by apply get_upd_inv).
  split; rewrite ?Hs, ?Hf, ?Hb; [done|..|by rewrite len_upd].
  - intros j sj [[-> ->]|[_ Hj]]%Hcase; [|by apply (Hpay j)]. rewrite Hh. case_decide as Hd.
    + rewrite (Hpay i s Hi). by split; auto.
    + split; [by intros []|done].
  - intros j sj h [[-> ->]|[_ Hj]]%Hcase; [|by apply (Hhandle j)]. rewrite Hh. case_decide; [|done].
    intros Hsh. rewrite Hg, Ho. by apply (Hhandle i s h).
  - split; [apply Hfr|]. intros j. rewrite (proj2 Hfr j). unfold pending. split.
    + intros (sj & Hj & Hre & _). assert (j <> i) as Hne.
      { intros ->. simplify_eq. by apply (reusable_dead s). }
      exists sj. rewrite get_upd_ne by done. split_and!; [done|done|]. destruct (decide (slive s')); congruence.
    + intros (sj & [[-> ->]|[_ Hj]]%Hcase & Hre & Hpf); [|by exists sj].
      apply reusable_dead in Hre. by rewrite decide_False in Hpf.
  - intros o q j. unfold owner_list. rewrite Hb. fold (owner_list k o). rewrite Hindex. unfold filed. rewrite Hs. split.
    + intros (sj & Hj & [Hlj|] & Eo & Ep); [|done]. destruct (decide (j = i)) as [->|Hne].
      * simplify_eq. exists s'. rewrite get_upd_eq by done. split_and!; [done| |done|done].
        unfold pending. destruct (decide (slive s')); auto.
      * exists sj. rewrite get_upd_ne by done. auto.
    + intros (sj & [[-> ->]|[Hne Hj]]%Hcase & Hlj & Eo & Ep); [exists s; rewrite Ho, Hp in *; auto|].
      exists sj. split_and!; try done. destruct Hlj as [|Hpe]; [by left|]. unfold pending in Hpe.
      destruct (decide (slive s')); congruence.
  - exact Hent.
Qed.

Lemma lowered_payloads k k' i s s' :
  get (table_slots k) i = Some s -> lowered s s' -> table_slots k' = upd (table_slots k) i s' ->
  table_retired k' = table_retired k ++ (if decide (sactive s') then [] else option_list (slot_handle s)) ->
  payloads k' ≡ₚ payloads k.
Proof.
  intros Hi (_ & _ & _ & _ & Hh) Hs Hr. unfold payloads. rewrite Hs, Hr.
  pose proof (omap_upd slot_handle _ _ _ s' Hi) as Hperm. rewrite Hh in Hperm. case_decide.
  - rewrite app_nil_r. by apply Permutation_app_inv_r in Hperm as ->.
  - simpl in Hperm. rewrite app_nil_r in Hperm. rewrite (Permutation_app_comm (table_retired k)), app_assoc.
    by rewrite Hperm.
Qed.

Lemma shrinks_replace (A : N -> Prop) C k k' i s s' :
  get (table_slots k) i = Some s -> slive s -> lowered s s' -> table_slots k' = upd (table_slots k) i s' ->
  table_retired k' = table_retired k ++ (if decide (sactive s') then [] else option_list (slot_handle s)) ->
  pres A C (core k) (core k') -> shrinks A C k k'.
Proof.
  intros Hi Hl Hlow Hs Hr Hp. split; [done| |by eapply lowered_payloads].
  destruct Hlow as (_ & Ep & _ & Ha & Hh).
  intros j sj sj' Hj Hj'. rewrite Hs in Hj'.
  apply get_upd_inv in Hj' as [[-> ->]|[_ Hj']]; [|simplify_eq; by split|by eapply get_Some_lt].
  simplify_eq. split; [by rewrite Ep|]. intros Hact. split; [by apply Ha|]. by rewrite Hh, decide_True.
Qed.

(** *** Reclaiming slots *)

Lemma dead_no_handle pf pi debt k i s :
  kinv_at pf pi debt k -> get (table_slots k) i = Some s -> ~ sactive s -> slot_handle s = None.
Proof.
  intros Hk Hi Hd. destruct (slot_handle s) eqn:E; [|done]. destruct Hd. apply (ki_payload _ _ _ _ Hk i s Hi). by rewrite E.
Qed.

Lemma dead_not_active s : ~ slive s -> ~ sactive s.
Proof. unfold slive, sactive. intros Hd Ha. apply Hd. by rewrite Ha. Qed.

(** Taking the payload of a slot that has none changes nothing. *)
Lemma take_no_handle k i s :
  get (table_slots k) i = Some s -> slot_handle s = None ->
  with_table_slots (with_retired k (table_retired k ++ option_list (slot_handle s)))
    (upd (table_slots k) i (without_handle s)) = k.
Proof.
  intros Hi Hh. replace (without_handle s) with s by (destruct s; simpl in *; by subst).
  rewrite upd_id, Hh by done. simpl. rewrite app_nil_r. by destruct k.
Qed.

Definition with_freed k i s : Slots P :=
  if reusable (slot_authority s) then with_free k (table_free k ++ [i]) else k.

Lemma kinv_freed debt k i s :
  kinv_at (Some i) None debt k -> get (table_slots k) i = Some s ->
  kinv_at None None debt (with_freed k i s).
Proof.
  intros Hk Hi. unfold with_freed. pose proof Hk as [Hc Hpay Hh [Hnd Hfr] Hix He Hs].
  assert (i ∉ table_free k) as Hni by (by intros (sj & _ & _ & [])%Hfr).
  destruct (reusable (slot_authority s)) eqn:Hre; split; try done; simpl; (split; [|intros j]).
  - apply NoDup_app. split_and!; [done| |by apply NoDup_singleton].
    intros j Hj ->%list_elem_of_singleton. done.
  - rewrite elem_of_app, list_elem_of_singleton, Hfr. split.
    + intros [(sj & ? & ? & _)| ->]; [by exists sj|by exists s].
    + intros (sj & Hj & Hr & _). destruct (decide (j = i)) as [->|]; [by right|]. left. exists sj. naive_solver.
  - done.
  - rewrite Hfr. split; [naive_solver|]. intros (sj & Hj & Hr & _). exists sj. split_and!; [done|done|].
    intros [= ->]. congruence.
Qed.

Lemma shrinks_freed A C k i s : shrinks A C k (with_freed k i s).
Proof. unfold with_freed. destruct (reusable _); [|apply shrinks_refl]. destruct (shrinks_refl A C k) as [Hp Hs Hl]. by split. Qed.

(** One turn: the vacated slot leaves the owner index and joins the free list. *)
Lemma wp_reclaim_turn {X B} debt k i s (c : comp (Slots P) X B) Q R :
  kinv_at (Some i) (Some i) debt k -> get (table_slots k) i = Some s -> ~ slive s ->
  (forall k', kinv_at None None debt k' -> shrinks (fun _ => True) (fun _ => True) k k' ->
     core k' = core k -> wp c Q R k') ->
  wp (retire (slot_handle s) ;;; put_slot i (without_handle s) ;;;
      remove_owner_index i ;;;
      (if reusable (slot_authority s) then modify (fun k => with_free k (table_free k ++ [i])) else ret tt) ;;;
      c) Q R k.
Proof.
  intros Hk Hi Hd Hc. apply wp_bind, wp_modify, wp_bind, wp_modify.
  pose proof (dead_no_handle _ _ _ _ _ _ Hk Hi (dead_not_active _ Hd)) as Hnone.
  match goal with |- wp ?c' _ _ _ => change (wp c' Q R (with_table_slots (with_retired k (table_retired k ++
    option_list (slot_handle s))) (upd (table_slots k) i (without_handle s)))) end.
  rewrite (take_no_handle k i s Hi Hnone).
  apply wp_bind. eapply wp_mono; [eapply wp_remove_owner_index; done| |by intros].
  intros [] k1 [Hk1 Hrf]. destruct (rf_slot _ _ Hrf i s Hi) as (q & Hi1 & _).
  pose proof (kinv_freed _ _ _ _ Hk1 Hi1) as Hk2.
  assert (wp c Q R (with_freed k1 i (with_owner_position s q))) as Hwp.
  { apply Hc; [done| |by unfold with_freed; destruct (reusable _); apply Hrf].
    eapply shrinks_weaken; [| |eapply shrinks_trans; [by apply refiled_shrinks|by apply shrinks_freed]].
    - intros; split; exact I.
    - intros; split; exact I. }
  apply wp_bind. unfold with_freed in Hwp. simpl in Hwp. by destruct (reusable (slot_authority s)).
Qed.

Lemma core_lookup k i h : get (core k) i = Some h <-> exists s, get (table_slots k) i = Some s /\ h = core_handle s.
Proof. rewrite get_core. destruct (get (table_slots k) i); naive_solver. Qed.

Lemma core_with_authority k i s a :
  core (with_table_slots k (upd (table_slots k) i (with_authority s a))) =
  upd (core k) i (with_handle_slot (core_handle s) a).
Proof. unfold core, upd. simpl. by rewrite list_fmap_insert. Qed.

Lemma with_authority_id s : with_authority s (slot_authority s) = s.
Proof. by destruct s. Qed.

Lemma with_slots_id k : with_table_slots k (table_slots k) = k.
Proof. by destruct k. Qed.

(** A change of authority that leaves the state alone, or vacates a released slot. *)
Lemma lowered_authority pf pi debt k i s a :
  kinv_at pf pi debt k -> get (table_slots k) i = Some s -> slot_generation a = slot_generation (slot_authority s) ->
  slot_state a = slot_state (slot_authority s) \/ slot_state a = Vacant /\ ~ sactive s ->
  lowered s (with_authority s a).
Proof.
  intros Hk Hi Hg Hst. unfold lowered, sactive. simpl. split_and!; try done.
  - destruct Hst as [-> | [-> _]]; done.
  - case_decide as Hd; [done|]. eapply dead_no_handle; [done|done|]. unfold sactive. destruct Hst as [<- | [_ ?]]; done.
Qed.

(** The retired payloads do not change when the lowered slot has none to give. *)
Lemma retired_same pf pi debt k i s a :
  kinv_at pf pi debt k -> get (table_slots k) i = Some s ->
  slot_state a = slot_state (slot_authority s) \/ slot_state a = Vacant /\ ~ sactive s ->
  table_retired k = table_retired k ++
    (if decide (sactive (with_authority s a)) then [] else option_list (slot_handle s)).
Proof.
  intros Hk Hi Hst. case_decide as Hd; [by rewrite app_nil_r|].
  rewrite (dead_no_handle _ _ _ _ _ _ Hk Hi); [by rewrite app_nil_r|]. unfold sactive in *. simpl in Hd.
  destruct Hst as [E | [_ ?]]; [by rewrite <- E|done].
Qed.

(** The authority of a slot is replaced: what it takes for the table to be kept. *)
Lemma replace_authority (A : N -> Prop) debt debt' k i s a :
  kinv_at None None debt k -> get (table_slots k) i = Some s -> slive s ->
  slot_generation a = slot_generation (slot_authority s) ->
  slot_state a = slot_state (slot_authority s) \/ slot_state a = Vacant /\ ~ sactive s ->
  let k' := with_table_slots k (upd (table_slots k) i (with_authority s a)) in
  inv_at debt' (core k') -> pres A (fun _ => True) (core k) (core k') ->
  kinv_at (pending i (with_authority s a)) (pending i (with_authority s a)) debt' k' /\
  shrinks A (fun _ => True) k k'.
Proof.
  intros Hk Hi Hl Hg Hst k' Hc Hp. pose proof (lowered_authority _ _ _ _ _ _ _ Hk Hi Hg Hst) as Hlow. split.
  - by eapply kinv_replace.
  - eapply shrinks_replace; try done. exact (retired_same _ _ _ _ _ _ _ Hk Hi Hst).
Qed.

Lemma detach_spec p k sp :
  kinv_at None None (Some p) k -> get (table_slots k) (key_slot p) = Some sp ->
  exists change a, detach_child (slot_authority sp) (key_generation p) = Some (change, a) /\
  let k' := with_table_slots k (upd (table_slots k) (key_slot p) (with_authority sp a)) in
  shrinks (fun _ => True) (fun _ => True) k k' /\
  match change with
  | Reclaimed q => kinv_at (Some (key_slot p)) (Some (key_slot p)) q k' /\ ~ slive (with_authority sp a) /\
      (lives (core k') + 1 = lives (core k))%nat
  | _ => kinv k'
  end.
Proof.
  intros Hk Hp. pose proof (get_core_Some _ _ _ Hp) as Hcp. pose proof (ki_core _ _ _ _ Hk) as Hinv.
  unfold detach_child. destruct (retains (slot_authority sp) (key_generation p)) eqn:Hr; simpl.
  2: { do 2 eexists. split; [done|]. rewrite with_authority_id, upd_id, with_slots_id by done. split; [apply shrinks_refl|].
       destruct Hk. split; try done. eapply inv_void; [done|]. intros (h & Hh & Hx).
       assert (h = core_handle sp) as -> by congruence. simpl in Hx. congruence. }
  apply (retains_live (core_handle sp)) in Hr as [Hl Hg].
  assert (p = key_of (key_slot p) (core_handle sp)) as Ep by (unfold key_of; rewrite Hg; by destruct p).
  pose proof (inv_count _ _ Hinv _ _ Hcp Hl) as Hc. rewrite decide_True in Hc by congruence. simpl in Hc.
  destruct (N.eqb_spec (slot_children (slot_authority sp)) 0) as [Hz|Hz]; [lia|].
  rewrite (proj2 (checked_sub_Some _ 1 (slot_children (slot_authority sp) - 1))) by lia. simpl.
  destruct ((slot_children (slot_authority sp) - 1 =? 0) &&
    bool_decide (slot_state (slot_authority sp) = Released)) eqn:Hgo; simpl; do 2 eexists; (split; [done|]).
  - apply andb_true_iff in Hgo as [Hzero%N.eqb_eq Hrel%bool_decide_eq_true].
    set (a := vacant (slot_generation (slot_authority sp))).
    assert (~ slive (with_authority sp a)) as Hd by (by intros []).
    assert (~ sactive sp) as Hna by (unfold sactive; congruence).
    pose proof (inv_vacate _ _ (key_slot p) _ Hinv (or_intror (f_equal Some Ep)) Hcp Hl) as Hinv'.
    destruct (replace_authority (fun _ => True) (Some p) (slot_parent (slot_authority sp)) k (key_slot p) sp a)
      as [Hk' Hsh]; try done; [by right|..].
    + rewrite core_with_authority. exact Hinv'.
    + rewrite core_with_authority. eapply pres_weaken; [| |apply (pres_vacate (fun _ => True)); [done|done|intros _; lia]]; [|done].
      intros. right. simpl. congruence.
    + split; [done|]. unfold pending in Hk'. rewrite decide_False in Hk' by done. split_and!; [done|done|].
      rewrite core_with_authority. by apply (lives_vacate _ _ (core_handle sp)).
  - set (a := with_children (slot_authority sp) (slot_children (slot_authority sp) - 1)).
    destruct (replace_authority (fun _ => True) (Some p) None k (key_slot p) sp a)
      as [Hk' Hsh]; try done; [by left|..].
    + rewrite core_with_authority. eapply (inv_relabel (Some p)); simpl; try done.
      * intros Hrel. apply andb_false_iff in Hgo as [?%N.eqb_neq|?%bool_decide_eq_false]; [lia|done].
      * lia.
      * intros j hj Hne Hj. split; [done|]. intros [= Ej]. rewrite Ej in Hne. by destruct Hne.
    + rewrite core_with_authority.
      eapply pres_weaken; [| |by eapply (pres_relabel (fun _ => True))]; [|done]. intros. by right.
    + split; [done|]. unfold pending in Hk'. by rewrite decide_True in Hk'.
Qed.

Lemma wp_handles_reclaim {X} fuel debt k i s :
  kinv_at (Some i) (Some i) debt k -> get (table_slots k) i = Some s -> ~ slive s ->
  (lives (core k) < fuel)%nat ->
  wp (handles_reclaim fuel i (Reclaimed debt))
    (fun _ k' => kinv k' /\ shrinks (fun _ => True) (fun _ => True) k k') (fun (_ : X) _ => False) k.
Proof.
  revert debt k i s. induction fuel as [|fuel IH]; intros debt k i s Hk Hi Hd Hf; [lia|]. cbn [handles_reclaim].
  unfold slot_at. apply wp_bind, wp_bind, wp_gets. unfold id. eapply wp_expect; [done|]. cbv zeta.
  eapply wp_reclaim_turn; [done..|]. clear Hk Hi. intros k1 Hk Hsh Hcore.
  destruct debt as [p|]; [|by apply wp_ret].
  apply wp_bind, wp_gets. unfold id. destruct (get (table_slots k1) (key_slot p)) as [sp|] eqn:Hp.
  2: { apply wp_ret. split; [|done]. destruct Hk. split; try done. eapply inv_void; [done|].
       intros (h & (? & Hx & _)%core_lookup & _). congruence. }
  pose proof (detach_spec p k1 sp Hk Hp) as Hdet.
  destruct Hdet as (change & a & Hdetach & Hsh2 & Hdet).
  apply wp_bind. eapply wp_expect; [exact Hdetach|]. apply wp_bind, wp_modify. set (k2 := with_table_slots k1 _) in *.
  assert (shrinks (fun _ => True) (fun _ => True) k k2) as Hsh12.
  { eapply shrinks_weaken; [| |by eapply shrinks_trans]; done. }
  destruct change as [| |q]; [by destruct fuel; apply wp_ret..|].
  destruct Hdet as (Hk2 & Hd2 & Hlv). rewrite Hcore in Hlv.
  eapply wp_mono; [eapply (IH q k2 (key_slot p) (with_authority sp a))| |done]; [done| |done|lia|].
  - simpl. apply get_upd_eq. by eapply get_Some_lt.
  - intros [] k3 [? Hsh3]. split; [done|]. eapply shrinks_weaken; [| |by eapply shrinks_trans]; done.
Qed.

(** *** Release and revocation *)

(** The table after slot [i] took the authority [a] and gave its payload away. *)
Definition settled k i s a : Slots P :=
  with_table_slots (with_retired k (table_retired k ++ option_list (slot_handle s)))
    (upd (table_slots k) i (without_handle (with_authority s a))).

Definition settle {X} (k : Slots P) i s a (change : HandleSlotChange) : comp (Slots P) X bool :=
  put_slot i (with_authority s a) ;;;
  let* slot := slot_at i in
  retire (slot_handle slot) ;;;
  put_slot i (without_handle slot) ;;;
  handles_reclaim (S (length (table_slots k))) i change ;;;
  ret true.

Lemma core_settled k i s a : core (settled k i s a) = upd (core k) i (with_handle_slot (core_handle s) a).
Proof. unfold core, settled. simpl. unfold upd. by rewrite list_fmap_insert. Qed.

Definition change_ok (debt : HandleSlotChange) i (a : HandleSlot) k : Prop :=
  match debt with
  | Reclaimed debt => slot_state a = Vacant /\ inv_at debt (core k)
  | Retained => slot_state a = Released /\ inv (core k)
  | Unchanged => False
  end.

(** A slot that lost its place stays without it. *)
Definition demoted k i (a : HandleSlot) : Prop :=
  forall s, get (table_slots k) i = Some s -> ~ sactive s /\ (slot_state a = Vacant -> ~ slive s).

Lemma shrinks_demoted A C k k' i s a :
  shrinks A C k k' -> get (table_slots k) i = Some s -> slot_state (slot_authority s) = slot_state a ->
  slot_state a <> Active -> demoted k' i a.
Proof.
  intros [Hp Hs _] Hi Hst Hna s' Hi'. destruct (Hs _ _ _ Hi Hi') as [_ Ha].
  destruct (pres_slot _ _ _ _ _ _ Hp Hi) as (s2 & Hi2 & _ & _ & Hl & _). simplify_eq. split.
  - intros [Hx _]%Ha. apply Hna. by rewrite <- Hst.
  - intros Hv Hl'. apply (Hl Hl'). by rewrite Hst.
Qed.

Lemma wp_settle {X} C k i s a change :
  kinv k -> get (table_slots k) i = Some s -> slive s ->
  slot_generation a = slot_generation (slot_authority s) -> change_ok change i a (settled k i s a) ->
  pres (fun j => j <> i) C (core k) (core (settled k i s a)) ->
  wp (settle k i s a change)
    (fun b k' => b = true /\ kinv k' /\ demoted k' i a /\ shrinks (fun j => j <> i) C k k')
    (fun (_ : X) _ => False) k.
Proof.
  intros Hk Hi Hl Hg Hch Hp. pose proof (get_Some_lt _ _ _ Hi) as Hlt.
  unfold settle, slot_at. apply wp_bind, wp_modify, wp_bind, wp_bind, wp_gets. unfold id.
  eapply wp_expect; [by apply get_upd_eq|]. apply wp_bind, wp_modify, wp_bind, wp_modify.
  match goal with |- wp ?c ?Q ?R ?x => replace x with (settled k i s a) end.
  2: { unfold settled, with_table_slots, with_retired. simpl. by rewrite upd_upd. }
  set (k1 := settled k i s a) in *. set (s1 := without_handle (with_authority s a)).
  assert (get (table_slots k1) i = Some s1) as Hi1 by (by apply get_upd_eq).
  assert (slot_state a <> Active) as Hna by (destruct change; [done|by destruct Hch as [-> _]..]).
  assert (~ sactive s1) as Hns by done.
  assert (lowered s s1) as Hlow by (unfold lowered; by rewrite decide_False).
  assert (shrinks (fun j => j <> i) C k k1) as Hsh.
  { eapply shrinks_replace; try done. by rewrite decide_False. }
  apply wp_bind. destruct change as [| |debt]; [done|destruct Hch as [Hst Hinv]..].
  - apply wp_ret, wp_ret. split_and!; [done| |by eapply shrinks_demoted; [apply (shrinks_refl (fun _ => True) (fun _ => True))|..]|done].
    pose proof (kinv_replace None None k k1 i s s1 Hk Hi Hl Hlow eq_refl eq_refl eq_refl Hinv) as Hk1.
    unfold pending in Hk1. rewrite decide_True in Hk1; [done|]. unfold slive. simpl. by rewrite Hst.
  - assert (~ slive s1) as Hd by (intros []; done).
    pose proof (kinv_replace None debt k k1 i s s1 Hk Hi Hl Hlow eq_refl eq_refl eq_refl Hinv) as Hk1.
    unfold pending in Hk1. rewrite decide_False in Hk1 by done.
    eapply wp_mono; [eapply wp_handles_reclaim; [done|done|done|]| |by intros].
    + pose proof (lives_le (core k1)) as Hle. unfold core in Hle at 2. rewrite length_fmap in Hle.
      unfold k1 in Hle at 2. simpl in Hle. unfold upd in Hle. rewrite length_insert in Hle. lia.
    + intros [] k' [Hk' Hsh']. apply wp_ret. split_and!; [done|done|by eapply shrinks_demoted|].
      eapply shrinks_weaken; [| |by eapply shrinks_trans]; done.
Qed.

(** Giving up by a rule: either nothing happens, or the slot settles. *)
Lemma wp_relinquish {X} rule C key k (Q : bool -> Slots P -> Prop) :
  kinv k ->
  (get (table_slots k) (key_slot key) = None -> Q false k) ->
  (forall s, get (table_slots k) (key_slot key) = Some s ->
     rule (slot_authority s) (key_generation key) = (Unchanged, slot_authority s) /\ Q false k \/
     exists change a, rule (slot_authority s) (key_generation key) = (change, a) /\ slive s /\
       slot_generation a = slot_generation (slot_authority s) /\
       change_ok change (key_slot key) a (settled k (key_slot key) s a) /\
       pres (fun j => j <> key_slot key) C (core k) (core (settled k (key_slot key) s a)) /\
       (forall k', kinv k' -> demoted k' (key_slot key) a -> shrinks (fun j => j <> key_slot key) C k k' ->
          Q true k')) ->
  wp (relinquish rule key) Q (fun (_ : X) _ => False) k.
Proof.
  intros Hk Hnone Hsome. unfold relinquish. apply wp_bind, wp_gets. unfold id.
  destruct (get (table_slots k) (key_slot key)) as [s|] eqn:Hi; [|apply wp_ret; auto].
  destruct (Hsome s eq_refl) as [[-> HQ]|(change & a & -> & Hl & Hg & Hch & Hp & HQ)].
  - apply wp_bind, wp_modify, wp_ret. by rewrite with_authority_id, upd_id, with_slots_id.
  - assert (wp (settle k (key_slot key) s a change) Q (fun (_ : X) _ => False) k) as Hwp.
    { eapply wp_mono; [by eapply wp_settle| |done]. intros b k' (-> & ? & ? & ?). auto. }
    destruct change; [done|exact Hwp..].
Qed.

Lemma wp_handles_release {X} key k :
  kinv k ->
  wp (handles_release key)
    (fun b k' => kinv k' /\ shrinks (fun j => j <> key_slot key) (fun _ => True) k k' /\
       (forall s, get (table_slots k) (key_slot key) = Some s ->
          b = matches (slot_authority s) (key_generation key)) /\
       if b then forall s, get (table_slots k') (key_slot key) = Some s -> ~ sactive s else k' = k)
    (fun (_ : X) _ => False) k.
Proof.
  intros Hk. pose proof (ki_core _ _ _ _ Hk) as Hinv.
  eapply (wp_relinquish _ (fun _ => True)); [done|..].
  - intros Hn. split_and!; [done|apply shrinks_refl|congruence|done].
  - intros s Hi. pose proof (get_core_Some _ _ _ Hi) as Hc. unfold slot_release.
    destruct (matches (slot_authority s) (key_generation key)) eqn:Hm; simpl.
    2: { left. split; [done|]. split_and!; [done|apply shrinks_refl| |done]. congruence. }
    right. apply (matches_active (core_handle s)) in Hm as Hm'. destruct Hm' as [Ha Hg].
    assert (slive s) as Hl by (unfold slive; simpl in Ha; congruence).
    pose proof (inv_count _ _ Hinv _ _ Hc Hl) as Hcnt. rewrite decide_False, N.add_0_r in Hcnt by done. simpl in Hcnt.
    assert (forall s0, get (table_slots k) (key_slot key) = Some s0 ->
      true = matches (slot_authority s0) (key_generation key)) as Hb by (intros s0 Hs0; by simplify_eq).
    destruct (N.eqb_spec (slot_children (slot_authority s)) 0) as [Hz|Hz]; simpl; eexists _, _;
      (split; [done|]); (split; [done|]); (split; [done|]); unfold change_ok; rewrite core_settled;
      (split; [|split; [|intros k' ? Hdem ?; split_and!; [done..|by intros s0 [Hx _]%Hdem]]]).
    + split; [done|]. by apply (inv_vacate None _ _ (core_handle s)); [|left|..].
    + eapply pres_weaken; [| |apply (pres_vacate (fun _ => True)); [done|done|intros _; simpl; lia]]; [|done].
      by left.
    + split; [done|]. eapply (inv_relabel None); simpl; try done; lia.
    + eapply pres_weaken; [| |by eapply (pres_relabel (fun _ => True))]; [|done]. by left.
Qed.

Lemma wp_handles_revoke {X} key k :
  kinv k ->
  wp (handles_revoke key)
    (fun b k' => kinv k' /\ shrinks (fun j => j <> key_slot key) (fun p => p <> key) k k' /\
       (forall s, get (table_slots k) (key_slot key) = Some s ->
          b = retains (slot_authority s) (key_generation key)) /\
       if b then forall s, get (table_slots k') (key_slot key) = Some s -> ~ slive s else k' = k)
    (fun (_ : X) _ => False) k.
Proof.
  intros Hk. pose proof (ki_core _ _ _ _ Hk) as Hinv.
  eapply (wp_relinquish _ (fun p => p <> key)); [done|..].
  - intros Hn. split_and!; [done|apply shrinks_refl|congruence|done].
  - intros s Hi. pose proof (get_core_Some _ _ _ Hi) as Hc. unfold slot_revoke.
    destruct (retains (slot_authority s) (key_generation key)) eqn:Hm; simpl.
    2: { left. split; [done|]. split_and!; [done|apply shrinks_refl| |done]. congruence. }
    right. apply (retains_live (core_handle s)) in Hm as Hm'. destruct Hm' as [Hl Hg].
    assert (key = key_of (key_slot key) (core_handle s)) as Ek by (unfold key_of; rewrite Hg; by destruct key).
    assert (forall s0, get (table_slots k) (key_slot key) = Some s0 ->
      true = retains (slot_authority s0) (key_generation key)) as Hb by (intros s0 Hs0; by simplify_eq).
    eexists _, _. split; [done|]. split; [done|]. split; [done|]. unfold change_ok. rewrite core_settled.
    split; [|split; [|intros k' ? Hdem ?; split_and!; [done..|by intros s0 [_ Hx]%Hdem; apply Hx]]].
    + split; [done|]. by apply (inv_vacate None _ _ (core_handle s)); [|left|..].
    + eapply pres_weaken; [| |apply (pres_vacate (fun p => p <> key)); [done|done|]]; [by left|done|].
      by rewrite <- Ek.
Qed.
End table.
