(* ===== verification/KernelInsert.v ===== *)
(** * Insertion into the kernel's handle table

    [Slots::insert_with_parent] takes a slot of the free list or a new one, files it for its
    owner and counts it at its parent: the invariant of KernelTable.v is kept, and a refused
    insertion changes nothing. *)

From stdpp Require Import base numbers list option relations gmap.
From S2P Require Import Prelude Authority Grant KernelHandles KernelTable.

Local Open Scope N_scope.
Local Open Scope comp_scope.

Section insert.
Context {P : Type}.
Implicit Types (k : Slots P) (s : Slot P) (i : N).

(** ** A new slot *)

Lemma get_snoc_Some {A} (l : list A) x j y :
  get (l ++ [x]) j = Some y <-> get l j = Some y \/ j = len l /\ y = x.
Proof.
  rewrite !get_lookup, lookup_snoc_Some. unfold len. split.
  - intros [[_ ?]|[? ->]]; [by left|right; split; [lia|done]].
  - intros [Hj|[-> ->]]; [left; split; [by eapply lookup_lt_Some|done]|right; split; [lia|done]].
Qed.

Lemma count_snoc ts h p : count (ts ++ [h]) p = count ts p + if is_child p h then 1 else 0.
Proof. induction ts as [|h0 ts IH]; simpl; [lia|]. rewrite IH. lia. Qed.

(** A vacant slot at the end changes nothing for the others. *)
Lemma inv_grow debt ts o r m :
  inv_at debt ts -> inv_at debt (ts ++ [mkHandle o r m (vacant 0)]).
Proof.
  intros []. set (h0 := mkHandle o r m (vacant 0)).
  assert (~ live h0) as Hd by (by intros []).
  assert (forall p, retained (ts ++ [h0]) p -> retained ts p) as Hret.
  { intros p (h & [Hh|[_ ->]]%get_snoc_Some & Hr); [by exists h|]. by apply retains_live in Hr as [? _]. }
  split.
  - intros j h [Hj|[_ ->]]%get_snoc_Some Hl; [by eapply inv_vacant|done].
  - intros j h [Hj|[_ ->]]%get_snoc_Some Hs; [by eapply inv_released|done].
  - intros j h p [Hj|[_ ->]]%get_snoc_Some Hl Hp; [|done].
    destruct (inv_parent _ _ _ Hj Hl Hp) as (hp & Hgp & ?). exists hp. split; [|done]. apply get_snoc_Some. by left.
  - intros j h [Hj|[_ ->]]%get_snoc_Some Hl; [|done]. rewrite count_snoc, (is_child_dead _ _ Hd), N.add_0_r.
    by apply inv_count.
  - destruct inv_rank as [rank Hrank]. exists rank. intros j h p [Hj|[_ ->]]%get_snoc_Some Hl Hp Hr; [|done]. eauto.
  - intros j h [Hj|[_ ->]]%get_snoc_Some; [by eapply inv_width|done].
  - intros j h [Hj|[_ ->]]%get_snoc_Some Hl; [by eapply inv_positive|done].
Qed.

Definition fresh_slot : Slot P := mkKSlot (vacant 0) 0 0 None.
Definition grown k : Slots P := with_table_slots k (table_slots k ++ [fresh_slot]).

Lemma core_grown k : core (grown k) = core k ++ [core_handle fresh_slot].
Proof. unfold core, grown. simpl. by rewrite fmap_app. Qed.

Lemma kinv_grown debt k :
  kinv_at None None debt k -> len (table_slots k) <= u32_max ->
  kinv_at (Some (len (table_slots k))) None debt (grown k).
Proof.
  intros [Hc Hpay Hh [Hnd Hfr] Hix He Hs] Hmax. split; simpl.
  - rewrite core_grown. by apply inv_grow.
  - intros j s [Hj|[_ ->]]%get_snoc_Some; [by eapply Hpay|]. split; [by intros []|done].
  - intros j s h [Hj|[_ ->]]%get_snoc_Some; [by eapply Hh|done].
  - split; [done|]. intros j. rewrite Hfr. split.
    + intros (s & Hj & Hr & _). exists s. rewrite get_snoc_Some. split_and!; [by left|done|].
      apply get_Some_lt in Hj. intros [= E]. lia.
    + intros (s & [Hj|[-> ->]]%get_snoc_Some & Hr & Hne); [by exists s|done].
  - intros o q j. rewrite (Hix o q j). unfold filed. simpl. split.
    + intros (s & Hj & ?). exists s. split; [|done]. rewrite get_snoc_Some. by left.
    + intros (s & [Hj|[-> ->]]%get_snoc_Some & [Hl|] & ?); [by exists s; auto|done|by destruct Hl|done].
  - exact He.
  - unfold len in *. rewrite length_app. simpl. lia.
Qed.

(** The last slot of the free list is taken. *)
Definition popped k : Slots P := with_free k (take (length (table_free k) - 1) (table_free k)).

Lemma kinv_popped debt k i :
  kinv_at None None debt k -> list.last (table_free k) = Some i ->
  kinv_at (Some i) None debt (popped k) /\
  exists s, get (table_slots k) i = Some s /\ reusable (slot_authority s) = true.
Proof.
  intros [Hc Hpay Hh [Hnd Hfr] Hix He Hs] Hlast.
  apply last_Some in Hlast as [l El].
  assert (take (length (table_free k) - 1) (table_free k) = l) as Et.
  { rewrite El, length_app. simpl. rewrite Nat.add_sub. by rewrite take_app_length. }
  assert (NoDup (l ++ [i])) as (Hl & Hi & _)%NoDup_app by (by rewrite <- El).
  assert (exists s, get (table_slots k) i = Some s /\ reusable (slot_authority s) = true) as Hsi.
  { assert (i ∈ table_free k) as (s & ? & ? & _)%Hfr by (rewrite El; set_solver). by exists s. }
  split; [|done]. split; try done. simpl. rewrite Et. split; [done|]. intros j. split.
  - intros Hj. assert (j ∈ table_free k) as (s & ? & ? & _)%Hfr by (rewrite El; set_solver).
    exists s. split_and!; [done|done|]. intros [= ->]. by apply (Hi j Hj), list_elem_of_singleton.
  - intros (s & Hj & Hr & Hne). assert (j ∈ table_free k) as Hin by (apply Hfr; by exists s).
    rewrite El in Hin. apply elem_of_app in Hin as [?| ->%list_elem_of_singleton]; done.
Qed.

(** ** Occupying the slot *)

Lemma owner_insert_spec k o i e position :
  owner_insert (table_by_owner k !! o) i = (e, position) ->
  (forall l, table_by_owner k !! o = Some (Many l) -> 2 <= len l) ->
  owner_indices e = owner_list k o ++ [i] /\ position = len (owner_list k o) /\ forall l, e = Many l -> 2 <= len l.
Proof.
  unfold owner_insert, owner_list. destruct (table_by_owner k !! o) as [[first|l]|]; intros [= <- <-] Hm; simpl.
  - split_and!; [done|done|]. by intros l [= <-].
  - split_and!; [done|done|]. intros l' [= <-]. specialize (Hm l eq_refl). unfold len in *. rewrite length_app. simpl. lia.
  - done.
Qed.

(** A slot filed for its owner by the insertion. *)
Definition installed_slot s0 (debt : option HandleKey) o position (h : KHandle P) : Slot P :=
  mkKSlot (mkSlot (slot_generation (slot_authority s0) + 1) Active debt 0) o position (Some h).

Lemma occupy_index debt k k' i s0 o e position h :
  kinv_at (Some i) None debt k -> get (table_slots k) i = Some s0 -> ~ slive s0 ->
  owner_insert (table_by_owner k !! o) i = (e, position) ->
  table_slots k' = upd (table_slots k) i (installed_slot s0 debt o position h) ->
  table_by_owner k' = <[o := e]> (table_by_owner k) ->
  forall o' q j, get (owner_list k' o') q = Some j <-> filed None k' o' q j.
Proof.
  intros Hk Hi Hd He Hs Hb o' q j. pose proof (get_Some_lt _ _ _ Hi) as Hlt.
  destruct (owner_insert_spec _ _ _ _ _ He (ki_entry _ _ _ _ Hk o)) as (El & Ep & _).
  assert (get (owner_list k' o') q = Some j <->
    get (owner_list k o') q = Some j \/ o' = o /\ q = position /\ j = i) as ->.
  { destruct (decide (o' = o)) as [->|Hne].
    - rewrite (owner_list_insert _ _ _ _ Hb), El, get_snoc_Some, Ep. naive_solver.
    - unfold owner_list. rewrite Hb, lookup_insert_ne by done. naive_solver. }
  rewrite (ki_index _ _ _ _ Hk). unfold filed. rewrite Hs. split.
  - intros [(s & Hj & [Hl|] & ?)|(-> & -> & ->)]; [|done|].
    + exists s. rewrite get_upd_ne by (intros ->; by simplify_eq). auto.
    + eexists. rewrite get_upd_eq by done. by split_and!; [|left|..].
  - intros (s & [[-> ->]|[Hne Hj]]%get_upd_inv & Hl & Eo & Eq); [by right|left|done].
    exists s. destruct Hl; auto.
Qed.

Lemma kinv_occupy debt k k' i s0 o e position h :
  kinv_at (Some i) None debt k -> get (table_slots k) i = Some s0 -> reusable (slot_authority s0) = true ->
  (forall p, debt = Some p -> exists sp, get (table_slots k) (key_slot p) = Some sp /\
     retains (slot_authority sp) (key_generation p) = true) ->
  owner_insert (table_by_owner k !! o) i = (e, position) ->
  handle_id h = mkKey i (slot_generation (slot_authority s0) + 1) -> handle_process h = o ->
  table_slots k' = upd (table_slots k) i (installed_slot s0 debt o position h) ->
  table_free k' = table_free k -> table_by_owner k' = <[o := e]> (table_by_owner k) -> kinv k'.
Proof.
  intros Hk Hi Hre Hpar He Hid Hproc Hs Hf Hb. pose proof (get_Some_lt _ _ _ Hi) as Hlt.
  pose proof (reusable_dead _ Hre) as Hd. pose proof (occupy_index _ _ _ _ _ _ _ _ _ Hk Hi Hd He Hs Hb) as Hix'.
  destruct (owner_insert_spec _ _ _ _ _ He (ki_entry _ _ _ _ Hk o)) as (_ & _ & Hmany).
  destruct Hk as [Hc Hpay Hh [Hnd Hfr] Hix Hent Hsz].
  set (s' := installed_slot s0 debt o position h) in *.
  assert (forall j sj, get (table_slots k') j = Some sj ->
    j = i /\ sj = s' \/ j <> i /\ get (table_slots k) j = Some sj) as Hcase.
  { intros j sj Hj. rewrite Hs in Hj. by apply get_upd_inv in Hj. }
  split.
  - rewrite (core_upd _ _ _ _ Hs). apply (inv_occupy debt _ i (core_handle s0)); [done|by apply get_core_Some|done|..].
    + by apply andb_true_iff in Hre as [_ ?%N.ltb_lt].
    + intros p [sp [Hp Hr]]%Hpar. exists (core_handle sp). split_and!; [by apply get_core_Some|done|done|done].
  - intros j sj [[-> ->]|[_ Hj]]%Hcase; [|by eapply Hpay]. by split.
  - intros j sj hj [[-> ->]|[_ Hj]]%Hcase; [|by eapply Hh]. intros [= <-]. done.
  - rewrite Hf. split; [done|]. intros j. rewrite Hfr, Hs. split.
    + intros (sj & Hj & Hr & Hne). exists sj. rewrite get_upd_ne by congruence. done.
    + intros (sj & [[-> ->]|[Hne Hj]]%get_upd_inv & Hr & _); [done| |done]. exists sj. split_and!; [done|done|congruence].
  - exact Hix'.
  - intros o' l. rewrite Hb. destruct (decide (o' = o)) as [->|Hne].
    + rewrite lookup_insert_eq. intros [= ->]. by apply Hmany.
    + rewrite lookup_insert_ne by done. apply Hent.
  - by rewrite Hs, len_upd.
Qed.

(** ** The insertion *)

(** Counting the new child at its parent. *)
Definition attached k (parent : option HandleKey) : Slots P :=
  match parent with
  | None => k
  | Some p =>
      match get (table_slots k) (key_slot p) with
      | None => k
      | Some sp => with_table_slots k (upd (table_slots k) (key_slot p) (with_authority sp
          (with_children (slot_authority sp) (slot_children (slot_authority sp) + 1))))
      end
  end.

Definition parent_active k (parent : option HandleKey) : Prop :=
  forall p, parent = Some p -> exists sp, get (table_slots k) (key_slot p) = Some sp /\
    matches (slot_authority sp) (key_generation p) = true.

Lemma kinv_attached k parent :
  kinv k -> parent_active k parent -> kinv_at None None parent (attached k parent).
Proof.
  intros Hk Hpar. destruct parent as [p|]; [|done]. destruct (Hpar p eq_refl) as (sp & Hp & Hm).
  unfold attached. rewrite Hp. apply (matches_active (core_handle sp)) in Hm as [Ha Hg].
  assert (slive sp) as Hl by (unfold slive; simpl in Ha; congruence).
  pose proof (get_core_Some _ _ _ Hp) as Hcp.
  pose proof (inv_count _ _ (ki_core _ _ _ _ Hk) _ _ Hcp Hl) as Hcnt. rewrite decide_False in Hcnt by done. simpl in Hcnt.
  assert (p = key_of (key_slot p) (core_handle sp)) as Ep by (unfold key_of; rewrite Hg; by destruct p).
  set (a := with_children (slot_authority sp) (slot_children (slot_authority sp) + 1)).
  destruct (replace_authority (fun _ => True) None (Some p) k (key_slot p) sp a) as [Hk' _]; try done; [by left|..].
  - rewrite core_with_authority. eapply (inv_relabel None); simpl; try done; [apply Hk|intros _; lia|..].
    + rewrite decide_True by congruence. lia.
    + intros j hj Hj _. split; [|done]. intros [= Ej]. rewrite Ej in Hj. by destruct Hj.
  - rewrite core_with_authority. eapply pres_weaken; [| |by eapply (pres_relabel (fun _ => True))]; [|done].
    intros. by right.
  - unfold pending in Hk'. by rewrite decide_True in Hk'.
Qed.

(** Counts of references aside, the slots are as they were. *)
Lemma get_attached k parent j s :
  get (table_slots k) j = Some s ->
  exists n, get (table_slots (attached k parent)) j = Some (with_authority s (with_children (slot_authority s) n)) /\
    (~ slive s -> parent_active k parent -> n = slot_children (slot_authority s)).
Proof.
  intros Hj. assert (with_authority s (with_children (slot_authority s) (slot_children (slot_authority s))) = s) as Es
    by (by destruct s as [[]]).
  assert (forall slots, get slots j = Some s -> exists n,
    get slots j = Some (with_authority s (with_children (slot_authority s) n)) /\
    (~ slive s -> parent_active k parent -> n = slot_children (slot_authority s))) as Hsame.
  { intros slots Hs. eexists. rewrite Hs. split; [by f_equal|done]. }
  destruct parent as [p|]; simpl; [|by apply Hsame].
  destruct (get (table_slots k) (key_slot p)) as [sp|] eqn:Hp; simpl; [|by apply Hsame].
  destruct (decide (key_slot p = j)) as [<-|Hne].
  - eexists. rewrite get_upd_eq by (by eapply get_Some_lt). assert (sp = s) as -> by congruence.
    split; [done|]. intros Hd Hpar. destruct (Hpar p eq_refl) as (sp & Hp' & [Ha _]%(matches_active (core_handle sp))).
    assert (sp = s) as -> by congruence. destruct Hd. unfold slive. simpl in Ha. congruence.
  - apply Hsame. by rewrite get_upd_ne.
Qed.

Lemma attached_same k parent :
  table_free (attached k parent) = table_free k /\ table_by_owner (attached k parent) = table_by_owner k /\
  table_retired (attached k parent) = table_retired k /\ table_limit (attached k parent) = table_limit k /\
  len (table_slots (attached k parent)) = len (table_slots k) /\
  omap slot_handle (table_slots (attached k parent)) = omap slot_handle (table_slots k).
Proof.
  destruct parent as [p|]; [|done]. simpl. destruct (get (table_slots k) (key_slot p)) as [sp|] eqn:Hp; [|done].
  simpl. rewrite len_upd. split_and!; try done. apply omap_fmap_ext. unfold upd.
  rewrite list_fmap_insert. apply list_insert_id. rewrite list_lookup_fmap, <- get_lookup, Hp. done.
Qed.

(** The payload as it is stored. *)
Definition stored (h : KHandle P) (key : HandleKey) : KHandle P :=
  mkKHandle key (handle_process h) (handle_rights h) (handle_payload h).

(** What an insertion does. *)
Record inserted k (h : KHandle P) (parent : option HandleKey) (key : HandleKey) k' : Prop := {
  in_slot : exists s, get (table_slots k') (key_slot key) = Some s /\ sactive s /\
    slot_generation (slot_authority s) = key_generation key /\ slot_parent (slot_authority s) = parent /\
    slot_owner s = handle_process h /\ slot_handle s = Some (stored h key);
  in_fresh : forall s, get (table_slots k) (key_slot key) = Some s ->
    ~ slive s /\ slot_generation (slot_authority s) < key_generation key;
  in_others : forall j s, j <> key_slot key -> get (table_slots k) j = Some s -> exists n,
    get (table_slots k') j = Some (with_authority s (with_children (slot_authority s) n));
  in_payloads : payloads k' ≡ₚ stored h key :: payloads k;
  in_retired : table_retired k' = table_retired k
}.

(** The slot an insertion takes. *)
Definition chosen k i (vacant : bool) s0 : Prop :=
  if vacant then list.last (table_free k) = Some i /\ get (table_slots k) i = Some s0
  else i = len (table_slots k) /\ i <= u32_max /\ s0 = fresh_slot.

Definition claimed k (vacant : bool) : Slots P := if vacant then popped k else grown k.

Lemma kinv_claimed debt k i vacant s0 :
  kinv_at None None debt k -> chosen k i vacant s0 ->
  kinv_at (Some i) None debt (claimed k vacant) /\ get (table_slots (claimed k vacant)) i = Some s0 /\
  reusable (slot_authority s0) = true.
Proof.
  intros Hk Hch. destruct vacant; simpl in *.
  - destruct Hch as [Hlast Hi]. destruct (kinv_popped _ _ _ Hk Hlast) as (? & s & Hi' & Hr).
    simplify_eq. by split_and!.
  - destruct Hch as (-> & Hmax & ->). split_and!; [by apply kinv_grown| |done]. apply get_snoc_Some. by right.
Qed.

Lemma chosen_attached k i vacant s0 parent :
  parent_active k parent -> (forall s, get (table_slots k) i = Some s -> ~ slive s) ->
  chosen k i vacant s0 -> chosen (attached k parent) i vacant s0.
Proof.
  intros Hpar Hd. destruct (attached_same k parent) as (Ef & _ & _ & _ & El & _).
  unfold chosen. rewrite Ef, El. destruct vacant; [|done]. intros [? Hi]. split; [done|].
  destruct (get_attached k parent i s0 Hi) as (n & -> & Hn). rewrite (Hn (Hd _ Hi) Hpar). by destruct s0 as [[]].
Qed.

(** The state the insertion ends in. *)
Definition filled k (vacant : bool) i o e (s : Slot P) : Slots P :=
  let k := claimed k vacant in
  with_by_owner (with_table_slots k (upd (table_slots k) i s)) (<[o := e]> (table_by_owner k)).

Lemma omap_snoc_none {A B} (f : A -> option B) l x : f x = None -> omap f (l ++ [x]) = omap f l.
Proof. intros Hx. induction l as [|y l IH]; csimpl; [by rewrite Hx|]. by rewrite IH. Qed.

Lemma payloads_filled k vacant i o e s0 s h :
  get (table_slots (claimed k vacant)) i = Some s0 -> slot_handle s0 = None -> slot_handle s = Some h ->
  payloads (filled k vacant i o e s) ≡ₚ h :: payloads k.
Proof.
  intros Hi H0 Hs. unfold payloads, filled. simpl.
  pose proof (omap_upd slot_handle _ _ _ s Hi) as Hp. rewrite H0, Hs in Hp. simpl in Hp. rewrite app_nil_r in Hp.
  rewrite Hp. assert (omap slot_handle (table_slots (claimed k vacant)) = omap slot_handle (table_slots k)) as ->.
  { destruct vacant; [done|]. simpl. by apply omap_snoc_none. }
  assert (table_retired (claimed k vacant) = table_retired k) as -> by (by destruct vacant).
  by rewrite <- app_assoc, Permutation_middle.
Qed.

Lemma wp_choose_slot k :
  kinv k -> wp choose_slot (fun c k' => k' = k /\ exists s0, chosen k c.1 c.2 s0) (fun _ k' => k' = k) k.
Proof.
  intros Hk. unfold choose_slot. apply wp_bind, wp_gets. unfold id.
  destruct (list.last (table_free k)) as [i|] eqn:Hlast.
  - apply wp_ret. split; [done|]. destruct (kinv_popped _ _ _ Hk Hlast) as (_ & s & Hi & _). by exists s.
  - destruct (match table_limit k with Some _ => _ | None => _ end); [by apply wp_throw|].
    apply wp_bind, wp_require; [|done]. intros i Hi. apply wp_ret. split; [done|]. exists fresh_slot. simpl.
    unfold u32_try_from in Hi. destruct (N.leb_spec (len (table_slots k)) u32_max); [|done]. by simplify_eq.
Qed.

Lemma chosen_dead k i vacant s0 s :
  kinv k -> chosen k i vacant s0 -> get (table_slots k) i = Some s -> s = s0 /\ ~ slive s.
Proof.
  intros Hk Hch Hs. destruct (kinv_claimed _ _ _ _ _ Hk Hch) as (_ & _ & Hr).
  destruct vacant; simpl in Hch.
  - destruct Hch as [_ Hi]. simplify_eq. split; [done|by apply reusable_dead].
  - destruct Hch as (-> & _). apply get_Some_lt in Hs. lia.
Qed.

Lemma filled_inserted k parent h i vacant s0 e position :
  kinv k -> parent_active k parent -> chosen k i vacant s0 ->
  owner_insert (table_by_owner k !! handle_process h) i = (e, position) ->
  let key := mkKey i (slot_generation (slot_authority s0) + 1) in
  let k' := filled (attached k parent) vacant i (handle_process h) e
              (installed_slot s0 parent (handle_process h) position (stored h key)) in
  kinv k' /\ inserted k h parent key k'.
Proof.
  intros Hk Hpar Hch He key k'. pose proof (fun s => chosen_dead k i vacant s0 s Hk Hch) as Hdead.
  pose proof (kinv_attached k parent Hk Hpar) as Hk1.
  destruct (attached_same k parent) as (_ & Eb & Er & _ & _ & Eo).
  assert (chosen (attached k parent) i vacant s0) as Hch1.
  { apply chosen_attached; [done| |done]. intros s Hs. by apply Hdead. }
  destruct (kinv_claimed _ _ _ _ _ Hk1 Hch1) as (Hk2 & Hi2 & Hre).
  set (k1 := attached k parent) in *. set (k2 := claimed k1 vacant) in *.
  assert (forall j s, get (table_slots k1) j = Some s -> get (table_slots k2) j = Some s) as Hmono.
  { intros j s Hj. unfold k2. destruct vacant; [done|]. apply get_snoc_Some. by left. }
  assert (slot_handle s0 = None) as Hh0.
  { eapply dead_no_handle; [exact Hk2|exact Hi2|]. by apply dead_not_active, reusable_dead. }
  assert (table_by_owner k2 = table_by_owner k) as Eb2 by (rewrite <- Eb; unfold k2; by destruct vacant).
  split.
  - eapply (kinv_occupy parent k2 k' i s0 (handle_process h) e position (stored h key)); try done; [|by rewrite Eb2].
    intros p ->. destruct (Hpar p eq_refl) as (sp & Hp & [Ha Hg]%(matches_active (core_handle sp))).
    destruct (get_attached k (Some p) _ _ Hp) as (n & Hn & _). eexists. split; [by apply Hmono|].
    apply (retains_live (core_handle (with_authority sp (with_children (slot_authority sp) n)))).
    split; [|done]. unfold live. simpl in *. congruence.
  - split.
    + eexists. simpl. rewrite get_upd_eq by (by eapply get_Some_lt). by split_and!.
    + simpl. intros s Hs. destruct (Hdead s Hs) as [-> ?]. split; [done|lia].
    + intros j s Hne Hj. destruct (get_attached k parent j s Hj) as (n & Hn & _). exists n.
      simpl. rewrite get_upd_ne by done. by apply Hmono.
    + etrans; [by apply (payloads_filled k1 vacant i _ e s0 _ (stored h key))|].
      unfold payloads. by rewrite Er, Eo.
    + simpl. rewrite <- Er. by destruct vacant.
Qed.

Lemma wp_handles_insert_with_parent h parent k :
  kinv k -> parent_active k parent ->
  wp (handles_insert_with_parent h parent)
    (fun key k' => kinv k' /\ inserted k h parent key k') (fun _ k' => k' = k) k.
Proof.
  intros Hk Hpar. unfold handles_insert_with_parent. apply wp_bind.
  eapply wp_mono; [by apply wp_choose_slot| |done]. intros [i vacant] _k [-> [s0 Hch]]. simpl in Hch.
  destruct (kinv_claimed _ _ _ _ _ Hk Hch) as (Hk2 & Hi2 & Hre).
  apply wp_bind. apply (wp_mono _ (fun a k' => a = slot_authority s0 /\ k' = k) _ (fun _ _ => False)); [| |done].
  { destruct vacant; simpl in Hch; [|apply wp_ret; by destruct Hch as (_ & _ & ->)].
    unfold slot_at. apply wp_bind, wp_bind, wp_gets. unfold id. by eapply wp_expect; [apply Hch|]. }
  intros a _k [-> ->]. apply wp_bind, wp_lift_result; [|done].
  assert (slot_children (slot_authority s0) = 0) as Ech.
  { pose proof (get_core_Some _ _ _ Hi2) as Hc. pose proof (reusable_dead _ Hre) as Hd.
    pose proof (inv_vacant _ _ (ki_core _ _ _ _ Hk2) _ _ Hc Hd) as Ev. simpl in Ev. by rewrite Ev. }
  unfold slot_install. rewrite Hre, Ech. simpl. intros [generation authority].
  destruct (match parent with Some _ => _ | None => _ end); [done|]. intros [= <- <-].
  apply wp_bind, wp_gets. unfold id.
  destruct (owner_insert (table_by_owner k !! handle_process h) i) as [e position] eqn:He.
  apply wp_bind, wp_require; [|done]. intros position' Hpos.
  assert (position' = position) as ->.
  { unfold u32_try_from in Hpos. by destruct (position <=? u32_max); simplify_eq. }
  clear Hpos. apply wp_bind.
  apply (wp_mono _ (fun _ k' => k' = attached k parent) _ (fun _ k' => k' = k)); [| |done].
  { destruct parent as [p|]; [|done]. destruct (Hpar p eq_refl) as (sp & Hp & Hm). simpl. rewrite Hp.
    unfold slot_at. apply wp_bind, wp_bind, wp_gets. unfold id. eapply wp_expect; [done|].
    apply wp_bind, wp_lift_result; [|done]. unfold attach_child. rewrite Hm. simpl. intros a.
    destruct (checked_add usize_max _ 1) as [n|] eqn:Hn; [|done]. intros [= <-].
    apply checked_add_Some in Hn as [-> _]. by apply wp_modify. }
  intros [] _k ->.
  pose proof (filled_inserted k parent h i vacant s0 e position Hk Hpar Hch He) as [Hk' Hin].
  destruct (attached_same k parent) as (_ & _ & _ & _ & El & _).
  apply wp_bind, wp_modify, wp_bind. destruct vacant.
  - apply wp_bind, wp_modify, wp_modify, wp_ret. split; [exact Hk'|exact Hin].
  - apply wp_modify, wp_ret. destruct Hch as (-> & _).
    match goal with |- kinv ?x /\ _ => replace x with (filled (attached k parent) false (len (table_slots k)) (handle_process h) e
      (installed_slot s0 parent (handle_process h) position (stored h (mkKey (len (table_slots k))
        (slot_generation (slot_authority s0) + 1))))) end; [done|].
    unfold filled, with_by_owner, with_table_slots. simpl. f_equal.
    rewrite <- El. unfold upd, len. rewrite Nnat.Nat2N.id, insert_app_r_alt by done. by rewrite Nat.sub_diag.
Qed.
End insert.
