(* ===== verification/KernelProps.v ===== *)
(** * What the kernel's handle table guarantees

    Retrieval, derivation, and the cleanup of a process, over the invariant of KernelTable.v:
    the table never stops the kernel, loses no payload, and a process gives up its own
    handles and nobody else's. *)

From stdpp Require Import base numbers list option relations gmap.
From S2P Require Import Prelude Authority Grant KernelHandles KernelTable KernelInsert.

Local Open Scope N_scope.
Local Open Scope comp_scope.

Section props.
Context {P : Type}.
Implicit Types (k : Slots P) (s : Slot P) (i o : N).

(** ** Retrieval *)

Lemma validate_chain_ext n lookup lookup' parent :
  (forall key, lookup key = lookup' key) ->
  validate_chain n lookup parent = validate_chain n lookup' parent.
Proof.
  intros E. revert parent. induction n as [|n IH]; intros [key|]; simpl; try done.
  rewrite E. destruct (lookup' key); [|done]. by rewrite IH.
Qed.

Lemma handles_get_iff k key h :
  kinv k -> handles_get k key = Some h <->
  valid (core k) key /\ exists s, get (table_slots k) (key_slot key) = Some s /\ slot_handle s = Some h.
Proof.
  intros Hk. unfold handles_get, handles_validate.
  destruct (get (table_slots k) (key_slot key)) as [s|] eqn:Hs.
  2: { split; [done|]. intros (_ & s & ? & _). done. }
  pose proof (get_handle_iff (core k) key (slot_owner s) (core_handle s) (ki_core _ _ _ _ Hk)) as Hg.
  rewrite (get_core_Some _ _ _ Hs) in Hg. unfold get_handle in Hg. rewrite (get_core_Some _ _ _ Hs) in Hg.
  simpl in Hg. rewrite N.eqb_refl in Hg. simpl in Hg. unfold slot_validate in *. rewrite len_core in Hg.
  rewrite (validate_chain_ext _ (handles_lookup k) (lookup_slot (core k))).
  2: { intros p. unfold handles_lookup, lookup_slot. rewrite get_core. by destruct (get (table_slots k) (key_slot p)). }
  destruct (negb _); [|destruct (validate_chain _ _ _) as [[]|]]; simpl; naive_solver.
Qed.

Lemma valid_active k key : valid (core k) key ->
  exists s, get (table_slots k) (key_slot key) = Some s /\ sactive s /\
    slot_generation (slot_authority s) = key_generation key.
Proof. intros (l & h & (s & Hs & ->)%core_lookup & Ha & Hg & _). by exists s. Qed.

(** Retrieval answers exactly the valid handles, each with its own id. *)
Lemma handles_get_valid k key : kinv k -> (exists h, handles_get k key = Some h) <-> valid (core k) key.
Proof.
  intros Hk. split; [intros [h [? _]%handles_get_iff]; done|]. intros Hv.
  destruct (valid_active _ _ Hv) as (s & Hs & Ha & _).
  destruct (proj2 (ki_payload _ _ _ _ Hk _ _ Hs) Ha) as [h Hh]. exists h. apply handles_get_iff; [done|].
  split; [done|]. by exists s.
Qed.

Lemma handles_get_fields k key h : kinv k -> handles_get k key = Some h ->
  handle_id h = key /\ exists s, get (table_slots k) (key_slot key) = Some s /\ sactive s /\
    slot_owner s = handle_process h.
Proof.
  intros Hk [Hv (s & Hs & Hh)]%handles_get_iff; [|done]. destruct (valid_active _ _ Hv) as (s' & Hs' & Ha & Hg).
  simplify_eq. destruct (ki_handle _ _ _ _ Hk _ _ _ Hs Hh) as [Eid Ep]. split; [|by exists s].
  rewrite Eid, Hg. by destruct key.
Qed.

(** What giving up authority leaves alone can still be retrieved. *)
Lemma shrinks_get A (C : HandleKey -> Prop) k k' key l :
  kinv k -> kinv k' -> shrinks A C k k' -> valid_via (core k) key l -> A (key_slot key) ->
  (forall p, p ∈ l -> C p) -> handles_get k' key = handles_get k key.
Proof.
  intros Hk Hk' Hsh Hv HA HC. destruct (pres_valid _ _ _ _ _ _ (sh_core _ _ _ _ Hsh) Hv HA HC) as [Hv' _].
  destruct (proj2 (handles_get_valid k key Hk) (ex_intro _ l Hv)) as [h Hh]. rewrite Hh.
  apply handles_get_iff; [done|]. split; [by exists l|].
  apply handles_get_iff in Hh as (_ & s & Hs & Eh); [|done].
  destruct (valid_active k' key (ex_intro _ l Hv')) as (s' & Hs' & Ha & _). exists s'. split; [done|].
  destruct (sh_slot _ _ _ _ Hsh _ _ _ Hs Hs') as [_ Hact]. destruct (Hact Ha) as [_ ->]. done.
Qed.

(** ** Process cleanup *)

(** The active slots of a process. *)
Definition held o k : N := len (filter (fun s => sactive s /\ slot_owner s = o) (table_slots k)).

(** Two lists that agree on a predicate but at one position. *)
Lemma len_filter_one {A} (Q : A -> Prop) `{forall x, Decision (Q x)} (l l' : list A) i x y :
  length l' = length l ->
  (forall j a b, get l j = Some a -> get l' j = Some b -> j <> i -> Q b <-> Q a) ->
  get l i = Some x -> Q x -> get l' i = Some y -> ~ Q y -> len (filter Q l') + 1 = len (filter Q l).
Proof.
  intros Hlen Hall Hx HQ Hy HnQ. rewrite get_lookup in Hx, Hy.
  setoid_rewrite get_lookup in Hall. assert (forall j a b, l !! j = Some a -> l' !! j = Some b ->
    j <> N.to_nat i -> Q b <-> Q a) as Hall'.
  { intros j a b Ha Hb Hj. apply (Hall (N.of_nat j)); [by rewrite Nnat.Nat2N.id..|lia]. }
  clear Hall. revert Hall' Hx Hy. generalize (N.to_nat i). clear i. unfold len.
  revert l' Hlen. induction l as [|a l IH]; intros [|b l'] Hlen [|i] Hall Hx Hy; simplify_eq/=.
  - rewrite filter_cons_False, filter_cons_True by done. simpl. assert (filter Q l' = [] ++ filter Q l') as _ by done.
    enough (length (filter Q l') = length (filter Q l)) by lia. clear IH.
    assert (forall j a b, l !! j = Some a -> l' !! j = Some b -> Q b <-> Q a) as Hj.
    { intros j a b Ha Hb. apply (Hall (S j)); done. }
    clear Hall. revert l' Hlen Hj. induction l as [|a l IH]; intros [|b l'] Hlen Hj; simplify_eq/=; [done|].
    specialize (IH l' Hlen (fun j => Hj (S j))). pose proof (Hj 0%nat a b eq_refl eq_refl).
    rewrite !filter_cons. repeat case_decide; simpl; try lia; tauto.
  - specialize (IH l' Hlen i). pose proof (Hall 0%nat a b eq_refl eq_refl ltac:(done)).
    assert (N.of_nat (length (filter Q l')) + 1 = N.of_nat (length (filter Q l))) as E.
    { apply IH; [|done|done]. intros j ? ? ? ? ?. apply (Hall (S j)); [done|done|lia]. }
    rewrite !filter_cons. repeat case_decide; simpl; try lia; tauto.
Qed.

Lemma slots_length A C k k' : shrinks A C k k' -> length (table_slots k') = length (table_slots k).
Proof. intros Hsh. pose proof (pres_len _ _ _ _ (sh_core _ _ _ _ Hsh)) as E. rewrite !len_core in E. unfold len in E. lia. Qed.

(** Ending one active handle of a process. *)
Lemma held_released C k k' i s o :
  shrinks (fun j => j <> i) C k k' -> get (table_slots k) i = Some s -> sactive s -> slot_owner s = o ->
  (forall s', get (table_slots k') i = Some s' -> ~ sactive s') -> held o k' + 1 = held o k.
Proof.
  intros Hsh Hi Ha Ho Hna. destruct (pres_slot _ _ _ _ _ _ (sh_core _ _ _ _ Hsh) Hi) as (s' & Hi' & _).
  unfold held. eapply (len_filter_one _ _ _ i s s'); [by eapply slots_length| |done|done|done|].
  - intros j a b Hj Hj' Hne. destruct (pres_slot _ _ _ _ _ _ (sh_core _ _ _ _ Hsh) Hj) as (b' & Hb' & Eo & _ & _ & Hact).
    simplify_eq. rewrite Eo. destruct (sh_slot _ _ _ _ Hsh _ _ _ Hj Hj') as [_ Hback].
    split; intros [? ?]; (split; [|done]); [by apply Hback|by apply Hact].
  - intros [? _]. by eapply Hna.
Qed.

Lemma held_zero o k : (forall i s, get (table_slots k) i = Some s -> slot_owner s = o -> ~ sactive s) -> held o k = 0.
Proof.
  intros Hn. unfold held. destruct (filter _ _) as [|s l] eqn:E; [done|].
  assert (s ∈ s :: l) as Hs by (by left). rewrite <- E in Hs. apply list_elem_of_filter in Hs as [[Ha Ho] Hs].
  apply list_elem_of_lookup in Hs as [n Hs]. rewrite <- (Nnat.Nat2N.id n), <- get_lookup in Hs.
  by destruct (Hn _ _ Hs Ho).
Qed.

(** A process with an empty index has no live slot. *)
Lemma unfiled_dead o k i s :
  kinv k -> owner_list k o = [] -> get (table_slots k) i = Some s -> slot_owner s = o -> ~ slive s.
Proof.
  intros Hk He Hi Ho Hl. assert (get (owner_list k o) (slot_owner_position s) = Some i) as Hx.
  { apply (ki_index _ _ _ _ Hk). exists s. auto. }
  rewrite He in Hx. by destruct (N.nlt_0_r _ (get_Some_lt _ _ _ Hx)).
Qed.

Lemma owner_entry o k e : table_by_owner k !! o = Some e -> owner_list k o = owner_indices e.
Proof. unfold owner_list. by intros ->. Qed.

Lemma owner_at_get e q : owner_at e q = get (owner_indices e) q.
Proof. destruct e as [i|l]; [|done]. simpl. by destruct q as [|[]]. Qed.

Lemma owner_len_indices e : owner_len e = len (owner_indices e).
Proof. by destruct e. Qed.

(** What a cleanup of [o] that started in [k0] has done by [k]. *)
Definition cleaning (C : HandleKey -> Prop) o k0 k : Prop :=
  kinv k /\ shrinks (fun j => forall s, get (table_slots k0) j = Some s -> slot_owner s <> o) C k0 k.

Lemma shrinks_owner A C k k' i s :
  shrinks A C k k' -> get (table_slots k') i = Some s ->
  exists s0, get (table_slots k) i = Some s0 /\ slot_owner s0 = slot_owner s.
Proof.
  intros Hsh Hi. assert (exists s0, get (table_slots k) i = Some s0) as [s0 Hi0].
  { apply get_lt. apply get_Some_lt in Hi. pose proof (pres_len _ _ _ _ (sh_core _ _ _ _ Hsh)) as E.
    rewrite !len_core in E. lia. }
  destruct (pres_slot _ _ _ _ _ _ (sh_core _ _ _ _ Hsh) Hi0) as (s1 & Hi1 & Eo & _). simplify_eq. by exists s0.
Qed.

Lemma cleaning_step (C C' : HandleKey -> Prop) o k0 k k' i s :
  cleaning C o k0 k -> get (table_slots k) i = Some s -> slot_owner s = o -> kinv k' ->
  shrinks (fun j => j <> i) C' k k' -> (forall p, C p -> C' p) -> cleaning C o k0 k'.
Proof.
  intros [Hk Hsh] Hi Ho Hk' Hsh' HC. split; [done|].
  eapply shrinks_weaken; [| |eapply shrinks_trans; [exact Hsh|exact Hsh']]; [|by intros p Hp; split; [exact Hp|apply HC]].
  intros j Hj. split; [done|]. intros ->. destruct (shrinks_owner _ _ _ _ _ _ Hsh Hi) as (s0 & Hs0 & Eo).
  destruct (Hj s0 Hs0). congruence.
Qed.

(** The slot at a position of a process. *)
Lemma filed_at o k q i : kinv k -> get (owner_list k o) q = Some i ->
  exists s, get (table_slots k) i = Some s /\ slive s /\ slot_owner s = o /\ slot_owner_position s = q.
Proof. intros Hk (s & Hs & [Hl|] & Ho & Hq)%(ki_index _ _ _ _ Hk); [|done]. by exists s. Qed.

Lemma filed_unique o k q i i' s' :
  kinv k -> get (owner_list k o) q = Some i -> get (table_slots k) i' = Some s' -> slive s' ->
  slot_owner s' = o -> slot_owner_position s' = q -> i' = i.
Proof.
  intros Hk Hi Hs' Hl Ho Hq. assert (get (owner_list k o) q = Some i') as Hx; [|congruence].
  apply (ki_index _ _ _ _ Hk). exists s'. auto.
Qed.

(** Every active slot of the process lies before the cursor. *)
Definition before k o (remaining : N) : Prop :=
  forall i s, get (table_slots k) i = Some s -> slot_owner s = o -> sactive s -> slot_owner_position s < remaining.

Lemma active_live s : sactive s -> slive s.
Proof. unfold sactive, slive. by intros ->. Qed.

(** Releasing the slot at the cursor moves it down by one. *)
Lemma before_step C o k k' i s q (released : bool) remaining :
  kinv k -> before k o remaining -> get (owner_list k o) q = Some i ->
  q = N.min remaining (len (owner_list k o)) - 1 -> get (table_slots k) i = Some s ->
  shrinks (fun j => j <> i) C k k' -> (released = false -> k' = k /\ ~ sactive s) ->
  (released = true -> forall s', get (table_slots k') i = Some s' -> ~ sactive s') -> before k' o q.
Proof.
  intros Hk Hb Hq Eq Hi Hsh Hno Hyes j s' Hj' Ho Ha'.
  assert (exists sj, get (table_slots k) j = Some sj) as [sj Hj].
  { apply get_lt. apply get_Some_lt in Hj'. pose proof (slots_length _ _ _ _ Hsh). unfold len in *. lia. }
  destruct (pres_slot _ _ _ _ _ _ (sh_core _ _ _ _ Hsh) Hj) as (s2 & Hj2 & Eo & _). simplify_eq.
  destruct (sh_slot _ _ _ _ Hsh _ _ _ Hj Hj') as [Hpos Hact]. destruct (Hact Ha') as [Ha _].
  specialize (Hpos (active_live _ Ha')). rewrite Eo in *.
  pose proof (Hb j sj Hj eq_refl Ha) as Hlt.
  assert (slot_owner_position sj < len (owner_list k (slot_owner sj))) as Hlen.
  { eapply get_Some_lt. apply (ki_index _ _ _ _ Hk). exists sj. split_and!; [done|left; by apply active_live|done|done]. }
  destruct (decide (slot_owner_position sj = N.min remaining (len (owner_list k (slot_owner sj))) - 1)) as [E|]; [|lia].
  assert (j = i) as -> by (eapply filed_unique; try done; by apply active_live). exfalso.
  destruct released; [by eapply Hyes|]. destruct (Hno eq_refl) as [_ Hna]. by simplify_eq.
Qed.

Lemma wp_release_owned_loop {X} fuel o k0 k remaining count :
  cleaning (fun _ => True) o k0 k -> before k o remaining -> (N.to_nat remaining < fuel)%nat ->
  wp (release_owned_loop fuel o remaining count)
    (fun n k' => cleaning (fun _ => True) o k0 k' /\ before k' o 0 /\ n = count + held o k) (fun (_ : X) _ => False) k.
Proof.
  revert k remaining count. induction fuel as [|fuel IH]; intros k remaining count [Hk Hsh] Hb Hf; [lia|].
  cbn [release_owned_loop]. apply wp_bind, wp_gets. unfold id.
  assert (before k o 0 -> cleaning (fun _ => True) o k0 k /\ before k o 0 /\ count = count + held o k) as Hend.
  { intros H0. split_and!; [done|done|]. rewrite held_zero; [lia|]. intros i s Hi Ho Ha.
    specialize (H0 i s Hi Ho Ha). lia. }
  destruct (table_by_owner k !! o) as [e|] eqn:He.
  2: { apply wp_ret, Hend. intros i s Hi Ho Ha.
       by destruct (unfiled_dead o k i s Hk (owner_list_none _ _ He) Hi Ho (active_live _ Ha)). }
  pose proof (owner_entry _ _ _ He) as El. rewrite owner_len_indices, <- El.
  destruct (checked_sub _ 1) as [q|] eqn:Hq.
  2: { apply wp_ret, Hend. intros i s Hi Ho Ha. pose proof (Hb i s Hi Ho Ha).
       assert (get (owner_list k o) (slot_owner_position s) = Some i) as Hx%get_Some_lt.
       { apply (ki_index _ _ _ _ Hk). exists s. split_and!; [done|left; by apply active_live|done|done]. }
       unfold checked_sub in Hq. destruct (N.leb_spec 1 (N.min remaining (len (owner_list k o)))); [done|lia]. }
  apply checked_sub_Some in Hq as [-> Hle]. rewrite owner_at_get, <- El.
  destruct (get (owner_list k o) _) as [i|] eqn:Hi; [|apply get_None in Hi; lia].
  destruct (filed_at _ _ _ _ Hk Hi) as (s & Hs & Hl & Ho & Hp).
  unfold slot_at. apply wp_bind, wp_bind, wp_gets. unfold id. eapply wp_expect; [done|].
  apply wp_bind. eapply wp_mono; [by apply wp_handles_release| |done].
  intros released k' (Hk' & Hsh' & Hm & Hafter). specialize (Hm s Hs). simpl in Hm, Hsh', Hafter.
  assert (released = bool_decide (sactive s)) as Er.
  { rewrite Hm. unfold matches. rewrite N.eqb_refl, andb_true_r. done. }
  set (q := N.min remaining (len (owner_list k o)) - 1) in *.
  eapply wp_mono; [apply (IH k' q)| |done].
  - eapply (cleaning_step (fun _ => True) (fun _ => True) o k0 k k' i s); [split; assumption|done|done|done|done|done].
  - eapply (before_step _ o k k' i s q released remaining); try done.
    + intros ->. split; [done|]. symmetry in Er. by apply bool_decide_eq_false in Er.
    + by intros ->.
  - lia.
  - intros n k2 (? & ? & ->). split_and!; [done|done|]. destruct released.
    + symmetry in Er. apply bool_decide_eq_true in Er.
      pose proof (held_released _ _ _ _ _ _ Hsh' Hs Er Ho Hafter). lia.
    + rewrite Hafter. lia.
Qed.

Lemma lives_lost ts ts' i h h' :
  length ts' = length ts -> (forall j a b, get ts j = Some a -> get ts' j = Some b -> live b -> live a) ->
  get ts i = Some h -> live h -> get ts' i = Some h' -> ~ live h' -> (lives ts' < lives ts)%nat.
Proof.
  setoid_rewrite get_lookup. intros Hlen Hall Hi Hl Hi' Hd.
  assert (forall j a b, ts !! j = Some a -> ts' !! j = Some b -> live b -> live a) as Hall'.
  { intros j a b Ha Hb. apply (Hall (N.of_nat j)); by rewrite Nnat.Nat2N.id. }
  clear Hall. revert Hi Hi'. generalize (N.to_nat i). clear i. revert ts' Hlen Hall'.
  assert (forall ts ts' : HandleTable, length ts' = length ts ->
    (forall j a b, ts !! j = Some a -> ts' !! j = Some b -> live b -> live a) -> (lives ts' <= lives ts)%nat) as Hle.
  { clear. induction ts as [|a ts IH]; intros [|b ts'] Hlen Hall; simplify_eq/=; [done|].
    specialize (IH ts' Hlen (fun j => Hall (S j))). specialize (Hall 0%nat a b eq_refl eq_refl).
    repeat case_decide; first [lia | tauto]. }
  induction ts as [|a ts IH]; intros [|b ts'] Hlen Hall [|i] Hi Hi'; simplify_eq/=.
  - specialize (Hle ts ts' Hlen (fun j => Hall (S j))). rewrite decide_False, decide_True by done. lia.
  - specialize (IH ts' Hlen (fun j => Hall (S j)) i Hi Hi'). specialize (Hall 0%nat a b eq_refl eq_refl).
    repeat case_decide; first [lia | tauto].
Qed.

(** Keys that do not belong to the process. *)
Definition foreign k0 o (p : HandleKey) : Prop :=
  forall s, get (table_slots k0) (key_slot p) = Some s -> slot_owner s <> o.

Lemma owner_first_get k o e : kinv k -> table_by_owner k !! o = Some e ->
  exists i, owner_first e = Some i /\ get (owner_list k o) 0 = Some i.
Proof.
  intros Hk He. rewrite (owner_entry _ _ _ He). destruct e as [i|l]; simpl; [by exists i|].
  pose proof (ki_entry _ _ _ _ Hk _ _ He). destruct (get_lt l 0) as [i Hi]; [lia|]. by exists i.
Qed.

Lemma wp_revoke_owned_loop {X} fuel o k0 k count :
  cleaning (foreign k0 o) o k0 k -> (lives (core k) < fuel)%nat ->
  wp (revoke_owned_loop fuel o count)
    (fun _ k' => cleaning (foreign k0 o) o k0 k' /\ owner_list k' o = []) (fun (_ : X) _ => False) k.
Proof.
  revert k count. induction fuel as [|fuel IH]; intros k count [Hk Hsh] Hf; [lia|].
  cbn [revoke_owned_loop]. apply wp_bind, wp_gets. unfold id.
  destruct (table_by_owner k !! o) as [e|] eqn:He.
  2: { apply wp_ret. split; [by split|by apply owner_list_none]. }
  destruct (owner_first_get _ _ _ Hk He) as (i & Hfirst & Hi).
  destruct (filed_at _ _ _ _ Hk Hi) as (s & Hs & Hl & Ho & _).
  apply wp_bind. eapply wp_expect; [done|]. unfold slot_at. apply wp_bind, wp_bind, wp_gets. unfold id.
  eapply wp_expect; [done|]. apply wp_bind. eapply wp_mono; [by apply wp_handles_revoke| |done].
  intros b k' (Hk' & Hsh' & Hb & Hafter). specialize (Hb s Hs). simpl in Hb, Hsh', Hafter.
  assert (b = true) as ->.
  { rewrite Hb. apply (retains_live (core_handle s)). by split. }
  apply IH.
  - eapply cleaning_step; [split; [exact Hk|exact Hsh]|exact Hs|exact Ho|done|exact Hsh'|].
    intros p Hp ->. destruct (shrinks_owner _ _ _ _ _ _ Hsh Hs) as (s0 & Hs0 & Eo).
    apply (Hp s0 Hs0). congruence.
  - enough (lives (core k') < lives (core k))%nat by lia.
    destruct (pres_slot _ _ _ _ _ _ (sh_core _ _ _ _ Hsh') Hs) as (s' & Hs' & _).
    pose proof (slots_length _ _ _ _ Hsh') as Elen.
    eapply (lives_lost _ _ i); [unfold core; by rewrite !length_fmap| |by apply get_core_Some|done
      |by apply get_core_Some|by apply (Hafter s')].
    intros j a b' Ha Hb' Hlive. destruct (pres_get _ _ _ _ (sh_core _ _ _ _ Hsh') _ _ Ha) as (b2 & Hb2 & _ & _ & _ & _ & Hlv & _).
    assert (b2 = b') as -> by congruence. by apply Hlv.
Qed.

(** ** Insertion and derivation *)

Lemma inserted_other k h parent key k' j s :
  inserted k h parent key k' -> get (table_slots k) j = Some s -> slive s ->
  exists n, get (table_slots k') j = Some (with_authority s (with_children (slot_authority s) n)).
Proof.
  intros Hin Hj Hl. apply (in_others _ _ _ _ _ Hin); [|done]. intros ->.
  by destruct (in_fresh _ _ _ _ _ Hin s Hj).
Qed.

Lemma kernel_inserted_chain k h parent key k' po l :
  inserted k h parent key k' -> chain (core k) po l -> chain (core k') po l.
Proof.
  intros Hin. induction 1 as [|p hp l (sp & Hp & ->)%core_lookup Hr Hc IH]; [constructor|].
  pose proof Hr as [Hl _]%retains_live. destruct (inserted_other _ _ _ _ _ _ _ Hin Hp Hl) as [n Hn].
  econstructor; [apply core_lookup; by eexists|exact Hr|exact IH].
Qed.

(** Whatever could be retrieved still can. *)
Lemma inserted_get k h parent key k' key' h' :
  kinv k -> kinv k' -> inserted k h parent key k' ->
  handles_get k key' = Some h' -> handles_get k' key' = Some h'.
Proof.
  intros Hk Hk' Hin [[l (hd & (s & Hs & ->)%core_lookup & Ha & Hg & Hc)] (s' & Hs' & Hh)]%handles_get_iff; [|done].
  simplify_eq. destruct (inserted_other _ _ _ _ _ _ _ Hin Hs (active_live _ Ha)) as [n Hn].
  apply handles_get_iff; [done|]. split; [|by eexists].
  exists l. eexists. split; [apply core_lookup; by eexists|]. split_and!; [done|done|].
  by eapply kernel_inserted_chain.
Qed.

Definition parent_valid k (parent : option HandleKey) : Prop :=
  forall p, parent = Some p -> valid (core k) p.

Lemma parent_valid_active k parent : parent_valid k parent -> parent_active k parent.
Proof.
  intros Hv p Hp. destruct (valid_active _ _ (Hv p Hp)) as (sp & Hsp & Ha & Hg). exists sp. split; [done|].
  by apply (matches_active (core_handle sp)).
Qed.

(** The new handle can be retrieved, and could not before. *)
Lemma inserted_new k h parent key k' :
  kinv k -> kinv k' -> parent_valid k parent -> inserted k h parent key k' ->
  handles_get k key = None /\ handles_get k' key = Some (stored h key).
Proof.
  intros Hk Hk' Hpar Hin. split.
  - destruct (handles_get k key) as [h0|] eqn:E; [|done].
    destruct (handles_get_fields _ _ _ Hk E) as (_ & s & Hs & Ha & _).
    destruct (in_fresh _ _ _ _ _ Hin s Hs) as [Hd _]. by destruct (Hd (active_live _ Ha)).
  - destruct (in_slot _ _ _ _ _ Hin) as (s & Hs & Ha & Hg & Hp & _ & Hh). apply handles_get_iff; [done|].
    split; [|by exists s]. assert (exists l, chain (core k') parent l) as [l Hl].
    { destruct parent as [p|]; [|by exists []; constructor].
      destruct (Hpar p eq_refl) as (l & hp & Hgp & Hap & Hgg & Hc). exists (p :: l).
      eapply kernel_inserted_chain; [done|]. econstructor; [done| |done].
      apply retains_live. split; [|done]. unfold live. by rewrite Hap. }
    exists l. eexists. split; [apply core_lookup; by eexists|]. simpl. rewrite Hp. by split_and!.
Qed.

Lemma kinv_with_retired k r : kinv k -> kinv (with_retired k r).
Proof. by intros []. Qed.

Lemma wp_insert_or_retire h parent k :
  kinv k -> parent_valid k parent ->
  wp (insert_or_retire h parent)
    (fun key k' => kinv k' /\ inserted k h parent key k')
    (fun _ k' => k' = with_retired k (table_retired k ++ [h])) k.
Proof.
  intros Hk Hpar. unfold insert_or_retire. apply wp_bind, wp_attempt.
  eapply wp_mono; [apply wp_handles_insert_with_parent; [done|by apply parent_valid_active]|..].
  - done.
  - intros e k' ->. apply wp_bind, wp_modify. by apply wp_throw.
Qed.

Lemma wp_handles_derive parent rights kind o k :
  kinv k ->
  wp (handles_derive parent rights kind o)
    (fun key k' => kinv k' /\ exists source, handles_get k parent = Some source /\
       rights_subset rights (handle_rights source) = true /\ allows_derive (handle_rights source) kind = true /\
       inserted k (mkKHandle (handle_id source) o rights (handle_payload source)) (Some parent) key k')
    (fun _ k' => kinv k') k.
Proof.
  intros Hk. unfold handles_derive. apply wp_bind, wp_gets. unfold id. apply wp_bind, wp_require; [|done].
  intros source Hs. destruct (rights_subset rights (handle_rights source)) eqn:Hr; [|by apply wp_throw].
  destruct (allows_derive (handle_rights source) kind) eqn:Hd; [|by apply wp_throw]. simpl.
  eapply wp_mono; [apply wp_insert_or_retire; [done|]| |].
  - intros p [= <-]. apply handles_get_valid; [done|]. by eexists.
  - intros key k' [? ?]. split; [done|]. by exists source.
  - intros e k' ->. by apply kinv_with_retired.
Qed.

Lemma wp_release_owned_by {X} o k :
  kinv k ->
  wp (release_owned_by o)
    (fun n k' => cleaning (fun _ => True) o k k' /\ before k' o 0 /\ n = held o k) (fun (_ : X) _ => False) k.
Proof.
  intros Hk. unfold release_owned_by. apply wp_bind, wp_gets. unfold id. cbv zeta.
  assert (match table_by_owner k !! o with Some indices => owner_len indices | None => 0 end =
    len (owner_list k o)) as ->.
  { unfold owner_list. destruct (table_by_owner k !! o); [apply owner_len_indices|done]. }
  eapply wp_mono; [apply wp_release_owned_loop; [split; [done|apply shrinks_refl]| |lia]| |done].
  - intros i s Hi Ho Ha. eapply get_Some_lt. apply (ki_index _ _ _ _ Hk). exists s.
    split_and!; [done|left; by apply active_live|done|done].
  - intros n k' (? & ? & ->). by split_and!.
Qed.

Lemma wp_revoke_owned_by {X} o k :
  kinv k ->
  wp (revoke_owned_by o)
    (fun _ k' => cleaning (foreign k o) o k k' /\ owner_list k' o = []) (fun (_ : X) _ => False) k.
Proof.
  intros Hk. unfold revoke_owned_by. apply wp_bind, wp_gets. unfold id.
  apply wp_revoke_owned_loop; [split; [done|apply shrinks_refl]|].
  pose proof (lives_le (core k)) as Hle. unfold core in Hle at 2. rewrite length_fmap in Hle. lia.
Qed.

(** ** Histories *)

(** The state an operation ends in, whatever it answers. *)
Definition ends {A} (c : comp (Slots P) AuthorityError A) k k' : Prop :=
  (exists a, c k = Val a k') \/ (exists e, c k = Throw e k').

(** One transaction's operation, or the drop of the retired payloads after unlocking. *)
Inductive kernel_step k : Slots P -> Prop :=
| kernel_insert h k' : ends (handles_insert h) k k' -> kernel_step k k'
| kernel_derive parent rights kind o k' : ends (handles_derive parent rights kind o) k k' -> kernel_step k k'
| kernel_release key k' : ends (handles_release key) k k' -> kernel_step k k'
| kernel_revoke key k' : ends (handles_revoke key) k k' -> kernel_step k k'
| kernel_release_owned o k' : ends (release_owned_by o) k k' -> kernel_step k k'
| kernel_revoke_owned o k' : ends (revoke_owned_by o) k k' -> kernel_step k k'
| kernel_unlock : kernel_step k (with_retired k []).

Definition kernel_reachable k : Prop :=
  exists k0, (k0 = handles_new \/ exists limit, k0 = handles_with_slot_limit limit) /\ rtc kernel_step k0 k.

Lemma wp_ends {A} (c : comp (Slots P) AuthorityError A) (I : Slots P -> Prop) k k' :
  wp c (fun _ => I) (fun _ => I) k -> ends c k k' -> I k'.
Proof. unfold wp. intros Hw [[a E]|[e E]]; by rewrite E in Hw. Qed.

Lemma wp_runs {S X A} (c : comp S X A) Q R (st : S) why : wp c Q R st -> c st <> Stop why.
Proof. unfold wp. intros Hw E. by rewrite E in Hw. Qed.

Lemma kinv_empty limit : kinv (mkSlots [] [] ∅ limit [] : Slots P).
Proof.
  assert (forall (A : Type) i (x : A), get [] i <> Some x) as Hn.
  { intros A i x Hx. by destruct (N.nlt_0_r _ (get_Some_lt _ _ _ Hx)). }
  split; simpl.
  - apply initial_inv. constructor.
  - by intros i s []%Hn.
  - by intros i s h []%Hn.
  - split; [constructor|]. intros i. split; [by intros ?%not_elem_of_nil|]. by intros (s & []%Hn & _).
  - intros o q i. unfold owner_list. simpl. rewrite lookup_empty. split; [by intros []%Hn|].
    by intros (s & []%Hn & _).
  - intros o l. by rewrite lookup_empty.
  - done.
Qed.

Lemma kernel_step_inv k k' : kinv k -> kernel_step k k' -> kinv k'.
Proof.
  intros Hk Hs. destruct Hs as [h k' He|p r d o k' He|key k' He|key k' He|o k' He|o k' He|].
  - eapply wp_ends, He. eapply wp_mono; [by apply wp_insert_or_retire|by intros ? ? []|].
    intros ? ? ->. by apply kinv_with_retired.
  - eapply wp_ends, He. eapply wp_mono; [by apply wp_handles_derive|by intros ? ? []|done].
  - eapply wp_ends, He. eapply wp_mono; [by apply wp_handles_release|by intros ? ? []|done].
  - eapply wp_ends, He. eapply wp_mono; [by apply wp_handles_revoke|by intros ? ? []|done].
  - eapply wp_ends, He. eapply wp_mono; [by apply wp_release_owned_by|by intros ? ? [[? _] _]|done].
  - eapply wp_ends, He. eapply wp_mono; [by apply wp_revoke_owned_by|by intros ? ? [[? _] _]|done].
  - by apply kinv_with_retired.
Qed.

Lemma kernel_reachable_inv k : kernel_reachable k -> kinv k.
Proof.
  intros (k0 & H0 & Hs). assert (kinv k0) as Hk0 by (destruct H0 as [->|[limit ->]]; apply kinv_empty).
  clear H0. induction Hs as [k|k k1 k2 Hs _ IH]; [done|]. by eapply IH, kernel_step_inv.
Qed.

(** C26. The kernel's handle table never stops the kernel: from any history of transactions,
    no operation indexes out of bounds, fails an assertion of the owner index or loops; and
    the index lists exactly the live slots of each process, the free list exactly the slots
    that can be reused, once each, and the payloads exactly the active slots. *)
Theorem kernel_table_is_safe k :
  kernel_reachable k ->
  (forall h why, handles_insert h k <> Stop why) /\
  (forall parent rights kind o why, handles_derive parent rights kind o k <> Stop why) /\
  (forall key why, handles_release (X := AuthorityError) key k <> Stop why) /\
  (forall key why, handles_revoke (X := AuthorityError) key k <> Stop why) /\
  (forall o why, release_owned_by (X := AuthorityError) o k <> Stop why) /\
  (forall o why, revoke_owned_by (X := AuthorityError) o k <> Stop why) /\
  (forall o i, i ∈ owner_list k o <-> exists s, get (table_slots k) i = Some s /\ slive s /\ slot_owner s = o) /\
  NoDup (table_free k) /\
  (forall i, i ∈ table_free k <-> exists s, get (table_slots k) i = Some s /\ reusable (slot_authority s) = true) /\
  (forall i s, get (table_slots k) i = Some s -> is_Some (slot_handle s) <-> sactive s).
Proof.
  intros Hk%kernel_reachable_inv. split_and!.
  - intros h why. eapply wp_runs. by apply wp_insert_or_retire.
  - intros parent rights kind o why. eapply wp_runs. by apply wp_handles_derive.
  - intros key why. eapply wp_runs. by apply wp_handles_release.
  - intros key why. eapply wp_runs. by apply wp_handles_revoke.
  - intros o why. eapply wp_runs. by apply wp_release_owned_by.
  - intros o why. eapply wp_runs. by apply wp_revoke_owned_by.
  - intros o i. split.
    + intros [n Hn]%list_elem_of_lookup. rewrite <- (Nnat.Nat2N.id n), <- get_lookup in Hn.
      destruct (filed_at _ _ _ _ Hk Hn) as (s & ? & ? & ? & _). by exists s.
    + intros (s & Hs & Hl & Ho). apply list_elem_of_lookup. exists (N.to_nat (slot_owner_position s)).
      rewrite <- get_lookup. apply (ki_index _ _ _ _ Hk). exists s. auto.
  - apply (ki_free _ _ _ _ Hk).
  - intros i. rewrite (proj2 (ki_free _ _ _ _ Hk) i). naive_solver.
  - apply (ki_payload _ _ _ _ Hk).
Qed.

(** A derived handle dies with its parent. *)
Lemma derived_revoked k h parent key k' k'' :
  kinv k' -> inserted k h (Some parent) key k' -> valid (core k') parent ->
  handles_revoke (X := AuthorityError) parent k' = Val true k'' -> handles_get k'' key = None.
Proof.
  intros Hk' Hin Hv He. destruct (wp_val _ _ _ _ _ _ (wp_handles_revoke parent k' Hk') He) as (Hk'' & Hsh & _ & Hdead).
  destruct (handles_get k'' key) as [h''|] eqn:Eg; [exfalso|done].
  apply handles_get_iff in Eg as [(l & hk & Hgk & Ha & Hg & Hc) _]; [|done].
  destruct (in_slot _ _ _ _ _ Hin) as (s & Hs & _ & _ & Hp & _).
  destruct (pres_get _ _ _ _ (sh_core _ _ _ _ Hsh) _ _ (get_core_Some _ _ _ Hs)) as (hk' & Hgk' & _ & _ & _ & _ & Hl & _).
  assert (hk' = hk) as -> by congruence. destruct Hl as [_ Ep]; [unfold live; by rewrite Ha|].
  rewrite Ep in Hc. simpl in Hc. rewrite Hp in Hc. inversion Hc as [|p hp l' Hgp Hr Hc' E1]; subst.
  apply core_lookup in Hgp as (sp & Hsp & ->). apply retains_live in Hr as [Hlive _].
  exact (Hdead sp Hsp Hlive).
Qed.

(** C35. Derivation in the kernel: it succeeds only from a handle that can be retrieved, with
    rights it has and a kind of derivation it allows; the new handle has a key nobody could
    use before, the source's resource and plan, the new owner and the requested rights;
    every other handle stays as it was, and revoking the source ends the derived handle. *)
Theorem kernel_derivation k parent rights kind o key k' :
  kernel_reachable k -> handles_derive parent rights kind o k = Val key k' ->
  exists source, handles_get k parent = Some source /\
    rights_subset rights (handle_rights source) = true /\ allows_derive (handle_rights source) kind = true /\
    handles_get k key = None /\
    handles_get k' key = Some (mkKHandle key o rights (handle_payload source)) /\
    (forall key' h', handles_get k key' = Some h' -> handles_get k' key' = Some h') /\
    (forall k'', handles_revoke (X := AuthorityError) parent k' = Val true k'' -> handles_get k'' key = None).
Proof.
  intros Hk%kernel_reachable_inv He.
  destruct (wp_val _ _ _ _ _ _ (wp_handles_derive parent rights kind o k Hk) He) as (Hk' & source & Hs & Hr & Hd & Hin).
  assert (parent_valid k (Some parent)) as Hpv.
  { intros p [= <-]. apply handles_get_valid; [done|]. by eexists. }
  destruct (inserted_new _ _ _ _ _ Hk Hk' Hpv Hin) as [Hnew Hgot]. exists source.
  assert (forall key' h', handles_get k key' = Some h' -> handles_get k' key' = Some h') as Hother.
  { intros key' h' Hg. exact (inserted_get _ _ _ _ _ _ _ Hk Hk' Hin Hg). }
  split_and!; try done. intros k'' Hrev. eapply derived_revoked; [exact Hk'|exact Hin| |exact Hrev].
  apply handles_get_valid; [done|]. exists source. by apply Hother.
Qed.

(** Without an active slot, nothing of the process can be retrieved. *)
Lemma owned_gone A C k k' o key s :
  shrinks A C k k' -> kinv k' -> get (table_slots k) (key_slot key) = Some s -> slot_owner s = o ->
  (forall i s, get (table_slots k') i = Some s -> slot_owner s = o -> ~ sactive s) -> handles_get k' key = None.
Proof.
  intros Hsh Hk' Hs Ho Hnone. destruct (handles_get k' key) as [h|] eqn:E; [|done].
  destruct (handles_get_fields _ _ _ Hk' E) as (_ & s' & Hs' & Ha & _).
  destruct (pres_slot _ _ _ _ _ _ (sh_core _ _ _ _ Hsh) Hs) as (s2 & Hs2 & Eo & _). simplify_eq.
  by destruct (Hnone _ _ Hs' Eo).
Qed.

(** C33. Cleaning up after a process is exact. Both cleanups end and lose no payload.
    Releasing the handles of a process answers how many active ones it had, leaves it none,
    and leaves every handle of the other processes, delegations of the released ones
    included, as it was. Revoking them empties the process's index and leaves alone the
    handles of the others that do not descend from it. *)
Theorem process_cleanup_is_exact k o :
  kernel_reachable k ->
  (exists n k', release_owned_by (X := AuthorityError) o k = Val n k' /\ n = held o k /\ held o k' = 0 /\
     payloads k' ≡ₚ payloads k /\
     forall key h, handles_get k key = Some h ->
       handles_get k' key = if decide (handle_process h = o) then None else Some h) /\
  (exists n k', revoke_owned_by (X := AuthorityError) o k = Val n k' /\ owner_list k' o = [] /\
     payloads k' ≡ₚ payloads k /\
     forall key h l, handles_get k key = Some h -> valid_via (core k) key l ->
       (handle_process h = o -> handles_get k' key = None) /\
       (handle_process h <> o -> (forall p, p ∈ l -> foreign k o p) -> handles_get k' key = Some h)).
Proof.
  intros Hk%kernel_reachable_inv. split.
  - pose proof (wp_release_owned_by (X := AuthorityError) o k Hk) as Hw. unfold wp in Hw.
    destruct (release_owned_by o k) as [n k'| |]; [|done..]. destruct Hw as ([Hk' Hsh] & Hb & Hn).
    assert (forall i s, get (table_slots k') i = Some s -> slot_owner s = o -> ~ sactive s) as Hnone.
    { intros i s Hi Ho Ha. specialize (Hb i s Hi Ho Ha). lia. }
    exists n, k'. split_and!; [done|done|by apply held_zero|apply Hsh|].
    intros key h Hg. pose proof (handles_get_fields _ _ _ Hk Hg) as (_ & s & Hs & _ & Ho). case_decide as Hd.
    + by apply (owned_gone _ _ _ _ _ _ _ Hsh Hk' Hs (eq_trans Ho Hd)).
    + rewrite <- Hg. destruct (proj1 (handles_get_valid k key Hk) (ex_intro _ h Hg)) as [l Hl].
      eapply shrinks_get; [done|done|exact Hsh|exact Hl| |done]. simpl. congruence.
  - pose proof (wp_revoke_owned_by (X := AuthorityError) o k Hk) as Hw. unfold wp in Hw.
    destruct (revoke_owned_by o k) as [n k'| |]; [|done..]. destruct Hw as ([Hk' Hsh] & Hempty).
    exists n, k'. split_and!; [done|done|apply Hsh|].
    intros key h l Hg Hl. pose proof (handles_get_fields _ _ _ Hk Hg) as (_ & s & Hs & _ & Ho). split.
    + intros Hd. apply (owned_gone _ _ _ _ _ _ _ Hsh Hk' Hs (eq_trans Ho Hd)).
      intros i s' Hi Ho' Ha. by apply (unfiled_dead o k' i s' Hk' Hempty Hi Ho'), active_live.
    + intros Hd Hf. rewrite <- Hg. eapply shrinks_get; [done|done|exact Hsh|exact Hl| |exact Hf]. simpl. congruence.
Qed.
End props.

(** ** Witnesses

    Process 1 opens a resource and delegates its first method to process 2, which keeps the
    delegation when process 1 ends. *)

Definition sample_root : KHandle unit := mkKHandle (mkKey 0 0) 1 (mkRights 3 FLAG_DELEGATE) tt.
Definition sample_rights : Rights := mkRights 1 0.

Definition sample_after {A} (c : comp (Slots unit) AuthorityError A) (k : Slots unit) : Slots unit :=
  match c k with Val _ k' | Throw _ k' => k' | Stop _ => k end.

Definition sample_opened : Slots unit := Eval vm_compute in sample_after (handles_insert sample_root) handles_new.
Definition sample_table : Slots unit := Eval vm_compute in
  sample_after (handles_derive (mkKey 0 1) sample_rights DeriveDelegate 2) sample_opened.

Lemma sample_opened_reachable : kernel_reachable sample_opened.
Proof.
  exists handles_new. split; [by left|]. apply rtc_once, (kernel_insert _ sample_root). left.
  exists (mkKey 0 1). vm_compute. reflexivity.
Qed.

Lemma sample_reachable : kernel_reachable sample_table.
Proof.
  destruct sample_opened_reachable as (k0 & H0 & Hs). exists k0. split; [done|]. eapply rtc_r; [exact Hs|].
  apply (kernel_derive _ (mkKey 0 1) sample_rights DeriveDelegate 2). left. exists (mkKey 1 1).
  vm_compute. reflexivity.
Qed.

Lemma kernel_table_is_safe_witness : release_owned_by (X := AuthorityError) 1 sample_table <> Stop AssertionFailed.
Proof. exact (proj1 (proj2 (proj2 (proj2 (proj2 (kernel_table_is_safe sample_table sample_reachable))))) 1 AssertionFailed). Defined.

Lemma kernel_derivation_witness :
  exists source, handles_get sample_opened (mkKey 0 1) = Some source /\
    handles_get sample_table (mkKey 1 1) = Some (mkKHandle (mkKey 1 1) 2 sample_rights (handle_payload source)).
Proof.
  destruct (kernel_derivation sample_opened (mkKey 0 1) sample_rights DeriveDelegate 2 (mkKey 1 1) sample_table
    sample_opened_reachable ltac:(vm_compute; reflexivity)) as (source & Hs & _ & _ & _ & Hd & _).
  exists source. split; [exact Hs|exact Hd].
Defined.

Lemma process_cleanup_is_exact_witness :
  exists k', release_owned_by (X := AuthorityError) 1 sample_table = Val 1 k' /\
    handles_get k' (mkKey 1 1) = Some (mkKHandle (mkKey 1 1) 2 sample_rights tt) /\ handles_get k' (mkKey 0 1) = None.
Proof.
  destruct (process_cleanup_is_exact sample_table 1 sample_reachable) as [(n & k' & He & Hn & _ & _ & Hg) _].
  exists k'. split; [rewrite He, Hn; vm_compute; reflexivity|].
  split; [exact (Hg (mkKey 1 1) _ ltac:(vm_compute; reflexivity))|].
  exact (Hg (mkKey 0 1) (mkKHandle (mkKey 0 1) 1 (mkRights 3 FLAG_DELEGATE) tt) ltac:(vm_compute; reflexivity)).
Defined.
