(* ===== verification/Source.v ===== *)
(** * Program sources: shared descriptors

    crates/xolotl-graph/src/graph.rs, the descriptors that both source languages put into
    their programs, with the output modes of xolotl-types/src/resource.rs and the failures of
    xolotl-types/src/failure.rs. *)

From Stdlib Require Import ZArith.
From stdpp Require Import base numbers list option strings.
From S2P Require Import Prelude Text Path Collection ValueList ValueMap Value.

(** Named continuations of the executor's module. *)
Record StepRef : Type := mkStepRef { step_name : text; step_arg : option Value }.

Inductive OutputMode : Type :=
| Unary
| Stream
| Collect (limit : N)
| AsyncProcess
| SinkOnly.

(** The target of an operation is a [ResourceName], a path. *)
Record OperationTemplate : Type := mkOperation {
  operation_target : Path;
  operation_method : text;
  operation_method_id : option N;
  operation_output : OutputMode;
  operation_literal_input : option Value
}.

Inductive WaitSpec : Type :=
| Signal (path : Path)
| Deadline (at_millis : Z).

Inductive Failure : Type :=
| PermissionDenied (required actual : list text)
| NoHandler (path : Path)
| BudgetExhausted (dim : text)
| RateLimited
| ApprovalPending (approval_key reason : text)
| Timeout
| FailureCancelled
| OutcomeUnknown (operation_ids : list text) (reason : text)
| InvalidInput (reason : text)
| HandlerError (kind message : text)
| KernelNamespaceProtected
| PolicyViolation (policy detail : text)
| PathInvalid (path : Path) (reason : text)
| Custom (kind message : text).

(** [Failure::policy]. *)
Definition failure_policy (policy detail : text) : Failure := PolicyViolation policy detail.
