(* ===== verification/Portable.v ===== *)
(** * Portable programs

    crates/xolotl-graph/src/portable.rs: the source algebra that code and JSON share, and the
    compiler that lowers it with explicit frames into an image of the execution core, and
    portable/shape.rs, the structural admission that runs before. The charge of a resident value
    and the fingerprint of the result are arguments. *)

From Stdlib Require Import ZArith.
From stdpp Require Import base numbers list option strings gmap.
From S2P Require Import Prelude Program Text Path Collection ValueList ValueMap Value Source.

Local Open Scope N_scope.
Local Open Scope comp_scope.

(** ** Source *)

(** Numbers of the JSON library; the code asks them for an [i64], whether they are floating,
    and for an [f64]. *)
Class JsonNumber (J : Type) : Type := {
  as_i64 : J -> option Z;
  is_f64 : J -> bool;
  as_f64 : J -> option f64
}.

(** [serde_json::Value]; objects iterate in the order of their keys. *)
Inductive Json (J : Type) : Type :=
| JNull
| JBool (b : bool)
| JNumber (n : J)
| JString (s : text)
| JArray (values : list (Json J))
| JObject (entries : list (text * Json J)).
Arguments JNull {J}.
Arguments JBool {J} _.
Arguments JNumber {J} _.
Arguments JString {J} _.
Arguments JArray {J} _.
Arguments JObject {J} _.

Inductive Transform : Type :=
| Field (name : text)
| IndexAt (index : N)
| Add (value : Z)
| LessThan (value : Z)
| Equal (value : Value)
| Not
| Length.

Inductive Expression (J : Type) : Type :=
| ELiteral (value : Json J)
| EConstant (value : Value)
| EInput
| EUse (name : text)
| ELet (name : text) (value body : Expression J)
| ESequence (steps : list (Expression J))
| EInvoke (operation : OperationTemplate)
| ETransform (operation : Transform)
| EIf (condition yes no : Expression J)
| EWhile (condition body : Expression J) (max_iterations : N)
| EParallel (left_ right_ : Expression J)
| ERace (left_ right_ : Expression J)
| ECatch (body recover : Expression J)
| EFinally (body cleanup : Expression J)
| ECall (function : text)
| EModule (module : StepRef)
| EWait (wait : WaitSpec)
| EActing (identity : Path) (body : Expression J)
| EFail (message : text).
Arguments ELiteral {J} _.
Arguments EConstant {J} _.
Arguments EInput {J}.
Arguments EUse {J} _.
Arguments ELet {J} _ _ _.
Arguments ESequence {J} _.
Arguments EInvoke {J} _.
Arguments ETransform {J} _.
Arguments EIf {J} _ _ _.
Arguments EWhile {J} _ _ _.
Arguments EParallel {J} _ _.
Arguments ERace {J} _ _.
Arguments ECatch {J} _ _.
Arguments EFinally {J} _ _.
Arguments ECall {J} _.
Arguments EModule {J} _.
Arguments EWait {J} _.
Arguments EActing {J} _ _.
Arguments EFail {J} _.

(** ** Transforms *)

Section transforms.
(** The comparison of values, which follows shared storage, and the [Debug] text of a
    transform. *)
Context (value_eqb : Value -> Value -> bool) (debug : Transform -> text).

(** [i64::try_from] of a length. *)
Definition length_value (n : N) : option Value :=
  if (Z.of_N n <=? i64_max)%Z then Some (VInt (Z.of_N n)) else None.

(** [str::chars().count()]: the bytes of UTF-8 that do not continue a character. *)
Definition char_count (s : text) : N :=
  len (filter (fun c => negb ((128 <=? code c) && (code c <? 192))) s).

(** [Transform::apply]. *)
Definition transform_apply (self : Transform) (input : Value) : Result Value Failure :=
  let invalid := InvalidInput (t "invalid operand for " ++ debug self) in
  match self, input with
  | Field name, VMap map => ok_or (map_get map name) invalid
  | IndexAt index, VList list => ok_or (list_get list index) invalid
  | Add value, VInt input =>
      if ((i64_min <=? input + value) && (input + value <=? i64_max))%Z
      then Ok (VInt (input + value)) else Err invalid
  | LessThan value, VInt input => Ok (VBool (input <? value)%Z)
  | Equal value, _ => Ok (VBool (value_eqb input value))
  | Not, VBool input => Ok (VBool (negb input))
  | Length, VList input => ok_or (length_value (list_len input)) invalid
  | Length, VMap input => ok_or (length_value (map_len input)) invalid
  | Length, VStr input => ok_or (length_value (char_count input)) invalid
  | _, _ => Err invalid
  end.
End transforms.

(** ** Programs *)

(** [Program]; the functions iterate in the order of their names. *)
Record Program (J : Type) : Type := mkProgram {
  program_version : N;
  program_body : Expression J;
  program_functions : list (text * Expression J)
}.
Arguments mkProgram {J} _ _ _.
Arguments program_version {J} _.
Arguments program_body {J} _.
Arguments program_functions {J} _.

Definition SOURCE_VERSION : N := 1.

Record CompileLimits : Type := mkCompileLimits {
  source_bytes : N;
  limit_instructions : N;
  expression_depth : N
}.

Definition default_compile_limits : CompileLimits := mkCompileLimits (1024 * 1024) 65536 128.

Inductive Import : Type :=
| ImportOperation (operation : OperationTemplate)
| ImportTransform (operation : Transform)
| ImportWait (wait : WaitSpec)
| ImportScope (identity : Path)
| ImportModule (module : StepRef).

(** The detail of an encoding error is left out. *)
Inductive CompileError : Type :=
| ImportKind
| SourceVersion (version : N)
| Variable_ (name : text)
| Function_ (name : text)
| CompileCapacity
| Encoding.

Record CompiledProgram (V E : Type) : Type := mkCompiled {
  compiled_nodes : list (Node V E);
  compiled_imports : list Import;
  compiled_entry : N;
  compiled_bindings : N;
  compiled_hash : list N
}.
Arguments mkCompiled {V E} _ _ _ _ _.
Arguments compiled_nodes {V E} _.
Arguments compiled_imports {V E} _.
Arguments compiled_entry {V E} _.
Arguments compiled_bindings {V E} _.
Arguments compiled_hash {V E} _.

(** [CompiledProgram::image]. *)
Definition compiled_image {V E} (self : CompiledProgram V E) : ProgramImage V E :=
  mkImage IMAGE_VERSION (compiled_hash self) (compiled_nodes self) (compiled_entry self)
    (compiled_bindings self) (len (compiled_imports self)).

(** ** Trees of expressions *)

(** The immediate parts of an expression, first to last. *)
Definition expression_parts {J} (e : Expression J) : list (Expression J) :=
  match e with
  | ELet _ value body => [value; body]
  | ESequence steps => steps
  | EIf condition yes no => [condition; yes; no]
  | EWhile condition body _ => [condition; body]
  | EParallel left_ right_ | ERace left_ right_ => [left_; right_]
  | ECatch body recover => [body; recover]
  | EFinally body cleanup => [body; cleanup]
  | EActing _ body => [body]
  | _ => []
  end.

(** Induction over an expression from all its immediate parts. *)
Section expression_parts_ind.
Context {J : Type} (P : Expression J -> Prop).
Hypothesis step : forall e, Forall P (expression_parts e) -> P e.

Fixpoint expression_parts_ind (e : Expression J) : P e :=
  step e
    match e return Forall P (expression_parts e) with
    | ELet _ value body => Forall_cons_2 _ _ _ (expression_parts_ind value)
        (Forall_cons_2 _ _ _ (expression_parts_ind body) (Forall_nil_2 _))
    | ESequence steps =>
        (fix all (l : list (Expression J)) : Forall P l :=
           match l with
           | [] => Forall_nil_2 _
           | x :: l' => Forall_cons_2 _ _ _ (expression_parts_ind x) (all l')
           end) steps
    | EIf a b c => Forall_cons_2 _ _ _ (expression_parts_ind a)
        (Forall_cons_2 _ _ _ (expression_parts_ind b)
           (Forall_cons_2 _ _ _ (expression_parts_ind c) (Forall_nil_2 _)))
    | EWhile a b _ | EParallel a b | ERace a b | ECatch a b | EFinally a b =>
        Forall_cons_2 _ _ _ (expression_parts_ind a)
          (Forall_cons_2 _ _ _ (expression_parts_ind b) (Forall_nil_2 _))
    | EActing _ body => Forall_cons_2 _ _ _ (expression_parts_ind body) (Forall_nil_2 _)
    | _ => Forall_nil_2 _
    end.
End expression_parts_ind.

(** The number of expressions in a tree. *)
Fixpoint expression_size {J} (e : Expression J) : nat :=
  S match e with
    | ELet _ a b | EWhile a b _ | EParallel a b | ERace a b | ECatch a b | EFinally a b =>
        expression_size a + expression_size b
    | ESequence steps =>
        (fix total (l : list (Expression J)) : nat :=
           match l with [] => O | x :: l' => (expression_size x + total l')%nat end) steps
    | EIf a b c => expression_size a + (expression_size b + expression_size c)
    | EActing _ body => expression_size body
    | _ => O
    end.

(** ** Structural admission

    shape.rs. The state is the remaining budget. *)
Definition MAX_LITERAL_DEPTH : N := 120.

(** [ShapeBudget::spend]. *)
Definition spend (bytes : N) : comp N CompileError unit :=
  let* remaining := gets id in
  let* rest := require (checked_sub remaining bytes) CompileCapacity in
  modify (fun _ => rest).

(** [while let Some(item) = pending.pop()]; a turn returns what it pushes, the top first. *)
Fixpoint while_pop {I} (turn : I -> comp N CompileError (list I)) (fuel : nat) (pending : list I)
    : comp N CompileError unit :=
  match pending with
  | [] => ret tt
  | item :: pending =>
      match fuel with
      | O => halt Unbounded
      | S fuel =>
          let* pushed := turn item in
          while_pop turn fuel (pushed ++ pending)
      end
  end.

Inductive JsonPending (J : Type) : Type :=
| JPNode (value : Json J) (depth : N)
| JPArray (values : list (Json J)) (depth : N)
| JPObject (entries : list (text * Json J)) (depth : N).
Arguments JPNode {J} _ _.
Arguments JPArray {J} _ _.
Arguments JPObject {J} _ _.

(** One turn of [check_json]. *)
Definition check_json_turn {J} (item : JsonPending J) : comp N CompileError (list (JsonPending J)) :=
  match item with
  | JPNode value depth =>
      if MAX_LITERAL_DEPTH <? depth then throw CompileCapacity
      else
        spend 1 ;;;
        match value with
        | JString s => spend (len s) ;;; ret []
        | JArray values => ret [JPArray values (depth + 1)]
        | JObject entries => ret [JPObject entries (depth + 1)]
        | _ => ret []
        end
  | JPArray [] _ => ret []
  | JPArray (value :: values) depth => ret [JPNode value depth; JPArray values depth]
  | JPObject [] _ => ret []
  | JPObject ((key, value) :: entries) depth =>
      spend (len key) ;;; ret [JPNode value depth; JPObject entries depth]
  end.

(** The turns a literal takes: a node and, for a container, an iterator per member and one at
    its end. *)
Fixpoint json_turns {J} (value : Json J) : nat :=
  S match value with
    | JArray values =>
        (fix all (l : list (Json J)) : nat :=
           match l with [] => 1%nat | x :: l' => S (json_turns x + all l') end) values
    | JObject entries =>
        (fix all (l : list (text * Json J)) : nat :=
           match l with [] => 1%nat | (_, x) :: l' => S (json_turns x + all l') end) entries
    | _ => O
    end.

Definition check_json {J} (root : Json J) : comp N CompileError unit :=
  while_pop check_json_turn (json_turns root) [JPNode root 1].

Inductive ExpressionPending (J : Type) : Type :=
| EPNode (expression : Expression J) (depth : N)
| EPSequence (steps : list (Expression J)) (depth : N).
Arguments EPNode {J} _ _.
Arguments EPSequence {J} _ _.

Section shape.
Context {J : Type} (check_value : Value -> comp N CompileError unit).

Definition spend_path (path : Path) : comp N CompileError unit :=
  let* bytes := require (canonical_len path) CompileCapacity in
  spend bytes.

Definition check_optional (value : option Value) : comp N CompileError unit :=
  match value with Some value => check_value value | None => ret tt end.

(** The charge of an expression's own payload. *)
Definition check_payload (expression : Expression J) : comp N CompileError unit :=
  match expression with
  | ELiteral value => check_json value
  | EConstant value => check_value value
  | EUse name | ELet name _ _ => spend (len name)
  | EInvoke operation =>
      spend_path (operation_target operation) ;;;
      spend (len (operation_method operation)) ;;;
      check_optional (operation_literal_input operation)
  | ETransform (Field name) => spend (len name)
  | ETransform (Equal value) => check_value value
  | EActing identity _ => spend_path identity
  | ECall function => spend (len function)
  | EModule module => spend (len (step_name module)) ;;; check_optional (step_arg module)
  | EFail message => spend (len message)
  | EWait (Signal path) => spend_path path
  | _ => ret tt
  end.

(** The parts pushed, the first one on top. *)
Definition pending_parts (expression : Expression J) (depth : N) : list (ExpressionPending J) :=
  match expression with
  | ESequence steps => [EPSequence steps depth]
  | _ => (fun part => EPNode part depth) <$> expression_parts expression
  end.

(** One turn of [check_expression]. *)
Definition check_expression_turn (limits : CompileLimits) (item : ExpressionPending J)
    : comp N CompileError (list (ExpressionPending J)) :=
  match item with
  | EPSequence [] _ => ret []
  | EPSequence (step :: steps) depth =>
      ret (EPNode step depth :: (if len steps =? 0 then [] else [EPSequence steps depth]))
  | EPNode expression depth =>
      if expression_depth limits <? depth then throw CompileCapacity
      else
        spend 1 ;;;
        let* child_depth := require (checked_add usize_max depth 1) CompileCapacity in
        check_payload expression ;;;
        ret (pending_parts expression child_depth)
  end.

(** Every expression is one turn, and a sequence one more for each step or for its end. *)
Definition check_expression (root : Expression J) (limits : CompileLimits)
    : comp N CompileError unit :=
  while_pop (check_expression_turn limits) (3 * expression_size root) [EPNode root 0].

(** [Program::validate_structure_with_limits]. *)
Definition validate_structure_with_limits {S} (self : Program J) (limits : CompileLimits)
    : comp S CompileError unit :=
  run_local
    (spend 1 ;;;
     check_expression (program_body self) limits ;;;
     for_each (program_functions self) (fun '(name, body) =>
       spend (len name) ;;; check_expression body limits))
    (source_bytes limits).
End shape.

(** ** The compiler *)

(** [Compiler]; the function of a call is recorded with the address of its instruction. *)
Record Compiler : Type := mkCompiler {
  c_limits : CompileLimits;
  c_nodes : list (Node Value Failure);
  c_reserved : N;
  c_imports : list Import;
  c_bindings : N;
  c_live_bindings : N;
  c_names : gmap text N;
  c_functions : gmap text N;
  c_calls : list (N * text)
}.

Definition with_nodes (c : Compiler) nodes : Compiler :=
  mkCompiler (c_limits c) nodes (c_reserved c) (c_imports c) (c_bindings c) (c_live_bindings c)
    (c_names c) (c_functions c) (c_calls c).
Definition with_reserved (c : Compiler) reserved : Compiler :=
  mkCompiler (c_limits c) (c_nodes c) reserved (c_imports c) (c_bindings c) (c_live_bindings c)
    (c_names c) (c_functions c) (c_calls c).
Definition with_imports (c : Compiler) imports : Compiler :=
  mkCompiler (c_limits c) (c_nodes c) (c_reserved c) imports (c_bindings c) (c_live_bindings c)
    (c_names c) (c_functions c) (c_calls c).
Definition with_live (c : Compiler) bindings live : Compiler :=
  mkCompiler (c_limits c) (c_nodes c) (c_reserved c) (c_imports c) bindings live
    (c_names c) (c_functions c) (c_calls c).
Definition with_names (c : Compiler) names : Compiler :=
  mkCompiler (c_limits c) (c_nodes c) (c_reserved c) (c_imports c) (c_bindings c)
    (c_live_bindings c) names (c_functions c) (c_calls c).
Definition with_functions (c : Compiler) functions : Compiler :=
  mkCompiler (c_limits c) (c_nodes c) (c_reserved c) (c_imports c) (c_bindings c)
    (c_live_bindings c) (c_names c) functions (c_calls c).
Definition with_calls (c : Compiler) calls : Compiler :=
  mkCompiler (c_limits c) (c_nodes c) (c_reserved c) (c_imports c) (c_bindings c)
    (c_live_bindings c) (c_names c) (c_functions c) calls.

Definition compiler_new (limits : CompileLimits) : Compiler :=
  mkCompiler limits [] 0 [] 0 0 ∅ ∅ [].

Record Lowered : Type := mkLowered { lowered_entry : N; lowered_tail : N }.

Definition lowering (A : Type) : Type := comp Compiler CompileError A.

Definition reserve_instruction : lowering unit :=
  let* reserved := gets c_reserved in
  let* limits := gets c_limits in
  if limit_instructions limits <=? reserved then throw CompileCapacity
  else
    let* _ := require (u32_try_from reserved) CompileCapacity in
    let* reserved := require (checked_add usize_max reserved 1) CompileCapacity in
    modify (fun c => with_reserved c reserved).

(** [Compiler::push]. *)
Definition push_node (kind : NodeKind Value Failure) : lowering N :=
  let* c := gets id in
  if c_reserved c <=? len (c_nodes c) then throw CompileCapacity
  else
    let* index := require (u32_try_from (len (c_nodes c))) CompileCapacity in
    modify (fun c => with_nodes c (c_nodes c ++ [node_new kind index])) ;;;
    ret index.

(** [Compiler::import]. *)
Definition add_import (import : Import) : lowering N :=
  let* imports := gets c_imports in
  let* index := require (u32_try_from (len imports)) CompileCapacity in
  modify (fun c => with_imports c (c_imports c ++ [import])) ;;;
  ret index.

Section lower.
Context {J : Type} `{JsonNumber J}.

Fixpoint json_value (value : Json J) : Result Value Failure :=
  match value with
  | JNull => Ok VNull
  | JBool b => Ok (VBool b)
  | JNumber n =>
      match as_i64 n with
      | Some z => Ok (VInt z)
      | None =>
          if is_f64 n then
            result_bind (ok_or (as_f64 n) (InvalidInput (t "invalid float")))
              (fun x => Ok (VFloat (f64_to_bits x)))
          else Err (InvalidInput (t "integer exceeds signed 64-bit range"))
      end
  | JString s => Ok (VStr s)
  | JArray values => result_bind (try_map json_value values) (fun vs => Ok (VList (list_from vs)))
  | JObject entries =>
      result_bind
        (try_map (fun '(key, value) =>
           result_bind (json_value value) (fun value => Ok (key, value))) entries)
        (fun es => Ok (value_map es))
  end.

(** [Compiler::lower_leaf]. *)
Definition lower_leaf (expression : Expression J) : lowering (NodeKind Value Failure) :=
  match expression with
  | ELiteral value =>
      match json_value value with
      | Ok v => ret (NLiteral v)
      | Err _ => throw Encoding
      end
  | EConstant value => ret (NLiteral value)
  | EInput => ret NInput
  | EUse name =>
      let* names := gets c_names in
      let* slot := require (names !! name) (Variable_ name) in
      ret (NLoad slot)
  | EInvoke operation => let* i := add_import (ImportOperation operation) in ret (NRequest i)
  | ETransform operation => let* i := add_import (ImportTransform operation) in ret (NRequest i)
  | EWait wait => let* i := add_import (ImportWait wait) in ret (NRequest i)
  | EFail message => ret (NFail (failure_policy (t "program") message))
  | ECall function =>
      let* nodes := gets c_nodes in
      let* index := require (u32_try_from (len nodes)) CompileCapacity in
      modify (fun c => with_calls c (c_calls c ++ [(index, function)])) ;;;
      ret NInput
  | EModule module => let* i := add_import (ImportModule module) in ret (NRequest i)
  | ELet _ _ _ | ESequence _ | EIf _ _ _ | EWhile _ _ _ | EParallel _ _ | ERace _ _
  | ECatch _ _ | EFinally _ _ | EActing _ _ => throw CompileCapacity
  end.

Definition lower_children (expression : Expression J) : list (option (Expression J)) :=
  match expression with
  | EIf condition yes no => [Some condition; Some yes; Some no]
  | EWhile condition body _ => [Some condition; Some body; None]
  | EParallel left_ right_ | ERace left_ right_ => [Some left_; Some right_; None]
  | ECatch body recover => [Some body; Some recover; None]
  | EFinally body cleanup => [Some body; Some cleanup; None]
  | _ => [None; None; None]
  end.

(** Iterators hold what they have still to yield. *)
Inductive LowerFrame : Type :=
| Visit (expression : Expression J) (depth : N)
| LetValue (name : text) (body : Expression J) (depth : N)
| LetBody (name : text) (slot value : N) (previous : option N)
| SequenceOf (remaining : list (Expression J)) (suffix : option Lowered) (depth : N)
| Composite (expression : Expression J) (entries : list N) (completed depth : N)
| ScopeOf (import : N).

(** The locals of the loop: the frames, the expression to visit next, the last result. *)
Record Lowering : Type := mkLowering {
  l_frames : list LowerFrame;
  l_current : option (Expression J * N);
  l_result : Lowered
}.

(** [self.nodes[tail].next = Some(entry)]. *)
Definition set_next (tail entry : N) : lowering unit :=
  let* nodes := gets c_nodes in
  let* node := expect (get nodes tail) OutOfBounds in
  modify (fun c =>
    with_nodes c (upd nodes tail (mkNode (node_kind node) (Some entry) (node_position node)))).

(** The end of a turn that produced an instruction. *)
Definition emit (kind : NodeKind Value Failure) : lowering Lowered :=
  let* entry := push_node kind in
  ret (mkLowered entry entry).

Definition non_empty_sequence (expression : Expression J) : bool :=
  match expression with
  | ESequence (_ :: _) => true
  | _ => false
  end.

(** The arm of [LowerFrame::Visit]. *)
Definition visit (expression : Expression J) (depth : N) (frames : list LowerFrame)
    (result : Lowered) : lowering Lowering :=
  let* limits := gets c_limits in
  if expression_depth limits <? depth then throw CompileCapacity
  else
    let* depth := require (checked_add usize_max depth 1) CompileCapacity in
    (if non_empty_sequence expression then ret tt else reserve_instruction) ;;;
    match expression with
    | ELet name value body =>
        ret (mkLowering (LetValue name body depth :: frames) (Some (value, depth)) result)
    | ESequence steps =>
        match reverse steps with
        | step :: remaining =>
            ret (mkLowering
                   (if negb (len remaining =? 0)
                    then SequenceOf remaining None depth :: frames else frames)
                   (Some (step, depth)) result)
        | [] => let* result := emit NInput in ret (mkLowering frames None result)
        end
    | EActing identity body =>
        let* import := add_import (ImportScope identity) in
        ret (mkLowering (ScopeOf import :: frames) (Some (body, depth)) result)
    | EIf _ _ _ | EWhile _ _ _ | EParallel _ _ | ERace _ _ | ECatch _ _ | EFinally _ _ =>
        match get (lower_children expression) 0 with
        | Some (Some child) =>
            ret (mkLowering (Composite expression [0; 0; 0] 0 depth :: frames)
                   (Some (child, depth)) result)
        | _ => throw CompileCapacity
        end
    | _ =>
        let* kind := lower_leaf expression in
        let* result := emit kind in
        ret (mkLowering frames None result)
    end.

(** The instruction of a composite whose parts have been lowered. *)
Definition composite_kind (expression : Expression J) (entries : list N)
    : lowering (NodeKind Value Failure) :=
  let* a := expect (get entries 0) OutOfBounds in
  let* b := expect (get entries 1) OutOfBounds in
  match expression with
  | EIf _ _ _ =>
      let* c := expect (get entries 2) OutOfBounds in
      ret (NBranch a b c)
  | EWhile _ _ max => ret (NWhile a b max)
  | EParallel _ _ => ret (NFork a b All)
  | ERace _ _ => ret (NFork a b Race)
  | ECatch _ _ => ret (NCatch a b)
  | EFinally _ _ => ret (NFinally a b)
  | _ => throw CompileCapacity
  end.

(** One turn of [lower] on the frame taken. *)
Definition lower_turn (frame : LowerFrame) (frames : list LowerFrame) (result : Lowered)
    : lowering Lowering :=
  match frame with
  | Visit expression depth => visit expression depth frames result
  | LetValue name body depth =>
      let* live := gets c_live_bindings in
      let* slot := require (u32_try_from live) CompileCapacity in
      let* live := expect (checked_add usize_max live 1) Overflow in
      modify (fun c => with_live c (N.max (c_bindings c) live) live) ;;;
      let* names := gets c_names in
      modify (fun c => with_names c (<[name := slot]> names)) ;;;
      ret (mkLowering (LetBody name slot (lowered_entry result) (names !! name) :: frames)
             (Some (body, depth)) result)
  | LetBody name slot value previous =>
      let* live := gets c_live_bindings in
      let* live := expect (checked_sub live 1) Overflow in
      modify (fun c => with_live c (c_bindings c) live) ;;;
      modify (fun c => with_names c
        match previous with
        | Some old => <[name := old]> (c_names c)
        | None => delete name (c_names c)
        end) ;;;
      let* result := emit (NLet slot value (lowered_entry result)) in
      ret (mkLowering frames None result)
  | SequenceOf remaining suffix depth =>
      let* result :=
        match suffix with
        | Some suffix =>
            set_next (lowered_tail result) (lowered_entry suffix) ;;;
            ret (mkLowered (lowered_entry result) (lowered_tail suffix))
        | None => ret result
        end in
      match remaining with
      | step :: remaining =>
          ret (mkLowering (SequenceOf remaining (Some result) depth :: frames)
                 (Some (step, depth)) result)
      | [] => ret (mkLowering frames None result)
      end
  | Composite expression entries completed depth =>
      let* _ := expect (get entries completed) OutOfBounds in
      let entries := upd entries completed (lowered_entry result) in
      let completed := completed + 1 in
      match get (lower_children expression) completed with
      | Some (Some child) =>
          ret (mkLowering (Composite expression entries completed depth :: frames)
                 (Some (child, depth)) result)
      | _ =>
          let* kind := composite_kind expression entries in
          let* result := emit kind in
          ret (mkLowering frames None result)
      end
  | ScopeOf import =>
      let* result := emit (NScope import (lowered_entry result)) in
      ret (mkLowering frames None result)
  end.

(** [current.take().map(Visit).or_else(|| frames.pop())]. *)
Definition next_frame (l : Lowering) : option (LowerFrame * list LowerFrame) :=
  match l_current l, l_frames l with
  | Some (expression, depth), frames => Some (Visit expression depth, frames)
  | None, frame :: frames => Some (frame, frames)
  | None, [] => None
  end.

Fixpoint lower_loop (fuel : nat) (l : Lowering) : lowering N :=
  match next_frame l with
  | None => ret (lowered_entry (l_result l))
  | Some (frame, frames) =>
      match fuel with
      | O => halt Unbounded
      | S fuel =>
          let* l := lower_turn frame frames (l_result l) in
          lower_loop fuel l
      end
  end.

(** [Compiler::lower]. Every expression is visited once and wakes its parent's frame once. *)
Definition lower (expression : Expression J) (depth : N) : lowering N :=
  lower_loop (2 * expression_size expression)
    (mkLowering [] (Some (expression, depth)) (mkLowered 0 0)).

(** The [for] loop over the recorded calls. *)
Definition link_call (call : N * text) : lowering unit :=
  let '(index, name) := call in
  let* functions := gets c_functions in
  let* entry := require (functions !! name) (Function_ name) in
  let* nodes := gets c_nodes in
  let* node := expect (get nodes index) OutOfBounds in
  modify (fun c =>
    with_nodes c (upd nodes index (mkNode (NCall entry) (node_next node) (node_position node)))).

Definition lower_function (function : text * Expression J) : lowering unit :=
  let '(name, body) := function in
  modify (fun c => with_names c ∅) ;;;
  let* address := lower body 0 in
  modify (fun c => with_functions c (<[name := address]> (c_functions c))).

(** The lowering of a whole program: its body, its functions, then the targets of calls. *)
Definition lower_program (self : Program J) : lowering N :=
  let* entry := lower (program_body self) 0 in
  for_each (program_functions self) lower_function ;;;
  let* calls := gets c_calls in
  for_each calls link_call ;;;
  ret entry.

Section compile.
Context (check_value : Value -> comp N CompileError unit).
Context (fingerprint : list (Node Value Failure) -> list Import -> N -> N -> option (list N)).

(** [Program::compile_with_limits]. *)
Definition compile_with_limits (self : Program J) (limits : CompileLimits)
    : comp unit CompileError (CompiledProgram Value Failure) :=
  if negb (program_version self =? SOURCE_VERSION)
  then throw (SourceVersion (program_version self))
  else
    validate_structure_with_limits check_value self limits ;;;
    run_local
      (let* entry := lower_program self in
       let* c := gets id in
       let* hash := require (fingerprint (c_nodes c) (c_imports c) entry (c_bindings c)) Encoding in
       ret (mkCompiled (c_nodes c) (c_imports c) entry (c_bindings c) hash))
      (compiler_new limits).

(** [Program::compile]. *)
Definition compile (self : Program J) : comp unit CompileError (CompiledProgram Value Failure) :=
  compile_with_limits self default_compile_limits.
End compile.
End lower.
Arguments LowerFrame : clear implicits.
Arguments Lowering : clear implicits.

(** [matches!(import, Import::Scope(_))]. *)
Definition is_scope (import : Import) : bool :=
  match import with ImportScope _ => true | _ => false end.

(** [CompiledProgram::map_imports]; the closure carries its own state. *)
Definition map_import {S} (map : Import -> S -> Import * S) (import : Import)
    : comp S CompileError Import :=
  fun s =>
    let scope := is_scope import in
    let '(replacement, s) := map import s in
    if negb (Bool.eqb scope (is_scope replacement)) then Throw ImportKind s else Val replacement s.

Fixpoint map_import_list {S} (map : Import -> S -> Import * S) (imports : list Import)
    : comp S CompileError (list Import) :=
  match imports with
  | [] => ret []
  | import :: imports =>
      let* replacement := map_import map import in
      let* replacements := map_import_list map imports in
      ret (replacement :: replacements)
  end.

Definition map_imports {S}
    (fingerprint : list (Node Value Failure) -> list Import -> N -> N -> option (list N))
    (self : CompiledProgram Value Failure) (map : Import -> S -> Import * S)
    : comp S CompileError (CompiledProgram Value Failure) :=
  let* imports := map_import_list map (compiled_imports self) in
  let* hash := require (fingerprint (compiled_nodes self) imports (compiled_entry self)
                          (compiled_bindings self)) Encoding in
  ret (mkCompiled (compiled_nodes self) imports (compiled_entry self) (compiled_bindings self) hash).
