(* ===== verification/PortableLower.v ===== *)
(** * The lowering of portable programs by recursion

    [lower] keeps its own stack of frames. [lower_rec] is the same translation by recursion on
    the expression; this file shows that the two agree and that the frames always empty. *)

From stdpp Require Import base numbers list option strings gmap.
From S2P Require Import Prelude Program Text Path Collection ValueList ValueMap Value Source.
From S2P Require Import Portable.

Local Open Scope N_scope.
Local Open Scope comp_scope.

Section recursion.
Context {J : Type} `{JsonNumber J}.
Implicit Types e : Expression J.

(** A binder's slot and the binding it hides. *)
Definition bind_name (name : text) : lowering (N * option N) :=
  let* live := gets c_live_bindings in
  let* slot := require (u32_try_from live) CompileCapacity in
  let* live := expect (checked_add usize_max live 1) Overflow in
  modify (fun c => with_live c (N.max (c_bindings c) live) live) ;;;
  let* names := gets c_names in
  modify (fun c => with_names c (<[name := slot]> names)) ;;;
  ret (slot, names !! name).

Definition unbind_name (name : text) (previous : option N) : lowering unit :=
  let* live := gets c_live_bindings in
  let* live := expect (checked_sub live 1) Overflow in
  modify (fun c => with_live c (c_bindings c) live) ;;;
  modify (fun c => with_names c
    match previous with
    | Some old => <[name := old]> (c_names c)
    | None => delete name (c_names c)
    end).

(** A step placed before what follows it. *)
Definition chain (first suffix : Lowered) : lowering Lowered :=
  set_next (lowered_tail first) (lowered_entry suffix) ;;;
  ret (mkLowered (lowered_entry first) (lowered_tail suffix)).

(** The work before an expression's parts: its depth, its instruction. *)
Definition enter (e : Expression J) (depth : N) : lowering N :=
  let* limits := gets c_limits in
  if expression_depth limits <? depth then throw CompileCapacity
  else
    let* depth := require (checked_add usize_max depth 1) CompileCapacity in
    (if non_empty_sequence e then ret tt else reserve_instruction) ;;;
    ret depth.

(** The steps before a suffix already lowered. *)
Section steps.
Context (lower_one : Expression J -> lowering Lowered).

Fixpoint lower_before (steps : list (Expression J)) (suffix : Lowered) : lowering Lowered :=
  match steps with
  | [] => ret suffix
  | step :: steps =>
      let* suffix := lower_before steps suffix in
      let* first := lower_one step in
      chain first suffix
  end.

Fixpoint lower_sequence (steps : list (Expression J)) : lowering Lowered :=
  match steps with
  | [] => emit NInput
  | step :: rest =>
      match rest with
      | [] => lower_one step
      | _ =>
          let* suffix := lower_sequence rest in
          let* first := lower_one step in
          chain first suffix
      end
  end.
End steps.

Fixpoint lower_rec (e : Expression J) (depth : N) : lowering Lowered :=
  let* depth := enter e depth in
  match e with
  | ELet name value body =>
      let* v := lower_rec value depth in
      let* (slot, previous) := bind_name name in
      let* b := lower_rec body depth in
      unbind_name name previous ;;;
      emit (NLet slot (lowered_entry v) (lowered_entry b))
  | ESequence steps => lower_sequence (fun step => lower_rec step depth) steps
  | EIf x y z =>
      let* a := lower_rec x depth in
      let* b := lower_rec y depth in
      let* c := lower_rec z depth in
      emit (NBranch (lowered_entry a) (lowered_entry b) (lowered_entry c))
  | EWhile x y max =>
      let* a := lower_rec x depth in
      let* b := lower_rec y depth in
      emit (NWhile (lowered_entry a) (lowered_entry b) max)
  | EParallel x y =>
      let* a := lower_rec x depth in
      let* b := lower_rec y depth in
      emit (NFork (lowered_entry a) (lowered_entry b) All)
  | ERace x y =>
      let* a := lower_rec x depth in
      let* b := lower_rec y depth in
      emit (NFork (lowered_entry a) (lowered_entry b) Race)
  | ECatch x y =>
      let* a := lower_rec x depth in
      let* b := lower_rec y depth in
      emit (NCatch (lowered_entry a) (lowered_entry b))
  | EFinally x y =>
      let* a := lower_rec x depth in
      let* b := lower_rec y depth in
      emit (NFinally (lowered_entry a) (lowered_entry b))
  | EActing identity x =>
      let* import := add_import (ImportScope identity) in
      let* a := lower_rec x depth in
      emit (NScope import (lowered_entry a))
  | _ =>
      let* kind := lower_leaf e in
      emit kind
  end.

(** ** The loop follows the recursion *)

(** The turns of the loop on an expression. *)
Fixpoint lower_turns (e : Expression J) : nat :=
  S match e with
    | ELet _ a b | EWhile a b _ | EParallel a b | ERace a b | ECatch a b | EFinally a b =>
        S (lower_turns a) + S (lower_turns b)
    | ESequence steps =>
        match steps with
        | [x] => lower_turns x
        | _ =>
            (fix all (l : list (Expression J)) : nat :=
               match l with [] => O | x :: l' => (S (lower_turns x) + all l')%nat end) steps
        end
    | EIf a b c => S (lower_turns a) + (S (lower_turns b) + S (lower_turns c))
    | EActing _ body => S (lower_turns body)
    | _ => O
    end.

Lemma expression_size_parts e : expression_size e = S (sum_list_with expression_size (expression_parts e)).
Proof.
  destruct e; simpl; (lia || done).
Qed.

Lemma lower_turns_parts e :
  (lower_turns e <= S (sum_list_with (fun x => S (lower_turns x)) (expression_parts e)))%nat.
Proof.
  destruct e; simpl; try lia. apply le_n_S.
  assert (forall l, (fix all (l : list (Expression J)) : nat :=
    match l with [] => O | x :: l' => (S (lower_turns x) + all l')%nat end) l =
    sum_list_with (fun x => S (lower_turns x)) l) as Hall.
  { induction l as [|x l IH]; simpl; [done|]. by rewrite <- IH. }
  destruct steps as [|x [|y l]]; [done|simpl; lia|]. by rewrite Hall.
Qed.

Lemma lower_turns_size e : (lower_turns e < 2 * expression_size e)%nat.
Proof.
  induction e as [e IH] using expression_parts_ind.
  rewrite expression_size_parts. pose proof (lower_turns_parts e) as Ht.
  assert (sum_list_with (fun x => S (lower_turns x)) (expression_parts e)
          <= 2 * sum_list_with expression_size (expression_parts e))%nat; [|lia].
  clear Ht. induction IH as [|x l Hx _ IHl]; simpl in *; lia.
Qed.

(** The loop about to visit [e] is the recursion followed by the loop on the frames below. *)
Definition follows (e : Expression J) : Prop :=
  forall depth frames result fuel,
    lower_loop (lower_turns e + fuel) (mkLowering frames (Some (e, depth)) result) ≃
    (let* r := lower_rec e depth in lower_loop fuel (mkLowering frames None r)).

(** What a visit does once the expression has been entered. *)
Definition visit_body (e : Expression J) (depth : N) (frames : list (LowerFrame J))
    (result : Lowered) : lowering (Lowering J) :=
  match e with
  | ELet name value body =>
      ret (mkLowering (LetValue name body depth :: frames) (Some (value, depth)) result)
  | ESequence steps =>
      match reverse steps with
      | step :: remaining =>
          ret (mkLowering
                 (if negb (len remaining =? 0)
                  then SequenceOf remaining None depth :: frames else frames)
                 (Some (step, depth)) result)
      | [] => let* result := emit NInput in ret (mkLowering frames None result)
      end
  | EActing identity body =>
      let* import := add_import (ImportScope identity) in
      ret (mkLowering (ScopeOf import :: frames) (Some (body, depth)) result)
  | EIf x _ _ | EWhile x _ _ | EParallel x _ | ERace x _ | ECatch x _ | EFinally x _ =>
      ret (mkLowering (Composite e [0; 0; 0] 0 depth :: frames) (Some (x, depth)) result)
  | _ =>
      let* kind := lower_leaf e in
      let* result := emit kind in
      ret (mkLowering frames None result)
  end.

Lemma visit_enter e depth frames result :
  visit e depth frames result ≃ (let* depth := enter e depth in visit_body e depth frames result).
Proof.
  intros s. unfold visit, enter, bind, gets. destruct (_ <? _); [done|].
  destruct (require _ _ s) as [d s1|x s1|why]; [|done..].
  destruct (non_empty_sequence e); [by destruct e|].
  destruct (reserve_instruction s1) as [[] s2|x s2|why]; [|done..]. by destruct e.
Qed.

Lemma loop_visit fuel frames e depth result :
  lower_loop (S fuel) (mkLowering frames (Some (e, depth)) result) ≃
  (let* depth := enter e depth in
   let* l := visit_body e depth frames result in
   lower_loop fuel l).
Proof. simpl. rewrite visit_enter. apply bind_assoc. Qed.

Lemma loop_frame fuel frame frames result :
  lower_loop (S fuel) (mkLowering (frame :: frames) None result) =
  (let* l := lower_turn frame frames result in lower_loop fuel l).
Proof. done. Qed.

Lemma follows_loop e depth frames result fuel :
  follows e ->
  lower_loop (lower_turns e + fuel) (mkLowering frames (Some (e, depth)) result) ≃
  (let* r := lower_rec e depth in lower_loop fuel (mkLowering frames None r)).
Proof. auto. Qed.

(** A part: the loop visits it and returns to the frame on top. *)
Lemma follows_part e depth frame frames result fuel :
  follows e ->
  lower_loop (S (lower_turns e) + fuel) (mkLowering (frame :: frames) (Some (e, depth)) result) ≃
  (let* r := lower_rec e depth in
   let* l := lower_turn frame frames r in
   lower_loop fuel l).
Proof.
  intros He. replace (S (lower_turns e) + fuel)%nat with (lower_turns e + S fuel)%nat by lia.
  apply He.
Qed.

Lemma turn_let_value name body depth frames r :
  lower_turn (LetValue name body depth) frames r ≃
  (let* (slot, previous) := bind_name name in
   ret (mkLowering (LetBody name slot (lowered_entry r) previous :: frames)
          (Some (body, depth)) r)).
Proof.
  intros s. unfold lower_turn, bind_name, bind, gets.
  destruct (require _ _ s) as [slot s1|?|?]; [|done..].
  by destruct (expect _ _ s1).
Qed.

Lemma turn_let_body name slot value previous frames r :
  lower_turn (LetBody name slot value previous) frames r ≃
  (let* _ := unbind_name name previous in
   let* r := emit (NLet slot value (lowered_entry r)) in
   ret (mkLowering frames None r)).
Proof.
  intros s. unfold lower_turn, unbind_name, bind, gets.
  by destruct (expect _ _ s).
Qed.

(** A turn that ends in an instruction. *)
Lemma bind_emit kind frames fuel :
  (let* l := let* r := emit kind in ret (mkLowering frames None r) in lower_loop fuel l) ≃
  (let* r := emit kind in lower_loop fuel (mkLowering frames None r)).
Proof. apply bind_assoc. Qed.

Ltac enter_expression := intros depth frames result fuel;
  match goal with
  | |- lower_loop (lower_turns ?e + _) _ ≃ _ =>
      let n := eval cbn [lower_turns] in (lower_turns e) in
      match n with S ?n => change (lower_turns e + fuel)%nat with (S (n + fuel)) end
  end;
  rewrite loop_visit; cbn [lower_rec]; rewrite bind_assoc; apply bind_ext; intros d;
  unfold visit_body; rewrite <- ?Nat.add_assoc.

Lemma follows_let name x y : follows x -> follows y -> follows (ELet name x y).
Proof.
  intros Hx Hy. enter_expression. rewrite bind_ret_l, follows_part by done.
  rewrite bind_assoc. apply bind_ext. intros r. rewrite turn_let_value, !bind_assoc.
  apply bind_ext. intros [slot previous]. rewrite bind_ret_l, follows_part by done.
  rewrite bind_assoc. apply bind_ext. intros b. rewrite turn_let_body, bind_assoc.
  symmetry. rewrite bind_assoc. apply bind_ext. intros _. symmetry. apply bind_emit.
Qed.

Lemma follows_acting identity x : follows x -> follows (EActing identity x).
Proof.
  intros Hx. enter_expression. rewrite !bind_assoc. apply bind_ext. intros import.
  rewrite bind_ret_l, follows_part by done.
  rewrite bind_assoc. apply bind_ext. intros r. apply bind_emit.
Qed.

(** A composite of two parts. *)
Ltac two_parts := enter_expression; rewrite bind_ret_l, follows_part by done;
  rewrite bind_assoc; apply bind_ext; intros a; cbn [lower_turn];
  etransitivity; [apply bind_ret_l|]; rewrite follows_part by done;
  rewrite bind_assoc; apply bind_ext; intros b; apply bind_emit.

Lemma follows_while x y max : follows x -> follows y -> follows (EWhile x y max).
Proof. intros Hx Hy. two_parts. Qed.

Lemma follows_parallel x y : follows x -> follows y -> follows (EParallel x y).
Proof. intros Hx Hy. two_parts. Qed.

Lemma follows_race x y : follows x -> follows y -> follows (ERace x y).
Proof. intros Hx Hy. two_parts. Qed.

Lemma follows_catch x y : follows x -> follows y -> follows (ECatch x y).
Proof. intros Hx Hy. two_parts. Qed.

Lemma follows_finally x y : follows x -> follows y -> follows (EFinally x y).
Proof. intros Hx Hy. two_parts. Qed.

Lemma follows_if x y z : follows x -> follows y -> follows z -> follows (EIf x y z).
Proof.
  intros Hx Hy Hz. enter_expression. rewrite bind_ret_l, follows_part by done.
  rewrite bind_assoc. apply bind_ext. intros a. cbn [lower_turn].
  etransitivity; [apply bind_ret_l|]. rewrite follows_part by done.
  rewrite bind_assoc. apply bind_ext. intros b. cbn [lower_turn].
  etransitivity; [apply bind_ret_l|]. rewrite follows_part by done.
  rewrite bind_assoc. apply bind_ext. intros c. apply bind_emit.
Qed.

(** ** Sequences: the last step first *)

Lemma lower_before_app lower_one (l1 l2 : list (Expression J)) suffix :
  lower_before lower_one (l1 ++ l2) suffix ≃
  (let* suffix := lower_before lower_one l2 suffix in lower_before lower_one l1 suffix).
Proof.
  induction l1 as [|x l1 IH]; simpl; [by rewrite bind_ret_r|]. rewrite IH. apply bind_assoc.
Qed.

Lemma lower_sequence_snoc lower_one (l : list (Expression J)) x :
  lower_sequence lower_one (l ++ [x]) ≃
  (let* suffix := lower_one x in lower_before lower_one l suffix).
Proof.
  induction l as [|y l IH]; [by rewrite bind_ret_r|].
  simpl lower_before. rewrite <- bind_assoc, <- IH. by destruct l.
Qed.

Definition steps_turns (l : list (Expression J)) : nat :=
  sum_list_with (fun x => S (lower_turns x)) l.

Lemma follows_remaining remaining :
  Forall follows remaining ->
  forall depth suffix frames r fuel,
  lower_loop (S (steps_turns remaining) + fuel)
    (mkLowering (SequenceOf remaining (Some suffix) depth :: frames) None r) ≃
  (let* suffix := chain r suffix in
   let* r := lower_before (fun x => lower_rec x depth) (reverse remaining) suffix in
   lower_loop fuel (mkLowering frames None r)).
Proof.
  induction 1 as [|x rest Hx _ IH]; intros depth suffix frames r fuel; simpl Nat.add;
    rewrite loop_frame; cbn [lower_turn]; fold (chain r suffix); rewrite bind_assoc;
    apply bind_ext; intros acc; [by rewrite !bind_ret_l|].
  rewrite bind_ret_l, reverse_cons, lower_before_app.
  replace (S (lower_turns x + steps_turns rest + fuel))%nat with
    (lower_turns x + (S (steps_turns rest) + fuel))%nat by lia.
  rewrite follows_loop, bind_assoc by done. simpl lower_before. rewrite bind_ret_l, bind_assoc.
  apply bind_ext. intros rx. apply IH.
Qed.

Lemma steps_turns_sequence l x :
  lower_turns (ESequence (l ++ [x])) =
  match l with
  | [] => S (lower_turns x)
  | _ => S (steps_turns (reverse l) + S (lower_turns x))
  end.
Proof.
  assert (forall l, (fix all (l : list (Expression J)) : nat :=
    match l with [] => O | x :: l' => (S (lower_turns x) + all l')%nat end) (l ++ [x]) =
    steps_turns l + S (lower_turns x))%nat as Hsum.
  { intros k. induction k as [|y k IHk]; simpl in *; lia. }
  unfold steps_turns. rewrite sum_list_with_reverse.
  destruct l as [|y [|z l]]; [done|simpl; lia|]. simpl. rewrite Hsum. unfold steps_turns. lia.
Qed.

Lemma follows_sequence steps : Forall follows steps -> follows (ESequence steps).
Proof.
  intros Hall. destruct steps as [|x steps _] using rev_ind; [enter_expression; apply bind_assoc|].
  apply Forall_app in Hall as [Hall [Hx _]%Forall_cons]. intros depth frames result fuel.
  rewrite steps_turns_sequence. cbn [lower_rec].
  assert (forall fuel, lower_loop (S fuel) (mkLowering frames (Some (ESequence (steps ++ [x]), depth)) result) ≃
    (let* d := enter (ESequence (steps ++ [x])) depth in
     lower_loop fuel (mkLowering (if negb (len (reverse steps) =? 0)
        then SequenceOf (reverse steps) None d :: frames else frames) (Some (x, d)) result))) as Hvisit.
  { intros n. rewrite loop_visit. apply bind_ext. intros d. unfold visit_body.
    rewrite reverse_snoc. apply bind_ret_l. }
  destruct (reverse steps) as [|y rest] eqn:Hrev.
  { apply (f_equal reverse) in Hrev. rewrite reverse_involutive in Hrev. subst steps.
    simpl Nat.add. rewrite Hvisit, bind_assoc. apply bind_ext. intros d.
    rewrite lower_sequence_snoc, bind_assoc. simpl. by apply follows_loop. }
  destruct steps as [|z steps']; [done|]. set (steps := z :: steps') in *.
  simpl Nat.add. rewrite Hvisit, bind_assoc. apply bind_ext. intros d. clear Hvisit.
  rewrite lower_sequence_snoc, bind_assoc.
  assert (steps = reverse rest ++ [y]) as -> by (rewrite <- (reverse_involutive steps), Hrev; apply reverse_cons).
  assert (Forall follows (y :: rest)) as [Hy Hrest]%Forall_cons by (rewrite <- Hrev; by apply Forall_reverse).
  change (negb (len (y :: rest) =? 0)) with true.
  replace (S (lower_turns y + steps_turns rest + S (lower_turns x) + fuel))%nat with
    (lower_turns x + S (lower_turns y + (S (steps_turns rest) + fuel)))%nat by lia.
  rewrite follows_loop by done. apply bind_ext. intros r.
  rewrite loop_frame. cbn [lower_turn]. rewrite !bind_ret_l, follows_loop, lower_before_app by done.
  simpl lower_before. rewrite !bind_assoc, bind_ret_l, bind_assoc. apply bind_ext. intros ry.
  by apply follows_remaining.
Qed.

Lemma lower_follows e : follows e.
Proof.
  induction e as [e IH] using expression_parts_ind.
  destruct e; simpl in IH; decompose_Forall_hyps;
    eauto using follows_let, follows_sequence, follows_if, follows_while, follows_parallel,
      follows_race, follows_catch, follows_finally, follows_acting.
  all: enter_expression; rewrite !bind_assoc; apply bind_ext; intros kind; apply bind_emit.
Qed.

(** The loop computes the recursion: its fuel is never spent. *)
Lemma lower_is_recursion e depth :
  lower e depth ≃ (let* r := lower_rec e depth in ret (lowered_entry r)).
Proof.
  unfold lower. pose proof (lower_turns_size e) as Hsize.
  replace (2 * expression_size e)%nat with
    (lower_turns e + (2 * expression_size e - lower_turns e))%nat by lia.
  rewrite follows_loop by apply lower_follows. apply bind_ext. intros r.
  by destruct (2 * expression_size e - lower_turns e)%nat.
Qed.
End recursion.
