(* ===== verification/PortableCode.v ===== *)
(** * Code of an expression

    What it means for a range of instructions to be the code of an expression, read off the
    instructions alone: lexical addresses, control edges, imports and calls. *)

From stdpp Require Import base numbers list option strings gmap.
From S2P Require Import Prelude Program Text Path Collection ValueList ValueMap Value Source.
From S2P Require Import Portable PortableLower.

Local Open Scope N_scope.

Section code.
Context {J : Type} `{JsonNumber J}.
Context (target : text -> N).
Implicit Types (e : Expression J) (ns : list (Node Value Failure)) (imps : list Import)
  (image : ProgramImage Value Failure).

(** ** Measures of a source *)

(** Instructions in the code of an expression: a sequence with steps has none of its own. *)
Fixpoint instructions e : N :=
  match e with
  | ELet _ x y | EWhile x y _ | EParallel x y | ERace x y | ECatch x y | EFinally x y =>
      instructions x + instructions y + 1
  | ESequence [] => 1
  | ESequence steps =>
      (fix total (l : list (Expression J)) : N :=
         match l with [] => 0 | x :: l' => instructions x + total l' end) steps
  | EIf x y z => instructions x + instructions y + instructions z + 1
  | EActing _ x => instructions x + 1
  | _ => 1
  end.

(** How deep expressions are nested below one. *)
Fixpoint nesting e : N :=
  match e with
  | ELet _ x y | EWhile x y _ | EParallel x y | ERace x y | ECatch x y | EFinally x y =>
      N.max (nesting x) (nesting y) + 1
  | ESequence [] => 0
  | ESequence steps =>
      (fix deepest (l : list (Expression J)) : N :=
         match l with [] => 0 | x :: l' => N.max (nesting x) (deepest l') end) steps + 1
  | EIf x y z => N.max (nesting x) (N.max (nesting y) (nesting z)) + 1
  | EActing _ x => nesting x + 1
  | _ => 0
  end.

(** How many bindings are live at once. *)
Fixpoint binders e : N :=
  match e with
  | ELet _ x y => N.max (binders x) (binders y + 1)
  | EWhile x y _ | EParallel x y | ERace x y | ECatch x y | EFinally x y =>
      N.max (binders x) (binders y)
  | ESequence steps =>
      (fix most (l : list (Expression J)) : N :=
         match l with [] => 0 | x :: l' => N.max (binders x) (most l') end) steps
  | EIf x y z => N.max (binders x) (N.max (binders y) (binders z))
  | EActing _ x => binders x
  | _ => 0
  end.

(** [free_in x e]: an occurrence of [x] in [e] that no binder in [e] captures. *)
Inductive free_in (x : text) : Expression J -> Prop :=
| free_use : free_in x (EUse x)
| free_value y value body : free_in x value -> free_in x (ELet y value body)
| free_body y value body : x <> y -> free_in x body -> free_in x (ELet y value body)
| free_part e part :
    (forall y value body, e <> ELet y value body) ->
    part ∈ expression_parts e -> free_in x part -> free_in x e.

(** [inside part e]: [part] occurs in [e]. *)
Inductive inside (part : Expression J) : Expression J -> Prop :=
| inside_self : inside part part
| inside_part e outer : outer ∈ expression_parts e -> inside part outer -> inside part e.

Definition bad_literal e : Prop := exists j f, inside (ELiteral j) e /\ json_value j = Err f.

(** ** Codes *)

(** The instruction at an address, with what follows it. *)
Definition holds ns (i : N) (kind : NodeKind Value Failure) (next : option N) : Prop :=
  get ns i = Some (mkNode kind next i).

(** The instruction of an expression without parts, in the scope [names]. *)
Inductive leaf_code imps (names : gmap text N) : Expression J -> NodeKind Value Failure -> Prop :=
| leaf_literal j v : json_value j = Ok v -> leaf_code imps names (ELiteral j) (NLiteral v)
| leaf_constant v : leaf_code imps names (EConstant v) (NLiteral v)
| leaf_input : leaf_code imps names EInput NInput
| leaf_empty : leaf_code imps names (ESequence []) NInput
| leaf_use x slot : names !! x = Some slot -> leaf_code imps names (EUse x) (NLoad slot)
| leaf_invoke op i : get imps i = Some (ImportOperation op) ->
    leaf_code imps names (EInvoke op) (NRequest i)
| leaf_transform op i : get imps i = Some (ImportTransform op) ->
    leaf_code imps names (ETransform op) (NRequest i)
| leaf_wait w i : get imps i = Some (ImportWait w) -> leaf_code imps names (EWait w) (NRequest i)
| leaf_module m i : get imps i = Some (ImportModule m) ->
    leaf_code imps names (EModule m) (NRequest i)
| leaf_call f : leaf_code imps names (ECall f) (NCall (target f))
| leaf_fail m :
    leaf_code imps names (EFail m) (NFail (failure_policy (t "program") m)).

(** The expressions of two parts in one scope, and the instruction that joins their codes. *)
Inductive two_parts : Expression J -> Expression J -> Expression J ->
    (N -> N -> NodeKind Value Failure) -> Prop :=
| two_while x y max : two_parts (EWhile x y max) x y (fun a b => NWhile a b max)
| two_parallel x y : two_parts (EParallel x y) x y (fun a b => NFork a b All)
| two_race x y : two_parts (ERace x y) x y (fun a b => NFork a b Race)
| two_catch x y : two_parts (ECatch x y) x y NCatch
| two_finally x y : two_parts (EFinally x y) x y NFinally.

(** [code imps ns names level e lo hi a b next]: the instructions [lo..hi] are the code of
    [e] where [names] are in scope and [level] bindings are live. It starts at [a]; its last
    instruction is [b], and control goes on to [next]. *)
Inductive code imps ns : gmap text N -> N -> Expression J -> N -> N -> N -> N -> option N -> Prop :=
| code_leaf names level e lo kind next :
    leaf_code imps names e kind -> holds ns lo kind next ->
    code imps ns names level e lo (lo + 1) lo lo next
| code_let names level x value body lo mid last va vb ba bb next :
    code imps ns names level value lo mid va vb None ->
    code imps ns (<[x := level]> names) (level + 1) body mid last ba bb None ->
    holds ns last (NLet level va ba) next ->
    code imps ns names level (ELet x value body) lo (last + 1) last last next
| code_two names level e x y kind lo mid last a a' b b' next :
    two_parts e x y kind ->
    code imps ns names level x lo mid a a' None ->
    code imps ns names level y mid last b b' None ->
    holds ns last (kind a b) next ->
    code imps ns names level e lo (last + 1) last last next
| code_if names level x y z lo mid mid' last a a' b b' c c' next :
    code imps ns names level x lo mid a a' None ->
    code imps ns names level y mid mid' b b' None ->
    code imps ns names level z mid' last c c' None ->
    holds ns last (NBranch a b c) next ->
    code imps ns names level (EIf x y z) lo (last + 1) last last next
| code_acting names level identity x i lo last a a' next :
    get imps i = Some (ImportScope identity) ->
    code imps ns names level x lo last a a' None ->
    holds ns last (NScope i a) next ->
    code imps ns names level (EActing identity x) lo (last + 1) last last next
| code_sequence names level steps lo hi a b next :
    code_steps imps ns names level steps lo hi a b next ->
    code imps ns names level (ESequence steps) lo hi a b next
(** Every step's code goes on to the next step's; the last step's code is lowest. *)
with code_steps imps ns : gmap text N -> N -> list (Expression J) -> N -> N -> N -> N -> option N -> Prop :=
| code_last names level x lo hi a b next :
    code imps ns names level x lo hi a b next ->
    code_steps imps ns names level [x] lo hi a b next
| code_step names level x rest lo mid hi a b a' b' next :
    code_steps imps ns names level rest lo mid a' b' next ->
    code imps ns names level x mid hi a b (Some a') ->
    code_steps imps ns names level (x :: rest) lo hi a b' next.

Scheme code_mut := Minimality for code Sort Prop
  with code_steps_mut := Minimality for code_steps Sort Prop.
Combined Scheme code_mutual from code_mut, code_steps_mut.

(** ** Ranges *)

Lemma code_range imps ns :
  (forall names level e lo hi a b next, code imps ns names level e lo hi a b next ->
     lo <= a < hi /\ lo <= b < hi) /\
  (forall names level steps lo hi a b next, code_steps imps ns names level steps lo hi a b next ->
     lo <= a < hi /\ lo <= b < hi).
Proof. apply code_mutual; intros; lia. Qed.

Lemma leaf_code_imports imps imps' names e kind :
  imps `prefix_of` imps' -> leaf_code imps names e kind -> leaf_code imps' names e kind.
Proof. intros [l ->] []; constructor; eauto using get_app_l. Qed.

Lemma holds_agree ns ns' i kind next :
  get ns' i = get ns i -> holds ns i kind next -> holds ns' i kind next.
Proof. unfold holds. congruence. Qed.

(** Bounds of the codes among the hypotheses. *)
Ltac code_bounds := repeat match goal with
  | C : code _ _ _ _ _ _ _ _ _ _ |- _ =>
      pose proof (proj1 (code_range _ _) _ _ _ _ _ _ _ _ C); revert C
  | C : code_steps _ _ _ _ _ _ _ _ _ _ |- _ =>
      pose proof (proj2 (code_range _ _) _ _ _ _ _ _ _ _ C); revert C
  end; intros.

(** A premise of a rule of [code], from the agreement of the instructions on a range. *)
Ltac carry := match goal with
  | Hagree : forall i, _ -> get _ i = get _ i |- _ =>
      solve [ eapply holds_agree; [apply Hagree; lia|eassumption]
            | match goal with IH : (forall i, _ -> get _ i = get _ i) -> _ |- _ =>
                apply IH; intros; apply Hagree; lia end ]
  end.

(** Code depends on its own range only, and may see more imports. *)
Lemma code_transfer imps imps' ns ns' :
  imps `prefix_of` imps' ->
  (forall names level e lo hi a b next, code imps ns names level e lo hi a b next ->
     (forall i, lo <= i < hi -> get ns' i = get ns i) ->
     code imps' ns' names level e lo hi a b next) /\
  (forall names level steps lo hi a b next, code_steps imps ns names level steps lo hi a b next ->
     (forall i, lo <= i < hi -> get ns' i = get ns i) ->
     code_steps imps' ns' names level steps lo hi a b next).
Proof.
  intros Himps. apply code_mutual; intros; code_bounds.
  - eapply code_leaf; [by eapply leaf_code_imports|carry].
  - eapply code_let; carry.
  - eapply code_two; [done|carry..].
  - eapply code_if; carry.
  - destruct Himps as [l ->]. eapply code_acting; [eauto using get_app_l|carry..].
  - eapply code_sequence. carry.
  - eapply code_last. carry.
  - eapply code_step; carry.
Qed.

(** [nodes[tail].next = Some(entry)] as a function. *)
Definition linked ns (tail entry : N) : list (Node Value Failure) :=
  match get ns tail with
  | Some node => upd ns tail (mkNode (node_kind node) (Some entry) (node_position node))
  | None => ns
  end.

Lemma linked_ne ns tail entry i : i <> tail -> get (linked ns tail entry) i = get ns i.
Proof. intros. unfold linked. destruct (get ns tail); [|done]. by apply get_upd_ne. Qed.

Lemma linked_holds ns tail entry kind next :
  holds ns tail kind next -> holds (linked ns tail entry) tail kind (Some entry).
Proof. unfold holds, linked. intros E. rewrite E. simpl. eauto using get_upd_eq, get_Some_lt. Qed.

(** Linking the last instruction sends control on to the given address. *)
Lemma code_linked imps ns entry :
  (forall names level e lo hi a b next, code imps ns names level e lo hi a b next ->
     code imps (linked ns b entry) names level e lo hi a b (Some entry)) /\
  (forall names level steps lo hi a b next, code_steps imps ns names level steps lo hi a b next ->
     code_steps imps (linked ns b entry) names level steps lo hi a b (Some entry)).
Proof.
  assert (forall names level e lo hi a b next tail, code imps ns names level e lo hi a b next ->
    ~ (lo <= tail < hi) -> code imps (linked ns tail entry) names level e lo hi a b next) as Hout.
  { intros names level e lo hi a b next tail Hc Htail. eapply code_transfer; [done|done|].
    intros i Hi. apply linked_ne. intros ->. lia. }
  apply code_mutual; intros; code_bounds.
  - eapply code_leaf; eauto using linked_holds.
  - eapply code_let; [apply Hout; [done|lia]..|eauto using linked_holds].
  - eapply code_two; [done|apply Hout; [done|lia]..|].
    eapply (linked_holds ns last0 entry (kind _ _)). eassumption.
  - eapply code_if; [apply Hout; [done|lia]..|eauto using linked_holds].
  - eapply code_acting; [done|apply Hout; [done|lia]|eauto using linked_holds].
  - by eapply code_sequence.
  - by eapply code_last.
  - eapply code_step; [done|apply Hout; [done|lia]].
Qed.

(** ** Addresses of code *)

Definition resolved image (i : N) : Prop :=
  exists n, get (nodes image) i = Some n /\ node_position n = i /\
    Forall (resolves image) (addresses n).

Definition scope_below (names : gmap text N) (level : N) : Prop :=
  forall x slot, names !! x = Some slot -> slot < level.

Lemma scope_below_insert names level x :
  scope_below names level -> scope_below (<[x := level]> names) (level + 1).
Proof.
  intros Hn y slot [[_ <-]|[_ Hy]]%lookup_insert_Some; [lia|]. apply Hn in Hy. lia.
Qed.

Lemma leaf_code_resolves image imps names level e kind next lo :
  len imps = imports image -> scope_below names level -> level <= image_bindings image ->
  (forall f, target f < len (nodes image)) ->
  (forall n, next = Some n -> n < len (nodes image)) ->
  leaf_code imps names e kind ->
  Forall (resolves image) (addresses (mkNode kind next lo)).
Proof.
  intros Himps Hnames Hlevel Htarget Hnext Hleaf. apply Forall_app. split.
  { destruct next as [n|]; simpl; [|done]. repeat constructor. by apply Hnext. }
  destruct Hleaf as [| | | |x slot Hx| | | | | |]; simpl; repeat constructor; simpl; auto;
    rewrite <- ?Himps; eauto using get_Some_lt.
  specialize (Hnames _ _ Hx). lia.
Qed.

(** An instruction resolves when its own addresses and the one it goes on to do. *)
Lemma holds_resolved image i kind next :
  holds (nodes image) i kind next ->
  (forall n, next = Some n -> n < len (nodes image)) ->
  Forall (resolves image) (addresses (mkNode kind None i)) -> resolved image i.
Proof.
  intros Hh Hn Hk. eexists. split; [done|]. split; [done|]. apply Forall_app. split; [|done].
  destruct next as [n|]; simpl; [|done]. repeat constructor. by apply Hn.
Qed.

Lemma two_parts_binders e x y kind :
  two_parts e x y kind -> binders e = N.max (binders x) (binders y).
Proof. by intros []. Qed.

Lemma code_in_image imps image :
  (forall names level e lo hi a b next,
     code imps (nodes image) names level e lo hi a b next -> hi <= len (nodes image)) /\
  (forall names level steps lo hi a b next,
     code_steps imps (nodes image) names level steps lo hi a b next -> hi <= len (nodes image)).
Proof.
  apply code_mutual; intros; try done;
    match goal with Hh : holds _ _ _ _ |- _ => apply get_Some_lt in Hh; lia end.
Qed.

Definition steps_binders (steps : list (Expression J)) : N := binders (ESequence steps).

(** An address among a composite's: its own instruction, or one of a part. *)
Ltac composite_resolved := match goal with
  | Hh : holds _ ?last _ _ |- resolved _ ?i =>
      pose proof (get_Some_lt _ _ _ Hh); code_bounds;
      destruct (decide (i = last)) as [->|];
      [ eapply holds_resolved; [exact Hh|assumption|repeat constructor; simpl; eauto with lia]
      | match goal with IH : context [resolved _ _] |- _ =>
          apply IH; solve [eauto using scope_below_insert with lia | lia | done] end ]
  end.

(** Every address in the code of an expression resolves in its image. *)
Lemma code_resolved imps image :
  len imps = imports image ->
  (forall f, target f < len (nodes image)) ->
  (forall names level e lo hi a b next,
     code imps (nodes image) names level e lo hi a b next ->
     scope_below names level -> level + binders e <= image_bindings image ->
     (forall n, next = Some n -> n < len (nodes image)) ->
     forall i, lo <= i < hi -> resolved image i) /\
  (forall names level steps lo hi a b next,
     code_steps imps (nodes image) names level steps lo hi a b next ->
     scope_below names level -> level + steps_binders steps <= image_bindings image ->
     (forall n, next = Some n -> n < len (nodes image)) ->
     forall i, lo <= i < hi -> resolved image i).
Proof.
  intros Himps Htarget. apply code_mutual.
  - intros names level e lo kind next Hleaf Hh Hs Hb Hn i Hi. replace i with lo by lia.
    eapply holds_resolved; [done|done|]. eapply leaf_code_resolves; eauto; [lia|done].
  - intros names level x v b lo mid last va vb ba bb next Hv IHv Hb IHb Hh Hs Hbind Hn i Hi.
    simpl in Hbind. destruct (decide (i < mid)); composite_resolved.
  - intros names level e x y kind lo mid last a a' b b' next Htwo Hx IHx Hy IHy Hh Hs Hbind Hn i Hi.
    erewrite two_parts_binders in Hbind by done.
    destruct (decide (i < mid)), Htwo; composite_resolved.
  - intros names level x y z lo m m' last a a' b b' c c' next Hx IHx Hy IHy Hz IHz Hh Hs Hbind Hn i Hi.
    simpl in Hbind. destruct (decide (i < m)), (decide (i < m')); composite_resolved.
  - intros names level identity x k lo last a a' next Hk Hx IHx Hh Hs Hbind Hn i Hi.
    simpl in Hbind. apply get_Some_lt in Hk. rewrite Himps in Hk. composite_resolved.
  - intros names level steps lo hi a b next Hsteps IH Hs Hbind Hn. by apply IH.
  - intros names level x lo hi a b next Hx IHx Hs Hbind Hn.
    apply IHx; [done| |done]. unfold steps_binders in Hbind. simpl in Hbind. lia.
  - intros names level x rest lo mid hi a b a' b' next Hrest IHrest Hx IHx Hs Hbind Hn i Hi.
    assert (level + steps_binders rest <= image_bindings image /\
            level + binders x <= image_bindings image) as [].
    { unfold steps_binders in *. simpl in Hbind. simpl. lia. }
    pose proof (proj1 (code_in_image _ _) _ _ _ _ _ _ _ _ Hx). code_bounds.
    destruct (decide (i < mid)); [apply IHrest|apply IHx]; auto; try lia.
    intros k [= <-]. lia.
Qed.
End code.
