(* ===== verification/PortableSpec.v ===== *)
(** * What lowering an expression does

    The recursion of PortableLower.v against the codes of PortableCode.v: on success it adds
    the code of the expression and nothing else; a refusal names a defect of the source. *)

From stdpp Require Import base numbers list option strings gmap.
From S2P Require Import Prelude Program Text Path Collection ValueList ValueMap Value Source.
From S2P Require Import Portable PortableLower PortableCode.

Local Open Scope N_scope.
Local Open Scope comp_scope.

(** ** Pending calls

    A call is emitted as a placeholder and linked at the end. The instructions are read as
    they will be once every recorded call has its target. *)
Section calls.
Context (target : text -> N).
Implicit Types (ns : list (Node Value Failure)) (calls : list (N * text)).

Definition linked_call ns (call : N * text) : list (Node Value Failure) :=
  match get ns (fst call) with
  | Some node =>
      upd ns (fst call) (mkNode (NCall (target (snd call))) (node_next node) (node_position node))
  | None => ns
  end.

Definition linked_calls ns calls : list (Node Value Failure) := foldl linked_call ns calls.

Lemma len_linked_call ns call : len (linked_call ns call) = len ns.
Proof. unfold linked_call. destruct (get ns _); [apply len_upd|done]. Qed.

Lemma len_linked_calls ns calls : len (linked_calls ns calls) = len ns.
Proof.
  revert ns. induction calls as [|call calls IH]; intros ns; simpl; [done|].
  unfold linked_calls in IH. by rewrite IH, len_linked_call.
Qed.

Lemma linked_calls_app ns calls n :
  Forall (fun call => fst call < len ns) calls ->
  linked_calls (ns ++ [n]) calls = linked_calls ns calls ++ [n].
Proof.
  revert ns. induction calls as [|call calls IH]; intros ns Hall; simpl; [done|].
  apply Forall_cons in Hall as [Hc Hall].
  unfold linked_calls in *. rewrite <- IH; [|by rewrite len_linked_call].
  f_equal. unfold linked_call. rewrite get_app_lt by done.
  destruct (get ns _); [by apply upd_app_l|done].
Qed.

(** Linking a call and linking a continuation do not disturb each other. *)
Lemma linked_call_linked ns call tail entry :
  linked_call (linked ns tail entry) call = linked (linked_call ns call) tail entry.
Proof.
  destruct call as [i f]. unfold linked_call, linked. simpl.
  destruct (get ns i) as [n|] eqn:Ei, (get ns tail) as [m|] eqn:Et;
    destruct (decide (i = tail)) as [->|Hne]; simplify_eq/=;
    rewrite ?get_upd_eq, ?get_upd_ne, ?upd_upd, ?Et, ?Ei by eauto using get_Some_lt; simpl;
    rewrite ?get_upd_eq, ?get_upd_ne, ?upd_upd, ?Et, ?Ei by eauto using get_Some_lt; try done.
  by apply upd_comm.
Qed.

Lemma linked_calls_linked ns calls tail entry :
  linked_calls (linked ns tail entry) calls = linked (linked_calls ns calls) tail entry.
Proof.
  revert ns. induction calls as [|call calls IH]; intros ns; simpl; [done|].
  unfold linked_calls in *. by rewrite linked_call_linked, IH.
Qed.
End calls.

Section spec.
Context {J : Type} `{JsonNumber J}.
Context (target : text -> N).
Implicit Types (e : Expression J) (s : Compiler).

(** The instructions of a compiler with every recorded call linked. *)
Definition linked_view s : list (Node Value Failure) := linked_calls target (c_nodes s) (c_calls s).

(** A compiler between two expressions: room is reserved ahead of instructions, imports and
    bindings, and the names in scope have live slots. *)
Record compiler_ok s : Prop := {
  ok_nodes : len (c_nodes s) <= c_reserved s;
  ok_imports : len (c_imports s) <= c_reserved s;
  ok_live : c_live_bindings s <= c_reserved s;
  ok_reserved : c_reserved s <= u32_max + 1;
  ok_limit : c_reserved s <= limit_instructions (c_limits s);
  ok_bindings : c_live_bindings s <= c_bindings s;
  ok_names : scope_below (c_names s) (c_live_bindings s);
  ok_calls : Forall (fun call => fst call < len (c_nodes s)) (c_calls s)
}.

(** Nothing emitted before changes. *)
Record extends s s' : Prop := {
  ext_limits : c_limits s' = c_limits s;
  ext_functions : c_functions s' = c_functions s;
  ext_len : len (c_nodes s) <= len (c_nodes s');
  ext_view : forall i, i < len (c_nodes s) -> get (linked_view s') i = get (linked_view s) i;
  ext_imports : c_imports s `prefix_of` c_imports s';
  ext_calls : c_calls s `prefix_of` c_calls s'
}.

Lemma extends_refl s : extends s s.
Proof. by split. Qed.

Lemma extends_trans s1 s2 s3 : extends s1 s2 -> extends s2 s3 -> extends s1 s3.
Proof.
  intros [] []. split; try congruence; try lia; try by etransitivity.
  intros i Hi. rewrite ext_view1 by lia. by apply ext_view0.
Qed.

(** Code emitted earlier is still there. *)
Lemma code_extends s s' names level e lo hi a b next :
  extends s s' -> hi <= len (c_nodes s) ->
  code target (c_imports s) (linked_view s) names level e lo hi a b next ->
  code target (c_imports s') (linked_view s') names level e lo hi a b next.
Proof.
  intros Hext Hhi Hcode. eapply code_transfer; [by apply ext_imports|done|].
  intros i Hi. apply (ext_view _ _ Hext). lia.
Qed.

Lemma code_steps_extends s s' names level steps lo hi a b next :
  extends s s' -> hi <= len (c_nodes s) ->
  code_steps target (c_imports s) (linked_view s) names level steps lo hi a b next ->
  code_steps target (c_imports s') (linked_view s') names level steps lo hi a b next.
Proof.
  intros Hext Hhi Hcode. eapply code_transfer; [by apply ext_imports|done|].
  intros i Hi. apply (ext_view _ _ Hext). lia.
Qed.

(** The limits an expression at a depth keeps, from a number of instructions on. *)
Definition within (limits : CompileLimits) (reserved depth : N) e : Prop :=
  depth + nesting e <= expression_depth limits /\ depth + nesting e < usize_max /\
  reserved + instructions e <= limit_instructions limits /\
  reserved + instructions e <= u32_max + 1.

(** The functions an expression calls. *)
Definition calls_in e (f : text) : Prop := inside (ECall f) e.

(** What lowering [e] from [s] has added. *)
Record lowered e (depth : N) s (r : Lowered) s' : Prop := {
  low_ok : compiler_ok s';
  low_extends : extends s s';
  low_names : c_names s' = c_names s;
  low_live : c_live_bindings s' = c_live_bindings s;
  low_bindings : c_bindings s' = N.max (c_bindings s) (c_live_bindings s + binders e);
  low_nodes : len (c_nodes s') = len (c_nodes s) + instructions e;
  low_reserved : c_reserved s' = c_reserved s + instructions e;
  low_code : code target (c_imports s') (linked_view s') (c_names s) (c_live_bindings s) e
    (len (c_nodes s)) (len (c_nodes s')) (lowered_entry r) (lowered_tail r) None;
  low_within : within (c_limits s) (c_reserved s) depth e;
  low_closed : forall x, free_in x e -> is_Some (c_names s !! x);
  low_literals : ~ bad_literal e;
  low_calls : forall f, f ∈ (c_calls s').*2 <-> f ∈ (c_calls s).*2 \/ calls_in e f
}.

(** Why lowering [e] from [s] is refused. *)
Definition refused e (depth : N) s (x : CompileError) : Prop :=
  match x with
  | CompileCapacity => ~ within (c_limits s) (c_reserved s) depth e
  | Variable_ name => free_in name e /\ c_names s !! name = None
  | Encoding => bad_literal e
  | _ => False
  end.

Definition lowers e : Prop := forall depth s,
  compiler_ok s ->
  wp (lower_rec e depth) (lowered e depth s) (fun x _ => refused e depth s x) s.

(** ** Measures over parts *)

Definition total (ps : list (Expression J)) : N := foldr (fun p n => instructions p + n) 0 ps.
Definition most (ps : list (Expression J)) : N := foldr (fun p n => N.max (binders p) n) 0 ps.

Lemma total_app ps qs : total (ps ++ qs) = total ps + total qs.
Proof. induction ps as [|p ps IH]; simpl; [done|]. rewrite IH. lia. Qed.

Lemma most_app ps qs : most (ps ++ qs) = N.max (most ps) (most qs).
Proof. induction ps as [|p ps IH]; simpl; [lia|]. rewrite IH. lia. Qed.

(** The measures do not depend on the order of the parts. *)
#[export] Instance total_Permutation : Proper ((≡ₚ) ==> (=)) total.
Proof. induction 1; simpl; lia. Qed.

#[export] Instance most_Permutation : Proper ((≡ₚ) ==> (=)) most.
Proof. induction 1; simpl; lia. Qed.

Lemma total_elem p ps : p ∈ ps -> instructions p <= total ps.
Proof. induction 1 as [|p q ps _ IH]; simpl; lia. Qed.

(** Neither a binder nor a sequence with steps. *)
Definition plain e : Prop :=
  match e with
  | ELet _ _ _ | ESequence (_ :: _) => False
  | _ => True
  end.

Lemma instructions_plain e : plain e -> instructions e = total (expression_parts e) + 1.
Proof. destruct e as [| | | | |[|]| | | | | | | | | | | | |]; simpl; intros; (done || lia). Qed.

Lemma instructions_sequence x l : instructions (ESequence (x :: l)) = total (x :: l).
Proof. done. Qed.

Lemma instructions_parts_le e : instructions e <= total (expression_parts e) + 1.
Proof.
  destruct e as [| | | | |[|x l]| | | | | | | | | | | | |];
    [..|rewrite instructions_sequence; simpl; lia| | | | | | | | | | | | |]; simpl; lia.
Qed.

Lemma binders_parts e : (forall x v b, e <> ELet x v b) -> binders e = most (expression_parts e).
Proof.
  destruct e as [| | | |name v b|steps| | | | | | | | | | | | |]; simpl; intros He; try done; try lia.
  by destruct (He name v b).
Qed.

Definition deepest (ps : list (Expression J)) : N := foldr (fun p n => N.max (nesting p) n) 0 ps.

Lemma nesting_parts e :
  nesting e = match expression_parts e with [] => 0 | ps => deepest ps + 1 end.
Proof. destruct e as [| | | | |[|]| | | | | | | | | | | | |]; simpl; (done || lia). Qed.

Lemma deepest_spec ps m : deepest ps <= m <-> (forall p, p ∈ ps -> nesting p <= m).
Proof.
  induction ps as [|q ps IH]; simpl.
  - split; [by intros _ p ?%not_elem_of_nil|lia].
  - rewrite N.max_lub_iff, IH. setoid_rewrite elem_of_cons. naive_solver.
Qed.

(** The depth of an expression is within a bound when its own and its parts' are. *)
Lemma nesting_bound e depth m :
  depth + nesting e <= m <->
  depth <= m /\ forall p, p ∈ expression_parts e -> depth + 1 + nesting p <= m.
Proof.
  rewrite nesting_parts. destruct (expression_parts e) as [|q ps] eqn:E.
  - split; [|lia]. intros. split; [lia|]. by intros p ?%not_elem_of_nil.
  - split.
    + intros Hm. split; [lia|]. intros p Hp.
      assert (nesting p <= deepest (q :: ps)) by (by apply (proj1 (deepest_spec (q :: ps) _) (N.le_refl _))).
      lia.
    + intros [Hd Hall]. assert (depth + 1 + nesting q <= m) by (apply Hall; by left).
      assert (deepest (q :: ps) <= m - (depth + 1)); [|lia].
      apply deepest_spec. intros p Hp. specialize (Hall p Hp). lia.
Qed.

(** ** The compiler's own steps *)

(** An expression's depth is admitted and its instruction reserved. *)
Record entered (depth : N) s s1 : Prop := {
  ent_ok : compiler_ok s1;
  ent_extends : extends s s1;
  ent_names : c_names s1 = c_names s;
  ent_live : c_live_bindings s1 = c_live_bindings s;
  ent_bindings : c_bindings s1 = c_bindings s;
  ent_nodes : c_nodes s1 = c_nodes s;
  ent_calls : c_calls s1 = c_calls s;
  ent_reserved : c_reserved s1 = c_reserved s + 1;
  ent_depth : depth <= expression_depth (c_limits s) /\ depth < usize_max
}.

Lemma instructions_positive e : 1 <= instructions e.
Proof.
  induction e as [e IH] using expression_parts_ind.
  destruct e as [| | | | |[|x l]| | | | | | | | | | | | |]; simpl; try lia.
  apply Forall_cons in IH as [? _]. lia.
Qed.

(** Every binder is an instruction, and what it binds is computed by another. *)
Lemma binders_instructions e : binders e + 1 <= instructions e.
Proof.
  induction e as [e IH] using expression_parts_ind.
  destruct e as [| | | |name v b|[|x l]| | | | | | | | | | | | |]; simpl in *; decompose_Forall_hyps;
    try lia.
  enough (forall l, Forall (fun e => binders e + 1 <= instructions e) l -> most l <= total l) as Hl.
  { change (N.max (binders x) (most l) + 1 <= instructions x + total l).
    match goal with HF : Forall _ l |- _ => specialize (Hl l HF) end. lia. }
  induction 1; simpl; lia.
Qed.

Lemma most_total e ps : most (e :: ps) + 1 <= total (e :: ps).
Proof.
  pose proof (binders_instructions e). simpl. enough (most ps <= total ps) by lia.
  induction ps as [|q ps IH]; simpl; [lia|]. pose proof (binders_instructions q). lia.
Qed.

Lemma entered_with_reserved depth s :
  compiler_ok s -> depth <= expression_depth (c_limits s) -> depth < usize_max ->
  c_reserved s < limit_instructions (c_limits s) -> c_reserved s <= u32_max ->
  entered depth s (with_reserved s (c_reserved s + 1)).
Proof.
  intros [] Hd Hu Hl Hr. split; simpl; try done; try lia.
  split; simpl; try done; lia.
Qed.

Lemma wp_enter_plain e depth s (Q : N -> Compiler -> Prop) :
  compiler_ok s -> non_empty_sequence e = false ->
  (forall s1, entered depth s s1 -> c_imports s1 = c_imports s -> Q (depth + 1) s1) ->
  wp (enter e depth) Q (fun x _ => refused e depth s x) s.
Proof.
  intros Hok Hseq HQ. pose proof (instructions_positive e) as Hi. unfold enter. rewrite Hseq.
  wp_step wp_gets. destruct (N.ltb_spec (expression_depth (c_limits s)) depth) as [Hd|Hd].
  { apply wp_throw. intros [? _]. lia. }
  wp_step wp_require; [intros d [-> Hmax]%checked_add_Some|].
  2:{ unfold checked_add. destruct (N.leb_spec (depth + 1) usize_max); [done|].
      intros _ (_ & ? & _). lia. }
  unfold reserve_instruction. apply wp_bind. wp_step wp_gets. wp_step wp_gets.
  destruct (N.leb_spec (limit_instructions (c_limits s)) (c_reserved s)) as [Hl|Hl].
  { apply wp_throw. intros (_ & _ & ? & _). lia. }
  wp_step wp_require; [intros k [-> Hk]%u32_try_from_Some|].
  2:{ intros ?%u32_try_from_None (_ & _ & _ & ?). lia. }
  wp_step wp_require; [intros k [-> _]%checked_add_Some|].
  2:{ unfold checked_add. destruct (N.leb_spec (c_reserved s + 1) usize_max); [done|].
      unfold usize_max, u64_max, u32_max in *. lia. }
  apply wp_modify, wp_ret, HQ; [|done]. apply entered_with_reserved; (done || lia).
Qed.

Lemma wp_enter_sequence x l depth s (Q : N -> Compiler -> Prop) :
  (depth <= expression_depth (c_limits s) -> depth < usize_max -> Q (depth + 1) s) ->
  wp (enter (ESequence (x :: l)) depth) Q
    (fun y _ => refused (ESequence (x :: l)) depth s y) s.
Proof.
  intros HQ. unfold enter. simpl non_empty_sequence. wp_step wp_gets.
  destruct (N.ltb_spec (expression_depth (c_limits s)) depth) as [Hd|Hd].
  { apply wp_throw. intros [? _]. lia. }
  wp_step wp_require; [intros d [-> Hmax]%checked_add_Some|].
  2:{ unfold checked_add. destruct (N.leb_spec (depth + 1) usize_max); [done|].
      intros _ (_ & ? & _). lia. }
  apply wp_ret, HQ; lia.
Qed.

(** An instruction at the end. *)
Lemma wp_emit kind s (Q : Lowered -> Compiler -> Prop) R :
  c_reserved s <= u32_max + 1 -> len (c_nodes s) < c_reserved s ->
  Q (mkLowered (len (c_nodes s)) (len (c_nodes s)))
    (with_nodes s (c_nodes s ++ [node_new kind (len (c_nodes s))])) ->
  wp (emit kind) Q R s.
Proof.
  intros Hmax Hlt HQ. unfold emit, push_node. apply wp_bind. wp_step wp_gets. simpl.
  destruct (N.leb_spec (c_reserved s) (len (c_nodes s))); [lia|].
  wp_step wp_require; [intros k [-> _]%u32_try_from_Some|intros ?%u32_try_from_None; lia].
  wp_step wp_modify. by apply wp_ret, wp_ret.
Qed.

Lemma wp_add_import import s (Q : N -> Compiler -> Prop) R :
  compiler_ok s -> len (c_imports s) < c_reserved s ->
  Q (len (c_imports s)) (with_imports s (c_imports s ++ [import])) ->
  wp (add_import import) Q R s.
Proof.
  intros [] Hlt HQ. unfold add_import. wp_step wp_gets.
  wp_step wp_require; [intros k [-> _]%u32_try_from_Some|intros ?%u32_try_from_None; lia].
  wp_step wp_modify. by apply wp_ret.
Qed.

Definition push_on s kind : Compiler :=
  with_nodes s (c_nodes s ++ [node_new kind (len (c_nodes s))]).

Lemma len_view s : len (linked_view s) = len (c_nodes s).
Proof. apply len_linked_calls. Qed.

Lemma view_push s kind :
  compiler_ok s -> linked_view (push_on s kind) = linked_view s ++ [node_new kind (len (c_nodes s))].
Proof. intros [? ? ? ? ? ? ? Hc]. by apply linked_calls_app. Qed.

Lemma push_ok s kind :
  compiler_ok s -> len (c_nodes s) < c_reserved s -> compiler_ok (push_on s kind).
Proof.
  intros [] Hlt. split; simpl; rewrite ?len_snoc; try done; try lia.
  eapply Forall_impl; [done|]. intros ? ?. simpl in *. lia.
Qed.

Lemma push_extends s kind : compiler_ok s -> extends s (push_on s kind).
Proof.
  intros Hok. split; try done; simpl; rewrite ?len_snoc; [lia|].
  intros i Hi. rewrite view_push by done. apply get_app_lt. by rewrite len_view.
Qed.

Lemma push_holds s kind :
  compiler_ok s -> holds (linked_view (push_on s kind)) (len (c_nodes s)) kind None.
Proof. intros Hok. unfold holds. rewrite view_push by done. rewrite <- len_view. apply get_snoc. Qed.

(** ** Parts lowered one after the other *)

(** What lowering the parts [ps], first to last in one scope, has added. *)
Record lowered_all (ps : list (Expression J)) (depth : N) s s' : Prop := {
  all_ok : compiler_ok s';
  all_extends : extends s s';
  all_names : c_names s' = c_names s;
  all_live : c_live_bindings s' = c_live_bindings s;
  all_bindings : c_bindings s' = N.max (c_bindings s) (c_live_bindings s + most ps);
  all_nodes : len (c_nodes s') = len (c_nodes s) + total ps;
  all_reserved : c_reserved s' = c_reserved s + total ps;
  all_depth : forall p, p ∈ ps -> depth + nesting p <= expression_depth (c_limits s) /\
                                  depth + nesting p < usize_max;
  all_closed : forall p x, p ∈ ps -> free_in x p -> is_Some (c_names s !! x);
  all_literals : forall p, p ∈ ps -> ~ bad_literal p;
  all_calls : forall f, f ∈ (c_calls s').*2 <->
                        f ∈ (c_calls s).*2 \/ exists p, p ∈ ps /\ calls_in p f
}.

Lemma lowered_all_nil depth s : compiler_ok s -> lowered_all [] depth s s.
Proof.
  intros Hok. pose proof (ok_bindings _ Hok). split; simpl; try done; try lia;
    try by setoid_rewrite elem_of_nil.
  intros f. setoid_rewrite elem_of_nil. naive_solver.
Qed.

Lemma lowered_all_snoc ps depth s s1 e r s2 :
  lowered_all ps depth s s1 -> lowered e depth s1 r s2 -> lowered_all (ps ++ [e]) depth s s2.
Proof.
  intros [? Hext Hn Hl Hb Hlen Hres Hd Hc Hlit Hcalls] [? Hext' Hn' Hl' Hb' Hlen' Hres' _ Hw Hc' Hlit' Hcalls'].
  destruct Hw as (? & ? & _). rewrite (ext_limits _ _ Hext) in *.
  split; try congruence; try done.
  - by eapply extends_trans.
  - rewrite most_app. simpl. lia.
  - rewrite total_app. simpl. lia.
  - rewrite total_app. simpl. lia.
  - intros p [|[->|]%elem_of_cons]%elem_of_app; [auto|done|set_solver].
  - intros p x [|[->|]%elem_of_cons]%elem_of_app Hx; [eauto|rewrite <- Hn; eauto|set_solver].
  - intros p [|[->|]%elem_of_cons]%elem_of_app; [auto|done|set_solver].
  - intros f. rewrite Hcalls', Hcalls. setoid_rewrite elem_of_app. setoid_rewrite list_elem_of_singleton.
    naive_solver.
Qed.

(** ** Expressions without a binder of their own *)

Lemma plain_not_let e : plain e -> forall x v b, e <> ELet x v b.
Proof. by intros He x v b ->. Qed.

Lemma bad_literal_part e p : p ∈ expression_parts e -> bad_literal p -> bad_literal e.
Proof. intros Hp (j & f & Hin & Hj). exists j, f. split; [by eapply inside_part|done]. Qed.

Lemma refused_part e depth s s1 ps p rest s2 x :
  plain e -> entered depth s s1 -> expression_parts e = ps ++ p :: rest ->
  lowered_all ps (depth + 1) s1 s2 -> refused p (depth + 1) s2 x -> refused e depth s x.
Proof.
  intros He Hent Hparts Hall. assert (p ∈ expression_parts e) as Hp by (rewrite Hparts; set_solver).
  assert (c_names s2 = c_names s) as Hn by (rewrite (all_names _ _ _ _ Hall); apply Hent).
  assert (c_limits s2 = c_limits s) as Hl.
  { rewrite (ext_limits _ _ (all_extends _ _ _ _ Hall)). apply (ext_limits _ _ (ent_extends _ _ _ Hent)). }
  destruct x; simpl; try done.
  - rewrite Hn. intros [Hf Hnone]. split; [|done]. eapply free_part; [by apply plain_not_let|done|done].
  - intros Hnot (Hd & Hu & Hi & Hm). apply Hnot. rewrite Hl.
    rewrite (all_reserved _ _ _ _ Hall), (ent_reserved _ _ _ Hent).
    rewrite (instructions_plain _ He), Hparts, total_app in Hi, Hm. simpl in Hi, Hm.
    apply nesting_bound in Hd as [_ Hd]. specialize (Hd p Hp).
    assert (depth + nesting e <= usize_max - 1) as Hu' by lia.
    apply nesting_bound in Hu' as [_ Hu']. specialize (Hu' p Hp). unfold usize_max, u64_max in *.
    unfold within. unfold usize_max, u64_max. lia.
  - by apply bad_literal_part.
Qed.

(** The end of a plain expression whose parts are lowered. *)
Lemma wp_emit_plain e depth s s1 s2 kind R :
  compiler_ok s -> plain e -> entered depth s s1 ->
  lowered_all (expression_parts e) (depth + 1) s1 s2 ->
  (forall x, e = EUse x -> is_Some (c_names s !! x)) ->
  (forall j, e = ELiteral j -> exists v, json_value j = Ok v) ->
  (forall f, e <> ECall f) ->
  (forall imps ns, c_imports s2 `prefix_of` imps ->
     (forall i, i < len (c_nodes s2) -> get ns i = get (linked_view s2) i) ->
     holds ns (len (c_nodes s2)) kind None ->
     code target imps ns (c_names s) (c_live_bindings s) e (len (c_nodes s))
       (len (c_nodes s2) + 1) (len (c_nodes s2)) (len (c_nodes s2)) None) ->
  wp (emit kind) (lowered e depth s) R s2.
Proof.
  intros Hok He Hent Hall Huse Hlit Hcall Hcode.
  pose proof (ok_nodes _ Hok). pose proof (ok_bindings _ Hok).
  pose proof (ext_limits _ _ (ent_extends _ _ _ Hent)) as Hl1.
  destruct Hent as [? Hext Hn Hl Hb Hnodes Hcalls Hres Hd].
  destruct Hall as [Hok2 Hext2 Hn2 Hl2 Hb2 Hlen2 Hres2 Hd2 Hc2 Hlit2 Hcalls2].
  assert (len (c_nodes s2) < c_reserved s2) as Hroom by (rewrite Hlen2, Hres2, Hnodes, Hres; lia).
  apply wp_emit; [by apply ok_reserved|done|]. fold (push_on s2 kind).
  pose proof (push_ok s2 kind Hok2 Hroom) as Hok3. pose proof (push_extends s2 kind Hok2) as Hext3.
  assert (extends s (push_on s2 kind)) by (do 2 (eapply extends_trans; [done|]); done).
  split; [done|done|simpl; congruence|simpl; congruence|..].
  - rewrite binders_parts by (by apply plain_not_let). simpl. lia.
  - rewrite instructions_plain by done. simpl. rewrite len_snoc, Hlen2, Hnodes. lia.
  - rewrite instructions_plain by done. simpl. lia.
  - simpl. rewrite len_snoc. apply Hcode; [by apply (ext_imports _ _ Hext3)|by apply (ext_view _ _ Hext3)|].
    by apply push_holds.
  - pose proof (ok_limit _ Hok2) as Hlim. pose proof (ok_reserved _ Hok2).
    rewrite (ext_limits _ _ Hext2), Hl1 in Hlim. unfold within. rewrite instructions_plain by done.
    assert (depth + nesting e <= expression_depth (c_limits s)).
    { apply nesting_bound. split; [lia|]. intros p Hp. specialize (Hd2 p Hp). rewrite Hl1 in Hd2. lia. }
    assert (depth + nesting e <= usize_max - 1).
    { apply nesting_bound. split; [lia|]. intros p Hp. specialize (Hd2 p Hp). lia. }
    unfold usize_max, u64_max in *. lia.
  - intros x Hx. destruct Hx; [by apply Huse|done|done|]. rewrite <- Hn. eauto.
  - intros (j & f & Hin & Hj). inversion Hin as [|? p Hp Hin']; subst.
    + destruct (Hlit j) as [v Hv]; [done|]. congruence.
    + apply (Hlit2 p Hp). by exists j, f.
  - intros f. simpl. rewrite Hcalls2, Hcalls. split; (intros [?|Hf]; [by left|right]).
    + destruct Hf as (p & Hp & Hf). by eapply inside_part.
    + inversion Hf as [|? p Hp Hin]; subst; [by destruct (Hcall f)|]. by exists p.
Qed.

(** ** The cases *)

Lemma wp_entered_import import depth s s1 (Q : N -> Compiler -> Prop) R :
  compiler_ok s -> entered depth s s1 -> c_imports s1 = c_imports s ->
  (forall s2, entered depth s s2 -> get (c_imports s2) (len (c_imports s)) = Some import ->
     Q (len (c_imports s)) s2) ->
  wp (add_import import) Q R s1.
Proof.
  intros Hok Hent Himp HQ. pose proof (ok_imports _ Hok) as Hi.
  assert (len (c_imports s1) < c_reserved s1) as Hlt by (rewrite Himp, (ent_reserved _ _ _ Hent); lia).
  destruct Hent as [[] Hext ? ? ? ? ? ? ?]. apply wp_add_import; [done|done|]. rewrite Himp.
  apply HQ; [|apply get_snoc]. split; try done.
  - split; simpl; rewrite ?len_snoc, <- ?Himp; try done; lia.
  - eapply extends_trans; [done|]. split; try done. simpl. rewrite Himp. by apply prefix_app_r.
Qed.

Lemma wp_part e depth s s1 ps p rest s2 (Q : Lowered -> Compiler -> Prop) :
  plain e -> entered depth s s1 -> expression_parts e = ps ++ p :: rest ->
  lowers p -> lowered_all ps (depth + 1) s1 s2 ->
  (forall r s3, lowered p (depth + 1) s2 r s3 -> lowered_all (ps ++ [p]) (depth + 1) s1 s3 -> Q r s3) ->
  wp (lower_rec p (depth + 1)) Q (fun x _ => refused e depth s x) s2.
Proof.
  intros He Hent Hparts Hp Hall HQ. eapply wp_mono; [apply Hp, Hall| |].
  - intros r s3 Hr. apply HQ; [done|]. by eapply lowered_all_snoc.
  - intros x s3 Hx. by eapply refused_part.
Qed.

(** A part's code, seen once later parts and the expression's own instruction are there. *)
Lemma lowered_code_later p depth s s2 r s3 s4 imps ns :
  lowered p depth s2 r s3 -> c_names s2 = c_names s -> c_live_bindings s2 = c_live_bindings s ->
  extends s3 s4 -> c_imports s4 `prefix_of` imps ->
  (forall i, i < len (c_nodes s4) -> get ns i = get (linked_view s4) i) ->
  code target imps ns (c_names s) (c_live_bindings s) p
    (len (c_nodes s2)) (len (c_nodes s3)) (lowered_entry r) (lowered_tail r) None.
Proof.
  intros [_ _ _ _ _ _ _ Hc _ _ _ _] <- <- Hext Himps Hview. eapply code_transfer; [done| |].
  - eapply code_extends; [done|lia|done].
  - intros i Hi. apply Hview. pose proof (ext_len _ _ Hext). lia.
Qed.

Lemma lower_rec_two e x y kind depth :
  two_parts e x y kind ->
  lower_rec e depth =
  (let* depth := enter e depth in
   let* a := lower_rec x depth in
   let* b := lower_rec y depth in
   emit (kind (lowered_entry a) (lowered_entry b))).
Proof. by intros []. Qed.

Lemma lowers_two e x y kind : two_parts e x y kind -> lowers x -> lowers y -> lowers e.
Proof.
  intros Htwo Hx Hy depth s Hok. erewrite lower_rec_two by done.
  assert (plain e /\ non_empty_sequence e = false /\ expression_parts e = [x; y] /\
    (forall z, e <> EUse z) /\ (forall j, e <> ELiteral j) /\ (forall f, e <> ECall f))
    as (He & Hne & Hparts & Huse & Hlit & Hcall) by (by destruct Htwo).
  apply wp_bind, wp_enter_plain; [done|done|]. intros s1 Hent _. apply wp_bind.
  eapply (wp_part e depth s s1 [] x [y]); [done|done|done|done|by apply lowered_all_nil, Hent|].
  intros a s2 Ha Hall2. apply wp_bind.
  eapply (wp_part e depth s s1 [x] y []); [done|done|done|done|done|]. intros b s3 Hb Hall3.
  eapply wp_emit_plain; [done|done|done|by rewrite Hparts|naive_solver|naive_solver|done|].
  intros imps ns Himps Hns Hh.
  pose proof (all_names _ _ _ _ Hall2). pose proof (all_live _ _ _ _ Hall2).
  destruct Hent. eapply code_two; [done| | |done].
  - rewrite <- ent_nodes0. eapply lowered_code_later; [done|done|done|by eapply low_extends|done|done].
  - eapply lowered_code_later; [done|congruence|congruence|apply extends_refl|done|done].
Qed.

Lemma lowers_if x y z : lowers x -> lowers y -> lowers z -> lowers (EIf x y z).
Proof.
  intros Hx Hy Hz depth s Hok. cbn [lower_rec].
  apply wp_bind, wp_enter_plain; [done|done|]. intros s1 Hent _. apply wp_bind.
  eapply (wp_part (EIf x y z) depth s s1 [] x [y; z]);
    [done|done|done|done|by apply lowered_all_nil, Hent|].
  intros a s2 Ha Hall2. apply wp_bind.
  eapply (wp_part (EIf x y z) depth s s1 [x] y [z]); [done|done|done|done|done|].
  intros b s3 Hb Hall3. apply wp_bind.
  eapply (wp_part (EIf x y z) depth s s1 [x; y] z []); [done|done|done|done|done|].
  intros c s4 Hc Hall4. eapply wp_emit_plain; [done|done|done|done|done|done|done|].
  intros imps ns Himps Hns Hh.
  pose proof (all_names _ _ _ _ Hall2). pose proof (all_live _ _ _ _ Hall2).
  pose proof (all_names _ _ _ _ Hall3). pose proof (all_live _ _ _ _ Hall3).
  pose proof (low_extends _ _ _ _ _ Hb). pose proof (low_extends _ _ _ _ _ Hc).
  destruct Hent. eapply code_if; [| | |done].
  - rewrite <- ent_nodes0.
    eapply lowered_code_later; [done|done|done|by eapply extends_trans|done|done].
  - eapply lowered_code_later; [done|congruence|congruence|done|done|done].
  - eapply lowered_code_later; [done|congruence|congruence|apply extends_refl|done|done].
Qed.

Lemma lowers_acting identity x : lowers x -> lowers (EActing identity x).
Proof.
  intros Hx depth s Hok. cbn [lower_rec].
  apply wp_bind, wp_enter_plain; [done|done|]. intros s1 Hent Himp. apply wp_bind.
  eapply wp_entered_import; [done|done|done|]. intros s2 Hent2 Hget. apply wp_bind.
  eapply (wp_part (EActing identity x) depth s s2 [] x []);
    [done|done|done|done|by apply lowered_all_nil, Hent2|].
  intros a s3 Ha Hall. eapply wp_emit_plain; [done|done|done|done|done|done|done|].
  intros imps ns Himps Hns Hh. pose proof (ext_imports _ _ (low_extends _ _ _ _ _ Ha)) as [l El].
  destruct Hent2. eapply code_acting; [| |done].
  - destruct Himps as [l' ->]. rewrite El. do 2 apply get_app_l. done.
  - rewrite <- ent_nodes0. eapply lowered_code_later; [done|done|done|apply extends_refl|done|done].
Qed.

(** An expression without parts that is not a call. *)
Lemma wp_lower_leaf e depth s s1 :
  compiler_ok s -> entered depth s s1 -> c_imports s1 = c_imports s ->
  plain e -> expression_parts e = [] -> e <> ESequence [] -> (forall f, e <> ECall f) ->
  wp (lower_leaf e)
    (fun kind s2 => entered depth s s2 /\
       (forall imps, c_imports s2 `prefix_of` imps -> leaf_code target imps (c_names s) e kind) /\
       (forall x, e = EUse x -> is_Some (c_names s !! x)) /\
       (forall j, e = ELiteral j -> exists v, json_value j = Ok v))
    (fun x _ => refused e depth s x) s1.
Proof.
  intros Hok Hent Himp He Hparts Hseq Hcall.
  destruct e as [j|v| |x| |[]|op|op| | | | | | |f|m|w| |m]; try done; simpl;
    try (apply wp_ret; split_and!; [done| |done|done]; constructor);
    try (apply wp_bind; eapply wp_entered_import; [done|done|done|]; intros s2 Hent2 Hget;
         apply wp_ret; split; [done|]; split; [|done];
         intros imps [l ->]; constructor; by apply get_app_l).
  - destruct (json_value j) as [v|f] eqn:Ej.
    + apply wp_ret. split; [done|]. split; [by constructor|]. split; [done|].
      intros ? [= <-]. by exists v.
    + apply wp_throw. exists j, f. split; [constructor|done].
  - wp_step wp_gets. rewrite (ent_names _ _ _ Hent). wp_step wp_require.
    + intros slot Hs. apply wp_ret. split; [done|]. split; [by constructor|]. split; [|done].
      intros ? [= <-]. done.
    + intros Hnone. split; [constructor|done].
  - by destruct (Hcall f).
Qed.

Lemma lowers_leaf e :
  plain e -> expression_parts e = [] -> e <> ESequence [] -> (forall f, e <> ECall f) -> lowers e.
Proof.
  intros He Hparts Hseq Hcall depth s Hok.
  assert (lower_rec e depth = (let* _ := enter e depth in let* kind := lower_leaf e in emit kind)) as ->.
  { by destruct e as [| | | | |[]| | | | | | | | | | | | |]. }
  apply wp_bind, wp_enter_plain; [done|by destruct e as [| | | | |[]| | | | | | | | | | | | |]|].
  intros s1 Hent Himp. apply wp_bind. eapply wp_mono; [by apply wp_lower_leaf| |done].
  intros kind s2 (Hent2 & Hleaf & Huse & Hlit).
  eapply wp_emit_plain; [done|done|done| |done|done|done|].
  - rewrite Hparts. apply lowered_all_nil, Hent2.
  - intros imps ns Himps Hns Hh. rewrite <- (ent_nodes _ _ _ Hent2).
    eapply code_leaf; [by apply Hleaf|done].
Qed.

Lemma lowers_empty : lowers (ESequence []).
Proof.
  intros depth s Hok. cbn [lower_rec lower_sequence].
  apply wp_bind, wp_enter_plain; [done|done|]. intros s1 Hent Himp.
  eapply wp_emit_plain; [done|done|done|apply lowered_all_nil, Hent|done|done|done|].
  intros imps ns Himps Hns Hh. rewrite <- (ent_nodes _ _ _ Hent).
  eapply code_leaf; [constructor|done].
Qed.

(** A call: a placeholder and its record. *)
Definition call_on s (f : text) : Compiler :=
  with_nodes (with_calls s (c_calls s ++ [(len (c_nodes s), f)]))
    (c_nodes s ++ [node_new NInput (len (c_nodes s))]).

Lemma view_call s f :
  compiler_ok s ->
  linked_view (call_on s f) = linked_view s ++ [node_new (NCall (target f)) (len (c_nodes s))].
Proof.
  intros [? ? ? ? ? ? ? Hc]. unfold linked_view, call_on. simpl.
  unfold linked_calls at 1. rewrite foldl_app.
  fold (linked_calls target (c_nodes s ++ [node_new NInput (len (c_nodes s))]) (c_calls s)).
  rewrite linked_calls_app by done. simpl. unfold linked_call. simpl.
  rewrite <- (len_linked_calls target (c_nodes s) (c_calls s)), get_snoc. simpl.
  unfold upd, len. rewrite Nat2N.id, insert_app_r_alt by done. by rewrite Nat.sub_diag.
Qed.

Lemma call_ok s f : compiler_ok s -> len (c_nodes s) < c_reserved s -> compiler_ok (call_on s f).
Proof.
  intros [] Hlt. split; simpl; rewrite ?len_snoc; try done; try lia.
  apply Forall_app. split; [|repeat constructor; simpl; lia].
  eapply Forall_impl; [done|]. intros ? ?. simpl in *. lia.
Qed.

Lemma call_extends s f : compiler_ok s -> extends s (call_on s f).
Proof.
  intros Hok. split; try done; simpl; rewrite ?len_snoc; [lia| |by apply prefix_app_r].
  intros i Hi. rewrite view_call by done. apply get_app_lt. by rewrite len_view.
Qed.

Lemma lowered_call depth s s1 f :
  compiler_ok s -> entered depth s s1 ->
  lowered (ECall f) depth s (mkLowered (len (c_nodes s1)) (len (c_nodes s1))) (call_on s1 f).
Proof.
  intros Hok Hent. pose proof (ok_nodes _ Hok). pose proof (ok_bindings _ Hok).
  pose proof (ext_limits _ _ (ent_extends _ _ _ Hent)) as Hl1.
  destruct Hent as [Hok1 Hext Hn Hl Hb Hnodes Hcalls Hres Hd].
  assert (len (c_nodes s1) < c_reserved s1) as Hroom by (rewrite Hnodes, Hres; lia).
  split; [by apply call_ok|by eapply extends_trans, call_extends|done|done|..].
  - simpl. lia.
  - simpl. by rewrite len_snoc, Hnodes.
  - done.
  - simpl. rewrite len_snoc, Hnodes. eapply code_leaf; [constructor|].
    unfold holds. rewrite view_call by done. rewrite Hnodes, <- Hnodes, <- len_view. apply get_snoc.
  - pose proof (ok_limit _ Hok1) as Hlim. pose proof (ok_reserved _ Hok1). rewrite Hl1 in Hlim.
    unfold within. simpl. lia.
  - intros x Hx. inversion Hx as [| | |? p _ Hp _]. by apply not_elem_of_nil in Hp.
  - intros (j & g & Hin & _). inversion Hin as [|? p Hp _]. by apply not_elem_of_nil in Hp.
  - intros g. simpl. rewrite fmap_app, elem_of_app, Hcalls. simpl. rewrite list_elem_of_singleton.
    split; (intros [?|Hg]; [by left|right]).
    + subst. constructor.
    + inversion Hg as [|? p Hp _]; [done|]. by apply not_elem_of_nil in Hp.
Qed.

Lemma lowers_call f : lowers (ECall f).
Proof.
  intros depth s Hok. cbn [lower_rec lower_leaf].
  apply wp_bind, wp_enter_plain; [done|done|]. intros s1 Hent Himp.
  pose proof (ok_nodes _ Hok). pose proof (ok_reserved _ (ent_ok _ _ _ Hent)).
  pose proof (ent_reserved _ _ _ Hent). pose proof (ent_nodes _ _ _ Hent) as Hnodes.
  do 2 apply wp_bind. apply wp_gets. wp_step wp_require.
  - intros k [-> _]%u32_try_from_Some. wp_step wp_modify. apply wp_ret.
    apply wp_emit; [done|simpl; rewrite Hnodes; lia|].
    by apply (lowered_call depth s s1 f).
  - intros Hk%u32_try_from_None. rewrite Hnodes in Hk. lia.
Qed.

(** ** Binders *)

Definition bind_on s (x : text) : Compiler :=
  with_names (with_live s (N.max (c_bindings s) (c_live_bindings s + 1)) (c_live_bindings s + 1))
    (<[x := c_live_bindings s]> (c_names s)).

Definition unbind_on s (x : text) (previous : option N) : Compiler :=
  with_names (with_live s (c_bindings s) (c_live_bindings s - 1))
    (match previous with
     | Some old => <[x := old]> (c_names s)
     | None => delete x (c_names s)
     end).

Lemma wp_bind_name x s (Q : N * option N -> Compiler -> Prop) R :
  compiler_ok s -> c_live_bindings s < c_reserved s ->
  Q (c_live_bindings s, c_names s !! x) (bind_on s x) -> wp (bind_name x) Q R s.
Proof.
  intros [] Hlt HQ. unfold bind_name. wp_step wp_gets.
  wp_step wp_require; [intros k [-> _]%u32_try_from_Some|intros ?%u32_try_from_None; lia].
  wp_step (wp_expect _ _ (c_live_bindings s + 1)).
  { apply checked_add_Some. unfold usize_max, u64_max, u32_max in *. lia. }
  wp_step wp_modify. wp_step wp_gets. wp_step wp_modify. by apply wp_ret.
Qed.

Lemma wp_unbind_name x previous s (Q : unit -> Compiler -> Prop) R :
  0 < c_live_bindings s -> Q tt (unbind_on s x previous) -> wp (unbind_name x previous) Q R s.
Proof.
  intros Hlt HQ. unfold unbind_name. wp_step wp_gets.
  wp_step (wp_expect _ _ (c_live_bindings s - 1)); [apply checked_sub_Some; lia|].
  wp_step wp_modify. by apply wp_modify.
Qed.

Lemma bind_ok s x : compiler_ok s -> c_live_bindings s < c_reserved s -> compiler_ok (bind_on s x).
Proof. intros [] Hlt. split; simpl; try done; try lia. by apply scope_below_insert. Qed.

(** The names in scope before a binder are those after it. *)
Lemma names_restored (names : gmap text N) x slot :
  match names !! x with
  | Some old => <[x := old]> (<[x := slot]> names)
  | None => delete x (<[x := slot]> names)
  end = names.
Proof.
  destruct (names !! x) as [old|] eqn:E.
  - by rewrite insert_insert_eq, insert_id.
  - by rewrite delete_insert_id.
Qed.

Lemma refused_value x value body depth s s1 y :
  entered depth s s1 -> refused value (depth + 1) s1 y -> refused (ELet x value body) depth s y.
Proof.
  intros Hent. pose proof (ext_limits _ _ (ent_extends _ _ _ Hent)) as Hl.
  destruct y; simpl; try done.
  - rewrite (ent_names _ _ _ Hent). intros [Hf Hn]. split; [by apply free_value|done].
  - intros Hnot Hw. apply Hnot. rewrite Hl, (ent_reserved _ _ _ Hent).
    unfold within in *. simpl in Hw. lia.
  - apply bad_literal_part. set_solver.
Qed.

Lemma refused_body x value body depth s s1 r s2 y :
  entered depth s s1 -> lowered value (depth + 1) s1 r s2 ->
  refused body (depth + 1) (bind_on s2 x) y -> refused (ELet x value body) depth s y.
Proof.
  intros Hent Hv. pose proof (ext_limits _ _ (ent_extends _ _ _ Hent)) as Hl1.
  pose proof (ext_limits _ _ (low_extends _ _ _ _ _ Hv)) as Hl2.
  destruct y; simpl; try done.
  - intros [Hf [Hn Hne]%lookup_insert_None]. rewrite (low_names _ _ _ _ _ Hv), (ent_names _ _ _ Hent) in Hn.
    split; [|done]. by apply free_body.
  - intros Hnot Hw. apply Hnot. rewrite Hl2, Hl1, (low_reserved _ _ _ _ _ Hv), (ent_reserved _ _ _ Hent).
    unfold within in *. simpl in Hw. lia.
  - apply bad_literal_part. set_solver.
Qed.

(** Leaving a binder's body. *)
Lemma unbind_after x body depth s b s' :
  compiler_ok s -> lowered body depth (bind_on s x) b s' ->
  let s'' := unbind_on s' x (c_names s !! x) in
  compiler_ok s'' /\ extends s s'' /\ c_names s'' = c_names s /\
  c_live_bindings s'' = c_live_bindings s.
Proof.
  intros Hok [Hok' Hext Hn Hl _ _ _ _ _ _ _ _]. simpl in Hn, Hl.
  assert (c_names (unbind_on s' x (c_names s !! x)) = c_names s) as Hn'.
  { simpl. rewrite Hn. apply names_restored. }
  assert (c_live_bindings (unbind_on s' x (c_names s !! x)) = c_live_bindings s) as Hl' by (simpl; lia).
  split_and!; [|by destruct Hext|done|done].
  destruct Hok'. split; try done; [simpl; lia..|].
  rewrite Hn', Hl'. apply Hok.
Qed.

Lemma free_let y x (value body : Expression J) :
  free_in y (ELet x value body) -> free_in y value \/ y <> x /\ free_in y body.
Proof. intros Hf. inversion Hf as [| | |? p Hne]; subst; auto. by destruct (Hne x value body). Qed.

Lemma inside_let (p : Expression J) x value body :
  (forall x v b, p <> ELet x v b) -> inside p (ELet x value body) <-> inside p value \/ inside p body.
Proof.
  intros Hp. split.
  - intros Hin. inversion Hin as [E|? q Hq]; subst; [by destruct (Hp x value body)|].
    simpl in Hq. rewrite !elem_of_cons, elem_of_nil in Hq. naive_solver.
  - intros [Hin|Hin]; (eapply inside_part; [|exact Hin]); set_solver.
Qed.

Section lowered_let.
Context (x : text) (value body : Expression J) (depth : N) (s s1 : Compiler) (v : Lowered)
  (s2 : Compiler) (b : Lowered) (s3 : Compiler).
Hypothesis Hok : compiler_ok s.
Hypothesis Hent : entered depth s s1.
Hypothesis Hv : lowered value (depth + 1) s1 v s2.
Hypothesis Hb : lowered body (depth + 1) (bind_on s2 x) b s3.

Let s4 := unbind_on s3 x (c_names s2 !! x).
Let kind := NLet (V := Value) (E := Failure) (c_live_bindings s2) (lowered_entry v) (lowered_entry b).

Lemma let_left : compiler_ok s4 /\ extends s2 s4 /\ c_names s4 = c_names s2 /\
  c_live_bindings s4 = c_live_bindings s2.
Proof. apply (unbind_after _ _ _ _ _ _ (low_ok _ _ _ _ _ Hv) Hb). Qed.

Lemma let_counts :
  len (c_nodes s4) = len (c_nodes s) + instructions value + instructions body /\
  c_reserved s4 = c_reserved s + instructions value + instructions body + 1 /\
  len (c_nodes s4) < c_reserved s4.
Proof.
  pose proof (ok_nodes _ Hok). pose proof (ent_nodes _ _ _ Hent) as Hn.
  pose proof (ent_reserved _ _ _ Hent). destruct Hv, Hb. simpl in *. rewrite Hn in *. lia.
Qed.

Lemma let_extends : extends s (push_on s4 kind).
Proof.
  destruct let_left as (Hok4 & Hext4 & _).
  eapply extends_trans; [apply (ent_extends _ _ _ Hent)|].
  eapply extends_trans; [apply (low_extends _ _ _ _ _ Hv)|].
  eapply extends_trans; [done|]. by apply push_extends.
Qed.

Lemma let_code :
  code target (c_imports (push_on s4 kind)) (linked_view (push_on s4 kind)) (c_names s) (c_live_bindings s)
    (ELet x value body) (len (c_nodes s)) (len (c_nodes s4) + 1) (len (c_nodes s4)) (len (c_nodes s4)) None.
Proof.
  destruct let_left as (Hok4 & Hext4 & Hn4 & Hl4). pose proof (push_extends s4 kind Hok4) as Hext5.
  pose proof (low_names _ _ _ _ _ Hv). pose proof (low_live _ _ _ _ _ Hv) as Hl2.
  pose proof (low_code _ _ _ _ _ Hv) as Hcv. pose proof (low_code _ _ _ _ _ Hb) as Hcb.
  destruct Hent. simpl in Hcb.
  eapply code_let; [| |pose proof (push_holds s4 kind Hok4) as Hh; unfold kind in Hh at 2;
    rewrite Hl2, ent_live0 in Hh; exact Hh].
  - rewrite <- ent_nodes0, <- ent_names0, <- ent_live0.
    eapply code_extends; [|exact (N.le_refl _)|exact Hcv]. by eapply extends_trans.
  - assert (extends s3 (push_on s4 kind)) as Hext3.
    { eapply extends_trans; [|done]. by split. }
    rewrite <- ent_names0, <- ent_live0, <- Hl2, <- H0.
    eapply code_extends; [done|exact (N.le_refl _)|exact Hcb].
Qed.

Lemma lowered_let :
  lowered (ELet x value body) depth s (mkLowered (len (c_nodes s4)) (len (c_nodes s4)))
    (push_on s4 kind).
Proof.
  destruct let_left as (Hok4 & Hext4 & Hn4 & Hl4). destruct let_counts as (Hlen & Hres & Hroom).
  pose proof (ok_bindings _ Hok). pose proof let_extends as Hext. pose proof let_code as Hcode.
  destruct Hv as [_ Hextv Hnv Hlv Hbv _ _ _ Hwv Hcv Hlitv Hcallsv].
  destruct Hb as [_ _ _ _ Hbb _ _ _ Hwb Hcb Hlitb Hcallsb].
  pose proof (ext_limits _ _ (ent_extends _ _ _ Hent)) as Hlim1.
  pose proof (ext_limits _ _ Hextv) as Hlim2. pose proof (ext_limits _ _ Hext) as Hlim4.
  destruct Hent. simpl in Hwb. rewrite Hlim2, Hlim1 in Hwb. rewrite Hlim1 in Hwv.
  pose proof (ok_limit _ Hok4) as Hcap. pose proof (ok_reserved _ Hok4).
  change (c_limits s4) with (c_limits (push_on s4 kind)) in Hcap. rewrite Hlim4 in Hcap.
  split; [by apply push_ok|done|change (c_names s4 = c_names s); congruence
    |change (c_live_bindings s4 = c_live_bindings s); congruence|..].
  - change (c_bindings s3 = N.max (c_bindings s) (c_live_bindings s + binders (ELet x value body))).
    simpl in *. lia.
  - simpl c_nodes at 1. rewrite len_snoc. simpl in *. lia.
  - change (c_reserved s4 = c_reserved s + instructions (ELet x value body)). simpl in *. lia.
  - simpl c_nodes at 2. rewrite len_snoc. exact Hcode.
  - unfold within in *. simpl. unfold usize_max, u64_max, u32_max in *. lia.
  - intros y [Hy|[Hne Hy]]%free_let; [rewrite <- ent_names0; auto|].
    apply Hcb in Hy. simpl in Hy. rewrite lookup_insert_ne in Hy by done. by rewrite <- ent_names0, <- Hnv.
  - intros (j & f & Hin & Hj). apply inside_let in Hin as [Hin|Hin]; [| |done].
    + apply Hlitv. by exists j, f.
    + apply Hlitb. by exists j, f.
  - intros f. unfold calls_in. rewrite inside_let by done.
    change (f ∈ (c_calls s3).*2 <-> f ∈ (c_calls s).*2 \/ inside (ECall f) value \/ inside (ECall f) body).
    rewrite Hcallsb. simpl. rewrite Hcallsv, ent_calls0. unfold calls_in. tauto.
Qed.
End lowered_let.

Lemma lowers_let x value body : lowers value -> lowers body -> lowers (ELet x value body).
Proof.
  intros Hvalue Hbody depth s Hok. cbn [lower_rec].
  apply wp_bind, wp_enter_plain; [done|done|]. intros s1 Hent _. apply wp_bind.
  eapply wp_mono; [apply Hvalue, Hent| |intros y s' Hy; by eapply refused_value].
  intros v s2 Hv. apply wp_bind.
  assert (c_live_bindings s2 < c_reserved s2) as Hlive.
  { pose proof (ok_live _ Hok). destruct Hent, Hv.
    rewrite low_live0, ent_live0, low_reserved0, ent_reserved0. lia. }
  apply wp_bind_name; [by eapply low_ok|done|]. apply wp_bind.
  eapply wp_mono; [apply Hbody, bind_ok; [by eapply low_ok|done]| |intros y s' Hy; by eapply refused_body].
  intros b s3 Hb. apply wp_bind.
  apply wp_unbind_name; [rewrite (low_live _ _ _ _ _ Hb); simpl; lia|].
  destruct (let_left x value body depth s1 v s2 b s3 Hv Hb) as (Hok4 & _).
  destruct (let_counts x value body depth s s1 v s2 b s3) as (_ & _ & Hroom); [done..|].
  apply wp_emit; [by apply ok_reserved|done|]. by apply (lowered_let x value body depth s s1 v s2 b s3).
Qed.

(** ** Sequences *)

Lemma refused_step steps pre p post depth s s2 x :
  steps = pre ++ p :: post -> lowered_all (reverse post) (depth + 1) s s2 ->
  refused p (depth + 1) s2 x -> refused (ESequence steps) depth s x.
Proof.
  intros Hsteps Hall. assert (p ∈ steps) as Hp by (rewrite Hsteps; set_solver).
  pose proof (ext_limits _ _ (all_extends _ _ _ _ Hall)) as Hl.
  destruct x; simpl; try done.
  - rewrite (all_names _ _ _ _ Hall). intros [Hf Hnone]. split; [|done]. by eapply free_part.
  - intros Hnot (Hd & Hu & Hi & Hm). apply Hnot. rewrite Hl, (all_reserved _ _ _ _ Hall).
    assert (total (reverse post) + instructions p <= instructions (ESequence steps)) as Hle.
    { assert (instructions (ESequence steps) = total steps) as -> by (by destruct steps; set_solver).
      rewrite reverse_Permutation, Hsteps, total_app. simpl. lia. }
    apply nesting_bound in Hd as [_ Hd]. specialize (Hd p Hp).
    assert (depth + nesting (ESequence steps) <= usize_max - 1) as Hu' by lia.
    apply nesting_bound in Hu' as [_ Hu']. specialize (Hu' p Hp).
    unfold within, usize_max, u64_max in *. lia.
  - by apply bad_literal_part.
Qed.

Definition link_on s (tail entry : N) : Compiler := with_nodes s (linked (c_nodes s) tail entry).

Lemma len_linked ns tail entry : len (linked ns tail entry) = len ns.
Proof. unfold linked. destruct (get ns tail); [apply len_upd|done]. Qed.

Lemma view_link s tail entry : linked_view (link_on s tail entry) = linked (linked_view s) tail entry.
Proof. apply linked_calls_linked. Qed.

Lemma wp_set_next tail entry s (Q : unit -> Compiler -> Prop) R :
  tail < len (c_nodes s) -> Q tt (link_on s tail entry) -> wp (set_next tail entry) Q R s.
Proof.
  intros Hlt HQ. unfold set_next. wp_step wp_gets. destruct (get_lt _ _ Hlt) as [n Hn].
  wp_step wp_expect; [done|]. apply wp_modify. unfold link_on, linked in HQ. by rewrite Hn in HQ.
Qed.

(** Linking an instruction added since [s] changes nothing that was there. *)
Lemma lowered_all_link ps depth s s' tail entry :
  lowered_all ps depth s s' -> len (c_nodes s) <= tail ->
  lowered_all ps depth s (link_on s' tail entry).
Proof.
  intros [[] [] ? ? ? ? ? ? ? ? ?] Htail.
  split; try done; simpl; rewrite ?len_linked; try done.
  - split; simpl; rewrite ?len_linked; done.
  - split; simpl; rewrite ?len_linked; try done.
    intros i Hi. rewrite view_link, linked_ne by lia. auto.
Qed.

(** The codes of the last steps of a sequence. *)
Definition lowered_steps (l : list (Expression J)) depth s (r : Lowered) s' : Prop :=
  lowered_all (reverse l) depth s s' /\
  code_steps target (c_imports s') (linked_view s') (c_names s) (c_live_bindings s) l
    (len (c_nodes s)) (len (c_nodes s')) (lowered_entry r) (lowered_tail r) None.

Lemma lowered_chain x l depth s suffix s1 first s2 :
  lowered_steps l depth s suffix s1 -> lowered x depth s1 first s2 ->
  lowered_tail first < len (c_nodes s2) /\
  lowered_steps (x :: l) depth s (mkLowered (lowered_entry first) (lowered_tail suffix))
    (link_on s2 (lowered_tail first) (lowered_entry suffix)).
Proof.
  intros [Hall Hcode] Hx. pose proof (low_code _ _ _ _ _ Hx) as Hcx.
  pose proof (proj1 (code_range _ _ _) _ _ _ _ _ _ _ _ Hcx) as [_ Htail].
  pose proof (ext_len _ _ (all_extends _ _ _ _ Hall)).
  split; [lia|]. split.
  - rewrite reverse_cons. apply lowered_all_link; [by eapply lowered_all_snoc|lia].
  - simpl. rewrite view_link, len_linked. eapply code_step; simpl.
    + eapply code_transfer; [done| |].
      * eapply code_steps_extends; [by eapply low_extends|exact (N.le_refl _)|exact Hcode].
      * intros i Hi. apply linked_ne. lia.
    + rewrite (all_names _ _ _ _ Hall), (all_live _ _ _ _ Hall) in Hcx. by eapply code_linked.
Qed.

Lemma wp_lower_sequence steps depth s l :
  compiler_ok s -> Forall lowers l -> l <> [] -> forall pre, steps = pre ++ l ->
  wp (lower_sequence (fun x => lower_rec x (depth + 1)) l) (lowered_steps l (depth + 1) s)
    (fun x _ => refused (ESequence steps) depth s x) s.
Proof.
  intros Hok Hall. induction Hall as [|x l Hx _ IH]; [done|]. intros _ pre Hsteps.
  destruct l as [|y l]; simpl lower_sequence.
  - eapply wp_mono; [by apply Hx| |intros z s' Hz].
    + intros r s' Hr. split; [|eapply code_last, low_code; exact Hr].
      by eapply (lowered_all_snoc []); [apply lowered_all_nil|].
    + eapply (refused_step steps pre x []); [done|by apply lowered_all_nil|done].
  - apply wp_bind. eapply wp_mono; [apply (IH ltac:(done) (pre ++ [x]))| |done].
    { by rewrite <- app_assoc. }
    intros suffix s1 Hl. destruct (Hl) as [Hall _]. apply wp_bind.
    eapply wp_mono; [apply Hx, Hall| |intros z s' Hz; by eapply refused_step].
    intros first s2 Hf. destruct (lowered_chain _ _ _ _ _ _ _ _ Hl Hf) as [Hlt Hs].
    unfold chain. apply wp_bind, wp_set_next; [done|]. by apply wp_ret.
Qed.

Lemma lowered_sequence x l depth s r s' :
  compiler_ok s -> depth <= expression_depth (c_limits s) -> depth < usize_max ->
  lowered_steps (x :: l) (depth + 1) s r s' -> lowered (ESequence (x :: l)) depth s r s'.
Proof.
  intros Hok Hd Hu [Hall Hcode]. pose proof (ext_limits _ _ (all_extends _ _ _ _ Hall)) as Hlim.
  destruct Hall as [Hok' Hext Hn Hl Hb Hlen Hres Hdepth Hc Hlit Hcalls].
  rewrite reverse_Permutation in Hb, Hlen, Hres. setoid_rewrite elem_of_reverse in Hdepth.
  setoid_rewrite elem_of_reverse in Hc. setoid_rewrite elem_of_reverse in Hlit.
  setoid_rewrite elem_of_reverse in Hcalls.
  pose proof (ok_limit _ Hok') as Hcap. pose proof (ok_reserved _ Hok') as Hmax. rewrite Hlim in Hcap.
  split; [done|done|done|done|exact Hb|exact Hlen|exact Hres|by apply code_sequence|..].
  - assert (depth + nesting (ESequence (x :: l)) <= expression_depth (c_limits s)).
    { apply nesting_bound. split; [lia|]. intros p Hp. apply (Hdepth p Hp). }
    assert (depth + nesting (ESequence (x :: l)) <= usize_max - 1).
    { apply nesting_bound. split; [lia|]. intros p Hp. specialize (Hdepth p Hp). lia. }
    rewrite Hres in Hcap, Hmax. unfold within. rewrite instructions_sequence.
    unfold usize_max, u64_max in *. lia.
  - intros y Hy. inversion Hy as [| | |? p _ Hp]; subst. by eapply Hc.
  - intros (j & f & Hin & Hj). inversion Hin as [|? p Hp]; subst. apply (Hlit p Hp). by exists j, f.
  - intros f. rewrite Hcalls. split; (intros [?|Hf]; [by left|right]).
    + destruct Hf as (p & Hp & Hf). by eapply inside_part.
    + inversion Hf as [|? p Hp]; subst. by exists p.
Qed.

Lemma lowers_sequence steps : Forall lowers steps -> lowers (ESequence steps).
Proof.
  intros Hall. destruct steps as [|x l]; [apply lowers_empty|]. intros depth s Hok. cbn [lower_rec].
  apply wp_bind, wp_enter_sequence. intros Hd Hu.
  eapply wp_mono; [apply (wp_lower_sequence (x :: l) depth s (x :: l) Hok Hall ltac:(done) []); done| |done].
  intros r s' Hs. by apply lowered_sequence.
Qed.

Lemma lowers_all e : lowers e.
Proof.
  induction e as [e IH] using expression_parts_ind.
  destruct e; simpl in IH; decompose_Forall_hyps;
    eauto using lowers_let, lowers_sequence, lowers_if, lowers_acting, lowers_call;
    first [ by apply lowers_leaf | by eapply lowers_two; [constructor|..] ].
Qed.
End spec.
