(* ===== verification/PortableShape.v ===== *)
(** * Structural admission

    The explicit stacks of portable/shape.rs charge what a recursive reading of the source
    charges. The charge of a resident constant is the environment's. *)

From stdpp Require Import base numbers list option strings gmap.
From S2P Require Import Prelude Program Text Path Collection ValueList ValueMap Value Source.
From S2P Require Import Portable PortableLower.

Local Open Scope N_scope.
Local Open Scope comp_scope.

(** ** Charges *)

(** Two charges, refused when one of them is. *)
Definition plus_charge (o1 o2 : option N) : option N := a ← o1; b ← o2; Some (a + b).

(** [charges c o]: [c] takes exactly [o] from the budget, and is refused, for want of
    capacity, exactly when there is no such charge or the budget is smaller. *)
Definition charges (c : comp N CompileError unit) (o : option N) : Prop :=
  forall budget,
    wp c (fun _ rest => exists n, o = Some n /\ rest + n = budget)
         (fun x _ => x = CompileCapacity /\ forall n, o = Some n -> budget < n) budget.

Lemma plus_charge_Some o1 o2 n :
  plus_charge o1 o2 = Some n <-> exists a b, o1 = Some a /\ o2 = Some b /\ n = a + b.
Proof. destruct o1, o2; simpl; naive_solver. Qed.

Lemma plus_charge_assoc o1 o2 o3 :
  plus_charge (plus_charge o1 o2) o3 = plus_charge o1 (plus_charge o2 o3).
Proof. destruct o1, o2, o3; simpl; try done. f_equal. lia. Qed.

Lemma plus_charge_0 o : plus_charge o (Some 0) = o.
Proof. destruct o; simpl; [|done]. f_equal. lia. Qed.

Lemma plus_charge_0_l o : plus_charge (Some 0) o = o.
Proof. destruct o; simpl; [|done]. f_equal. Qed.

#[global] Arguments plus_charge : simpl never.

Lemma charges_ret : charges (ret tt) (Some 0).
Proof. intros b. apply wp_ret. exists 0. split; [done|lia]. Qed.

Lemma charges_spend n : charges (spend n) (Some n).
Proof.
  intros b. unfold spend. wp_step wp_gets. simpl. wp_step wp_require.
  - intros rest [-> Hle]%checked_sub_Some. apply wp_modify. exists n. split; [done|lia].
  - unfold checked_sub. destruct (N.leb_spec n b); [done|]. intros _. split; [done|]. by intros ? [= <-].
Qed.

Lemma charges_bind {A} (c : comp N CompileError unit) (k : comp N CompileError A) Q R o1 budget :
  charges c o1 ->
  (forall a rest, o1 = Some a -> rest + a = budget -> wp k Q R rest) ->
  (forall rest, (forall a, o1 = Some a -> budget < a) -> R CompileCapacity rest) ->
  wp (c ;;; k) Q R budget.
Proof.
  intros Hc Hk HR. apply wp_bind. eapply wp_mono; [apply Hc| |].
  - intros [] rest (a & Ha & Hrest). eauto.
  - intros x rest [-> Hx]. eauto.
Qed.

Lemma charges_then c k o1 o2 : charges c o1 -> charges k o2 -> charges (c ;;; k) (plus_charge o1 o2).
Proof.
  intros Hc Hk b. eapply charges_bind; [done| |].
  - intros a rest Ha Hb. eapply wp_mono; [apply Hk| |].
    + intros _ rest' (n & Hn & Hrest). exists (a + n). split; [by rewrite Ha, Hn|lia].
    + intros x rest' [-> Hx]. split; [done|]. intros n (a' & n' & Ha' & Hn' & ->)%plus_charge_Some.
      rewrite Ha in Ha'. injection Ha' as <-. specialize (Hx n' Hn'). lia.
  - intros rest Hx. split; [done|]. intros n (a & n' & Ha & Hn' & ->)%plus_charge_Some.
    specialize (Hx a Ha). lia.
Qed.

Lemma charges_require {A} (o : option A) (k : A -> comp N CompileError unit) oc :
  (forall a, o = Some a -> charges (k a) oc) -> (o = None -> oc = None) ->
  charges (let* a := require o CompileCapacity in k a) oc.
Proof.
  intros Hk Hnone b. wp_step wp_require; [intros a Ha; by apply Hk|].
  intros E. split; [done|]. by rewrite Hnone.
Qed.

Lemma charges_proper c c' o : c ≃ c' -> charges c' o -> charges c o.
Proof. intros Hc Hc' b. by eapply wp_proper. Qed.

(** ** Stacks

    A loop over a stack whose every turn takes part of its item's charge and leaves the rest
    to what it pushes. *)
Section stack.
Context {I : Type} (turn : I -> comp N CompileError (list I)).
Context (charge : I -> option N) (turns : I -> nat).

Definition stack_charge (pending : list I) : option N :=
  foldr (fun item o => plus_charge (charge item) o) (Some 0) pending.

Definition stack_turns (pending : list I) : nat := sum_list_with turns pending.

Lemma stack_charge_app l k : stack_charge (l ++ k) = plus_charge (stack_charge l) (stack_charge k).
Proof.
  induction l as [|x l IH]; simpl; [by rewrite plus_charge_0_l|]. by rewrite IH, plus_charge_assoc.
Qed.

Definition turn_charges : Prop := forall item budget,
  wp (turn item)
    (fun pushed rest => (stack_turns pushed < turns item)%nat /\
       exists n, charge item = plus_charge (Some n) (stack_charge pushed) /\ rest + n = budget)
    (fun x _ => x = CompileCapacity /\ forall n, charge item = Some n -> budget < n) budget.

(** A turn that charges and then pushes. *)
Lemma charge_then_push c o pushed item budget :
  charges c o -> (stack_turns pushed < turns item)%nat ->
  charge item = plus_charge o (stack_charge pushed) ->
  wp (c ;;; ret pushed)
    (fun pushed rest => (stack_turns pushed < turns item)%nat /\
       exists n, charge item = plus_charge (Some n) (stack_charge pushed) /\ rest + n = budget)
    (fun x _ => x = CompileCapacity /\ forall n, charge item = Some n -> budget < n) budget.
Proof.
  intros Hc Hturns Hitem. eapply charges_bind; [done| |].
  - intros a rest -> Hrest. apply wp_ret. split; [done|]. by exists a.
  - intros rest Hx. split; [done|]. intros n. rewrite Hitem. intros (a & m & Ha & _ & ->)%plus_charge_Some.
    specialize (Hx a Ha). lia.
Qed.

Lemma while_pop_charges fuel : turn_charges -> forall pending,
  (forall item, 0 < turns item)%nat -> (stack_turns pending <= fuel)%nat ->
  charges (while_pop turn fuel pending) (stack_charge pending).
Proof.
  intros Hturn. induction fuel as [|fuel IH]; intros [|item pending] Hpos Hfuel b;
    try (simpl; by apply charges_ret); simpl in Hfuel; specialize (Hpos item) as Hi; [lia|].
  simpl. apply wp_bind. eapply wp_mono; [apply Hturn| |].
  - intros pushed rest (Hless & n & -> & Hrest). eapply wp_mono; [apply IH; [done|]| |].
    + unfold stack_turns in *. rewrite sum_list_with_app. lia.
    + intros _ rest' (m & Hm & Hrest'). rewrite stack_charge_app in Hm.
      exists (n + m). split; [|lia]. by rewrite plus_charge_assoc, Hm.
    + intros x rest' [-> Hx]. split; [done|]. intros k. rewrite plus_charge_assoc, <- stack_charge_app.
      intros (a & m & [= <-] & Hm & ->)%plus_charge_Some. specialize (Hx m Hm). lia.
  - intros x rest' [-> Hx]. split; [done|]. intros k (a & m & Ha & _ & ->)%plus_charge_Some.
    specialize (Hx a Ha). lia.
Qed.
End stack.

Lemma stack_charge_one {I} (charge : I -> option N) item : stack_charge charge [item] = charge item.
Proof. apply plus_charge_0. Qed.

Lemma stack_charge_two {I} (charge : I -> option N) a b :
  stack_charge charge [a; b] = plus_charge (charge a) (charge b).
Proof. simpl. by rewrite plus_charge_0. Qed.

(** ** Literals *)

Section json.
Context {J : Type}.

(** The charge of a literal at a depth. *)
Fixpoint json_charge (value : Json J) (depth : N) : option N :=
  if MAX_LITERAL_DEPTH <? depth then None
  else
    plus_charge (Some 1)
      match value with
      | JString s => Some (len s)
      | JArray values =>
          (fix all (l : list (Json J)) : option N :=
             match l with
             | [] => Some 0
             | x :: l' => plus_charge (json_charge x (depth + 1)) (all l')
             end) values
      | JObject entries =>
          (fix all (l : list (text * Json J)) : option N :=
             match l with
             | [] => Some 0
             | (key, x) :: l' =>
                 plus_charge (Some (len key)) (plus_charge (json_charge x (depth + 1)) (all l'))
             end) entries
      | _ => Some 0
      end.

Fixpoint array_charge (l : list (Json J)) (depth : N) : option N :=
  match l with
  | [] => Some 0
  | x :: l' => plus_charge (json_charge x depth) (array_charge l' depth)
  end.

Fixpoint object_charge (l : list (text * Json J)) (depth : N) : option N :=
  match l with
  | [] => Some 0
  | (key, x) :: l' =>
      plus_charge (Some (len key)) (plus_charge (json_charge x depth) (object_charge l' depth))
  end.

Lemma json_charge_eq value depth :
  json_charge value depth =
  if MAX_LITERAL_DEPTH <? depth then None
  else
    plus_charge (Some 1)
      match value with
      | JString s => Some (len s)
      | JArray values => array_charge values (depth + 1)
      | JObject entries => object_charge entries (depth + 1)
      | _ => Some 0
      end.
Proof.
  destruct value as [| | | |l|l]; try done; simpl; case_match; try done; do 2 f_equal;
    (induction l as [|x l IH]; [done|]; simpl; try destruct x; by rewrite IH).
Qed.

(** What an item on the stack will be charged, and the turns it takes. *)
Definition item_charge (item : JsonPending J) : option N :=
  match item with
  | JPNode value depth => json_charge value depth
  | JPArray values depth => array_charge values depth
  | JPObject entries depth => object_charge entries depth
  end.

Definition item_turns (item : JsonPending J) : nat :=
  match item with
  | JPNode value _ => json_turns value
  | JPArray values _ => S (sum_list_with (fun x => S (json_turns x)) values)
  | JPObject entries _ => S (sum_list_with (fun '(_, x) => S (json_turns x)) entries)
  end.

Lemma json_turns_eq (value : Json J) :
  json_turns value = S match value with
    | JArray values => item_turns (JPArray values 0)
    | JObject entries => item_turns (JPObject entries 0)
    | _ => O
    end.
Proof.
  destruct value as [| | | |l|l]; try done; simpl; f_equal;
    (induction l as [|x l IH]; [done|]; simpl; try destruct x; rewrite IH; simpl; lia).
Qed.

Lemma item_turns_positive (item : JsonPending J) : (0 < item_turns item)%nat.
Proof. destruct item; simpl; [|lia..]. rewrite json_turns_eq. lia. Qed.

Lemma json_turn_charges : turn_charges (check_json_turn (J := J)) item_charge item_turns.
Proof.
  intros [value depth|[|x l] depth|[|[key x] l] depth] b; cbn [check_json_turn].
  - destruct (MAX_LITERAL_DEPTH <? depth) eqn:Hd.
    { apply wp_throw. split; [done|]. simpl. by rewrite json_charge_eq, Hd. }
    assert (item_charge (JPNode value depth) = plus_charge (Some 1) match value with
      | JString s => Some (len s) | JArray values => array_charge values (depth + 1)
      | JObject entries => object_charge entries (depth + 1) | _ => Some 0 end) as Hitem.
    { simpl. by rewrite json_charge_eq, Hd. }
    pose proof (json_turns_eq value) as Hturns.
    destruct value as [| | |s|l|l];
      try (eapply charge_then_push; [apply charges_spend|simpl in *; lia|];
           rewrite Hitem, ?stack_charge_one; done).
    eapply wp_proper; [symmetry; apply bind_assoc|].
    eapply charge_then_push; [apply charges_then; apply charges_spend|simpl in *; lia|].
    by rewrite Hitem, plus_charge_0.
  - apply wp_ret. split; [simpl; lia|]. exists 0. split; [done|lia].
  - apply wp_ret. split; [simpl; lia|]. exists 0. split; [|lia].
    by rewrite stack_charge_two, plus_charge_0_l.
  - apply wp_ret. split; [simpl; lia|]. exists 0. split; [done|lia].
  - eapply charge_then_push; [apply charges_spend|simpl; lia|]. by rewrite stack_charge_two.
Qed.

(** [check_json] charges a literal. *)
Lemma check_json_charges (value : Json J) : charges (check_json value) (json_charge value 1).
Proof.
  change (json_charge value 1) with (item_charge (JPNode value 1)). rewrite <- stack_charge_one.
  apply (while_pop_charges _ _ item_turns); [apply json_turn_charges|apply item_turns_positive|].
  simpl. lia.
Qed.
End json.

(** ** Expressions *)

Section expression.
Context {J : Type} (check_value : Value -> comp N CompileError unit).
Context (value_charge : Value -> option N).
Hypothesis check_value_charges : forall v, charges (check_value v) (value_charge v).

Definition optional_charge (value : option Value) : option N :=
  match value with Some v => value_charge v | None => Some 0 end.

Definition payload_charge (e : Expression J) : option N :=
  match e with
  | ELiteral value => json_charge value 1
  | EConstant value => value_charge value
  | EUse name | ELet name _ _ => Some (len name)
  | EInvoke operation =>
      plus_charge (canonical_len (operation_target operation))
        (plus_charge (Some (len (operation_method operation)))
           (optional_charge (operation_literal_input operation)))
  | ETransform (Field name) => Some (len name)
  | ETransform (Equal value) => value_charge value
  | EActing identity _ => canonical_len identity
  | ECall function => Some (len function)
  | EModule module =>
      plus_charge (Some (len (step_name module))) (optional_charge (step_arg module))
  | EFail message => Some (len message)
  | EWait (Signal path) => canonical_len path
  | _ => Some 0
  end.

(** The charge of an expression at a depth: itself, its payload and its parts. *)
Fixpoint expression_charge (limits : CompileLimits) (e : Expression J) (depth : N) : option N :=
  if expression_depth limits <? depth then None
  else
    d ← checked_add usize_max depth 1;
    plus_charge (Some 1) (plus_charge (payload_charge e)
      match e with
      | ELet _ x y | EWhile x y _ | EParallel x y | ERace x y | ECatch x y | EFinally x y =>
          plus_charge (expression_charge limits x d) (expression_charge limits y d)
      | ESequence steps =>
          (fix all (l : list (Expression J)) : option N :=
             match l with
             | [] => Some 0
             | x :: l' => plus_charge (expression_charge limits x d) (all l')
             end) steps
      | EIf x y z =>
          plus_charge (expression_charge limits x d)
            (plus_charge (expression_charge limits y d) (expression_charge limits z d))
      | EActing _ x => expression_charge limits x d
      | _ => Some 0
      end).

Definition parts_charge (limits : CompileLimits) (l : list (Expression J)) (depth : N) : option N :=
  foldr (fun x o => plus_charge (expression_charge limits x depth) o) (Some 0) l.

Lemma expression_charge_eq limits e depth :
  expression_charge limits e depth =
  if expression_depth limits <? depth then None
  else
    d ← checked_add usize_max depth 1;
    plus_charge (Some 1)
      (plus_charge (payload_charge e) (parts_charge limits (expression_parts e) d)).
Proof.
  destruct e; simpl; destruct (_ <? _); try done; destruct (checked_add _ _ _); simpl; try done;
    by rewrite ?plus_charge_0.
Qed.

Lemma spend_path_charges path : charges (spend_path path) (canonical_len path).
Proof.
  apply charges_require; [|by intros ->]. intros n ->. apply charges_spend.
Qed.

Lemma check_optional_charges value :
  charges (check_optional check_value value) (optional_charge value).
Proof using check_value_charges. destruct value; simpl; [done|apply charges_ret]. Qed.

Lemma check_payload_charges (e : Expression J) :
  charges (check_payload check_value e) (payload_charge e).
Proof using check_value_charges.
  destruct e as [| | | | | | |op| | | | | | | | |w| |]; simpl;
    auto using charges_ret, charges_spend, charges_then, spend_path_charges,
      check_optional_charges, check_json_charges.
  - destruct op; auto using charges_ret, charges_spend.
  - destruct w; auto using charges_ret, spend_path_charges.
Qed.

Definition node_charge limits (item : ExpressionPending J) : option N :=
  match item with
  | EPNode e depth => expression_charge limits e depth
  | EPSequence steps depth => parts_charge limits steps depth
  end.

Definition node_turns (item : ExpressionPending J) : nat :=
  match item with
  | EPNode e _ => 3 * expression_size e - 1
  | EPSequence steps _ => S (sum_list_with (fun x => 3 * expression_size x)%nat steps)
  end.

Lemma node_turns_positive item : (0 < node_turns item)%nat.
Proof. destruct item; simpl; [|lia]. rewrite expression_size_parts. lia. Qed.

(** The parts pushed carry the parts' charge, in fewer turns. *)
Lemma pending_parts_charge limits e d :
  stack_charge (node_charge limits) (pending_parts e d) = parts_charge limits (expression_parts e) d /\
  (stack_turns node_turns (pending_parts e d) < 3 * expression_size e - 1)%nat.
Proof.
  assert (forall l : list (Expression J),
    (stack_turns node_turns ((fun part => EPNode part d) <$> l) <= 3 * sum_list_with expression_size l)%nat)
    as Hl.
  { unfold stack_turns. induction l as [|x l IH]; [done|]. cbn [fmap list_fmap sum_list_with node_turns]. lia. }
  assert (forall l : list (Expression J),
    sum_list_with (fun x => 3 * expression_size x)%nat l = (3 * sum_list_with expression_size l)%nat) as H3.
  { induction l as [|x l IH]; simpl in *; lia. }
  rewrite expression_size_parts. destruct e as [| | | | |steps| | | | | | | | | | | | |].
  6:{ split; [exact (stack_charge_one (node_charge limits) _)|]. simpl. rewrite H3. lia. }
  all: split; [done|]; unfold pending_parts;
    match goal with |- context [expression_parts ?e] => specialize (Hl (expression_parts e)) end; lia.
Qed.

Lemma node_turn_charges limits :
  turn_charges (check_expression_turn check_value limits) (node_charge limits) node_turns.
Proof using check_value_charges.
  intros [e depth|[|x l] depth] b; cbn [check_expression_turn].
  - destruct (_ <? _) eqn:Hd.
    { apply wp_throw. split; [done|]. simpl. by rewrite expression_charge_eq, Hd. }
    destruct (checked_add usize_max depth 1) as [d|] eqn:Hadd.
    + destruct (pending_parts_charge limits e d) as [Hcharge Hturns].
      eapply wp_proper; [|eapply (charge_then_push (node_charge limits) node_turns
        (spend 1 ;;; check_payload check_value e))];
        [|apply charges_then; [apply charges_spend|apply check_payload_charges]|exact Hturns|].
      * rewrite bind_assoc. done.
      * simpl node_charge. rewrite expression_charge_eq, Hd, Hadd, Hcharge. simpl.
        by rewrite plus_charge_assoc.
    + eapply charges_bind; [apply charges_spend|intros a rest _ _|intros rest _];
        [apply wp_bind, wp_throw|]; (split; [done|]); simpl; by rewrite expression_charge_eq, Hd, Hadd.
  - apply wp_ret. split; [simpl; lia|]. exists 0. split; [done|lia].
  - apply wp_ret. destruct (N.eqb_spec (len l) 0) as [Hz|_].
    + destruct l; [|unfold len in Hz; simpl in Hz; lia].
      pose proof (expression_size_parts x). split; [simpl; lia|]. exists 0.
      rewrite stack_charge_one, plus_charge_0_l, N.add_0_r. split; [apply plus_charge_0|done].
    + pose proof (expression_size_parts x). split; [simpl; lia|]. exists 0.
      by rewrite stack_charge_two, plus_charge_0_l, N.add_0_r.
Qed.

(** [check_expression] charges an expression. *)
Lemma check_expression_charges limits e :
  charges (check_expression check_value e limits) (expression_charge limits e 0).
Proof using check_value_charges.
  change (expression_charge limits e 0) with (node_charge limits (EPNode e 0)).
  rewrite <- stack_charge_one.
  apply (while_pop_charges _ _ node_turns); [apply node_turn_charges|apply node_turns_positive|].
  simpl. lia.
Qed.

(** ** Programs *)

Definition functions_charge (limits : CompileLimits) (fs : list (text * Expression J)) : option N :=
  foldr (fun '(name, body) o =>
           plus_charge (plus_charge (Some (len name)) (expression_charge limits body 0)) o) (Some 0) fs.

(** The charge of a whole source. *)
Definition program_charge (limits : CompileLimits) (p : Program J) : option N :=
  plus_charge (Some 1)
    (plus_charge (expression_charge limits (program_body p) 0)
       (functions_charge limits (program_functions p))).

Lemma functions_charges limits fs :
  charges (for_each fs (fun '(name, body) =>
             spend (len name) ;;; check_expression check_value body limits))
    (functions_charge limits fs).
Proof using check_value_charges.
  induction fs as [|[name body] fs IH]; simpl; [apply charges_ret|].
  apply charges_then; [|done]. apply charges_then; [apply charges_spend|apply check_expression_charges].
Qed.

Lemma wp_validate_structure {S} p limits (s : S) :
  wp (validate_structure_with_limits check_value p limits)
    (fun _ s' => s' = s /\ exists n, program_charge limits p = Some n /\ n <= source_bytes limits)
    (fun x _ => x = CompileCapacity /\
       forall n, program_charge limits p = Some n -> source_bytes limits < n) s.
Proof using check_value_charges.
  apply wp_run_local. eapply wp_mono.
  - apply (charges_then _ _ (Some 1)); [apply charges_spend|].
    apply charges_then; [apply check_expression_charges|apply functions_charges].
  - intros [] rest (n & Hn & Hrest). split; [done|]. exists n. split; [done|lia].
  - auto.
Qed.
End expression.
