(* ===== verification/PortableProgram.v ===== *)
(** * Compiled programs

    The lowering of whole programs: the body, the named functions and the targets of calls,
    and what compilation as a whole accepts and produces. *)

From stdpp Require Import base numbers list option strings gmap.
From S2P Require Import Prelude Program Text Path Collection ValueList ValueMap Value Source.
From S2P Require Import Portable PortableLower PortableCode PortableSpec.

Local Open Scope N_scope.
Local Open Scope comp_scope.

(** A key stands for one value in a list without repeated keys. *)
Lemma NoDup_fst_unique {A B} (l : list (A * B)) a b b' :
  NoDup l.*1 -> (a, b) ∈ l -> (a, b') ∈ l -> b = b'.
Proof.
  induction l as [|[a0 b0] l IH]; intros Hnd Hb Hb'; [by apply elem_of_nil in Hb|].
  apply NoDup_cons in Hnd as [Hnotin Hnd].
  assert (forall b, (a, b) ∈ l -> a <> a0) as Hne.
  { intros c Hc ->. apply Hnotin, list_elem_of_fmap. by exists (a0, c). }
  rewrite elem_of_cons in Hb, Hb'. naive_solver.
Qed.

Section program.
Context {J : Type} `{JsonNumber J}.
Implicit Types (e : Expression J) (s : Compiler) (p : Program J).

Definition bodies p : list (Expression J) := program_body p :: (program_functions p).*2.

(** ** Admissible sources *)

(** The limits of depth and size. *)
Definition program_within (limits : CompileLimits) p : Prop :=
  (forall e, e ∈ bodies p -> nesting e <= expression_depth limits /\ nesting e < usize_max) /\
  total (bodies p) <= limit_instructions limits /\ total (bodies p) <= u32_max + 1.

(** A closed program of valid constants whose calls have targets. *)
Record program_closed p : Prop := {
  closed_names : forall e x, e ∈ bodies p -> ~ free_in x e;
  closed_literals : forall e, e ∈ bodies p -> ~ bad_literal e;
  closed_calls : forall e f, e ∈ bodies p -> calls_in e f -> f ∈ (program_functions p).*1
}.

(** The defect of a source that an error names. *)
Definition program_refused (limits : CompileLimits) p (x : CompileError) : Prop :=
  match x with
  | CompileCapacity => ~ program_within limits p
  | Variable_ name => exists e, e ∈ bodies p /\ free_in name e
  | Encoding => exists e, e ∈ bodies p /\ bad_literal e
  | Function_ f =>
      (exists e, e ∈ bodies p /\ calls_in e f) /\ f ∉ (program_functions p).*1
  | _ => False
  end.

Lemma refused_program limits p ps e rest s x :
  bodies p = ps ++ e :: rest -> c_limits s = limits -> c_reserved s = total ps -> c_names s = ∅ ->
  refused e 0 s x -> program_refused limits p x.
Proof.
  intros Hb Hl Hr Hn. assert (e ∈ bodies p) as He by (rewrite Hb; set_solver).
  destruct x; simpl; try done.
  - intros [? _]. eauto.
  - rewrite Hl, Hr. intros Hnot (Hd & Hi & Hm). apply Hnot. specialize (Hd e He).
    rewrite Hb, total_app in Hi, Hm. simpl in Hi, Hm. unfold within. lia.
  - eauto.
Qed.

(** ** Before calls are linked *)
Section bodies.
Context (target : text -> N).

(** The whole code of an expression, starting at [a]. *)
Definition placed s e (lo hi a : N) : Prop :=
  exists b, code target (c_imports s) (linked_view target s) ∅ 0 e lo hi a b None /\ hi <= len (c_nodes s).

Record lowered_bodies (body : Expression J) (fs : list (text * Expression J)) (entry : N)
    (limits : CompileLimits) s : Prop := {
  pre_ok : compiler_ok s;
  pre_live : c_live_bindings s = 0;
  pre_limits : c_limits s = limits;
  pre_entry : exists lo hi, placed s body lo hi entry;
  pre_functions : forall name a, c_functions s !! name = Some a ->
    exists e lo hi, (name, e) ∈ fs /\ placed s e lo hi a;
  pre_dom : forall name, is_Some (c_functions s !! name) <-> name ∈ fs.*1;
  pre_cover : forall i, i < len (c_nodes s) ->
    exists e lo hi a, e ∈ body :: fs.*2 /\ placed s e lo hi a /\ lo <= i < hi;
  pre_bindings : c_bindings s = most (body :: fs.*2);
  pre_nodes : len (c_nodes s) = total (body :: fs.*2);
  pre_reserved : c_reserved s = total (body :: fs.*2);
  pre_depth : forall e, e ∈ body :: fs.*2 ->
    nesting e <= expression_depth limits /\ nesting e < usize_max;
  pre_closed : forall e x, e ∈ body :: fs.*2 -> ~ free_in x e;
  pre_literals : forall e, e ∈ body :: fs.*2 -> ~ bad_literal e;
  pre_calls : forall f, f ∈ (c_calls s).*2 <-> exists e, e ∈ body :: fs.*2 /\ calls_in e f
}.

Lemma placed_extends s s' e lo hi a : extends target s s' -> placed s e lo hi a -> placed s' e lo hi a.
Proof.
  intros Hext (b & Hcode & Hhi). exists b. split; [by eapply code_extends|].
  pose proof (ext_len _ _ _ Hext). lia.
Qed.

Lemma lowered_placed e depth s r s' :
  c_names s = ∅ -> c_live_bindings s = 0 -> lowered target e depth s r s' ->
  placed s' e (len (c_nodes s)) (len (c_nodes s')) (lowered_entry r).
Proof.
  intros Hn Hl Hr. exists (lowered_tail r). split; [|done].
  pose proof (low_code _ _ _ _ _ _ Hr) as Hc. by rewrite Hn, Hl in Hc.
Qed.

Lemma lowered_body body limits r s' :
  lowered target body 0 (compiler_new limits) r s' ->
  lowered_bodies body [] (lowered_entry r) limits s'.
Proof.
  intros Hr. assert (placed s' body 0 (len (c_nodes s')) (lowered_entry r)) as Hp
    by (by apply lowered_placed in Hr).
  pose proof (ext_functions _ _ _ (low_extends _ _ _ _ _ _ Hr)) as Hf.
  pose proof (ext_limits _ _ _ (low_extends _ _ _ _ _ _ Hr)) as Hlim.
  destruct Hr as [Hok _ _ Hl Hb Hlen Hres _ (Hd & Hu & _) Hc Hlit Hcalls]. simpl in *.
  change (len []) with 0 in Hlen. split; try done.
  - eauto.
  - intros name a. rewrite Hf. done.
  - intros name. rewrite Hf, elem_of_nil. split; [by intros []|done].
  - intros i Hi. exists body. do 3 eexists. split; [by left|]. split; [exact Hp|]. lia.
  - simpl. lia.
  - simpl. lia.
  - simpl. lia.
  - intros e ->%list_elem_of_singleton. lia.
  - intros e x ->%list_elem_of_singleton Hx. apply Hc in Hx as [? ?]. done.
  - by intros e ->%list_elem_of_singleton.
  - intros f. rewrite Hcalls, elem_of_nil. setoid_rewrite list_elem_of_singleton. naive_solver.
Qed.

(** A function's code after those before it. *)
Definition function_on s (name : text) (a : N) : Compiler :=
  with_functions s (<[name := a]> (c_functions s)).

Definition cleared s : Compiler := with_names s ∅.

Lemma cleared_ok s : compiler_ok s -> compiler_ok (cleared s).
Proof. intros []. by split. Qed.

Lemma lowered_function body fs entry limits s name e r s' :
  lowered_bodies body fs entry limits s -> lowered target e 0 (cleared s) r s' ->
  lowered_bodies body (fs ++ [(name, e)]) entry limits (function_on s' name (lowered_entry r)).
Proof.
  intros [Hok Hl0 Hlim0 (lo0 & hi0 & Hentry) Hfun Hdom Hcover Hb0 Hn0 Hr0 Hd0 Hc0 Hlit0 Hcalls0] Hr.
  pose proof (low_extends _ _ _ _ _ _ Hr) as Hext. pose proof (ext_functions _ _ _ Hext) as Hf.
  pose proof (ext_limits _ _ _ Hext) as Hlim.
  assert (placed s' e (len (c_nodes s)) (len (c_nodes s')) (lowered_entry r)) as Hp
    by (by apply lowered_placed in Hr).
  assert (forall e lo hi a, placed s e lo hi a -> placed s' e lo hi a) as Hkeep.
  { intros. by eapply (placed_extends (cleared s)). }
  assert (body :: (fs ++ [(name, e)]).*2 = (body :: fs.*2) ++ [e]) as Hbodies by (by rewrite fmap_app).
  destruct Hr as [Hok' _ _ Hl Hb Hlen Hres _ (Hd & Hu & _) Hc Hlit Hcalls].
  simpl in Hl, Hb, Hlen, Hres, Hd, Hc, Hcalls, Hf, Hlim.
  split; rewrite ?Hbodies; try (simpl; congruence).
  - by destruct Hok'.
  - exists lo0, hi0. apply Hkeep, Hentry.
  - intros name' a. simpl. rewrite Hf. setoid_rewrite elem_of_app.
    intros [[-> <-]|[_ Ha]]%lookup_insert_Some.
    + exists e. do 2 eexists. split; [right; by left|exact Hp].
    + apply Hfun in Ha as (e' & lo & hi & Hin & Ha). exists e', lo, hi. split; [by left|by apply Hkeep].
  - intros name'. simpl. rewrite Hf, fmap_app, elem_of_app, <- Hdom, lookup_insert_is_Some.
    simpl. rewrite list_elem_of_singleton. destruct (decide (name = name')); naive_solver.
  - intros i Hi. simpl in Hi. setoid_rewrite elem_of_app. destruct (decide (i < len (c_nodes s))) as [Hlt|Hge].
    + destruct (Hcover i Hlt) as (e' & lo & hi & a & Hin & Ha & Hrange).
      exists e', lo, hi, a. split; [by left|]. split; [by apply Hkeep|done].
    + exists e. do 3 eexists. split; [right; by left|]. split; [exact Hp|]. lia.
  - rewrite most_app. change (most [e]) with (N.max (binders e) 0). simpl c_bindings. lia.
  - rewrite total_app. change (total [e]) with (instructions e + 0). simpl c_nodes. lia.
  - rewrite total_app. change (total [e]) with (instructions e + 0). simpl c_reserved. lia.
  - rewrite Hlim0 in *. intros e' [?| ->%list_elem_of_singleton]%elem_of_app; [auto|lia].
  - intros e' x [?| ->%list_elem_of_singleton]%elem_of_app; [eauto|]. intros Hx. by apply Hc in Hx as [].
  - intros e' [?| ->%list_elem_of_singleton]%elem_of_app; eauto.
  - intros f. simpl c_calls. rewrite Hcalls, Hcalls0. setoid_rewrite elem_of_app.
    setoid_rewrite list_elem_of_singleton. naive_solver.
Qed.

Lemma wp_lower_function body fs name e rest p entry limits s :
  p = mkProgram (program_version p) body (fs ++ (name, e) :: rest) ->
  lowered_bodies body fs entry limits s ->
  wp (Portable.lower_function (name, e))
    (fun _ => lowered_bodies body (fs ++ [(name, e)]) entry limits)
    (fun x _ => program_refused limits p x) s.
Proof.
  intros Hp Hs. unfold Portable.lower_function. wp_step wp_modify.
  apply wp_bind. eapply wp_proper; [apply lower_is_recursion|]. apply wp_bind.
  eapply wp_mono; [apply (lowers_all target e 0 (cleared s)), cleared_ok, Hs| |].
  - intros r s' Hr. apply wp_ret, wp_modify. by apply (lowered_function body fs entry limits s).
  - intros x s' Hx. eapply (refused_program limits p (body :: fs.*2) e rest.*2 (cleared s)); [|apply Hs..|done|exact Hx].
    rewrite Hp. unfold bodies. simpl. by rewrite fmap_app.
Qed.

Lemma wp_lower_functions body rest : forall fs p entry limits s,
  p = mkProgram (program_version p) body (fs ++ rest) ->
  lowered_bodies body fs entry limits s ->
  wp (for_each rest Portable.lower_function)
    (fun _ => lowered_bodies body (fs ++ rest) entry limits)
    (fun x _ => program_refused limits p x) s.
Proof.
  induction rest as [|[name e] rest IH]; intros fs p entry limits s Hp Hs; simpl.
  - apply wp_ret. by rewrite app_nil_r.
  - apply wp_bind. eapply wp_mono; [by eapply wp_lower_function| |done].
    intros [] s' Hs'. rewrite cons_middle, app_assoc.
    apply IH; [by rewrite <- app_assoc|done].
Qed.
End bodies.

(** ** Linking *)

Definition address_of (functions : gmap text N) (f : text) : N := default 0 (functions !! f).

Lemma wp_link_calls calls : forall s,
  Forall (fun call => fst call < len (c_nodes s)) calls ->
  wp (for_each calls link_call)
    (fun _ s' => s' = with_nodes s (linked_calls (address_of (c_functions s)) (c_nodes s) calls) /\
       forall f, f ∈ calls.*2 -> is_Some (c_functions s !! f))
    (fun x _ => exists f, x = Function_ f /\ f ∈ calls.*2 /\ c_functions s !! f = None) s.
Proof.
  induction calls as [|[i f] calls IH]; intros s Hall; simpl.
  { apply wp_ret. split; [by destruct s|]. by setoid_rewrite elem_of_nil. }
  apply Forall_cons in Hall as [Hi Hall]. simpl in Hi. destruct (get_lt _ _ Hi) as [n Hn].
  apply wp_bind. wp_step wp_gets. wp_step wp_require.
  2:{ intros Hf. exists f. split; [done|]. split; [by left|done]. }
  intros a Ha. wp_step wp_gets. wp_step wp_expect; [exact Hn|]. apply wp_modify.
  set (s1 := with_nodes s (upd (c_nodes s) i _)). assert (c_nodes s1 = linked_call (address_of (c_functions s)) (c_nodes s) (i, f)) as Hs1.
  { unfold linked_call, address_of. simpl. by rewrite Hn, Ha. }
  eapply wp_mono; [apply (IH s1)| |].
  - eapply Forall_impl; [done|]. intros call. by rewrite Hs1, len_linked_call.
  - intros [] s' [-> Hc]. rewrite Hs1. split; [done|].
    intros g [->|Hg]%elem_of_cons; [by rewrite Ha|by apply Hc].
  - intros x _ (g & -> & Hg & Hnone). exists g. split; [done|]. split; [by right|done].
Qed.

(** A compiled program: the code of the body and of every function, in a valid image. *)
Record program_image (target : text -> N) p (imps : list Import) (ns : list (Node Value Failure))
    (start bindings : N) : Prop := {
  img_size : len ns = total (bodies p);
  img_bindings : bindings = most (bodies p);
  img_imports : len imps <= total (bodies p);
  img_body : exists lo hi b, code target imps ns ∅ 0 (program_body p) lo hi start b None;
  img_functions : forall name e, (name, e) ∈ program_functions p ->
    exists lo hi b, code target imps ns ∅ 0 e lo hi (target name) b None;
  img_positions : forall i n, get ns i = Some n -> node_position n = i;
  img_valid : forall id, validate (mkImage IMAGE_VERSION id ns start bindings (len imps)) = Ok tt
}.

Definition linked_image target start s id : ProgramImage Value Failure :=
  mkImage IMAGE_VERSION id (linked_view target s) start (c_bindings s) (len (c_imports s)).

(** Every address resolves once calls are linked. *)
Lemma lowered_bodies_resolved target body fs start limits s id i :
  lowered_bodies target body fs start limits s ->
  (forall f, target f < len (c_nodes s)) ->
  i < len (c_nodes s) -> resolved (linked_image target start s id) i.
Proof.
  intros Hs Htarget Hi. set (image := linked_image _ _ _ _).
  destruct (pre_cover _ _ _ _ _ _ Hs _ Hi) as (e & lo' & hi' & a & He & (b' & Hc & _) & Hrange).
  destruct (code_resolved target (c_imports s) image) as [Hres _]; [done| |].
  { intros f. simpl. by rewrite len_view. }
  eapply Hres; [exact Hc| | |done|done].
  - by intros x slot.
  - simpl. rewrite (pre_bindings _ _ _ _ _ _ Hs). change (binders e <= most (body :: fs.*2)).
    clear -He. induction He as [|e' e l _ IH]; simpl; lia.
Qed.

Lemma lowered_bodies_valid target body fs start limits s id :
  lowered_bodies target body fs start limits s ->
  (forall f, target f < len (c_nodes s)) ->
  validate (linked_image target start s id) = Ok tt.
Proof.
  intros Hs Htarget. apply validate_image_ok.
  destruct (pre_entry _ _ _ _ _ _ Hs) as (lo & hi & b & Hcode & Hhi).
  split; [done|]. split.
  - apply code_range in Hcode. simpl. rewrite len_view. lia.
  - apply Forall_lookup_2. intros i n Hn.
    destruct (lowered_bodies_resolved target body fs start limits s id (N.of_nat i) Hs Htarget)
      as (n' & Hn' & _ & Hok).
    { rewrite <- (len_view target s). apply lookup_lt_Some in Hn. unfold len. simpl in Hn. lia. }
    rewrite get_lookup, Nat2N.id in Hn'. congruence.
Qed.

Lemma compiler_new_ok limits : compiler_ok (compiler_new limits).
Proof. split; simpl; try done; try lia. Qed.

(** The lowering without the links. *)
Definition lower_bodies p : lowering N :=
  let* start := lower (program_body p) 0 in
  for_each (program_functions p) Portable.lower_function ;;;
  ret start.

Lemma wp_lower_bodies p limits :
  wp (lower_bodies p)
    (fun start s => forall target,
       lowered_bodies target (program_body p) (program_functions p) start limits s)
    (fun x _ => program_refused limits p x) (compiler_new limits).
Proof.
  assert (forall target, wp (lower_bodies p)
    (fun start s => lowered_bodies target (program_body p) (program_functions p) start limits s)
    (fun x _ => program_refused limits p x) (compiler_new limits)) as Hall.
  { intros target. unfold lower_bodies. apply wp_bind. eapply wp_proper; [apply lower_is_recursion|].
    apply wp_bind. eapply wp_mono; [apply (lowers_all target), compiler_new_ok| |].
    - intros r s Hr%lowered_body. apply wp_ret, wp_bind.
      eapply wp_mono; [eapply (wp_lower_functions target (program_body p) (program_functions p) [] p); [by destruct p|done]| |done].
      intros [] s' Hs'. by apply wp_ret.
    - intros x s Hx. by apply (refused_program limits p [] (program_body p) (program_functions p).*2 (compiler_new limits)). }
  unfold wp in *. destruct (lower_bodies p (compiler_new limits)).
  - exact Hall.
  - apply (Hall (fun _ => 0)).
  - apply (Hall (fun _ => 0)).
Qed.

Lemma lower_program_bodies p :
  lower_program p ≃
  (let* start := lower_bodies p in
   let* calls := gets c_calls in
   for_each calls link_call ;;;
   ret start).
Proof.
  unfold lower_program, lower_bodies. rewrite bind_assoc. apply bind_ext. intros start.
  rewrite bind_assoc. apply bind_ext. intros []. done.
Qed.

(** The final functions are where the codes of the functions are. *)
Lemma linked_program_image p limits start s :
  NoDup (program_functions p).*1 ->
  (forall target, lowered_bodies target (program_body p) (program_functions p) start limits s) ->
  let target := address_of (c_functions s) in
  program_image target p (c_imports s) (linked_view target s) start (c_bindings s).
Proof.
  intros Hnd Hall target. specialize (Hall target).
  assert (forall name, (exists a, c_functions s !! name = Some a /\ target name = a) \/ target name = 0) as Htarget.
  { intros name. unfold target, address_of. destruct (c_functions s !! name); eauto. }
  assert (forall f, target f < len (c_nodes s)) as Hbound.
  { intros f. destruct (pre_entry _ _ _ _ _ _ Hall) as (lo & hi & b & Hcode & Hhi).
    apply code_range in Hcode. destruct (Htarget f) as [(a & Ha & ->)| ->]; [|lia].
    destruct (pre_functions _ _ _ _ _ _ Hall f a Ha) as (e & lo' & hi' & _ & b' & Hc & Hhi').
    apply code_range in Hc. lia. }
  split.
  - rewrite len_view. apply Hall.
  - apply Hall.
  - etrans; [apply ok_imports, Hall|]. by rewrite (pre_reserved _ _ _ _ _ _ Hall).
  - destruct (pre_entry _ _ _ _ _ _ Hall) as (lo & hi & b & Hcode & _). eauto.
  - intros name e Hin. destruct (proj2 (pre_dom _ _ _ _ _ _ Hall name)) as [a Ha].
    { apply list_elem_of_fmap. by exists (name, e). }
    destruct (pre_functions _ _ _ _ _ _ Hall name a Ha) as (e' & lo & hi & Hin' & b & Hcode & _).
    assert (e' = e) as -> by (by eapply NoDup_fst_unique).
    exists lo, hi, b. unfold target at 3, address_of. by rewrite Ha.
  - intros i n Hn. destruct (lowered_bodies_resolved _ _ _ _ _ _ [] i Hall Hbound) as (n' & Hn' & Hp & _).
    { apply get_Some_lt in Hn. by rewrite len_view in Hn. }
    simpl in Hn'. congruence.
  - intros id. by eapply lowered_bodies_valid.
Qed.

Lemma wp_lower_program p limits :
  NoDup (program_functions p).*1 ->
  wp (lower_program p)
    (fun start s =>
       (exists target, program_image target p (c_imports s) (c_nodes s) start (c_bindings s)) /\
       program_within limits p /\ program_closed p)
    (fun x _ => program_refused limits p x) (compiler_new limits).
Proof.
  intros Hnd. eapply wp_proper; [apply lower_program_bodies|]. apply wp_bind.
  eapply wp_mono; [apply wp_lower_bodies| |done]. intros start s Hall.
  pose proof (Hall (fun _ => 0)) as [Hok _ Hlim _ _ Hdom _ _ _ Hres Hd Hc Hlit Hcalls].
  wp_step wp_gets. apply wp_bind. eapply wp_mono; [apply wp_link_calls, Hok| |].
  - intros [] s' [-> Hlinked]. apply wp_ret. split; [|split].
    + exists (address_of (c_functions s)). by apply (linked_program_image p limits start s).
    + split; [exact Hd|]. change (total (bodies p)) with (total (program_body p :: (program_functions p).*2)).
      rewrite <- Hres, <- Hlim. split; apply Hok.
    + split; [exact Hc|exact Hlit|]. intros e f He Hf. apply Hdom, Hlinked, Hcalls. by exists e.
  - intros x _ (f & -> & Hf & Hnone). split; [by apply Hcalls|].
    intros Hin%Hdom. rewrite Hnone in Hin. by destruct Hin.
Qed.
End program.
