(* ===== verification/PortableProps.v ===== *)
(** * What compiling a portable program guarantees

    The theorems about [compile_with_limits] as a whole. *)

From Stdlib Require Import ZArith.
From stdpp Require Import base numbers list option strings gmap.
From S2P Require Import Prelude Program Text Path Collection ValueList ValueMap Value Source.
From S2P Require Import Portable PortableLower PortableCode PortableSpec PortableShape PortableProgram.

Local Open Scope N_scope.
Local Open Scope comp_scope.

(** ** What an admitted source is bounded by *)

Section bounds.
Context {J : Type} (value_charge : Value -> option N) (limits : CompileLimits).
Implicit Types (e : Expression J) (p : Program J).

Lemma parts_charge_Some l d n :
  parts_charge value_charge limits l d = Some n ->
  Forall (fun x => exists m, expression_charge value_charge limits x d = Some m) l /\
  forall f : Expression J -> N,
    (forall x m, x ∈ l -> expression_charge value_charge limits x d = Some m -> f x <= m) ->
    foldr (fun x k => f x + k) 0 l <= n.
Proof.
  revert n. induction l as [|x l IH]; simpl; intros n Hn.
  - injection Hn as <-. split; [constructor|]. simpl. lia.
  - apply plus_charge_Some in Hn as (a & b & Ha & Hb & ->). destruct (IH b Hb) as [Hall Hsum].
    split; [constructor; eauto|]. intros f Hf.
    assert (f x <= a) by (eapply Hf; [by left|done]).
    assert (foldr (fun x k => f x + k) 0 l <= b); [|lia].
    apply Hsum. intros y m Hy. apply Hf. by right.
Qed.

(** An admitted expression is within the depth limit and has no more instructions than its
    charge. *)
Lemma expression_charge_bounds e : forall depth n,
  expression_charge value_charge limits e depth = Some n ->
  depth + nesting e <= expression_depth limits /\ depth + nesting e < usize_max /\
  instructions e <= n.
Proof.
  induction e as [e IH] using expression_parts_ind. rewrite Forall_forall in IH.
  intros depth n. rewrite expression_charge_eq.
  destruct (N.ltb_spec (expression_depth limits) depth) as [|Hd]; [done|].
  destruct (checked_add usize_max depth 1) as [d|] eqn:Hadd; [|done]. simpl.
  apply checked_add_Some in Hadd as [-> Hmax].
  intros (a & b & [= <-] & (c & m & _ & Hm & ->)%plus_charge_Some & ->)%plus_charge_Some.
  apply parts_charge_Some in Hm as [Hall Hsum]. rewrite Forall_forall in Hall.
  assert (forall m, (forall x, x ∈ expression_parts e -> depth + 1 + nesting x <= m) -> depth <= m ->
    depth + nesting e <= m) as Hnest by (intros; by apply nesting_bound).
  assert (instructions e <= 1 + (c + m)) as Hi.
  { assert (total (expression_parts e) <= m).
    { apply (Hsum instructions). intros x k Hx Hk. apply (IH x Hx) in Hk. lia. }
    pose proof (instructions_parts_le e). lia. }
  split; [apply Hnest; [|lia]|split; [|done]].
  - intros x Hx. destruct (Hall x Hx) as [k Hk]. apply (IH x Hx) in Hk. lia.
  - assert (depth + nesting e <= usize_max - 1); [|unfold usize_max, u64_max in *; lia].
    apply Hnest; [|lia]. intros x Hx. destruct (Hall x Hx) as [k Hk]. apply (IH x Hx) in Hk. lia.
Qed.

Lemma program_charge_bounds p n :
  program_charge value_charge limits p = Some n ->
  total (bodies p) < n /\
  forall e, e ∈ bodies p -> nesting e <= expression_depth limits /\ nesting e < usize_max.
Proof.
  unfold program_charge.
  intros (a & b & [= <-] & (k & m & Hk & Hm & ->)%plus_charge_Some & ->)%plus_charge_Some.
  assert (total (program_functions p).*2 <= m /\ forall e, e ∈ (program_functions p).*2 ->
    nesting e <= expression_depth limits /\ nesting e < usize_max) as [Htotal Hnest].
  { clear -Hm. revert m Hm. induction (program_functions p) as [|[name e] fs IH]; simpl; intros m Hm.
    - split; [lia|]. by intros e ?%elem_of_nil.
    - apply plus_charge_Some in Hm as (a & b & (a1 & a2 & _ & Ha & ->)%plus_charge_Some & Hb & ->).
      apply expression_charge_bounds in Ha. destruct (IH b Hb) as [Ht Hn]. split.
      { change (instructions e + total fs.*2 <= a1 + a2 + b). lia. }
      intros e' [->|He']%elem_of_cons; [lia|auto]. }
  apply expression_charge_bounds in Hk. split.
  { change (instructions (program_body p) + total (program_functions p).*2 < 1 + (k + m)). lia. }
  intros e [->|He]%elem_of_cons; [lia|auto].
Qed.
End bounds.

(** ** Compilation *)

Section compilation.
Context {J : Type} `{JsonNumber J}.
Context (check_value : Value -> comp N CompileError unit).
Context (fingerprint : list (Node Value Failure) -> list Import -> N -> N -> option (list N)).
Context (value_charge : Value -> option N).
Implicit Types (p : Program J) (limits : CompileLimits).

(** What compilation produces, and why it refuses. *)
Definition compiled_ok p limits (r : CompiledProgram Value Failure) : Prop :=
  program_version p = SOURCE_VERSION /\
  (exists n, program_charge value_charge limits p = Some n /\ n <= source_bytes limits) /\
  program_within limits p /\ program_closed p /\
  exists target, program_image target p (compiled_imports r) (compiled_nodes r)
                   (compiled_entry r) (compiled_bindings r).

Definition compile_refused p limits (x : CompileError) : Prop :=
  (x = SourceVersion (program_version p) /\ program_version p <> SOURCE_VERSION) \/
  (x = CompileCapacity /\
     forall n, program_charge value_charge limits p = Some n -> source_bytes limits < n) \/
  program_refused limits p x \/
  (x = Encoding /\ exists target ns imps start bindings,
     program_image target p imps ns start bindings /\ fingerprint ns imps start bindings = None).

Lemma wp_compile p limits :
  (forall v, charges (check_value v) (value_charge v)) ->
  NoDup (program_functions p).*1 ->
  wp (compile_with_limits check_value fingerprint p limits)
    (fun r _ => compiled_ok p limits r) (fun x _ => compile_refused p limits x) tt.
Proof.
  intros Hcharges Hnd. unfold compile_with_limits.
  destruct (N.eqb_spec (program_version p) SOURCE_VERSION) as [Hv|Hv]; simpl negb; cbv iota.
  2:{ apply wp_throw. by left. }
  apply wp_bind. eapply wp_mono; [by apply wp_validate_structure| |].
  2:{ intros x s' Hx. by right; left. }
  intros [] s' [-> Hcharge]. apply wp_run_local, wp_bind.
  eapply wp_mono; [by apply wp_lower_program| |].
  2:{ intros x s Hx. by right; right; left. }
  intros start s ([target Himg] & Hwithin & Hclosed). wp_step wp_gets. simpl.
  wp_step wp_require.
  - intros hash _. apply wp_ret. split; [done|]. split; [done|]. split; [done|]. split; [done|].
    by exists target.
  - intros Hnone. right; right; right. split; [done|]. by exists target; do 4 eexists.
Qed.
End compilation.

Section theorems.
Context {J : Type} `{JsonNumber J}.
Context (check_value : Value -> comp N CompileError unit).
Context (fingerprint : list (Node Value Failure) -> list Import -> N -> N -> option (list N)).
Context (value_charge : Value -> option N).

(** C29: A compiled program is the source: the image passes admission; from the entry on, the
    instructions are the code of the body, and every function's code starts at the address its
    calls go to, with binders as slots by their nesting, uses as loads of the nearest binder's
    slot, steps chained to the next and every import, constant and bound in place. *)
Theorem compiled_image_represents_source (p : Program J) (limits : CompileLimits)
    (r : CompiledProgram Value Failure) :
  (forall v, charges (check_value v) (value_charge v)) ->
  NoDup (program_functions p).*1 ->
  compile_with_limits check_value fingerprint p limits tt = Val r tt ->
  validate (compiled_image r) = Ok tt /\
  exists target : text -> N,
    (exists lo hi b, code target (compiled_imports r) (compiled_nodes r) ∅ 0 (program_body p)
       lo hi (compiled_entry r) b None) /\
    (forall name e, (name, e) ∈ program_functions p ->
       exists lo hi b, code target (compiled_imports r) (compiled_nodes r) ∅ 0 e
         lo hi (target name) b None).
Proof.
  intros Hcharges Hnd Hr.
  destruct (wp_val _ _ _ _ _ _ (wp_compile check_value fingerprint value_charge p limits Hcharges Hnd) Hr)
    as (_ & _ & _ & _ & target & Himg).
  split; [by apply (img_valid _ _ _ _ _ _ Himg)|].
  exists target. split; [by apply img_body in Himg|by apply (img_functions _ _ _ _ _ _ Himg)].
Qed.

(** C32: Compilation accepts exactly the sources of the supported version whose charge is
    within the source budget, whose instructions are within the limit and the width of an
    address, whose names are bound, whose constants are valid and whose calls have targets,
    unless the image that represents the source has no fingerprint. Otherwise its error names a defect that the
    source has: another version, a charge over the budget or a limit exceeded ([Capacity]),
    a name that is free in it, a constant it has that is not valid, or a function it calls and
    does not define. It never stops. The functions of a source are a map by name; the
    charge of a resident constant, refused with [Capacity] only, is an argument. *)
Theorem compile_accepts_exactly (p : Program J) (limits : CompileLimits) :
  (forall v, charges (check_value v) (value_charge v)) ->
  NoDup (program_functions p).*1 ->
  let accepted :=
    program_version p = SOURCE_VERSION /\
    (exists n, program_charge value_charge limits p = Some n /\ n <= source_bytes limits) /\
    total (bodies p) <= limit_instructions limits /\ total (bodies p) <= u32_max + 1 /\
    program_closed p in
  let unencodable := exists target ns imps start bindings,
    program_image target p imps ns start bindings /\ fingerprint ns imps start bindings = None in
  match compile_with_limits check_value fingerprint p limits tt with
  | Val _ _ => accepted
  | Throw x _ =>
      (accepted -> x = Encoding /\ unencodable) /\
      ((x = SourceVersion (program_version p) /\ program_version p <> SOURCE_VERSION) \/
       (x = CompileCapacity /\
          forall n, program_charge value_charge limits p = Some n -> source_bytes limits < n) \/
       (x = CompileCapacity /\ ~ program_within limits p) \/
       (exists name e, x = Variable_ name /\ e ∈ bodies p /\ free_in name e) \/
       (exists e, x = Encoding /\ e ∈ bodies p /\ bad_literal e) \/
       (exists f e, x = Function_ f /\ e ∈ bodies p /\ calls_in e f /\
          f ∉ (program_functions p).*1) \/
       (x = Encoding /\ unencodable))
  | Stop _ => False
  end.
Proof.
  intros Hcharges Hnd accepted unencodable.
  pose proof (wp_compile check_value fingerprint value_charge p limits Hcharges Hnd) as Hwp.
  unfold wp in Hwp. destruct (compile_with_limits _ _ _ _ _) as [r s|x s|why]; [| |done].
  - destruct Hwp as (Hv & Hc & (_ & Hl & Hm) & Hclosed & _). by split_and!.
  - split.
    + intros (Hv & (n & Hn & Hle) & Hl & Hm & [Hnames Hlit Hcalls]).
      destruct Hwp as [[_ ?]|[[_ Hlt]|[Hx|?]]]; [done| | |done].
      * specialize (Hlt n Hn). lia.
      * destruct x as [|v|name|f| |]; simpl in Hx; try done.
        -- destruct Hx as (e & He & Hf). by destruct (Hnames e name He).
        -- destruct Hx as [(e & He & Hf) []]. by apply (Hcalls e f He).
        -- destruct Hx. split; [|done]. by destruct (program_charge_bounds _ _ _ _ Hn) as [_ Hd].
        -- destruct Hx as (e & He & Hb). by destruct (Hlit e He).
    + destruct Hwp as [?|[?|[Hx|?]]]; [by auto 10..| |by auto 10].
      destruct x; simpl in Hx; naive_solver.
Qed.

(** C11: Limits bound what compilation makes: a compiled program has exactly as many
    instructions as its source has expressions other than sequences with steps, no more than
    the instruction limit and fewer than the source budget, and needs exactly as many bindings
    as are live at once. Its entry, and every instruction, import and binding slot that its
    instructions name, exist and fit 32 bits. *)
Theorem compiled_program_bounds (p : Program J) (limits : CompileLimits)
    (r : CompiledProgram Value Failure) :
  (forall v, charges (check_value v) (value_charge v)) ->
  NoDup (program_functions p).*1 ->
  compile_with_limits check_value fingerprint p limits tt = Val r tt ->
  len (compiled_nodes r) = total (bodies p) /\
  len (compiled_nodes r) <= limit_instructions limits /\
  len (compiled_nodes r) < source_bytes limits /\
  compiled_bindings r = most (bodies p) /\ compiled_bindings r <= u32_max /\
  len (compiled_imports r) <= len (compiled_nodes r) /\
  compiled_entry r < len (compiled_nodes r) /\ compiled_entry r <= u32_max /\
  forall i n, get (compiled_nodes r) i = Some n ->
    node_position n = i /\
    Forall (fun a => match a with
                     | ANode j => j < len (compiled_nodes r) /\ j <= u32_max
                     | AImport j => j < len (compiled_imports r) /\ j <= u32_max
                     | ABinding j => j < compiled_bindings r /\ j <= u32_max
                     end) (addresses n).
Proof.
  intros Hcharges Hnd Hr.
  destruct (wp_val _ _ _ _ _ _ (wp_compile check_value fingerprint value_charge p limits Hcharges Hnd) Hr)
    as (_ & (n & Hn & Hle) & (_ & Hl & Hm) & _ & target & Himg).
  destruct (program_charge_bounds _ _ _ _ Hn) as [Hlt _].
  pose proof (img_size _ _ _ _ _ _ Himg) as Hsize. pose proof (img_imports _ _ _ _ _ _ Himg) as Himps.
  pose proof (img_bindings _ _ _ _ _ _ Himg) as Hb.
  pose proof (most_total (program_body p) (program_functions p).*2) as Hmost. fold (bodies p) in Hmost.
  pose proof (img_valid _ _ _ _ _ _ Himg []) as Hvalid. apply validate_image_ok in Hvalid.
  pose proof Hvalid as (_ & Hentry & _). simpl in Hentry.
  split_and!; try lia.
  intros i k Hk. split; [by apply (img_positions _ _ _ _ _ _ Himg)|].
  eapply Forall_impl; [by eapply image_ok_resolves|]. intros [j|j|j] Hj; simpl in *; lia.
Qed.
End theorems.

(** ** A program *)

Definition i64_number : JsonNumber Z := {|
  as_i64 z := if ((- 2 ^ 63 <=? z) && (z <? 2 ^ 63))%Z then Some z else None;
  is_f64 _ := false;
  as_f64 _ := None
|}.

(** let x = 41 in if x < 50 then f(x) else fail, with a loop f and an unused function g. *)
Definition sample_program : Program Z := mkProgram 1
  (ELet (t "x") (ELiteral (JNumber 41%Z))
     (EIf (ESequence [EUse (t "x"); ETransform (LessThan 50%Z)])
        (ESequence [EUse (t "x"); ECall (t "f")])
        (EFail (t "large"))))
  [(t "f", EWhile (ETransform (LessThan 50%Z))
             (ELet (t "y") EInput (ESequence [EUse (t "y"); ETransform (Add 1%Z)])) 10);
   (t "g", EParallel (ECall (t "f")) (ESequence []))].

Definition sample_check (v : Value) : comp N CompileError unit := spend 1.
Definition sample_fingerprint (ns : list (Node Value Failure)) (imps : list Import)
    (start bindings : N) : option (list N) := Some [start; bindings].

Definition sample_compiled : CompiledProgram Value Failure :=
  match @compile_with_limits Z i64_number sample_check sample_fingerprint sample_program
          default_compile_limits tt with
  | Val r _ => r
  | _ => mkCompiled [] [] 0 0 []
  end.

Lemma sample_charges : forall v, charges (sample_check v) (Some 1).
Proof. intros v. apply charges_spend. Qed.

Lemma sample_names : NoDup (program_functions sample_program).*1.
Proof. apply (bool_decide_unpack _). vm_compute. exact I. Qed.

Lemma sample_compiles :
  @compile_with_limits Z i64_number sample_check sample_fingerprint sample_program
    default_compile_limits tt = Val sample_compiled tt.
Proof. vm_compute. reflexivity. Qed.

Lemma compiled_image_represents_source_witness :
  validate (compiled_image sample_compiled) = Ok tt /\ len (compiled_nodes sample_compiled) = 17.
Proof.
  split; [|vm_compute; reflexivity].
  apply (@compiled_image_represents_source Z i64_number sample_check sample_fingerprint
           (fun _ => Some 1) sample_program default_compile_limits sample_compiled
           sample_charges sample_names sample_compiles).
Defined.

Lemma compile_accepts_exactly_witness :
  total (bodies sample_program) <= 65536 /\ @program_closed Z i64_number sample_program.
Proof.
  pose proof (@compile_accepts_exactly Z i64_number sample_check sample_fingerprint
    (fun _ => Some 1) sample_program default_compile_limits sample_charges sample_names) as Hc.
  cbv zeta in Hc. rewrite sample_compiles in Hc.
  destruct Hc as (_ & _ & Hl & _ & Hclosed). split; [exact Hl|exact Hclosed].
Defined.

Lemma compiled_program_bounds_witness :
  compiled_bindings sample_compiled = 1 /\ len (compiled_nodes sample_compiled) < 1048576.
Proof.
  destruct (@compiled_program_bounds Z i64_number sample_check sample_fingerprint
    (fun _ => Some 1) sample_program default_compile_limits sample_compiled
    sample_charges sample_names sample_compiles) as (_ & _ & Hlt & Hb & _).
  split; [rewrite Hb; vm_compute; reflexivity|exact Hlt].
Defined.
