(* ===== verification/Solo.v ===== *)
(** * Executions of one task

    What the machine does while only its root task is in use, up to what the host's values
    carry beside their payload (provenance). [conf] is a payload-level configuration, [advance_conf]
    its next one; the section [simulation] shows that one turn of the machine of Machine.v takes
    one such step. *)

From stdpp Require Import base numbers list option.
From S2P Require Import Prelude Program Frame Machine MachineInv.

Local Open Scope N_scope.
Local Open Scope comp_scope.

(** ** Erasure *)

Definition erase_result {V E D F} (value : V -> D) (failure : E -> F) (r : Result V E) : Result D F :=
  match r with
  | Ok v => Ok (value v)
  | Err e => Err (failure e)
  end.

Definition erase_frame {V E D F} (value : V -> D) (failure : E -> F) (k : FrameKind V E)
    : FrameKind D F :=
  match k with
  | FVacant => FVacant
  | FFinish node => FFinish node
  | FThen next => FThen next
  | FCatch recover => FCatch recover
  | FFinally cleanup input => FFinally cleanup (value input)
  | FCleaned outcome => FCleaned (erase_result value failure outcome)
  | FCondition condition body left_ v => FCondition condition body left_ (value v)
  | FIteration condition body left_ => FIteration condition body left_
  | FContext context => FContext context
  | FChoose yes no input => FChoose yes no (value input)
  | FBind slot body => FBind slot body
  | FUnbind slot previous => FUnbind slot (option_map value previous)
  | FContinuation node entry => FContinuation node entry
  end.

(** Values of a host whose operations act on payloads of type [D] and failures of type [F]:
    decisions and diagnostics depend on the payload alone, and influence leaves it alone. *)
Class Payload (H V E D F : Type) `{!Values H V E} : Type := {
  value_of : V -> D;
  failure_of : E -> F;
  decides : D -> Result bool F;
  fault_failure : Fault -> F;
  diagnostic : F -> D;
  truth_payload : forall v h,
    erase_result id failure_of (fst (truth v h)) = decides (value_of v);
  error_payload : forall f h, failure_of (fst (error f h)) = fault_failure f;
  error_value_payload : forall e h, value_of (fst (error_value e h)) = diagnostic (failure_of e);
  influence_payload : forall v c h, value_of (fst (influence v c h)) = value_of v;
  influence_result_payload : forall r c h,
    erase_result value_of failure_of (fst (influence_result r c h)) =
    erase_result value_of failure_of r
}.

(** ** Configurations *)

Section conf.
Context {D F : Type}.

Inductive mode : Type :=
| MReady (pc : N) (input : D)
| MReturning (outcome : Result D F).

Record conf : Type := mkConf {
  cf_mode : mode;
  cf_stack : list (FrameKind D F);
  cf_context : N;
  cf_cleaning : N;
  cf_row : list (option D)
}.

(** Where control goes with a result. *)
Definition after (next : option N) (r : Result D F) : mode :=
  match r, next with
  | Ok value, Some next => MReady next value
  | _, _ => MReturning r
  end.

Definition with_mode (c : conf) (m : mode) : conf :=
  mkConf m (cf_stack c) (cf_context c) (cf_cleaning c) (cf_row c).

(** The outcome of a cleanup: the original failure first. *)
Definition cleaned_result (original outcome : Result D F) : Result D F :=
  match original, outcome with
  | Err e, _ => Err e
  | Ok _, Err e => Err e
  | Ok value, Ok _ => Ok value
  end.

Section steps.
Context (decides : D -> Result bool F) (fault_failure : Fault -> F) (diagnostic : F -> D).
Context (image : ProgramImage D F) (width room : N).

(** Entering an instruction under new continuations, the innermost first. *)
Definition enter_conf (c : conf) (frames : list (FrameKind D F)) (pc : N) (input : D)
    : option conf :=
  if len frames + len (cf_stack c) <=? room
  then Some (mkConf (MReady pc input) (frames ++ cf_stack c) (cf_context c) (cf_cleaning c) (cf_row c))
  else None.

Definition return_conf (c : conf) (r : Result D F) : conf := with_mode c (MReturning r).

Definition finish_conf (c : conf) (node : N) (r : Result D F) : option conf :=
  match get (nodes image) node with
  | Some n => Some (with_mode c (after (node_next n) r))
  | None => None
  end.

(** An instruction other than a request, a scope or a fork. *)
Definition execute_conf (c : conf) (pc : N) (n : Node D F) (input : D) : option conf :=
  match node_kind n with
  | NLiteral value => Some (with_mode c (after (node_next n) (Ok value)))
  | NInput => Some (with_mode c (after (node_next n) (Ok input)))
  | NLoad slot =>
      if width <=? slot then None
      else
        match get (cf_row c) slot with
        | Some (Some value) => Some (with_mode c (after (node_next n) (Ok value)))
        | _ => None
        end
  | NFail e => Some (with_mode c (after (node_next n) (Err e)))
  | NRequest _ | NScope _ _ | NFork _ _ _ => None
  | NThen first then_ => enter_conf c [FThen then_; FFinish pc] first input
  | NCatch body recover => enter_conf c [FCatch recover; FFinish pc] body input
  | NFinally body cleanup => enter_conf c [FFinally cleanup input; FFinish pc] body input
  | NIf yes no =>
      match decides input with
      | Ok test => enter_conf c [FFinish pc] (if test then yes else no) input
      | Err e => Some (with_mode c (after (node_next n) (Err e)))
      end
  | NCall entry => enter_conf c [FFinish pc] entry input
  | NBranch condition yes no => enter_conf c [FChoose yes no input; FFinish pc] condition input
  | NLet slot value body => enter_conf c [FBind slot body; FFinish pc] value input
  | NWhile condition body max =>
      enter_conf c [FCondition condition body max input; FFinish pc] condition input
  end.

Definition with_row (c : conf) (slot : N) (v : option D) : conf :=
  mkConf (cf_mode c) (cf_stack c) (cf_context c) (cf_cleaning c) (upd (cf_row c) slot v).
Definition with_scope (c : conf) (context : N) : conf :=
  mkConf (cf_mode c) (cf_stack c) context (cf_cleaning c) (cf_row c).
Definition with_depth (c : conf) (cleaning : N) : conf :=
  mkConf (cf_mode c) (cf_stack c) (cf_context c) cleaning (cf_row c).

(** A result meets the innermost continuation, which is no longer on the stack. *)
Definition resume_conf (c : conf) (k : FrameKind D F) (r : Result D F) : option conf :=
  match k, r with
  | FVacant, _ => None
  | FFinish node, _ | FContinuation node _, _ => finish_conf c node r
  | FThen next, Ok value => enter_conf c [] next value
  | FCatch recover, Err e => enter_conf c [] recover (diagnostic e)
  | FFinally cleanup input, _ =>
      if cf_cleaning c + 1 <=? usize_max
      then enter_conf (with_depth c (cf_cleaning c + 1)) [FCleaned r] cleanup input
      else None
  | FCleaned original, _ =>
      Some (return_conf (with_depth c (cf_cleaning c - 1)) (cleaned_result original r))
  | FContext context, _ => Some (return_conf (with_scope c context) r)
  | FChoose yes no input, Ok test =>
      match decides test with
      | Ok decided => enter_conf c [] (if decided then yes else no) input
      | Err e => Some (return_conf c (Err e))
      end
  | FBind slot body, Ok value =>
      if width <=? slot then None
      else
        match get (cf_row c) slot with
        | Some previous =>
            enter_conf (with_row c slot (Some value)) [FUnbind slot previous] body value
        | None => None
        end
  | FUnbind slot previous, _ =>
      if width <=? slot then None else Some (return_conf (with_row c slot previous) r)
  | FCondition condition body left_ value, Ok test =>
      match decides test with
      | Ok false => Some (return_conf c (Ok value))
      | Ok true =>
          if 0 <? left_ then enter_conf c [FIteration condition body (left_ - 1)] body value
          else Some (return_conf c (Err (fault_failure Iterations)))
      | Err e => Some (return_conf c (Err e))
      end
  | FIteration condition body left_, Ok value =>
      enter_conf c [FCondition condition body left_ value] condition value
  | _, _ => Some (return_conf c r)
  end.

Definition pop_conf (c : conf) : conf :=
  mkConf (cf_mode c) (tail (cf_stack c)) (cf_context c) (cf_cleaning c) (cf_row c).

(** The next configuration; [None] where the task asks the host, forks, is done or has no room
    for its continuations. *)
Definition advance_conf (c : conf) : option conf :=
  match cf_mode c with
  | MReady pc input =>
      match get (nodes image) pc with
      | Some n => execute_conf c pc n input
      | None => None
      end
  | MReturning r =>
      match cf_stack c with
      | k :: _ => resume_conf (pop_conf c) k r
      | [] => None
      end
  end.
End steps.
End conf.
Arguments mode : clear implicits.
Arguments conf : clear implicits.
#[global] Arguments after : simpl never.
#[global] Arguments enter_conf : simpl never.

(** ** Executions in which only the root task is used *)

(** The fields of the root task that the steps of one task move. *)
Record shape (V E : Type) : Type := mkShape {
  sh_state : State V E;
  sh_pc : N;
  sh_input : option V;
  sh_context : N;
  sh_cleaning : N
}.
Arguments mkShape {V E} _ _ _ _ _.
Arguments sh_state {V E} _.
Arguments sh_pc {V E} _.
Arguments sh_input {V E} _.
Arguments sh_context {V E} _.
Arguments sh_cleaning {V E} _.

(** What a run never changes: limits, the size of the arena and the image. *)
Record setting : Type := mkSetting {
  set_limits : ExecutionLimits;
  set_slots : N;
  set_image : list N
}.

(** Continuations one task can hold, and bindings it has. *)
Definition set_room (g : setting) : N := N.min (frames_per_task (set_limits g)) (set_slots g).
Definition set_width (g : setting) : N := bindings_per_task (set_limits g).

Section solo.
Context {H V E : Type} `{!Values H V E}.
Implicit Types (x : Execution V E) (h : H) (sh : shape V E) (g : setting).
Implicit Types (l : list (FrameKind V E)) (bs : list (option V)).

Definition task_of sh (st : Stack) : Task V E :=
  mkTask (sh_state sh) (sh_pc sh) (sh_input sh) st (sh_context sh) None (sh_cleaning sh) false.

(** The root task is [sh] with the continuations [l], the others are free, nothing aborts. *)
Record solo g (tk : N) bs x sh l : Prop := {
  solo_tasks : exists st rest, tasks x = task_of sh st :: rest /\
    Forall (fun t => task_state t = SFree) rest;
  solo_pool : exists kr, pool_stacks (frames x) (task_stack <$> tasks x) (l :: kr) /\ concat kr = [];
  solo_setting : g = mkSetting (limits x) (len (slots (frames x))) (exec_image_id x);
  solo_ticket : ticket x = tk;
  solo_bindings : bindings x = bs;
  solo_rows : rows_ok x;
  solo_width : len (tasks x) <= u32_max;
  solo_cursor : cursor x < len (tasks x);
  solo_live : aborting x = false /\ max_steps (limits x) = None
}.

Lemma solo_root g tk bs x sh l : solo g tk bs x sh l ->
  exists st, get (tasks x) 0 = Some (task_of sh st).
Proof. intros [(st & rest & -> & _) ? ? ? ? ? ? ? ?]. by exists st. Qed.

Lemma solo_positive g tk bs x sh l : solo g tk bs x sh l -> 0 < len (tasks x).
Proof. intros [(st & rest & -> & _) ? ? ? ? ? ? ? ?]. unfold len. simpl. lia. Qed.

Lemma wp_solo_task {X} g tk bs x sh l (Q : Task V E -> machine -> Prop) (R : X -> machine -> Prop) h :
  solo g tk bs x sh l -> (forall st, Q (task_of sh st) (x, h)) -> wp (task_at 0) Q R (x, h).
Proof. intros [st Hst]%solo_root HQ. by eapply wp_task_at. Qed.

(** A change of the root task's own fields. *)
Lemma wp_solo_update {X} g tk bs x sh l sh' f (Q : unit -> machine -> Prop)
    (R : X -> machine -> Prop) h :
  solo g tk bs x sh l -> (forall st, f (task_of sh st) = task_of sh' st) ->
  (forall x', solo g tk bs x' sh' l -> Q tt (x', h)) ->
  wp (update_task 0 f) Q R (x, h).
Proof.
  intros Hs Hf HQ. destruct (solo_root _ _ _ _ _ _ Hs) as [st0 Hst0].
  eapply wp_update_task; [done|]. apply HQ.
  destruct Hs as [(st & rest & Ht & Hfree) [kr [Hpool Hkr]] ? ? ? Hrows ? ? ?].
  rewrite Ht in *. rewrite Hf. simpl in Hst0. injection Hst0 as <-.
  split; simpl; rewrite ?Ht; try done; unfold rows_ok in *; simpl; rewrite ?Ht in *; try done.
  - by exists st, rest.
  - by exists kr.
Qed.

Definition shape_state sh s : shape V E :=
  mkShape s (sh_pc sh) (sh_input sh) (sh_context sh) (sh_cleaning sh).
Definition shape_input sh i : shape V E :=
  mkShape (sh_state sh) (sh_pc sh) i (sh_context sh) (sh_cleaning sh).
Definition shape_context sh c : shape V E :=
  mkShape (sh_state sh) (sh_pc sh) (sh_input sh) c (sh_cleaning sh).
Definition shape_cleaning sh c : shape V E :=
  mkShape (sh_state sh) (sh_pc sh) (sh_input sh) (sh_context sh) c.
Definition shape_start sh pc v : shape V E :=
  mkShape SReady pc (Some v) (sh_context sh) (sh_cleaning sh).

(** A moved stack. *)
Lemma solo_total l kr : concat kr = [] -> total_frames (l :: kr) = len l.
Proof. intros Hkr. unfold total_frames. simpl. by rewrite Hkr, app_nil_r. Qed.

Lemma solo_install g tk bs x sh l st rest kr pool' st' l' :
  solo g tk bs x sh l -> tasks x = task_of sh st :: rest -> concat kr = [] ->
  pool_stacks pool' (<[0%nat := st']> (task_stack <$> tasks x)) (<[0%nat := l']> (l :: kr)) ->
  len (slots pool') = len (slots (frames x)) ->
  solo g tk bs (with_frames (with_tasks x (upd (tasks x) 0 (with_stack (task_of sh st) st'))) pool')
    sh l'.
Proof.
  intros Hsolo Ht Hkr Hp Hlen.
  destruct Hsolo as [(st0 & rest0 & Ht0 & Hfree) _ Hset ? ? Hrows ? ? ?].
  rewrite Ht in *. injection Ht0 as Hst <-. simpl in Hp. unfold rows_ok in *.
  split; simpl; rewrite ?Ht in *; try done.
  - by exists st', rest.
  - by exists kr.
  - by rewrite Hlen.
Qed.

Section rules.
Context {g : setting} {tk : N} {bs : list (option V)} {x : Execution V E} {sh : shape V E}.
Context {l : list (FrameKind V E)} {h : H}.
Hypothesis Hsolo : solo g tk bs x sh l.

Lemma wp_solo_state {X} s (Q : unit -> machine -> Prop) (R : X -> machine -> Prop) :
  (forall x', solo g tk bs x' (shape_state sh s) l -> Q tt (x', h)) ->
  wp (set_state 0 s) Q R (x, h).
Proof. by eapply wp_solo_update. Qed.

Lemma wp_solo_input {X} v (Q : unit -> machine -> Prop) (R : X -> machine -> Prop) :
  (forall x', solo g tk bs x' (shape_input sh v) l -> Q tt (x', h)) ->
  wp (set_input 0 v) Q R (x, h).
Proof. by eapply wp_solo_update. Qed.

Lemma wp_solo_start {X} pc v (Q : unit -> machine -> Prop) (R : X -> machine -> Prop) :
  (forall x', solo g tk bs x' (shape_start sh pc v) l -> Q tt (x', h)) ->
  wp (start 0 pc v) Q R (x, h).
Proof. by eapply wp_solo_update. Qed.

Lemma wp_solo_context {X} ctx (Q : unit -> machine -> Prop) (R : X -> machine -> Prop) :
  (forall x', solo g tk bs x' (shape_context sh ctx) l -> Q tt (x', h)) ->
  wp (update_task 0 (fun t => with_context t ctx)) Q R (x, h).
Proof. by eapply wp_solo_update. Qed.

Lemma wp_solo_cleaning {X} (f : N -> N) (Q : unit -> machine -> Prop) (R : X -> machine -> Prop) :
  (forall x', solo g tk bs x' (shape_cleaning sh (f (sh_cleaning sh))) l -> Q tt (x', h)) ->
  wp (update_task 0 (fun t => with_cleaning t (f (task_cleaning t)))) Q R (x, h).
Proof. by eapply wp_solo_update. Qed.

(** *** Continuations *)

Lemma wp_solo_push k (Q : unit -> machine -> Prop) (R : Fault -> machine -> Prop) :
  k <> FVacant -> len l < set_room g ->
  (forall x', solo g tk bs x' sh (k :: l) -> Q tt (x', h)) ->
  wp (push 0 k) Q R (x, h).
Proof.
  intros Hk Hroom HQ.
  pose proof (solo_tasks _ _ _ _ _ _ Hsolo) as (st & rest & Ht & _).
  pose proof (solo_pool _ _ _ _ _ _ Hsolo) as (kr & Hpool & Hkr).
  pose proof (solo_setting _ _ _ _ _ _ Hsolo) as Hg. rewrite Hg in Hroom.
  unfold set_room in Hroom. simpl in Hroom.
  unfold push. apply wp_bind, wp_exec. unfold wp. rewrite (on_stack_eval 0 (task_of sh st)).
  2:{ by rewrite Ht. }
  pose proof (push_spec _ _ _ 0 st l k (frames_per_task (limits x)) Hpool) as Hp.
  rewrite Ht in Hp. specialize (Hp eq_refl eq_refl Hk). rewrite decide_True in Hp.
  2:{ rewrite solo_total by done. lia. }
  destruct Hp as (pool' & st' & Hpush & Hst & Hlen). simpl. rewrite Hpush.
  apply HQ. eapply (solo_install _ _ _ _ _ _ st rest kr); rewrite ?Ht; eauto.
Qed.

Lemma wp_solo_pop (Q : option (FrameKind V E) -> machine -> Prop) (R : Fault -> machine -> Prop) :
  match l with
  | [] => Q None (x, h)
  | k :: l' => forall x', solo g tk bs x' sh l' -> Q (Some k) (x', h)
  end ->
  wp (pop 0) Q R (x, h).
Proof.
  intros HQ. pose proof (solo_tasks _ _ _ _ _ _ Hsolo) as (st & rest & Ht & _).
  pose proof (solo_pool _ _ _ _ _ _ Hsolo) as (kr & Hpool & Hkr).
  assert (get (tasks x) 0 = Some (task_of sh st)) as Hroot by (by rewrite Ht).
  unfold pop, wp. rewrite (on_stack_eval 0 (task_of sh st)) by done.
  pose proof (pop_spec _ _ _ 0 st l Hpool) as Hp. rewrite Ht in Hp.
  specialize (Hp eq_refl eq_refl). destruct l as [|k l'] eqn:Hl.
  - simpl. rewrite Hp. change st with (task_stack (task_of sh st)) at 2.
    by rewrite install_id.
  - destruct Hp as (pool' & st' & Hpop & Hst & Hlen). simpl. rewrite Hpop. apply HQ.
    eapply (solo_install _ _ _ _ _ _ st rest kr); rewrite ?Ht; eauto.
Qed.

Lemma wp_solo_check count (Q : unit -> machine -> Prop) (R : Fault -> machine -> Prop) :
  count <= u32_max -> len l + count <= set_room g -> Q tt (x, h) ->
  wp (on_stack 0 (Frame.check count (frames_per_task (limits x)))) Q R (x, h).
Proof.
  intros Hc Hroom HQ. pose proof (solo_tasks _ _ _ _ _ _ Hsolo) as (st & rest & Ht & _).
  pose proof (solo_pool _ _ _ _ _ _ Hsolo) as (kr & Hpool & Hkr).
  pose proof (solo_setting _ _ _ _ _ _ Hsolo) as Hg. rewrite Hg in Hroom.
  unfold set_room in Hroom. simpl in Hroom.
  assert (get (tasks x) 0 = Some (task_of sh st)) as Hroot by (by rewrite Ht).
  unfold wp. rewrite (on_stack_eval 0 (task_of sh st)) by done. simpl.
  rewrite (check_spec _ _ _ 0 st l _ _ Hpool) by (by rewrite ?Ht).
  rewrite decide_True by (rewrite solo_total by done; lia).
  change st with (task_stack (task_of sh st)) at 2. by rewrite install_id.
Qed.

(** *** Bindings *)

Lemma wp_solo_read {X} slot v (Q : option V -> machine -> Prop) (R : X -> machine -> Prop) :
  slot < set_width g -> get bs slot = Some v -> Q v (x, h) -> wp (read_binding 0 slot) Q R (x, h).
Proof.
  intros Hslot Hv HQ. pose proof (solo_positive _ _ _ _ _ _ Hsolo). destruct Hsolo. subst.
  apply wp_read_binding; [done..|]. intros v'. rewrite N.mul_0_l, N.add_0_l. congruence.
Qed.

Lemma wp_solo_write {X} slot v (Q : unit -> machine -> Prop) (R : X -> machine -> Prop) :
  slot < set_width g ->
  (forall x', solo g tk (upd bs slot v) x' sh l -> Q tt (x', h)) ->
  wp (write_binding 0 slot v) Q R (x, h).
Proof.
  intros Hslot HQ. pose proof (solo_positive _ _ _ _ _ _ Hsolo).
  apply wp_write_binding; [by destruct Hsolo|done| |].
  { by rewrite (solo_setting _ _ _ _ _ _ Hsolo) in Hslot. }
  apply HQ. destruct Hsolo as [? ? ? ? Hbs [] ? ? ?].
  unfold set_binding. rewrite N.mul_0_l, N.add_0_l, Hbs.
  split; try done. unfold rows_ok. simpl. rewrite len_upd, <- Hbs. done.
Qed.
End rules.
End solo.
