(* ===== verification/Taint.v ===== *)
(** * Provenance

    crates/xolotl-types/src/taint.rs with taint/value.rs and taint/failure.rs, and the values
    with provenance that the kernel runs the machine on (crates/xolotl-kernel/src/values.rs). *)

From Stdlib Require Import ZArith.
From stdpp Require Import base numbers list option strings sets.
From S2P Require Import Prelude Program Text Path Collection ValueList ValueMap Value Source Solo.

Local Open Scope N_scope.

(** ** Sources and sets *)

Inductive TaintSource : Type :=
| AuthorConstant
| ModelOutput
| Inbound (source channel : text)
| Fetched (host : text)
| Protected (path : Path).

#[export] Instance TaintSource_eq_dec : EqDecision TaintSource.
Proof. solve_decision. Defined.

Definition is_protected (self : TaintSource) : bool :=
  match self with Protected _ => true | _ => false end.
Definition is_untrusted_content (self : TaintSource) : bool :=
  match self with ModelOutput | Inbound _ _ | Fetched _ => true | _ => false end.

(** [TaintSet]; shared storage is told apart only by pointer comparisons that skip work. *)
Record TaintSet : Type := mkTaintSet { taint_sources : option (list TaintSource) }.

(** [TaintSet::sources]. *)
Definition sources (self : TaintSet) : list TaintSource := default [] (taint_sources self).

(** [TaintSet::pristine], [TaintSet::of] and [TaintSet::author]. *)
Definition taint_pristine : TaintSet := mkTaintSet None.
Definition taint_of (source : TaintSource) : TaintSet := mkTaintSet (Some [source]).
Definition taint_author : TaintSet := taint_of AuthorConstant.

Definition from_recorded_sources (l : list TaintSource) : TaintSet :=
  mkTaintSet (if len l =? 0 then None else Some l).

(** [TaintSet::add]. *)
Definition taint_add (self : TaintSet) (source : TaintSource) : TaintSet :=
  if bool_decide (source ∈ sources self) then self
  else mkTaintSet (Some (sources self ++ [source])).

(** [TaintSet::union]. *)
Definition taint_union (self other : TaintSet) : TaintSet := foldl taint_add self (sources other).

Definition taint_contains_all (self required : TaintSet) : bool :=
  forallb (fun source => bool_decide (source ∈ sources self)) (sources required).

Definition has_protected (self : TaintSet) : bool := existsb is_protected (sources self).
Definition has_untrusted_content (self : TaintSet) : bool :=
  existsb is_untrusted_content (sources self).
Definition is_pristine (self : TaintSet) : bool := bool_decide (taint_sources self = None).

(** *** Sets of sources *)

Lemma sources_add a s s' : s' ∈ sources (taint_add a s) <-> s' ∈ sources a \/ s' = s.
Proof.
  unfold taint_add. case_bool_decide as Hs; [naive_solver|].
  unfold sources at 1. simpl. set_solver.
Qed.

Lemma sources_union a b s : s ∈ sources (taint_union a b) <-> s ∈ sources a \/ s ∈ sources b.
Proof.
  unfold taint_union. generalize (sources b) as l. intros l. revert a.
  induction l as [|s' l IH]; intros a; simpl; [set_solver|]. rewrite IH, sources_add. set_solver.
Qed.

Lemma contains_all_subset a b : taint_contains_all a b = true <-> sources b ⊆ sources a.
Proof.
  unfold taint_contains_all. rewrite forallb_forall. split; intros Hall s Hs.
  - apply list_elem_of_In, Hall, bool_decide_eq_true in Hs. done.
  - apply bool_decide_eq_true, Hall. by apply list_elem_of_In.
Qed.

(** A union adds nothing that is there: the comparison of pointers only skips work. *)
Lemma taint_union_covered a b : sources b ⊆ sources a -> taint_union a b = a.
Proof.
  unfold taint_union. generalize (sources b) as l. intros l. induction l as [|s l IH]; intros Hl; [done|].
  simpl. unfold taint_add at 2. rewrite bool_decide_true by set_solver. apply IH. set_solver.
Qed.

(** ** Values and failures with provenance *)

Record TaintedValue : Type := mkTainted { tainted_value : Value; value_taint : TaintSet }.
Record TaintedFailure : Type := mkTaintedFailure { tainted_failure : Failure; failure_taint : TaintSet }.

Definition pristine_value (value : Value) : TaintedValue := mkTainted value taint_pristine.
Definition pristine_failure (failure : Failure) : TaintedFailure :=
  mkTaintedFailure failure taint_pristine.

(** The derived [Debug] of a fault. *)
Definition fault_name (fault : Fault) : text :=
  match fault with
  | Version => t "Version"
  | InvalidNode => t "InvalidNode"
  | InvalidImport => t "InvalidImport"
  | InvalidBinding => t "InvalidBinding"
  | MissingBinding => t "MissingBinding"
  | Tasks => t "Tasks"
  | Frames => t "Frames"
  | AnalysisCapacity => t "AnalysisCapacity"
  | Fuel => t "Fuel"
  | Iterations => t "Iterations"
  | TypeFault => t "Type"
  | Cancelled => t "Cancelled"
  | StaleEvent => t "StaleEvent"
  | SequenceExhausted => t "SequenceExhausted"
  | ImageMismatch => t "ImageMismatch"
  | InvalidState => t "InvalidState"
  | Authority => t "Authority"
  end.

Section values.
(** The [Display] text of a failure. *)
Context (display : Failure -> text).

(** [TaintedFailure::into_value]. *)
Definition into_value (self : TaintedFailure) : TaintedValue :=
  mkTainted (VStr (display (tainted_failure self))) (failure_taint self).

Definition runtime_truth (value : TaintedValue) : Result bool TaintedFailure :=
  match as_bool (tainted_value value) with
  | Some b => Ok b
  | None => Err (mkTaintedFailure (InvalidInput (t "condition must produce a boolean"))
                   (value_taint value))
  end.

Definition runtime_pair (left_ right_ : TaintedValue) : Result TaintedValue TaintedFailure :=
  Ok (mkTainted (VList (list_from [tainted_value left_; tainted_value right_]))
        (taint_union (value_taint left_) (value_taint right_))).

Definition runtime_error (fault : Fault) : TaintedFailure :=
  pristine_failure
    match fault with
    | Cancelled => FailureCancelled
    | other => failure_policy (t "executor") (fault_name other)
    end.

Definition runtime_influence (value control : TaintedValue) : TaintedValue :=
  mkTainted (tainted_value value) (taint_union (value_taint value) (value_taint control)).

Definition runtime_influence_result (result : Result TaintedValue TaintedFailure)
    (control : TaintedValue) : Result TaintedValue TaintedFailure :=
  match result with
  | Ok value => Ok (runtime_influence value control)
  | Err e => Err (mkTaintedFailure (tainted_failure e)
                    (taint_union (failure_taint e) (value_taint control)))
  end.

Definition runtime_retain_control (input : TaintedValue) : TaintedValue :=
  mkTainted VNull (value_taint input).

Definition runtime_retain_result (result : Result TaintedValue TaintedFailure) : TaintedValue :=
  match result with
  | Ok value => runtime_retain_control value
  | Err e => mkTainted VNull (failure_taint e)
  end.

(** [impl Values for RuntimeValues], which has no state. *)
#[export] Instance RuntimeValues : Values unit TaintedValue TaintedFailure := {|
  unit_value h := (pristine_value VNull, h);
  truth value h := (runtime_truth value, h);
  pair left_ right_ h := (runtime_pair left_ right_, h);
  error fault h := (runtime_error fault, h);
  error_value e h := (into_value e, h);
  influence value control h := (runtime_influence value control, h);
  influence_result result control h := (runtime_influence_result result control, h);
  retain_result result h := (runtime_retain_result result, h);
  retain_control input h := (runtime_retain_control input, h)
|}.

(** Decisions and diagnostics depend on payloads alone. *)
Definition decides_payload (v : Value) : Result bool Failure :=
  match as_bool v with
  | Some b => Ok b
  | None => Err (InvalidInput (t "condition must produce a boolean"))
  end.

#[export] Instance RuntimePayload : Payload unit TaintedValue TaintedFailure Value Failure.
Proof.
  refine {| value_of := tainted_value; failure_of := tainted_failure; decides := decides_payload;
            fault_failure fault := tainted_failure (runtime_error fault);
            diagnostic f := VStr (display f) |}; simpl.
  - intros v h. unfold runtime_truth, decides_payload. by destruct (as_bool (tainted_value v)).
  - done.
  - done.
  - done.
  - by intros [v|e] c h.
Defined.
End values.
