(* ===== verification/Document.v ===== *)
(** * Documents of values

    What the events of a document stand for: the tree of a value and of its recorded
    provenance, as event.rs lays the records out, and the values that have a document. *)

From Stdlib Require Import ZArith Ascii.
From stdpp Require Import base numbers list option strings.
From S2P Require Import Prelude Text Path Collection ValueList ValueMap Value Taint Event Utf8.

Local Open Scope N_scope.

(** ** Trees *)

Definition text_tree (s : text) : Tree := DataTree KString s.
Definition optional_tree (s : option text) : Tree := from_option text_tree (LeafTree ANull) s.

Definition blob_tree (b : BlobRef) : Tree :=
  NodeTree KBlob [text_tree (blob_hash b); LeafTree (AU64 (blob_size b)); optional_tree (blob_mime b)].

Definition shape_tree (shape : list N) : Tree := NodeTree KShape ((fun n => LeafTree (AU64 n)) <$> shape).

Definition segments_tree (segments : list text) : Tree := NodeTree KPathSegments (text_tree <$> segments).

Definition path_tree (p : Path) : Tree :=
  NodeTree KPath [optional_tree (path_cluster p); text_tree (path_scheme p);
                  segments_tree (path_segments p)].

Definition source_tree (source : TaintSource) : Tree :=
  match source with
  | AuthorConstant => LeafTree AAuthor
  | ModelOutput => LeafTree AModel
  | Inbound source channel => NodeTree KInbound [text_tree source; text_tree channel]
  | Fetched host => NodeTree KFetched [text_tree host]
  | Protected path => NodeTree KProtected [path_tree path]
  end.

Definition entry_trees (tree : Value -> Tree) (entry : text * Value) : list Tree :=
  [DataTree KKey (fst entry); tree (snd entry)].

Fixpoint value_tree (v : Value) : Tree :=
  match v with
  | VNull => LeafTree ANull
  | VBool b => LeafTree (ABool b)
  | VInt n => LeafTree (AI64 n)
  | VFloat bits => LeafTree (AF64Bits bits)
  | VStr s => text_tree s
  | VBytes s => DataTree KBytes s
  | VList l =>
      let fix trees (l : Index Value unit) : list Tree :=
        match l with
        | LeafIndex _ _ _ ms => value_tree <$> ms
        | BranchIndex _ _ _ left_ right_ => trees left_ ++ trees right_
        end in
      NodeTree KList (from_option trees [] l)
  | VMap m =>
      let fix trees (l : Index (text * Value) text) : list Tree :=
        match l with
        | LeafIndex _ _ _ ms => concat (entry_trees value_tree <$> ms)
        | BranchIndex _ _ _ left_ right_ => trees left_ ++ trees right_
        end in
      NodeTree KMap (from_option trees [] m)
  | VBlob b => blob_tree b
  | VTensor x =>
      NodeTree KTensor [blob_tree (tensor_blob x); LeafTree (ADType (tensor_dtype x));
                        shape_tree (tensor_shape x)]
  | VFrame f =>
      NodeTree KFrame [blob_tree (frame_blob f); LeafTree (AI64 (frame_ts_nanos f));
                       LeafTree (AFrameKind (frame_kind_of f))]
  | VStreamEnd Done => LeafTree AStreamDone
  | VStreamEnd (Error message) => NodeTree KStreamError [text_tree message]
  end.

(** The members of a list in order, and the entries of a map in the order of keys. *)
Lemma value_tree_list l : value_tree (VList l) = NodeTree KList (value_tree <$> contents l).
Proof.
  simpl. f_equal. destruct l as [l|]; [|done]. simpl.
  induction l as [n h s ms|n h s left_ IHl right_ IHr]; [done|]. simpl. by rewrite IHl, IHr, fmap_app.
Qed.

Lemma value_tree_map m :
  value_tree (VMap m) = NodeTree KMap (concat (entry_trees value_tree <$> entries m)).
Proof.
  simpl. f_equal. destruct m as [m|]; [|done]. simpl.
  induction m as [n h s ms|n h s left_ IHl right_ IHr]; [done|]. simpl.
  by rewrite IHl, IHr, fmap_app, concat_app.
Qed.

Definition taint_tree (taint : TaintSet) : Tree := NodeTree KTaint (source_tree <$> sources taint).

Definition document_tree (tv : TaintedValue) : Tree :=
  NodeTree KDocument [taint_tree (value_taint tv); value_tree (tainted_value tv)].

(** ** Values that have a document *)

Definition blob_ok (b : BlobRef) : Prop :=
  is_utf8 (blob_hash b) = true /\ from_option is_utf8 true (blob_mime b) = true.

Definition source_ok (source : TaintSource) : Prop :=
  match source with
  | AuthorConstant | ModelOutput => True
  | Inbound source channel => is_utf8 source = true /\ is_utf8 channel = true
  | Fetched host => is_utf8 host = true
  | Protected path => valid_path path
  end.

(** Strings are UTF-8, and collections keep their invariants. *)
Inductive value_ok : Value -> Prop :=
| ok_null : value_ok VNull
| ok_bool b : value_ok (VBool b)
| ok_int n : value_ok (VInt n)
| ok_float bits : value_ok (VFloat bits)
| ok_str s : is_utf8 s = true -> value_ok (VStr s)
| ok_bytes s : value_ok (VBytes s)
| ok_list l : list_ok l -> (forall v, v ∈ contents l -> value_ok v) -> value_ok (VList l)
| ok_map m :
    map_ok m -> (forall k v, (k, v) ∈ entries m -> is_utf8 k = true) ->
    (forall k v, (k, v) ∈ entries m -> value_ok v) ->
    value_ok (VMap m)
| ok_blob b : blob_ok b -> value_ok (VBlob b)
| ok_tensor x : blob_ok (tensor_blob x) -> value_ok (VTensor x)
| ok_frame f : blob_ok (frame_blob f) -> value_ok (VFrame f)
| ok_done : value_ok (VStreamEnd Done)
| ok_error message : is_utf8 message = true -> value_ok (VStreamEnd (Error message)).

Definition tainted_ok (tv : TaintedValue) : Prop :=
  value_ok (tainted_value tv) /\ Forall source_ok (sources (value_taint tv)).
