(* ===== verification/Reading.v ===== *)
(** * Reading documents

    What the machine of Grammar.v accepts: the tokens of a tree, however its data is cut into
    chunks; and the validator accepts what the machine reads. *)

From Stdlib Require Import ZArith Ascii.
From stdpp Require Import base numbers list option strings sorting gmap.
From S2P Require Import Prelude Text Path Collection ValueList ValueMap Value Taint Event Utf8 Validation Workspace Grammar MemoryKeys Document.

Local Open Scope N_scope.

Fixpoint read_all (limit : option N) (reading : Reading) (events : list Event) : option Reading :=
  match events with
  | [] => Some reading
  | event :: events' => reading ← read limit reading event; read_all limit reading events'
  end.

Lemma read_all_app limit reading a b :
  read_all limit reading (a ++ b) = reading ← read_all limit reading a; read_all limit reading b.
Proof.
  revert reading. induction a as [|e a IH]; intros reading; simpl; [done|].
  destruct (read limit reading e); [apply IH|done].
Qed.

(** ** What has been read *)

Definition open_tokens (open : Open) : list Token :=
  match open with
  | OpenNode kind children => TBegin kind :: concat (tree_tokens <$> children)
  | OpenData kind _ bytes => TBegin kind :: (TByte <$> bytes)
  end.

Definition rendered (reading : Reading) : list Token :=
  match reading with
  | Reads opens => concat (open_tokens <$> reverse opens)
  | Read tree => tree_tokens tree
  end.

Lemma rendered_cons open opens :
  rendered (Reads (open :: opens)) = rendered (Reads opens) ++ open_tokens open.
Proof. simpl. rewrite reverse_cons, fmap_app, concat_app. simpl. by rewrite app_nil_r. Qed.

Arguments rendered : simpl never.

Lemma attach_rendered tree opens reading :
  attach tree opens = Some reading -> rendered reading = rendered (Reads opens) ++ tree_tokens tree.
Proof.
  destruct opens as [|[kind children|] opens]; simpl; [by intros [= <-]| |done].
  intros [= <-]. rewrite !rendered_cons, <- app_assoc. f_equal. simpl.
  by rewrite fmap_app, concat_app; simpl; rewrite app_nil_r.
Qed.

Lemma read_rendered limit reading e reading' :
  read limit reading e = Some reading' -> rendered reading' = rendered reading ++ event_tokens e.
Proof.
  destruct reading as [[|[kind children|kind role bytes] opens]|tree]; [| | |by destruct e].
  - destruct e as [[]| | |]; simpl; try done. intros H. case_guard; simplify_eq/=. done.
  - destruct e as [child|ending|atom|]; simpl; [| | |done].
    + destruct (vframe_begin _ _) as [[role pos]|]; [|done]. intros H. case_guard; simplify_eq/=.
      rewrite rendered_cons. unfold open_new. by destruct (is_data child).
    + intros H. case_guard as Hg; [|done]. destruct Hg as [<- Hdone]. apply attach_rendered in H as ->.
      rewrite rendered_cons, <- app_assoc. done.
    + intros H. case_guard; simplify_eq/=. rewrite !rendered_cons, <- app_assoc. f_equal. simpl.
      by rewrite fmap_app, concat_app.
  - destruct e as [|ending| |more]; simpl; [done| |done|].
    + intros H. case_guard as Hg; [|done]. destruct Hg as [<- Hdone]. apply attach_rendered in H as ->.
      rewrite rendered_cons, <- app_assoc. done.
    + intros H. case_guard; simplify_eq/=. rewrite !rendered_cons, <- app_assoc. f_equal. simpl.
      by rewrite fmap_app.
Qed.

Lemma read_all_rendered limit reading es reading' :
  read_all limit reading es = Some reading' -> rendered reading' = rendered reading ++ tokens es.
Proof.
  revert reading. induction es as [|e es IH]; intros reading; cbn [read_all].
  { intros [= <-]. by rewrite app_nil_r. }
  destruct (read limit reading e) as [next|] eqn:He; [|done]. cbn [mbind option_bind]. intros H.
  rewrite (IH next H), (read_rendered _ _ _ _ He), tokens_cons. by rewrite <- app_assoc.
Qed.

(** ** Placement of data *)

Definition inside (reading : Reading) : bool :=
  match reading with Reads (OpenData _ _ _ :: _) => true | _ => false end.

Lemma attach_outside tree opens reading : attach tree opens = Some reading -> inside reading = false.
Proof. destruct opens as [|[] opens]; simpl; by intros [= <-]. Qed.

Lemma read_inside limit reading e reading' :
  read limit reading e = Some reading' ->
  match e with
  | EBegin kind => inside reading' = is_data kind
  | EData _ => inside reading = true /\ inside reading' = true
  | _ => inside reading' = false
  end.
Proof.
  destruct reading as [[|[kind children|kind role bytes] opens]|tree]; [| | |by destruct e].
  - destruct e as [[]| | |]; simpl; try done. intros H. by case_guard; simplify_eq/=.
  - destruct e as [child|ending|atom|]; simpl; [| | |done].
    + destruct (vframe_begin _ _) as [[role pos]|]; [|done]. intros H. case_guard; simplify_eq/=.
      unfold open_new. by destruct (is_data child).
    + intros H. case_guard; [|done]. exact (attach_outside _ _ _ H).
    + intros H. by case_guard; simplify_eq/=.
  - destruct e as [|ending| |more]; simpl; [done| |done|].
    + intros H. case_guard; [|done]. exact (attach_outside _ _ _ H).
    + intros H. by case_guard; simplify_eq/=.
Qed.

Lemma read_all_placed limit reading es reading' :
  read_all limit reading es = Some reading' -> placed (inside reading) es = true.
Proof.
  revert reading. induction es as [|e es IH]; intros reading; simpl; [done|].
  destruct (read limit reading e) as [next|] eqn:He; [|done]. simpl. intros H%IH.
  apply read_inside in He. destruct e; [by rewrite <- He|by rewrite He in H..|].
  destruct He as [-> He]. by rewrite He in H.
Qed.

(** ** Chunks *)

(** The events of tokens, one byte at a time. *)
Definition token_event (token : Token) : Event :=
  match token with
  | TBegin kind => EBegin kind
  | TEnd kind => EEnd kind
  | TAtom atom => EAtom atom
  | TByte byte => EData [byte]
  end.

Lemma text_cmp_prefix_gt p b m :
  text_cmp (take (length b) p) b = Gt -> text_cmp (take (length (b ++ m)) p) (b ++ m) = Gt.
Proof.
  revert p. induction b as [|y b IH]; intros p; [by destruct p|].
  destruct p as [|x p]; [done|]. cbn [length take text_cmp app].
  destruct (code x ?= code y); [apply IH|done..].
Qed.

Lemma data_open_prefix kind role previous a b :
  data_open kind role previous (a ++ b) = true -> data_open kind role previous a = true.
Proof.
  unfold data_open. rewrite !andb_true_iff. intros [[Hu Hr] Ho]. split_and!.
  - destruct (bool_decide (kind = KBytes)); [done|]. simpl in *. apply bool_decide_eq_true in Hu.
    apply bool_decide_eq_true. rewrite utf8_run_app in Hu. by destruct (utf8_run [] a).
  - apply bool_decide_eq_true in Hr. apply bool_decide_eq_true. destruct role as [k|]; [|done]. simpl in *.
    rewrite push_bytes_app in Hr. by destruct (push_bytes _ a) as [self [[]|]].
  - apply bool_decide_eq_true in Ho. apply bool_decide_eq_true. intros Hgt. apply Ho.
    destruct previous as [p|]; [|done]. by apply text_cmp_prefix_gt.
Qed.

(** Fields that are open have passed their checks. *)
Definition opened (reading : Reading) : Prop :=
  match reading with
  | Reads (OpenData kind role bytes :: opens) => data_open kind role (previous_key kind opens) bytes = true
  | _ => True
  end.

Lemma read_opened limit reading e reading' : read limit reading e = Some reading' -> opened reading'.
Proof.
  destruct reading as [[|[kind children|kind role bytes] opens]|tree]; [| | |by destruct e].
  - destruct e as [[]| | |]; simpl; try done. intros H. by case_guard; simplify_eq/=.
  - destruct e as [child|ending|atom|]; simpl; [| | |done].
    + destruct (vframe_begin _ _) as [[role pos]|]; [|done]. intros H. case_guard; simplify_eq/=.
      unfold open_new. destruct (is_data child); [|done]. unfold opened, data_open.
      rewrite !andb_true_iff. split_and!; [by rewrite orb_true_r|by destruct role|].
      unfold key_order. by destruct (previous_key _ _).
    + intros H. case_guard; [|done]. apply attach_outside in H. by destruct reading' as [[|[]]|].
    + intros H. by case_guard; simplify_eq/=.
  - destruct e as [|ending| |more]; simpl; [done| |done|].
    + intros H. case_guard; [|done]. apply attach_outside in H. by destruct reading' as [[|[]]|].
    + intros H. by case_guard; simplify_eq/=.
Qed.

Lemma read_bytes limit kind role bytes opens more :
  opened (Reads (OpenData kind role bytes :: opens)) ->
  read_all limit (Reads (OpenData kind role bytes :: opens)) ((fun b => EData [b]) <$> more) =
  read limit (Reads (OpenData kind role bytes :: opens)) (EData more).
Proof.
  revert bytes. induction more as [|b more IH]; intros bytes Hopen; cbn [fmap list_fmap read_all].
  { simpl in *. rewrite app_nil_r. by rewrite option_guard_True. }
  destruct (data_open kind role (previous_key kind opens) (bytes ++ [b])) eqn:Hb.
  - cbn [read]. rewrite option_guard_True by done. cbn [mbind option_bind].
    change (list_fmap ascii Event) with (@fmap list _ ascii Event).
    rewrite IH by done. cbn [read]. rewrite <- app_assoc. done.
  - cbn [read]. rewrite option_guard_False by congruence. simpl. rewrite option_guard_False; [done|].
    intros H. replace (bytes ++ b :: more) with ((bytes ++ [b]) ++ more) in H by by rewrite <- app_assoc.
    apply data_open_prefix in H. congruence.
Qed.

(** Chunk boundaries and empty chunks make no difference. *)
Lemma read_chunks limit reading es :
  opened reading -> placed (inside reading) es = true ->
  read_all limit reading es = read_all limit reading (token_event <$> tokens es).
Proof.
  revert reading. induction es as [|e es IH]; intros reading Hopen Hplaced; [done|].
  rewrite tokens_cons, fmap_app, read_all_app. cbn [read_all].
  assert (read_all limit reading (token_event <$> event_tokens e) = read limit reading e) as ->.
  { destruct e; simpl; try (by destruct (read limit reading _)).
    rewrite <- list_fmap_compose. simpl in Hplaced. apply andb_prop in Hplaced as [Hin _].
    destruct reading as [[|[|kind role b] opens]|]; try done. by apply read_bytes. }
  destruct (read limit reading e) as [next|] eqn:He; [|done]. cbn [mbind option_bind].
  apply IH; [by eapply read_opened|]. apply read_inside in He. destruct e; simpl in Hplaced.
  - by rewrite He.
  - by rewrite He.
  - by rewrite He.
  - destruct He as [Hin ->]. rewrite Hin in Hplaced. done.
Qed.

(** ** Depth *)

(** The most records that are open at once. *)
Fixpoint peak (depth : N) (ts : list Token) : N :=
  match ts with
  | [] => depth
  | TBegin _ :: ts' => N.max depth (peak (depth + 1) ts')
  | TEnd _ :: ts' => N.max depth (peak (depth - 1) ts')
  | _ :: ts' => peak depth ts'
  end.

Definition reading_depth (reading : Reading) : N :=
  match reading with Reads opens => len opens | Read _ => 0 end.

Lemma peak_least depth ts : depth <= peak depth ts.
Proof. revert depth. induction ts as [|[] ts IH]; intros depth; simpl; try apply IH; lia. Qed.

Lemma peak_bytes depth bytes ts : peak depth ((TByte <$> bytes) ++ ts) = peak depth ts.
Proof. induction bytes as [|b bytes IH]; [done|]. exact IH. Qed.

Lemma attach_depth tree opens reading :
  attach tree opens = Some reading -> reading_depth reading = len opens.
Proof. destruct opens as [|[] opens]; simpl; by intros [= <-]. Qed.

Lemma read_depth limit reading e reading' :
  read limit reading e = Some reading' ->
  reading_depth reading' =
    match e with
    | EBegin _ => reading_depth reading + 1
    | EEnd _ => reading_depth reading - 1
    | _ => reading_depth reading
    end.
Proof.
  destruct reading as [[|[kind children|kind role bytes] opens]|tree]; [| | |by destruct e].
  - destruct e as [[]| | |]; simpl; try done. intros H. by case_guard; simplify_eq/=.
  - destruct e as [child|ending|atom|]; simpl; [| | |done].
    + destruct (vframe_begin _ _) as [[role pos]|]; [|done]. intros H. case_guard; simplify_eq/=.
      rewrite !len_cons. lia.
    + intros H. case_guard; [|done]. rewrite (attach_depth _ _ _ H), len_cons. lia.
    + intros H. case_guard; simplify_eq/=. by rewrite !len_cons.
  - destruct e as [|ending| |more]; simpl; [done| |done|].
    + intros H. case_guard; [|done]. rewrite (attach_depth _ _ _ H), len_cons. lia.
    + intros H. case_guard; simplify_eq/=. by rewrite !len_cons.
Qed.

Lemma read_limit limit reading e :
  read (Some limit) reading e =
    match e with
    | EBegin _ => if reading_depth reading <? limit then read None reading e else None
    | _ => read None reading e
    end.
Proof.
  destruct e as [child| | |]; [|by destruct reading as [[|[] ?]|]..].
  destruct reading as [[|[kind children|kind role bytes] opens]|tree]; simpl.
  - change (len []) with 0. destruct child; try (by destruct (0 <? limit)).
  - rewrite len_cons. destruct (vframe_begin _ _) as [[role pos]|]; [|by destruct (_ <? limit)].
    by destruct (len opens + 1 <? limit); [rewrite option_guard_True|rewrite option_guard_False].
  - by destruct (_ <? limit).
  - by destruct (_ <? limit).
Qed.

(** A limit refuses exactly the documents that are deeper. *)
Lemma read_all_limit limit reading es :
  reading_depth reading <= limit ->
  read_all (Some limit) reading es =
    if peak (reading_depth reading) (tokens es) <=? limit then read_all None reading es else None.
Proof.
  revert reading. induction es as [|e es IH]; intros reading Hle.
  { simpl. by rewrite (proj2 (N.leb_le _ limit)). }
  cbn [read_all]. rewrite tokens_cons, read_limit.
  destruct (read None reading e) as [next|] eqn:He.
  - pose proof (read_depth _ _ _ _ He) as Hd. destruct e as [kind|kind|atom|bytes]; cbn [event_tokens app peak].
    + destruct (N.ltb_spec (reading_depth reading) limit); simpl.
      * rewrite IH by lia. rewrite Hd. by rewrite N.max_r by (pose proof (peak_least (reading_depth reading + 1) (tokens es)); lia).
      * pose proof (peak_least (reading_depth reading + 1) (tokens es)).
        by rewrite (proj2 (N.leb_gt _ limit)) by lia.
    + simpl. rewrite IH, Hd by lia. pose proof (peak_least (reading_depth reading - 1) (tokens es)).
      destruct (N.leb_spec (peak (reading_depth reading - 1) (tokens es)) limit),
        (N.leb_spec (N.max (reading_depth reading) (peak (reading_depth reading - 1) (tokens es))) limit); try lia; done.
    + simpl. by rewrite IH, Hd by lia.
    + simpl. rewrite IH, Hd by lia. by rewrite peak_bytes.
  - by destruct e; simpl; repeat case_match.
Qed.

Definition within (limit : option N) (n : N) : bool :=
  match limit with Some limit => n <=? limit | None => true end.

(** Where a limit on frames is passed. *)
Lemma read_all_within limit es :
  read_all limit (Reads []) es = if within limit (peak 0 (tokens es)) then read_all None (Reads []) es else None.
Proof.
  destruct limit as [limit|]; [|done]. rewrite read_all_limit; [done|]. apply N.le_0_l.
Qed.

(** ** The documents of values *)

(** The events of a tree, with every field in one chunk. *)
Fixpoint tree_events (tree : Tree) : list Event :=
  match tree with
  | LeafTree atom => [EAtom atom]
  | DataTree kind bytes => [EBegin kind; EData bytes; EEnd kind]
  | NodeTree kind children => EBegin kind :: concat (tree_events <$> children) ++ [EEnd kind]
  end.

Lemma tree_events_tokens tree : tokens (tree_events tree) = tree_tokens tree.
Proof.
  induction tree as [atom|kind bytes|kind children IH] using tree_induction; [done|done|].
  cbn [tree_events tree_tokens]. rewrite tokens_cons, tokens_app. cbn [event_tokens app]. f_equal. f_equal.
  induction IH as [|tree children Htree _ IH]; [done|]. cbn [fmap list_fmap concat].
  by rewrite tokens_app, Htree, IH.
Qed.

(** A tree is read where it may stand. *)
Definition reads_at (kind : Kind) (children : list Tree) (tree : Tree) : Prop :=
  forall opens, read_all None (Reads (OpenNode kind children :: opens)) (tree_events tree) =
    Some (Reads (OpenNode kind (children ++ [tree]) :: opens)).

(** Trees are read one after the other. *)
Definition reads_within (kind : Kind) (children trees : list Tree) : Prop :=
  forall opens, read_all None (Reads (OpenNode kind children :: opens)) (concat (tree_events <$> trees)) =
    Some (Reads (OpenNode kind (children ++ trees) :: opens)).

Lemma reads_within_nil kind children : reads_within kind children [].
Proof. intros opens. simpl. by rewrite app_nil_r. Qed.

Lemma reads_within_cons kind children tree trees :
  reads_at kind children tree -> reads_within kind (children ++ [tree]) trees ->
  reads_within kind children (tree :: trees).
Proof.
  intros Htree Htrees opens. cbn [fmap list_fmap concat]. rewrite read_all_app, Htree.
  cbn [mbind option_bind]. by rewrite Htrees, <- app_assoc.
Qed.

Lemma read_children kind children trees :
  (forall i tree, trees !! i = Some tree -> reads_at kind (children ++ take i trees) tree) ->
  reads_within kind children trees.
Proof.
  revert children. induction trees as [|tree trees IH]; intros children Htrees.
  { apply reads_within_nil. }
  pose proof (Htrees 0%nat tree eq_refl) as Htree. simpl in Htree. rewrite app_nil_r in Htree.
  apply reads_within_cons; [done|]. apply IH.
  intros i t Hi. rewrite <- app_assoc. by apply (Htrees (S i)).
Qed.

Lemma reads_leaf kind children atom :
  is_ok (vframe_atom (position kind children) atom) = true -> reads_at kind children (LeafTree atom).
Proof. intros Ha opens. simpl. by rewrite option_guard_True. Qed.

(** A record is read where it may begin, if its children can be read and complete it. *)
Lemma reads_record kind children child trees role pos :
  vframe_begin (position kind children) child = Ok (role, pos) -> is_data child = false ->
  reads_within child [] trees -> is_ok (vframe_finish (position child trees)) = true ->
  reads_at kind children (NodeTree child trees).
Proof.
  intros Hb Hd Htrees Hf opens. cbn [tree_events read_all read]. rewrite Hb.
  rewrite option_guard_True by done. cbn [mbind option_bind]. unfold open_new. rewrite Hd.
  rewrite read_all_app, Htrees. cbn [app mbind option_bind read_all read].
  by rewrite option_guard_True.
Qed.

Lemma reads_node kind children child trees role pos :
  vframe_begin (position kind children) child = Ok (role, pos) -> is_data child = false ->
  (forall i tree, trees !! i = Some tree -> reads_at child (take i trees) tree) ->
  is_ok (vframe_finish (position child trees)) = true ->
  reads_at kind children (NodeTree child trees).
Proof. intros Hb Hd Htrees Hf. eapply reads_record; [exact Hb|done|by apply read_children|done]. Qed.

(** A field is read if it is complete. *)
Lemma data_complete_open kind role previous bytes :
  data_complete kind role previous bytes = true -> data_open kind role previous bytes = true.
Proof.
  unfold data_complete, data_open. rewrite !andb_true_iff. intros [[Hu Hr] Ho]. split_and!.
  - destruct (bool_decide (kind = KBytes)); [done|]. simpl in *. apply is_utf8_run in Hu. by rewrite Hu.
  - apply bool_decide_eq_true. destruct role as [k|]; [|done]. simpl. unfold validate_identifier, identifier_push in Hr.
    simpl in Hr. by destruct (push_bytes _ bytes) as [self [[]|]].
  - apply bool_decide_eq_true. destruct previous as [p|]; [|done]. simpl. intros Hgt.
    apply negb_true_iff, text_leb_lt in Ho. unfold text_lt in Ho. by rewrite <- text_cmp_take, Hgt in Ho.
Qed.

Lemma reads_data kind children child bytes role pos :
  vframe_begin (position kind children) child = Ok (role, pos) -> is_data child = true ->
  data_complete child role (previous_key child [OpenNode kind children]) bytes = true ->
  reads_at kind children (DataTree child bytes).
Proof.
  intros Hb Hd Hc opens. cbn [tree_events read_all read]. rewrite Hb.
  rewrite option_guard_True by done. cbn [mbind option_bind]. unfold open_new. rewrite Hd.
  replace (previous_key child [OpenNode kind children]) with (previous_key child (OpenNode kind children :: opens))
    in Hc by done.
  cbn [read app]. rewrite option_guard_True by by apply data_complete_open.
  cbn [mbind option_bind read app]. by rewrite option_guard_True.
Qed.

Lemma reads_text kind children s role pos :
  vframe_begin (position kind children) KString = Ok (role, pos) -> is_utf8 s = true ->
  match role with Some k => grammar k s | None => True end -> reads_at kind children (text_tree s).
Proof.
  intros Hb Hu Hr. eapply reads_data; [exact Hb|done|]. unfold data_complete. rewrite Hu. simpl.
  rewrite andb_true_r. destruct role as [k|]; [|done]. by apply is_ok_grammar.
Qed.

(** Proves where the fields of a fixed record stand. *)
Ltac record_fields :=
  let tree := fresh "tree" in let Hi := fresh "Hi" in
  intros [|[|[|[|?]]]] tree Hi; simpl in Hi; try done; injection Hi as <-.

Lemma is_ascii_utf8 s : is_ascii s = true -> is_utf8 s = true.
Proof.
  intros H. apply is_utf8_run. induction s as [|b s IH]; [done|]. simpl in *.
  apply andb_prop in H as [Hb Hs]. unfold lead_ranges. unfold is_ascii_byte in Hb. rewrite Hb. simpl.
  by apply IH.
Qed.

Lemma grammar_utf8 kind s : grammar kind s -> is_utf8 s = true.
Proof. intros H. apply is_ascii_utf8, unreserved_ascii. by eapply grammar_unreserved. Qed.

(** Where a value may stand. *)
Definition value_position (kind : Kind) (children : list Tree) : Prop :=
  (forall child, value_kind child = true ->
     exists pos, vframe_begin (position kind children) child = Ok (None, pos)) /\
  (forall atom, value_atom atom = true -> is_ok (vframe_atom (position kind children) atom) = true).

Lemma document_position taint : value_position KDocument [taint].
Proof. split; [intros [] Hk; try done; by eexists|by intros []]. Qed.

Lemma list_position children : value_position KList children.
Proof. split; [intros [] Hk; try done; by eexists|by intros []]. Qed.

Lemma map_position children : Nat.even (length children) = false -> value_position KMap children.
Proof.
  intros He. unfold value_position, position. rewrite He.
  split; [intros [] Hk; try done; by eexists|by intros []].
Qed.

Lemma reads_value_text kind children s :
  value_position kind children -> is_utf8 s = true -> reads_at kind children (text_tree s).
Proof. intros [Hv _] Hs. destruct (Hv KString eq_refl) as [pos Hb]. by eapply reads_text. Qed.

Lemma reads_blob kind children b role pos :
  vframe_begin (position kind children) KBlob = Ok (role, pos) -> blob_ok b ->
  reads_at kind children (blob_tree b).
Proof.
  intros Hb [Hh Hm]. eapply reads_node; [exact Hb|done| |by destruct (blob_mime b)].
  record_fields.
  - by eapply reads_text.
  - by apply reads_leaf.
  - destruct (blob_mime b) as [mime|]; [by eapply reads_text|by apply reads_leaf].
Qed.

Lemma reads_shape children shape pos role :
  vframe_begin (position KTensor children) KShape = Ok (role, pos) ->
  reads_at KTensor children (shape_tree shape).
Proof.
  intros Hb. eapply reads_node; [exact Hb|done| |done]. intros i tree Hi.
  apply list_lookup_fmap_Some in Hi as (n & -> & _). by apply reads_leaf.
Qed.

(** ** The validator accepts exactly what the machine reads *)

(** A validator that is given events, and then the end of the input. *)
Definition validate_events `{!Workspace K E} (limit : option N) (es : list Event) (keys : K)
    : outcome (EventValidator K) (CodecError E unit) unit :=
  (for_each es event_validator_accept ;;; event_validator_finish)%comp (event_validator_new keys limit).

Lemma follows_start `{WorkspaceLaws K E} limit (keys : K) :
  ws_view keys = ∅ -> follows limit (Reads []) (validator_new limit) (ws_view keys) 0.
Proof. intros ->. split; simpl; try done; [by apply NoDup_nil|by exists 0]. Qed.

Section accepting.
Context {K E : Type} `{!Workspace K E} `{!WorkspaceLaws K E}.
Context (Hnoted : forall (keys : K) key, ws_noted keys key -> ws_ready keys).
Implicit Types (keys : K) (v : Validator).

Lemma noted_always e frames v keys : noted e frames v keys -> ws_ready keys.
Proof. unfold noted. case_decide; [|by intros [Hr _]]. intros (key & fs & _ & Hn). by eapply Hnoted. Qed.

Lemma validator_accepts e limit reading v keys n room :
  follows limit reading v (ws_view keys) n -> n + len (event_tokens e) <= u64_max ->
  ws_ready keys -> ws_can keys (len (event_tokens e) + room) ->
  match read limit reading e with
  | Some reading' => exists v' keys',
      event_validator_accept (W := unit) e (mkEventValidator (Some (v, keys))) =
        Val tt (mkEventValidator (Some (v', keys'))) /\
      follows limit reading' v' (ws_view keys') (n + len (event_tokens e)) /\ ws_ready keys' /\ ws_can keys' room
  | None => exists x,
      event_validator_accept (W := unit) e (mkEventValidator (Some (v, keys))) =
        Throw (CodecValidation x) (mkEventValidator None)
  end.
Proof.
  intros Hfol Hmax Hr Hc. pose proof (drive_follows limit reading e v keys n room Hfol Hmax Hr Hc) as Hd.
  unfold simulated, wp in Hd. unfold event_validator_accept, bind, gets, modify, throw. simpl.
  destruct (read limit reading e) as [reading'|], (drive_event e v keys) as [v' keys'|x keys'|]; try done.
  - destruct Hd as (Hfol' & Hc' & Hn). exists v', keys'. split; [done|]. split; [done|]. split; [|done].
    by eapply noted_always.
  - destruct Hd as [error ->]. by exists error.
Qed.

Lemma validator_runs limit es reading v keys n :
  follows limit reading v (ws_view keys) n -> n + len (tokens es) <= u64_max ->
  ws_ready keys -> ws_can keys (len (tokens es)) ->
  match read_all limit reading es with
  | Some reading' => exists v' keys',
      for_each es (event_validator_accept (W := unit)) (mkEventValidator (Some (v, keys))) =
        Val tt (mkEventValidator (Some (v', keys'))) /\
      follows limit reading' v' (ws_view keys') (n + len (tokens es))
  | None => exists x s,
      for_each es (event_validator_accept (W := unit)) (mkEventValidator (Some (v, keys))) = Throw (CodecValidation x) s
  end.
Proof.
  revert reading v keys n. induction es as [|e es IH]; intros reading v keys n Hfol Hmax Hr Hc.
  { exists v, keys. split; [done|]. by rewrite N.add_0_r. }
  cbn [read_all for_each]. unfold bind. rewrite tokens_cons, len_app in *.
  pose proof (validator_accepts e limit reading v keys n (len (tokens es)) Hfol ltac:(lia) Hr Hc) as Ha.
  destruct (read limit reading e) as [reading'|]; cbn [mbind option_bind].
  - destruct Ha as (v' & keys' & -> & Hfol' & Hr' & Hc'). rewrite N.add_assoc. apply IH; try done. lia.
  - destruct Ha as [x ->]. by do 2 eexists.
Qed.
End accepting.

(** The trees that the grammar has: the machine reads their tokens. *)
Definition grammatical (tree : Tree) : Prop :=
  read_all None (Reads []) (token_event <$> tree_tokens tree) = Some (Read tree).

Lemma reads_grammatical limit es tree :
  read_all limit (Reads []) es = Some (Read tree) <->
  grammatical tree /\ tokens es = tree_tokens tree /\ placed false es = true /\
  within limit (peak 0 (tokens es)) = true.
Proof.
  split.
  - intros Hall. pose proof (read_all_placed _ _ _ _ Hall) as Hp. pose proof (read_all_rendered _ _ _ _ Hall) as Ht.
    change (rendered (Read tree)) with (tree_tokens tree) in Ht. simpl in Ht.
    rewrite read_all_within in Hall. destruct (within _ _) eqn:Hw; [|done]. rewrite read_chunks in Hall by done.
    unfold grammatical. by rewrite Ht.
  - intros (Hg & Ht & Hp & Hw). rewrite read_all_within, Hw, read_chunks by done. by rewrite Ht.
Qed.
