(* ===== verification/Schema.v ===== *)
(** * The grammar of documents

    The trees that the documentation of [Kind] in crates/xolotl-types/src/value/event.rs
    admits, record by record, and the proof that the machine of Grammar.v reads their tokens and no others:
    what the validator accepts is this grammar. *)

From Stdlib Require Import ZArith Ascii.
From stdpp Require Import base numbers list option strings sorting gmap.
From S2P Require Import Prelude Text Path Collection ValueList ValueMap Value Taint Event Utf8 Validation Workspace Grammar MemoryKeys Document Reading.

Local Open Scope N_scope.

(** ** The grammar *)

(** A hash string, an unsigned size, then a null or a media-type string. *)
Inductive blob_form : Tree -> Prop :=
| form_untyped_blob hash size : is_utf8 hash = true ->
    blob_form (NodeTree KBlob [DataTree KString hash; LeafTree (AU64 size); LeafTree ANull])
| form_typed_blob hash size mime : is_utf8 hash = true -> is_utf8 mime = true ->
    blob_form (NodeTree KBlob [DataTree KString hash; LeafTree (AU64 size); DataTree KString mime]).

(** The keys and values of a map in turn. *)
Definition alternating (entries : list (text * Tree)) : list Tree :=
  entries ≫= fun '(key, value) => [DataTree KKey key; value].

Inductive value_form : Tree -> Prop :=
| form_null : value_form (LeafTree ANull)
| form_bool b : value_form (LeafTree (ABool b))
| form_i64 n : value_form (LeafTree (AI64 n))
| form_f64 bits : value_form (LeafTree (AF64Bits bits))
| form_done : value_form (LeafTree AStreamDone)
| form_string s : is_utf8 s = true -> value_form (DataTree KString s)
| form_bytes s : value_form (DataTree KBytes s)
| form_list trees : (forall tree, tree ∈ trees -> value_form tree) -> value_form (NodeTree KList trees)
| form_map entries :
    sorted entries -> (forall key value, (key, value) ∈ entries -> is_utf8 key = true) ->
    (forall key value, (key, value) ∈ entries -> value_form value) ->
    value_form (NodeTree KMap (alternating entries))
| form_blob blob : blob_form blob -> value_form blob
| form_tensor blob dtype shape : blob_form blob ->
    value_form (NodeTree KTensor [blob; LeafTree (ADType dtype);
                                  NodeTree KShape ((fun n => LeafTree (AU64 n)) <$> shape)])
| form_frame blob timestamp kind : blob_form blob ->
    value_form (NodeTree KFrame [blob; LeafTree (AI64 timestamp); LeafTree (AFrameKind kind)])
| form_stream_error message : is_utf8 message = true ->
    value_form (NodeTree KStreamError [DataTree KString message]).

(** A null or a cluster, a scheme, then the segments. *)
Inductive path_form : Tree -> Prop :=
| form_local_path scheme segments : grammar Scheme scheme -> Forall (grammar Segment) segments ->
    path_form (NodeTree KPath [LeafTree ANull; DataTree KString scheme;
                               NodeTree KPathSegments (DataTree KString <$> segments)])
| form_cluster_path cluster scheme segments :
    grammar Cluster cluster -> grammar Scheme scheme -> Forall (grammar Segment) segments ->
    path_form (NodeTree KPath [DataTree KString cluster; DataTree KString scheme;
                               NodeTree KPathSegments (DataTree KString <$> segments)]).

Inductive source_form : Tree -> Prop :=
| form_author : source_form (LeafTree AAuthor)
| form_model : source_form (LeafTree AModel)
| form_inbound source channel : is_utf8 source = true -> is_utf8 channel = true ->
    source_form (NodeTree KInbound [DataTree KString source; DataTree KString channel])
| form_fetched host : is_utf8 host = true -> source_form (NodeTree KFetched [DataTree KString host])
| form_protected path : path_form path -> source_form (NodeTree KProtected [path]).

(** Exactly one taint record followed by exactly one value. *)
Inductive document_form : Tree -> Prop :=
| form_document sources value : Forall source_form sources -> value_form value ->
    document_form (NodeTree KDocument [NodeTree KTaint sources; value]).

(** ** The machine reads the grammar *)

Lemma reads_blob_form kind children blob role pos :
  vframe_begin (position kind children) KBlob = Ok (role, pos) -> blob_form blob ->
  reads_at kind children blob.
Proof.
  intros Hb [hash size Hh|hash size mime Hh Hm];
    [apply (reads_blob kind children (mkBlob hash size None) role pos Hb)
    |apply (reads_blob kind children (mkBlob hash size (Some mime)) role pos Hb)]; by split.
Qed.

Lemma reads_segments children segments :
  vframe_begin (position KPath children) KPathSegments = Ok (None, FRecord KPath (len children + 1)) ->
  Forall (grammar Segment) segments ->
  reads_at KPath children (NodeTree KPathSegments (DataTree KString <$> segments)).
Proof.
  intros Hb Hsegs. eapply reads_node; [exact Hb|done| |done]. intros i tree Hi.
  apply list_lookup_fmap_Some in Hi as (s & -> & Hi). rewrite list.Forall_lookup in Hsegs.
  eapply reads_text; [done|by eapply grammar_utf8, Hsegs|by eapply Hsegs].
Qed.

Lemma reads_path children path :
  vframe_begin (position KProtected children) KPath = Ok (None, FRecord KProtected (len children + 1)) ->
  path_form path -> reads_at KProtected children path.
Proof.
  intros Hb [scheme segments Hs Hsegs|cluster scheme segments Hc Hs Hsegs];
    (eapply reads_node; [exact Hb|done| |done]; record_fields);
    try (by apply reads_leaf); try (by apply reads_segments);
    (eapply reads_text; [done|by eapply grammar_utf8|done]).
Qed.

Lemma reads_source children source : source_form source -> reads_at KTaint children source.
Proof.
  intros [| |source' channel Hs Hc|host Hh|path Hp].
  - by apply reads_leaf.
  - by apply reads_leaf.
  - eapply reads_node; [done|done| |done]. record_fields; by eapply reads_text.
  - eapply reads_node; [done|done| |done]. record_fields; by eapply reads_text.
  - eapply reads_node; [done|done| |done]. record_fields. by apply reads_path.
Qed.

Lemma key_of_form value : value_form value -> key_of value = None.
Proof. by intros [| | | | | | | | |? []| | |]. Qed.

(** The entries of a map, whose keys follow one another. *)
Lemma reads_entries children entries :
  Nat.even (length children) = true -> sorted entries ->
  (forall k v, (k, v) ∈ entries -> is_utf8 k = true /\ key_of v = None /\
     forall children, Nat.even (length children) = false -> reads_at KMap children v) ->
  (forall p k v, last_key_of children = Some p -> (k, v) ∈ entries -> text_lt p k) ->
  reads_within KMap children (alternating entries).
Proof.
  revert children. induction entries as [|[k v] entries IH]; intros children He Hs Hes Hp.
  { apply reads_within_nil. }
  unfold alternating. cbn [mbind list_bind app]. apply sorted_cons in Hs as [Hs Hk].
  rewrite list.Forall_forall in Hk. destruct (Hes k v) as (Hu & Hn & Hv); [left|].
  apply reads_within_cons; [|apply reads_within_cons].
  - eapply reads_data; [by unfold position; rewrite He|done|]. unfold data_complete. rewrite Hu. simpl.
    destruct (last_key_of children) as [p|] eqn:Hlast; [|done].
    apply negb_true_iff, text_leb_lt. eapply Hp; [done|left].
  - apply Hv. rewrite length_app, Nat.add_1_r, Nat.even_succ, <- Nat.negb_even. by rewrite He.
  - apply IH; [|done| |].
    + rewrite !length_app. simpl. by rewrite <- Nat.add_assoc, Nat.even_add, He.
    + intros k' v' He'. apply Hes. by right.
    + intros p k' v' Hlast He'. rewrite !last_key_snoc, Hn in Hlast. injection Hlast as <-.
      apply (Hk (k', v') He').
Qed.

Lemma even_alternating entries : Nat.even (length (alternating entries)) = true.
Proof. by induction entries as [|[k v] entries IH]. Qed.

Lemma reads_value value :
  value_form value -> forall kind children, value_position kind children -> reads_at kind children value.
Proof.
  induction 1 as [|b|n|bits| |s Hs|s|trees Htrees IH|es Hs Hus Hes IH|blob Hb|blob dtype shape Hb
    |blob ts fk Hb|message Hs]; intros kind children Hpos; pose proof Hpos as [Hk Ha];
    try (by apply reads_leaf, Ha).
  - by apply reads_value_text.
  - destruct (Hk KBytes eq_refl) as [pos Hb]. by eapply reads_data.
  - destruct (Hk KList eq_refl) as [pos Hb]. eapply reads_node; [done|done| |done]. intros i tree Hi.
    apply IH; [by eapply list_elem_of_lookup_2|apply list_position].
  - destruct (Hk KMap eq_refl) as [pos Hb].
    eapply reads_record; [done|done| |by unfold position; rewrite even_alternating].
    apply reads_entries; [done|done| |done]. intros k v He. split_and!; [by eapply Hus|by eapply key_of_form, Hes|].
    intros trees Ht. eapply IH; [done|by apply map_position].
  - destruct (Hk KBlob eq_refl) as [pos Hpb]. by eapply reads_blob_form.
  - destruct (Hk KTensor eq_refl) as [pos Hpb]. eapply reads_node; [done|done| |done]. record_fields.
    + by eapply reads_blob_form.
    + by apply reads_leaf.
    + by eapply (reads_shape _ shape).
  - destruct (Hk KFrame eq_refl) as [pos Hpb]. eapply reads_node; [done|done| |done]. record_fields.
    + by eapply reads_blob_form.
    + by apply reads_leaf.
    + by apply reads_leaf.
  - destruct (Hk KStreamError eq_refl) as [pos Hpb]. eapply reads_node; [done|done| |done]. record_fields.
    by eapply reads_text.
Qed.

Lemma reads_form tree :
  document_form tree -> read_all None (Reads []) (tree_events tree) = Some (Read tree).
Proof.
  intros [sources value Ht Hv]. rewrite list.Forall_lookup in Ht.
  assert (reads_within KDocument [] [NodeTree KTaint sources; value]) as Hin.
  { apply reads_within_cons; [|apply reads_within_cons; [|apply reads_within_nil]].
    - eapply reads_node; [done|done| |done]. intros i child Hi. by eapply reads_source, Ht.
    - apply reads_value; [done|apply document_position]. }
  cbn [tree_events read_all read]. rewrite option_guard_True by done. cbn [mbind option_bind].
  rewrite read_all_app, Hin. cbn [app mbind option_bind read_all read]. by rewrite option_guard_True.
Qed.

(** ** The documents of values are in the grammar *)

Lemma blob_tree_form b : blob_ok b -> blob_form (blob_tree b).
Proof. destruct b as [hash size [mime|]]; intros [Hh Hm]; by constructor. Qed.

Lemma path_tree_form p : valid_path p -> path_form (path_tree p).
Proof.
  destruct p as [[cluster|] scheme segments]; intros (Hc & Hs & _ & Hsegs);
    constructor; try done. by apply Hc.
Qed.

Lemma source_tree_form source : source_ok source -> source_form (source_tree source).
Proof.
  destruct source; intros Hs; constructor; try apply Hs. by apply path_tree_form.
Qed.

Lemma entry_trees_alternating (es : list (text * Value)) :
  concat (entry_trees value_tree <$> es) = alternating (prod_map id value_tree <$> es).
Proof. induction es as [|[k v] es IH]; [done|]. cbn. by rewrite IH. Qed.

Lemma even_entries (entries : list (text * Value)) :
  Nat.even (length (concat (entry_trees value_tree <$> entries))) = true.
Proof. rewrite entry_trees_alternating. apply even_alternating. Qed.

Lemma key_of_value v : key_of (value_tree v) = None.
Proof. by destruct v as [| | | | | | | | | | |[]]. Qed.

Lemma value_tree_form v : value_ok v -> value_form (value_tree v).
Proof.
  induction 1 as [|b|n|bits|s Hs|s|l Hl Hvs IH|m Hm Hus Hes IH|b Hb|x Hb|f Hb| |message Hs];
    try (by constructor).
  - rewrite value_tree_list. constructor. intros tree (v & -> & Hv)%list_elem_of_fmap. auto.
  - rewrite value_tree_map, entry_trees_alternating. destruct Hm as (_ & Hs & _). constructor.
    + unfold sorted in *. eapply StronglySorted_fmap; [|exact Hs]. by intros [] [].
    + intros k tree ([k' v] & [= -> ->] & He)%list_elem_of_fmap. by eapply Hus.
    + intros k tree ([k' v] & [= -> ->] & He)%list_elem_of_fmap. by eapply IH.
  - by apply form_blob, blob_tree_form.
  - by apply form_tensor, blob_tree_form.
  - by apply form_frame, blob_tree_form.
Qed.

Lemma document_tree_form tv : tainted_ok tv -> document_form (document_tree tv).
Proof.
  intros [Hv Ht]. apply form_document; [|by apply value_tree_form]. apply Forall_fmap.
  eapply list.Forall_impl; [exact Ht|]. apply source_tree_form.
Qed.

(** The machine reads the document of every well-formed value. *)
Lemma reads_document tv :
  tainted_ok tv ->
  read_all None (Reads []) (tree_events (document_tree tv)) = Some (Read (document_tree tv)).
Proof. intros Hok. by apply reads_form, document_tree_form. Qed.

(** ** Where trees stand *)

(** A tree that the machine may attach to a record. *)
Definition stands (kind : Kind) (children : list Tree) (tree : Tree) : Prop :=
  match tree with
  | LeafTree atom => is_ok (vframe_atom (position kind children) atom) = true
  | DataTree child bytes => exists role pos,
      vframe_begin (position kind children) child = Ok (role, pos) /\
      data_complete child role (previous_key child [OpenNode kind children]) bytes = true
  | NodeTree child _ => exists role pos, vframe_begin (position kind children) child = Ok (role, pos)
  end.

(** A record that was begun where it may. *)
Definition begins (parent : Open) (open : Open) : Prop :=
  match parent, open with
  | OpenNode kind children, OpenNode child _ =>
      is_data child = false /\ exists role pos, vframe_begin (position kind children) child = Ok (role, pos)
  | OpenNode kind children, OpenData child role _ =>
      is_data child = true /\ exists pos, vframe_begin (position kind children) child = Ok (role, pos)
  | OpenData _ _ _, _ => False
  end.

Fixpoint nested (opens : list Open) : Prop :=
  match opens with
  | [] => True
  | open :: opens' =>
      match opens' with
      | [] => exists children, open = OpenNode KDocument children
      | parent :: _ => begins parent open
      end /\ nested opens'
  end.

Lemma nested_grown kind children children' opens :
  nested (OpenNode kind children :: opens) -> nested (OpenNode kind children' :: opens).
Proof.
  destruct opens as [|[] opens]; simpl; [|done..]. intros [[cs [= -> _]] _]. split; [by eexists|done].
Qed.

Lemma nested_grown_data kind role bytes bytes' opens :
  nested (OpenData kind role bytes :: opens) -> nested (OpenData kind role bytes' :: opens).
Proof. destruct opens as [|[] opens]; simpl; [|done..]. by intros [[cs [=]] _]. Qed.

(** What reading an event does to the records that are open. *)
Lemma read_nested limit opens e opens' :
  read limit (Reads opens) e = Some (Reads opens') -> nested opens -> nested opens'.
Proof.
  destruct opens as [|[kind children|kind role bytes] opens].
  - destruct e as [[]| | |]; simpl; try done. intros H _. case_guard; simplify_eq/=. split; [by eexists|done].
  - destruct e as [child|ending|atom|]; simpl; [| | |done].
    + destruct (vframe_begin _ _) as [[role pos]|] eqn:Hb; [|done]. intros H Hn. case_guard; simplify_eq/=.
      split; [|done]. unfold open_new. destruct (is_data child) eqn:Hd; simpl; eauto.
    + intros H Hn. case_guard; [|done]. destruct opens as [|[pk pc|] opens]; simplify_eq/=.
      eapply nested_grown. apply Hn.
    + intros H Hn. case_guard; simplify_eq/=. by eapply (nested_grown kind children).
  - destruct e as [|ending| |more]; simpl; [done| |done|]; intros H Hn; case_guard; try done.
    + destruct opens as [|[pk pc|] opens]; simplify_eq/=. eapply nested_grown. apply Hn.
    + simplify_eq/=. by eapply (nested_grown_data kind role bytes).
Qed.

Lemma record_begin_end kind next child : 3 <= next -> record_begin kind next child = (false, None).
Proof. intros H. destruct next as [|[[|p|]|[|p|]|]]; try lia; by destruct kind. Qed.

Lemma record_atom_end kind next atom : 3 <= next -> record_atom kind next atom = false.
Proof. intros H. destruct next as [|[[|p|]|[|p|]|]]; try lia; by destruct kind, atom. Qed.

(** A record that is not full has at most two fields. *)
Lemma stands_record kind children tree :
  position kind children = FRecord kind (len children) -> stands kind children tree ->
  (length children < 3)%nat.
Proof.
  intros Hp Hs. destruct (decide (length children < 3)%nat) as [|Hn]; [done|].
  assert (3 <= len children) as Hle by (unfold len; lia). unfold stands in Hs. rewrite Hp in Hs.
  destruct tree as [atom|child bytes|child trees].
  - unfold vframe_atom in Hs. by rewrite record_atom_end in Hs.
  - destruct Hs as (role & pos & Hs & _). unfold vframe_begin in Hs. by rewrite record_begin_end in Hs.
  - destruct Hs as (role & pos & Hs). unfold vframe_begin in Hs. by rewrite record_begin_end in Hs.
Qed.

Lemma data_complete_role child kind previous bytes :
  data_complete child (Some kind) previous bytes = true -> grammar kind bytes.
Proof.
  unfold data_complete. rewrite !andb_true_iff. intros [[_ Hr] _]. by apply is_ok_grammar.
Qed.

Ltac record_cases :=
  repeat match goal with
  | H : _ /\ _ |- _ => destruct H
  | H : exists _, _ |- _ => destruct H
  | H : match ?x with _ => _ end |- _ => is_var x; destruct x; try done
  | H : vframe_begin _ _ = Ok (_, _) |- _ => vm_compute in H; first [discriminate H|injection H as <- <-]
  | H : data_complete _ (Some _) _ _ = true |- _ => apply data_complete_role in H
  end.

Definition value_head (tree : Tree) : bool :=
  match tree with
  | LeafTree atom => value_atom atom
  | DataTree kind _ | NodeTree kind _ => value_kind kind
  end.

Lemma stands_value kind children tree :
  stands kind children tree ->
  match kind with
  | KList => True
  | KMap => Nat.even (length children) = false
  | KDocument => length children = 1%nat
  | _ => False
  end -> value_head tree = true.
Proof.
  intros Hs Hk. destruct kind; try done.
  - destruct children as [|a [|]]; try done.
    by destruct tree as [[]|[] bytes|[] trees]; simpl in Hs; record_cases.
  - by destruct tree as [[]|[] bytes|[] trees]; simpl in Hs; record_cases.
  - unfold stands, position in Hs. rewrite Hk in Hs.
    by destruct tree as [[]|[] bytes|[] trees]; simpl in Hs; record_cases.
Qed.

(** ** What the machine reads is in the grammar *)

(** A tree by its kind. *)
Definition formed (tree : Tree) : Prop :=
  match tree with
  | LeafTree _ => True
  | DataTree kind _ => is_data kind = true
  | NodeTree KDocument _ => document_form tree
  | NodeTree KTaint trees => Forall source_form trees
  | NodeTree (KInbound | KFetched | KProtected) _ => source_form tree
  | NodeTree KPath _ => path_form tree
  | NodeTree KPathSegments trees =>
      exists segments, trees = DataTree KString <$> segments /\ Forall (grammar Segment) segments
  | NodeTree KShape trees => exists shape, trees = (fun n => LeafTree (AU64 n)) <$> shape
  | NodeTree KBlob _ => blob_form tree
  | NodeTree (KList | KMap | KTensor | KFrame | KStreamError) _ => value_form tree
  | NodeTree (KString | KBytes | KKey) _ => False
  end.

(** The children of a record: each stands where it is. *)
Definition forming (kind : Kind) (children : list Tree) : Prop :=
  forall i tree, children !! i = Some tree -> stands kind (take i children) tree /\ formed tree.

Lemma forming_nil kind : forming kind [].
Proof. by intros i tree. Qed.

Lemma forming_snoc kind children tree :
  forming kind (children ++ [tree]) <-> forming kind children /\ stands kind children tree /\ formed tree.
Proof.
  split.
  - intros Hf. split.
    + intros i child Hi. destruct (Hf i child) as [Hs Hc]; [by apply lookup_app_l_Some|].
      rewrite take_app_le in Hs; [done|]. apply lookup_lt_Some in Hi. lia.
    + destruct (Hf (length children) tree) as [Hs Hc]; [by apply list_lookup_middle|].
      by rewrite take_app_length in Hs.
  - intros (Hf & Hs & Hc) i child Hi. apply lookup_app_Some in Hi as [Hi|[Hle Hi]].
    + rewrite take_app_le; [by apply Hf|]. apply lookup_lt_Some in Hi. lia.
    + apply list_lookup_singleton_Some in Hi as [Hz <-].
      replace i with (length children) by lia. by rewrite take_app_length.
Qed.

(** The fields of a fixed record, one by one. *)
Lemma forming_one kind a : forming kind [a] -> stands kind [] a /\ formed a.
Proof. intros Hf. by apply (Hf 0%nat a). Qed.
Lemma forming_two kind a b : forming kind [a; b] ->
  (stands kind [] a /\ formed a) /\ stands kind [a] b /\ formed b.
Proof. intros Hf. split; [by apply (Hf 0%nat a)|by apply (Hf 1%nat b)]. Qed.
Lemma forming_three kind a b c : forming kind [a; b; c] ->
  (stands kind [] a /\ formed a) /\ (stands kind [a] b /\ formed b) /\ stands kind [a; b] c /\ formed c.
Proof.
  intros Hf. split_and!; try (by apply (Hf 0%nat a)); try (by apply (Hf 1%nat b)); by apply (Hf 2%nat c).
Qed.

Lemma data_complete_utf8 kind role previous bytes :
  kind <> KBytes -> data_complete kind role previous bytes = true -> is_utf8 bytes = true.
Proof.
  unfold data_complete. rewrite !andb_true_iff. intros Hk [[Hu _] _].
  by rewrite bool_decide_false in Hu.
Qed.

(** A value, where one may stand. *)
Lemma value_head_form tree kind children :
  stands kind children tree -> formed tree -> value_head tree = true -> value_form tree.
Proof.
  destruct tree as [[]|[] bytes|[] trees]; simpl; intros Hs Hf Hh; try done; try by constructor.
  destruct Hs as (role & pos & _ & Hd). constructor. by eapply data_complete_utf8; [|exact Hd].
Qed.

Lemma forming_list trees : forming KList trees -> value_form (NodeTree KList trees).
Proof.
  intros Hf. constructor. intros tree Hin. apply list_elem_of_lookup_1 in Hin as [i Hi].
  destruct (Hf i tree Hi) as [Hs Ht]. eapply value_head_form; [exact Hs|done|].
  by eapply (stands_value KList).
Qed.

Lemma forming_taint trees : forming KTaint trees -> Forall source_form trees.
Proof.
  intros Hf. apply list.Forall_lookup. intros i tree Hi. destruct (Hf i tree Hi) as [Hs Ht].
  destruct tree as [[]|[] bytes|[] children]; simpl in Hs, Ht; record_cases; done || constructor.
Qed.

Lemma forming_shape trees : forming KShape trees -> exists shape, trees = (fun n => LeafTree (AU64 n)) <$> shape.
Proof.
  induction trees as [|tree trees IH] using rev_ind; [by exists []|].
  intros (Hf & Hs & _)%forming_snoc. destruct (IH Hf) as [shape ->].
  destruct tree as [[]|[] bytes|[] children]; simpl in Hs; record_cases; try done.
  exists (shape ++ [n]). by rewrite fmap_app.
Qed.

Lemma forming_segments trees : forming KPathSegments trees ->
  exists segments, trees = DataTree KString <$> segments /\ Forall (grammar Segment) segments.
Proof.
  induction trees as [|tree trees IH] using rev_ind; [by exists []|].
  intros (Hf & Hs & Ht)%forming_snoc. destruct (IH Hf) as (segments & -> & Hsegs).
  destruct tree as [[]|[] bytes|[] children]; simpl in Hs, Ht; record_cases; try done.
  exists (segments ++ [bytes]). rewrite fmap_app, list.Forall_app. split; [done|]. by repeat constructor.
Qed.

Lemma last_key_alternating entries :
  (forall key value, (key, value) ∈ entries -> key_of value = None) ->
  last_key_of (alternating entries) = fst <$> list.last entries.
Proof.
  induction entries as [|[k v] entries _] using rev_ind; [done|]. intros Hv. unfold alternating.
  rewrite bind_app. cbn [mbind list_bind app].
  change [DataTree KKey k; v] with ([DataTree KKey k] ++ [v]).
  rewrite app_assoc, !last_key_snoc, (Hv k v), last_snoc; [done|]. apply elem_of_app. right. left.
Qed.

(** The entries of a map that is open, and the key whose value is to come. *)
Lemma forming_map trees : forming KMap trees ->
  exists entries pending, trees = alternating entries ++ option_list (DataTree KKey <$> pending) /\
    (forall key value, (key, value) ∈ entries -> is_utf8 key = true /\ value_form value) /\ sorted entries /\
    (forall key, pending = Some key -> is_utf8 key = true /\ forall value, sorted (entries ++ [(key, value)])).
Proof.
  induction trees as [|tree trees IH] using rev_ind.
  { exists [], None. split_and!; try done; [by intros ? ? ?%not_elem_of_nil|constructor]. }
  intros (Hf & Hs & Ht)%forming_snoc. destruct (IH Hf) as (entries & pending & -> & Hes & Hsort & Hp).
  assert (forall key value, (key, value) ∈ entries -> key_of value = None) as Hkeys
    by (intros k v He; by eapply key_of_form, Hes).
  destruct pending as [key|]; simpl in Hs |- *.
  - destruct (Hp key eq_refl) as [Hu Hsorted].
    assert (value_form tree) as Hv.
    { eapply value_head_form; [exact Hs|done|]. eapply stands_value; [exact Hs|].
      rewrite length_app. simpl. by rewrite Nat.add_1_r, Nat.even_succ, <- Nat.negb_even, even_alternating. }
    exists (entries ++ [(key, tree)]), None. split_and!; try done.
    + unfold alternating. rewrite bind_app. simpl. by rewrite <- !app_assoc.
    + intros k v [He|He]%elem_of_app; [by apply Hes|]. by apply list_elem_of_singleton in He as [= -> ->].
  - rewrite app_nil_r in *. unfold stands, position in Hs. rewrite even_alternating in Hs.
    destruct tree as [[]|[] bytes|[] children]; simpl in Hs; record_cases; try done.
    match goal with H : data_complete _ _ _ _ = true |- _ => rename H into Hd end.
    exists entries, (Some bytes). split_and!; try done. intros key [= <-].
    split; [by eapply data_complete_utf8; [|exact Hd]|]. intros value.
    rewrite last_key_alternating in Hd by done. unfold data_complete in Hd. rewrite !andb_true_iff in Hd.
    destruct Hd as [_ Hlast]. apply sorted_snoc; [done|]. intros e He. rewrite He in Hlast.
    by apply negb_true_iff, text_leb_lt in Hlast.
Qed.

(** The field of a fixed record, by what may stand there. *)
Ltac field Hs Ht :=
  match type of Hs with
  | stands _ _ ?tree => destruct tree as [[]|[] ?|[] ?]; simpl in Hs, Ht; record_cases; try done
  end;
  repeat match goal with
  | H : data_complete KString None _ _ = true |- _ => apply data_complete_utf8 in H; [|done]
  end.

Lemma forming_blob a b c : forming KBlob [a; b; c] -> blob_form (NodeTree KBlob [a; b; c]).
Proof.
  intros ((Ha & Fa) & (Hb & Fb) & Hc & Fc)%forming_three. field Ha Fa. field Hb Fb. field Hc Fc; by constructor.
Qed.

Lemma forming_tensor a b c : forming KTensor [a; b; c] -> value_form (NodeTree KTensor [a; b; c]).
Proof.
  intros ((Ha & Fa) & (Hb & Fb) & Hc & Fc)%forming_three. field Ha Fa. field Hb Fb. field Hc Fc.
  subst. by constructor.
Qed.

Lemma forming_frame a b c : forming KFrame [a; b; c] -> value_form (NodeTree KFrame [a; b; c]).
Proof.
  intros ((Ha & Fa) & (Hb & Fb) & Hc & Fc)%forming_three. field Ha Fa. field Hb Fb. field Hc Fc. by constructor.
Qed.

Lemma forming_path a b c : forming KPath [a; b; c] -> path_form (NodeTree KPath [a; b; c]).
Proof.
  intros ((Ha & Fa) & (Hb & Fb) & Hc & Fc)%forming_three. field Hb Fb. field Hc Fc.
  subst. field Ha Fa; by constructor.
Qed.

Lemma forming_inbound a b : forming KInbound [a; b] -> source_form (NodeTree KInbound [a; b]).
Proof. intros ((Ha & Fa) & Hb & Fb)%forming_two. field Ha Fa. field Hb Fb. by constructor. Qed.

Lemma forming_fetched a : forming KFetched [a] -> source_form (NodeTree KFetched [a]).
Proof. intros [Ha Fa]%forming_one. field Ha Fa. by constructor. Qed.

Lemma forming_protected a : forming KProtected [a] -> source_form (NodeTree KProtected [a]).
Proof. intros [Ha Fa]%forming_one. field Ha Fa. by constructor. Qed.

Lemma forming_error a : forming KStreamError [a] -> value_form (NodeTree KStreamError [a]).
Proof. intros [Ha Fa]%forming_one. field Ha Fa. by constructor. Qed.

Lemma forming_document a b : forming KDocument [a; b] -> document_form (NodeTree KDocument [a; b]).
Proof.
  intros ((Ha & Fa) & Hb & Fb)%forming_two. assert (value_form b) as Hv.
  { eapply value_head_form; [exact Hb|done|]. by eapply stands_value. }
  clear Hb Fb. field Ha Fa.
Qed.

Lemma forming_entries trees :
  forming KMap trees -> Nat.even (length trees) = true -> value_form (NodeTree KMap trees).
Proof.
  intros Hf He. destruct (forming_map trees Hf) as (entries & [key|] & -> & Hes & Hsort & _); simpl in *.
  - rewrite length_app, Nat.even_add, even_alternating in He. done.
  - rewrite app_nil_r. apply form_map; [done|by intros ? ? []%Hes..].
Qed.

(** A record that its end completes. *)
Lemma forming_finish kind children :
  is_data kind = false -> is_ok (vframe_finish (position kind children)) = true -> forming kind children ->
  formed (NodeTree kind children).
Proof.
  intros Hd Hfin Hf.
  assert (position kind children = FRecord kind (len children) ->
    length children = N.to_nat (record_fields kind)) as Hlen.
  { intros Hp. rewrite Hp in Hfin. unfold vframe_finish in Hfin. cbn in Hfin.
    destruct (N.eqb_spec (len children) (record_fields kind)) as [<-|]; [unfold len; lia|done]. }
  destruct kind; try done;
    try (specialize (Hlen eq_refl); destruct children as [|a [|b [|c [|]]]]; simpl in Hlen; try lia);
    simpl; auto using forming_document, forming_taint, forming_list, forming_blob, forming_tensor,
      forming_shape, forming_frame, forming_error, forming_inbound, forming_fetched, forming_protected,
      forming_path, forming_segments.
  apply forming_entries; [done|]. unfold position, vframe_finish in Hfin. simpl in Hfin.
  by destruct (Nat.even (length children)).
Qed.

(** The records that are open while a document is read. *)
Definition open_forming (open : Open) : Prop :=
  match open with OpenNode kind children => forming kind children | OpenData _ _ _ => True end.

Lemma attach_forming tree opens reading :
  attach tree opens = Some reading -> formed tree ->
  match opens with OpenNode kind children :: _ => stands kind children tree | _ => True end ->
  Forall open_forming opens ->
  match reading with
  | Reads opens' => Forall open_forming opens'
  | Read tree' => tree' = tree /\ opens = []
  end.
Proof.
  destruct opens as [|[kind children|] opens]; simpl; intros Ha Ht Hs Hf; simplify_eq/=; [done|].
  apply list.Forall_cons in Hf as [Hf Hfs]. constructor; [|done]. by apply forming_snoc.
Qed.

Lemma read_forming limit opens e reading :
  read limit (Reads opens) e = Some reading -> nested opens -> Forall open_forming opens ->
  match reading with
  | Reads opens' => Forall open_forming opens'
  | Read tree => document_form tree
  end.
Proof.
  intros Hr Hn Hf. destruct opens as [|[kind children|kind role bytes] opens].
  - destruct e as [[]| | |]; simpl in Hr; try done. case_guard; simplify_eq/=.
    constructor; [apply forming_nil|done].
  - pose proof Hf as [Hk Hfs]%list.Forall_cons. destruct e as [child|ending|atom|]; simpl in Hr; [| | |done].
    + destruct (vframe_begin _ _) as [[role pos]|] eqn:Hb; [|done]. case_guard; simplify_eq/=.
      constructor; [|done]. unfold open_new. destruct (is_data child); [done|apply forming_nil].
    + case_guard as Hg; [|done]. destruct Hg as [-> Hfin].
      assert (is_data ending = false) as Hd.
      { destruct Hn as [Hn _]. destruct opens as [|[] opens]; [by destruct Hn as [? [= -> _]]|apply Hn|done]. }
      pose proof (forming_finish _ _ Hd Hfin Hk) as Ht.
      apply attach_forming in Hr; [|done| |done].
      * destruct reading as [|tree]; [done|]. destruct Hr as [-> ->]. destruct Hn as [[cs [= -> _]] _]. done.
      * destruct opens as [|[] opens]; [done|apply Hn|done].
    + case_guard as Hg; simplify_eq/=. constructor; [|done]. by apply forming_snoc.
  - pose proof Hf as [_ Hfs]%list.Forall_cons. destruct e as [|ending| |more]; simpl in Hr; try done.
    + case_guard as Hg; [|done]. destruct Hg as [-> Hc]. destruct Hn as [Hn _].
      destruct opens as [|[pk pc|] opens]; [by destruct Hn as [? [=]]| |done]. destruct Hn as [Hd [pos Hb]].
      apply list.Forall_cons in Hfs as [Hp Hfs]. simplify_eq/=. constructor; [|done]. apply forming_snoc.
      split_and!; [done| |done]. exists role, pos. by destruct ending.
    + case_guard; simplify_eq/=. by constructor.
Qed.

Lemma read_all_forming limit es opens tree :
  read_all limit (Reads opens) es = Some (Read tree) -> nested opens -> Forall open_forming opens ->
  document_form tree.
Proof.
  revert opens. induction es as [|e es IH]; intros opens Hr Hn Hf; [discriminate Hr|]. cbn [read_all] in Hr.
  destruct (read limit (Reads opens) e) as [[opens'|tree']|] eqn:He; cbn [mbind option_bind] in Hr; [| |done].
  - apply (IH opens'); [done|by eapply read_nested|]. exact (read_forming _ _ _ _ He Hn Hf).
  - pose proof (read_forming _ _ _ _ He Hn Hf) as Ht. destruct es as [|e' es]; [by injection Hr as <-|done].
Qed.

(** The machine reads the tokens of the grammar's trees, and no others. *)
Lemma grammatical_form tree : grammatical tree <-> document_form tree.
Proof.
  split.
  - intros Hg. by eapply read_all_forming; [exact Hg|done|].
  - intros Hf. pose proof (reads_form tree Hf) as Hread.
    apply reads_grammatical in Hread as [Hg _]. done.
Qed.

(** ** Theorems *)

(** C10. For every workspace that keeps its promises, the validator accepts
    exactly the tokens of the trees in the grammar that the documentation of [Kind] lays down, within its
    limit on open records, however their data is cut into chunks. What it refuses it refuses as invalid, never because
    of its workspace, and it neither panics nor diverges. *)
Theorem validator_accepts_exactly `{WorkspaceLaws K E} (keys : K) limit es :
  (forall (keys : K) key, ws_noted keys key -> ws_ready keys) ->
  ws_view keys = ∅ -> ws_ready keys -> ws_can keys (len (tokens es)) -> len (tokens es) <= u64_max ->
  let document tree :=
    document_form tree /\ tokens es = tree_tokens tree /\ placed false es = true /\
    within limit (peak 0 (tokens es)) = true in
  match validate_events limit es keys with
  | Val _ _ => exists tree, document tree
  | Throw (CodecValidation _) _ => ~ exists tree, document tree
  | _ => False
  end.
Proof.
  intros Hn Hv Hr Hc Hlen document.
  pose proof (validator_runs Hn limit es (Reads []) (validator_new limit) keys 0 (follows_start _ _ Hv) Hlen Hr Hc) as Hrun.
  unfold validate_events, bind, event_validator_new.
  assert (forall tree, document tree <-> read_all limit (Reads []) es = Some (Read tree)) as Hdocument
    by (intros; unfold document; rewrite <- grammatical_form; symmetry; apply reads_grammatical).
  destruct (read_all limit (Reads []) es) as [reading|] eqn:Hall.
  - destruct Hrun as (v & keys' & -> & Hfol). unfold event_validator_finish, bind, gets, modify, throw, validator_finish,
      validator_check, bind, gets. simpl. rewrite (follows_failure _ _ _ _ _ Hfol). simpl.
    pose proof (follows_frames _ _ _ _ _ Hfol) as Hfr. destruct reading as [opens|tree]; simpl in Hfr.
    + destruct Hfr as [_ ->].
      destruct opens; simpl; unfold validator_fail; rewrite (follows_failure _ _ _ _ _ Hfol);
        intros [tree Htree%Hdocument]; done.
    + destruct Hfr as [_ ->]. exists tree. by apply Hdocument.
  - destruct Hrun as (x & s & ->). intros [tree Htree%Hdocument]. done.
Qed.

(** ** Witnesses *)

(** A map of two entries whose second key comes in two chunks, checked in pages of one byte. *)
Definition sample_map_events : list Event :=
  [EBegin KDocument; EBegin KTaint; EAtom AAuthor; EEnd KTaint; EBegin KMap;
   EBegin KKey; EData (t "ab"); EEnd KKey; EAtom (ABool true);
   EBegin KKey; EData (t "ab"); EData (t "c"); EEnd KKey; EBegin KBytes; EData (t "x"); EEnd KBytes;
   EEnd KMap; EEnd KDocument].

Lemma validator_accepts_exactly_witness :
  exists tree, document_form tree /\ tokens sample_map_events = tree_tokens tree /\
    placed false sample_map_events = true /\ within (Some 3) (peak 0 (tokens sample_map_events)) = true.
Proof.
  pose (same (n : N) := n). pose (keys := store_new (mkKeyOptions 1 None (Some 100))).
  pose proof (@validator_accepts_exactly _ _ (memory_workspace same) (memory_workspace_laws same)
    keys (Some 3) sample_map_events) as Hv.
  assert (exists s, @validate_events _ _ (memory_workspace same) (Some 3) sample_map_events keys = Val tt s) as [s Hs]
    by (eexists; vm_compute; reflexivity).
  rewrite Hs in Hv. apply Hv.
  - intros. exact I.
  - vm_compute. reflexivity.
  - exact I.
  - split; [apply store_new_ok; vm_compute; reflexivity|]. split_and!; vm_compute; (reflexivity || discriminate).
  - vm_compute. discriminate.
Defined.
