(* ===== verification/Builder.v ===== *)
(** * Materialisation of value documents

    crates/xolotl-types/src/value/event/builder.rs with builder/admission.rs, builder/keys.rs
    and builder/frame.rs: a resident value and its recorded provenance, built from events that
    the validator accepts. *)

From Stdlib Require Import ZArith Ascii.
From stdpp Require Import base numbers list option strings gmap.
From S2P Require Import Prelude Text Path Collection ValueList ValueMap Value Taint Event Utf8 Validation Workspace.

Local Open Scope N_scope.

(** ** Errors and admission *)

Inductive MaterializationDimension : Type := DimPayloadBytes | DimNodes.

(** [BuilderError], without the failure of an allocation. *)
Inductive BuilderError : Type :=
| BuilderValidation (error : ValidationError)
| BuilderAdmission (dimension : MaterializationDimension) (limit : N)
| BuilderCollection (error : CollectionError)
| BuilderInvariant (state : text).

Record MaterializationLimits : Type := mkLimits {
  max_payload_bytes : option N;
  max_nodes : option N;
  max_frames : option N
}.

Record Admission : Type := mkAdmission {
  ad_limits : MaterializationLimits;
  ad_payload_bytes : N;
  ad_nodes : N
}.

Definition admission_new (limits : MaterializationLimits) : Admission := mkAdmission limits 0 0.

(** [charge]: the new count. *)
Definition charge_units (used : N) (limit : option N) (amount : N)
    (dimension : MaterializationDimension) : Result N BuilderError :=
  match limit with
  | None => Ok used
  | Some limit =>
      match checked_add u64_max used amount with
      | Some next => if next <=? limit then Ok next else Err (BuilderAdmission dimension limit)
      | None => Err (BuilderAdmission dimension limit)
      end
  end.

Local Open Scope result_scope.

(** [Admission::admit]. *)
Definition admission_admit (self : Admission) (event : Event) : Result Admission BuilderError :=
  match event with
  | EBegin _ | EAtom _ =>
      let? nodes := charge_units (ad_nodes self) (max_nodes (ad_limits self)) 1 DimNodes in
      Ok (mkAdmission (ad_limits self) (ad_payload_bytes self) nodes)
  | EData bytes =>
      match max_payload_bytes (ad_limits self) with
      | None => Ok self
      | Some limit =>
          let? payload := charge_units (ad_payload_bytes self) (Some limit) (len bytes) DimPayloadBytes in
          Ok (mkAdmission (ad_limits self) payload (ad_nodes self))
      end
  | EEnd _ => Ok self
  end.

(** ** The workspace of keys *)

Record Keys : Type := mkKeys { keys_entries : gmap N text; keys_created : option N }.

Definition keys_default : Keys := mkKeys ∅ None.

Definition keys_is_empty (self : Keys) : bool :=
  bool_decide (keys_entries self = ∅) && bool_decide (keys_created self = None).

Definition keys_take_created (self : Keys) : Result (N * Keys) BuilderError :=
  match keys_created self with
  | Some key => Ok (key, mkKeys (keys_entries self) None)
  | None => Err (BuilderInvariant (t "new map key"))
  end.

(** [String::from_utf8] of owned bytes. *)
Definition string_from_utf8 (bytes : text) (what : text) : Result text BuilderError :=
  if is_utf8 bytes then Ok bytes else Err (BuilderInvariant what).

Definition keys_text (self : Keys) (key : N) : Result text BuilderError :=
  let? bytes := ok_or (keys_entries self !! key) (BuilderInvariant (t "completed map key")) in
  string_from_utf8 bytes (t "map key UTF-8").

Local Close Scope result_scope.
Local Open Scope comp_scope.

(** [Keys::complete], by its cases. *)
Definition keys_create (key : N) : comp Keys BuilderError unit :=
  fun self =>
    let error := BuilderInvariant (t "fresh map key") in
    match keys_created self, keys_entries self !! key with
    | Some _, _ => Throw error (mkKeys (keys_entries self) (Some key))
    | None, Some _ => Throw error (mkKeys (<[key := []]> (keys_entries self)) (Some key))
    | None, None => Val tt (mkKeys (<[key := []]> (keys_entries self)) (Some key))
    end.

Definition keys_compare_prefix (key offset : N) (bytes : text) : comp Keys BuilderError comparison :=
  let* self := gets (fun self => self) in
  let* stored := require (keys_entries self !! key) (BuilderInvariant (t "previous map key")) in
  let* start := require (if offset <=? usize_max then Some offset else None) (BuilderInvariant (t "map key offset")) in
  let* end_ := require (checked_add usize_max start (len bytes)) (BuilderInvariant (t "map key range")) in
  if end_ <=? len stored then
    ret (text_cmp (take (length bytes) (drop (N.to_nat start) stored)) bytes)
  else throw (BuilderInvariant (t "stored map key range")).

Definition keys_append (key offset : N) (bytes : text) : comp Keys BuilderError unit :=
  let* self := gets (fun self => self) in
  let* stored := require (keys_entries self !! key) (BuilderInvariant (t "current map key")) in
  if len stored =? offset then
    modify (fun self => mkKeys (<[key := stored ++ bytes]> (keys_entries self)) (keys_created self))
  else throw (BuilderInvariant (t "map key append offset")).

Definition keys_release (key : N) : comp Keys BuilderError unit :=
  let* self := gets (fun self => self) in
  let* _ := require (keys_entries self !! key) (BuilderInvariant (t "released map key")) in
  modify (fun self => mkKeys (delete key (keys_entries self)) (keys_created self)).

#[export] Instance keys_workspace : Workspace Keys BuilderError := {
  ws_create := keys_create;
  ws_compare_prefix := keys_compare_prefix;
  ws_append := keys_append;
  ws_release := keys_release
}.

#[export] Program Instance keys_workspace_laws : WorkspaceLaws Keys BuilderError := {
  ws_view := keys_entries;
  ws_can _ _ := True;
  ws_ready keys := keys_created keys = None;
  ws_noted keys key := keys_created keys = Some key
}.
Next Obligation. done. Qed.
Next Obligation.
  intros keys key room Hk Hr _. unfold wp, ws_create. simpl. unfold keys_create. by rewrite Hr, Hk.
Qed.
Next Obligation.
  intros keys key offset bytes stored room Hk Hle Hmax _. unfold wp. simpl.
  unfold keys_compare_prefix, bind, gets, require. rewrite Hk. simpl. unfold checked_add.
  rewrite (proj2 (N.leb_le offset usize_max)) by (unfold usize_max; lia). simpl.
  rewrite (proj2 (N.leb_le _ usize_max)) by (unfold usize_max; lia). simpl.
  by rewrite (proj2 (N.leb_le _ _)) by done.
Qed.
Next Obligation.
  intros keys key bytes stored room Hk Hmax _. unfold wp. simpl.
  unfold keys_append, bind, gets, require. rewrite Hk. simpl. by rewrite N.eqb_refl.
Qed.
Next Obligation.
  intros keys key room [stored Hk] _. unfold wp. simpl.
  unfold keys_release, bind, gets, require. by rewrite Hk.
Qed.

Local Close Scope comp_scope.
Local Open Scope result_scope.

(** ** Fields *)

Inductive Field : Type :=
| FieldDocument (value : Value)
| FieldTaint
| FieldValue (value : Value)
| FieldAtom (atom : Atom)
| FieldText (s : text)
| FieldKey (s : text)
| FieldBlob (blob : BlobRef)
| FieldShape (shape : list N)
| FieldSource (source : TaintSource)
| FieldPath (path : Path)
| FieldPathSegments (segments : list text).

(** [Field::into_value]. *)
Definition field_into_value (self : Field) : Result Value BuilderError :=
  match self with
  | FieldValue value => Ok value
  | FieldText s => Ok (VStr s)
  | FieldBlob blob => Ok (VBlob blob)
  | FieldAtom ANull => Ok VNull
  | FieldAtom (ABool b) => Ok (VBool b)
  | FieldAtom (AI64 n) => Ok (VInt n)
  | FieldAtom (AF64Bits bits) => Ok (VFloat bits)
  | FieldAtom AStreamDone => Ok (VStreamEnd Done)
  | FieldAtom _ => Err (BuilderInvariant (t "value atom"))
  | _ => Err (BuilderInvariant (t "value field"))
  end.

(** [Field::into_source]. *)
Definition field_into_source (self : Field) : Result TaintSource BuilderError :=
  match self with
  | FieldSource source => Ok source
  | FieldAtom AAuthor => Ok AuthorConstant
  | FieldAtom AModel => Ok ModelOutput
  | _ => Err (BuilderInvariant (t "taint source"))
  end.

(** ** Records of metadata *)

Inductive BRecord : Type :=
| BBlob (hash : option text) (size : option N) (mime : option (option text))
| BTensor (blob : option BlobRef) (dtype : option DType) (shape : option (list N))
| BFrameRef (blob : option BlobRef) (timestamp : option Z) (kind : option FrameSample)
| BStreamError (message : option text)
| BInbound (source channel : option text)
| BFetched (host : option text)
| BProtected (path : option Path)
| BPath (cluster : option (option text)) (scheme : option text) (segments : option (list text)).

(** [Record::new]. *)
Definition record_new (kind : Kind) : Result BRecord BuilderError :=
  match kind with
  | KBlob => Ok (BBlob None None None)
  | KTensor => Ok (BTensor None None None)
  | KFrame => Ok (BFrameRef None None None)
  | KStreamError => Ok (BStreamError None)
  | KInbound => Ok (BInbound None None)
  | KFetched => Ok (BFetched None)
  | KProtected => Ok (BProtected None)
  | KPath => Ok (BPath None None None)
  | _ => Err (BuilderInvariant (t "metadata record kind"))
  end.

(** [Record::accept]. *)
Definition record_accept (self : BRecord) (field : Field) : Result BRecord BuilderError :=
  match self, field with
  | BBlob None size mime, FieldText s => Ok (BBlob (Some s) size mime)
  | BBlob hash size None, FieldText s => Ok (BBlob hash size (Some (Some s)))
  | BBlob hash size None, FieldAtom ANull => Ok (BBlob hash size (Some None))
  | BBlob hash None mime, FieldAtom (AU64 n) => Ok (BBlob hash (Some n) mime)
  | BTensor None dtype shape, FieldBlob blob => Ok (BTensor (Some blob) dtype shape)
  | BFrameRef None timestamp kind, FieldBlob blob => Ok (BFrameRef (Some blob) timestamp kind)
  | BTensor blob None shape, FieldAtom (ADType d) => Ok (BTensor blob (Some d) shape)
  | BTensor blob dtype None, FieldShape shape => Ok (BTensor blob dtype (Some shape))
  | BFrameRef blob None kind, FieldAtom (AI64 n) => Ok (BFrameRef blob (Some n) kind)
  | BFrameRef blob timestamp None, FieldAtom (AFrameKind k) => Ok (BFrameRef blob timestamp (Some k))
  | BStreamError None, FieldText s => Ok (BStreamError (Some s))
  | BFetched None, FieldText s => Ok (BFetched (Some s))
  | BInbound None channel, FieldText s => Ok (BInbound (Some s) channel)
  | BInbound source None, FieldText s => Ok (BInbound source (Some s))
  | BProtected None, FieldPath path => Ok (BProtected (Some path))
  | BPath None scheme segments, FieldAtom ANull => Ok (BPath (Some None) scheme segments)
  | BPath None scheme segments, FieldText s => Ok (BPath (Some (Some s)) scheme segments)
  | BPath cluster None segments, FieldText s => Ok (BPath cluster (Some s) segments)
  | BPath cluster scheme None, FieldPathSegments l => Ok (BPath cluster scheme (Some l))
  | _, _ => Err (BuilderInvariant (t "metadata field"))
  end.

(** The errors of a path are invariants here. *)
Definition path_invariant {A} (what : text) (r : Result A PathError) : Result A BuilderError :=
  match r with Ok a => Ok a | Err _ => Err (BuilderInvariant what) end.

(** The [for] loop over the segments; [try_push_owned] is [try_push] of owned text. *)
Fixpoint push_segments_owned (path : Path) (segments : list text) : Result Path BuilderError :=
  match segments with
  | [] => Ok path
  | segment :: segments' =>
      let? path := path_invariant (t "path segment") (try_push path segment) in
      push_segments_owned path segments'
  end.

(** The path of a finished [Record::Path]. *)
Definition record_path (cluster : option text) (scheme : text) (segments : list text)
    : Result Path BuilderError :=
  let? path := path_invariant (t "path scheme") (try_new scheme) in
  let? path := match cluster with
               | Some cluster => path_invariant (t "path cluster") (try_with_cluster path cluster)
               | None => Ok path
               end in
  push_segments_owned path segments.

(** [Record::finish]. *)
Definition record_finish (self : BRecord) : Result Field BuilderError :=
  match self with
  | BBlob (Some hash) (Some size) (Some mime) => Ok (FieldBlob (mkBlob hash size mime))
  | BTensor (Some blob) (Some dtype) (Some shape) => Ok (FieldValue (VTensor (mkTensor blob dtype shape)))
  | BFrameRef (Some blob) (Some timestamp) (Some kind) =>
      Ok (FieldValue (VFrame (mkFrameRef blob timestamp kind)))
  | BStreamError (Some message) => Ok (FieldValue (VStreamEnd (Error message)))
  | BInbound (Some source) (Some channel) => Ok (FieldSource (Inbound source channel))
  | BFetched (Some host) => Ok (FieldSource (Fetched host))
  | BProtected (Some path) => Ok (FieldSource (Protected path))
  | BPath (Some cluster) (Some scheme) (Some segments) =>
      let? path := record_path cluster scheme segments in
      Ok (FieldPath path)
  | _ => Err (BuilderInvariant (t "completed metadata"))
  end.

(** ** Frames *)

Inductive BFrame : Type :=
| BDocument (value : option Value)
| BTaint
| BString (bytes : text)
| BBytes (bytes : text)
| BKey (key : N)
| BList (values : @Assembly Value unit)
| BMap (entries : @Assembly (text * Value) text) (key : option text)
| BShape (dimensions : list N)
| BPathSegments (segments : list text)
| BRecordFrame (record : BRecord).

(** [Frame::new]. *)
Definition bframe_new (kind : Kind) (keys : Keys) : Result (BFrame * Keys) BuilderError :=
  match kind with
  | KDocument => Ok (BDocument None, keys)
  | KTaint => Ok (BTaint, keys)
  | KString => Ok (BString [], keys)
  | KBytes => Ok (BBytes [], keys)
  | KKey => let? (key, keys) := keys_take_created keys in Ok (BKey key, keys)
  | KList => Ok (BList assembly_new, keys)
  | KMap => Ok (BMap assembly_new None, keys)
  | KShape => Ok (BShape [], keys)
  | KPathSegments => Ok (BPathSegments [], keys)
  | _ => let? record := record_new kind in Ok (BRecordFrame record, keys)
  end.

(** [Frame::data]. *)
Definition bframe_data (self : BFrame) (bytes : text) : Result BFrame BuilderError :=
  match self with
  | BString stored => Ok (BString (stored ++ bytes))
  | BBytes stored => Ok (BBytes (stored ++ bytes))
  | BKey key => Ok self
  | _ => Err (BuilderInvariant (t "byte field"))
  end.

(** [TaintSet::push_recorded_source]. *)
Definition push_recorded_source (self : TaintSet) (source : TaintSource) : TaintSet :=
  match taint_sources self with
  | Some l => mkTaintSet (Some (l ++ [source]))
  | None => mkTaintSet (Some [source])
  end.

Definition collection_error {A} (r : Result A CollectionError) : Result A BuilderError :=
  match r with Ok a => Ok a | Err error => Err (BuilderCollection error) end.

(** [Frame::accept]. *)
Definition bframe_accept (self : BFrame) (field : Field) (observed : TaintSet)
    : Result (BFrame * TaintSet) BuilderError :=
  match self, field with
  | BDocument _, FieldTaint => Ok (self, observed)
  | BDocument None, field =>
      let? value := field_into_value field in
      Ok (BDocument (Some value), observed)
  | BTaint, field =>
      let? source := field_into_source field in
      Ok (BTaint, push_recorded_source observed source)
  | BList values, field =>
      let? value := field_into_value field in
      let? values := collection_error (assembly_push values value) in
      Ok (BList values, observed)
  | BMap entries None, FieldKey key => Ok (BMap entries (Some key), observed)
  | BMap entries key, field =>
      let? key := ok_or key (BuilderInvariant (t "map value key")) in
      let? value := field_into_value field in
      let? entries := collection_error (builder_append entries key value) in
      Ok (BMap entries None, observed)
  | BShape dimensions, FieldAtom (AU64 n) => Ok (BShape (dimensions ++ [n]), observed)
  | BPathSegments segments, FieldText s => Ok (BPathSegments (segments ++ [s]), observed)
  | BRecordFrame record, field =>
      let? record := record_accept record field in
      Ok (BRecordFrame record, observed)
  | _, _ => Err (BuilderInvariant (t "record field"))
  end.

(** [Frame::finish]. *)
Definition bframe_finish (self : BFrame) (keys : Keys) : Result Field BuilderError :=
  match self with
  | BDocument (Some value) => Ok (FieldDocument value)
  | BTaint => Ok FieldTaint
  | BString bytes => let? s := string_from_utf8 bytes (t "text UTF-8") in Ok (FieldText s)
  | BBytes bytes => Ok (FieldValue (VBytes bytes))
  | BKey key => let? s := keys_text keys key in Ok (FieldKey s)
  | BList values => Ok (FieldValue (VList (assembly_finish values)))
  | BMap entries None => Ok (FieldValue (VMap (assembly_finish entries)))
  | BShape shape => Ok (FieldShape shape)
  | BPathSegments segments => Ok (FieldPathSegments segments)
  | BRecordFrame record => record_finish record
  | _ => Err (BuilderInvariant (t "completed record"))
  end.

(** ** The builder *)

Record Session : Type := mkSession {
  se_validator : Validator;
  se_admission : Admission;
  se_frames : list BFrame;
  se_keys : Keys;
  se_completed : option Value
}.

Record ValueBuilder : Type := mkBuilder {
  vb_session : option Session;
  vb_observed : TaintSet;
  vb_failure : option BuilderError
}.

(** [ValueBuilder::new]. *)
Definition builder_new (limits : MaterializationLimits) : ValueBuilder :=
  mkBuilder
    (Some (mkSession (validator_new (max_frames limits)) (admission_new limits) [] keys_default None))
    taint_pristine None.

Local Close Scope result_scope.
Local Open Scope comp_scope.

(** A session acts on itself and on the sources observed. *)
Definition session_comp : Type -> Type := comp (Session * TaintSet) BuilderError.

Definition get_session : session_comp Session := gets fst.
Definition put_session (self : Session) : session_comp unit := modify (fun s => (self, snd s)).
Definition put_frames (frames : list BFrame) : session_comp unit :=
  let* self := get_session in
  put_session (mkSession (se_validator self) (se_admission self) frames (se_keys self)
                 (se_completed self)).

(** [Session::accept]. *)
Definition session_accept (field : Field) : session_comp unit :=
  let* self := get_session in
  match se_frames self, field, se_completed self with
  | frame :: rest, field, _ =>
      let* observed := gets snd in
      let* (frame, observed) := lift_result (bframe_accept frame field observed) in
      put_frames (frame :: rest) ;;;
      modify (fun s => (fst s, observed))
  | [], FieldDocument value, None =>
      put_session (mkSession (se_validator self) (se_admission self) [] (se_keys self) (Some value))
  | _, _, _ => throw (BuilderInvariant (t "parent record"))
  end.

(** What an accepted event does to the frames. *)
Definition session_event (event : Event) : session_comp unit :=
  let* self := get_session in
  match event with
  | EBegin kind =>
      let* (frame, keys) := lift_result (bframe_new kind (se_keys self)) in
      put_session (mkSession (se_validator self) (se_admission self) (frame :: se_frames self) keys
                     (se_completed self))
  | EData bytes =>
      match se_frames self with
      | [] => throw (BuilderInvariant (t "data frame"))
      | frame :: rest =>
          let* frame := lift_result (bframe_data frame bytes) in
          put_frames (frame :: rest)
      end
  | EAtom atom => session_accept (FieldAtom atom)
  | EEnd _ =>
      match se_frames self with
      | [] => throw (BuilderInvariant (t "ending frame"))
      | frame :: rest =>
          put_frames rest ;;;
          let* field := lift_result (bframe_finish frame (se_keys self)) in
          session_accept field
      end
  end.

(** [Session::push]. *)
Definition session_push (event : Event) : session_comp unit :=
  let* self := get_session in
  let* admission := lift_result (admission_admit (se_admission self) event) in
  match drive_event event (se_validator self) (se_keys self) with
  | Val validator keys =>
      put_session (mkSession validator admission (se_frames self) keys (se_completed self)) ;;;
      session_event event
  | Throw (DriveValidation error) _ => throw (BuilderValidation error)
  | Throw (DriveWorkspace error) _ => throw error
  | Stop why => halt why
  end.

(** [ValueBuilder::push]: an error drops the session. *)
Definition builder_push (event : Event) : comp ValueBuilder BuilderError unit :=
  fun self =>
    match vb_failure self, vb_session self with
    | Some error, _ => Throw error self
    | None, None => Throw (BuilderInvariant (t "open session")) self
    | None, Some session =>
        match session_push event (session, vb_observed self) with
        | Val _ (session, observed) => Val tt (mkBuilder (Some session) observed None)
        | Throw error (_, observed) => Throw error (mkBuilder None observed (Some error))
        | Stop why => Stop why
        end
    end.

(** [ValueBuilder::finish]. *)
Definition builder_finish : comp ValueBuilder BuilderError TaintedValue :=
  fun self =>
    match vb_failure self, vb_session self with
    | Some error, _ => Throw error self
    | None, None => Throw (BuilderInvariant (t "open session")) self
    | None, Some session =>
        match validator_finish (se_validator session) with
        | Val _ _ =>
            if bool_decide (se_frames session = []) && keys_is_empty (se_keys session) then
              match se_completed session with
              | Some value => Val (mkTainted value (vb_observed self)) self
              | None => Throw (BuilderInvariant (t "completed value")) self
              end
            else Throw (BuilderInvariant (t "finished document")) self
        | Throw error _ => Throw (BuilderValidation error) self
        | Stop why => Stop why
        end
    end.

(** Pushing events until one fails, then confirming the end of the input. *)
Definition materialize (limits : MaterializationLimits) (events : list Event)
    : option (Result TaintedValue BuilderError) :=
  match (for_each events builder_push ;;; builder_finish) (builder_new limits) with
  | Val tv _ => Some (Ok tv)
  | Throw error _ => Some (Err error)
  | Stop _ => None
  end.
