(* ===== verification/Materialize.v ===== *)
(** * What materialisation builds

    The builder of Builder.v against the documents of Document.v: it accepts exactly the
    documents of well-formed values within its limits, and builds the value whose document it
    was given. *)

From Stdlib Require Import ZArith Ascii.
From stdpp Require Import base numbers list option strings sorting gmap.
From S2P Require Import Prelude Text Path Collection ValueList ValueMap Value Taint Event Utf8 Validation Workspace Grammar MemoryKeys Document Reading Schema Builder.

Local Open Scope N_scope.

(** ** What fields and frames stand for *)

Definition value_rep (v : Value) (tree : Tree) : Prop := tree = value_tree v /\ value_ok v.

(** The field that a completed tree becomes. *)
Definition field_rep (field : Field) (tree : Tree) : Prop :=
  match tree with
  | LeafTree atom => field = FieldAtom atom
  | DataTree KString s => field = FieldText s /\ is_utf8 s = true
  | DataTree KKey s => field = FieldKey s /\ is_utf8 s = true
  | DataTree KBytes s => field = FieldValue (VBytes s)
  | NodeTree KDocument children => exists trees v,
      field = FieldDocument v /\ children = [NodeTree KTaint trees; value_tree v] /\ value_ok v
  | NodeTree KTaint _ => field = FieldTaint
  | NodeTree KBlob _ => exists b, field = FieldBlob b /\ tree = blob_tree b /\ blob_ok b
  | NodeTree KShape _ => exists l, field = FieldShape l /\ tree = shape_tree l
  | NodeTree KPath _ => exists p, field = FieldPath p /\ tree = path_tree p /\ valid_path p
  | NodeTree KPathSegments _ => exists l,
      field = FieldPathSegments l /\ tree = segments_tree l /\ Forall (grammar Segment) l
  | NodeTree (KInbound | KFetched | KProtected) _ => exists source,
      field = FieldSource source /\ tree = source_tree source /\ source_ok source
  | NodeTree (KList | KMap | KTensor | KFrame | KStreamError) _ => exists v,
      field = FieldValue v /\ value_rep v tree
  | _ => False
  end.

Definition text_rep (s : text) (tree : Tree) : Prop := tree = text_tree s /\ is_utf8 s = true.
Definition name_rep (kind : IdentifierKind) (s : text) (tree : Tree) : Prop :=
  tree = text_tree s /\ grammar kind s.
Definition optional_rep (rep : text -> Tree -> Prop) (s : option text) (tree : Tree) : Prop :=
  match s with Some s => rep s tree | None => tree = LeafTree ANull end.
Definition blob_rep (b : BlobRef) (tree : Tree) : Prop := tree = blob_tree b /\ blob_ok b.

(** A field of a record holds what the tree at its place stands for. *)
Definition holds {A} (rep : A -> Tree -> Prop) (tree : option Tree) (x : option A) : Prop :=
  match tree, x with
  | Some tree, Some x => rep x tree
  | None, None => True
  | _, _ => False
  end.

Definition leaf_rep {A} (atom : A -> Atom) (x : A) (tree : Tree) : Prop := tree = LeafTree (atom x).

Definition record_rep (kind : Kind) (children : list Tree) (r : BRecord) : Prop :=
  match kind, r with
  | KBlob, BBlob hash size mime =>
      holds text_rep (children !! 0%nat) hash /\ holds (leaf_rep AU64) (children !! 1%nat) size /\
      holds (optional_rep text_rep) (children !! 2%nat) mime
  | KTensor, BTensor blob dtype shape =>
      holds blob_rep (children !! 0%nat) blob /\ holds (leaf_rep ADType) (children !! 1%nat) dtype /\
      holds (fun l tree => tree = shape_tree l) (children !! 2%nat) shape
  | KFrame, BFrameRef blob timestamp sample =>
      holds blob_rep (children !! 0%nat) blob /\ holds (leaf_rep AI64) (children !! 1%nat) timestamp /\
      holds (leaf_rep AFrameKind) (children !! 2%nat) sample
  | KStreamError, BStreamError message => holds text_rep (children !! 0%nat) message
  | KInbound, BInbound source channel =>
      holds text_rep (children !! 0%nat) source /\ holds text_rep (children !! 1%nat) channel
  | KFetched, BFetched host => holds text_rep (children !! 0%nat) host
  | KProtected, BProtected path =>
      holds (fun p tree => tree = path_tree p /\ valid_path p) (children !! 0%nat) path
  | KPath, BPath cluster scheme segments =>
      holds (optional_rep (name_rep Cluster)) (children !! 0%nat) cluster /\
      holds (name_rep Scheme) (children !! 1%nat) scheme /\
      holds (fun l tree => tree = segments_tree l /\ Forall (grammar Segment) l) (children !! 2%nat) segments
  | _, _ => False
  end.

Definition entry_ok (entry : text * Value) : Prop := is_utf8 (fst entry) = true /\ value_ok (snd entry).

(** The value of a document, which begins with its taint. *)
Definition document_rep (children : list Tree) (value : option Value) : Prop :=
  match children with
  | [] => value = None
  | taint :: children' =>
      (exists trees, taint = NodeTree KTaint trees) /\ holds value_rep (head children') value
  end.

(** The frame of a record with some children. *)
Definition node_rep (kind : Kind) (children : list Tree) (frame : BFrame) : Prop :=
  match frame with
  | BDocument value => kind = KDocument /\ document_rep children value
  | BTaint => kind = KTaint
  | BList a => kind = KList /\ exists vs, Forall2 value_rep vs children /\ assembled a vs
  | BMap a key => kind = KMap /\ exists es, building a es /\ Forall entry_ok es /\
      children = concat (entry_trees value_tree <$> es) ++ option_list (DataTree KKey <$> key) /\
      forall k, key = Some k -> is_utf8 k = true /\ forall v, sorted (es ++ [(k, v)])
  | BShape l => kind = KShape /\ NodeTree KShape children = shape_tree l
  | BPathSegments l => kind = KPathSegments /\ Forall2 (name_rep Segment) l children
  | BRecordFrame r => record_rep kind children r
  | BString _ | BBytes _ | BKey _ => False
  end.

(** ** Fields of records *)

Lemma record_accepts kind children r field tree :
  record_rep kind children r -> stands kind children tree -> field_rep field tree ->
  exists r', record_accept r field = Ok r' /\ record_rep kind (children ++ [tree]) r'.
Proof.
  intros Hr Hs Hf.
  assert (position kind children = FRecord kind (len children)) as Hp
    by (destruct kind; try reflexivity; by destruct r).
  pose proof (stands_record _ _ _ Hp Hs) as Hlen.
  destruct children as [|a [|b [|c children]]]; [| | |simpl in Hlen; lia]; clear Hlen Hp;
    (destruct kind; destruct r; try done); simpl in Hr; record_cases;
    (destruct tree as [[]|[] bytes|[] trees]); simpl in Hs, Hf; try done; record_cases; try done; subst field;
    (eexists; split; [reflexivity|]); simpl; split_and!; try done.
Qed.

(** ** Fields of other frames *)

Lemma field_value field tree :
  field_rep field tree -> value_head tree = true ->
  exists v, field_into_value field = Ok v /\ value_rep v tree.
Proof.
  intros Hf Hh. destruct tree as [[]|[] bytes|[] trees]; simpl in *; try done; record_cases; subst;
    (eexists; split; [reflexivity|]); first [assumption|split; [done|by constructor]].
Qed.

Lemma field_source field tree :
  field_rep field tree -> stands KTaint [] tree ->
  exists source, field_into_source field = Ok source /\ tree = source_tree source /\ source_ok source.
Proof.
  intros Hf Hs. destruct tree as [[]|[] bytes|[] trees]; simpl in *; try done; record_cases; subst; try done;
    (eexists; split; [reflexivity|]); done.
Qed.

Lemma list_accepts a children field tree :
  node_rep KList children (BList a) -> stands KList children tree -> field_rep field tree ->
  len children < usize_max ->
  exists v a', field_into_value field = Ok v /\ assembly_push a v = Ok a' /\
    node_rep KList (children ++ [tree]) (BList a').
Proof.
  intros (_ & vs & Hvs & Ha) Hs Hf Hlen.
  destruct (field_value field tree Hf) as (v & Hv & Hrep); [by eapply stands_value|].
  exists v. pose proof (assembled_push a vs v Ha) as Hp. apply Forall2_length in Hvs as Hl.
  destruct (assembly_push a v) as [a'|e]; [|destruct Hp; unfold len in *; lia].
  exists a'. split; [done|]. split; [done|]. split; [done|]. exists (vs ++ [v]). split; [|done].
  by apply Forall2_app; [|constructor].
Qed.

Lemma entry_trees_length (es : list (text * Value)) :
  length (concat (entry_trees value_tree <$> es)) = (2 * length es)%nat.
Proof. induction es as [|e es IH]; [done|]. cbn [fmap list_fmap concat entry_trees app length]. rewrite IH. lia. Qed.

Lemma last_key_entry_trees (es : list (text * Value)) :
  last_key_of (concat (entry_trees value_tree <$> es)) = fst <$> list.last es.
Proof.
  induction es as [|[k v] es _] using rev_ind; [done|]. rewrite fmap_app, concat_app. simpl.
  change [DataTree KKey k; value_tree v] with ([DataTree KKey k] ++ [value_tree v]).
  by rewrite app_assoc, !last_key_snoc, key_of_value, last_snoc.
Qed.

Lemma map_accepts_key a children field tree :
  node_rep KMap children (BMap a None) -> stands KMap children tree -> field_rep field tree ->
  exists k, field = FieldKey k /\ node_rep KMap (children ++ [tree]) (BMap a (Some k)).
Proof.
  intros (_ & es & Ha & Hes & Hc & _) Hs Hf. simpl in Hc. rewrite app_nil_r in Hc. subst children.
  unfold stands, position in Hs. rewrite even_entries in Hs.
  destruct tree as [atom|[] bytes|[] trees]; simpl in Hs; record_cases; try done.
  match goal with H : data_complete _ _ _ _ = true |- _ => rename H into Hd end.
  rewrite last_key_entry_trees in Hd. unfold data_complete in Hd. rewrite !andb_true_iff in Hd.
  destruct Hd as [_ Hlast]. destruct Hf as [-> Hu]. exists bytes. split; [done|].
  split; [done|]. exists es. split; [done|]. split; [done|]. split; [done|]. intros k [= <-].
  split; [done|]. intros v. apply sorted_snoc; [apply Ha|]. intros e He. rewrite He in Hlast.
  by apply negb_true_iff, text_leb_lt in Hlast.
Qed.

Lemma map_accepts_value a k children field tree :
  node_rep KMap children (BMap a (Some k)) -> stands KMap children tree -> field_rep field tree ->
  len children < usize_max ->
  exists v a', field_into_value field = Ok v /\ builder_append a k v = Ok a' /\
    (forall s, field <> FieldKey s) /\ node_rep KMap (children ++ [tree]) (BMap a' None).
Proof.
  intros (_ & es & Ha & Hes & -> & Hk) Hs Hf Hlen. destruct (Hk k eq_refl) as [Hu Hsort].
  unfold len in Hlen. rewrite length_app, entry_trees_length in Hlen.
  destruct (field_value field tree Hf) as (v & Hv & Hrep & Hok).
  { eapply stands_value; [exact Hs|]. rewrite length_app. simpl.
    by rewrite Nat.add_1_r, Nat.even_succ, <- Nat.negb_even, even_entries. }
  exists v. pose proof (builder_append_building a es k v Ha) as Hp.
  destruct (builder_append a k v) as [a'|e]; 
    [|exfalso; destruct e; first [by apply Hp, Hsort|destruct Hp; unfold len in *; simpl in *; lia]].
  exists a'. split; [done|]. split; [done|]. split; [by intros s ->|]. split; [done|].
  exists (es ++ [(k, v)]). split; [done|]. split; [by apply list.Forall_app; split; [|repeat constructor]|].
  split; [|done]. rewrite fmap_app, concat_app, <- !app_assoc, Hrep. done.
Qed.

Lemma document_accepts value children field tree observed :
  document_rep children value -> stands KDocument children tree -> field_rep field tree ->
  exists value', bframe_accept (BDocument value) field observed = Ok (BDocument value', observed) /\
    document_rep (children ++ [tree]) value'.
Proof.
  intros Hn Hs Hf. pose proof (stands_record KDocument children tree eq_refl Hs) as Hlen.
  destruct children as [|a [|b [|c children]]]; [| | |simpl in Hlen; lia].
  - destruct tree as [[]|[] bytes|[] trees]; simpl in Hs; record_cases; try done. simpl in Hf. subst field.
    simpl in Hn. subst value. exists None. split; [done|]. split; [by eexists|done].
  - destruct (field_value field tree Hf) as (v & Hv & Hrep); [by eapply stands_value|].
    destruct Hn as [Ht Hn]. destruct value; [done|]. exists (Some v). split; [|done]. cbn [bframe_accept].
    destruct field; try done; by rewrite Hv.
  - by destruct tree as [[]|[] bytes|[] trees]; simpl in Hs; record_cases.
Qed.

(** ** Accepting and finishing *)

(** What a record accepts, and what that records of the taint. *)
Lemma node_accepts kind children frame field tree observed :
  node_rep kind children frame -> stands kind children tree -> field_rep field tree ->
  len children < usize_max ->
  exists frame' observed', bframe_accept frame field observed = Ok (frame', observed') /\
    node_rep kind (children ++ [tree]) frame' /\
    if decide (kind = KTaint)
    then exists source, observed' = push_recorded_source observed source /\
           tree = source_tree source /\ source_ok source
    else observed' = observed.
Proof.
  intros Hn Hs Hf Hlen.
  destruct frame as [value| | | | |a|a key|l|l|r]; try (by destruct Hn).
  - destruct Hn as [-> Hn]. destruct (document_accepts value children field tree observed Hn Hs Hf)
      as (value' & Ha & Hn'). by exists (BDocument value'), observed.
  - simpl in Hn. subst kind. destruct (field_source field tree Hf Hs) as (source & Hsource & Htree).
    exists BTaint, (push_recorded_source observed source). split; [|split; [done|by exists source]].
    simpl. rewrite Hsource. by destruct field.
  - pose proof Hn as [-> _]. destruct (list_accepts a children field tree Hn Hs Hf Hlen) as (v & a' & Hv & Ha & Hn').
    exists (BList a'), observed. split; [|done]. simpl. rewrite Hv. simpl. rewrite Ha. by destruct field.
  - pose proof Hn as [-> _]. destruct key as [k|].
    + destruct (map_accepts_value a k children field tree Hn Hs Hf Hlen) as (v & a' & Hv & Ha & _ & Hn').
      exists (BMap a' None), observed. split; [|done]. simpl. rewrite Hv. simpl. rewrite Ha. by destruct field.
    + destruct (map_accepts_key a children field tree Hn Hs Hf) as (k & -> & Hn').
      by exists (BMap a (Some k)), observed.
  - destruct Hn as [-> Hn]. destruct tree as [[]|[] bytes|[] trees]; simpl in Hs; record_cases; try done.
    simpl in Hf. subst field. eexists _, observed. split; [done|]. split; [|done]. split; [done|].
    unfold shape_tree in *. injection Hn as ->. by rewrite fmap_app.
  - destruct Hn as [-> Hn]. destruct tree as [[]|[] bytes|[] trees]; simpl in Hs; record_cases; try done.
    destruct Hf as [-> Hu]. eexists _, observed. split; [done|]. split; [|done]. split; [done|].
    by apply Forall2_app; [|constructor].
  - destruct (record_accepts kind children r field tree Hn Hs Hf) as (r' & Hr & Hn').
    exists (BRecordFrame r'), observed. split; [simpl; rewrite Hr; by destruct field|]. split; [done|].
    rewrite decide_False; [done|]. intros ->. by destruct r.
Qed.

(** The path of a record whose parts are well-formed. *)
Lemma push_segments_valid p segments :
  Forall (grammar Segment) segments ->
  push_segments_owned p segments = Ok (mkPath (path_cluster p) (path_scheme p) (path_segments p ++ segments)).
Proof.
  intros H. revert p. induction H as [|s segments Hs _ IH]; intros p; simpl.
  { rewrite app_nil_r. by destruct p. }
  unfold try_push. rewrite (proj2 (validate_segment_ok s)) by done. simpl.
  rewrite IH. simpl. by rewrite <- app_assoc.
Qed.

Lemma try_new_grammar s :
  grammar Scheme s -> try_new s = if decide (s = t "path") then Err ReservedScheme else Ok (mkPath None s []).
Proof.
  intros Hg. unfold try_new. destruct s as [|c s]; [done|].
  unfold is_scheme_ident. rewrite unreserved_ascii by by eapply grammar_unreserved.
  rewrite (proj2 (contains_false "/" (c :: s))) by by apply scheme_no_slash.
  by rewrite (proj2 (is_ok_grammar (c :: s) Scheme)) by done.
Qed.

Lemma record_path_spec cluster scheme segments :
  (forall c, cluster = Some c -> grammar Cluster c) -> grammar Scheme scheme ->
  Forall (grammar Segment) segments ->
  record_path cluster scheme segments =
    if bool_decide (scheme = t "path") then Err (BuilderInvariant (t "path scheme"))
    else Ok (mkPath cluster scheme segments).
Proof.
  intros Hc Hs Hsegs. unfold record_path. rewrite try_new_grammar by done.
  destruct (decide (scheme = t "path")); [by rewrite bool_decide_true|]. rewrite bool_decide_false by done.
  simpl. destruct cluster as [c|]; simpl; [|by apply push_segments_valid].
  unfold try_with_cluster. rewrite (proj2 (validate_cluster_ident_ok c)) by by apply Hc. simpl.
  by apply push_segments_valid.
Qed.

(** A path record with the scheme that texts reserve. *)
Definition reserved (tree : Tree) : bool :=
  match tree with
  | NodeTree KPath [_; DataTree KString s; _] => bool_decide (s = t "path")
  | _ => false
  end.

Lemma optional_text_rep s tree :
  optional_rep text_rep s tree -> tree = optional_tree s /\ from_option is_utf8 true s = true.
Proof. by destruct s. Qed.

Lemma optional_name_rep kind s tree :
  optional_rep (name_rep kind) s tree ->
  tree = optional_tree s /\ forall name, s = Some name -> grammar kind name.
Proof. destruct s as [s|]; [|by intros ->]. intros [-> Hg]. split; [done|]. by intros ? [= <-]. Qed.

Lemma record_finishes kind children r :
  record_rep kind children r -> is_ok (vframe_finish (position kind children)) = true ->
  if reserved (NodeTree kind children) then record_finish r = Err (BuilderInvariant (t "path scheme"))
  else exists field, record_finish r = Ok field /\ field_rep field (NodeTree kind children).
Proof.
  intros Hr Hf.
  assert (len children = record_fields kind) as Hlen.
  { apply N.eqb_eq. destruct kind; try (by destruct r); unfold position, vframe_finish in Hf; simpl in *;
      by destruct (len children =? _). }
  destruct kind; try (by destruct r); simpl in Hlen;
    destruct children as [|a [|b [|c [|d children]]]]; unfold len in Hlen; simpl in Hlen; try lia;
    destruct r; try done; simpl in Hr; record_cases; unfold leaf_rep in *; subst.
  - apply optional_text_rep in H1 as [-> Hm]. destruct H as [-> Hh]. eexists; split; [done|].
    by eexists (mkBlob _ _ _).
  - destruct H as [-> Hb]. eexists; split; [done|]. eexists; split; [done|]. split; [done|by constructor].
  - destruct H as [-> Hb]. eexists; split; [done|]. eexists; split; [done|]. split; [done|by constructor].
  - destruct Hr as [-> Hs]. eexists; split; [done|]. eexists; split; [done|]. split; [done|by constructor].
  - destruct H as [-> Hs], H0 as [-> Hc]. eexists; split; [done|]. by eexists.
  - destruct Hr as [-> Hs]. eexists; split; [done|]. by eexists.
  - eexists; split; [done|]. by eexists.
  - apply optional_name_rep in H as [-> Hc]. destruct H0 as [-> Hs].
    simpl. rewrite record_path_spec by done. case_bool_decide; [done|]. simpl.
    eexists; split; [done|]. by eexists (mkPath _ _ _).
Qed.

Lemma rep_list {A} (tree : A -> Tree) (P : A -> Prop) xs trees :
  Forall2 (fun x t => t = tree x /\ P x) xs trees -> trees = tree <$> xs /\ Forall P xs.
Proof.
  induction 1 as [|x t xs trees [-> Hx] _ [-> IH]]; [by split|]. by split; [|constructor].
Qed.

Lemma list_finishes a children :
  node_rep KList children (BList a) -> len children <= usize_max ->
  value_rep (VList (assembly_finish a)) (NodeTree KList children).
Proof.
  intros (_ & vs & Hvs & Ha) Hlen. destruct (assembled_finish a vs Ha) as [Hm Hok].
  apply (rep_list value_tree value_ok) in Hvs as [-> Hvs]. unfold len in Hlen. rewrite length_fmap in Hlen.
  split; [by rewrite value_tree_list, <- Hm|].
  constructor; unfold list_ok, contents; rewrite Hm; [done|]. by apply list.Forall_forall.
Qed.

Lemma map_finishes a children :
  node_rep KMap children (BMap a None) -> len children <= usize_max ->
  value_rep (VMap (assembly_finish a)) (NodeTree KMap children).
Proof.
  intros (_ & es & Ha & Hes & -> & _) Hlen. simpl in *. rewrite app_nil_r in *.
  unfold len in Hlen. rewrite entry_trees_length in Hlen. rewrite list.Forall_forall in Hes.
  destruct (building_finish a es Ha) as [Hok Hm]; [unfold len; lia|].
  split; [by rewrite value_tree_map, Hm|]. constructor; [done|..]; rewrite Hm; intros k v He; apply (Hes (k, v) He).
Qed.

Lemma node_finishes kind children frame keys :
  node_rep kind children frame -> is_ok (vframe_finish (position kind children)) = true ->
  len children <= usize_max ->
  if reserved (NodeTree kind children) then bframe_finish frame keys = Err (BuilderInvariant (t "path scheme"))
  else exists field, bframe_finish frame keys = Ok field /\ field_rep field (NodeTree kind children).
Proof.
  intros Hn Hf Hlen. destruct frame as [value| | | | |a|a key|l|l|r]; try (by destruct Hn).
  - destruct Hn as [-> Hv]. unfold position, vframe_finish in Hf. simpl in Hf.
    destruct (N.eqb_spec (len children) 2) as [H2|]; [|done]. unfold len in H2.
    destruct children as [|x [|y [|]]]; simpl in H2; try lia. destruct value as [v|]; [|by destruct Hv].
    destruct Hv as [[trees ->] [-> Hv]]. eexists; split; [done|]. by exists trees, v.
  - simpl in Hn. subst kind. by eexists.
  - pose proof Hn as [-> _]. eexists; split; [done|]. eexists; split; [done|by apply list_finishes].
  - pose proof Hn as (-> & es & _ & _ & Hc & _). destruct key as [k|].
    + unfold position in Hf. rewrite Hc, length_app, entry_trees_length, Nat.even_add, Nat.even_mul in Hf. done.
    + eexists; split; [done|]. eexists; split; [done|by apply map_finishes].
  - destruct Hn as [-> Hn]. simpl. eexists; split; [done|]. by eexists.
  - destruct Hn as [-> Hn]. simpl. eexists; split; [done|]. eexists; split; [done|].
    apply (rep_list text_tree (grammar Segment)) in Hn as [-> Hn]. done.
  - by apply record_finishes.
Qed.

(** ** The sources recorded so far *)

Fixpoint recorded (opens : list Open) : list Tree :=
  match opens with
  | [OpenNode _ (NodeTree _ trees :: _)] => trees
  | [OpenNode KTaint trees; _] => trees
  | _ :: opens' => recorded opens'
  | [] => []
  end.

Lemma nested_taint trees opens :
  nested (OpenNode KTaint trees :: opens) -> opens = [OpenNode KDocument []].
Proof.
  intros [Hb Hn]. destruct opens as [|[kind children|] opens]; [by destruct Hb as [? [=]]| |by destruct Hb].
  destruct Hb as [_ (role & pos & Hb)].
  assert (kind = KDocument /\ children = []) as [-> ->].
  { destruct (decide (3 <= len children)) as [Hlen|Hlen].
    { destruct kind; unfold position, vframe_begin in Hb; try rewrite record_begin_end in Hb by done; simpl in Hb;
        try done. by destruct (Nat.even _). }
    destruct children as [|a [|b [|c children]]]; [by destruct kind..|unfold len in Hlen; simpl in Hlen; lia]. }
  destruct opens as [|[pk pc|] opens]; [done| |by destruct Hn].
  destruct Hn as [[_ (? & ? & Hd)] _]. exfalso. by apply vframe_begin_child in Hd.
Qed.

Lemma recorded_below open parent opens :
  open_kind open <> KTaint -> recorded (open :: parent :: opens) = recorded (parent :: opens).
Proof. intros Hk. by destruct open as [[] children|], opens; try done; destruct children as [|[]]. Qed.

Lemma recorded_taint trees document : recorded [OpenNode KTaint trees; document] = trees.
Proof. by destruct trees as [|[] ?]. Qed.

Definition head_trees (tree : Tree) : list Tree :=
  match tree with NodeTree _ trees => trees | _ => [] end.

(** What the machine has recorded once a tree is complete, before it is attached. *)
Definition recorded_with (tree : Tree) (opens : list Open) : list Tree :=
  match opens with
  | [OpenNode KDocument []] => head_trees tree
  | _ => recorded opens
  end.

Lemma recorded_with_deep tree open parent opens :
  recorded_with tree (open :: parent :: opens) = recorded (open :: parent :: opens).
Proof. by destruct open as [[] []|]. Qed.

Lemma recorded_end open parent opens tree :
  nested (open :: parent :: opens) ->
  head_trees tree = match open with OpenNode _ children => children | _ => [] end ->
  recorded (open :: parent :: opens) = recorded_with tree (parent :: opens).
Proof.
  intros [Hb Hn] Ht. destruct (decide (open_kind open = KTaint)) as [Hk|Hk].
  - destruct open as [kind trees|kind role bytes]; simpl in Hk; subst kind.
    + assert (parent :: opens = [OpenNode KDocument []]) as [= -> ->] by (by apply (nested_taint trees)).
      by rewrite recorded_taint.
    + destruct parent; [by destruct Hb|done].
  - rewrite recorded_below by done. destruct opens as [|]; [|by rewrite recorded_with_deep].
    destruct Hn as [[children ->] _]. destruct children as [|]; [|done].
    destruct open; simpl in Hb, Hk; destruct Hb as (_ & Hb); record_cases; by destruct kind.
Qed.

Lemma recorded_attach kind children tree opens :
  nested (OpenNode kind children :: opens) -> stands kind children tree ->
  recorded (OpenNode kind (children ++ [tree]) :: opens) =
    if decide (kind = KTaint) then recorded (OpenNode kind children :: opens) ++ [tree]
    else recorded_with tree (OpenNode kind children :: opens).
Proof.
  intros Hn Hs. case_decide as Hk.
  - subst kind. by rewrite (nested_taint _ _ Hn), !recorded_taint.
  - destruct opens as [|parent opens].
    + destruct Hn as [[? [= -> _]] _]. destruct children as [|]; [|done].
      by destruct tree as [[]|[] bytes|[] trees]; simpl in Hs; record_cases.
    + by rewrite recorded_with_deep, !recorded_below.
Qed.

(** ** The session *)

Definition open_rep (key : option N) (open : Open) (frame : BFrame) : Prop :=
  match open with
  | OpenNode kind children => node_rep kind children frame
  | OpenData KString _ bytes => frame = BString bytes
  | OpenData KBytes _ bytes => frame = BBytes bytes
  | OpenData KKey _ _ => exists id, key = Some id /\ frame = BKey id
  | OpenData _ _ _ => False
  end.

Record builds (key : option N) (opens : list Open) (frames : list BFrame) (observed : TaintSet) : Prop := {
  builds_nested : nested opens;
  builds_frames : Forall2 (open_rep key) opens frames;
  builds_sources : Forall source_ok (sources observed);
  builds_recorded : recorded opens = source_tree <$> sources observed
}.

(** What the builder has once the machine has read so much; [key] is the key being read. *)
Definition built (key : option N) (reading : Reading) (frames : list BFrame) (completed : option Value)
    (observed : TaintSet) : Prop :=
  match reading with
  | Reads opens => builds key opens frames observed /\ completed = None
  | Read tree => frames = [] /\ exists v, completed = Some v /\
      tainted_ok (mkTainted v observed) /\ tree = document_tree (mkTainted v observed)
  end.

Lemma sources_push observed source :
  sources (push_recorded_source observed source) = sources observed ++ [source].
Proof. unfold push_recorded_source, sources. by destruct (taint_sources observed). Qed.

Lemma open_rep_key key key' parent opens frames :
  nested (parent :: opens) -> Forall2 (open_rep key) opens frames -> Forall2 (open_rep key') opens frames.
Proof.
  intros Hn H. revert parent Hn. induction H as [|open frame opens frames Ho _ IH]; intros parent Hn; [done|].
  destruct Hn as [Hb Hn]. constructor; [|by eapply IH]. destruct open; [done|by destruct Hb].
Qed.

(** A completed field is accepted by the frame that is open. *)
Lemma builds_attach key key' kind children opens frames tree field observed v ad keys completed :
  nested (OpenNode kind children :: opens) ->
  Forall2 (open_rep key) (OpenNode kind children :: opens) frames ->
  Forall source_ok (sources observed) ->
  recorded_with tree (OpenNode kind children :: opens) = source_tree <$> sources observed ->
  stands kind children tree -> field_rep field tree -> len children < usize_max ->
  exists frames' observed',
    session_accept field (mkSession v ad frames keys completed, observed) =
      Val tt (mkSession v ad frames' keys completed, observed') /\
    builds key' (OpenNode kind (children ++ [tree]) :: opens) frames' observed'.
Proof.
  intros Hn Hfr Hso Hre Hs Hf Hlen. apply Forall2_cons_inv_l in Hfr as (frame & rest & Hnode & Hfr & ->).
  destruct (node_accepts kind children frame field tree observed Hnode Hs Hf Hlen)
    as (frame' & observed' & Ha & Hnode' & Hobs).
  exists (frame' :: rest), observed'. split.
  { unfold session_accept, get_session, put_frames, put_session, lift_result, bind, gets, modify. simpl.
    by rewrite Ha. }
  pose proof (recorded_attach kind children tree opens Hn Hs) as Hre'.
  split; [by eapply nested_grown|constructor; [done|by eapply open_rep_key]|..]; case_decide.
  - destruct Hobs as (source & -> & -> & Hok). rewrite sources_push. by apply list.Forall_app; split; [|constructor].
  - by subst.
  - destruct Hobs as (source & -> & -> & Hok). rewrite Hre', sources_push, fmap_app.
    f_equal. rewrite <- Hre. subst kind. by rewrite (nested_taint _ _ Hn).
  - by rewrite Hre', Hre, Hobs.
Qed.

Lemma tree_tokens_some tree : 1 <= len (tree_tokens tree).
Proof. destruct tree; unfold len; simpl; lia. Qed.

Lemma children_bound kind children opens :
  len children < len (rendered (Reads (OpenNode kind children :: opens))).
Proof.
  rewrite rendered_cons. simpl.
  assert (len children <= len (concat (tree_tokens <$> children))) as H.
  { induction children as [|tree children IH]; [done|]. pose proof (tree_tokens_some tree).
    unfold len in *. cbn [fmap list_fmap concat length] in *. rewrite length_app. lia. }
  unfold len in *. rewrite length_app. cbn [length]. lia.
Qed.

(** Whether an event ends a path with the reserved scheme. *)
Definition ends_reserved (reading : Reading) (e : Event) : bool :=
  match reading, e with
  | Reads (OpenNode kind children :: _), EEnd _ => reserved (NodeTree kind children)
  | _, _ => false
  end.

(** What the session does with an event that the validator has accepted. *)
Definition event_built (reading reading' : Reading) (e : Event) (v' : Validator) (ad : Admission)
    (frames : list BFrame) (keys' : Keys) (completed : option Value) (observed : TaintSet) : Prop :=
  let outcome := session_event e (mkSession v' ad frames keys' completed, observed) in
  if ends_reserved reading e then exists x s, outcome = Throw x s
  else exists frames' keys'' completed' observed',
    outcome = Val tt (mkSession v' ad frames' keys'' completed', observed') /\
    keys_entries keys'' = keys_entries keys' /\ keys_created keys'' = None /\
    built (top_key (v_frames v')) reading' frames' completed' observed'.

Lemma assembled_new `{Leaf M X} : assembled (@assembly_new M X) [].
Proof. by repeat split. Qed.

Lemma node_new kind keys :
  is_data kind = false ->
  exists frame, bframe_new kind keys = Ok (frame, keys) /\ node_rep kind [] frame.
Proof.
  destruct kind; intros Hd; try done; eexists; (split; [done|]); try (by repeat split).
  - split; [done|]. exists []. split; [done|]. apply assembled_new.
  - split; [done|]. exists []. split; [split; [apply assembled_new|constructor]|]. by repeat split.
Qed.

(** The frame of a record that begins; a key takes the one just created. *)
Lemma frame_new child role frames v' keys' :
  noted (EBegin child) frames v' keys' ->
  exists frame keys'', bframe_new child keys' = Ok (frame, keys'') /\
    keys_entries keys'' = keys_entries keys' /\ keys_created keys'' = None /\
    open_rep (top_key (v_frames v')) (open_new child role) frame.
Proof.
  intros Hnoted. unfold open_new. destruct (is_data child) eqn:Hd.
  - unfold noted in Hnoted. case_decide as He.
    + injection He as ->. destruct Hnoted as (key & fs & Hfs & Hkey). simpl in Hkey.
      exists (BKey (key_id (kf_current key))), (mkKeys (keys_entries keys') None).
      simpl. unfold keys_take_created. rewrite Hkey. split_and!; [done..|]. rewrite Hfs. by eexists.
    + destruct Hnoted as [Hr _]. destruct child; try done; by eexists _, keys'.
  - destruct (node_new child keys' Hd) as (frame & Hnew & Hrep). exists frame, keys'.
    split; [done|]. split; [done|]. split; [|done]. unfold noted in Hnoted.
    rewrite decide_False in Hnoted; [apply Hnoted|]. by intros [= ->].
Qed.

Lemma builds_begin key key' kind children opens child role pos frames observed frame :
  builds key (OpenNode kind children :: opens) frames observed ->
  vframe_begin (position kind children) child = Ok (role, pos) ->
  open_rep key' (open_new child role) frame ->
  builds key' (open_new child role :: OpenNode kind children :: opens) (frame :: frames) observed.
Proof.
  intros [Hn Hfr Hso Hre] Hb Hrep.
  assert (nested (open_new child role :: OpenNode kind children :: opens)) as Hn'.
  { split; [|done]. unfold open_new. destruct (is_data child) eqn:Hd; simpl; eauto. }
  split; [done|constructor; [done|by eapply open_rep_key]|done|].
  destruct (decide (open_kind (open_new child role) = KTaint)) as [Hk|Hk]; [|by rewrite recorded_below].
  unfold open_new in *. destruct (is_data child) eqn:Hd; simpl in Hk; subst child; [done|].
  pose proof (nested_taint _ _ Hn') as [= -> -> ->]. done.
Qed.

Lemma begin_built limit reading reading' child v v' ad frames keys' completed observed :
  read limit reading (EBegin child) = Some reading' ->
  built (top_key (v_frames v)) reading frames completed observed ->
  noted (EBegin child) (v_frames v) v' keys' ->
  event_built reading reading' (EBegin child) v' ad frames keys' completed observed.
Proof.
  intros Hread Hb Hnoted. unfold event_built. replace (ends_reserved reading (EBegin child)) with false
    by by destruct reading as [[|[]]|].
  assert (forall role, exists frame keys'', bframe_new child keys' = Ok (frame, keys'') /\
    keys_entries keys'' = keys_entries keys' /\ keys_created keys'' = None /\
    open_rep (top_key (v_frames v')) (open_new child role) frame) as Hnew by (intros; by eapply frame_new).
  assert (forall frame keys'', bframe_new child keys' = Ok (frame, keys'') ->
    session_event (EBegin child) (mkSession v' ad frames keys' completed, observed) =
      Val tt (mkSession v' ad (frame :: frames) keys'' completed, observed)) as Hevent.
  { intros frame keys'' H. unfold session_event, get_session, put_session, lift_result, bind, gets, modify.
    simpl. by rewrite H. }
  destruct reading as [[|[kind children|] opens]|tree]; try done.
  - destruct child; try done. simpl in Hread. case_guard; simplify_eq/=.
    destruct (Hnew None) as (frame & keys'' & Hf & He & Hc & Hrep). exists (frame :: frames), keys'', completed, observed.
    split; [by apply Hevent|]. split; [done|]. split; [done|]. destruct Hb as [[_ Hfr Hso Hre] ->].
    apply Forall2_nil_inv_l in Hfr as ->. split; [|done]. split; [by split; [eexists|]|by repeat constructor|done|done].
  - simpl in Hread. destruct (vframe_begin _ _) as [[role pos]|] eqn:Hbegin; [|done]. case_guard; simplify_eq/=.
    destruct (Hnew role) as (frame & keys'' & Hf & He & Hc & Hrep).
    exists (frame :: frames), keys'', completed, observed. destruct Hb as [Hb ->].
    split; [by apply Hevent|]. split; [done|]. split; [done|]. split; [|done]. by eapply builds_begin.
Qed.

Lemma noted_ready e frames v keys :
  noted e frames v keys -> e <> EBegin KKey -> keys_created keys = None /\
    (top_key frames = None \/ current_key (v_frames v) = top_key frames).
Proof. intros Hn He. unfold noted in Hn. by rewrite decide_False in Hn. Qed.

Lemma atom_built limit reading reading' atom v v' ad frames keys' completed observed :
  read limit reading (EAtom atom) = Some reading' ->
  built (top_key (v_frames v)) reading frames completed observed ->
  noted (EAtom atom) (v_frames v) v' keys' -> len (rendered reading) <= usize_max ->
  event_built reading reading' (EAtom atom) v' ad frames keys' completed observed.
Proof.
  intros Hread Hb Hnoted Hlen. apply noted_ready in Hnoted as [Hr _]; [|done].
  destruct reading as [[|[kind children|] opens]|tree]; try done. unfold event_built. simpl.
  simpl in Hread. case_guard as Ha; simplify_eq/=. destruct Hb as [[Hn Hfr Hso Hre] ->].
  pose proof (children_bound kind children opens).
  destruct (builds_attach (top_key (v_frames v)) (top_key (v_frames v')) kind children opens frames (LeafTree atom)
    (FieldAtom atom) observed v' ad keys' None) as (frames' & observed' & Hacc & Hb'); try done; [|lia|].
  - rewrite <- Hre. destruct opens as [|]; [|by rewrite recorded_with_deep]. destruct Hn as [[? [= -> _]] _].
    by destruct children, atom.
  - by exists frames', keys', None, observed'.
Qed.

Lemma data_built limit reading reading' more v v' ad frames keys' completed observed n :
  read limit reading (EData more) = Some reading' ->
  built (top_key (v_frames v)) reading frames completed observed ->
  follows limit reading' v' (keys_entries keys') n -> noted (EData more) (v_frames v) v' keys' ->
  event_built reading reading' (EData more) v' ad frames keys' completed observed.
Proof.
  intros Hread Hb Hfol Hnoted. apply noted_ready in Hnoted as [Hr Hkey]; [|done].
  destruct reading as [[|[kind children|kind role bytes] opens]|tree]; try done. unfold event_built. simpl.
  simpl in Hread. case_guard as Ha; simplify_eq/=. destruct Hb as [[Hn Hfr Hso Hre] ->].
  apply Forall2_cons_inv_l in Hfr as (frame & rest & Hrep & Hfr & ->).
  assert (exists frame', bframe_data frame more = Ok frame' /\
    open_rep (top_key (v_frames v')) (OpenData kind role (bytes ++ more)) frame') as (frame' & Hd & Hrep').
  { destruct kind; simpl in Hrep; try done; [by subst frame; eexists..|].
    destruct Hrep as (id & Hid & ->). exists (BKey id). split; [done|]. exists id. split; [|done].
    destruct (follows_frames _ _ _ _ _ Hfol) as [Hrel _]. simpl in Hrel.
    destruct (v_frames v') as [|f fs]; [done|]. destruct Hrel as [(_ & ? & ? & ? & ? & ? & _ & _ & _ & _ & ->) _].
    rewrite Hid in Hkey. destruct Hkey as [|Hkey]; [done|]. exact Hkey. }
  exists (frame' :: rest), keys', None, observed. split.
  { unfold session_event, put_frames, put_session, get_session, lift_result, bind, gets, modify. simpl. by rewrite Hd. }
  split; [done|]. split; [done|]. split; [|done]. split; [by eapply nested_grown_data|constructor; [done|by eapply open_rep_key]|done|].
  rewrite <- Hre. destruct opens as [|parent opens]; [by destruct Hn as [[? [=]] _]|].
  destruct (decide (kind = KTaint)) as [->|Hk]; [by destruct parent, Hn as [Hn _]; destruct Hn|].
  by rewrite !recorded_below.
Qed.

(** A completed tree goes to its parent, or completes the document. *)
Lemma completed_built key key' open opens frames observed tree field reading' v' ad keys' :
  builds key (open :: opens) frames observed ->
  attach tree opens = Some reading' -> field_rep field tree ->
  head_trees tree = match open with OpenNode _ children => children | _ => [] end ->
  match opens with OpenNode kind children :: _ => stands kind children tree | _ => True end ->
  (exists bytes, tree = DataTree (open_kind open) bytes) \/ tree = NodeTree (open_kind open) (head_trees tree) ->
  len (rendered (Reads (open :: opens))) <= usize_max ->
  exists frames' completed' observed',
    session_accept field (mkSession v' ad (tail frames) keys' None, observed) =
      Val tt (mkSession v' ad frames' keys' completed', observed') /\
    built key' reading' frames' completed' observed'.
Proof.
  intros [Hn Hfr Hso Hre] Hattach Hf Hhead Hs Htree Hlen.
  apply Forall2_cons_inv_l in Hfr as (frame & rest & _ & Hfr & ->). simpl.
  destruct opens as [|[kind children|] opens]; [| |done].
  - simpl in Hattach. injection Hattach as <-. destruct Hn as [[children ->] _]. simpl in Htree, Hhead.
    destruct Htree as [[bytes ->]|Htree]; [by destruct Hf|]. rewrite Hhead in Htree. subst tree.
    destruct Hf as (trees & v & -> & -> & Hv). apply Forall2_nil_inv_l in Hfr as ->.
    exists [], (Some v), observed. split; [done|]. split; [done|]. exists v. split; [done|].
    split; [done|]. simpl in Hre. subst trees. done.
  - simpl in Hattach. injection Hattach as <-. rewrite (recorded_end _ _ _ tree Hn Hhead) in Hre.
    destruct Hn as [_ Hn]. pose proof (children_bound kind children opens).
    rewrite rendered_cons in Hlen.
    destruct (builds_attach key key' kind children opens rest tree field observed v' ad keys' None)
      as (frames' & observed' & Hacc & Hb'); try done.
    { unfold len in *. rewrite length_app in Hlen. lia. }
    by exists frames', None, observed'.
Qed.

Lemma end_event e frame rest keys v' ad completed observed kind :
  e = EEnd kind ->
  session_event e (mkSession v' ad (frame :: rest) keys completed, observed) =
    match bframe_finish frame keys with
    | Ok field => session_accept field (mkSession v' ad rest keys completed, observed)
    | Err x => Throw x (mkSession v' ad rest keys completed, observed)
    end.
Proof.
  intros ->. unfold session_event, put_frames, put_session, get_session, lift_result, bind, gets, modify. simpl.
  by destruct (bframe_finish frame keys).
Qed.

Lemma end_node_built limit kind children opens reading' ending v v' ad frames keys' completed observed :
  let reading := Reads (OpenNode kind children :: opens) in
  read limit reading (EEnd ending) = Some reading' ->
  built (top_key (v_frames v)) reading frames completed observed ->
  noted (EEnd ending) (v_frames v) v' keys' -> len (rendered reading) <= usize_max ->
  event_built reading reading' (EEnd ending) v' ad frames keys' completed observed.
Proof.
  intros reading Hread [Hb ->] Hnoted Hlen. apply noted_ready in Hnoted as [Hr _]; [|done].
  cbn [read reading] in Hread. case_guard as Hend; [|done]. destruct Hend as [<- Hfin].
  pose proof Hb as [Hn Hfr _ _]. apply Forall2_cons_inv_l in Hfr as (frame & rest & Hrep & Hfr & Heq). simpl in Hrep.
  pose proof (children_bound kind children opens). fold reading in H.
  pose proof (node_finishes kind children frame keys' Hrep Hfin) as Hf. specialize (Hf ltac:(lia)).
  unfold event_built. cbn [ends_reserved reading]. rewrite Heq, (end_event _ _ _ _ _ _ _ _ kind) by done.
  destruct (reserved (NodeTree kind children)); [rewrite Hf; by do 2 eexists|].
  destruct Hf as (field & -> & Hf).
  destruct (completed_built (top_key (v_frames v)) (top_key (v_frames v')) (OpenNode kind children) opens frames
    observed (NodeTree kind children) field reading' v' ad keys') as (frames' & completed' & observed' & Hacc & Hb');
    try done; [|by right|].
  - destruct opens as [|[pk pc|] opens]; try done. destruct Hn as [[_ Hbegin] _]. exact Hbegin.
  - subst frames. by exists frames', keys', completed', observed'.
Qed.

(** The key that has just ended is still in the workspace. *)
Lemma key_kept limit kind children opens bytes v' view n id :
  follows limit (Reads (OpenNode kind (children ++ [DataTree KKey bytes]) :: opens)) v' view n ->
  current_key (v_frames v') = Some id -> view !! id = Some bytes.
Proof.
  intros Hfol Hkey. destruct (follows_frames _ _ _ _ _ Hfol) as [Hrel _]. simpl in Hrel.
  destruct (v_frames v') as [|f fs]; [done|]. destruct Hrel as [Hnode _].
  destruct kind; simpl in Hnode; try done; try (by subst f).
  destruct Hnode as ([key|] & Hp & ->); [|done]. simpl in Hkey. injection Hkey as <-.
  destruct Hp as (s & Hlast & Hview & _). rewrite last_key_snoc in Hlast. by injection Hlast as <-.
Qed.

Lemma end_data_built limit kind role bytes opens reading' ending v v' ad frames keys' completed observed n :
  let reading := Reads (OpenData kind role bytes :: opens) in
  read limit reading (EEnd ending) = Some reading' ->
  built (top_key (v_frames v)) reading frames completed observed ->
  follows limit reading' v' (keys_entries keys') n ->
  noted (EEnd ending) (v_frames v) v' keys' -> len (rendered reading) <= usize_max ->
  event_built reading reading' (EEnd ending) v' ad frames keys' completed observed.
Proof.
  intros reading Hread [Hb ->] Hfol Hnoted Hlen. apply noted_ready in Hnoted as [Hr Hkey]; [|done].
  cbn [read reading] in Hread. case_guard as Hend; [|done]. destruct Hend as [<- Hfin].
  pose proof Hb as [Hn Hfr _ _]. apply Forall2_cons_inv_l in Hfr as (frame & rest & Hrep & Hfr & Heq).
  unfold event_built. cbn [ends_reserved reading]. rewrite Heq, (end_event _ _ _ _ _ _ _ _ kind) by done.
  assert (kind = KBytes \/ is_utf8 bytes = true) as Hutf8.
  { pose proof Hfin as Hd. unfold data_complete in Hd. rewrite !andb_true_iff, orb_true_iff, bool_decide_eq_true in Hd. tauto. }
  assert (exists field, bframe_finish frame keys' = Ok field /\ field_rep field (DataTree kind bytes))
    as (field & -> & Hf).
  { destruct kind; simpl in Hrep; try done; destruct Hutf8 as [|Hu]; try done.
    1-3: subst frame; simpl; unfold string_from_utf8; rewrite ?Hu; by eexists.
    destruct Hrep as (id & Hid & ->). rewrite Hid in Hkey. destruct Hkey as [|Hkey]; [done|].
    destruct opens as [|[pk pc|] opens]; [by destruct Hn as [[? [=]] _]| |done].
    simpl in Hread. injection Hread as <-. pose proof (key_kept _ _ _ _ _ _ _ _ _ Hfol Hkey) as Hview.
    simpl. unfold keys_text, string_from_utf8. rewrite Hview. simpl. rewrite Hu. by eexists. }
  destruct (completed_built (top_key (v_frames v)) (top_key (v_frames v')) (OpenData kind role bytes) opens frames
    observed (DataTree kind bytes) field reading' v' ad keys') as (frames' & completed' & observed' & Hacc & Hb');
    try done; [|by left; eexists|].
  - destruct opens as [|[pk pc|] opens]; try done. destruct Hn as [[_ [pos Hbegin]] _]. by exists role, pos.
  - subst frames. by exists frames', keys', completed', observed'.
Qed.

Lemma event_builds limit reading reading' e v v' ad frames keys' completed observed n :
  read limit reading e = Some reading' ->
  built (top_key (v_frames v)) reading frames completed observed ->
  follows limit reading' v' (keys_entries keys') n -> noted e (v_frames v) v' keys' ->
  len (rendered reading) <= usize_max ->
  event_built reading reading' e v' ad frames keys' completed observed.
Proof.
  intros Hread Hb Hfol Hnoted Hlen. destruct e as [child|ending|atom|more].
  - by eapply begin_built.
  - destruct reading as [[|[kind children|kind role bytes] opens]|tree]; try done.
    + by eapply end_node_built.
    + by eapply end_data_built.
  - by eapply atom_built.
  - by eapply data_built.
Qed.

(** ** Admission *)

Definition node_token (token : Token) : bool :=
  match token with TBegin _ | TAtom _ => true | _ => false end.
Definition byte_token (token : Token) : bool := match token with TByte _ => true | _ => false end.
Definition count (f : Token -> bool) (ts : list Token) : N := len (List.filter f ts).

Lemma count_app f a b : count f (a ++ b) = count f a + count f b.
Proof. unfold count, len. rewrite List.filter_app, length_app. lia. Qed.

Lemma count_bound f ts : count f ts <= len ts.
Proof. unfold count, len. pose proof (List.filter_length_le f ts). lia. Qed.

Definition units_fit (limits : MaterializationLimits) (ts : list Token) : bool :=
  within (max_nodes limits) (count node_token ts) && within (max_payload_bytes limits) (count byte_token ts).

(** The document is within the limits. *)
Definition fits (limits : MaterializationLimits) (ts : list Token) : bool :=
  units_fit limits ts && within (max_frames limits) (peak 0 ts).

Definition counted (limit : option N) (n used : N) : Prop :=
  forall l, limit = Some l -> used = n /\ n <= l.

Record admitted (limits : MaterializationLimits) (ts : list Token) (ad : Admission) : Prop := {
  admitted_limits : ad_limits ad = limits;
  admitted_nodes : counted (max_nodes limits) (count node_token ts) (ad_nodes ad);
  admitted_bytes : counted (max_payload_bytes limits) (count byte_token ts) (ad_payload_bytes ad)
}.

Lemma charge_counted used limit amount dimension n :
  counted limit n used -> n + amount <= u64_max ->
  if within limit (n + amount)
  then exists used', charge_units used limit amount dimension = Ok used' /\ counted limit (n + amount) used'
  else exists x, charge_units used limit amount dimension = Err x.
Proof.
  intros Hc Hle. unfold charge_units. destruct limit as [l|]; simpl; [|by exists used].
  destruct (Hc l eq_refl) as [-> Hn]. unfold checked_add. rewrite (proj2 (N.leb_le _ u64_max)) by done.
  destruct (N.leb_spec (n + amount) l); [|by eexists]. eexists. split; [done|]. by intros ? [= <-].
Qed.

Lemma within_less limit m n : m <= n -> within limit n = true -> within limit m = true.
Proof. destruct limit; simpl; [|done]. rewrite !N.leb_le. lia. Qed.

Lemma counted_within limit n used : counted limit n used -> within limit n = true.
Proof. destruct limit as [l|]; [|done]. intros H. apply N.leb_le. by destruct (H l eq_refl). Qed.

Lemma count_bytes bytes :
  count node_token (TByte <$> bytes) = 0 /\ count byte_token (TByte <$> bytes) = len bytes.
Proof.
  induction bytes as [|b bytes [IHn IHb]]; [done|]. cbn [fmap list_fmap].
  change (TByte b :: (TByte <$> bytes)) with ([TByte b] ++ (TByte <$> bytes)).
  rewrite !count_app, IHn, IHb, len_cons. split; [done|]. change (count byte_token [TByte b]) with 1. lia.
Qed.

(** An event that counts as a node, and a chunk of data. *)
Lemma admits_node limits ts ad e :
  admitted limits ts ad -> count node_token (ts ++ event_tokens e) <= u64_max ->
  count node_token (event_tokens e) = 1 -> count byte_token (event_tokens e) = 0 ->
  admission_admit ad e = (let? nodes := charge_units (ad_nodes ad) (max_nodes (ad_limits ad)) 1 DimNodes in
                          Ok (mkAdmission (ad_limits ad) (ad_payload_bytes ad) nodes))%result ->
  if units_fit limits (ts ++ event_tokens e)
  then exists ad', admission_admit ad e = Ok ad' /\ admitted limits (ts ++ event_tokens e) ad'
  else exists x, admission_admit ad e = Err x.
Proof.
  intros [Hl Hn Hb] Hle H1 H0 ->. unfold units_fit. rewrite count_app, H1 in Hle. rewrite !count_app, H1, H0, N.add_0_r.
  rewrite (counted_within _ _ _ Hb), andb_true_r, Hl.
  pose proof (charge_counted _ _ 1 DimNodes _ Hn Hle) as Hcharge. destruct (within (max_nodes limits) _).
  - destruct Hcharge as (used' & -> & Hc). eexists. split; [done|].
    split; [done|by rewrite count_app, H1|by rewrite count_app, H0, N.add_0_r].
  - destruct Hcharge as (x & ->). by exists x.
Qed.

Lemma admits_data limits ts ad bytes :
  admitted limits ts ad -> count byte_token (ts ++ event_tokens (EData bytes)) <= u64_max ->
  if units_fit limits (ts ++ event_tokens (EData bytes))
  then exists ad', admission_admit ad (EData bytes) = Ok ad' /\ admitted limits (ts ++ event_tokens (EData bytes)) ad'
  else exists x, admission_admit ad (EData bytes) = Err x.
Proof.
  intros [Hl Hn Hb] Hle. unfold units_fit. destruct (count_bytes bytes) as [H0 H1].
  cbn [event_tokens] in *. rewrite count_app, H1 in Hle. rewrite !count_app, H1, H0, N.add_0_r, (counted_within _ _ _ Hn).
  pose proof (charge_counted _ _ (len bytes) DimPayloadBytes _ Hb Hle) as Hcharge.
  simpl. rewrite Hl. destruct (max_payload_bytes limits) as [limit|] eqn:Hlimit; simpl in *.
  - destruct (_ <=? limit).
    + destruct Hcharge as (used' & -> & Hc). eexists. split; [done|].
      split; [done|by rewrite count_app, H0, N.add_0_r|by rewrite count_app, H1, Hlimit].
    + destruct Hcharge as (x & ->). by exists x.
  - eexists. split; [done|]. split; [done|by rewrite count_app, H0, N.add_0_r|by rewrite Hlimit].
Qed.

Lemma admission_admits limits ts ad e :
  admitted limits ts ad -> len (ts ++ event_tokens e) <= u64_max ->
  if units_fit limits (ts ++ event_tokens e)
  then exists ad', admission_admit ad e = Ok ad' /\ admitted limits (ts ++ event_tokens e) ad'
  else exists x, admission_admit ad e = Err x.
Proof.
  intros Had Hlen. pose proof (count_bound node_token (ts ++ event_tokens e)).
  pose proof (count_bound byte_token (ts ++ event_tokens e)).
  destruct e as [kind|kind|atom|bytes]; [apply admits_node; try done; lia| |apply admits_node; try done; lia|
    apply admits_data; [done|lia]].
  destruct Had as [Hl Hn Hb]. unfold units_fit. cbn [event_tokens]. rewrite !count_app.
  change (count _ [TEnd kind]) with 0. rewrite !N.add_0_r, (counted_within _ _ _ Hn), (counted_within _ _ _ Hb).
  exists ad. split; [done|]. by split; rewrite ?count_app; change (count _ [TEnd kind]) with 0; rewrite ?N.add_0_r.
Qed.

(** ** The whole builder *)

(** The session after the machine has read so much. *)
Record session_at (limits : MaterializationLimits) (reading : Reading) (s : Session) (observed : TaintSet)
    : Prop := {
  session_follows : follows (max_frames limits) reading (se_validator s) (keys_entries (se_keys s))
                      (len (rendered reading));
  session_ready : keys_created (se_keys s) = None;
  session_admitted : admitted limits (rendered reading) (se_admission s);
  session_built : built (top_key (v_frames (se_validator s))) reading (se_frames s) (se_completed s) observed
}.

(** Whether the builder goes on with an event. *)
Definition continues (limits : MaterializationLimits) (reading : Reading) (e : Event) : option Reading :=
  if units_fit limits (rendered reading ++ event_tokens e) && negb (ends_reserved reading e)
  then read (max_frames limits) reading e else None.

Lemma session_push_eq e s observed :
  session_push e (s, observed) =
    match admission_admit (se_admission s) e with
    | Err x => Throw x (s, observed)
    | Ok ad =>
        match drive_event e (se_validator s) (se_keys s) with
        | Val v' keys' => session_event e (mkSession v' ad (se_frames s) keys' (se_completed s), observed)
        | Throw (DriveValidation error) _ => Throw (BuilderValidation error) (s, observed)
        | Throw (DriveWorkspace error) _ => Throw error (s, observed)
        | Stop why => Stop why
        end
    end.
Proof.
  unfold session_push, get_session, put_session, lift_result, bind, gets, modify. simpl.
  destruct (admission_admit _ e); [|done]. simpl. by destruct (drive_event _ _ _) as [|[]|].
Qed.

Lemma session_pushes limits reading s observed e :
  session_at limits reading s observed -> len (rendered reading ++ event_tokens e) <= u64_max ->
  match continues limits reading e with
  | Some reading' => exists s' observed', session_push e (s, observed) = Val tt (s', observed') /\
      session_at limits reading' s' observed'
  | None => exists x s', session_push e (s, observed) = Throw x s'
  end.
Proof.
  intros [Hfol Hr Had Hb] Hlen. rewrite session_push_eq. unfold continues.
  pose proof (admission_admits limits _ _ e Had Hlen) as Hadmit.
  destruct (units_fit limits _); [|destruct Hadmit as [x ->]; by do 2 eexists].
  destruct Hadmit as (ad & -> & Had'). cbn [andb].
  assert (len (rendered reading ++ event_tokens e) = len (rendered reading) + len (event_tokens e)) as Hsum
    by (unfold len; rewrite length_app; lia).
  pose proof (drive_follows (max_frames limits) reading e (se_validator s) (se_keys s) _ 0 Hfol) as Hdrive.
  specialize (Hdrive ltac:(lia) Hr I). unfold simulated, wp in Hdrive.
  destruct (read (max_frames limits) reading e) as [reading'|] eqn:Hread; cycle 1.
  { replace (if negb (ends_reserved reading e) then None else None) with (@None Reading)
      by by destruct (ends_reserved reading e).
    destruct (drive_event e (se_validator s) (se_keys s)); try done. destruct Hdrive as [error ->]. by do 2 eexists. }
  destruct (drive_event e (se_validator s) (se_keys s)) as [v' keys'| |]; try done.
  destruct Hdrive as (Hfol' & _ & Hnoted).
  pose proof (event_builds _ _ _ _ _ _ ad _ _ _ _ _ Hread Hb Hfol' Hnoted) as He.
  specialize (He ltac:(unfold usize_max; lia)). unfold event_built in He.
  destruct (ends_reserved reading e); simpl.
  - destruct He as (x & s' & ->). by do 2 eexists.
  - destruct He as (frames' & keys'' & completed' & observed' & -> & Hk & Hkc & Hb').
    do 2 eexists. split; [done|]. pose proof (read_rendered _ _ _ _ Hread) as Hren.
    split; simpl; [by rewrite Hk, Hren, Hsum|done|by rewrite Hren|done].
Qed.

Lemma builder_push_eq e s observed :
  builder_push e (mkBuilder (Some s) observed None) =
    match session_push e (s, observed) with
    | Val _ (s', observed') => Val tt (mkBuilder (Some s') observed' None)
    | Throw x (_, observed') => Throw x (mkBuilder None observed' (Some x))
    | Stop why => Stop why
    end.
Proof. done. Qed.

Fixpoint continue_all (limits : MaterializationLimits) (reading : Reading) (es : list Event) : option Reading :=
  match es with
  | [] => Some reading
  | e :: es' => reading ← continues limits reading e; continue_all limits reading es'
  end.

Lemma builder_runs limits reading s observed es :
  session_at limits reading s observed -> len (rendered reading ++ tokens es) <= u64_max ->
  match continue_all limits reading es with
  | Some reading' => exists s' observed',
      for_each es builder_push (mkBuilder (Some s) observed None) = Val tt (mkBuilder (Some s') observed' None) /\
      session_at limits reading' s' observed'
  | None => exists x b, for_each es builder_push (mkBuilder (Some s) observed None) = Throw x b
  end.
Proof.
  revert reading s observed. induction es as [|e es IH]; intros reading s observed Hat Hlen.
  { by exists s, observed. }
  cbn [for_each continue_all].
  rewrite tokens_cons, app_assoc in Hlen.
  pose proof (session_pushes limits reading s observed e Hat) as Hpush.
  specialize (Hpush ltac:(unfold len in *; rewrite !length_app in *; lia)).
  unfold bind. rewrite builder_push_eq.
  destruct (continues limits reading e) as [reading'|] eqn:Hc; cbn [mbind option_bind]; cycle 1.
  { destruct Hpush as (x & [s' o'] & ->). by do 2 eexists. }
  destruct Hpush as (s' & observed' & -> & Hat'). apply IH; [done|].
  unfold continues in Hc. destruct (units_fit _ _ && _); [|done]. by rewrite (read_rendered _ _ _ _ Hc).
Qed.

Lemma session_starts limits :
  session_at limits (Reads []) (mkSession (validator_new (max_frames limits)) (admission_new limits) [] keys_default None)
    taint_pristine.
Proof.
  split; simpl.
  - split; simpl; try done; [by apply NoDup_nil|by exists 0].
  - done.
  - by split; simpl; [|intros ? _; split; [|apply N.le_0_l]..].
  - split; [|done]. by split; repeat constructor.
Qed.

Lemma materialize_reads limits es :
  len (tokens es) <= u64_max ->
  match continue_all limits (Reads []) es with
  | Some (Read tree) => exists tv, materialize limits es = Some (Ok tv) /\ tainted_ok tv /\ tree = document_tree tv
  | _ => exists x, materialize limits es = Some (Err x)
  end.
Proof.
  intros Hlen. pose proof (builder_runs limits (Reads []) _ _ es (session_starts limits)) as Hrun.
  specialize (Hrun Hlen). unfold materialize, builder_new, bind.
  destruct (continue_all limits (Reads []) es) as [reading|]; [|destruct Hrun as (x & b & ->); by eexists].
  destruct Hrun as (s & observed & -> & [Hfol Hr _ Hb]). unfold builder_finish. simpl.
  destruct Hfol as [Hfail _ Hfr Hkeys _ _ _ _].
  unfold validator_finish, validator_check, bind, gets. rewrite Hfail. simpl.
  destruct reading as [opens|tree].
  - destruct Hfr as [_ ->]. destruct opens; simpl; unfold validator_fail; rewrite Hfail; by eexists.
  - destruct Hfr as [Hv ->]. destruct Hb as (-> & v & -> & Hok & ->). rewrite Hv in Hkeys.
    apply dom_empty_inv_L in Hkeys. simpl. unfold keys_is_empty. rewrite Hkeys, Hr. by eexists.
Qed.

(** ** Reserved schemes *)

Fixpoint clean (tree : Tree) : bool :=
  match tree with
  | NodeTree kind children => negb (reserved (NodeTree kind children)) && forallb clean children
  | _ => true
  end.

Definition open_clean (open : Open) : bool :=
  match open with OpenNode _ children => forallb clean children | OpenData _ _ _ => true end.

Definition reading_clean (reading : Reading) : bool :=
  match reading with Reads opens => forallb open_clean opens | Read tree => clean tree end.

Lemma attach_clean tree opens reading :
  attach tree opens = Some reading -> reading_clean reading = forallb open_clean opens && clean tree.
Proof.
  destruct opens as [|[kind children|] opens]; simpl; [by intros [= <-]| |done]. intros [= <-]. simpl.
  rewrite forallb_app. simpl. rewrite andb_true_r.
  by destruct (forallb clean children), (clean tree), (forallb open_clean opens).
Qed.

(** A document that is clean had no reserved scheme at any time. *)
Lemma read_clean limit reading e reading' :
  read limit reading e = Some reading' -> reading_clean reading' = true ->
  reading_clean reading = true /\ ends_reserved reading e = false.
Proof.
  destruct reading as [[|[kind children|kind role bytes] opens]|tree]; [by destruct e| | |by destruct e].
  - destruct e as [child|ending|atom|]; simpl; [| | |done].
    + destruct (vframe_begin _ _) as [[role pos]|]; [|done]. intros H. case_guard; simplify_eq/=.
      rewrite !andb_true_iff. tauto.
    + intros H. case_guard; [|done]. apply attach_clean in H as ->. cbn [clean]. rewrite !andb_true_iff, negb_true_iff.
      tauto.
    + intros H. case_guard; simplify_eq/=. rewrite forallb_app. simpl. by rewrite andb_true_r.
  - destruct e as [|ending| |more]; simpl; [done| |done|]; intros H; (case_guard; [|done]).
    + apply attach_clean in H as ->. by rewrite andb_true_r.
    + by simplify_eq/=.
Qed.

Lemma units_fit_nil limits : units_fit limits [] = true.
Proof.
  unfold units_fit, count. simpl. destruct (max_nodes limits), (max_payload_bytes limits); simpl;
    rewrite ?(proj2 (N.leb_le _ _)) by apply N.le_0_l; done.
Qed.

Lemma units_fit_app limits a b : units_fit limits (a ++ b) = true -> units_fit limits a = true.
Proof.
  unfold units_fit. rewrite !count_app, !andb_true_iff. intros [Hn Hb].
  split; (eapply within_less; [|done]); lia.
Qed.

(** The builder goes on exactly as long as the document may be read, fits and is clean. *)
Lemma continue_all_reads limits reading es reading' :
  continue_all limits reading es = Some reading' -> units_fit limits (rendered reading) = true ->
  read_all (max_frames limits) reading es = Some reading' /\ units_fit limits (rendered reading') = true.
Proof.
  revert reading. induction es as [|e es IH]; intros reading; cbn [continue_all read_all]; [by intros [= ->]|].
  unfold continues. destruct (units_fit limits (_ ++ _)) eqn:Hfit; [|done].
  destruct (ends_reserved reading e); [done|]. simpl.
  destruct (read (max_frames limits) reading e) as [next|] eqn:He; [|done]. cbn [mbind option_bind]. intros H _.
  apply IH; [done|]. by rewrite (read_rendered _ _ _ _ He).
Qed.

Lemma reads_continue_all limits reading es reading' :
  read_all (max_frames limits) reading es = Some reading' -> units_fit limits (rendered reading') = true ->
  reading_clean reading' = true ->
  continue_all limits reading es = Some reading' /\ reading_clean reading = true.
Proof.
  revert reading. induction es as [|e es IH]; intros reading; cbn [continue_all read_all]; [by intros [= ->]|].
  destruct (read (max_frames limits) reading e) as [next|] eqn:He; [|done]. cbn [mbind option_bind]. intros H Hfit Hclean.
  destruct (IH next H Hfit Hclean) as [Hall Hnext]. destruct (read_clean _ _ _ _ He Hnext) as [Hreading Hend].
  split; [|done]. rewrite (read_all_rendered _ _ _ _ H) in Hfit. apply units_fit_app in Hfit.
  unfold continues. rewrite <- (read_rendered _ _ _ _ He), Hfit, Hend. simpl. by rewrite He.
Qed.

Lemma forallb_fmap {A} (tree : A -> Tree) xs :
  (forall x, x ∈ xs -> clean (tree x) = true) -> forallb clean (tree <$> xs) = true.
Proof.
  intros H. induction xs as [|x xs IH]; [done|]. simpl. rewrite (H x) by left. simpl.
  apply IH. intros y Hy. apply H. by right.
Qed.

Lemma value_clean v : value_ok v -> clean (value_tree v) = true.
Proof.
  induction 1 as [| | | | | |l Hl Hvs IH|m Hm Hus Hes IH|b|x|f| |]; try done.
  - rewrite value_tree_list. simpl. by apply forallb_fmap.
  - rewrite value_tree_map. simpl. clear Hm Hus Hes. revert IH. generalize (entries m) as es.
    induction es as [|[k v] es IHe]; intros IH; [done|]. simpl. rewrite (IH k v) by left. simpl.
    apply IHe. intros k' v' Hin. apply (IH k'). by right.
  - simpl. by destruct (blob_mime b).
  - destruct x as [b dtype shape]. simpl. rewrite forallb_fmap by done. by destruct (blob_mime b).
  - destruct f as [b ts kind]. simpl. by destruct (blob_mime b).
Qed.

Lemma document_clean tv : tainted_ok tv -> clean (document_tree tv) = true.
Proof.
  intros [Hv Hs]. simpl. rewrite value_clean, andb_true_r by done. rewrite list.Forall_forall in Hs.
  apply forallb_fmap. intros source Hin. specialize (Hs source Hin).
  destruct source as [| | | |p]; try done. simpl in *. destruct Hs as (_ & _ & Hp & _).
  rewrite bool_decide_false by done. simpl. rewrite forallb_fmap by done. by destruct (path_cluster p).
Qed.

Lemma reads_tokens tv es :
  tainted_ok tv -> tokens es = tree_tokens (document_tree tv) -> placed false es = true ->
  read_all None (Reads []) es = Some (Read (document_tree tv)).
Proof.
  intros Hok Ht Hp. pose proof (reads_document tv Hok) as Hread.
  assert (placed false (tree_events (document_tree tv)) = true) as Hp'
    by exact (read_all_placed _ _ _ _ Hread).
  rewrite read_chunks in Hread by done. rewrite read_chunks by done.
  by rewrite Ht, <- tree_events_tokens.
Qed.

(** The documents that can be built. *)
Definition document_of (limits : MaterializationLimits) (es : list Event) (tv : TaintedValue) : Prop :=
  tainted_ok tv /\ tokens es = tree_tokens (document_tree tv) /\ placed false es = true /\
  fits limits (tokens es) = true.

(** ** Theorems *)

(** C7. Materialisation accepts exactly the documents of well-formed values
    within its limits, however their data is cut into chunks. It builds a well-formed value with
    provenance whose document is the one it was given. It never panics or diverges. *)
Theorem builder_accepts_exactly limits es :
  len (tokens es) <= u64_max ->
  match materialize limits es with
  | Some (Ok tv) => document_of limits es tv
  | Some (Err _) => ~ exists tv, document_of limits es tv
  | None => False
  end.
Proof.
  intros Hlen. pose proof (materialize_reads limits es Hlen) as Hm.
  assert (forall tv, document_of limits es tv ->
    continue_all limits (Reads []) es = Some (Read (document_tree tv))) as Hcomplete.
  { intros tv (Hok & Ht & Hp & Hfit). unfold fits in Hfit. apply andb_prop in Hfit as [Hu Hw].
    apply (reads_continue_all limits (Reads []) es (Read (document_tree tv))); [|by rewrite Ht in Hu|].
    - rewrite read_all_within, Hw. by apply reads_tokens.
    - by apply document_clean. }
  destruct (continue_all limits (Reads []) es) as [[opens|tree]|] eqn:Hc.
  - destruct Hm as [x ->]. intros [tv Htv]. by specialize (Hcomplete tv Htv).
  - destruct Hm as (tv & -> & Hok & ->). apply continue_all_reads in Hc as [Hread Hu].
    + pose proof (read_all_rendered _ _ _ _ Hread) as Ht. pose proof (read_all_placed _ _ _ _ Hread) as Hp.
      rewrite Ht in Hu. rewrite read_all_within in Hread. destruct (within _ _) eqn:Hw; [|done].
      split_and!; [done|done|done|]. unfold fits. rewrite Hw, andb_true_r. exact Hu.
    + apply units_fit_nil.
  - destruct Hm as [x ->]. intros [tv Htv]. by specialize (Hcomplete tv Htv).
Qed.

(** A document with a structured path whose scheme is the reserved one. *)
Definition reserved_events : list Event :=
  [EBegin KDocument; EBegin KTaint; EBegin KProtected; EBegin KPath; EAtom ANull;
   EBegin KString; EData (t "path"); EEnd KString; EBegin KPathSegments; EEnd KPathSegments;
   EEnd KPath; EEnd KProtected; EEnd KTaint; EAtom ANull; EEnd KDocument].

(** C28. The validator and the builder disagree about a structured path with
    the reserved scheme: the document is in the grammar and the validator accepts it to its end,
    but the builder reports a broken invariant of its own. *)
Theorem reserved_scheme_breaks_the_builder :
  (exists tree, document_form tree /\ tokens reserved_events = tree_tokens tree) /\
  (exists s, @validate_events _ _ (memory_workspace (fun n => n)) None reserved_events
               (store_new (mkKeyOptions 16 None None)) = Val tt s) /\
  materialize (mkLimits None None None) reserved_events = Some (Err (BuilderInvariant (t "path scheme"))).
Proof.
  split; [|split; [eexists|]; vm_compute; reflexivity].
  destruct (read_all None (Reads []) reserved_events) as [[|tree]|] eqn:Hread; [by vm_compute in Hread| |by vm_compute in Hread].
  apply reads_grammatical in Hread as (Hg%grammatical_form & Ht & _). by exists tree.
Qed.

(** ** Witnesses *)

(** A list from a protected path, whose text comes in two chunks. *)
Definition sample_limits : MaterializationLimits := mkLimits (Some 60) (Some 30) (Some 6).
Definition sample_value : TaintedValue :=
  mkTainted (VList (list_from [VInt 7%Z; VStr (t "deep")]))
    (mkTaintSet (Some [ModelOutput; Protected (mkPath None (t "secret") [t "keys"])])).
Definition sample_events : list Event :=
  [EBegin KDocument; EBegin KTaint; EAtom AModel; EBegin KProtected; EBegin KPath; EAtom ANull;
   EBegin KString; EData (t "sec"); EData (t "ret"); EEnd KString;
   EBegin KPathSegments; EBegin KString; EData (t "keys"); EEnd KString; EEnd KPathSegments;
   EEnd KPath; EEnd KProtected; EEnd KTaint;
   EBegin KList; EAtom (AI64 7%Z); EBegin KString; EData (t "de"); EData []; EData (t "ep"); EEnd KString; EEnd KList;
   EEnd KDocument].

Lemma builder_accepts_exactly_witness :
  materialize sample_limits sample_events = Some (Ok sample_value) /\
  document_of sample_limits sample_events sample_value.
Proof.
  assert (materialize sample_limits sample_events = Some (Ok sample_value)) as Hm by (vm_compute; reflexivity).
  split; [exact Hm|]. pose proof (builder_accepts_exactly sample_limits sample_events) as H.
  rewrite Hm in H. apply H. vm_compute. discriminate.
Defined.
