(* ===== verification/Evidence.v ===== *)
(** * Results and evidence of an execution

    crates/xolotl-types/src/execution.rs: the output of an execution, and the bounded record of
    the operations whose effects a host could not settle. *)

From stdpp Require Import base numbers list option strings.
From S2P Require Import Prelude Text Order Value Source Taint.

Local Open Scope N_scope.

Notation MAX_UNRESOLVED_OPERATION_IDS := 1024%N.
Notation MAX_UNRESOLVED_OPERATION_ID_BYTES := 256%N.
Notation MAX_UNRESOLVED_OPERATION_TOTAL_BYTES := 16384%N.

(** ** Unresolved operations *)

Record UnresolvedOperations : Type := mkUnresolved {
  operation_ids : list text;
  identities_incomplete : bool
}.

(** [UnresolvedOperations::default]. *)
Definition no_evidence : UnresolvedOperations := mkUnresolved [] false.

(** [binary_search_by(|saved| saved.as_str().cmp(id))]: where the identity is, or belongs. *)
Fixpoint search_id (ids : list text) (id : text) : Result nat nat :=
  match ids with
  | [] => Err 0%nat
  | saved :: rest =>
      match cmp saved id with
      | Lt => match search_id rest id with Ok n => Ok (S n) | Err n => Err (S n) end
      | Eq => Ok 0%nat
      | Gt => Err 0%nat
      end
  end.

(** [Vec::insert] within the vector's length. *)
Definition vec_insert {A} (n : nat) (a : A) (l : list A) : list A := take n l ++ a :: drop n l.

Definition total_bytes (ids : list text) : N := foldr (fun id n => len id + n) 0 ids.

Definition incomplete (self : UnresolvedOperations) : UnresolvedOperations :=
  mkUnresolved (operation_ids self) true.

(** [UnresolvedOperations::record]. The strings of a vector fit in memory, so the sum of their
    lengths is exact. *)
Definition record (self : UnresolvedOperations) (id : text) : bool * UnresolvedOperations :=
  if (len id =? 0) || (MAX_UNRESOLVED_OPERATION_ID_BYTES <? len id) then (false, incomplete self)
  else
    match search_id (operation_ids self) id with
    | Ok _ => (false, self)
    | Err index =>
        if MAX_UNRESOLVED_OPERATION_IDS <=? len (operation_ids self) then (false, incomplete self)
        else
          if MAX_UNRESOLVED_OPERATION_TOTAL_BYTES <?
             saturating_add usize_max (total_bytes (operation_ids self)) (len id)
          then (false, incomplete self)
          else (true, mkUnresolved (vec_insert index id (operation_ids self)) (identities_incomplete self))
    end.

Definition record_all (ids : list text) (self : UnresolvedOperations) : UnresolvedOperations :=
  foldl (fun u id => snd (record u id)) self ids.

(** [UnresolvedOperations::merge]. *)
Definition merge (self other : UnresolvedOperations) : UnresolvedOperations :=
  let self := record_all (operation_ids other) self in
  mkUnresolved (operation_ids self) (identities_incomplete self || identities_incomplete other).

(** [windows(2).all(|pair| pair[0] < pair[1])]. *)
Fixpoint windows_increase (ids : list text) : bool :=
  match ids with
  | a :: (b :: _) as rest => bool_decide (cmp a b = Lt) && windows_increase rest
  | _ => true
  end.

(** [UnresolvedOperations::validate]. *)
Definition validate_evidence (self : UnresolvedOperations) : bool :=
  (len (operation_ids self) <=? MAX_UNRESOLVED_OPERATION_IDS) &&
  forallb (fun id => negb (len id =? 0) && (len id <=? MAX_UNRESOLVED_OPERATION_ID_BYTES))
    (operation_ids self) &&
  (total_bytes (operation_ids self) <=? MAX_UNRESOLVED_OPERATION_TOTAL_BYTES) &&
  windows_increase (operation_ids self).

(** [UnresolvedOperations::is_empty]. *)
Definition evidence_empty (self : UnresolvedOperations) : bool :=
  (len (operation_ids self) =? 0) && negb (identities_incomplete self).

(** ** Outputs *)

Inductive Outcome : Type :=
| OutDone (value : Value)
| OutFail (failure : Failure)
| OutShort (value : Value).

Record ExecutionOutput : Type := mkOutput {
  output_outcome : Outcome;
  output_taint : TaintSet;
  unresolved_operations : UnresolvedOperations
}.

(** [ExecutionOutput::new]. *)
Definition output_new (outcome : Outcome) (taint : TaintSet) : ExecutionOutput :=
  mkOutput outcome taint no_evidence.

Definition with_unresolved_operations (self : ExecutionOutput) (unresolved : UnresolvedOperations)
    : ExecutionOutput :=
  mkOutput (output_outcome self) (output_taint self) unresolved.

(** [ExecutionOutput::from_result]. *)
Definition from_result (result : Result TaintedValue TaintedFailure) : ExecutionOutput :=
  match result with
  | Ok value => output_new (OutDone (tainted_value value)) (value_taint value)
  | Err e => output_new (OutFail (tainted_failure e)) (failure_taint e)
  end.

(** [ExecutionOutput::into_parts]. *)
Definition into_parts (self : ExecutionOutput)
    : Result TaintedValue TaintedFailure * UnresolvedOperations :=
  let result :=
    match output_outcome self with
    | OutDone value | OutShort value => Ok (mkTainted value (output_taint self))
    | OutFail failure => Err (mkTaintedFailure failure (output_taint self))
    end in
  (result, unresolved_operations self).

Lemma into_parts_from_result result unresolved :
  into_parts (with_unresolved_operations (from_result result) unresolved) = (result, unresolved).
Proof. by destruct result as [[]|[]]. Qed.

(** ** Facts of the record *)

Lemma windows_increasing ids : windows_increase ids = true <-> increasing ids.
Proof.
  induction ids as [|a ids IH]; [done|]. simpl. destruct ids as [|b ids]; [by repeat constructor|].
  rewrite andb_true_iff, bool_decide_eq_true, IH. split.
  - intros [Hab Hb]. split; [|done]. constructor; [done|]. destruct Hb as [Hb _].
    eapply list.Forall_impl; [exact Hb|]. intros c. by apply cmp_lt_trans.
  - intros [Ha Hb]. by apply list.Forall_cons in Ha as [? _].
Qed.

Lemma total_bytes_insert n id ids : total_bytes (vec_insert n id ids) = total_bytes ids + len id.
Proof.
  unfold vec_insert. revert ids. induction n as [|n IH]; intros [|a ids]; simpl; try lia.
  rewrite IH. lia.
Qed.

Lemma elem_of_vec_insert {A} n (a b : A) l : b ∈ vec_insert n a l <-> b = a \/ b ∈ l.
Proof.
  unfold vec_insert. rewrite <- (take_drop n l) at 3. rewrite !elem_of_app, elem_of_cons. tauto.
Qed.

Lemma len_vec_insert {A} n (a : A) l : len (vec_insert n a l) = len l + 1.
Proof.
  unfold vec_insert, len. rewrite length_app. simpl. rewrite length_take, length_drop. lia.
Qed.

Lemma search_found ids id n : search_id ids id = Ok n -> id ∈ ids.
Proof.
  revert n. induction ids as [|a ids IH]; intros n; simpl; [done|].
  destruct (cmp a id) eqn:Hc; [|destruct (search_id ids id); [|done]|done].
  - apply cmp_eq in Hc as ->. by left.
  - intros _. right. by eapply IH.
Qed.

(** The position of a missing identity keeps the order. *)
Lemma search_increasing ids id n :
  increasing ids -> search_id ids id = Err n -> increasing (vec_insert n id ids).
Proof.
  revert n. induction ids as [|a ids IH]; intros n Hinc; simpl; [intros [= <-]; by repeat constructor|].
  destruct Hinc as [Ha Hids]. destruct (cmp a id) eqn:Hc; [done| |].
  - destruct (search_id ids id) as [|m]; [done|]. intros [= <-]. specialize (IH m Hids eq_refl).
    change (increasing (a :: vec_insert m id ids)). split; [|done]. apply list.Forall_forall.
    intros b [->|Hb]%elem_of_vec_insert; [done|]. rewrite list.Forall_forall in Ha. by apply Ha.
  - intros [= <-]. unfold vec_insert. simpl. split; [|by split]. apply cmp_gt in Hc.
    constructor; [done|]. eapply list.Forall_impl; [exact Ha|]. intros b. by apply cmp_lt_trans.
Qed.

(** What a record promises: sound identities within the bounds. *)
Lemma validate_evidence_spec u : validate_evidence u = true <->
  len (operation_ids u) <= 1024 /\
  Forall (fun id => 0 < len id <= 256) (operation_ids u) /\
  total_bytes (operation_ids u) <= 16384 /\ increasing (operation_ids u).
Proof.
  unfold validate_evidence. rewrite !andb_true_iff, !N.leb_le, windows_increasing, forallb_forall.
  rewrite list.Forall_forall. setoid_rewrite <- list_elem_of_In.
  setoid_rewrite andb_true_iff. setoid_rewrite negb_true_iff. setoid_rewrite N.eqb_neq.
  setoid_rewrite N.leb_le. split; [intros [[[? Hall] ?] ?]|intros (? & Hall & ? & ?)]; split_and!; try done;
    intros id Hid; specialize (Hall id Hid); lia.
Qed.

(** [self] knows about [id]: it has the identity, or admits that it lacks some. *)
Definition accounts (u : UnresolvedOperations) (id : text) : Prop :=
  id ∈ operation_ids u \/ identities_incomplete u = true.

(** [u'] is [u] with further evidence. *)
Record extends (u u' : UnresolvedOperations) : Prop := {
  extends_ids : forall id, id ∈ operation_ids u -> id ∈ operation_ids u';
  extends_flag : identities_incomplete u = true -> identities_incomplete u' = true
}.

#[export] Instance extends_refl : Reflexive extends.
Proof. by intros u. Qed.

#[export] Instance extends_trans : Transitive extends.
Proof. intros u v w [] []. split; auto. Qed.

Lemma extends_accounts u u' id : extends u u' -> accounts u id -> accounts u' id.
Proof. intros [] [?|?]; [left|right]; auto. Qed.

Lemma record_spec u id :
  let u' := snd (record u id) in
  extends u u' /\ accounts u' id /\
  (forall id', id' ∈ operation_ids u' -> id' = id \/ id' ∈ operation_ids u) /\
  (validate_evidence u = true -> validate_evidence u' = true).
Proof.
  unfold record. destruct (_ || _) eqn:Hlen; [simpl; split_and!; auto; [by split|by right]|].
  destruct (search_id (operation_ids u) id) as [n|n] eqn:Hs.
  { simpl. split_and!; auto; [done|]. left. by eapply search_found. }
  destruct (N.leb_spec 1024 (len (operation_ids u)));
    [simpl; split_and!; auto; [by split|by right]|].
  destruct (N.ltb_spec 16384 (saturating_add usize_max (total_bytes (operation_ids u)) (len id)));
    simpl; [split_and!; auto; [by split|by right]|].
  apply orb_false_iff in Hlen as [Hpos%N.eqb_neq Hmax%N.ltb_ge].
  assert (16384 < usize_max) by done. unfold saturating_add in *. split_and!.
  - split; [|done]. intros id' Hid. apply elem_of_vec_insert. by right.
  - left. apply elem_of_vec_insert. by left.
  - intros id' Hid. by apply elem_of_vec_insert in Hid.
  - rewrite !validate_evidence_spec. simpl. rewrite len_vec_insert, total_bytes_insert.
    intros (? & Hall & ? & ?). split_and!; [lia| |lia|by apply search_increasing].
    apply list.Forall_forall. rewrite list.Forall_forall in Hall.
    intros id' [->|?]%elem_of_vec_insert; [lia|auto].
Qed.

Lemma record_all_spec ids u :
  let u' := record_all ids u in
  extends u u' /\ (forall id, id ∈ ids -> accounts u' id) /\
  (forall id, id ∈ operation_ids u' -> id ∈ ids \/ id ∈ operation_ids u) /\
  (validate_evidence u = true -> validate_evidence u' = true).
Proof.
  unfold record_all. revert u. induction ids as [|a ids IH]; intros u; simpl.
  { split_and!; auto; [done|]. by intros id ?%not_elem_of_nil. }
  destruct (record_spec u a) as (Hx & Ha & Hnew & Hv). destruct (IH (snd (record u a))) as (Hx' & Ha' & Hnew' & Hv').
  split_and!; [by etrans| | |by auto].
  - intros id [->|?]%elem_of_cons; [by eapply extends_accounts|auto].
  - intros id [?|[->|?]%Hnew]%Hnew'; [left; by right|left; by left|by right].
Qed.

(** C23: Evidence is never lost silently. Merging a record of unresolved operations into one
    keeps that record within its bounds and in order, drops none of its identities and adds
    none that neither had; each identity of the other is kept or the result admits that it is
    incomplete, and an incomplete record is never again presented as complete. *)
Theorem merge_loses_nothing (self other : UnresolvedOperations) :
  validate_evidence self = true ->
  let u := merge self other in
  validate_evidence u = true /\ extends self u /\
  (forall id, id ∈ operation_ids other -> accounts u id) /\
  (identities_incomplete other = true -> identities_incomplete u = true) /\
  (forall id, id ∈ operation_ids u -> id ∈ operation_ids self \/ id ∈ operation_ids other).
Proof.
  intros Hv u. destruct (record_all_spec (operation_ids other) self) as (Hx & Ha & Hnew & Hval).
  specialize (Hval Hv). unfold u, merge. set (r := record_all _ _) in *. split_and!; simpl.
  - apply validate_evidence_spec. by apply validate_evidence_spec in Hval.
  - destruct Hx as [Hi Hf]. split; [done|]. simpl. intros Hs. by rewrite (Hf Hs).
  - intros id [?|Hf]%Ha; [by left|right]. simpl. by rewrite Hf.
  - intros ->. apply orb_true_r.
  - intros id [?|?]%Hnew; auto.
Qed.

Lemma merge_loses_nothing_witness :
  let self := mkUnresolved [t "a"; t "c"] false in
  let other := mkUnresolved [t "b"] false in
  validate_evidence self = true /\ merge self other = mkUnresolved [t "a"; t "b"; t "c"] false /\
  extends self (merge self other).
Proof.
  cbv zeta. split; [vm_compute; reflexivity|]. split; [vm_compute; reflexivity|].
  apply merge_loses_nothing. vm_compute. reflexivity.
Defined.
