(* ===== verification/SoloStep.v ===== *)
(** * Steps of one task

    One turn of the machine, while only its root task is in use, is one step of the
    configuration that its payloads show. *)

From stdpp Require Import base numbers list option.
From S2P Require Import Prelude Program Frame Machine MachineInv Solo.

Local Open Scope N_scope.
Local Open Scope comp_scope.

Section simulation.
Context {H V E D F : Type} `{!Values H V E} `{!Payload H V E D F}.
Context (g : setting) (image : ProgramImage V E).
Implicit Types (x : Execution V E) (h : H) (sh : shape V E) (c : conf D F).
Implicit Types (l : list (FrameKind V E)) (bs : list (option V)) (r : Result V E) (tk : N).

Definition erase r : Result D F := erase_result value_of failure_of r.
Definition erase_stack l : list (FrameKind D F) := erase_frame value_of failure_of <$> l.
Definition erase_row bs : list (option D) := option_map value_of <$> bs.
Definition payload_image : ProgramImage D F := map_image value_of failure_of image.

(** The configuration of a task. *)
Definition conf_of sh l bs (m : mode D F) : conf D F :=
  mkConf m (erase_stack l) (sh_context sh) (sh_cleaning sh) (erase_row bs).

Definition shows_mode sh (m : mode D F) : Prop :=
  match m with
  | MReady pc v => sh_state sh = SReady /\ sh_pc sh = pc /\ value_of <$> sh_input sh = Some v
  | MReturning r => exists r', sh_state sh = SReturning r' /\ erase r' = r
  end.

Definition shows tk x c : Prop :=
  exists sh l bs m, solo g tk bs x sh l /\ shows_mode sh m /\ c = conf_of sh l bs m.

Definition reaches tk c (s : machine (H := H)) : Prop := shows tk (fst s) c.

(** *** Payloads of what the host computes *)

Lemma influence_Some v ctl h a h' : influence v ctl h = (a, h') -> value_of a = value_of v.
Proof. intros Hi. pose proof (influence_payload v ctl h) as Hp. by rewrite Hi in Hp. Qed.

Lemma influence_result_Some r ctl h a h' : influence_result r ctl h = (a, h') -> erase a = erase r.
Proof. intros Hi. pose proof (influence_result_payload r ctl h) as Hp. by rewrite Hi in Hp. Qed.

Lemma task_influence_Some x sh st r h a h' :
  get (tasks x) 0 = Some (task_of sh st) ->
  task_influence_result x 0 r h = (a, h') -> erase a = erase r.
Proof.
  unfold task_influence_result. intros ->. simpl. destruct (sh_input sh).
  - apply influence_result_Some.
  - by intros [= <- <-].
Qed.

Lemma truth_Some v h a h' : truth v h = (a, h') -> erase_result id failure_of a = decides (value_of v).
Proof. intros Hi. pose proof (truth_payload v h) as Hp. by rewrite Hi in Hp. Qed.

(** *** Ends of a step *)

Lemma reaches_start tk bs x h sh l pc v :
  solo g tk bs x (shape_start sh pc v) l -> reaches tk (conf_of sh l bs (MReady pc (value_of v))) (x, h).
Proof. intros Hs. by exists (shape_start sh pc v), l, bs, (MReady pc (value_of v)). Qed.

Lemma reaches_returning tk bs x h sh l r :
  solo g tk bs x (shape_state sh (SReturning r)) l ->
  reaches tk (conf_of sh l bs (MReturning (erase r))) (x, h).
Proof.
  intros Hs. exists (shape_state sh (SReturning r)), l, bs, (MReturning (erase r)).
  split; [done|]. split; [by exists r|done].
Qed.

Lemma wp_step_start {X} tk bs x h sh l pc v (R : X -> machine -> Prop) :
  solo g tk bs x sh l ->
  wp (start 0 pc v) (fun _ => reaches tk (conf_of sh l bs (MReady pc (value_of v)))) R (x, h).
Proof. intros Hs. eapply (wp_solo_start Hs). intros x'. apply reaches_start. Qed.

Lemma wp_step_returning tk bs x h sh l r (R : Fault -> machine -> Prop) :
  solo g tk bs x sh l ->
  wp (returning 0 r) (fun _ => reaches tk (conf_of sh l bs (MReturning (erase r)))) R (x, h).
Proof. intros Hs. eapply (wp_solo_state Hs). intros x'. apply reaches_returning. Qed.

Lemma wp_step_finish tk bs x h sh l node n r (R : Fault -> machine -> Prop) :
  solo g tk bs x sh l -> get (nodes image) node = Some n ->
  wp (finish 0 node r image) (fun _ => reaches tk (conf_of sh l bs (after (node_next n) (erase r))))
    R (x, h).
Proof.
  intros Hs Hn. destruct (solo_root _ _ _ _ _ _ Hs) as [st Hst]. unfold finish, node_at.
  rewrite Hn. apply wp_bind, wp_lift_result; [|done]. intros ? [= <-].
  wp_step wp_exec. wp_step wp_host. intros r' h' Hr.
  apply (task_influence_Some _ _ _ _ _ _ _ Hst) in Hr. rewrite <- Hr.
  destruct r' as [v|e]; simpl.
  - destruct (node_next n) as [next|]; simpl.
    + by apply wp_step_start.
    + by apply (wp_step_returning tk bs x h' sh l (Ok v)).
  - by apply (wp_step_returning tk bs x h' sh l (Err e)).
Qed.

(** *** Instructions *)

Lemma len_erase l : len (erase_stack l) = len l.
Proof. unfold len, erase_stack. by rewrite length_fmap. Qed.

Lemma get_payload pc n :
  get (nodes image) pc = Some n ->
  get (nodes payload_image) pc = Some (map_owned value_of failure_of n).
Proof. intros Hn. simpl. by rewrite get_fmap, Hn. Qed.

Lemma get_payload_inv pc n' :
  get (nodes payload_image) pc = Some n' ->
  exists n, get (nodes image) pc = Some n /\ n' = map_owned value_of failure_of n.
Proof.
  simpl. rewrite get_fmap. destruct (get (nodes image) pc) as [n|]; [|done].
  intros [= <-]. by exists n.
Qed.

Lemma map_owned_next (n : Node V E) :
  node_next (map_owned (value_of (D := D)) (failure_of (F := F)) n) = node_next n.
Proof. by destruct n as [[] ? ?]. Qed.

Lemma enter_conf_Some (room : N) sh l bs m (ks : list (FrameKind V E)) pc v c' :
  enter_conf room (conf_of sh l bs m) (erase_stack ks) pc v = Some c' ->
  len ks + len l <= room /\ c' = conf_of sh (ks ++ l) bs (MReady pc v).
Proof.
  unfold enter_conf. simpl. rewrite !len_erase. case_match eqn:Hle; [|done].
  intros [= <-]. apply N.leb_le in Hle. split; [done|].
  unfold conf_of, erase_stack. by rewrite fmap_app.
Qed.

(** Pushing continuations and starting a part. *)
Lemma wp_step_enter1 tk bs x h sh l m k pc v c' (R : Fault -> machine -> Prop) :
  solo g tk bs x sh l -> k <> FVacant ->
  enter_conf (set_room g) (conf_of sh l bs m) (erase_stack [k]) pc (value_of v) = Some c' ->
  wp (push 0 k ;;; start 0 pc v) (fun _ => reaches tk c') R (x, h).
Proof.
  intros Hs Hk [Hroom ->]%enter_conf_Some. apply wp_bind, (wp_solo_push Hs); [done| |].
  { unfold len in *. simpl in Hroom. lia. }
  intros x1 Hs1. by apply wp_step_start.
Qed.

(** The answer of a step that does not ask the host. *)
Definition quiet tk c (a : option (Advance V E)) (s : machine (H := H)) : Prop :=
  a = None /\ reaches tk c s.

Lemma wp_quiet tk c (m : comp machine Fault unit) (R : Fault -> machine -> Prop) s :
  wp m (fun _ => reaches tk c) R s -> wp (m ;;; ret None) (quiet tk c) R s.
Proof. intros Hm. apply wp_bind. eapply wp_mono; [done| |done]. intros [] s' Hs. by split. Qed.

(** Pushing continuations and starting a part, as an instruction. *)
Lemma wp_quiet_enter1 tk bs x h sh l m k pc v c' (R : Fault -> machine -> Prop) :
  solo g tk bs x sh l -> k <> FVacant ->
  enter_conf (set_room g) (conf_of sh l bs m) (erase_stack [k]) pc (value_of v) = Some c' ->
  wp (push 0 k ;;; start 0 pc v ;;; ret None) (quiet tk c') R (x, h).
Proof.
  intros Hs Hk [Hroom ->]%enter_conf_Some. apply wp_bind, (wp_solo_push Hs); [done| |].
  { unfold len in *. simpl in Hroom. lia. }
  intros x1 Hs1. by apply wp_quiet, wp_step_start.
Qed.

Lemma wp_quiet_enter2 tk bs x h sh l m k1 k2 pc v c' (R : Fault -> machine -> Prop) :
  solo g tk bs x sh l -> k1 <> FVacant -> k2 <> FVacant ->
  enter_conf (set_room g) (conf_of sh l bs m) (erase_stack [k1; k2]) pc (value_of v) = Some c' ->
  wp (push 0 k2 ;;; push 0 k1 ;;; start 0 pc v ;;; ret None) (quiet tk c') R (x, h).
Proof.
  intros Hs Hk1 Hk2 [Hroom ->]%enter_conf_Some.
  assert (len l + 2 <= set_room g) by (unfold len in *; simpl in Hroom; lia).
  apply wp_bind, (wp_solo_push Hs); [done|lia|]. intros x1 Hs1.
  apply wp_bind, (wp_solo_push Hs1); [done|unfold len in *; simpl; lia|]. intros x2 Hs2.
  by apply wp_quiet, wp_step_start.
Qed.

(** The finish of an instruction whose result has the given payload. *)
Lemma wp_quiet_finish tk bs x h sh l m node n next r (r' : Result D F) (R : Fault -> machine -> Prop) :
  solo g tk bs x sh l -> get (nodes image) node = Some n -> node_next n = next -> erase r = r' ->
  wp (finish 0 node r image ;;; ret None)
    (quiet tk (with_mode (conf_of sh l bs m) (after next r'))) R (x, h).
Proof. intros Hs Hn <- <-. by apply wp_quiet, wp_step_finish. Qed.

Lemma wp_step_execute tk bs x h sh l m pc n input c' (R : Fault -> machine -> Prop) :
  solo g tk bs x sh l -> get (nodes image) pc = Some n ->
  execute_conf decides (set_width g) (set_room g) (conf_of sh l bs m) pc
    (map_owned value_of failure_of n) (value_of input) = Some c' ->
  wp (execute 0 pc n input image) (quiet tk c') R (x, h).
Proof.
  intros Hs Hn. unfold execute, execute_conf. destruct n as [kind next pos].
  pose proof (solo_setting _ _ _ _ _ _ Hs) as Hg.
  destruct kind as [v| |slot|e|i|a b|a b|a b|a b|a b c|slot a b|a b max|a b j|a|i a]; simpl; intros Hc;
    try discriminate Hc.
  - injection Hc as <-. wp_step wp_host. intros v' h' Hv%influence_Some.
    eapply wp_quiet_finish; [done|done|done|]. unfold erase. simpl. by rewrite Hv.
  - injection Hc as <-. by eapply wp_quiet_finish.
  - wp_step wp_exec. replace (bindings_per_task (limits x)) with (set_width g) by (by subst g).
    destruct (N.leb_spec (set_width g) slot) as [|Hslot]; [done|].
    unfold erase_row in Hc. rewrite get_fmap in Hc.
    destruct (get bs slot) as [[v|]|] eqn:Hv; simpl in Hc; [|done..]. injection Hc as <-.
    apply wp_bind, (wp_solo_read Hs slot (Some v)); [done|done|].
    apply wp_bind, wp_require; [|done]. intros ? [= <-].
    wp_step wp_host. intros v' h' Hv'%influence_Some.
    eapply wp_quiet_finish; [done|done|done|]. unfold erase. simpl. by rewrite Hv'.
  - injection Hc as <-. by eapply wp_quiet_finish.
  - by eapply wp_quiet_enter2.
  - by eapply wp_quiet_enter2.
  - by eapply wp_quiet_enter2.
  - wp_step wp_host. intros d h' Hd%truth_Some. rewrite <- Hd in Hc.
    destruct d as [test|e]; simpl in Hc.
    + by eapply wp_quiet_enter1.
    + injection Hc as <-. by eapply wp_quiet_finish.
  - by eapply wp_quiet_enter2.
  - by eapply wp_quiet_enter2.
  - by eapply wp_quiet_enter2.
  - by eapply wp_quiet_enter1.
Qed.

(** *** Results *)

Lemma erase_cleaned (a b : Result V E) :
  erase match a, b with
        | Err e, _ => Err e
        | Ok _, Err e => Err e
        | Ok value, Ok _ => Ok value
        end = cleaned_result (erase a) (erase b).
Proof. by destruct a, b. Qed.

(** Starting an instruction without a new continuation. *)
Lemma wp_step_enter0 tk bs x h sh l m pc v d c' (R : Fault -> machine -> Prop) :
  solo g tk bs x sh l -> value_of v = d ->
  enter_conf (set_room g) (conf_of sh l bs m) [] pc d = Some c' ->
  wp (start 0 pc v) (fun _ => reaches tk c') R (x, h).
Proof.
  intros Hs <- Hc. apply (enter_conf_Some _ _ _ _ _ []) in Hc as [_ ->]. by apply wp_step_start.
Qed.

Lemma wp_step_return tk bs x h sh l m r (d : Result D F) (R : Fault -> machine -> Prop) :
  solo g tk bs x sh l -> erase r = d ->
  wp (returning 0 r) (fun _ => reaches tk (return_conf (conf_of sh l bs m) d)) R (x, h).
Proof. intros Hs <-. by apply wp_step_returning. Qed.

(** The frames whose arm stores or restores a binding. *)
Lemma wp_step_bind tk bs x h sh l m slot body v c' (R : Fault -> machine -> Prop) :
  solo g tk bs x sh l ->
  resume_conf decides fault_failure diagnostic payload_image (set_width g) (set_room g)
    (conf_of sh l bs m) (FBind slot body) (Ok (value_of v)) = Some c' ->
  wp (resume_frame 0 (FBind slot body) (Ok v) image) (fun _ => reaches tk c') R (x, h).
Proof.
  intros Hs. pose proof (solo_setting _ _ _ _ _ _ Hs) as Hg. simpl. intros Hc.
  wp_step wp_exec. replace (bindings_per_task (limits x)) with (set_width g) by (by subst g).
  destruct (N.leb_spec (set_width g) slot) as [|Hslot]; [done|].
  unfold erase_row in Hc. rewrite get_fmap in Hc.
  destruct (get bs slot) as [previous|] eqn:Hp; simpl in Hc; [|done].
  set (bs' := upd bs slot (Some v)).
  assert (with_row (conf_of sh l bs m) slot (Some (value_of v)) = conf_of sh l bs' m) as Hrow.
  { unfold with_row, conf_of, bs', erase_row. simpl. by rewrite upd_fmap. }
  rewrite Hrow in Hc. apply (enter_conf_Some _ _ _ _ _ [FUnbind slot previous]) in Hc as [Hroom ->].
  assert (len l + 1 <= set_room g) by (unfold len in *; simpl in Hroom; lia).
  unfold bind_value. wp_step wp_exec. apply wp_bind, (wp_solo_check Hs); [done|done|].
  apply wp_bind, (wp_solo_read Hs slot previous); [done|done|].
  apply wp_bind, (wp_solo_write Hs); [done|]. intros x1 Hs1.
  apply wp_bind, (wp_solo_push Hs1); [done|lia|]. intros x2 Hs2.
  apply wp_bind, (wp_solo_write Hs2); [done|]. intros x3 Hs3.
  rewrite upd_upd in Hs3. by apply wp_step_start.
Qed.

Lemma wp_step_catch tk bs x h sh l m recover e c' (R : Fault -> machine -> Prop) :
  solo g tk bs x sh l ->
  enter_conf (set_room g) (conf_of sh l bs m) [] recover (diagnostic (failure_of e)) = Some c' ->
  wp (resume_frame 0 (FCatch recover) (Err e) image) (fun _ => reaches tk c') R (x, h).
Proof.
  intros Hs Hc. apply wp_bind, (wp_solo_task _ _ _ _ _ _ _ _ _ Hs). intros st. simpl.
  wp_step wp_host. intros v h' Hv. pose proof (error_value_payload e h) as Hp.
  rewrite Hv in Hp. simpl in Hp. destruct (sh_input sh) as [input|].
  - wp_step wp_host. intros v' h2 Hv'%influence_Some. eapply wp_step_enter0; [done| |done].
    congruence.
  - wp_step wp_ret. by eapply wp_step_enter0.
Qed.

Lemma wp_step_condition tk bs x h sh l m condition body left_ value test c'
    (R : Fault -> machine -> Prop) :
  solo g tk bs x sh l ->
  resume_conf decides fault_failure diagnostic payload_image (set_width g) (set_room g)
    (conf_of sh l bs m) (FCondition condition body left_ (value_of value)) (Ok (value_of test)) = Some c' ->
  wp (resume_frame 0 (FCondition condition body left_ value) (Ok test) image)
    (fun _ => reaches tk c') R (x, h).
Proof.
  simpl. intros Hs Hc. wp_step wp_host. intros d h' Hd%truth_Some. rewrite <- Hd in Hc.
  destruct d as [[]|e]; simpl in Hc.
  - destruct (N.ltb_spec 0 left_).
    + apply (enter_conf_Some _ _ _ _ _ [FIteration condition body (left_ - 1)]) in Hc as [Hroom ->].
      apply wp_bind, (wp_solo_push Hs); [done|unfold len in *; simpl in Hroom; lia|].
      intros x1 Hs1. wp_step wp_host. intros v h2 Hv%influence_Some. rewrite <- Hv.
      by apply wp_step_start.
    + injection Hc as <-. wp_step wp_host. intros e h2 He.
      pose proof (error_payload Iterations h') as Hp. rewrite He in Hp.
      eapply wp_step_return; [done|]. unfold erase. simpl. f_equal. exact Hp.
  - injection Hc as <-. wp_step wp_host. intros v h2 Hv%influence_Some.
    eapply wp_step_return; [done|]. unfold erase. simpl. by rewrite Hv.
  - injection Hc as <-. by eapply wp_step_return.
Qed.

Lemma wp_step_choose tk bs x h sh l m yes no input test c' (R : Fault -> machine -> Prop) :
  solo g tk bs x sh l ->
  resume_conf decides fault_failure diagnostic payload_image (set_width g) (set_room g)
    (conf_of sh l bs m) (FChoose yes no (value_of input)) (Ok (value_of test)) = Some c' ->
  wp (resume_frame 0 (FChoose yes no input) (Ok test) image) (fun _ => reaches tk c') R (x, h).
Proof.
  simpl. intros Hs Hc. wp_step wp_host. intros d h' Hd%truth_Some. rewrite <- Hd in Hc.
  destruct d as [b|e]; simpl in Hc.
  - wp_step wp_host. intros v h2 Hv%influence_Some. by eapply wp_step_enter0.
  - injection Hc as <-. by eapply wp_step_return.
Qed.

(** The frames of a cleanup. *)
Lemma wp_step_finally tk bs x h sh l m cleanup input r c' (R : Fault -> machine -> Prop) :
  solo g tk bs x sh l ->
  resume_conf decides fault_failure diagnostic payload_image (set_width g) (set_room g)
    (conf_of sh l bs m) (FFinally cleanup (value_of input)) (erase r) = Some c' ->
  wp (resume_frame 0 (FFinally cleanup input) r image) (fun _ => reaches tk c') R (x, h).
Proof.
  simpl. intros Hs Hc. destruct (N.leb_spec (sh_cleaning sh + 1) usize_max) as [Hmax|]; [|done].
  change (with_depth (conf_of sh l bs m) (sh_cleaning sh + 1))
    with (conf_of (shape_cleaning sh (sh_cleaning sh + 1)) l bs m) in Hc.
  apply (enter_conf_Some _ _ _ _ _ [FCleaned r]) in Hc as [Hroom ->].
  apply wp_bind, (wp_solo_push Hs); [done|unfold len in *; simpl in Hroom; lia|].
  intros x1 Hs1. apply wp_bind, (wp_solo_task _ _ _ _ _ _ _ _ _ Hs1). intros st. simpl.
  apply wp_bind, (wp_expect _ _ (sh_cleaning sh + 1)); [by apply checked_add_Some|].
  apply wp_bind. eapply (wp_solo_update _ _ _ _ _ _ (shape_cleaning sh (sh_cleaning sh + 1))); [done..|].
  intros x2 Hs2. by apply wp_step_start.
Qed.

Lemma wp_step_cleaned tk bs x h sh l m original r (R : Fault -> machine -> Prop) :
  solo g tk bs x sh l ->
  wp (resume_frame 0 (FCleaned original) r image)
    (fun _ => reaches tk (return_conf (with_depth (conf_of sh l bs m) (sh_cleaning sh - 1))
                            (cleaned_result (erase original) (erase r)))) R (x, h).
Proof.
  intros Hs. simpl.
  apply wp_bind, (wp_solo_cleaning Hs (fun d : N => saturating_sub d 1)). intros x1 Hs1.
  wp_step wp_host. intros ctl h1 _. wp_step wp_host. intros r' h2 Hr%influence_result_Some.
  rewrite erase_cleaned in Hr. rewrite <- Hr. by apply (wp_step_returning _ _ _ _ _ _ _ _ Hs1).
Qed.

Lemma wp_step_unbind tk bs x h sh l m slot previous r (R : Fault -> machine -> Prop) :
  solo g tk bs x sh l -> slot < set_width g ->
  wp (resume_frame 0 (FUnbind slot previous) r image)
    (fun _ => reaches tk (return_conf (with_row (conf_of sh l bs m) slot (option_map value_of previous))
                            (erase r))) R (x, h).
Proof.
  intros Hs Hslot. simpl. apply wp_bind, (wp_solo_write Hs); [done|]. intros x1 Hs1.
  pose proof (wp_step_returning _ _ _ h _ _ r R Hs1) as Hret.
  unfold conf_of, erase_row in Hret. by rewrite upd_fmap in Hret.
Qed.

Lemma wp_step_resume tk bs x h sh l m k r c' (R : Fault -> machine -> Prop) :
  solo g tk bs x sh l ->
  resume_conf decides fault_failure diagnostic payload_image (set_width g) (set_room g)
    (conf_of sh l bs m) (erase_frame value_of failure_of k) (erase r) = Some c' ->
  wp (resume_frame 0 k r image) (fun _ => reaches tk c') R (x, h).
Proof.
  intros Hs Hc.
  assert (forall node, finish_conf payload_image (conf_of sh l bs m) node (erase r) = Some c' ->
    wp (finish 0 node r image) (fun _ => reaches tk c') R (x, h)) as Hfinish.
  { unfold finish_conf. intros node. destruct (get (nodes payload_image) node) as [n'|] eqn:Hn; [|done].
    apply get_payload_inv in Hn as (n & Hn & ->). intros [= <-].
    rewrite map_owned_next. by apply (wp_step_finish _ _ _ _ _ _ _ _ _ _ Hs Hn). }
  destruct k as [|node|next|recover|cleanup input|original|condition body left_ value
    |condition body left_|context|yes no input|slot body|slot previous|node entry].
  - done.
  - by apply Hfinish.
  - destruct r as [v|e]; [by eapply (wp_step_enter0 _ _ _ _ _ _ m)|].
    injection Hc as <-. by eapply (wp_step_return _ _ _ _ _ _ m (Err e)).
  - destruct r as [v|e]; [|by eapply (wp_step_catch _ _ _ _ _ _ m)].
    injection Hc as <-. apply wp_bind, (wp_solo_task _ _ _ _ _ _ _ _ _ Hs). intros st.
    by eapply (wp_step_return _ _ _ _ _ _ m (Ok v)).
  - by eapply wp_step_finally.
  - injection Hc as <-. by apply wp_step_cleaned.
  - destruct r as [v|e]; [by eapply wp_step_condition|].
    injection Hc as <-. by eapply (wp_step_return _ _ _ _ _ _ m (Err e)).
  - destruct r as [v|e]; [by eapply (wp_step_enter1 _ _ _ _ _ _ m)|].
    injection Hc as <-. by eapply (wp_step_return _ _ _ _ _ _ m (Err e)).
  - injection Hc as <-. apply wp_bind, (wp_solo_context Hs). intros x1 Hs1.
    by apply (wp_step_returning _ _ _ _ _ _ _ _ Hs1).
  - destruct r as [v|e]; [by eapply wp_step_choose|].
    injection Hc as <-. by eapply (wp_step_return _ _ _ _ _ _ m (Err e)).
  - destruct r as [v|e]; [by eapply wp_step_bind|].
    injection Hc as <-. by eapply (wp_step_return _ _ _ _ _ _ m (Err e)).
  - simpl in Hc. destruct (N.leb_spec (set_width g) slot); [done|]. injection Hc as <-.
    by apply wp_step_unbind.
  - by apply Hfinish.
Qed.

(** *** Transitions *)

Lemma wp_step_transition_returning tk bs x h sh l r c' (R : Fault -> machine -> Prop) :
  solo g tk bs x sh l ->
  advance_conf decides fault_failure diagnostic payload_image (set_width g) (set_room g)
    (conf_of sh l bs (MReturning (erase r))) = Some c' ->
  wp (transition_returning 0 r image) (quiet tk c') R (x, h).
Proof.
  intros Hs Hc. destruct (solo_root _ _ _ _ _ _ Hs) as [st Hst]. unfold transition_returning.
  wp_step wp_exec. wp_step wp_host. intros r' h1 Hr.
  apply (task_influence_Some _ _ _ _ _ _ _ Hst) in Hr. rewrite <- Hr in Hc.
  wp_step wp_host. intros ctl h2 _. apply wp_bind, (wp_solo_task _ _ _ _ _ _ _ _ _ Hs). intros st1.
  assert (forall h3 input, wp (set_input 0 (Some input) ;;; unwind 0 r' image) (quiet tk c') R (x, h3))
    as Hrest.
  { intros h3 input. apply wp_bind, (wp_solo_input Hs). intros x1 Hs1.
    unfold unwind. apply wp_bind, (wp_solo_pop Hs1). destruct l as [|k l']; [done|].
    intros x2 Hs2. apply wp_quiet. eapply wp_step_resume; [exact Hs2|exact Hc]. }
  destruct (task_input (task_of sh st1)); simpl.
  - wp_step wp_host. intros input h3 _. apply Hrest.
  - wp_step wp_ret. apply Hrest.
Qed.

Lemma wp_step_transition_ready tk bs x h sh l pc input c' (R : Fault -> machine -> Prop) :
  solo g tk bs x sh l -> sh_pc sh = pc -> sh_input sh = Some input ->
  advance_conf decides fault_failure diagnostic payload_image (set_width g) (set_room g)
    (conf_of sh l bs (MReady pc (value_of input))) = Some c' ->
  wp (transition_ready 0 image) (quiet tk c') R (x, h).
Proof.
  intros Hs Hpc Hin Hc. unfold advance_conf in Hc. cbn [cf_mode conf_of] in Hc.
  destruct (get (nodes payload_image) pc) as [n'|] eqn:Hn; [|done].
  apply get_payload_inv in Hn as (n & Hn & ->). unfold transition_ready.
  apply wp_bind, (wp_solo_task _ _ _ _ _ _ _ _ _ Hs). intros st. simpl. rewrite Hpc, Hin.
  unfold node_at. rewrite Hn. apply wp_bind, wp_lift_result; [|done]. intros ? [= <-].
  apply wp_bind, wp_require; [|done]. intros ? [= <-].
  assert (forall h1 v, wp (set_input 0 (Some v) ;;; execute 0 pc n input image) (quiet tk c') R (x, h1))
    as Hrest.
  { intros h1 v. apply wp_bind, (wp_solo_input Hs). intros x1 Hs1.
    eapply wp_step_execute; [exact Hs1|done|exact Hc]. }
  unfold retained_input. destruct (node_kind n);
    first [ wp_step wp_ret; apply Hrest | wp_step wp_host; intros v h1 _; apply Hrest ].
Qed.

Lemma wp_step_transition tk x h c c' (R : Fault -> machine -> Prop) :
  shows tk x c ->
  advance_conf decides fault_failure diagnostic payload_image (set_width g) (set_room g) c = Some c' ->
  wp (transition 0 image) (quiet tk c') R (x, h).
Proof.
  intros (sh & l & bs & m & Hs & Hm & ->) Hc. unfold transition.
  apply wp_bind, (wp_solo_task _ _ _ _ _ _ _ _ _ Hs). intros st.
  apply wp_bind, (wp_solo_state Hs). intros x1 Hs1. destruct m as [pc v|r]; simpl in Hm |- *.
  - destruct Hm as (-> & Hpc & Hin). destruct (sh_input sh) as [input|] eqn:Hi; [|done].
    injection Hin as <-. by eapply wp_step_transition_ready.
  - destruct Hm as (r' & -> & <-). by eapply wp_step_transition_returning.
Qed.
End simulation.
