(* ===== verification/SoloTurn.v ===== *)
(** * Turns and requests of one task

    The scheduler's turn, the requests it hands to the host and the host's answers, while only
    the root task is in use. *)

From stdpp Require Import base numbers list option.
From S2P Require Import Prelude Program Frame Machine MachineInv Solo SoloStep.

Local Open Scope N_scope.
Local Open Scope comp_scope.

Section turns.
Context {H V E D F : Type} `{!Values H V E} `{!Payload H V E D F}.
Context (g : setting) (image : ProgramImage V E).
Implicit Types (x : Execution V E) (h : H) (sh : shape V E) (c : conf D F).
Implicit Types (l : list (FrameKind V E)) (bs : list (option V)) (r : Result V E) (tk : N).

(** ** Scheduling *)

Lemma solo_other tk bs x sh l i : solo g tk bs x sh l -> i <> 0 -> i < len (tasks x) ->
  exists t, get (tasks x) i = Some t /\ task_state t = SFree.
Proof.
  intros [(st & rest & Ht & Hfree) ? ? ? ? ? ? ? ?] Hi Hlt. destruct (get_lt _ _ Hlt) as [t Hg].
  exists t. split; [done|]. rewrite Ht, get_lookup in Hg.
  destruct (N.to_nat i) as [|j] eqn:Hj; [lia|]. simpl in Hg. by eapply Forall_lookup_1 in Hfree.
Qed.

(** A task that is not waiting, done or joining. *)
Definition runnable (s : State V E) : Prop :=
  match s with SReady | SReturning _ => True | _ => False end.

(** The scan finds the root, whatever slot it starts from. *)
Lemma wp_scan_solo tk bs x h sh l offsets (R : Empty_set -> machine -> Prop) :
  solo g tk bs x sh l -> runnable (sh_state sh) ->
  Forall (fun o => o < len (tasks x)) offsets ->
  Exists (fun o => (cursor x + o) mod len (tasks x) = 0) offsets ->
  wp (scan offsets) (fun a s => a = Selected 0 /\ s = (x, h)) R (x, h).
Proof.
  intros Hs Hrun. pose proof (solo_positive _ _ _ _ _ _ Hs) as Hpos.
  pose proof (solo_width _ _ _ _ _ _ Hs). pose proof (solo_cursor _ _ _ _ _ _ Hs).
  induction offsets as [|o offsets IH]; intros Hall Hex; [by inversion Hex|].
  apply list.Forall_cons in Hall as [Ho Hall]. simpl. wp_step wp_exec.
  apply wp_bind, (wp_expect _ _ (cursor x + o)).
  { apply checked_add_Some. unfold u32_max, usize_max, u64_max in *. split; [done|lia]. }
  destruct (decide ((cursor x + o) mod len (tasks x) = 0)) as [->|Hne].
  - apply wp_bind, (wp_solo_task _ _ _ _ _ _ _ _ _ Hs). intros st. simpl.
    assert (wp (let* pending := cancel_point 0 in
      match pending with
      | Some tick => ret (MustCancel 0 tick)
      | None => let* ready := is_ready 0 in if (ready : bool) then ret (Selected 0) else scan offsets
      end) (fun a s => a = Selected 0 /\ s = (x, h)) R (x, h)) as Hgo; [|by destruct (sh_state sh)].
    unfold cancel_point. apply wp_bind, wp_bind, (wp_solo_task _ _ _ _ _ _ _ _ _ Hs). intros st1. simpl.
    apply wp_ret. unfold is_ready.
    apply wp_bind, wp_bind, (wp_solo_task _ _ _ _ _ _ _ _ _ Hs). intros st2. simpl.
    by destruct (sh_state sh).
  - destruct (solo_other tk bs x sh l _ Hs Hne) as (t & Ht & Hfree).
    { apply N.mod_lt. lia. }
    apply wp_bind. eapply wp_task_at; [done|]. rewrite Hfree. apply IH; [done|].
    by apply Exists_cons in Hex as [?|?].
Qed.

Lemma scan_offset (cursor n : N) : 0 < n -> cursor < n ->
  Exists (fun o => (cursor + o) mod n = 0) (range n).
Proof.
  intros Hn Hc. apply list.Exists_exists. destruct (decide (cursor = 0)) as [->|].
  - exists 0. split; [by apply elem_of_range|]. by apply N.mod_0_l; lia.
  - exists (n - cursor). split; [apply elem_of_range; lia|].
    replace (cursor + (n - cursor)) with n by lia. apply N.mod_same. lia.
Qed.

(** A turn is a transition of the root task. *)
Lemma wp_turn_solo tk bs x h sh l (Q : option (Advance V E) -> machine -> Prop) :
  solo g tk bs x sh l -> runnable (sh_state sh) ->
  (forall x', solo g tk bs x' sh l -> wp (transition 0 image) Q (fun _ _ => False) (x', h)) ->
  wp (turn image) Q (fun _ _ => False) (x, h).
Proof.
  intros Hs Hrun HQ. unfold turn. apply wp_bind, (wp_solo_task _ _ _ _ _ _ _ _ _ Hs). intros st.
  assert (terminal_result (task_state (task_of sh st)) = None) as -> by (simpl; by destruct (sh_state sh)).
  destruct (solo_live _ _ _ _ _ _ Hs) as [Habort Hmax].
  assert (enforce_step_limit x = x) as Henforce by (unfold enforce_step_limit; by rewrite Habort, Hmax).
  wp_step wp_exec. rewrite Henforce. wp_step wp_put_exec. wp_step wp_exec.
  apply wp_bind. pose proof (solo_positive _ _ _ _ _ _ Hs) as Hpos.
  pose proof (solo_cursor _ _ _ _ _ _ Hs) as Hcur.
  eapply wp_mono; [eapply (wp_scan_solo _ _ _ _ _ _ (range (len (tasks x))) (fun _ _ => False) Hs Hrun)| |done].
  { apply list.Forall_forall. intros o. by rewrite elem_of_range. }
  { by apply scan_offset. }
  intros a s [-> ->]. unfold charge. apply wp_bind, wp_bind, wp_exec. rewrite Habort.
  wp_step wp_put_exec. apply wp_ret. cbv beta iota. wp_step wp_exec. wp_step wp_put_exec.
  apply wp_bind, wp_attempt. eapply wp_mono; [apply HQ|by intros a s Ha|done].
  destruct Hs. split; try done. simpl. apply N.mod_lt. lia.
Qed.

Lemma shows_runnable sh (m : mode D F) : shows_mode sh m -> runnable (sh_state sh).
Proof. destruct m; simpl; [by intros (-> & _)|by intros (r' & -> & _)]. Qed.

(** One turn is one step of the configuration. *)
Lemma wp_turn_step tk x h c c' :
  shows g tk x c ->
  advance_conf decides fault_failure diagnostic (payload_image image) (set_width g) (set_room g) c
    = Some c' ->
  wp (turn image) (quiet g tk c') (fun _ _ => False) (x, h).
Proof.
  intros (sh & l & bs & m & Hs & Hm & ->) Hc.
  eapply wp_turn_solo; [done|by eapply shows_runnable|].
  intros x' Hs'. eapply wp_step_transition; [|done]. by exists sh, l, bs, m.
Qed.

(** ** The end *)

(** The root task has ended with a result. *)
Definition ended x (d : Result D F) : Prop :=
  exec_image_id x = set_image g /\
  exists r t, get (tasks x) 0 = Some t /\ task_state t = SDone r /\ erase r = d.

Lemma wp_turn_end tk x h c d :
  shows g tk x c -> cf_mode c = MReturning d -> cf_stack c = [] ->
  wp (turn image) (fun a s => a = None /\ ended (fst s) d) (fun _ _ => False) (x, h).
Proof.
  intros (sh & l & bs & m & Hs & Hm & ->) Hmode Hstack. simpl in Hmode, Hstack. subst m.
  apply fmap_nil_inv in Hstack as ->. destruct Hm as (r & Hstate & Hr).
  eapply wp_turn_solo; [done|by rewrite Hstate|]. intros x1 Hs1. unfold transition.
  apply wp_bind, (wp_solo_task _ _ _ _ _ _ _ _ _ Hs1). intros st.
  apply wp_bind, (wp_solo_state Hs1). intros x2 Hs2. simpl. rewrite Hstate.
  unfold transition_returning. wp_step wp_exec. wp_step wp_host. intros r' h1 Hr'.
  destruct (solo_root _ _ _ _ _ _ Hs2) as [st2 Hst2].
  apply (task_influence_Some _ _ _ _ _ _ _ Hst2) in Hr'.
  wp_step wp_host. intros ctl h2 _. apply wp_bind, (wp_solo_task _ _ _ _ _ _ _ _ _ Hs2). intros st3.
  assert (forall h3 v, wp (set_input 0 (Some v) ;;; unwind 0 r' image)
    (fun a s => a = None /\ ended (fst s) d) (fun _ _ => False) (x2, h3)) as Hrest.
  { intros h3 v. apply wp_bind, (wp_solo_input Hs2). intros x3 Hs3.
    unfold unwind. apply wp_bind, (wp_solo_pop Hs3), wp_bind, (wp_solo_state Hs3).
    intros x4 Hs4. apply wp_ret. split; [done|].
    destruct (solo_root _ _ _ _ _ _ Hs4) as [st4 Hst4].
    split; [by rewrite (solo_setting _ _ _ _ _ _ Hs4)|]. exists r'. eexists. split; [done|].
    split; [done|congruence]. }
  destruct (task_input (task_of _ st3)); simpl.
  - wp_step wp_host. intros input h3 _. apply Hrest.
  - wp_step wp_ret. apply Hrest.
Qed.

Lemma wp_turn_ended x h d :
  ended x d ->
  wp (turn image) (fun a s => exists r, a = Some (ADone r) /\ erase r = d /\ s = (x, h))
    (fun _ _ => False) (x, h).
Proof.
  intros (_ & r & t & Ht & Hstate & Hr). unfold turn. apply wp_bind. eapply wp_task_at; [done|].
  rewrite Hstate. simpl. apply wp_ret. by exists r.
Qed.

(** ** Requests *)

Definition asks {V' E'} (n : Node V' E') : option N :=
  match node_kind n with
  | NRequest import | NScope import _ => Some import
  | _ => None
  end.

(** The task waits at [pc] with the input [v], in all else as in [c]. *)
Definition waiting tk x c (pc : N) (v : D) : Prop :=
  exists sh l bs w, solo g tk bs x sh l /\ sh_state sh = SWaiting tk pc /\
    sh_input sh = Some w /\ value_of w = v /\ c = conf_of sh l bs (MReady pc v).

Definition erase_request (q : Request V) : Request D :=
  mkRequest (request_task q) (request_ticket q) (request_import q) (value_of (request_input q)) (request_context q)
    (request_position q) (request_cleanup q).

(** The request of a task at an instruction that asks the host. *)
Definition request_of tk c (n : Node V E) (import : N) (v : D) : Request D :=
  mkRequest 0 tk import v (cf_context c) (node_position n) (0 <? cf_cleaning c).

Definition requests tk c n import pc v (a : option (Advance V E)) (s : machine (H := H)) : Prop :=
  exists q, a = Some (ARequest q) /\ erase_request q = request_of tk c n import v /\
    waiting tk (fst s) c pc v.

Lemma solo_tick tk bs x sh l tk' : solo g tk bs x sh l -> solo g tk' bs (with_ticket x tk') sh l.
Proof. by intros []. Qed.

Lemma wp_turn_request tk x h c pc v n import :
  shows g tk x c -> cf_mode c = MReady pc v ->
  get (nodes image) pc = Some n -> asks n = Some import -> import < imports image ->
  tk < u64_max ->
  wp (turn image) (requests (tk + 1) c n import pc v) (fun _ _ => False) (x, h).
Proof.
  intros (sh & l & bs & m & Hs & Hm & ->) Hmode Hn Hasks Himp Htk. simpl in Hmode. subst m.
  eapply wp_turn_solo; [done|by eapply shows_runnable|]. intros x1 Hs1.
  destruct Hm as (Hstate & Hpc & Hin). destruct (sh_input sh) as [w|] eqn:Hw; [|done].
  injection Hin as Hv. unfold transition.
  apply wp_bind, (wp_solo_task _ _ _ _ _ _ _ _ _ Hs1). intros st.
  apply wp_bind, (wp_solo_state Hs1). intros x2 Hs2. simpl. rewrite Hstate.
  unfold transition_ready. apply wp_bind, (wp_solo_task _ _ _ _ _ _ _ _ _ Hs2). intros st2. simpl.
  rewrite Hpc, Hw. unfold node_at. rewrite Hn.
  apply wp_bind, wp_lift_result; [|done]. intros ? [= <-].
  apply wp_bind, wp_require; [|done]. intros ? [= <-].
  assert (retained_input n w = ret w) as -> by (unfold asks, retained_input in *; by destruct (node_kind n)).
  wp_step wp_ret. apply wp_bind, (wp_solo_input Hs2). intros x3 Hs3.
  assert (execute 0 pc n w image =
    if imports image <=? import then throw InvalidImport else issue 0 pc import (node_position n) w) as ->.
  { unfold execute, asks in *. destruct (node_kind n); simplify_eq; done. }
  rewrite (proj2 (N.leb_gt _ _)) by done. unfold issue. wp_step wp_exec.
  rewrite (solo_ticket _ _ _ _ _ _ Hs3). apply wp_bind, wp_require.
  2:{ intros Hnone. unfold checked_add in Hnone. rewrite (proj2 (N.leb_le _ _)) in Hnone; [done|lia]. }
  intros tk' [-> _]%checked_add_Some. wp_step wp_put_exec.
  apply wp_bind, (wp_solo_state (solo_tick _ _ _ _ _ (tk + 1) Hs3)). intros x4 Hs4.
  apply wp_bind, (wp_solo_task _ _ _ _ _ _ _ _ _ Hs4). intros st4. apply wp_ret.
  eexists. split; [done|]. split; [unfold erase_request, request_of; simpl; by rewrite Hv|].
  by exists (shape_state (shape_input (shape_state sh SReady) (Some w)) (SWaiting (tk + 1) pc)), l, bs, w.
Qed.

(** ** Answers *)

(** Up to the event, completion of a waiting root task. *)
Lemma wp_complete_waiting tk bs x h sh l pc w event (Q : unit -> machine -> Prop) :
  image_id image = set_image g ->
  solo g tk bs x sh l -> sh_state sh = SWaiting tk pc -> sh_input sh = Some w ->
  (forall entry input, event <> HContinue entry input) ->
  (forall x' h' w', solo g tk bs x' (shape_input sh (Some w')) l -> value_of w' = value_of w ->
     wp match event with
        | HComplete result => finish 0 pc result image
        | HEnter context => enter_scope 0 pc context image
        | HContinue entry input => enter_continuation 0 pc entry input image
        end Q (fun _ _ => False) (x', h')) ->
  wp (complete 0 tk event image) Q (fun _ _ => False) (x, h).
Proof.
  intros Hid Hs Hstate Hw Hevent HQ. destruct (solo_root _ _ _ _ _ _ Hs) as [st Hst].
  unfold complete. wp_step wp_exec. pose proof (solo_setting _ _ _ _ _ _ Hs) as Hg.
  rewrite bool_decide_true by (by rewrite Hid, Hg). simpl negb. cbv iota.
  apply wp_bind, (wp_solo_task _ _ _ _ _ _ _ _ _ Hs). intros st1. simpl.
  rewrite Hst, Hstate. simpl. rewrite Hstate, N.eqb_refl.
  assert (solo g tk bs x (shape_input sh (Some w)) l) as Hsame.
  { unfold shape_input. rewrite <- Hw. by destruct sh. }
  destruct event as [r|ctx|]; simpl; [| |by edestruct Hevent].
  - apply wp_bind, wp_bind, wp_host. intros ctl h1 _. apply wp_ret.
    apply wp_bind. unfold keep_control. apply wp_bind, (wp_solo_task _ _ _ _ _ _ _ _ _ Hs). intros st2.
    simpl. rewrite Hw. wp_step wp_host. intros w' h2 Hw'%influence_Some.
    apply (wp_solo_input Hs). intros x' Hs'. by eapply HQ.
  - wp_step wp_ret. wp_step wp_ret. by eapply HQ.
Qed.

Lemma wp_complete_result tk x h c pc v n r :
  image_id image = set_image g ->
  waiting tk x c pc v -> get (nodes image) pc = Some n ->
  wp (complete 0 tk (HComplete r) image)
    (fun _ => reaches g tk (with_mode c (after (node_next n) (erase r)))) (fun _ _ => False) (x, h).
Proof.
  intros Hid (sh & l & bs & w & Hs & Hstate & Hw & Hv & ->) Hn.
  eapply wp_complete_waiting; [done..|]. intros x' h' w' Hs' _.
  by apply (wp_step_finish _ _ _ _ _ _ _ _ _ _ _ _ Hs').
Qed.

(** Entering the body of a scope. *)
Lemma wp_complete_enter tk x h c pc v n import body context :
  image_id image = set_image g ->
  waiting tk x c pc v -> get (nodes image) pc = Some n -> node_kind n = NScope import body ->
  len (cf_stack c) + 2 <= set_room g ->
  wp (complete 0 tk (HEnter context) image)
    (fun _ => reaches g tk (mkConf (MReady body v) (FContext (cf_context c) :: FFinish pc :: cf_stack c)
                              context (cf_cleaning c) (cf_row c))) (fun _ _ => False) (x, h).
Proof.
  intros Hid (sh & l & bs & w & Hs & Hstate & Hw & Hv & ->) Hn Hkind Hroom.
  simpl in Hroom. rewrite len_erase in Hroom.
  eapply wp_complete_waiting; [done..|]. intros x1 h1 w1 Hs1 Hw1. unfold enter_scope, node_at.
  rewrite Hn. apply wp_bind, wp_lift_result; [|done]. intros ? [= <-]. rewrite Hkind.
  wp_step wp_exec. apply wp_bind, (wp_solo_check Hs1); [done|lia|].
  apply wp_bind, (wp_solo_push Hs1); [done|lia|]. intros x2 Hs2.
  apply wp_bind, (wp_solo_task _ _ _ _ _ _ _ _ _ Hs2). intros st2. simpl.
  apply wp_bind, (wp_solo_push Hs2); [done|unfold len in *; simpl; lia|]. intros x3 Hs3.
  apply wp_bind, (wp_solo_context Hs3). intros x4 Hs4.
  apply wp_bind, (wp_solo_task _ _ _ _ _ _ _ _ _ Hs4). intros st4. simpl.
  apply wp_bind, (wp_solo_input Hs4). intros x5 Hs5.
  apply wp_bind, wp_ret.
  rewrite <- Hv, <- Hw1. by apply (wp_step_start _ _ _ _ _ _ _ _ _ _ Hs5).
Qed.
End turns.
