(* ===== verification/PortableEval.v ===== *)
(** * What a portable program computes

    An evaluator of the source algebra: the result of an expression for an input, with the
    operations, transforms, waits, modules and identities left to the host. [eval_steps_conf]
    shows that the code of an expression takes the configuration of one task from its first
    instruction to the evaluator's result. *)

From stdpp Require Import base numbers list option strings gmap.
From S2P Require Import Prelude Program Frame Text Path Collection ValueList ValueMap Value Source.
From S2P Require Import Portable PortableLower PortableCode Machine Solo SoloTurn.

Local Open Scope N_scope.

(** The host's side of a run: its state [W], what it makes of a request, and whether it admits
    an identity, to which context. *)
Class Host (W : Type) : Type := {
  perform : Import -> Value -> N -> bool -> W -> Result Value Failure * W;
  authorize : Path -> Value -> N -> bool -> W -> Result N Failure * W
}.

(** Why an evaluation gives no result: the expression is nested deeper than asked for, it
    reaches concurrent branches, of which the evaluator gives no account, the tickets of requests ran out, or the
    expression is not a part of a closed program. *)
Inductive gap : Type := Nesting | Concurrency | Tickets | Illformed.

Section eval.
Context {J W : Type} `{JsonNumber J} `{!Host W}.
Context (decides : Value -> Result bool Failure) (fault_failure : Fault -> Failure).
Context (diagnostic : Failure -> Value).
Context (functions : text -> option (Expression J)).
Implicit Types (e : Expression J) (v : Value) (w : W) (tk : N) (r : Result Value Failure).

(** A computation with the host's state and the number of tickets issued. *)
Definition eval_comp (A : Type) : Type := W * N -> A * (W * N) + gap.
Definition eval_ret {A} (a : A) : eval_comp A := fun s => inl (a, s).
Definition eval_bind {A B} (c : eval_comp A) (k : A -> eval_comp B) : eval_comp B :=
  fun s => match c s with inl (a, s') => k a s' | inr g => inr g end.
Definition eval_gap {A} (g : gap) : eval_comp A := fun _ => inr g.

(** A request takes a ticket. *)
Definition ask {A} (f : W -> A * W) : eval_comp A :=
  fun '(w, tk) => if tk <? u64_max then let '(a, w') := f w in inl (a, (w', tk + 1)) else inr Tickets.

(** Going on with the value of a result. *)
Definition eval_ok (c : eval_comp (Result Value Failure)) (k : Value -> eval_comp (Result Value Failure))
    : eval_comp (Result Value Failure) :=
  eval_bind c (fun r => match r with Ok v => k v | Err f => eval_ret (Err f) end).

Fixpoint eval_loop (condition body : Value -> eval_comp (Result Value Failure)) (left_ : nat) v
    : eval_comp (Result Value Failure) :=
  eval_ok (condition v) (fun test =>
    match decides test with
    | Ok false => eval_ret (Ok v)
    | Ok true =>
        match left_ with
        | O => eval_ret (Err (fault_failure Iterations))
        | S left_ => eval_ok (body v) (eval_loop condition body left_)
        end
    | Err f => eval_ret (Err f)
    end).

Fixpoint eval_sequence (step : Expression J -> Value -> eval_comp (Result Value Failure))
    (steps : list (Expression J)) v : eval_comp (Result Value Failure) :=
  match steps with
  | [] => eval_ret (Ok v)
  | e :: steps => eval_ok (step e v) (eval_sequence step steps)
  end.

(** The result of an expression nested at most [n] deep, calls included, in the context of the
    acting identity and inside a cleanup or not. *)
Fixpoint eval (n : nat) (context : N) (cleanup : bool) (env : gmap text Value) e v
    : eval_comp (Result Value Failure) :=
  match n with
  | O => eval_gap Nesting
  | S n =>
      match e with
      | ELiteral j => match json_value j with Ok u => eval_ret (Ok u) | Err _ => eval_gap Illformed end
      | EConstant u => eval_ret (Ok u)
      | EInput => eval_ret (Ok v)
      | EUse x => match env !! x with Some u => eval_ret (Ok u) | None => eval_gap Illformed end
      | ELet x value body =>
          eval_ok (eval n context cleanup env value v) (fun u =>
            eval n context cleanup (<[x := u]> env) body u)
      | ESequence steps => eval_sequence (eval n context cleanup env) steps v
      | EInvoke operation => ask (perform (ImportOperation operation) v context cleanup)
      | ETransform operation => ask (perform (ImportTransform operation) v context cleanup)
      | EWait wait => ask (perform (ImportWait wait) v context cleanup)
      | EModule module => ask (perform (ImportModule module) v context cleanup)
      | EIf condition yes no =>
          eval_ok (eval n context cleanup env condition v) (fun test =>
            match decides test with
            | Ok decided => eval n context cleanup env (if decided : bool then yes else no) v
            | Err f => eval_ret (Err f)
            end)
      | EWhile condition body max =>
          eval_loop (eval n context cleanup env condition) (eval n context cleanup env body)
            (N.to_nat max) v
      | EParallel _ _ | ERace _ _ => eval_gap Concurrency
      | ECatch body recover =>
          eval_bind (eval n context cleanup env body v) (fun r =>
            match r with
            | Ok u => eval_ret (Ok u)
            | Err f => eval n context cleanup env recover (diagnostic f)
            end)
      | EFinally body cleaning =>
          eval_bind (eval n context cleanup env body v) (fun original =>
            eval_bind (eval n context true env cleaning v) (fun r =>
              eval_ret (cleaned_result original r)))
      | ECall f =>
          match functions f with
          | Some body => eval n context cleanup ∅ body v
          | None => eval_gap Illformed
          end
      | EActing identity body =>
          eval_bind (ask (authorize identity v context cleanup)) (fun admitted =>
            match admitted with
            | Ok inner => eval n inner cleanup env body v
            | Err f => eval_ret (Err f)
            end)
      | EFail message => eval_ret (Err (failure_policy (t "program") message))
      end
  end.

Lemma eval_bind_inl {A B} (c : eval_comp A) (k : A -> eval_comp B) s b s' :
  eval_bind c k s = inl (b, s') -> exists a s1, c s = inl (a, s1) /\ k a s1 = inl (b, s').
Proof. unfold eval_bind. destruct (c s) as [[a s1]|]; [|done]. by exists a, s1. Qed.

(** A result goes on or is the whole result. *)
Lemma eval_ok_inl c k s r s' :
  eval_ok c k s = inl (r, s') ->
  (exists v s1, c s = inl (Ok v, s1) /\ k v s1 = inl (r, s')) \/
  (exists f, c s = inl (Err f, s') /\ r = Err f).
Proof.
  intros ([v|f] & s1 & Hc & Hk)%eval_bind_inl; [by left; exists v, s1|].
  injection Hk as <- <-. right. by exists f.
Qed.

Lemma ask_inl {A} (f : W -> A * W) s a s' :
  ask f s = inl (a, s') -> s.2 < u64_max /\ f s.1 = (a, s'.1) /\ s'.2 = s.2 + 1.
Proof.
  destruct s as [w tk]. simpl. destruct (N.ltb_spec tk u64_max); [|done].
  destruct (f w) as [a' w']. by intros [= -> <-].
Qed.

(** ** Where an evaluation gives no result *)

(** Concurrent branches occur in an expression. *)
Definition concurrent e : Prop := exists x y, inside (EParallel x y) e \/ inside (ERace x y) e.

Section gaps.
Context (permitted : Prop).

(** The gaps of a closed program: concurrency only where it is permitted. *)
Definition fits (g : gap) : Prop :=
  match g with Concurrency => permitted | Illformed => False | Nesting | Tickets => True end.
Definition fitting {A} (c : eval_comp A) : Prop :=
  forall s, match c s with inl _ => True | inr g => fits g end.

(** An expression of a closed program, under the names of [env]. *)
Definition closed_in (env : gmap text Value) e : Prop :=
  (forall x, free_in x e -> is_Some (env !! x)) /\ ~ bad_literal e /\
  (forall f, inside (ECall f) e -> is_Some (functions f)) /\ (concurrent e -> permitted).

Lemma closed_in_below env e p :
  closed_in env e -> p ∈ expression_parts e ->
  ~ bad_literal p /\ (forall f, inside (ECall f) p -> is_Some (functions f)) /\ (concurrent p -> permitted).
Proof.
  intros (_ & Hl & Hc & Hp) Hin. assert (forall q, inside q p -> inside q e) as Hup
    by (intros q Hq; exact (inside_part _ _ _ Hin Hq)).
  split_and!.
  - intros (j & f & Hj & Hv). apply Hl. exists j, f. auto.
  - auto.
  - intros (x & y & Hx). apply Hp. exists x, y. naive_solver.
Qed.

Lemma closed_in_part env e p :
  closed_in env e -> (forall x a b, e <> ELet x a b) -> p ∈ expression_parts e -> closed_in env p.
Proof.
  intros He Hlet Hin. split; [|by eapply closed_in_below].
  intros x Hx. apply He. by eapply free_part.
Qed.

Lemma closed_in_let env x value body u :
  closed_in env (ELet x value body) -> closed_in env value /\ closed_in (<[x := u]> env) body.
Proof.
  intros He. split; (split; [|eapply closed_in_below; [exact He|set_solver]]).
  - intros y Hy. apply He. by apply free_value.
  - intros y Hy. destruct (decide (x = y)) as [->|Hne]; [by rewrite lookup_insert_eq|].
    rewrite lookup_insert_ne by done. apply He. by apply free_body; [congruence|].
Qed.

Lemma fitting_ret {A} (a : A) : fitting (eval_ret a).
Proof. done. Qed.

Lemma fitting_bind {A B} (c : eval_comp A) (k : A -> eval_comp B) :
  fitting c -> (forall a, fitting (k a)) -> fitting (eval_bind c k).
Proof. intros Hc Hk s. unfold eval_bind. specialize (Hc s). destruct (c s) as [[a s']|g]; [apply Hk|done]. Qed.

Lemma fitting_ok c k : fitting c -> (forall v, fitting (k v)) -> fitting (eval_ok c k).
Proof. intros Hc Hk. apply fitting_bind; [done|]. intros [v|f]; [apply Hk|apply fitting_ret]. Qed.

Lemma fitting_ask {A} (f : W -> A * W) : fitting (ask f).
Proof. intros [w tk]. unfold ask. destruct (tk <? u64_max); [by destruct (f w)|done]. Qed.

Lemma fitting_loop condition body left_ v :
  (forall v, fitting (condition v)) -> (forall v, fitting (body v)) ->
  fitting (eval_loop condition body left_ v).
Proof.
  intros Hc Hb. revert v. induction left_ as [|left_ IH]; intros v; simpl; apply fitting_ok; try done;
    intros test; destruct (decides test) as [[]|]; try apply fitting_ret. by apply fitting_ok.
Qed.

Lemma fitting_sequence step steps v :
  (forall e v, e ∈ steps -> fitting (step e v)) -> fitting (eval_sequence step steps v).
Proof.
  revert v. induction steps as [|e steps IH]; intros v Hs; simpl; [apply fitting_ret|].
  apply fitting_ok; [apply Hs; left|]. intros u. apply IH. intros. apply Hs. by right.
Qed.

(** A closed expression whose functions are closed has no other gaps. *)
Lemma eval_fitting :
  (forall f body, functions f = Some body -> closed_in ∅ body) ->
  forall n context cleanup env e v, closed_in env e -> fitting (eval n context cleanup env e v).
Proof.
  intros Hfun. induction n as [|n IH]; intros context cleanup env e v He; [done|].
  assert (forall p, (forall x a b, e <> ELet x a b) -> p ∈ expression_parts e -> forall ctx cl v,
    fitting (eval n ctx cl env p v)) as Hpart.
  { intros p Hlet Hp ctx cl u. apply IH. by eapply closed_in_part. }
  destruct e; simpl; simpl in Hpart; try apply fitting_ask; try apply fitting_ret.
  - destruct (json_value _) eqn:Hj; [apply fitting_ret|]. destruct He as (_ & [] & _).
    do 2 eexists. split; [apply inside_self|done].
  - destruct He as (Hf & _). destruct (Hf _ (free_use _)) as [u ->]. apply fitting_ret.
  - apply fitting_ok; [apply IH; by eapply (closed_in_let _ _ _ _ VNull)|]. intros u. apply IH.
    by eapply closed_in_let.
  - apply fitting_sequence. intros. by apply Hpart.
  - apply fitting_ok; [apply Hpart; [done|set_solver]|]. intros u.
    destruct (decides u) as [[]|]; [apply Hpart; [done|set_solver]..|apply fitting_ret].
  - apply fitting_loop; intros; (apply Hpart; [done|set_solver]).
  - intros s. apply He. do 2 eexists. left. apply inside_self.
  - intros s. apply He. do 2 eexists. right. apply inside_self.
  - apply fitting_bind; [apply Hpart; [done|set_solver]|]. intros [u|f]; [apply fitting_ret|].
    apply Hpart; [done|set_solver].
  - apply fitting_bind; [apply Hpart; [done|set_solver]|]. intros r.
    apply fitting_bind; [apply Hpart; [done|set_solver]|]. intros. apply fitting_ret.
  - destruct He as (_ & _ & Hc & _). destruct (Hc _ (inside_self _)) as [body Hb]. rewrite Hb.
    apply IH. by eapply Hfun.
  - apply fitting_bind; [apply fitting_ask|]. intros [c|f]; [apply Hpart; [done|set_solver]|apply fitting_ret].
Qed.
End gaps.

(** ** Steps of a run *)

Section runs.
Context (image : ProgramImage Value Failure) (imps : list Import) (width room : N).
Implicit Types (c : conf Value Failure).

Definition next_conf c : option (conf Value Failure) :=
  advance_conf decides fault_failure diagnostic image width room c.

(** One step of the task, or one request with its answer. *)
Inductive run_step : (W * N) * conf Value Failure -> (W * N) * conf Value Failure -> Prop :=
| run_turn s c c' : next_conf c = Some c' -> run_step (s, c) (s, c')
| run_request s s' c pc v n import i r :
    cf_mode c = MReady pc v -> get (nodes image) pc = Some n -> node_kind n = NRequest i ->
    get imps i = Some import -> (forall identity, import <> ImportScope identity) ->
    ask (perform import v (cf_context c) (0 <? cf_cleaning c)) s = inl (r, s') ->
    run_step (s, c) (s', with_mode c (after (node_next n) r))
| run_refused s s' c pc v n identity i body f :
    cf_mode c = MReady pc v -> get (nodes image) pc = Some n -> node_kind n = NScope i body ->
    get imps i = Some (ImportScope identity) ->
    ask (authorize identity v (cf_context c) (0 <? cf_cleaning c)) s = inl (Err f, s') ->
    run_step (s, c) (s', with_mode c (after (node_next n) (Err f)))
| run_admitted s s' c pc v n identity i body context :
    cf_mode c = MReady pc v -> get (nodes image) pc = Some n -> node_kind n = NScope i body ->
    get imps i = Some (ImportScope identity) ->
    ask (authorize identity v (cf_context c) (0 <? cf_cleaning c)) s = inl (Ok context, s') ->
    len (cf_stack c) + 2 <= room ->
    run_step (s, c) (s', mkConf (MReady body v) (FContext (cf_context c) :: FFinish pc :: cf_stack c)
                           context (cf_cleaning c) (cf_row c)).

Definition runs : (W * N) * conf Value Failure -> (W * N) * conf Value Failure -> Prop := rtc run_step.

Lemma runs_turn s c c' z : next_conf c = Some c' -> runs (s, c') z -> runs (s, c) z.
Proof. intros Hc. apply rtc_l. by constructor. Qed.

Lemma enter_room fs (m : mode Value Failure) l ctx k row pc v :
  len fs + len l <= room ->
  enter_conf room (mkConf m l ctx k row) fs pc v = Some (mkConf (MReady pc v) (fs ++ l) ctx k row).
Proof. intros Hr. unfold enter_conf. simpl. by rewrite (proj2 (N.leb_le _ _)). Qed.

Lemma runs_finish s r i kind next l ctx k row z :
  holds (nodes image) i kind next ->
  runs (s, mkConf (after next r) l ctx k row) z ->
  runs (s, mkConf (MReturning r) (FFinish i :: l) ctx k row) z.
Proof.
  intros Hh. apply runs_turn. unfold next_conf, advance_conf. simpl. unfold finish_conf.
  by rewrite Hh.
Qed.

(** An instruction that enters a part under continuations. *)
Lemma runs_execute s i kind next l ctx k row v c' z :
  holds (nodes image) i kind next ->
  execute_conf decides width room (mkConf (MReady i v) l ctx k row) i (mkNode kind next i) v = Some c' ->
  runs (s, c') z ->
  runs (s, mkConf (MReady i v) l ctx k row) z.
Proof.
  intros Hh Hc. apply runs_turn. unfold next_conf, advance_conf. simpl. by rewrite Hh.
Qed.

(** A result that meets a continuation. *)
Lemma runs_resume s r kf l ctx k row c' z :
  resume_conf decides fault_failure diagnostic image width room (mkConf (MReturning r) l ctx k row) kf r
    = Some c' ->
  runs (s, c') z ->
  runs (s, mkConf (MReturning r) (kf :: l) ctx k row) z.
Proof. intros Hc. by apply runs_turn. Qed.

(** ** Code runs to the evaluator's result *)

Section simulation.
Context (target : text -> N).
Hypothesis function_code : forall f body, functions f = Some body ->
  binders body <= width /\
  exists lo hi b, code target imps (nodes image) ∅ 0 body lo hi (target f) b None.

(** The names in scope have the slots that hold their values. *)
Definition env_ok (names : gmap text N) (env : gmap text Value) (row : list (option Value)) : Prop :=
  forall x slot, names !! x = Some slot ->
    slot < width /\ exists v, env !! x = Some v /\ get row slot = Some (Some v).

Definition simulates (n : nat) : Prop :=
  forall names level e lo hi a b next,
    code target imps (nodes image) names level e lo hi a b next ->
  forall ctx k env row l v s r s',
    env_ok names env row -> scope_below names level ->
    level + binders e <= width -> width <= len row ->
    len l + 2 * N.of_nat n <= room -> k + N.of_nat n <= usize_max ->
    eval n ctx (0 <? k) env e v s = inl (r, s') ->
    runs (s, mkConf (MReady a v) l ctx k row) (s', mkConf (after next r) l ctx k row).

Lemma env_ok_insert names env row x level v :
  env_ok names env row -> scope_below names level -> level < width -> width <= len row ->
  env_ok (<[x := level]> names) (<[x := v]> env) (upd row level (Some v)).
Proof.
  intros Henv Hscope Hlevel Hrow y slot [[<- <-]|[Hne Hy]]%lookup_insert_Some.
  - split; [done|]. exists v. rewrite lookup_insert_eq, get_upd_eq by lia. done.
  - destruct (Henv _ _ Hy) as (Hw & u & Hu & Hg). split; [done|]. exists u.
    rewrite lookup_insert_ne by done. split; [done|].
    rewrite get_upd_ne; [done|]. apply Hscope in Hy. lia.
Qed.

(** A part that ends the code it is in runs to its result. *)
Lemma simulates_part n names level e lo hi a b ctx k env row l v s r s1 z :
  simulates n -> code target imps (nodes image) names level e lo hi a b None ->
  env_ok names env row -> scope_below names level ->
  level + binders e <= width -> width <= len row ->
  len l + 2 * N.of_nat n <= room -> k + N.of_nat n <= usize_max ->
  eval n ctx (0 <? k) env e v s = inl (r, s1) ->
  runs (s1, mkConf (MReturning r) l ctx k row) z ->
  runs (s, mkConf (MReady a v) l ctx k row) z.
Proof.
  intros IH Hcode Henv Hscope Hb Hrow Hroom Hk Hev Hz. etrans; [by eapply (IH _ _ _ _ _ _ _ _ Hcode)|].
  by destruct r.
Qed.

(** An expression without parts. *)
Lemma simulates_leaf n names e kind lo next ctx k env row l v s r s' :
  simulates n ->
  leaf_code target imps names e kind -> holds (nodes image) lo kind next ->
  env_ok names env row -> width <= len row ->
  len l + 2 * N.of_nat (S n) <= room -> k + N.of_nat (S n) <= usize_max ->
  eval (S n) ctx (0 <? k) env e v s = inl (r, s') ->
  runs (s, mkConf (MReady lo v) l ctx k row) (s', mkConf (after next r) l ctx k row).
Proof.
  intros IH Hleaf Hh Henv Hrow Hroom Hk Hev.
  assert (forall i import, get imps i = Some import -> kind = NRequest i ->
    (forall identity, import <> ImportScope identity) ->
    ask (perform import v ctx (0 <? k)) s = inl (r, s') ->
    runs (s, mkConf (MReady lo v) l ctx k row) (s', mkConf (after next r) l ctx k row)) as Hask.
  { intros i import Hi -> Hscope Hr. apply rtc_once.
    by eapply (run_request s s' (mkConf (MReady lo v) l ctx k row) lo v (mkNode _ next lo)). }
  destruct Hleaf as [j u Hj|u| | |x slot Hx|op i Hi|op i Hi|wt i Hi|md i Hi|f|msg]; simpl in Hev.
  - rewrite Hj in Hev. injection Hev as <- <-. by eapply runs_execute.
  - injection Hev as <- <-. by eapply runs_execute.
  - injection Hev as <- <-. by eapply runs_execute.
  - injection Hev as <- <-. by eapply runs_execute.
  - destruct (Henv _ _ Hx) as (Hslot & u & Hu & Hg). rewrite Hu in Hev. injection Hev as <- <-.
    eapply runs_execute; [done| |done]. cbn -[N.leb]. rewrite (proj2 (N.leb_gt _ _)) by done. by rewrite Hg.
  - by eapply Hask.
  - by eapply Hask.
  - by eapply Hask.
  - by eapply Hask.
  - destruct (functions f) as [body|] eqn:Hf; [|done].
    destruct (function_code _ _ Hf) as (Hb & flo & fhi & fb & Hcode).
    eapply runs_execute; [done|simpl; apply enter_room; unfold len in *; simpl; lia|].
    eapply simulates_part; [done|exact Hcode|done|done|done|done|..]; eauto;
      [unfold len in *; simpl; lia|lia|]. by eapply runs_finish.
  - injection Hev as <- <-. by eapply runs_execute.
Qed.

(** Composites: each enters its parts with at most two continuations on the stack. *)
Section composite.
Context {n : nat} (IH : simulates n).
Context {names : gmap text N} {level last : N} {next : option N}.
Context {ctx k : N} {env : gmap text Value} {row : list (option Value)}.
Context {l : list (FrameKind Value Failure)}.
Hypotheses (Henv : env_ok names env row) (Hscope : scope_below names level).
Hypotheses (Hrow : width <= len row) (Hroom : len l + 2 * N.of_nat (S n) <= room).
Hypothesis Hk : k + N.of_nat (S n) <= usize_max.

Ltac room := unfold len in *; simpl; lia.
Ltac enter Hh := eapply runs_execute; [exact Hh|simpl; apply enter_room; room|]; simpl app.
(** Running a part, given its code. *)
Ltac part C := eapply simulates_part;
  [exact IH|exact C|eassumption|eassumption|lia|eassumption|room|lia|eassumption|].
Ltac resume := eapply runs_resume; [reflexivity|].
Ltac finish Hh := eapply runs_finish; [exact Hh|]; reflexivity.

Lemma simulates_let {x value body lo mid hi va vb ba bb v s r s'} :
  code target imps (nodes image) names level value lo mid va vb None ->
  code target imps (nodes image) (<[x := level]> names) (level + 1) body mid hi ba bb None ->
  holds (nodes image) last (NLet level va ba) next ->
  level + binders (ELet x value body) <= width ->
  eval (S n) ctx (0 <? k) env (ELet x value body) v s = inl (r, s') ->
  runs (s, mkConf (MReady last v) l ctx k row) (s', mkConf (after next r) l ctx k row).
Proof.
  intros Hvalue Hbody Hh Hb [(u & s1 & Hev & Hev')|(f & Hev & ->)]%eval_ok_inl; simpl in Hb.
  2:{ enter Hh. part Hvalue. resume. finish Hh. }
  assert (level < width) as Hlevel by lia.
  destruct (get_lt row level) as [previous Hp]; [lia|].
  enter Hh. part Hvalue. eapply runs_resume.
  { cbn -[N.leb]. rewrite (proj2 (N.leb_gt _ _)) by done. rewrite Hp. apply enter_room. room. }
  simpl app. cbv beta. unfold with_row. cbn [cf_row cf_mode cf_stack cf_context cf_cleaning].
  eapply simulates_part; [exact IH|exact Hbody|by apply env_ok_insert|by apply scope_below_insert
    |lia|by rewrite len_upd|room|lia|eassumption|].
  eapply runs_resume.
  { cbn -[N.leb]. rewrite (proj2 (N.leb_gt _ _)) by done. reflexivity. }
  unfold return_conf, with_row, with_mode. cbn [cf_row cf_mode cf_stack cf_context cf_cleaning].
  rewrite upd_upd, upd_id by done. finish Hh.
Qed.

Lemma simulates_if {x y z lo mid mid' hi a a' b b' d d' v s r s'} :
  code target imps (nodes image) names level x lo mid a a' None ->
  code target imps (nodes image) names level y mid mid' b b' None ->
  code target imps (nodes image) names level z mid' hi d d' None ->
  holds (nodes image) last (NBranch a b d) next ->
  level + binders (EIf x y z) <= width ->
  eval (S n) ctx (0 <? k) env (EIf x y z) v s = inl (r, s') ->
  runs (s, mkConf (MReady last v) l ctx k row) (s', mkConf (after next r) l ctx k row).
Proof.
  intros Hx Hy Hz Hh Hb [(u & s1 & Hev & Hev')|(f & Hev & ->)]%eval_ok_inl; simpl in Hb.
  2:{ enter Hh. part Hx. resume. finish Hh. }
  enter Hh. part Hx. destruct (decides u) as [[]|f] eqn:Hd.
  - eapply runs_resume; [simpl; rewrite Hd; apply enter_room; room|]. part Hy. finish Hh.
  - eapply runs_resume; [simpl; rewrite Hd; apply enter_room; room|]. part Hz. finish Hh.
  - injection Hev' as <- <-. eapply runs_resume; [simpl; by rewrite Hd|]. finish Hh.
Qed.

Lemma simulates_catch {x y lo mid hi a a' b b' v s r s'} :
  code target imps (nodes image) names level x lo mid a a' None ->
  code target imps (nodes image) names level y mid hi b b' None ->
  holds (nodes image) last (NCatch a b) next ->
  level + binders (ECatch x y) <= width ->
  eval (S n) ctx (0 <? k) env (ECatch x y) v s = inl (r, s') ->
  runs (s, mkConf (MReady last v) l ctx k row) (s', mkConf (after next r) l ctx k row).
Proof.
  intros Hx Hy Hh Hb ([u|f] & s1 & Hev & Hev')%eval_bind_inl; simpl in Hb; enter Hh; part Hx.
  - injection Hev' as <- <-. resume. finish Hh.
  - eapply runs_resume; [apply enter_room; room|]. part Hy. finish Hh.
Qed.

Lemma simulates_finally {x y lo mid hi a a' b b' v s r s'} :
  code target imps (nodes image) names level x lo mid a a' None ->
  code target imps (nodes image) names level y mid hi b b' None ->
  holds (nodes image) last (NFinally a b) next ->
  level + binders (EFinally x y) <= width ->
  eval (S n) ctx (0 <? k) env (EFinally x y) v s = inl (r, s') ->
  runs (s, mkConf (MReady last v) l ctx k row) (s', mkConf (after next r) l ctx k row).
Proof.
  intros Hx Hy Hh Hb (original & s1 & Hev & Hev')%eval_bind_inl; simpl in Hb.
  apply eval_bind_inl in Hev' as (r2 & s2 & Hev' & [= <- <-]).
  assert (eval n ctx (0 <? k + 1) env y v s1 = inl (r2, s2)) as Hclean.
  { rewrite (proj2 (N.ltb_lt _ _)) by lia. exact Hev'. }
  clear Hev'.
  enter Hh. part Hx. eapply runs_resume.
  { cbn -[N.leb]. rewrite (proj2 (N.leb_le _ _)) by lia. apply enter_room. room. }
  simpl app. cbn [cf_row cf_mode cf_stack cf_context cf_cleaning]. part Hy. resume.
  unfold return_conf, with_mode, with_depth. simpl.
  replace (k + 1 - 1) with k by lia. finish Hh.
Qed.

Lemma simulates_acting {identity x i lo hi a a' v s r s'} :
  get imps i = Some (ImportScope identity) ->
  code target imps (nodes image) names level x lo hi a a' None ->
  holds (nodes image) last (NScope i a) next ->
  level + binders (EActing identity x) <= width ->
  eval (S n) ctx (0 <? k) env (EActing identity x) v s = inl (r, s') ->
  runs (s, mkConf (MReady last v) l ctx k row) (s', mkConf (after next r) l ctx k row).
Proof.
  intros Hi Hx Hh Hb ([inner|f] & s1 & Hev & Hev')%eval_bind_inl; simpl in Hb.
  - eapply rtc_l; [eapply run_admitted; [reflexivity|exact Hh|reflexivity|exact Hi|exact Hev|room]|].
    cbn [cf_row cf_mode cf_stack cf_context cf_cleaning]. part Hx. resume. finish Hh.
  - injection Hev' as <- <-. eapply rtc_once.
    by eapply (run_refused _ _ (mkConf (MReady last v) l ctx k row) last v (mkNode _ next last)).
Qed.

(** A loop, from the test of its condition on. *)
Lemma simulates_loop x y lo mid hi a a' b b' :
  code target imps (nodes image) names level x lo mid a a' None ->
  code target imps (nodes image) names level y mid hi b b' None ->
  level + binders x <= width -> level + binders y <= width ->
  forall left_ v s r s', eval_loop (eval n ctx (0 <? k) env x) (eval n ctx (0 <? k) env y) left_ v s
    = inl (r, s') ->
  runs (s, mkConf (MReady a v) (FCondition a b (N.of_nat left_) v :: FFinish last :: l) ctx k row)
    (s', mkConf (MReturning r) (FFinish last :: l) ctx k row).
Proof.
  intros Hx Hy Hbx Hby. induction left_ as [|left_ IHl]; intros v s r s'; simpl eval_loop;
    intros [(u & s1 & Hev & Hev')|(f & Hev & ->)]%eval_ok_inl; part Hx; try (resume; reflexivity);
    destruct (decides u) as [[]|f] eqn:Hd.
  - injection Hev' as <- <-. eapply runs_resume; [simpl; by rewrite Hd|reflexivity].
  - injection Hev' as <- <-. eapply runs_resume; [simpl; by rewrite Hd|reflexivity].
  - injection Hev' as <- <-. eapply runs_resume; [simpl; by rewrite Hd|reflexivity].
  - eapply runs_resume.
    { cbn -[N.ltb N.of_nat]. rewrite Hd, (proj2 (N.ltb_lt _ _)) by lia. apply enter_room. room. }
    replace (N.of_nat (S left_) - 1) with (N.of_nat left_) by lia. simpl app.
    apply eval_ok_inl in Hev' as [(v' & s2 & Hev1 & Hev2)|(f & Hev1 & ->)]; part Hy.
    + eapply runs_resume; [apply enter_room; room|]. by apply IHl.
    + resume. reflexivity.
  - injection Hev' as <- <-. eapply runs_resume; [simpl; by rewrite Hd|reflexivity].
  - injection Hev' as <- <-. eapply runs_resume; [simpl; by rewrite Hd|reflexivity].
Qed.

Lemma simulates_while {x y max lo mid hi a a' b b' v s r s'} :
  code target imps (nodes image) names level x lo mid a a' None ->
  code target imps (nodes image) names level y mid hi b b' None ->
  holds (nodes image) last (NWhile a b max) next ->
  level + binders (EWhile x y max) <= width ->
  eval (S n) ctx (0 <? k) env (EWhile x y max) v s = inl (r, s') ->
  runs (s, mkConf (MReady last v) l ctx k row) (s', mkConf (after next r) l ctx k row).
Proof.
  intros Hx Hy Hh Hb Hev. simpl in Hb, Hev. enter Hh.
  replace max with (N.of_nat (N.to_nat max)) by lia.
  etrans; [eapply (simulates_loop _ _ _ _ _ _ _ _ _ Hx Hy); [lia|lia|eassumption]|]. finish Hh.
Qed.

Lemma simulates_sequence steps : forall lo hi a b v s r s',
  code_steps target imps (nodes image) names level steps lo hi a b next ->
  level + steps_binders steps <= width ->
  eval_sequence (eval n ctx (0 <? k) env) steps v s = inl (r, s') ->
  runs (s, mkConf (MReady a v) l ctx k row) (s', mkConf (after next r) l ctx k row).
Proof.
  induction steps as [|e steps IHs]; intros lo hi a b v s r s' Hc Hb Hev; [by inversion Hc|].
  assert (level + binders e <= width /\ level + steps_binders steps <= width) as [Hbe Hbs].
  { unfold steps_binders in *. simpl in Hb. simpl. lia. }
  assert (forall next1 a1 r1 s1, (exists lo hi b, code target imps (nodes image) names level e lo hi a1 b next1) ->
    eval n ctx (0 <? k) env e v s = inl (r1, s1) ->
    runs (s, mkConf (MReady a1 v) l ctx k row) (s1, mkConf (after next1 r1) l ctx k row)) as He.
  { intros next1 a1 r1 s1 (? & ? & ? & Hce) He. by eapply (IH _ _ _ _ _ _ _ _ Hce); eauto; lia. }
  simpl in Hev. apply eval_ok_inl in Hev as [(u & s1 & Hev & Hev')|(f & Hev & ->)];
    inversion Hc as [? ? ? ? ? ? ? ? Hce|? ? ? ? ? ? ? ? ? a2 ? ? Hrest Hce]; subst.
  - injection Hev' as <- <-. by apply He; [eauto|].
  - etrans; [apply (He (Some a2)); eauto|]. simpl. by eapply IHs.
  - by apply He; [eauto|].
  - by apply (He (Some a2) a (Err f)); [eauto|].
Qed.
End composite.

(** The code of an expression runs to its result. *)
Theorem eval_runs n : simulates n.
Proof.
  induction n as [|n IH]; [by intros ? ? ? ? ? ? ? ? ? ? ? ? ? ? ? ? ? ?|].
  intros names level e lo hi a b next Hcode ctx k env row l v s r s' Henv Hscope Hb Hrow Hroom Hk Hev.
  destruct Hcode as [? ? ? ? ? ? Hleaf Hh|? ? x value body ? ? ? ? ? ? ? ? Hv Hbody Hh
    |? ? ? x y kind ? ? ? ? ? ? ? ? Htwo Hx Hy Hh|? ? x y z ? ? ? ? ? ? ? ? ? ? ? Hx Hy Hz Hh
    |? ? identity x ? ? ? ? ? ? Hi Hx Hh|? ? steps ? ? ? ? ? Hsteps].
  - by eapply simulates_leaf.
  - exact (simulates_let IH Henv Hscope Hrow Hroom Hk Hv Hbody Hh Hb Hev).
  - destruct Htwo; [|done|done|..].
    + exact (simulates_while IH Henv Hscope Hrow Hroom Hk Hx Hy Hh Hb Hev).
    + exact (simulates_catch IH Henv Hscope Hrow Hroom Hk Hx Hy Hh Hb Hev).
    + exact (simulates_finally IH Henv Hscope Hrow Hroom Hk Hx Hy Hh Hb Hev).
  - exact (simulates_if IH Henv Hscope Hrow Hroom Hk Hx Hy Hz Hh Hb Hev).
  - exact (simulates_acting IH Henv Hscope Hrow Hroom Hk Hi Hx Hh Hb Hev).
  - by eapply simulates_sequence.
Qed.
End simulation.
End runs.
End eval.
