(* ===== verification/PortableRun.v ===== *)
(** * Runs of compiled portable programs

    A host that drives the execution of an image: it advances the machine by a budget of turns
    and answers every request at once. [drive_runs] shows that the machine follows the steps of
    PortableEval.v, so a compiled program returns what its source evaluates to. *)

From stdpp Require Import base numbers list option strings gmap.
From S2P Require Import Prelude Program Frame Machine MachineInv MachineHost Solo SoloStep SoloTurn.
From S2P Require Import Text Path Collection ValueList ValueMap Value Source Taint.
From S2P Require Import Portable PortableLower PortableCode PortableSpec PortableShape.
From S2P Require Import PortableProgram PortableProps PortableEval.

Local Open Scope N_scope.

(** ** Driving *)

Section drive.
Context {H V E W : Type} `{!Values H V E}.
Context (answer : Request V -> W -> HostEvent V E * W).
Context (image : ProgramImage V E) (budget : N).

(** What the host does with the outcome of an advance. *)
Definition drive_on (drive : W -> Execution V E * H -> option (Result V E * W)) (w : W)
    (o : outcome (Execution V E * H) Empty_set (Advance V E)) : option (Result V E * W) :=
  match o with
  | Val (ADone r) _ => Some (r, w)
  | Val AYielded s => drive w s
  | Val (ARequest q) s =>
      let '(event, w) := answer q w in
      match complete (request_task q) (request_ticket q) event image s with
      | Val _ s => drive w s
      | _ => None
      end
  | _ => None
  end.

Fixpoint drive (fuel : nat) (w : W) (s : Execution V E * H) : option (Result V E * W) :=
  match fuel with
  | O => None
  | S fuel => drive_on (drive fuel) w (advance image budget s)
  end.

(** The machine, with any number of turns left before the host takes over again, comes to a
    result that satisfies [P]. *)
Definition comes_to (P : Result V E -> W -> Prop) (w : W) (s : Execution V E * H) : Prop :=
  forall k, exists fuel r w', drive_on (drive fuel) w (turns k image s) = Some (r, w') /\ P r w'.

Lemma comes_to_drive P w s :
  exec_image_id (fst s) = image_id image -> comes_to P w s ->
  exists fuel r w', drive fuel w s = Some (r, w') /\ P r w'.
Proof.
  intros Hid Hc. destruct (Hc (N.to_nat budget)) as (fuel & r & w' & Hd & HP).
  exists (S fuel), r, w'. split; [|done]. destruct s as [x h]. simpl.
  unfold advance, bind, exec, gets. simpl in Hid. cbn [fst]. by rewrite bool_decide_true.
Qed.

(** The driver moves on after a turn that yields nothing. *)
Lemma comes_to_turn P w s s' :
  0 < budget -> exec_image_id (fst s) = image_id image ->
  turn image s = Val None s' -> comes_to P w s' -> comes_to P w s.
Proof.
  intros Hb Hid Hturn Hc.
  assert (forall k, exists fuel r w', drive_on (drive fuel) w (turns (S k) image s) = Some (r, w') /\ P r w')
    as HS.
  { intros k. simpl. unfold bind. rewrite Hturn. apply Hc. }
  intros [|k]; [|apply HS]. destruct (HS (N.to_nat budget - 1)%nat) as (fuel & r & w' & Hd & HP).
  replace (S (N.to_nat budget - 1)) with (N.to_nat budget) in Hd by lia.
  exists (S fuel), r, w'. split; [|done]. destruct s as [x h]. simpl.
  unfold advance, bind, exec, gets. simpl in Hid. cbn [fst]. by rewrite bool_decide_true.
Qed.

(** A turn that has something for the host. *)
Lemma comes_to_action P w s a s' :
  0 < budget -> exec_image_id (fst s) = image_id image ->
  turn image s = Val (Some a) s' ->
  (exists fuel r w', drive_on (drive fuel) w (Val a s') = Some (r, w') /\ P r w') ->
  comes_to P w s.
Proof.
  intros Hb Hid Hturn (fuel & r & w' & Hd & HP).
  assert (forall k, turns (S k) image s = Val a s') as HS.
  { intros k. simpl. unfold bind. by rewrite Hturn. }
  intros [|k]; [|exists fuel, r, w'; by rewrite HS].
  exists (S fuel), r, w'. split; [|done]. destruct s as [x h]. simpl.
  unfold advance, bind, exec, gets. simpl in Hid. cbn [fst]. rewrite bool_decide_true by done. simpl.
  replace (N.to_nat budget) with (S (N.to_nat budget - 1)) by lia. by rewrite HS.
Qed.

Lemma comes_to_request P w s q s1 event w1 s2 :
  0 < budget -> exec_image_id (fst s) = image_id image ->
  turn image s = Val (Some (ARequest q)) s1 -> answer q w = (event, w1) ->
  complete (request_task q) (request_ticket q) event image s1 = Val tt s2 ->
  exec_image_id (fst s2) = image_id image ->
  comes_to P w1 s2 -> comes_to P w s.
Proof.
  intros Hb Hid Hturn Ha Hc Hid2 Hrest. eapply comes_to_action; [done..|].
  destruct (comes_to_drive P w1 s2 Hid2 Hrest) as (fuel & r & w' & Hd & HP).
  exists fuel, r, w'. simpl. by rewrite Ha, Hc.
Qed.
End drive.

(** ** The machine follows the steps *)

Section follow.
Context {H V E W : Type} `{!Values H V E} `{!Payload H V E Value Failure} `{!Host W}.
Context (answer : Request V -> W -> HostEvent V E * W).
Context (image : ProgramImage V E) (imps : list Import) (budget : N) (g : setting).

(** An answer whose payload is what the host's side of the run says. *)
Definition answers (q : Request V) (w : W) (import : Import) : Prop :=
  match import with
  | ImportScope identity =>
      match authorize identity (value_of (request_input q)) (request_context q) (request_cleanup q) w with
      | (Ok context, w') => answer q w = (HEnter context, w')
      | (Err f, w') => exists r, answer q w = (HComplete r, w') /\ erase r = Err f
      end
  | _ =>
      let '(d, w') :=
        perform import (value_of (request_input q)) (request_context q) (request_cleanup q) w in
      exists r, answer q w = (HComplete r, w') /\ erase r = d
  end.

Hypothesis Hbudget : 0 < budget.
Hypothesis Hid : image_id image = set_image g.
Hypothesis Himports : imports image = len imps.
Hypothesis Hanswers : forall q w import, get imps (request_import q) = Some import -> answers q w import.

Lemma shows_id tk x (c : conf Value Failure) : shows g tk x c -> exec_image_id x = image_id image.
Proof. intros (sh & l & bs & m & Hs & _). destruct Hs as [? ? -> ? ? ? ? ? ?]. by rewrite Hid. Qed.

(** The instruction behind a payload instruction. *)
Lemma payload_node pc n' : get (nodes (payload_image image)) pc = Some n' ->
  exists n, get (nodes image) pc = Some n /\ node_next n = node_next n' /\ asks n = asks n' /\
    forall i body, node_kind n' = NScope i body -> node_kind n = NScope i body.
Proof.
  intros (n & Hn & ->)%get_payload_inv. exists n. split; [done|].
  destruct n as [[] ? ?]; split_and!; try done; naive_solver.
Qed.

(** A request is issued, answered and completed. *)
Lemma comes_to_answered P w tk c pc v n' i import x h :
  shows g tk x c -> cf_mode c = MReady pc v ->
  get (nodes (payload_image image)) pc = Some n' -> asks n' = Some i ->
  get imps i = Some import -> tk < u64_max ->
  (forall q x1 h1, value_of (request_input q) = v -> request_context q = cf_context c ->
     request_cleanup q = (0 <? cf_cleaning c) -> answers q w import ->
     waiting g (tk + 1) x1 c pc v ->
     exists event w1 c', answer q w = (event, w1) /\
       wp (complete 0 (tk + 1) event image) (fun _ => SoloStep.reaches g (tk + 1) c') (fun _ _ => False) (x1, h1) /\
       (forall x' h', shows g (tk + 1) x' c' -> comes_to answer image budget P w1 (x', h'))) ->
  comes_to answer image budget P w (x, h).
Proof.
  intros Hs Hmode Hn' Hasks Hi Htk Hrest. destruct (payload_node _ _ Hn') as (n & Hn & _ & Hsame & _).
  rewrite <- Hsame in Hasks.
  pose proof (wp_turn_request g image tk x h c pc v n i Hs Hmode Hn Hasks) as Hturn.
  rewrite Himports in Hturn. specialize (Hturn (get_Some_lt _ _ _ Hi) Htk). unfold wp in Hturn.
  destruct (turn image (x, h)) as [a [x1 h1]|f ?|] eqn:Ht; [|destruct f|done].
  destruct Hturn as (q & -> & Hq & Hw). destruct q as [qt qtk qi qin qc qp qcl].
  unfold erase_request, request_of in Hq. simpl in Hq.
  injection Hq as -> -> -> Hv -> -> ->.
  set (q := mkRequest 0 (tk + 1) i qin (cf_context c) (node_position n) (0 <? cf_cleaning c)) in *.
  destruct (Hrest q x1 h1) as (event & w1 & c' & Ha & Hc & Hgo); [done..|by apply Hanswers|done|].
  unfold wp in Hc. destruct (complete 0 _ _ _ _) as [[] [x2 h2]|? ?|] eqn:Hcomplete; [|done..].
  eapply comes_to_request; [done|by apply (shows_id _ _ _ Hs)|done|done|done| |].
  - by apply (shows_id _ _ _ Hc).
  - by apply Hgo.
Qed.

Notation step := (run_step decides fault_failure diagnostic (payload_image image) imps (set_width g) (set_room g)).

(** Every step of a run is followed by the machine. *)
Lemma comes_to_step P w tk c w' tk' c' x h :
  step ((w, tk), c) ((w', tk'), c') -> shows g tk x c ->
  (forall x' h', shows g tk' x' c' -> comes_to answer image budget P w' (x', h')) ->
  comes_to answer image budget P w (x, h).
Proof.
  intros Hstep Hs Hrest. pose proof (shows_id _ _ _ Hs) as Hx. inversion Hstep as
    [? ? ? Hc|? ? ? pc v n' import i r Hmode Hn' Hkind Hi Hplain Hask
    |? ? ? pc v n' identity i body f Hmode Hn' Hkind Hi Hask
    |? ? ? pc v n' identity i body context Hmode Hn' Hkind Hi Hask Hroom]; subst; clear Hstep.
  { pose proof (wp_turn_step g image tk' x h c c' Hs Hc) as Hturn. unfold wp in Hturn.
    destruct (turn image (x, h)) as [a [x1 h1]|f ?|] eqn:Ht; [|destruct f|done].
    destruct Hturn as [-> Hr]. eapply comes_to_turn; [done..|]. by apply Hrest. }
  all: apply ask_inl in Hask as (Htk & Hp & Htk'); simpl in Htk, Hp, Htk'; subst tk'.
  all: destruct (payload_node _ _ Hn') as (n & Hn & Hnext & _ & Hscope).
  all: eapply (comes_to_answered _ w tk c pc v); [done..|unfold asks; by rewrite Hkind|done|done|].
  all: intros q x1 h1 Hqv Hqc Hqcl Ha Hw; unfold answers in Ha; rewrite Hqv, Hqc, Hqcl in Ha.
  - assert (exists r', answer q w = (HComplete r', w') /\ erase r' = r) as (r' & Hans & <-).
    { destruct import; try (by destruct (Hplain identity)); by rewrite Hp in Ha. }
    exists (HComplete r'), w'. eexists. split; [done|]. split; [by eapply wp_complete_result|].
    by rewrite Hnext.
  - rewrite Hp in Ha. destruct Ha as (r' & Hans & Hr').
    exists (HComplete r'), w'. eexists. split; [done|]. split; [by eapply wp_complete_result|].
    by rewrite Hnext, Hr'.
  - rewrite Hp in Ha. exists (HEnter context), w'. eexists. split; [done|].
    split; [eapply wp_complete_enter; eauto|done].
Qed.

Lemma comes_to_runs P z z' x h :
  rtc step z z' -> shows g z.1.2 x z.2 ->
  (forall x' h', shows g z'.1.2 x' z'.2 -> comes_to answer image budget P z'.1.1 (x', h')) ->
  comes_to answer image budget P z.1.1 (x, h).
Proof.
  intros Hr. revert x h. induction Hr as [z|[[w tk] c] [[w1 tk1] c1] z' Hstep Hr IH]; intros x h Hs Hend.
  - by apply Hend.
  - eapply comes_to_step; [done|done|]. intros x' h' Hs'. by apply IH.
Qed.

(** A run that ends is a result of the machine. *)
Lemma comes_to_end w tk c d x h :
  shows g tk x c -> cf_mode c = MReturning d -> cf_stack c = [] ->
  comes_to answer image budget (fun r w' => erase r = d /\ w' = w) w (x, h).
Proof.
  intros Hs Hm Hstack. pose proof (shows_id _ _ _ Hs) as Hx.
  pose proof (wp_turn_end g image tk x h c d Hs Hm Hstack) as Hturn.
  unfold wp in Hturn. destruct (turn image (x, h)) as [a [x1 h1]|f ?|] eqn:Ht; [|destruct f|done].
  destruct Hturn as [-> Hended]. pose proof (proj1 Hended) as Hx1. rewrite <- Hid in Hx1.
  eapply comes_to_turn; [done..|].
  pose proof (wp_turn_ended g image x1 h1 d Hended) as Hdone.
  unfold wp in Hdone. destruct (turn image (x1, h1)) as [a [x2 h2]|f ?|] eqn:Ht2; [|destruct f|done].
  destruct Hdone as (r & -> & Hr & _). eapply comes_to_action; [done..|].
  exists 0%nat, r, w. by split_and!.
Qed.
End follow.

(** ** From a compiled program to its result *)

Section start.
Context {H V E D F : Type} `{!Values H V E} `{!Payload H V E D F}.

(** A new execution is a single ready task. *)
Lemma new_shows image (ts : list (Task V E)) fs bs lim input context x :
  new image ts fs bs lim input context = Ok x -> max_steps lim = None -> len bs <= usize_max ->
  shows (mkSetting lim (len fs) (image_id image)) 0 x
    (mkConf (MReady (entry image) (value_of input)) [] context 0
       (erase_row (D := D) ((fun _ => None) <$> bs))).
Proof.
  intros Hnew Hsteps Hbs. apply new_fresh in Hnew as (-> & _ & [Hpos Hts] & Hfs & _ & Hrows).
  set (sh := mkShape (E := E) SReady (entry image) (Some input) context 0).
  exists sh, [], ((fun _ => None) <$> bs), (MReady (entry image) (value_of input)).
  split; [|by split_and!]. destruct ts as [|t0 ts]; [done|].
  assert (length (t0 :: ts) = S (length ts)) as Hlen by done.
  split; unfold rows_ok; simpl; rewrite ?single_len, ?len_fmap; try done.
  - exists default_stack, (replicate (length ts) default_task). split; [done|].
    by apply Forall_replicate.
  - exists (replicate (length ts) []). split.
    + pose proof (pool_new_spec fs (S (length ts)) Hfs) as Hp. simpl in Hp.
      by rewrite fmap_replicate.
    + clear. by induction (length ts) as [|n IHn]; [|exact IHn].
Qed.
End start.

(** [CompiledProgram::with_provenance]. *)
Definition with_provenance (self : CompiledProgram Value Failure)
    : CompiledProgram TaintedValue TaintedFailure :=
  mkCompiled
    (map_owned (fun value => mkTainted value taint_author) pristine_failure <$> compiled_nodes self)
    (compiled_imports self) (compiled_entry self) (compiled_bindings self) (compiled_hash self).

(** The payloads of an image with provenance are the compiled image. *)
Lemma with_provenance_payload (display : Failure -> text) r :
  payload_image (Payload0 := RuntimePayload display) (compiled_image (with_provenance r))
    = compiled_image r.
Proof.
  unfold payload_image, map_image, compiled_image, with_provenance. simpl. f_equal.
  rewrite <- list_fmap_compose. rewrite <- (list_fmap_id (compiled_nodes r)) at 2.
  apply list_fmap_ext. intros i n _. by destruct n as [[] ? ?].
Qed.

Section theorem.
Context {J W : Type} `{JsonNumber J} `{!Host W}.
Context (check_value : Value -> comp N CompileError unit).
Context (fingerprint : list (Node Value Failure) -> list Import -> N -> N -> option (list N)).
Context (value_charge : Value -> option N).
Context (display : Failure -> text).

(** The function a call names. *)
Definition function_body (p : Program J) (f : text) : option (Expression J) :=
  (list_to_map (program_functions p) : gmap text (Expression J)) !! f.

(** The result of a program, with conditions and diagnostics as the runtime decides them. *)
Definition eval_program (n : nat) (p : Program J) (context : N) (v : Value) : eval_comp (Result Value Failure) :=
  eval decides_payload (fun fault => tainted_failure (runtime_error fault)) (fun f => VStr (display f))
    (function_body p) n context false ∅ (program_body p) v.

(** A program's functions have their code at the addresses of its image. *)
Lemma function_body_code target p imps ns start bindings f body :
  NoDup (program_functions p).*1 -> program_image target p imps ns start bindings ->
  function_body p f = Some body ->
  binders body <= bindings /\
  exists lo hi b, code target imps ns ∅ 0 body lo hi (target f) b None.
Proof.
  intros Hnd Himg Hf. unfold function_body in Hf.
  apply (elem_of_list_to_map_2 (M := gmap text)) in Hf.
  split; [|by eapply img_functions].
  rewrite (img_bindings _ _ _ _ _ _ Himg). unfold bodies.
  assert (body ∈ (program_functions p).*2) as Hin by (by apply list_elem_of_fmap; exists (f, body)).
  simpl. clear -Hin. induction Hin as [? l|? ? l ? IH]; simpl in *; lia.
Qed.

(** The image of a program runs from its entry to the program's result. *)
Lemma program_runs target p r n context v row width room s d s' :
  NoDup (program_functions p).*1 ->
  program_image target p (compiled_imports r) (compiled_nodes r) (compiled_entry r) (compiled_bindings r) ->
  compiled_bindings r <= width -> width <= len row ->
  2 * N.of_nat n <= room -> N.of_nat n <= usize_max ->
  eval_program n p context v s = inl (d, s') ->
  runs decides_payload (fun fault => tainted_failure (runtime_error fault)) (fun f => VStr (display f))
    (compiled_image r) (compiled_imports r) width room
    (s, mkConf (MReady (compiled_entry r) v) [] context 0 row)
    (s', mkConf (MReturning d) [] context 0 row).
Proof.
  intros Hnd Himg Hwidth Hrow Hroom Hn Hev. replace (MReturning d) with (after None d) by (by destruct d).
  destruct (img_body _ _ _ _ _ _ Himg) as (lo & hi & b & Hcode).
  assert (binders (program_body p) <= compiled_bindings r) as Hbody.
  { rewrite (img_bindings _ _ _ _ _ _ Himg). unfold bodies. simpl. lia. }
  eapply (eval_runs _ _ _ (function_body p) _ _ _ _ target) with (n := n); [|exact Hcode|done|done|lia|done|unfold len; cbn [length]; lia|lia|exact Hev].
  intros f body Hf. destruct (function_body_code _ _ _ _ _ _ _ _ Hnd Himg Hf) as [Hb Hc].
  split; [lia|exact Hc].
Qed.

(** The parts of a compiled program are closed. *)
Lemma program_closed_in (p : Program J) e :
  program_closed p -> e ∈ bodies p ->
  closed_in (function_body p) (exists e, e ∈ bodies p /\ concurrent e) ∅ e.
Proof.
  intros [Hnames Hlit Hcalls] He. split_and!.
  - intros x Hx. by destruct (Hnames e x He).
  - by apply Hlit.
  - intros f Hf. specialize (Hcalls e f He Hf). unfold function_body.
    destruct (list_to_map (program_functions p) !! f) eqn:Hl; [done|].
    apply not_elem_of_list_to_map_2 in Hl. done.
  - eauto.
Qed.

Lemma program_gaps (p : Program J) n context v s g :
  program_closed p -> eval_program n p context v s = inr g ->
  fits (exists e, e ∈ bodies p /\ concurrent e) g.
Proof.
  intros Hp Hg. unfold eval_program in Hg.
  pose proof (eval_fitting decides_payload (fun fault => tainted_failure (runtime_error fault))
    (fun f => VStr (display f)) (function_body p) (exists e, e ∈ bodies p /\ concurrent e)) as Hfit.
  specialize (Hfit ltac:(intros f body Hf; apply program_closed_in; [done|]; unfold function_body in Hf;
    apply (elem_of_list_to_map_2 (M := gmap text)) in Hf; right; apply list_elem_of_fmap; by exists (f, body))).
  specialize (Hfit n context false ∅ (program_body p) v (program_closed_in p _ Hp ltac:(left)) s).
  by rewrite Hg in Hfit.
Qed.

(** C19: Running a compiled program computes what its source means, as far as it is evaluated
    one expression at a time. [eval_program] gives no result in three cases only: the source
    has concurrent branches ([Parallel] or [Race]), is nested deeper than [n] levels, calls
    included, or makes as many requests as there are tickets. Where it gives one, on the values with
    provenance the kernel runs on, whatever the number of turns granted at a time, an execution
    of the image without a limit of steps, with two continuations for every level of nesting
    and a host that answers each request before the execution is advanced again, ends with that result, up to
    provenance, and leaves the host in the same state, whatever the host keeps of the
    requests it was asked, their order, inputs and contexts. *)
Theorem compiled_program_computes_source (p : Program J) (limits : CompileLimits)
    (r : CompiledProgram Value Failure) (answer : Request TaintedValue -> W -> HostEvent TaintedValue TaintedFailure * W)
    (n : nat) ts fs bs lim input context x h budget w :
  (forall v, charges (check_value v) (value_charge v)) ->
  NoDup (program_functions p).*1 ->
  compile_with_limits check_value fingerprint p limits tt = Val r tt ->
  let image := compiled_image (with_provenance r) in
  (forall q w import, get (compiled_imports r) (request_import q) = Some import ->
     answers (Values0 := RuntimeValues display) (Payload0 := RuntimePayload display) answer q w import) ->
  new image ts fs bs lim input context = Ok x -> max_steps lim = None -> len bs <= usize_max ->
  2 * N.of_nat n <= frames_per_task lim -> 2 * N.of_nat n <= len fs -> 0 < budget ->
  match eval_program n p context (tainted_value input) (w, 0) with
  | inl (d, (w', requests)) =>
      exists fuel result,
        drive (Values0 := RuntimeValues display) answer image budget fuel w (x, h) = Some (result, w') /\
        erase_result tainted_value tainted_failure result = d
  | inr Concurrency => exists e, e ∈ bodies p /\ concurrent e
  | inr Illformed => False
  | inr Nesting | inr Tickets => True
  end.
Proof.
  intros Hcharges Hnd Hr image Hanswers Hnew Hsteps Hbs Hframes Harena Hbudget.
  destruct (wp_val _ _ _ _ _ _ (wp_compile check_value fingerprint value_charge p limits Hcharges Hnd) Hr)
    as (_ & _ & _ & Hclosed & target & Himg).
  destruct (eval_program n p context (tainted_value input) (w, 0)) as [[d [w' requests]]|g] eqn:Hev.
  2: { pose proof (program_gaps _ _ _ _ _ _ Hclosed Hev) as Hg. by destruct g. }
  pose proof (new_fresh _ _ _ _ _ _ _ _ Hnew) as (_ & _ & [Hts _] & Hfs & Hwidth & Hrows).
  pose proof (new_shows (Payload0 := RuntimePayload display) _ _ _ _ _ _ _ _ Hnew Hsteps Hbs) as Hshows.
  set (g := mkSetting lim (len fs) (image_id image)) in *. set (row := erase_row _) in Hshows.
  assert (len row = len bs) as Hrow by (unfold row, erase_row; by rewrite !len_fmap).
  assert (set_width g <= len row) as Hfit by (rewrite Hrow; unfold set_width; simpl; nia).
  assert (2 * N.of_nat n <= set_room g /\ N.of_nat n <= usize_max) as [Hroom Hn].
  { unfold set_room, usize_max, u64_max, u32_max in *. simpl. lia. }
  pose proof (program_runs target p r n context _ row _ _ _ _ _ Hnd Himg Hwidth Hfit Hroom Hn Hev) as Hruns.
  rewrite <- (with_provenance_payload display) in Hruns.
  destruct (comes_to_drive (Values0 := RuntimeValues display) answer image budget
    (fun result w0 => erase_result tainted_value tainted_failure result = d /\ w0 = w') w (x, h))
    as (fuel & result & w0 & Hdrive & Hres & ->);
    [exact (shows_id (Payload0 := RuntimePayload display) image g eq_refl _ _ _ Hshows)| |by exists fuel, result].
  refine (comes_to_runs (Payload0 := RuntimePayload display) answer image (compiled_imports r) budget g
    Hbudget eq_refl eq_refl Hanswers _ (_, _, _) (_, _, _) x h Hruns Hshows _).
  intros x' h' Hs'. by apply (comes_to_end (Payload0 := RuntimePayload display) answer image budget g Hbudget eq_refl _ _ _ _ _ _ Hs').
Qed.
End theorem.

(** ** A run *)

Section transforms.
Context (value_eqb : Value -> Value -> bool) (debug : Transform -> text).

(** What the executor answers to a transform: the provenance of the operand stays. *)
Definition complete_transform (transform : Transform) (input : TaintedValue)
    : Result TaintedValue TaintedFailure :=
  match transform_apply value_eqb debug transform (tainted_value input) with
  | Ok value => Ok (mkTainted value (value_taint input))
  | Err e => Err (mkTaintedFailure e (value_taint input))
  end.

(** A host that performs transforms, which it counts, and refuses everything else. *)
Definition transform_host : Host N := {|
  perform import v _ _ w :=
    match import with
    | ImportTransform op => (transform_apply value_eqb debug op v, w + 1)
    | _ => (Err Timeout, w)
    end;
  authorize _ _ _ _ w := (Err Timeout, w)
|}.

Definition transform_answer (imps : list Import) (q : Request TaintedValue) (w : N)
    : HostEvent TaintedValue TaintedFailure * N :=
  match get imps (request_import q) with
  | Some (ImportTransform op) => (HComplete (complete_transform op (request_input q)), w + 1)
  | _ => (HComplete (Err (pristine_failure Timeout)), w)
  end.

Lemma transform_answers (display : Failure -> text) imps q w import :
  get imps (request_import q) = Some import ->
  answers (Values0 := RuntimeValues display) (Payload0 := RuntimePayload display) (Host0 := transform_host)
    (transform_answer imps) q w import.
Proof.
  intros Hi. unfold answers, transform_answer. rewrite Hi. destruct import as [| op | | |]; simpl;
    try (eexists; split; [done|reflexivity]).
  eexists. split; [done|]. unfold erase, complete_transform. simpl.
  by destruct (transform_apply _ _ _ _).
Qed.
End transforms.

Definition no_eqb (v v' : Value) : bool := false.
Definition no_text {A} (a : A) : text := [].

Definition sample_run : Execution TaintedValue TaintedFailure :=
  match new (compiled_image (with_provenance sample_compiled)) [default_task] (replicate 20 None) [None]
          (mkLimits 20 1 None 4096) (pristine_value VNull) 7 with
  | Ok x => x
  | Err _ => mkExec [] (mkPool [] default_meta) [] default_limits 0 0 0 0 false []
  end.

(** The sample counts from 41 to 50 in twenty transforms. *)
Lemma compiled_program_computes_source_witness :
  exists fuel result,
    drive (Values0 := RuntimeValues no_text) (transform_answer no_eqb no_text (compiled_imports sample_compiled))
      (compiled_image (with_provenance sample_compiled)) 3 fuel 0 (sample_run, tt) = Some (result, 20) /\
    erase_result tainted_value tainted_failure result = Ok (VInt 50).
Proof.
  pose proof (@compiled_program_computes_source Z N i64_number (transform_host no_eqb no_text) sample_check
    sample_fingerprint (fun _ => Some 1) no_text sample_program default_compile_limits sample_compiled
    (transform_answer no_eqb no_text (compiled_imports sample_compiled)) 10
    [default_task] (replicate 20 None) [None] (mkLimits 20 1 None 4096) (pristine_value VNull) 7
    sample_run tt 3 0 sample_charges sample_names sample_compiles) as Hc. cbv zeta in Hc.
  assert (@eval_program Z N i64_number (transform_host no_eqb no_text) no_text 10 sample_program 7
    (tainted_value (pristine_value VNull)) (0, 0) = inl (Ok (VInt 50), (20, 20))) as He
    by (vm_compute; reflexivity).
  rewrite He in Hc. apply Hc.
  - intros q w import. apply transform_answers.
  - vm_compute. reflexivity.
  - reflexivity.
  - vm_compute. discriminate.
  - vm_compute. discriminate.
  - vm_compute. discriminate.
  - reflexivity.
Defined.
