(* ===== verification/Provenance.v ===== *)
(** * Provenance is never lost

    A label that the input of an execution carries (a source of its taint, say) is carried by
    every value that the execution hands to the host and by its result, through data and through
    control: branches, failures, recovery, joins, host answers and faults. *)

From stdpp Require Import base numbers list option.
From S2P Require Import Prelude Program Frame Machine MachineInv.

Local Open Scope N_scope.
Local Open Scope comp_scope.

(** ** Labels *)

Definition carries_result {V E} (carries : V -> Prop) (blames : E -> Prop) (r : Result V E) : Prop :=
  match r with
  | Ok v => carries v
  | Err e => blames e
  end.

(** A label that influence adds and nothing of the host's values removes. *)
Class Lineage (H V E : Type) `{!Values H V E} (carries : V -> Prop) (blames : E -> Prop) : Prop := {
  influence_keeps : forall v c h, carries v -> carries (fst (influence v c h));
  influence_adds : forall v c h, carries c -> carries (fst (influence v c h));
  influence_result_keeps : forall r c h, carries_result carries blames r ->
    carries_result carries blames (fst (influence_result r c h));
  influence_result_adds : forall r c h, carries c ->
    carries_result carries blames (fst (influence_result r c h));
  retain_result_keeps : forall r h, carries_result carries blames r ->
    carries (fst (retain_result r h));
  retain_control_keeps : forall v h, carries v -> carries (fst (retain_control v h))
}.

Section lineage.
Context {H V E : Type} `{!Values H V E} (carries : V -> Prop) (blames : E -> Prop).
Context `{!Lineage H V E carries blames}.
Implicit Types (x : Execution V E) (h : H) (t : Task V E) (r : Result V E) (i j : N).

Notation carries_result := (carries_result carries blames).

(** ** The invariant *)

Definition state_carries (s : State V E) : Prop :=
  match s with
  | SDone r | SHalted r _ => carries_result r
  | _ => True
  end.

Definition task_carries t : Prop :=
  (forall v, task_input t = Some v -> carries v) /\ state_carries (task_state t).

Definition frame_carries (k : FrameKind V E) : Prop :=
  match k with
  | FFinally _ v | FChoose _ _ v | FCondition _ _ _ v => carries v
  | _ => True
  end.

Definition slot_carries (o : option (Frame V E)) : Prop :=
  match o with Some f => frame_carries (frame_kind f) | None => True end.

(** Inputs, terminal results and the values kept in continuations carry the label. *)
Definition lineage x : Prop :=
  Forall task_carries (tasks x) /\ Forall slot_carries (slots (frames x)).

Definition has_input i x : Prop := exists t v, get (tasks x) i = Some t /\ task_input t = Some v.

(** The invariant holds, and no task has lost its input. *)
Definition onward x x' : Prop := lineage x' /\ forall j, has_input j x -> has_input j x'.

Lemma onward_refl x : lineage x -> onward x x.
Proof. by split. Qed.

Lemma onward_trans x y z : onward x y -> onward y z -> onward x z.
Proof. intros [_ H1] [Hz H2]. split; auto. Qed.

Lemma lineage_task x i t : lineage x -> get (tasks x) i = Some t -> task_carries t.
Proof. intros [Ht _] Hi. rewrite get_lookup in Hi. by eapply Forall_lookup_1 in Ht. Qed.

(** A task changed in place. *)
Lemma onward_update x i t t' :
  lineage x -> get (tasks x) i = Some t -> task_carries t' ->
  (is_Some (task_input t) -> is_Some (task_input t')) ->
  onward x (with_tasks x (upd (tasks x) i t')).
Proof.
  intros [Ht Hf] Hi Hc Hin. split.
  - split; [|done]. simpl. unfold upd. by apply Forall_insert.
  - intros j (tj & v & Hj & Hv). simpl. destruct (decide (j = i)) as [->|Hne].
    + simplify_eq. destruct Hin as [v' Hv']; [done|]. exists t', v'. simpl.
      split; [|done]. by eapply get_upd_eq, get_Some_lt.
    + exists tj, v. simpl. by rewrite get_upd_ne.
Qed.

Lemma onward_bindings x bs : lineage x -> onward x (with_bindings x bs).
Proof. done. Qed.

(** A moved arena. *)
Lemma onward_frames x i t st pool :
  lineage x -> get (tasks x) i = Some t -> Forall slot_carries (slots pool) ->
  onward x (with_frames (with_tasks x (upd (tasks x) i (with_stack t st))) pool).
Proof.
  intros Hx Hi Hp. destruct (onward_update x i t (with_stack t st)) as [[Ht _] Hin]; [done..| |done|].
  { apply (lineage_task _ _ _ Hx Hi). }
  by split.
Qed.

(** After a fault the invariant holds. *)
Definition faulted (f : Fault) (s : machine (H := H)) : Prop := lineage (fst s).

(** ** Rules *)

Lemma wlp_exec {X} (Q : Execution V E -> machine -> Prop) (R : X -> machine -> Prop) x h :
  Q x (x, h) -> wlp exec Q R (x, h).
Proof. done. Qed.

Lemma wlp_put_exec {X} x' (Q : unit -> machine -> Prop) (R : X -> machine -> Prop) x h :
  Q tt (x', h) -> wlp (put_exec x') Q R (x, h).
Proof. done. Qed.

Lemma wlp_host {X A} (f : H -> A * H) (Q : A -> machine -> Prop) (R : X -> machine -> Prop) x h :
  (forall h', Q (fst (f h)) (x, h')) -> wlp (host f) Q R (x, h).
Proof. unfold wlp, host. simpl. destruct (f h). simpl. auto. Qed.

Lemma wlp_task_at {X} i (Q : Task V E -> machine -> Prop) (R : X -> machine -> Prop) x h :
  lineage x -> (forall t, get (tasks x) i = Some t -> task_carries t -> Q t (x, h)) ->
  wlp (task_at i) Q R (x, h).
Proof.
  intros Hx HQ. unfold wlp, task_at, bind, exec, gets. simpl.
  destruct (get (tasks x) i) as [t|] eqn:Hi; simpl; [|done]. eauto using lineage_task.
Qed.

Lemma wlp_update_task {X} i f (Q : unit -> machine -> Prop) (R : X -> machine -> Prop) x h :
  lineage x ->
  (forall t, task_carries t -> task_carries (f t) /\ (is_Some (task_input t) -> is_Some (task_input (f t)))) ->
  (forall x', onward x x' -> Q tt (x', h)) ->
  wlp (update_task i f) Q R (x, h).
Proof.
  intros Hx Hf HQ. unfold wlp, update_task, bind, exec, gets. simpl.
  destruct (get (tasks x) i) as [t|] eqn:Hi; simpl; [|done]. apply HQ.
  destruct (Hf t) as [Hc Hin]; [by eapply lineage_task|]. by eapply onward_update.
Qed.

Lemma wlp_set_state {X} i s (Q : unit -> machine -> Prop) (R : X -> machine -> Prop) x h :
  lineage x -> state_carries s -> (forall x', onward x x' -> Q tt (x', h)) ->
  wlp (set_state i s) Q R (x, h).
Proof. intros Hx Hs. apply wlp_update_task; [done|]. by intros t [Ht _]. Qed.

Lemma wlp_set_input {X} i v (Q : unit -> machine -> Prop) (R : X -> machine -> Prop) x h :
  lineage x -> carries v -> (forall x', onward x x' -> has_input i x' -> Q tt (x', h)) ->
  wlp (set_input i (Some v)) Q R (x, h).
Proof.
  intros Hx Hv HQ. unfold wlp, set_input, update_task, bind, exec, gets. simpl.
  destruct (get (tasks x) i) as [t|] eqn:Hi; simpl; [|done].
  pose proof (lineage_task _ _ _ Hx Hi) as [_ Hs]. apply HQ.
  - eapply onward_update; [done..| |done]. split; [|done]. by intros ? [= <-].
  - exists (with_input t (Some v)), v. split; [|done]. by eapply get_upd_eq, get_Some_lt.
Qed.

Lemma wlp_clear_task {X} i f (Q : unit -> machine -> Prop) (R : X -> machine -> Prop) x h :
  lineage x -> (forall t, task_carries t -> task_carries (f t)) ->
  (forall x', lineage x' -> Q tt (x', h)) -> wlp (update_task i f) Q R (x, h).
Proof.
  intros Hx Hf HQ. unfold wlp, update_task, bind, exec, gets. simpl.
  destruct (get (tasks x) i) as [t|] eqn:Hi; simpl; [|done]. apply HQ.
  pose proof (Hf t (lineage_task _ _ _ Hx Hi)). destruct Hx as [Ht Hs]. split; [|done]. simpl. unfold upd.
  by apply Forall_insert.
Qed.

Lemma wlp_start {X} i pc v (Q : unit -> machine -> Prop) (R : X -> machine -> Prop) x h :
  lineage x -> carries v -> (forall x', onward x x' -> has_input i x' -> Q tt (x', h)) ->
  wlp (start i pc v) Q R (x, h).
Proof.
  intros Hx Hv HQ. unfold wlp, start, update_task, bind, exec, gets. simpl.
  destruct (get (tasks x) i) as [t|] eqn:Hi; simpl; [|done]. apply HQ.
  - eapply onward_update; [done..| |done]. split; [|done]. by intros ? [= <-].
  - eexists _, v. split; [by eapply get_upd_eq, get_Some_lt|done].
Qed.

(** *** Continuations *)

(** An arena operation that keeps what the slots carry. *)
Lemma wlp_on_stack {A} i (op : pool_comp V E A) (P : A -> Prop) (Q : A -> machine -> Prop) x h :
  lineage x ->
  (forall st, wlp op (fun a s => Forall slot_carries (slots (fst s)) /\ P a)
     (fun _ s => Forall slot_carries (slots (fst s))) (frames x, st)) ->
  (forall a x', onward x x' -> P a -> Q a (x', h)) ->
  wlp (on_stack i op) Q faulted (x, h).
Proof.
  intros Hx Hop HQ. apply wlp_bind, wlp_task_at; [done|]. intros t Hi _. unfold wlp in *.
  specialize (Hop (task_stack t)). destruct (op _) as [a [pool st]|f [pool st]|]; simpl in *.
  - destruct Hop as [Hs HP]. apply HQ; [|done]. by apply onward_frames.
  - by apply (onward_frames x).
  - done.
Qed.

Lemma wlp_push i k (Q : unit -> machine -> Prop) x h :
  lineage x -> frame_carries k -> (forall x', onward x x' -> Q tt (x', h)) ->
  wlp (push i k) Q faulted (x, h).
Proof.
  intros Hx Hk HQ. apply wlp_bind, wlp_exec.
  eapply (wlp_on_stack _ _ (fun _ => True)); [done| |by intros [] x' Hx' _; apply HQ].
  intros st. destruct Hx as [_ Hs]. unfold wlp, Frame.push, take_slot, bind, gets, set_pool, set_stack, modify,
    expect, require, throw, ret, halt. simpl.
  repeat (case_match; simplify_eq/=; try done).
  all: split; [|done]; unfold upd; by apply Forall_insert.
Qed.

Lemma wlp_pop i (Q : option (FrameKind V E) -> machine -> Prop) x h :
  lineage x ->
  (forall x' o, onward x x' -> (forall k, o = Some k -> frame_carries k) -> Q o (x', h)) ->
  wlp (pop i) Q faulted (x, h).
Proof.
  intros Hx HQ. eapply (wlp_on_stack _ _ (fun o => forall k, o = Some k -> frame_carries k));
    [done| |by intros o x' Hx' Ho; apply HQ].
  intros st. destruct Hx as [_ Hs]. unfold wlp, Frame.pop, bind, gets, set_pool, set_stack, modify,
    expect, ret, halt. simpl.
  destruct (depth st =? 0); [by split|]. destruct (get (slots (frames x)) (top st)) as [[f|]|] eqn:Hf;
    simpl; [|by split|done].
  assert (slot_carries (Some f)) as Hk by (rewrite get_lookup in Hf; by eapply Forall_lookup_1 in Hs).
  repeat (case_match; simplify_eq/=; try done).
  all: split; [unfold upd; repeat (apply Forall_insert; [|done]); done|by intros k [= <-]].
Qed.

Lemma wlp_check i count d (Q : unit -> machine -> Prop) x h :
  lineage x -> (forall x', onward x x' -> Q tt (x', h)) ->
  wlp (on_stack i (Frame.check count d)) Q faulted (x, h).
Proof.
  intros Hx HQ. eapply (wlp_on_stack _ _ (fun _ => True)); [done| |by intros [] x' Hx' _; apply HQ].
  intros st. destruct Hx as [_ Hs]. unfold wlp, Frame.check, bind, gets, expect, require, throw, ret, halt. simpl.
  repeat (case_match; simplify_eq/=; try done).
Qed.

(** *** Bindings *)

Lemma wlp_read_binding {X} i slot (Q : option V -> machine -> Prop) (R : X -> machine -> Prop) x h :
  (forall v, Q v (x, h)) -> wlp (read_binding i slot) Q R (x, h).
Proof.
  intros HQ. unfold wlp, read_binding, binding_index, bind, exec, gets, expect, ret, halt. simpl.
  repeat (case_match; simplify_eq/=; try done).
Qed.

Lemma wlp_write_binding {X} i slot v (Q : unit -> machine -> Prop) (R : X -> machine -> Prop) x h :
  lineage x -> (forall x', onward x x' -> Q tt (x', h)) -> wlp (write_binding i slot v) Q R (x, h).
Proof.
  intros Hx HQ. unfold wlp, write_binding, binding_index, put_exec, bind, exec, gets, modify, expect, ret, halt.
  simpl. repeat (case_match; simplify_eq/=; try done). apply HQ. by apply onward_bindings.
Qed.

(** *** Values of the host *)

Lemma input_carries x i t v :
  lineage x -> get (tasks x) i = Some t -> task_input t = Some v -> carries v.
Proof. intros Hx Hi. by apply (lineage_task _ _ _ Hx Hi). Qed.

(** A result takes the label from the task's input. *)
Lemma task_influence_carries x i r h :
  lineage x -> has_input i x \/ carries_result r ->
  carries_result (fst (task_influence_result x i r h)).
Proof.
  intros Hx [(t & v & Hi & Hv)|Hr]; unfold task_influence_result.
  - rewrite Hi. simpl. rewrite Hv. apply influence_result_adds. by eapply input_carries.
  - destruct (t ← get (tasks x) i; task_input t); [by apply influence_result_keeps|done].
Qed.

Lemma retain_task_keeps t control h : carries control -> carries (fst (retain_task t control h)).
Proof.
  intros Hc. unfold retain_task. destruct (is_free (task_state t)); [done|].
  assert (carries (fst (match task_input t with
    | Some input => influence control input h | None => (control, h) end))) as Hc1.
  { destruct (task_input t); [by apply influence_keeps|done]. }
  destruct (match task_input t with Some _ => _ | None => _ end) as [c1 h1]. simpl in Hc1.
  destruct (task_state t); try done; simpl;
    destruct (retain_result _ _) as [c2 h2]; by apply influence_keeps.
Qed.

Lemma retain_task_adds t control h v :
  task_state t <> SFree -> task_input t = Some v -> carries v ->
  carries (fst (retain_task t control h)).
Proof.
  intros Hs Hi Hv. unfold retain_task. rewrite Hi.
  assert (is_free (task_state t) = false) as -> by (by destruct (task_state t)).
  pose proof (influence_adds control v h Hv) as Hc. destruct (influence control v h) as [c1 h1].
  simpl in Hc. destruct (task_state t); try done; simpl;
    destruct (retain_result _ _) as [c2 h2]; by apply influence_keeps.
Qed.

Lemma retain_frame_keeps (o : option (Frame V E)) control h :
  carries control -> carries (fst (retain_frame o control h)).
Proof.
  intros Hc. unfold retain_frame. destruct (frame_kind <$> o) as [[]|]; try done;
    try (by apply influence_keeps).
  destruct (retain_result _ _) as [c2 h2]. by apply influence_keeps.
Qed.

Lemma retain_all_keeps {A} (f : A -> V -> H -> V * H) l :
  (forall a control h, carries control -> carries (fst (f a control h))) ->
  forall control h, carries control -> carries (fst (retain_all f l control h)).
Proof.
  intros Hf. induction l as [|a l IH]; intros control h Hc; [done|]. simpl.
  specialize (Hf a control h Hc). destruct (f a control h). by apply IH.
Qed.

(** What an execution retains as a whole carries the label of any task in use. *)
Lemma exec_retain_carries x i t v h :
  lineage x -> get (tasks x) i = Some t -> task_state t <> SFree -> task_input t = Some v ->
  carries (fst (exec_retain_control x h)).
Proof.
  intros Hx Hi Hs Hv. pose proof (input_carries _ _ _ _ Hx Hi Hv) as Hc. unfold exec_retain_control.
  destruct (unit_value h) as [c0 h0].
  assert (forall l c h, t ∈ l -> carries (fst (retain_all retain_task l c h))) as Hall.
  { intros l. induction l as [|u l IH]; intros c h' Hin; [by apply not_elem_of_nil in Hin|]. simpl.
    apply elem_of_cons in Hin as [<-|Hin].
    - pose proof (retain_task_adds t c h' v Hs Hv Hc) as Ha. destruct (retain_task t c h').
      apply retain_all_keeps; [|done]. intros; by apply retain_task_keeps.
    - destruct (retain_task u c h'). by apply IH. }
  rewrite get_lookup in Hi. apply list_elem_of_lookup_2 in Hi. specialize (Hall _ c0 h0 Hi).
  destruct (retain_all retain_task (tasks x) c0 h0). apply retain_all_keeps; [|done].
  intros; by apply retain_frame_keeps.
Qed.

Lemma terminal_fault_carries x i t v f h :
  lineage x -> get (tasks x) i = Some t -> task_state t <> SFree -> task_input t = Some v ->
  carries_result (fst (terminal_fault x f h)).
Proof.
  intros Hx Hi Hs Hv. unfold terminal_fault.
  pose proof (exec_retain_carries x i t v h Hx Hi Hs Hv) as Hc.
  destruct (exec_retain_control x h). destruct (error f _). by apply influence_result_adds.
Qed.

(** ** Steps of a task *)

(** The step keeps the invariant and the inputs. *)
Definition moves {A} x (a : A) (s : machine (H := H)) : Prop := onward x (fst s).

Lemma wlp_moves {X A} (c : comp machine X A) x0 x h (R : X -> machine -> Prop) :
  onward x0 x -> wlp c (moves x) R (x, h) -> wlp c (moves x0) R (x, h).
Proof. intros H0 Hc. eapply wlp_mono; [done| |done]. intros a s. by apply onward_trans. Qed.

(** What the host is given carries the label. *)
Definition action_carries (a : option (Advance V E)) : Prop :=
  match a with
  | Some (ARequest q) => carries (request_input q)
  | Some (ADone r) => carries_result r
  | _ => True
  end.

Definition acts (a : option (Advance V E)) (s : machine (H := H)) : Prop :=
  lineage (fst s) /\ action_carries a.

Lemma wlp_quiet x (c : comp machine Fault unit) s :
  wlp c (moves x) faulted s -> wlp (c ;;; ret None) acts faulted s.
Proof. intros Hc. apply wlp_bind. eapply wlp_mono; [done| |done]. intros [] s' Hm. by split; [apply Hm|]. Qed.

Lemma wlp_start_moves {X} x0 i pc v (R : X -> machine -> Prop) x h :
  onward x0 x -> carries v -> wlp (start i pc v) (moves x0) R (x, h).
Proof.
  intros H0 Hv. apply wlp_start; [apply H0|done|]. intros x' Hx' _. by apply (onward_trans _ x).
Qed.

Lemma wlp_returning x0 i r x h : onward x0 x -> wlp (returning i r) (moves x0) faulted (x, h).
Proof.
  intros H0. apply wlp_set_state; [apply H0|done|]. intros x' Hx'. by apply (onward_trans _ x).
Qed.

Lemma wlp_finish x0 i node r image x h :
  onward x0 x -> has_input i x \/ carries_result r ->
  wlp (finish i node r image) (moves x0) faulted (x, h).
Proof.
  intros H0 Hr. pose proof (proj1 H0) as Hx. unfold finish.
  apply wlp_bind, wlp_lift_result; [|done]. intros n _. apply wlp_bind, wlp_exec, wlp_bind, wlp_host.
  intros h'. pose proof (task_influence_carries x i r h Hx Hr) as Hc.
  destruct (fst (task_influence_result x i r h)) as [v|e]; [destruct (node_next n)|].
  - by apply wlp_start_moves.
  - by apply wlp_returning.
  - by apply wlp_returning.
Qed.

(** The binding of a value. *)
Lemma wlp_bind_value x0 i slot body v x h :
  onward x0 x -> carries v -> wlp (bind_value i slot body v) (moves x0) faulted (x, h).
Proof.
  intros H0 Hv. unfold bind_value. apply wlp_bind, wlp_exec, wlp_bind, wlp_check; [apply H0|].
  intros x1 H1. apply wlp_bind, wlp_read_binding. intros previous.
  apply wlp_bind, wlp_write_binding; [apply H1|]. intros x2 H2.
  apply wlp_bind, wlp_push; [apply H2|done|]. intros x3 H3.
  apply wlp_bind, wlp_write_binding; [apply H3|]. intros x4 H4.
  apply wlp_start_moves; [|done]. eauto using onward_trans.
Qed.

Lemma wlp_resume_frame x0 i k r image x h :
  onward x0 x -> has_input i x -> carries_result r -> frame_carries k ->
  wlp (resume_frame i k r image) (moves x0) faulted (x, h).
Proof.
  intros H0 Hin Hr Hk. pose proof (proj1 H0) as Hx.
  destruct k as [|node|next|recover|cleanup input|original|condition body left_ value
    |condition body left_|context|yes no input|slot body|slot previous|node entry]; simpl in Hk |- *.
  - done.
  - apply wlp_finish; auto.
  - destruct r; [by apply wlp_start_moves|by apply wlp_returning].
  - apply wlp_bind, wlp_task_at; [done|]. intros t Hi [Ht _]. destruct r as [v|e]; [by apply wlp_returning|].
    destruct (negb _ || _); [|by apply wlp_returning]. apply wlp_bind, wlp_host. intros h1.
    destruct Hin as (t' & v' & Hi' & Hv'). simplify_eq. rewrite Hv'.
    apply wlp_bind, wlp_host. intros h2. apply wlp_start_moves; [done|]. by apply influence_adds, Ht.
  - apply wlp_bind, wlp_push; [done|done|]. intros x1 H1.
    apply wlp_bind, wlp_task_at; [apply H1|]. intros t _ _. apply wlp_bind, wlp_expect. intros d _.
    apply wlp_bind, wlp_update_task; [apply H1|done|]. intros x2 H2.
    apply wlp_start_moves; [|done]. eauto using onward_trans.
  - apply wlp_bind, wlp_update_task; [done|done|]. intros x1 H1. apply wlp_bind, wlp_host. intros h1.
    apply wlp_bind, wlp_host. intros h2. apply wlp_returning. eauto using onward_trans.
  - destruct r as [test|e]; [|by apply wlp_returning]. apply wlp_bind, wlp_host. intros h1.
    destruct (fst (truth test h)) as [[]|e]; [|by apply wlp_bind, wlp_host; intros; apply wlp_returning
      |by apply wlp_returning].
    destruct (0 <? left_); [|by apply wlp_bind, wlp_host; intros; apply wlp_returning].
    apply wlp_bind, wlp_push; [done|done|]. intros x1 H1. apply wlp_bind, wlp_host. intros h2.
    apply wlp_start_moves; [eauto using onward_trans|]. by apply influence_keeps.
  - destruct r as [v|e]; [|by apply wlp_returning]. apply wlp_bind, wlp_push; [done|done|]. intros x1 H1.
    apply wlp_start_moves; [eauto using onward_trans|done].
  - apply wlp_bind, wlp_update_task; [done|done|]. intros x1 H1. apply wlp_returning. eauto using onward_trans.
  - destruct r as [test|e]; [|by apply wlp_returning]. apply wlp_bind, wlp_host. intros h1.
    destruct (fst (truth test h)) as [b|e]; [|by apply wlp_returning]. apply wlp_bind, wlp_host. intros h2.
    apply wlp_start_moves; [done|]. by apply influence_keeps.
  - destruct r as [v|e]; [|by apply wlp_returning]. apply wlp_bind, wlp_exec.
    destruct (_ <=? slot); [done|]. by apply wlp_bind_value.
  - apply wlp_bind, wlp_write_binding; [done|]. intros x1 H1. apply wlp_returning. eauto using onward_trans.
  - apply wlp_finish; auto.
Qed.

Lemma wlp_transition_returning i r image x h :
  lineage x -> has_input i x -> wlp (transition_returning i r image) acts faulted (x, h).
Proof.
  intros Hx Hin. unfold transition_returning. apply wlp_bind, wlp_exec, wlp_bind, wlp_host. intros h1.
  pose proof (task_influence_carries x i r h Hx (or_introl Hin)) as Hr.
  set (r' := fst (task_influence_result x i r h)) in *. apply wlp_bind, wlp_host. intros h2.
  pose proof (retain_result_keeps r' h1 Hr) as Hc. set (control := fst (retain_result r' h1)) in *.
  apply wlp_bind, wlp_task_at; [done|]. intros t _ _.
  assert (forall h3 v, carries v -> wlp (set_input i (Some v) ;;; unwind i r' image) acts faulted (x, h3))
    as Hrest.
  { intros h3 v Hv. apply wlp_bind, wlp_set_input; [done|done|]. intros x1 [Hx1 _] Hin1. unfold unwind.
    apply wlp_bind, wlp_pop; [done|]. intros x2 [k|] [Hx2 Hi2] Hk.
    - apply (wlp_quiet x2), wlp_resume_frame; auto using onward_refl.
    - apply wlp_bind, wlp_set_state; [done|done|]. intros x3 [Hx3 _]. by split. }
  destruct (task_input t); apply wlp_bind; [apply wlp_host; intros h3|apply wlp_ret]; apply Hrest; [|done].
  by apply influence_keeps.
Qed.

(** Entering a part under continuations that carry the label. *)
Lemma wlp_enter1 i k pc v x h :
  lineage x -> frame_carries k -> carries v ->
  wlp (push i k ;;; start i pc v ;;; ret None) acts faulted (x, h).
Proof.
  intros Hx Hk Hv. apply wlp_bind, wlp_push; [done|done|]. intros x1 H1.
  apply (wlp_quiet x1), wlp_start_moves; [|done]. apply onward_refl, H1.
Qed.

Lemma wlp_enter2 i k1 k2 pc v x h :
  lineage x -> frame_carries k1 -> frame_carries k2 -> carries v ->
  wlp (push i k1 ;;; push i k2 ;;; start i pc v ;;; ret None) acts faulted (x, h).
Proof.
  intros Hx Hk1 Hk2 Hv. apply wlp_bind, wlp_push; [done|done|]. intros x1 H1.
  apply wlp_enter1; [apply H1|done|done].
Qed.

Lemma wlp_quiet_finish i node r image x h :
  lineage x -> has_input i x -> wlp (finish i node r image ;;; ret None) acts faulted (x, h).
Proof. intros Hx Hin. apply (wlp_quiet x), wlp_finish; auto using onward_refl. Qed.

Lemma wlp_adopt i c x h :
  lineage x -> wlp (adopt i c) (fun _ s => lineage (fst s)) faulted (x, h).
Proof.
  intros Hx. unfold adopt. apply wlp_bind, wlp_update_task; [done|done|]. intros x1 [H1 _].
  apply wlp_bind, wlp_task_at; [done|]. intros t _ _.
  apply wlp_bind, wlp_update_task; [done|done|]. intros x2 [H2 _].
  apply wlp_bind, wlp_update_task; [done|done|]. intros x3 [H3 _]. apply wlp_bind, wlp_exec.
  apply wlp_for_each; [done|]. intros slot [y hy] Hy. apply wlp_bind, wlp_read_binding. intros v.
  apply wlp_write_binding; [done|]. by intros y' [Hy' _].
Qed.

Lemma wlp_fork i pc left_ right_ join v x h :
  lineage x -> carries v -> wlp (fork i pc left_ right_ join v ;;; ret None) acts faulted (x, h).
Proof.
  intros Hx Hv. apply wlp_bind. unfold fork. apply wlp_bind, wlp_exec, wlp_bind, wlp_require; [|done].
  intros a _. apply wlp_bind, wlp_require; [|done]. intros b _.
  apply wlp_bind, wlp_start; [done|done|]. intros x1 [H1 _] _.
  apply wlp_bind, wlp_start; [done|done|]. intros x2 [H2 _] _.
  apply wlp_bind. eapply wlp_mono; [by apply wlp_adopt| |done]. intros [] [x3 h3] H3.
  apply wlp_bind. eapply wlp_mono; [by apply wlp_adopt| |done]. intros [] [x4 h4] H4.
  apply wlp_set_state; [done|done|]. intros x5 [H5 _]. by split.
Qed.

Lemma wlp_issue i pc import position v x h :
  lineage x -> carries v -> wlp (issue i pc import position v) acts faulted (x, h).
Proof.
  intros Hx Hv. unfold issue. apply wlp_bind, wlp_exec, wlp_bind, wlp_require; [|done]. intros tick _.
  apply wlp_bind, wlp_put_exec, wlp_bind, wlp_set_state; [done|done|]. intros x1 [H1 _].
  apply wlp_bind, wlp_task_at; [done|]. intros t _ _. by split.
Qed.

Lemma wlp_execute i pc n v image x h :
  lineage x -> has_input i x -> carries v -> wlp (execute i pc n v image) acts faulted (x, h).
Proof.
  intros Hx Hin Hv. unfold execute.
  destruct (node_kind n); try (by apply wlp_enter2); try (by apply wlp_quiet_finish).
  - apply wlp_bind, wlp_host. intros h1. by apply wlp_quiet_finish.
  - apply wlp_bind, wlp_exec. destruct (_ <=? slot); [done|]. apply wlp_bind, wlp_read_binding. intros o.
    apply wlp_bind, wlp_require; [|done]. intros u _. apply wlp_bind, wlp_host. intros h1.
    by apply wlp_quiet_finish.
  - destruct (_ <=? import); [done|by apply wlp_issue].
  - apply wlp_bind, wlp_host. intros h1. destruct (fst (truth v h)); [by apply wlp_enter1|].
    by apply wlp_quiet_finish.
  - by apply wlp_fork.
  - by apply wlp_enter1.
  - destruct (_ <=? import); [done|by apply wlp_issue].
Qed.

Lemma wlp_transition_ready i image x h :
  lineage x -> wlp (transition_ready i image) acts faulted (x, h).
Proof.
  intros Hx. unfold transition_ready. apply wlp_bind, wlp_task_at; [done|]. intros t Hi [Ht _].
  apply wlp_bind, wlp_lift_result; [|done]. intros n _. apply wlp_bind, wlp_require; [|done].
  intros v Hv. specialize (Ht v Hv).
  assert (forall h1 u, carries u -> wlp (set_input i (Some u) ;;; execute i (task_pc t) n v image) acts faulted (x, h1))
    as Hrest.
  { intros h1 u Hu. apply wlp_bind, wlp_set_input; [done|done|]. intros x1 [H1 _] Hin. by apply wlp_execute. }
  unfold retained_input. apply wlp_bind.
  destruct (node_kind n); first [ by apply wlp_ret, Hrest | apply wlp_host; intros h1; by apply Hrest, retain_control_keeps ].
Qed.

(** ** Answers *)

Lemma wlp_enter_scope i node context image x h :
  lineage x -> wlp (enter_scope i node context image) (fun _ s => lineage (fst s)) faulted (x, h).
Proof.
  intros Hx. unfold enter_scope. apply wlp_bind, wlp_lift_result; [|done]. intros n _.
  destruct (node_kind n); try done. apply wlp_bind, wlp_exec, wlp_bind, wlp_check; [done|]. intros x1 [H1 _].
  apply wlp_bind, wlp_push; [done|done|]. intros x2 [H2 _].
  apply wlp_bind, wlp_task_at; [done|]. intros t1 _ _. apply wlp_bind, wlp_push; [done|done|]. intros x3 [H3 _].
  apply wlp_bind, wlp_update_task; [done|done|]. intros x4 [H4 _].
  apply wlp_bind, wlp_task_at; [done|]. intros t2 _ [Ht2 _].
  apply wlp_bind, wlp_clear_task; [done|by intros t [_ Ht]; split|]. intros x5 H5.
  apply wlp_bind, wlp_require; [|done]. intros v Hv. apply wlp_start; [done|by apply Ht2|]. by intros x6 [H6 _].
Qed.

Lemma wlp_enter_continuation i node entry v image x h :
  lineage x -> has_input i x ->
  wlp (enter_continuation i node entry v image) (fun _ s => lineage (fst s)) faulted (x, h).
Proof.
  intros Hx Hin. unfold enter_continuation. apply wlp_bind, wlp_lift_result; [|done]. intros n _.
  apply wlp_bind, wlp_push; [done|done|]. intros x1 [H1 Hin1].
  apply wlp_bind, wlp_task_at; [done|]. intros t1 Hi1 [Ht1 _].
  destruct (Hin1 i Hin) as (t' & c & Hi & Hc). simplify_eq. rewrite Hc. apply wlp_bind, wlp_host. intros h1.
  apply wlp_start; [done|by apply influence_adds, Ht1|]. by intros x2 [H2 _].
Qed.

(** Keeping the control of an answer keeps the task's label. *)
Lemma wlp_keep_control i control x h :
  lineage x -> has_input i x ->
  wlp (keep_control i control) (fun _ s => lineage (fst s) /\ has_input i (fst s)) faulted (x, h).
Proof.
  intros Hx Hin. destruct control as [control|]; [|done]. simpl.
  apply wlp_bind, wlp_task_at; [done|]. intros t Hi [Ht _].
  destruct Hin as (t' & v & Hi' & Hv). simplify_eq. rewrite Hv. apply wlp_bind, wlp_host. intros h1.
  apply wlp_set_input; [done|by apply influence_keeps, Ht|]. by intros x1 [H1 _] Hin1.
Qed.

(** ** Joins *)

Lemma wlp_drain fuel i x h :
  lineage x -> wlp (drain fuel i) (fun _ s => lineage (fst s)) faulted (x, h).
Proof.
  revert x h. induction fuel as [|fuel IH]; intros x h Hx; simpl;
    apply wlp_bind, wlp_pop; try done; intros x1 [k|] [H1 _] _; try done. by apply IH.
Qed.

Lemma wlp_free i x h : lineage x -> wlp (free i) (fun _ s => lineage (fst s)) faulted (x, h).
Proof.
  intros Hx. unfold free. apply wlp_bind, wlp_task_at; [done|]. intros t _ _.
  apply wlp_bind. eapply wlp_mono; [by apply wlp_drain| |done]. intros [] [x1 h1] H1.
  apply wlp_bind, wlp_exec, wlp_bind. eapply wlp_mono; [| |done].
  - apply (wlp_for_each _ _ (fun s => lineage (fst s))); [done|]. intros slot [y hy] Hy.
    apply wlp_write_binding; [done|]. by intros y' [Hy' _].
  - intros [] [x2 h2] H2. by apply wlp_clear_task.
Qed.

Lemma wlp_has_ancestor fuel root parent x h (R : Fault -> machine -> Prop) :
  lineage x -> wlp (has_ancestor fuel root parent) (fun _ s => s = (x, h)) R (x, h).
Proof.
  intros Hx. revert parent. induction fuel as [|fuel IH]; intros [index|]; simpl; try done;
    destruct (index =? root); try done. apply wlp_bind, wlp_task_at; [done|]. intros t _ _. apply IH.
Qed.

Lemma wlp_cancel_tree root x h :
  lineage x -> wlp (cancel_tree root) (fun _ s => lineage (fst s)) faulted (x, h).
Proof.
  intros Hx. unfold cancel_tree. apply wlp_bind, wlp_update_task; [done|done|]. intros x1 [H1 _].
  apply wlp_bind, wlp_exec, wlp_for_each; [done|]. intros c [y hy] Hy.
  apply wlp_bind, wlp_task_at; [done|]. intros t _ _.
  apply wlp_bind. eapply wlp_mono; [by apply wlp_has_ancestor| |done]. intros [] s ->; [|done].
  apply wlp_update_task; [done|done|]. by intros y' [Hy' _].
Qed.

Lemma wlp_settle_join i (j : JoinState) image x h :
  lineage x -> wlp (settle_join i j image) acts faulted (x, h).
Proof.
  intros Hx. unfold settle_join. apply wlp_bind, wlp_task_at; [done|]. intros tl _ [_ Hl].
  apply wlp_bind, wlp_set_state; [done|done|]. intros x1 [H1 _].
  apply wlp_bind, wlp_task_at; [done|]. intros tr _ [_ Hr].
  apply wlp_bind, wlp_set_state; [done|done|]. intros x2 [H2 _].
  destruct (task_state tl) as [| | | | |a|]; try done. destruct (task_state tr) as [| | | | |b|]; try done.
  simpl in Hl, Hr. apply wlp_bind, wlp_host. intros h1. apply wlp_bind, wlp_host. intros h2.
  apply wlp_bind, wlp_host. intros h3. apply wlp_bind, wlp_task_at; [done|]. intros t _ _.
  apply wlp_bind, wlp_host. intros h4. apply wlp_bind, wlp_host. intros h5.
  assert (carries (fst (influence (fst (retain_result a h)) (fst (retain_result b h1)) h2))) as Hc
    by (by apply influence_keeps, retain_result_keeps).
  apply wlp_bind. eapply wlp_mono; [by apply wlp_free| |done]. intros [] [x3 h6] H3.
  apply wlp_bind. eapply wlp_mono; [by apply wlp_free| |done]. intros [] [x4 h7] H4.
  apply (wlp_quiet x4), wlp_finish; [by apply onward_refl|]. right. by apply influence_result_adds.
Qed.

Lemma wlp_transition_joining i (j : JoinState) image x h :
  lineage x -> wlp (transition_joining i j image) acts faulted (x, h).
Proof.
  intros Hx. unfold transition_joining. apply wlp_bind, wlp_set_state; [done|done|]. intros x1 [H1 _].
  apply wlp_bind, wlp_task_at; [done|]. intros tl _ _. apply wlp_bind, wlp_task_at; [done|]. intros tr _ _.
  apply wlp_bind. eapply (wlp_mono _ (fun _ s => lineage (fst s)) _ faulted); [| |done].
  - case_match; [by apply wlp_cancel_tree|done].
  - intros [] [x2 h2] H2. case_match; [by apply wlp_settle_join|by split].
Qed.

Lemma wlp_transition i image x h :
  lineage x -> (forall t, get (tasks x) i = Some t -> task_state t <> SFree -> is_Some (task_input t)) ->
  wlp (transition i image) acts faulted (x, h).
Proof.
  intros Hx Hin. unfold transition. apply wlp_bind, wlp_task_at; [done|]. intros t Hi [_ Ht].
  specialize (Hin t Hi). apply wlp_bind, wlp_set_state; [done|done|]. intros x1 [H1 Hin1].
  destruct (task_state t) eqn:Hs; try (apply wlp_bind, wlp_set_state; [done|done|]; by intros x2 [H2 _]; split).
  - by apply wlp_transition_ready.
  - by apply wlp_transition_joining.
  - apply wlp_transition_returning; [done|]. apply Hin1. destruct Hin as [v Hv]; [done|]. by exists t, v.
Qed.

(** ** Turns *)

Lemma wlp_cancel_point i x h (R : Empty_set -> machine -> Prop) :
  lineage x -> wlp (cancel_point i) (fun _ s => lineage (fst s)) R (x, h).
Proof.
  intros Hx. unfold cancel_point. apply wlp_bind, wlp_task_at; [done|]. intros t _ _.
  case_match; [|done]. destruct (task_state t) as [| | | |[]| |]; try done;
    apply wlp_bind, wlp_exec, wlp_bind, wlp_host; intros h1;
    apply wlp_bind, wlp_set_state; try done; by intros x1 [H1 _].
Qed.

Lemma wlp_scan offsets x h (R : Empty_set -> machine -> Prop) :
  lineage x -> wlp (scan offsets) (fun _ s => lineage (fst s)) R (x, h).
Proof.
  revert x h. induction offsets as [|o offsets IH]; intros x h Hx; [done|]. simpl.
  apply wlp_bind, wlp_exec, wlp_bind, wlp_expect. intros sum _.
  apply wlp_bind, wlp_task_at; [done|]. intros t _ _.
  assert (forall i, wlp (let* pending := cancel_point i in
    match pending with
    | Some tick => ret (MustCancel i tick)
    | None => let* ready := is_ready i in if (ready : bool) then ret (Selected i) else scan offsets
    end) (fun _ s => lineage (fst s)) R (x, h)) as Hgo.
  { intros i. apply wlp_bind. eapply wlp_mono; [by apply (wlp_cancel_point i x h R)| |done].
    intros [tick|] [x1 h1] H1; [done|]. unfold is_ready.
    apply wlp_bind, wlp_bind, wlp_task_at; [done|]. intros t1 _ _.
    destruct (task_state t1); try done; try (by apply IH).
    apply wlp_bind, wlp_task_at; [done|]. intros tl _ _. apply wlp_bind, wlp_task_at; [done|]. intros tr _ _.
    apply wlp_ret. destruct (join_ready _ _ _); [done|by apply IH]. }
  destruct (task_state t); try (by apply IH); apply Hgo.
Qed.
End lineage.
