(* ===== verification/ProvenanceProps.v ===== *)
(** * Provenance of a hosted execution

    The invariant of Provenance.v over every call of a host, and what it means for values with
    taint. *)

From stdpp Require Import base numbers list option relations.
From S2P Require Import Prelude Program Frame Machine Scenarios.
From S2P Require Import MachineInv MachineStep MachineJoin MachineSafe MachineHost MachineProps.
From S2P Require Import Provenance Text Path Value Source Taint.

Local Open Scope N_scope.
Local Open Scope comp_scope.

Section hosted.
Context {H V E : Type} `{!Values H V E} (carries : V -> Prop) (blames : E -> Prop).
Context `{!Lineage H V E carries blames}.
Implicit Types (x : Execution V E) (h : H) (t : Task V E) (i : N).

Notation lineage := (lineage carries blames).
Notation acts := (acts carries blames).

Lemma wf_input x i t : wf x -> get (tasks x) i = Some t -> task_state t <> SFree ->
  is_Some (task_input t).
Proof. intros (ks & Hcore & _) Hi Hs. by apply (core_input _ _ Hcore i t). Qed.

Lemma lineage_cancel x : lineage x -> lineage (cancel x).
Proof.
  intros Hx. unfold cancel. destruct (root_result x); [done|]. destruct Hx as [Ht Hf]. split; [|done].
  simpl. apply Forall_fmap. eapply Forall_impl; [exact Ht|]. intros t [Hi Hs]. unfold mark_cancelled.
  simpl. by destruct (is_live (task_state t)).
Qed.

Lemma lineage_enforce x : lineage x -> lineage (enforce_step_limit x).
Proof. intros Hx. unfold enforce_step_limit. case_match; [by apply lineage_cancel|done]. Qed.

(** The charge of a turn; an exhausted cleanup ends with what the execution retains. *)
Lemma wlp_charge x h (R : Empty_set -> machine -> Prop) :
  wf x -> lineage x ->
  wlp charge (fun o s => lineage (fst s) /\
    match o with
    | Some r => carries_result carries blames r
    | None => tasks (fst s) = tasks x
    end) R (x, h).
Proof.
  intros Hw Hx. unfold charge. apply wlp_bind, wlp_exec. destruct (aborting x).
  2:{ apply wlp_bind, wlp_put_exec, wlp_ret. done. }
  destruct (_ <=? cleanup_steps x).
  - pose proof Hw as (ks & Hcore & _). destruct (tree_root _ (core_tree _ _ Hcore)) as (t0 & H0 & Hu & _).
    destruct (wf_input _ _ _ Hw H0 Hu) as [v Hv]. apply wlp_bind, wlp_host. intros h1.
    pose proof (terminal_fault_carries carries blames x 0 t0 v Fuel h Hx H0 Hu Hv) as Hr.
    apply wlp_bind, (wlp_task_at carries blames); [done|]. intros t _ _.
    apply wlp_bind, (wlp_set_state carries blames); [done|done|]. by intros x1 [H1 _].
  - apply wlp_bind, wlp_expect. intros n _. apply wlp_bind, wlp_put_exec, wlp_ret. done.
Qed.

Lemma wlp_turn image x h :
  wf x -> lineage x -> wlp (turn image) acts (fun _ _ => False) (x, h).
Proof.
  intros Hw Hx. pose proof Hw as (ks & Hcore & _).
  destruct (tree_root _ (core_tree _ _ Hcore)) as (t0 & H0 & _ & _).
  unfold turn. apply wlp_bind, (wlp_task_at carries blames); [done|]. intros t Ht [_ Hts].
  simplify_eq. destruct (terminal_result (task_state t0)) as [r|] eqn:Hterm.
  { split; [done|]. by destruct (task_state t0); simplify_eq/=. }
  assert (running x) as Hrun by (split; [done|]; unfold root_result; by rewrite H0).
  apply wlp_bind, wlp_exec, wlp_bind, wlp_put_exec, wlp_bind, wlp_exec, wlp_bind.
  destruct (enforce_running x Hrun) as [Hrun1 _]. pose proof (lineage_enforce x Hx) as Hx1.
  set (x1 := enforce_step_limit x) in *.
  eapply wlp_mono; [eapply wlp_of_wp; [apply (wp_scan _ (fun _ _ => False)); [done|]|]| |].
  { by intros o ?%elem_of_range. }
  { by apply (wlp_scan carries blames _ _ _ (fun _ _ => False)). }
  2:{ by intros f s' [[] _]. }
  intros [i|i k|] [x2 h2] [Hscan Hx2]; [|by split|by split]. simpl in Hscan, Hx2.
  destruct (chosen_running _ _ _ Hrun1 Hscan) as (Hrun2 & _ & _ & _ & _ & _).
  apply wlp_bind. eapply wlp_mono; [by apply (wlp_charge x2 h2 (fun _ _ => False)); [apply Hrun2|]| |done].
  intros [r|] [x3 h3] [Hx3 Ho]; [by split|]. simpl in Hx3, Ho.
  apply wlp_bind, wlp_exec, wlp_bind, wlp_put_exec, wlp_bind, wlp_attempt.
  eapply wlp_mono; [apply (wlp_transition carries blames); [done|]|by intros a s Ha|].
  { simpl. rewrite Ho. intros u Hu. apply (wf_input _ _ _ (proj1 Hrun2) Hu). }
  intros f [x4 h4] Hx4.
  apply wlp_bind, wlp_exec, wlp_bind, wlp_host. intros h5.
  apply wlp_bind, (wlp_set_state carries blames); [done|done|]. by intros x5 [H5 _]; split.
Qed.

Lemma wlp_turns fuel image x h :
  wf x -> lineage x -> wlp (turns fuel image) (fun a => acts (Some a)) (fun _ _ => False) (x, h).
Proof.
  revert x h. induction fuel as [|fuel IH]; intros x h Hw Hx; [by split|]. simpl. apply wlp_bind.
  eapply wlp_mono; [eapply wlp_of_wp; [by apply (wp_turn image (fun _ _ => False))|by apply wlp_turn]| |].
  2:{ by intros f s' [[] _]. }
  intros [a|] [x1 h1] [(Hw1 & _) [Hx1 Ha]]; [by split|]. by apply IH.
Qed.

Lemma wlp_advance image fuel x h :
  wf x -> lineage x -> wlp (advance image fuel) (fun a => acts (Some a)) (fun _ _ => False) (x, h).
Proof.
  intros Hw Hx. unfold advance. apply wlp_bind, wlp_exec. destruct (negb _); [|by apply wlp_turns].
  pose proof Hw as (ks & Hcore & _). destruct (tree_root _ (core_tree _ _ Hcore)) as (t0 & H0 & Hu & _).
  destruct (wf_input _ _ _ Hw H0 Hu) as [v Hv]. apply wlp_bind, wlp_host. intros h1.
  split; [done|]. by eapply terminal_fault_carries.
Qed.

(** Answers are taken over with the label of the task that waits for them. *)
Lemma wlp_complete i tick event image x h :
  wf x -> lineage x ->
  wlp (complete i tick event image) (fun _ s => lineage (fst s)) (faulted carries blames) (x, h).
Proof.
  intros Hw Hx. unfold complete. apply wlp_bind, wlp_exec. destruct (negb _); [done|].
  apply wlp_bind, (wlp_task_at carries blames); [done|]. intros t0 _ _.
  destruct (terminal_result _); [done|]. destruct (get (tasks x) i) as [u|] eqn:Hi; [|done]. simpl.
  destruct (task_state u) as [| |live node| | | |] eqn:Hs; try done. destruct (live =? tick); [|done].
  assert (has_input i x) as Hin.
  { destruct (wf_input _ _ _ Hw Hi) as [v Hv]; [by rewrite Hs|]. by exists u, v. }
  assert (forall control h', wlp (keep_control i control ;;;
    match event with
    | HComplete result => finish i node result image
    | HEnter context => enter_scope i node context image
    | HContinue entry input => enter_continuation i node entry input image
    end) (fun _ s => lineage (fst s)) (faulted carries blames) (x, h')) as Hrest.
  { intros control h'. apply wlp_bind. eapply wlp_mono; [by apply wlp_keep_control| |done].
    intros [] [x1 h1] [H1 Hin1]. destruct event.
    - eapply wlp_mono; [apply (wlp_finish carries blames x1); auto using onward_refl| |done].
      by intros [] s' [Hs' _].
    - by apply wlp_enter_scope.
    - by apply wlp_enter_continuation. }
  apply wlp_bind. destruct event; simpl.
  - apply wlp_bind, wlp_host. intros h1. apply Hrest.
  - apply Hrest.
  - apply wlp_bind, wlp_lift_result; [|done]. intros n _.
    destruct (node_kind n); try done. apply wlp_bind, wlp_host. intros h1. apply Hrest.
Qed.

Lemma lineage_host_step s s' : wf (fst s) -> lineage (fst s) -> host_step s s' -> lineage (fst s').
Proof.
  intros Hw Hx Hstep. destruct Hstep as [image fuel a [x h] s' He|image i k event [x h] s' He
    |image i k event f [x h] s' He|x h|first last [x h] s' He|image n m lim bs x x' h Hl Hb He|x h h'];
    simpl in *.
  - pose proof (wlp_advance image fuel x h Hw Hx) as Ha. unfold wlp in Ha. rewrite He in Ha. apply Ha.
  - pose proof (wlp_complete i k event image x h Hw Hx) as Ha. unfold wlp in Ha. by rewrite He in Ha.
  - pose proof (wlp_complete i k event image x h Hw Hx) as Ha. unfold wlp in Ha. by rewrite He in Ha.
  - by apply lineage_cancel.
  - pose proof Hw as (ks & Hcore & _).
    by destruct (wp_val _ _ _ _ _ _ (wp_clear_bindings first last x h (core_rows _ _ Hcore)) He)
      as (bs & -> & _).
  - destruct (resume_inv _ _ _ _ _ _ _ He) as (-> & _). destruct Hx as [Ht Hf].
    split; simpl; apply Forall_app; split; try done; by apply Forall_replicate.
  - done.
Qed.

(** The executions reached, by any calls of a host, from one whose input carries the label. *)
Inductive carried : machine (H := H) -> Prop :=
| carried_new image ts fs bs lim input context x h :
    new image ts fs bs lim input context = Ok x -> sizes_ok lim bs -> carries input -> carried (x, h)
| carried_step s s' : carried s -> host_step s s' -> carried s'.

Lemma carried_reachable s : carried s -> reachable s.
Proof. induction 1; [by eapply reach_new|by eapply reach_step]. Qed.

Lemma carried_lineage s : carried s -> lineage (fst s).
Proof.
  induction 1 as [image ts fs bs lim input context x h Hn Hs Hi|s s' Hs IH Hstep].
  - destruct (new_fresh _ _ _ _ _ _ _ _ Hn) as (-> & _). split; simpl.
    + unfold single, upd. apply Forall_insert; [by apply Forall_replicate|]. split; [|done].
      by intros v [= <-].
    + apply Forall_fmap, Forall_true. done.
  - eapply lineage_host_step; [|done|done]. by apply reachable_wf, carried_reachable.
Qed.
End hosted.

(** ** Taint *)

Section taint.
Context (display : Failure -> text).

Definition value_from (source : TaintSource) (v : TaintedValue) : Prop := source ∈ sources (value_taint v).
Definition failure_from (source : TaintSource) (e : TaintedFailure) : Prop :=
  source ∈ sources (failure_taint e).

#[export] Instance RuntimeLineage (source : TaintSource) :
  Lineage unit TaintedValue TaintedFailure (Values0 := RuntimeValues display)
    (value_from source) (failure_from source).
Proof.
  split; unfold value_from, failure_from; simpl.
  - intros v c h Hv. apply sources_union. by left.
  - intros v c h Hc. apply sources_union. by right.
  - intros [v|e] c h Hr; apply sources_union; by left.
  - intros [v|e] c h Hc; apply sources_union; by right.
  - by intros [v|e] h.
  - done.
Qed.

(** The provenance of what an execution answers. *)
Definition from (source : TaintSource) (a : Advance TaintedValue TaintedFailure) : Prop :=
  match a with
  | ARequest q => value_from source (request_input q)
  | ADone (Ok v) => value_from source v
  | ADone (Err e) => failure_from source e
  | _ => True
  end.

(** C18: Provenance is never lost. Whatever a host does with an execution, from any program and
    with any answers, every request the execution makes and its result, value or failure, carry
    every source that tainted the input it was started with: through constants, bindings,
    branches, recovery, cleanup, parallel branches, cancellation and faults. *)
Theorem provenance_is_never_lost (source : TaintSource) (s s' : Execution TaintedValue TaintedFailure * unit)
    (image : ProgramImage TaintedValue TaintedFailure) (fuel : N) a :
  carried (Values0 := RuntimeValues display) (value_from source) s ->
  advance (Values0 := RuntimeValues display) image fuel s = Val a s' ->
  from source a.
Proof.
  intros Hc Ha. pose proof (carried_lineage (Lineage0 := RuntimeLineage source) _ _ _ Hc) as Hx.
  pose proof (reachable_wf _ (carried_reachable _ _ Hc)) as Hw. destruct s as [x h].
  pose proof (wlp_advance (Lineage0 := RuntimeLineage source) (value_from source) (failure_from source) image fuel x h Hw Hx) as Hwlp.
  unfold wlp in Hwlp. rewrite Ha in Hwlp. destruct Hwlp as [_ Haction].
  destruct a as [q| | | |[]]; done.
Qed.
End taint.

(** ** An example

    The program ignores its input: it asks the host about the constant one. *)

Definition no_display (f : Failure) : text := [].

Definition const_image : ProgramImage TaintedValue TaintedFailure :=
  mkImage IMAGE_VERSION []
    [mkNode (NLiteral (mkTainted (VInt 1) taint_author)) (Some 1) 0; mkNode (NRequest 0) None 1] 0 0 1.

Definition const_start : Execution TaintedValue TaintedFailure :=
  match new const_image [default_task] [None] [] (mkLimits 1 0 None 1)
          (mkTainted (VInt 7) (taint_of ModelOutput)) 0 with
  | Ok x => x
  | Err _ => mkExec [] (mkPool [] default_meta) [] default_limits 0 0 0 0 false []
  end.

(** The execution after a host step that returns. *)
Definition stepped {X A} (c : comp (Execution TaintedValue TaintedFailure * unit) X A)
    (s : Execution TaintedValue TaintedFailure * unit) : Execution TaintedValue TaintedFailure * unit :=
  match c s with Val _ s' => s' | _ => s end.

Definition const_asked := stepped (advance (Values0 := RuntimeValues no_display) const_image 9) (const_start, tt).
Definition const_answered :=
  stepped (complete (Values0 := RuntimeValues no_display) 0 1
             (HComplete (Ok (pristine_value (VInt 2)))) const_image) const_asked.

Lemma const_carried :
  carried (Values0 := RuntimeValues no_display) (value_from ModelOutput) const_answered.
Proof.
  eapply carried_step; [eapply carried_step; [eapply (carried_new _ const_image [default_task] [None] []
    (mkLimits 1 0 None 1) (mkTainted (VInt 7) (taint_of ModelOutput)) 0 const_start tt)|]|].
  - vm_compute. reflexivity.
  - split; vm_compute; discriminate.
  - left.
  - eapply (host_advance const_image 9). vm_compute. reflexivity.
  - eapply (host_complete const_image 0 1 (HComplete (Ok (pristine_value (VInt 2))))). vm_compute. reflexivity.
Qed.

Lemma provenance_is_never_lost_witness :
  exists v s', advance (Values0 := RuntimeValues no_display) const_image 9 const_answered
    = Val (ADone (Ok v)) s' /\ tainted_value v = VInt 2 /\ value_from ModelOutput v.
Proof.
  eexists _, _. split; [vm_compute; reflexivity|]. split; [reflexivity|].
  eapply (provenance_is_never_lost no_display ModelOutput const_answered _ const_image 9 (ADone (Ok _)));
    [exact const_carried|]. vm_compute. reflexivity.
Defined.
