(* ===== verification/Runtime.v ===== *)
(** * Hosted execution of a linked program

    crates/xolotl-kernel/src/runtime.rs: the loop that advances a machine over a linked image,
    starts and polls a driver's calls, and checks authority before each of them; and
    runtime/cooperate.rs. Futures, the driver and the waker are arguments, acting on a world
    [W]. *)

From stdpp Require Import base numbers list option.
From S2P Require Import Prelude Authority Program Frame Machine Link Text Value Source Taint Evidence.

Local Open Scope N_scope.
Local Open Scope comp_scope.

(** ** Interfaces *)

Notation RuntimeEvent := (HostEvent TaintedValue TaintedFailure).

(** An event of the machine, or an interruption that acknowledges nothing. *)
Definition RequestCompletion : Type := Result RuntimeEvent TaintedFailure.

(** [RequestDriver], with the [Future] that its calls are. *)
Class RequestDriver (W C : Type) : Type := {
  call : N -> Request TaintedValue -> W -> C * W;
  poll_future : C -> W -> option RequestCompletion * C * W;
  collect_evidence : C -> option RequestCompletion -> UnresolvedOperations -> W ->
    UnresolvedOperations * W
}.

(** [cx.waker().wake_by_ref()]. *)
Class Waker (W : Type) : Type := wake : W -> W.

(** [Cooperate], with the [Future] that a yield is. *)
Class Cooperate (W Y : Type) : Type := {
  cooperate : W -> Y * W;
  poll_yield : Y -> W -> bool * Y * W
}.

(** [YieldOnce::poll]: ready the second time. *)
Definition yield_once {W} `{!Waker W} (self : bool) (w : W) : bool * bool * W :=
  if self then (true, true, w) else (false, true, wake w).

(** [Cooperative]. *)
#[export] Instance Cooperative {W} `{!Waker W} : Cooperate W bool := {|
  cooperate w := (false, w);
  poll_yield := yield_once
|}.

(** ** State *)

Record PendingCall (C : Type) : Type := mkPending {
  pending_import : N;
  pending_ticket : N;
  pending_cleanup : bool;
  pending_future : option C
}.
Arguments mkPending {C} _ _ _ _.
Arguments pending_import {C} _.
Arguments pending_ticket {C} _.
Arguments pending_cleanup {C} _.
Arguments pending_future {C} _.

(** [PendingCall::default]. *)
Definition vacant_call {C} : PendingCall C := mkPending 0 0 false None.

Definition with_future {C} (self : PendingCall C) (future : option C) : PendingCall C :=
  mkPending (pending_import self) (pending_ticket self) (pending_cleanup self) future.

Record LinkedExecution (C Y : Type) : Type := mkRun {
  run_machine : Execution TaintedValue TaintedFailure;
  run_program : LinkedProgram TaintedValue TaintedFailure;
  run_handles : HandleTable;
  run_pending : list (PendingCall C);
  run_yielding : option Y;
  run_quantum : N;
  run_finished : bool;
  run_unresolved : UnresolvedOperations
}.
Arguments mkRun {C Y} _ _ _ _ _ _ _ _.
Arguments run_machine {C Y} _.
Arguments run_program {C Y} _.
Arguments run_handles {C Y} _.
Arguments run_pending {C Y} _.
Arguments run_yielding {C Y} _.
Arguments run_quantum {C Y} _.
Arguments run_finished {C Y} _.
Arguments run_unresolved {C Y} _.

Section fields.
Context {C Y : Type}.
Implicit Types (self : LinkedExecution C Y).

Definition set_machine self x : LinkedExecution C Y :=
  mkRun x (run_program self) (run_handles self) (run_pending self) (run_yielding self)
    (run_quantum self) (run_finished self) (run_unresolved self).
Definition set_handles self handles : LinkedExecution C Y :=
  mkRun (run_machine self) (run_program self) handles (run_pending self) (run_yielding self)
    (run_quantum self) (run_finished self) (run_unresolved self).
Definition set_pending self pending : LinkedExecution C Y :=
  mkRun (run_machine self) (run_program self) (run_handles self) pending (run_yielding self)
    (run_quantum self) (run_finished self) (run_unresolved self).
Definition set_yielding self yielding : LinkedExecution C Y :=
  mkRun (run_machine self) (run_program self) (run_handles self) (run_pending self) yielding
    (run_quantum self) (run_finished self) (run_unresolved self).
Definition set_finished self finished : LinkedExecution C Y :=
  mkRun (run_machine self) (run_program self) (run_handles self) (run_pending self) (run_yielding self)
    (run_quantum self) finished (run_unresolved self).
Definition set_unresolved self unresolved : LinkedExecution C Y :=
  mkRun (run_machine self) (run_program self) (run_handles self) (run_pending self) (run_yielding self)
    (run_quantum self) (run_finished self) unresolved.
End fields.

Notation image_of self := (linked_image (run_program self)).

(** [LinkedExecution::with_cooperate]; the quantum is not zero by its type. *)
Definition with_cooperate {C Y} (machine : Execution TaintedValue TaintedFailure)
    (program : LinkedProgram TaintedValue TaintedFailure) (handles : HandleTable)
    (pending : list (PendingCall C)) (unresolved : UnresolvedOperations) (quantum : N)
    : Result (LinkedExecution C Y) Fault :=
  if negb (bool_decide (exec_image_id machine = image_id (linked_image program))) then Err ImageMismatch
  else if negb (len pending =? len (tasks machine)) then Err Tasks
  else if existsb (fun slot => bool_decide (is_Some (pending_future slot))) pending
          || negb (len (pending_tickets (view machine)) =? 0)
  then Err InvalidState
  else Ok (mkRun machine program handles pending None quantum false unresolved).

(** [LinkedExecution::pending_calls]. *)
Definition pending_calls {C Y} (self : LinkedExecution C Y) : N :=
  len (filter (fun slot => is_Some (pending_future slot)) (run_pending self)).

(** ** Operations *)
Section runtime.
Context (display : Failure -> text).
Context {W C Y : Type} `{!RequestDriver W C} `{!Waker W} `{!Cooperate W Y}.

#[local] Instance values : Values unit TaintedValue TaintedFailure := RuntimeValues display.

Notation run := (LinkedExecution C Y * W)%type.

Definition self {X} : comp run X (LinkedExecution C Y) := gets fst.
Definition put_self {X} (r : LinkedExecution C Y) : comp run X unit := modify (fun s => (r, snd s)).

(** A step of the world that answers. *)
Definition world {X A} (f : W -> A * W) : comp run X A :=
  fun s => let '(a, w) := f (snd s) in Val a (fst s, w).

(** A call on [self.machine], with values that have no state. *)
Definition on_machine {X A} (c : comp (Execution TaintedValue TaintedFailure * unit) X A)
    : comp run X A :=
  fun s => match c (run_machine (fst s), tt) with
           | Val a m => Val a (set_machine (fst s) (fst m), snd s)
           | Throw x m => Throw x (set_machine (fst s) (fst m), snd s)
           | Stop why => Stop why
           end.

Definition slot_at {X} (task : N) : comp run X (PendingCall C) :=
  let* r := self in expect (get (run_pending r) task) OutOfBounds.

Definition set_slot {X} (task : N) (slot : PendingCall C) : comp run X unit :=
  let* r := self in put_self (set_pending r (upd (run_pending r) task slot)).

(** [self.driver.collect_evidence(call, completion, self.unresolved)]. *)
Definition collect_call {X} (future : C) (completion : option RequestCompletion) : comp run X unit :=
  let* r := self in
  let* unresolved := world (collect_evidence future completion (run_unresolved r)) in
  put_self (set_unresolved r unresolved).

(** Collect the evidence of a slot's call, if there is one, and release the call. *)
Definition release_call {X} (task : N) : comp run X unit :=
  let* slot := slot_at task in
  match pending_future slot with
  | Some future => collect_call future None
  | None => ret tt
  end ;;;
  set_slot task (with_future slot None).

Definition release_all {X} : comp run X unit :=
  let* r := self in for_each (range (len (run_pending r))) release_call.

(** [LinkedExecution::cancel]. *)
Definition runtime_cancel {X} : comp run X unit :=
  let* r := self in
  put_self (set_machine r (cancel (run_machine r))) ;;;
  for_each (range (len (run_pending r))) (fun task =>
    let* slot := slot_at task in
    if pending_cleanup slot then ret tt else release_call task) ;;;
  let* r := self in
  put_self (set_yielding r None).

(** [LinkedExecution::complete]: a refused answer is replaced by its fault. *)
Definition runtime_complete (task ticket : N) (event : RuntimeEvent) : comp run Fault unit :=
  let* r := self in
  let* first := attempt (on_machine (complete task ticket event (image_of r))) in
  match first with
  | Ok _ => ret tt
  | Err fault =>
      let* r := self in
      if is_pending (run_machine r) task ticket
      then on_machine (complete task ticket (HComplete (Err (runtime_error fault))) (image_of r))
      else throw fault
  end.

(** [.map_err(|fault| RuntimeValues.error(fault))]. *)
Definition as_failure {A} (c : comp run Fault A) : comp run TaintedFailure A :=
  let* result := attempt c in
  match result with
  | Ok a => ret a
  | Err fault => throw (runtime_error fault)
  end.

(** [Pin::new(future).poll(cx)] on the call in a slot. *)
Definition poll_slot {X} (task : N) (slot : PendingCall C) (future : C)
    : comp run X (option RequestCompletion * C) :=
  let* answer := world (fun w => let '(o, future, w) := poll_future future w in ((o, future), w)) in
  set_slot task (with_future slot (Some (snd answer))) ;;;
  ret answer.

(** [LinkedExecution::poll_call]. *)
Definition poll_call (task : N) : comp run TaintedFailure unit :=
  let* slot := slot_at task in
  match pending_future slot with
  | None => ret tt
  | Some future =>
      let* r := self in
      if negb (is_pending (run_machine r) task (pending_ticket slot)) then
        collect_call future None ;;; set_slot task (with_future slot None)
      else
        match linked_authorize (run_program r) (pending_import slot) (run_handles r) with
        | Err fault =>
            collect_call future None ;;; set_slot task (with_future slot None) ;;;
            as_failure (runtime_complete task (pending_ticket slot)
                          (HComplete (Err (runtime_error fault))))
        | Ok _ =>
            let* (answer, future) := poll_slot task slot future in
            match answer with
            | None => ret tt
            | Some event =>
                collect_call future (Some event) ;;; set_slot task (with_future slot None) ;;;
                let* event := lift_result event in
                as_failure (runtime_complete task (pending_ticket slot) event)
            end
        end
  end.

(** [LinkedExecution::finish]. *)
Definition runtime_finish {X} (result : Result TaintedValue TaintedFailure)
    : comp run X ExecutionOutput :=
  release_all ;;;
  let* r := self in
  put_self (set_unresolved (set_finished (set_yielding r None) true) no_evidence) ;;;
  ret (with_unresolved_operations (from_result result) (run_unresolved r)).

(** [LinkedExecution::interrupt]. *)
Definition interrupt {X} (e : TaintedFailure) : comp run X ExecutionOutput :=
  let* r := self in
  let '(control, _) := exec_retain_control (run_machine r) tt in
  runtime_finish (runtime_influence_result (Err e) control).

(** [LinkedExecution::fail]. *)
Definition runtime_fail {X} (fault : Fault) : comp run X ExecutionOutput :=
  interrupt (runtime_error fault).

(** The poll of a call that a failure interrupts. *)
Definition poll_or_interrupt (task : N) : comp run Empty_set (option ExecutionOutput) :=
  let* polled := attempt (poll_call task) in
  match polled with
  | Ok _ => ret None
  | Err e => let* output := interrupt e in ret (Some output)
  end.

(** [for task in 0..this.pending.len()]; [Some] is [return Poll::Ready]. *)
Fixpoint poll_calls (calls : list N) : comp run Empty_set (option ExecutionOutput) :=
  match calls with
  | [] => ret None
  | task :: calls =>
      let* output := poll_or_interrupt task in
      match output with
      | Some output => ret (Some output)
      | None => poll_calls calls
      end
  end.

(** The answer to a request or a cancellation that must not be refused. *)
Definition complete_or_fail (task ticket : N) (event : RuntimeEvent)
    : comp run Empty_set (option ExecutionOutput) :=
  let* completed := attempt (runtime_complete task ticket event) in
  match completed with
  | Ok _ => ret None
  | Err fault => let* output := runtime_fail fault in ret (Some output)
  end.

(** The [Advance::Request] arm. *)
Definition dispatch (request : Request TaintedValue) : comp run Empty_set (option ExecutionOutput) :=
  let task := request_task request in
  let* r := self in
  match linked_authorize (run_program r) (request_import request) (run_handles r) with
  | Ok resource =>
      let* slot := slot_at task in
      let* future := world (call resource request) in
      set_slot task (mkPending (request_import request) (request_ticket request)
                       (request_cleanup request) (Some future)) ;;;
      poll_or_interrupt task
  | Err fault =>
      complete_or_fail task (request_ticket request) (HComplete (Err (runtime_error fault)))
  end.

(** The [Advance::Cancel] arm. *)
Definition abandon (task ticket : N) : comp run Empty_set (option ExecutionOutput) :=
  let* slot := slot_at task in
  (if pending_ticket slot =? ticket then release_call task else ret tt) ;;;
  complete_or_fail task ticket (HComplete (Err (pristine_failure FailureCancelled))).

(** [for _ in 0..this.quantum.get()]. [None] when the quantum is used up, [Some poll] when the
    loop returns, [Some None] being [Poll::Pending]. *)
Fixpoint work (quantum : nat) : comp run Empty_set (option (option ExecutionOutput)) :=
  match quantum with
  | O => ret None
  | S quantum =>
      let* r := self in
      let* answer := on_machine (advance (image_of r) 1) in
      let continue_ (output : option ExecutionOutput) :=
        match output with
        | Some output => ret (Some (Some output))
        | None => work quantum
        end in
      match answer with
      | ARequest request => let* output := dispatch request in continue_ output
      | ACancel task ticket => let* output := abandon task ticket in continue_ output
      | AYielded => work quantum
      | AWaiting =>
          let* r := self in
          if 0 <? pending_calls r then ret (Some None)
          else let* output := runtime_fail StaleEvent in ret (Some (Some output))
      | ADone result => let* output := runtime_finish result in ret (Some (Some output))
      end
  end.

(** The poll of a yield that is still owed; [true] when the execution must go on waiting. *)
Definition still_yielding : comp run Empty_set bool :=
  let* r := self in
  match run_yielding r with
  | None => ret false
  | Some y =>
      let* (ready, y) := world (fun w => let '(ready, y, w) := poll_yield y w in ((ready, y), w)) in
      put_self (set_yielding r (if (ready : bool) then None else Some y)) ;;;
      ret (negb ready)
  end.

(** The yield at the end of a quantum. *)
Definition yield_quantum : comp run Empty_set unit :=
  let* y := world cooperate in
  let* (ready, y) := world (fun w => let '(ready, y, w) := poll_yield y w in ((ready, y), w)) in
  if (ready : bool) then world (fun w => (tt, wake w))
  else let* r := self in put_self (set_yielding r (Some y)).

(** [LinkedExecution::poll]; [None] is [Poll::Pending]. *)
Definition poll : comp run Empty_set (option ExecutionOutput) :=
  let* r := self in
  if run_finished r then let* output := runtime_fail StaleEvent in ret (Some output)
  else
    let* waiting := still_yielding in
    if (waiting : bool) then ret None
    else
      let* interrupted := poll_calls (range (len (run_pending r))) in
      match interrupted with
      | Some output => ret (Some output)
      | None =>
          let* polled := work (N.to_nat (run_quantum r)) in
          match polled with
          | Some polled => ret polled
          | None => yield_quantum ;;; ret None
          end
      end.

(** [Drop]. *)
Definition runtime_drop {X} : comp run X unit := release_all.
End runtime.
