(* ===== verification/RuntimeInv.v ===== *)
(** * The invariant of a hosted execution

    The calls in a [LinkedExecution]'s slots are exactly the answers its machine waits for,
    except those a cancellation released. A [Ledger] is what the driver's world keeps besides:
    a property of calls that are started and polled only with authority, and whose evidence is
    collected before they are released. *)

From stdpp Require Import base numbers list option.
From S2P Require Import Prelude Authority Program Frame Machine Link Text Value Source Taint Evidence.
From S2P Require Import MachineInv MachineStep MachineJoin MachineSafe MachineHost MachineProps Runtime.

Local Open Scope N_scope.
Local Open Scope comp_scope.

(** ** Ledgers *)

Class Ledger {W C Y : Type} `{!RequestDriver W C} `{!Waker W} `{!Cooperate W Y}
    (program : LinkedProgram TaintedValue TaintedFailure) (handles : HandleTable)
    (L : list (PendingCall C) -> UnresolvedOperations -> W -> Prop) : Prop := {
  ledger_call pending u w slot q resource :
    L pending u w -> get pending (request_task q) = Some slot -> pending_future slot = None ->
    linked_authorize program (request_import q) handles = Ok resource ->
    L (upd pending (request_task q) (mkPending (request_import q) (request_ticket q)
         (request_cleanup q) (Some (fst (call resource q w))))) u (snd (call resource q w));
  ledger_poll pending u w i slot c resource :
    L pending u w -> get pending i = Some slot -> pending_future slot = Some c ->
    linked_authorize program (pending_import slot) handles = Ok resource ->
    L (upd pending i (with_future slot (Some (snd (fst (poll_future c w)))))) u
      (snd (poll_future c w));
  ledger_release pending u w i slot c completion :
    L pending u w -> get pending i = Some slot -> pending_future slot = Some c ->
    L (upd pending i (with_future slot None)) (fst (collect_evidence c completion u w))
      (snd (collect_evidence c completion u w));
  ledger_wake pending u w : L pending u w -> L pending u (wake w);
  ledger_cooperate pending u w : L pending u w -> L pending u (snd (cooperate (Y := Y) w));
  ledger_yield pending u w (y : Y) : L pending u w -> L pending u (snd (poll_yield y w))
}.

(** Nothing. *)
#[export] Instance any_ledger {W C Y : Type} `{!RequestDriver W C} `{!Waker W} `{!Cooperate W Y}
    program handles : Ledger (Y := Y) program handles (fun (_ : list (PendingCall C)) _ (_ : W) => True).
Proof. by split. Qed.

(** ** Answers to the machine *)
Section answers.
Context {H V E : Type} `{!Values H V E}.
Implicit Types (x : Execution V E) (h : H) (t : Task V E) (image : ProgramImage V E).

(** A failure is always accepted for a pending request at an instruction of the image. *)
Lemma wp_complete_failure i k n t e image x h :
  wf x -> image_id image = exec_image_id x -> root_result x = None ->
  get (tasks x) i = Some t -> task_state t = SWaiting k n -> is_Some (get (nodes image) n) ->
  wp (complete i k (HComplete (Err e)) image) (fun _ => accepted i x) (fun _ _ => False) (x, h).
Proof.
  intros Hw Hid Hr Hi Hs [node Hn]. pose proof Hw as (ks0 & Hcore & _).
  destruct (tree_root _ (core_tree _ _ Hcore)) as (t0 & H0 & _ & _).
  unfold root_result in Hr. rewrite H0 in Hr. simpl in Hr.
  unfold complete. wp_step wp_exec. rewrite bool_decide_true by done. cbn [negb].
  wp_task. rewrite Hr, Hi. simpl. rewrite Hs, N.eqb_refl.
  assert (used t /\ leaf t) as [Hu Hl] by (unfold used, leaf; by rewrite Hs).
  destruct (wf_focus i t x Hw Hi Hu Hl) as [ks Hwt].
  apply wp_bind, wp_bind, wp_host. intros c h1 _. apply wp_ret. apply wp_bind.
  eapply wp_keep_control; [done|]. intros t' x' h' Hw' Hl' _.
  eapply wp_finish; [done| |by rewrite Hn]. intros x2 t2 h2 Hw2 Hl2 Hc2 Hp2.
  eapply accepted_intro; [done|done| |done]. by etrans.
Qed.
End answers.

(** ** The invariant *)
Section invariant.
Context (display : Failure -> text).
Context {W C Y : Type} `{!RequestDriver W C} `{!Waker W} `{!Cooperate W Y}.
Context (program : LinkedProgram TaintedValue TaintedFailure) (handles : HandleTable).
Context (L : list (PendingCall C) -> UnresolvedOperations -> W -> Prop) (size : N).
Context {Hledger : Ledger (Y := Y) program handles L}.

#[local] Hint Extern 0 (Values unit TaintedValue TaintedFailure) =>
  exact (values display) : typeclass_instances.

Notation run := (LinkedExecution C Y * W)%type.
Notation exec := (Execution TaintedValue TaintedFailure).
Implicit Types (r : LinkedExecution C Y) (w : W) (s : run) (x : exec) (i j k n : N) (ex : list N).
Implicit Types (slot : PendingCall C) (t : Task TaintedValue TaintedFailure).

(** The answer that task [i] waits for is on its way, or no longer wanted. *)
Definition served r i t k : Prop :=
  task_cancelled t = true /\ task_cleaning t = 0 \/
  exists slot, get (run_pending r) i = Some slot /\ pending_ticket slot = k /\
    is_Some (pending_future slot) /\ pending_cleanup slot = (0 <? task_cleaning t).

(** The invariant; the tasks of [ex] are about to be answered. *)
Record sound ex s : Prop := {
  sound_program : run_program (fst s) = program;
  sound_handles : run_handles (fst s) = handles;
  sound_unfinished : run_finished (fst s) = false;
  sound_wf : wf (run_machine (fst s));
  sound_image : image_id (image_of (fst s)) = exec_image_id (run_machine (fst s));
  sound_len : len (run_pending (fst s)) = size;
  sound_tasks : len (tasks (run_machine (fst s))) = size;
  sound_live : forall i slot, get (run_pending (fst s)) i = Some slot ->
    is_Some (pending_future slot) -> waits (tasks (run_machine (fst s))) i (pending_ticket slot);
  sound_nodes : forall i t k n, get (tasks (run_machine (fst s))) i = Some t ->
    task_state t = SWaiting k n -> is_Some (get (nodes (image_of (fst s))) n);
  sound_served : root_result (run_machine (fst s)) = None -> forall i t k n, i ∉ ex ->
    get (tasks (run_machine (fst s))) i = Some t -> task_state t = SWaiting k n ->
    served (fst s) i t k;
  sound_ledger : L (run_pending (fst s)) (run_unresolved (fst s)) (snd s)
}.

(** No call is in slot [i]. *)
Definition quiet i s : Prop :=
  forall slot, get (run_pending (fst s)) i = Some slot -> pending_future slot = None.

Lemma sound_slot ex s i : sound ex s -> i < len (tasks (run_machine (fst s))) ->
  exists slot, get (run_pending (fst s)) i = Some slot.
Proof. intros Hs Hi. apply get_lt. by rewrite (sound_len _ _ Hs), <- (sound_tasks _ _ Hs). Qed.

Lemma held_served r i t t' k : held t t' -> served r i t k -> served r i t' k.
Proof.
  intros (_ & Hc & Hf) [[? ?]|(slot & ? & ? & ? & ?)]; [left|right].
  - split; [auto|congruence].
  - exists slot. by rewrite Hc.
Qed.

(** The machine moves: tasks that wait were waiting, or are about to be answered. *)
Lemma sound_machine ex ex' r w x' :
  sound ex (r, w) -> wf x' -> exec_image_id x' = exec_image_id (run_machine r) ->
  len (tasks x') = len (tasks (run_machine r)) ->
  (root_result x' = None -> root_result (run_machine r) = None) ->
  (forall j t' k n, get (tasks x') j = Some t' -> task_state t' = SWaiting k n ->
     (exists t, get (tasks (run_machine r)) j = Some t /\ held t t' /\ (j ∈ ex -> j ∈ ex')) \/
     j ∈ ex' /\ is_Some (get (nodes (linked_image program)) n)) ->
  (forall j t k n, get (tasks (run_machine r)) j = Some t -> task_state t = SWaiting k n ->
     quiet j (r, w) \/ exists t', get (tasks x') j = Some t' /\ held t t') ->
  sound ex' (set_machine r x', w).
Proof.
  intros [Hp Hh Hun Hw Hid Hlen Htasks Hlive Hnodes Hserved HL] Hw' Hid' Hlen' Hroot Hnew Hold.
  simpl in *. split; simpl; try done; try congruence.
  - intros i slot Hi Hf. destruct (Hlive i slot Hi Hf) as (t & n & Ht & Hs).
    destruct (Hold i t _ n Ht Hs) as [Hq|(t' & Ht' & Hheld)].
    + rewrite (Hq slot Hi) in Hf. by destruct Hf.
    + exists t', n. split; [done|]. by destruct Hheld as [-> _].
  - intros i t' k n Ht' Hs. rewrite Hp in *.
    destruct (Hnew i t' k n Ht' Hs) as [(t & Ht & [Hst _] & _)|[_ Hn]]; [|done].
    apply (Hnodes i t k n Ht). congruence.
  - intros Hr i t' k n Hi Ht' Hs.
    destruct (Hnew i t' k n Ht' Hs) as [(t & Ht & Hheld & Hex)|[? _]]; [|done].
    apply (held_served _ _ t); [done|]. apply (Hserved (Hroot Hr) i t k n); [naive_solver|done|].
    by destruct Hheld as [<- _].
Qed.

(** *** Rules *)

Lemma wp_self {X} (Q : LinkedExecution C Y -> run -> Prop) (R : X -> run -> Prop) s :
  Q (fst s) s -> wp self Q R s.
Proof. done. Qed.

Lemma wp_put_self {X} r' (Q : unit -> run -> Prop) (R : X -> run -> Prop) s :
  Q tt (r', snd s) -> wp (put_self r') Q R s.
Proof. done. Qed.

Lemma wp_world {X A} (f : W -> A * W) (Q : A -> run -> Prop) (R : X -> run -> Prop) s :
  Q (fst (f (snd s))) (fst s, snd (f (snd s))) -> wp (world f) Q R s.
Proof. unfold wp, world. by destruct (f (snd s)). Qed.

Lemma wp_on_machine {X A} (c : comp (exec * unit) X A) (Q : A -> run -> Prop) (R : X -> run -> Prop) r w :
  wp c (fun a m => Q a (set_machine r (fst m), w)) (fun e m => R e (set_machine r (fst m), w))
    (run_machine r, tt) ->
  wp (on_machine c) Q R (r, w).
Proof. unfold wp, on_machine. simpl. by destruct (c _). Qed.

Lemma wp_slot_at {X} i slot (Q : PendingCall C -> run -> Prop) (R : X -> run -> Prop) s :
  get (run_pending (fst s)) i = Some slot -> Q slot s -> wp (slot_at i) Q R s.
Proof. intros Hi HQ. unfold slot_at. wp_step wp_self. by eapply wp_expect. Qed.

(** A call leaves its slot. *)
Lemma sound_release ex r w i slot u w' :
  sound ex (r, w) -> get (run_pending r) i = Some slot ->
  let pending := upd (run_pending r) i (with_future slot None) in
  L pending u w' -> let s' := (set_pending (set_unresolved r u) pending, w') in
  sound (i :: ex) s' /\ quiet i s'.
Proof.
  intros Hs Hi pending HL s'. pose proof (get_Some_lt _ _ _ Hi) as Hlt. split.
  - destruct Hs as [Hp Hh Hun Hw Hid Hlen Htasks Hlive Hnodes Hserved _]. simpl in *.
    split; simpl; try done; unfold pending.
    + by rewrite len_upd.
    + intros j slot' Hj Hf. apply get_upd_inv in Hj as [[-> ->]|[_ Hj]]; [by destruct Hf|by apply Hlive|done].
    + intros Hr j t k n Hj Ht Hst. apply not_elem_of_cons in Hj as [Hji Hj].
      destruct (Hserved Hr j t k n Hj Ht Hst) as [?|(slot' & ? & ?)]; [by left|right].
      exists slot'. simpl. by rewrite get_upd_ne.
  - intros slot' Hj. unfold s', pending in Hj. simpl in Hj. rewrite get_upd_eq in Hj by done. by simplify_eq.
Qed.

(** Evidence is collected, and the call released. *)
Lemma wp_release_call {X} i slot c completion (Q : unit -> run -> Prop) (R : X -> run -> Prop) ex r w :
  sound ex (r, w) -> get (run_pending r) i = Some slot -> pending_future slot = Some c ->
  (forall r' w', sound (i :: ex) (r', w') -> quiet i (r', w') -> run_machine r' = run_machine r ->
     Q tt (r', w')) ->
  wp (collect_call c completion ;;; set_slot i (with_future slot None)) Q R (r, w).
Proof.
  intros Hs Hi Hc HQ. unfold collect_call, set_slot. apply wp_bind. wp_step wp_self. wp_step wp_world.
  apply wp_put_self. wp_step wp_self. apply wp_put_self.
  destruct (sound_release _ _ _ _ _ _ _ Hs Hi
    (ledger_release _ _ _ i slot c completion (sound_ledger _ _ Hs) Hi Hc)). by apply HQ.
Qed.

Lemma wp_release_then {X A} i slot c completion (k : comp run X A) (Q : A -> run -> Prop)
    (R : X -> run -> Prop) ex r w :
  sound ex (r, w) -> get (run_pending r) i = Some slot -> pending_future slot = Some c ->
  (forall r' w', sound (i :: ex) (r', w') -> quiet i (r', w') -> run_machine r' = run_machine r ->
     wp k Q R (r', w')) ->
  wp (collect_call c completion ;;; set_slot i (with_future slot None) ;;; k) Q R (r, w).
Proof.
  intros Hs Hi Hc HQ. eapply wp_proper; [symmetry; apply bind_assoc|]. apply wp_bind.
  by eapply wp_release_call.
Qed.

(** *** Answers *)

(** The machine takes an answer for a call that has left its slot. *)
Lemma sound_accepted i r w x' (u : unit) :
  sound [i] (r, w) -> quiet i (r, w) -> root_result (run_machine r) = None ->
  accepted i (run_machine r) (x', u) -> sound [] (set_machine r x', w).
Proof.
  intros Hs Hq Hr (Hw' & Hl & Hidle). simpl in *. pose proof (local_others _ _ _ Hl) as Ho.
  eapply sound_machine; [exact Hs|done|apply Hl|apply Hl|done|..].
  - intros j t' k n Hj Hst. left. destruct (decide (j = i)) as [->|Hne].
    + destruct (Hidle k). by exists t', n.
    + exists t'. rewrite Ho in Hj by done. split_and!; [done|done|].
      by intros ?%list_elem_of_singleton.
  - intros j t k n Hj _. destruct (decide (j = i)) as [->|Hne]; [by left|right].
    exists t. by rewrite Ho.
Qed.

(** A refused answer changes at most the input of the task. *)
Lemma sound_refused ex i r w x' (u : unit) :
  sound ex (r, w) -> refused i (run_machine r) (x', u) -> sound ex (set_machine r x', w).
Proof.
  intros Hs Href. pose proof (refused_pending _ _ _ Href) as Hpend. destruct Href as [Hw' Hx].
  simpl in *. destruct Hx as [->|(t & v & Hi & ->)]; [by destruct r|].
  pose proof (get_Some_lt _ _ _ Hi) as Hlt.
  eapply sound_machine; [exact Hs|done|done|simpl; by rewrite len_upd|..]; simpl.
  - unfold root_result. simpl. rewrite get_upd. case_decide as Hd; [|done]. destruct Hd as [-> _].
    by rewrite Hi.
  - intros j t' k n Hj Hst. left. apply get_upd_inv in Hj as [[-> ->]|[_ Hj]]; [by exists t|by exists t'|done].
  - intros j t' k n Hj Hst. right. destruct (decide (j = i)) as [->|Hne].
    + simplify_eq. exists (with_input t (Some v)). by rewrite get_upd_eq.
    + exists t'. by rewrite get_upd_ne.
Qed.

Lemma pending_waits x i k : is_pending x i k = true ->
  root_result x = None /\ exists t n, get (tasks x) i = Some t /\ task_state t = SWaiting k n.
Proof.
  unfold is_pending. destruct (root_result x); [done|]. destruct (get (tasks x) i) as [t|]; [|done].
  simpl. destruct (task_state t) eqn:Hs; try done. intros ->%N.eqb_eq. split; [done|]. by eauto.
Qed.

(** An answer to a pending request never fails: a malformed one is replaced by its fault. *)
Lemma wp_runtime_complete i k event s :
  sound [i] s -> quiet i s -> is_pending (run_machine (fst s)) i k = true ->
  wp (runtime_complete display i k event) (fun _ => sound []) (fun _ _ => False) s.
Proof.
  intros Hs Hq Hpend. destruct s as [r w]. unfold runtime_complete. wp_step wp_self.
  apply wp_bind, wp_attempt, wp_on_machine.
  eapply wp_mono; [apply wp_complete, (sound_wf _ _ Hs)|..]; simpl in *.
  - intros [] [x' u] [Hacc _]. apply wp_ret. eapply sound_accepted; [done|done| |done].
    by apply pending_waits in Hpend as [? _].
  - intros fault [x' u] Href. simpl. pose proof (sound_refused _ _ _ _ _ _ Hs Href) as Hs'.
    wp_step wp_self. simpl. rewrite (refused_pending _ _ _ Href i k : is_pending x' i k = _), Hpend.
    apply wp_on_machine. simpl.
    rewrite <- (refused_pending _ _ _ Href) in Hpend. apply pending_waits in Hpend as (Hr & t & n & Hi & Hst).
    eapply wp_mono; [eapply (wp_complete_failure i k n t)| |done].
    + apply (sound_wf _ _ Hs').
    + apply (sound_image _ _ Hs').
    + done.
    + done.
    + done.
    + exact (sound_nodes _ _ Hs' i t k n Hi Hst).
    + intros [] [x2 u2] Hacc. simpl. apply (sound_accepted i (set_machine r x') w x2 u2); try done.
Qed.

Lemma wp_as_failure {A} (c : comp run Fault A) (Q : A -> run -> Prop) (R : TaintedFailure -> run -> Prop) s :
  wp c Q (fun _ _ => False) s -> wp (as_failure c) Q R s.
Proof. intros Hc. apply wp_bind, wp_attempt. eapply wp_mono; [exact Hc|by intros|done]. Qed.

(** *** Polling a call *)

Lemma sound_terminal ex ex' s :
  sound ex s -> is_Some (root_result (run_machine (fst s))) -> sound ex' s.
Proof. intros [] [res Hr]. split; try done. by rewrite Hr. Qed.

Lemma with_future_twice slot o o' : with_future (with_future slot o) o' = with_future slot o'.
Proof. done. Qed.

(** A call is replaced in its slot. *)
Lemma sound_polled ex r w i slot c c' w' :
  sound ex (r, w) -> get (run_pending r) i = Some slot -> pending_future slot = Some c ->
  L (upd (run_pending r) i (with_future slot (Some c'))) (run_unresolved r) w' ->
  sound ex (set_pending r (upd (run_pending r) i (with_future slot (Some c'))), w').
Proof.
  intros [Hp Hh Hun Hw Hid Hlen Htasks Hlive Hnodes Hserved _] Hi Hc HL. pose proof (get_Some_lt _ _ _ Hi) as Hlt.
  simpl in *. split; simpl; try done.
  - by rewrite len_upd.
  - intros j slot' Hj Hf. apply get_upd_inv in Hj as [[-> ->]|[_ Hj]]; [|by apply Hlive|done].
    apply (Hlive i slot); [done|]. by rewrite Hc.
  - intros Hr j t k n Hj Ht Hst.
    destruct (Hserved Hr j t k n Hj Ht Hst) as [?|(slot' & Hs' & ? & ? & ?)]; [by left|right].
    simpl. destruct (decide (j = i)) as [->|Hne].
    + simplify_eq. exists (with_future slot (Some c')). rewrite get_upd_eq by done. done.
    + exists slot'. by rewrite get_upd_ne.
Qed.

(** The driver itself gave up the execution. *)
Definition gave_up (e : TaintedFailure) : Prop :=
  exists (c : C) (w : W), fst (fst (poll_future c w)) = Some (Err e).

Lemma wp_poll_call i s :
  sound [] s -> i < len (run_pending (fst s)) ->
  wp (poll_call display i) (fun _ => sound []) (fun e s' => gave_up e /\ sound [i] s') s.
Proof.
  intros Hs Hi. destruct s as [r w]. destruct (get_lt _ _ Hi) as [slot Hslot]. simpl in *.
  unfold poll_call. wp_step wp_slot_at; [done|]. destruct (pending_future slot) as [c|] eqn:Hc; [|done].
  pose proof (sound_live _ _ Hs i slot Hslot ltac:(by rewrite Hc)) as (t & n & Ht & Hst). simpl in Ht.
  wp_step wp_self. simpl.
  assert (is_pending (run_machine r) i (pending_ticket slot) =
    match root_result (run_machine r) with Some _ => false | None => true end) as Hpend.
  { unfold is_pending. destruct (root_result _); [done|]. rewrite Ht. simpl. rewrite Hst. apply N.eqb_refl. }
  rewrite Hpend. destruct (root_result (run_machine r)) as [res|] eqn:Hroot; cbn [negb].
  { eapply wp_release_call; [done..|]. intros r' w' Hs' _ Hm. eapply sound_terminal; [done|].
    simpl. by rewrite Hm, Hroot. }
  rewrite (sound_program _ _ Hs : run_program r = program), (sound_handles _ _ Hs : run_handles r = handles).
  destruct (linked_authorize program (pending_import slot) handles) as [resource|fault] eqn:Hauth.
  2:{ eapply wp_release_then; [done..|]. intros r' w' Hs' Hq Hm.
      apply wp_as_failure, wp_runtime_complete; [done|done|]. simpl. by rewrite Hm. }
  apply wp_bind. unfold poll_slot.
  wp_step wp_world. pose proof (ledger_poll _ _ _ i slot c resource (sound_ledger _ _ Hs) Hslot Hc Hauth) as HL.
  simpl in *. destruct (poll_future c w) as [[answer c'] w'] eqn:Hpoll. simpl in *.
  unfold set_slot. apply wp_bind. wp_step wp_self. apply wp_put_self, wp_ret. simpl.
  pose proof (sound_polled _ _ _ _ _ _ _ _ Hs Hslot Hc HL) as Hs1.
  set (r1 := set_pending r _) in *. destruct answer as [event|]; [|done].
  rewrite <- (with_future_twice slot (Some c') None).
  eapply wp_release_then; [exact Hs1|by apply get_upd_eq|done|]. intros r' w2 Hs' Hq Hm.
  destruct event as [event|e]; simpl.
  - apply wp_bind, wp_ret. apply wp_as_failure, wp_runtime_complete; [done|done|]. simpl. by rewrite Hm.
  - apply wp_bind, wp_throw. split; [|done]. exists c, w. by rewrite Hpoll.
Qed.

(** *** Ending *)

(** The result is handed out: no call is left, and the evidence is that of the ledger. *)
Record concluded r (result : Result TaintedValue TaintedFailure) (out : ExecutionOutput) s : Prop := {
  concluded_machine : run_machine (fst s) = run_machine r;
  concluded_finished : run_finished (fst s) = true;
  concluded_quiet : forall j, quiet j s;
  concluded_output : exists u, out = with_unresolved_operations (from_result result) u /\
    L (run_pending (fst s)) u (snd s)
}.

(** What [release_call] does to a run. *)
Lemma wp_release_slot {X} i (Q : unit -> run -> Prop) (R : X -> run -> Prop) r w slot :
  get (run_pending r) i = Some slot -> L (run_pending r) (run_unresolved r) w ->
  (forall u w', let pending := upd (run_pending r) i (with_future slot None) in
     L pending u w' -> Q tt (set_pending (set_unresolved r u) pending, w')) ->
  wp (release_call i) Q R (r, w).
Proof.
  intros Hi HL HQ. unfold release_call. wp_step wp_slot_at; [done|].
  destruct (pending_future slot) as [c|] eqn:Hc; apply wp_bind.
  - unfold collect_call. wp_step wp_self. wp_step wp_world. apply wp_put_self.
    unfold set_slot. wp_step wp_self. apply wp_put_self. apply HQ.
    apply (ledger_release _ _ _ i slot c None HL Hi Hc).
  - apply wp_ret. unfold set_slot. wp_step wp_self. apply wp_put_self. simpl.
    assert (with_future slot None = slot) as Heq by (destruct slot; simpl in *; by subst).
    specialize (HQ (run_unresolved r) w). rewrite Heq in *. rewrite (upd_id _ _ _ Hi) in *.
    replace (set_unresolved r (run_unresolved r)) with r in HQ by (by destruct r). auto.
Qed.

Lemma wp_release_all {X} (R : X -> run -> Prop) r w :
  L (run_pending r) (run_unresolved r) w ->
  wp release_all (fun _ s => run_machine (fst s) = run_machine r /\ (forall j, quiet j s) /\
    L (run_pending (fst s)) (run_unresolved (fst s)) (snd s)) R (r, w).
Proof.
  intros HL. unfold release_all. wp_step wp_self. eapply wp_mono; [apply (wp_for_range _ _ (fun k s =>
    run_machine (fst s) = run_machine r /\ len (run_pending (fst s)) = len (run_pending r) /\
    (forall j, j < k -> quiet j s) /\ L (run_pending (fst s)) (run_unresolved (fst s)) (snd s)))| |done].
  - intros k [r1 w1] Hk (Hm & Hlen & Hq & HL1). simpl in *.
    destruct (get_lt (run_pending r1) k) as [slot Hi]; [by rewrite Hlen|].
    eapply wp_release_slot; [done|done|]. intros u w' pending HL'. simpl.
    split_and!; [done|unfold pending; by rewrite len_upd| |done].
    intros j Hj slot' Hs'. unfold pending in Hs'. simpl in Hs'. apply get_upd_inv in Hs' as [[-> ->]|[Hne Hs']];
      [done| |by rewrite Hlen]. apply (Hq j); [lia|done].
  - split_and!; try done. intros j Hj. lia.
  - intros [] s (Hm & Hlen & Hq & HL1). split_and!; [done| |done]. intros j slot Hi.
    pose proof (get_Some_lt _ _ _ Hi). apply (Hq j); [simpl in *; lia|done].
Qed.

Lemma wp_runtime_finish {X} result (R : X -> run -> Prop) r w :
  L (run_pending r) (run_unresolved r) w ->
  wp (runtime_finish result) (concluded r result) R (r, w).
Proof.
  intros HL. unfold runtime_finish. apply wp_bind. eapply wp_mono; [by apply wp_release_all| |done].
  intros [] [r1 w1] (Hm & Hq & HL1). wp_step wp_self. wp_step wp_put_self. apply wp_ret.
  split; [done|done|exact Hq|]. eauto.
Qed.

Lemma concluded_self r result out s : concluded r result out s -> concluded (fst s) result out s.
Proof. by intros []. Qed.

(** The failure that an interruption reports. *)
Definition interrupted_result x (e : TaintedFailure) : Result TaintedValue TaintedFailure :=
  runtime_influence_result (Err e) (fst (exec_retain_control x tt)).

Lemma wp_interrupt {X} e (R : X -> run -> Prop) r w :
  L (run_pending r) (run_unresolved r) w ->
  wp (interrupt display e) (concluded r (interrupted_result (run_machine r) e)) R (r, w).
Proof.
  intros HL. unfold interrupt, interrupted_result. wp_step wp_self. simpl.
  destruct (exec_retain_control (run_machine r) tt). by apply wp_runtime_finish.
Qed.

(** *** Cancelling *)

(** Once cancelled, a request outside cleanup is no longer wanted. *)
Lemma wp_cancel_call {X} i (R : X -> run -> Prop) s :
  sound [] s -> i < len (run_pending (fst s)) ->
  (root_result (run_machine (fst s)) = None -> forall j t k n, get (tasks (run_machine (fst s))) j = Some t ->
     task_state t = SWaiting k n -> task_cancelled t = true) ->
  wp (let* slot := slot_at i in if pending_cleanup slot then ret tt else release_call i)
    (fun _ s' => sound [] s' /\ run_machine (fst s') = run_machine (fst s) /\
       len (run_pending (fst s')) = len (run_pending (fst s))) R s.
Proof.
  intros Hs Hi Hcan. destruct s as [r w]. destruct (get_lt _ _ Hi) as [slot Hslot]. simpl in *.
  wp_step wp_slot_at; [done|]. destruct (pending_cleanup slot) eqn:Hcl; [by apply wp_ret|].
  eapply wp_release_slot; [done|apply (sound_ledger _ _ Hs)|]. intros u w' pending HL.
  assert (len pending = len (run_pending r)) as Hlen' by apply len_upd.
  split_and!; [|done|done]. destruct Hs as [Hp Hh Hun Hw Hid Hlen Htasks Hlive Hnodes Hserved _]. simpl in *.
  split; simpl; try done; [congruence|..].
  - intros j slot' Hj Hf. apply get_upd_inv in Hj as [[-> ->]|[_ Hj]]; [by destruct Hf|by apply Hlive|done].
  - intros Hr j t k n Hj Ht Hst.
    destruct (Hserved Hr j t k n Hj Ht Hst) as [?|(slot' & Hs' & Hk & Hf & Hc)]; [by left|].
    destruct (decide (j = i)) as [->|Hne].
    + left. split; [by eapply Hcan|]. simplify_eq. rewrite Hcl in Hc. symmetry in Hc. apply N.ltb_ge in Hc. lia.
    + right. exists slot'. simpl. unfold pending. by rewrite get_upd_ne.
Qed.

Lemma cancel_doomed x : root_result (cancel x) = None ->
  forall j t k n, get (tasks (cancel x)) j = Some t -> task_state t = SWaiting k n -> task_cancelled t = true.
Proof.
  unfold cancel. destruct (root_result x) eqn:Hr; [by rewrite Hr|]. intros _ j t k n. simpl.
  rewrite get_fmap. destruct (get (tasks x) j) as [t0|]; [|done]. simpl. intros [= <-]. unfold mark_cancelled.
  destruct (task_state t0) eqn:Hs; simpl; rewrite ?Hs; try done.
Qed.

Lemma wp_runtime_cancel {X} (R : X -> run -> Prop) s :
  sound [] s -> wp runtime_cancel (fun _ => sound []) R s.
Proof.
  intros Hs. destruct s as [r w]. unfold runtime_cancel. wp_step wp_self. wp_step wp_put_self. simpl.
  pose proof (sound_wf _ _ Hs) as Hw. simpl in Hw.
  assert (sound [] (set_machine r (cancel (run_machine r)), w)) as Hs1.
  { destruct (cancel_grows (run_machine r)) as [Hcount _ _ _ Hid _ _ _].
    pose proof (cancel_spares (run_machine r)) as Hsp.
    eapply sound_machine; [exact Hs|by apply wf_cancel|done|done|..].
    - intros Hr. by rewrite <- cancel_root.
    - intros j t' k n Hj Hst. left. destruct (spares_new _ _ Hsp j t' k n Hj Hst) as [(t & Ht & Hh)|Hlt].
      + exists t. done.
      + pose proof (wf_cancel _ Hw) as (ks & Hcore & _). destruct (core_tickets _ _ Hcore) as [Htk _].
        specialize (Htk _ _ Hj _ _ Hst). assert (ticket (cancel (run_machine r)) = ticket (run_machine r)) as Heq
          by (unfold cancel; by destruct (root_result _)). lia.
    - intros j t k n Hj Hst. right. by eapply spares_old. }
  apply wp_bind. eapply wp_mono; [apply (wp_for_each _ _ (fun s => sound [] s /\
    run_machine (fst s) = cancel (run_machine r) /\ len (run_pending (fst s)) = len (run_pending r)))| |done].
  - intros i s Hi (Hsi & Hm & Hl). apply elem_of_range in Hi. eapply wp_mono; [apply wp_cancel_call| |done].
    + done.
    + by rewrite Hl.
    + rewrite Hm. apply cancel_doomed.
    + intros [] s' (? & Hm' & Hl'). split_and!; [done|congruence..].
  - done.
  - intros [] [r2 w2] (Hs2 & _ & _). wp_step wp_self. apply wp_put_self. by destruct Hs2; split.
Qed.

(** *** Working *)

(** The result is the machine's, or the driver interrupted the execution. *)
Definition ends (out : ExecutionOutput) s : Prop :=
  exists result, concluded (fst s) result out s /\
    (root_result (run_machine (fst s)) = Some result \/
     exists e, gave_up e /\ result = interrupted_result (run_machine (fst s)) e).

Definition resolved (o : option ExecutionOutput) s : Prop :=
  match o with Some out => ends out s | None => sound [] s end.

Lemma wp_poll_or_interrupt i s :
  sound [] s -> i < len (run_pending (fst s)) ->
  wp (poll_or_interrupt display i) resolved (fun _ _ => False) s.
Proof.
  intros Hs Hi. apply wp_bind, wp_attempt. eapply wp_mono; [by apply wp_poll_call|by intros [] s'|].
  intros e [r w] [He Hs']. apply wp_bind.
  eapply wp_mono; [apply (wp_interrupt _ (fun _ _ => False)), (sound_ledger _ _ Hs')| |done].
  intros out s' Hc. apply wp_ret. eexists. split; [by eapply concluded_self|]. right. exists e.
  split; [done|]. by rewrite (concluded_machine _ _ _ _ Hc).
Qed.

Lemma wp_complete_or_fail i k event s :
  sound [i] s -> quiet i s -> is_pending (run_machine (fst s)) i k = true ->
  wp (complete_or_fail display i k event) resolved (fun _ _ => False) s.
Proof.
  intros Hs Hq Hp. apply wp_bind, wp_attempt. eapply wp_mono; [by apply wp_runtime_complete|by intros [] s'|done].
Qed.

(** A request is started with authority, or refused. *)
Lemma wp_dispatch q t n s :
  sound [request_task q] s -> quiet (request_task q) s ->
  get (tasks (run_machine (fst s))) (request_task q) = Some t ->
  task_state t = SWaiting (request_ticket q) n -> request_cleanup q = (0 <? task_cleaning t) ->
  is_pending (run_machine (fst s)) (request_task q) (request_ticket q) = true ->
  wp (dispatch display q) resolved (fun _ _ => False) s.
Proof.
  intros Hs Hq Ht Hst Hcl Hp. destruct s as [r w]. simpl in *. unfold dispatch. wp_step wp_self. simpl.
  rewrite (sound_program _ _ Hs : run_program r = program), (sound_handles _ _ Hs : run_handles r = handles).
  destruct (linked_authorize program (request_import q) handles) as [resource|fault] eqn:Hauth;
    [|by apply wp_complete_or_fail].
  destruct (sound_slot _ _ (request_task q) Hs) as [slot Hslot]; [by eapply get_Some_lt|]. simpl in Hslot.
  wp_step wp_slot_at; [done|]. wp_step wp_world. unfold set_slot. apply wp_bind. wp_step wp_self. apply wp_put_self.
  pose proof (ledger_call _ _ _ slot q resource (sound_ledger _ _ Hs) Hslot (Hq slot Hslot) Hauth) as HL.
  pose proof (get_Some_lt _ _ _ Hslot) as Hlt. apply wp_poll_or_interrupt; [|simpl; by rewrite len_upd].
  destruct Hs as [Hpr Hh Hun Hw Hid Hlen Htasks Hlive Hnodes Hserved _]. simpl in *. split; simpl; try done.
  - by rewrite len_upd.
  - intros j slot' Hj Hf. apply get_upd_inv in Hj as [[-> ->]|[_ Hj]]; [by exists t, n|by apply Hlive|done].
  - intros Hr j tj k m _ Htj Hstj. destruct (decide (j = request_task q)) as [->|Hne].
    + simplify_eq. right. eexists. simpl. rewrite get_upd_eq by done. split_and!; [done|simpl; congruence|by eexists|done].
    + destruct (Hserved Hr j tj k m) as [?|(slot' & ? & ?)]; [|done|done|by left|right].
      { by intros ?%list_elem_of_singleton. }
      exists slot'. simpl. by rewrite get_upd_ne.
Qed.

(** A cancelled request is released before it is answered. *)
Lemma wp_abandon i k s :
  sound [] s -> is_pending (run_machine (fst s)) i k = true ->
  wp (abandon display i k) resolved (fun _ _ => False) s.
Proof.
  intros Hs Hp. destruct s as [r w]. simpl in *. pose proof (pending_waits _ _ _ Hp) as (_ & t & n & Ht & Hst).
  destruct (sound_slot _ _ i Hs) as [slot Hslot]; [by eapply get_Some_lt|]. simpl in Hslot.
  unfold abandon. wp_step wp_slot_at; [done|]. destruct (N.eqb_spec (pending_ticket slot) k) as [Heq|Hne]; apply wp_bind.
  - eapply wp_release_slot; [done|apply (sound_ledger _ _ Hs)|]. intros u w' pending HL.
    destruct (sound_release _ _ _ _ _ _ _ Hs Hslot HL) as [Hs' Hq]. by apply wp_complete_or_fail.
  - apply wp_ret. apply wp_complete_or_fail;
      [|intros slot' Hs'; simpl in Hs'; assert (slot' = slot) as -> by congruence|done].
    + destruct Hs. split; try done. intros. eapply sound_served0; [done|apply not_elem_of_nil|done..].
    + destruct (pending_future slot) as [c|] eqn:Hc; [|done].
      destruct (sound_live _ _ Hs i slot Hslot ltac:(by rewrite Hc)) as (t' & n' & Ht' & Hst'). simpl in Ht'.
      simplify_eq. rewrite Hst in Hst'. congruence.
Qed.

(** One advance of the machine. *)
Definition advanced_by image x (a : Advance TaintedValue TaintedFailure) x' : Prop :=
  exists o, (wf x' /\ grows x x' /\ answers x o x') /\ undisturbed x o x' /\
    made_by (H := unit) image o (x', tt) /\ a = default AYielded o.

Lemma wp_advance_once image x :
  wf x -> image_id image = exec_image_id x ->
  wp (advance image 1) (fun a m => advanced_by image x a (fst m) /\
    (root_result x = None \/ exists result, a = ADone result)) (fun _ _ => False) (x, tt).
Proof.
  intros Hw Hid. unfold advance. wp_step wp_exec. rewrite bool_decide_true by done. cbn [negb].
  change (N.to_nat 1) with 1%nat. cbn [turns]. apply wp_bind.
  assert (wlp (turn image) (fun o _ => root_result x = None \/ exists result, o = Some (ADone result))
    (fun _ _ => True) (x, tt)) as Hroot.
  { destruct (root_result x) as [result|] eqn:Hr; [|unfold wlp; destruct (turn _ _); auto].
    unfold root_result in Hr. unfold turn. apply wlp_bind. unfold wlp at 1, task_at, bind. simpl.
    destruct (get (tasks x) 0) as [t|]; [|done]. simpl in *. rewrite Hr. apply wlp_ret. eauto. }
  eapply wp_mono; [eapply wp_and_wlp; [eapply wp_and_wlp; [by apply (wp_turn_spares image (fun _ _ => False))
    |apply wlp_turn_made]|exact Hroot]| |by intros e s' [[[] _] _]].
  intros o [x' []] [[[Ha Hu] Hm] Hr]. simpl in *.
  destruct o as [a|]; apply wp_ret; simpl; (split; [by eexists|]); destruct Hr as [?|[? [= ->]]]; eauto.
Qed.

(** The machine moved without issuing a ticket. *)
Lemma sound_spared r w x' :
  sound [] (r, w) -> wf x' -> grows (run_machine r) x' -> spares (run_machine r) x' ->
  ticket x' = ticket (run_machine r) -> root_result (run_machine r) = None ->
  sound [] (set_machine r x', w).
Proof.
  intros Hs Hw' Hg Hsp Htk Hr. eapply sound_machine; [exact Hs|done|apply Hg|apply Hg|done|..].
  - intros j t' k n Hj Hst. left. destruct (spares_new _ _ Hsp j t' k n Hj Hst) as [(t & Ht & Hh)|Hlt]; [by exists t|].
    destruct Hw' as (ks & Hcore & _). destruct (core_tickets _ _ Hcore) as [Hmax _].
    specialize (Hmax _ _ Hj _ _ Hst). lia.
  - intros j t k n Hj Hst. right. by eapply spares_old.
Qed.

(** The machine moved and made a request: no call is in the slot it will use. *)
Lemma sound_asked r w x' (q : Request TaintedValue) t' n' :
  sound [] (r, w) -> wf x' -> grows (run_machine r) x' -> spares (run_machine r) x' ->
  request_ticket q = ticket x' -> ticket x' = ticket (run_machine r) + 1 ->
  root_result (run_machine r) = None -> get (tasks x') (request_task q) = Some t' ->
  task_state t' = SWaiting (request_ticket q) n' -> is_Some (get (nodes (image_of r)) n') ->
  let s' := (set_machine r x', w) in sound [request_task q] s' /\ quiet (request_task q) s'.
Proof.
  intros Hs Hw' Hg Hsp Hq Htk Hr Ht' Hst' Hn' s'. pose proof (sound_wf _ _ Hs) as (ks0 & Hcore0 & _).
  destruct (core_tickets _ _ Hcore0) as [Hmax0 _]. simpl in Hmax0.
  destruct Hw' as (ks & Hcore & Hclean). destruct (core_tickets _ _ Hcore) as [Hmax Huniq]. split.
  - eapply sound_machine; [exact Hs|by exists ks|apply Hg|apply Hg|done|..].
    + intros j t k n Hj Hst. destruct (spares_new _ _ Hsp j t k n Hj Hst) as [(t0 & Ht & Hh)|Hlt].
      { left. exists t0. split_and!; [done|done|]. by intros ?%not_elem_of_nil. }
      right. specialize (Hmax _ _ Hj _ _ Hst). replace k with (request_ticket q) in Hst by lia.
      pose proof (Huniq _ _ _ _ _ _ _ Hj Ht' Hst Hst'). subst j. split; [by left|].
      assert (n = n') as -> by congruence.
      by rewrite <- (sound_program _ _ Hs).
    + intros j t k n Hj Hst. right. by eapply spares_old.
  - intros slot Hslot. simpl in Hslot. destruct (pending_future slot) as [c|] eqn:Hc; [|done].
    destruct (sound_live _ _ Hs _ slot Hslot ltac:(by rewrite Hc)) as (t & n & Ht & Hst). simpl in Ht.
    destruct (spares_old _ _ Hsp _ t _ n Ht Hst) as (t2 & Ht2 & Hh & _). simplify_eq.
    specialize (Hmax0 _ _ Ht _ _ Hst). rewrite Hst' in Hh. rewrite Hst in Hh. simplify_eq. lia.
Qed.

(** A machine that only waits has a call on its way. *)
Lemma blocked_calls r w :
  sound [] (r, w) -> root_result (run_machine r) = None -> waiting (run_machine r) ->
  (forall j t, get (tasks (run_machine r)) j = Some t -> blocked (run_machine r) t) ->
  0 < pending_calls r.
Proof.
  intros Hs Hr (i & k & t & n & Ht & Hst) Hall. pose proof (Hall i t Ht) as Hb.
  unfold blocked in Hb. rewrite Hst in Hb.
  destruct (sound_served _ _ Hs Hr i t k n (not_elem_of_nil _) Ht Hst) as [?|(slot & Hslot & _ & Hf & _)]; [done|].
  unfold pending_calls, len. simpl in Hslot. rewrite get_lookup in Hslot.
  apply list_elem_of_lookup_2 in Hslot.
  assert (slot ∈ filter (fun slot : PendingCall C => is_Some (pending_future slot)) (run_pending r)) as Hin
    by (by apply list_elem_of_filter).
  destruct (filter _ _); [by apply not_elem_of_nil in Hin|]. simpl. lia.
Qed.

Definition worked (o : option (option ExecutionOutput)) s : Prop :=
  match o with
  | Some o => resolved o s /\ (o = None -> 0 < pending_calls (fst s))
  | None => sound [] s
  end.

Lemma wp_work quantum s :
  sound [] s -> wp (work display quantum) worked (fun _ _ => False) s.
Proof.
  revert s. induction quantum as [|quantum IH]; intros s Hs; [done|]. destruct s as [r w]. cbn [work].
  wp_step wp_self. apply wp_bind, wp_on_machine.
  eapply wp_mono; [apply wp_advance_once; [apply (sound_wf _ _ Hs)|apply (sound_image _ _ Hs)]| |done].
  intros a [x' []] [(o & (Hw' & Hg & Ha) & Hu & Hm & ->) Hroot]. simpl in *.
  assert (forall c, wp c resolved (fun _ _ => False) (set_machine r x', w) ->
    wp (let* output := c in
        match output with Some output => ret (Some (Some output)) | None => work display quantum end)
      worked (fun _ _ => False) (set_machine r x', w)) as Hcont.
  { intros c Hc. apply wp_bind. eapply wp_mono; [exact Hc| |done]. intros [out|] s' Hs'; [done|by apply IH]. }
  destruct o as [[q|i k| | |result]|]; simpl in *; try done.
  - destruct Hroot as [Hroot|[? [=]]]. destruct Hu as (Hsp & Hq & Htk), Ha as (_ & Hp & _).
    destruct Hm as (t & n & Ht & Hst & Hn & Hcl).
    destruct (sound_asked r w x' q t n) as [Hs' Hquiet]; try done. apply Hcont. by eapply wp_dispatch.
  - destruct Hroot as [Hroot|[? [=]]]. destruct Hu as [Hsp Htk], Ha as [Hp _].
    apply Hcont, wp_abandon; [by apply sound_spared|done].
  - destruct Hroot as [Hroot|[? [=]]]. destruct Hu as (Hsp & Htk & Hall), Ha as [Hr' Hwait].
    pose proof (sound_spared r w x' Hs Hw' Hg Hsp Htk Hroot) as Hs'. wp_step wp_self. simpl.
    pose proof (blocked_calls _ _ Hs' Hr' Hwait Hall) as Hcalls. by rewrite (proj2 (N.ltb_lt _ _) Hcalls).
  - apply wp_bind. eapply wp_mono; [apply (wp_runtime_finish _ (fun _ _ => False)), (sound_ledger _ _ Hs)| |done].
    intros out s' Hc. apply wp_ret. split; [|done]. eexists. split; [by eapply concluded_self|]. left.
    rewrite (concluded_machine _ _ _ _ Hc). done.
  - destruct Hroot as [Hroot|[? [=]]]. destruct Hu as [Hsp Htk]. apply IH. by apply sound_spared.
Qed.

Lemma wp_poll_calls calls s :
  sound [] s -> (forall i, i ∈ calls -> i < size) ->
  wp (poll_calls display calls) resolved (fun _ _ => False) s.
Proof.
  revert s. induction calls as [|i calls IH]; intros s Hs Hall; [done|]. simpl. apply wp_bind.
  eapply wp_mono; [apply wp_poll_or_interrupt; [done|]| |done].
  { rewrite (sound_len _ _ Hs). apply Hall. by left. }
  intros [out|] s' Hs'; [done|]. apply IH; [done|]. intros j Hj. apply Hall. by right.
Qed.

(** Somebody will wake the executor: a call, the yield that is owed, or the waker just did. *)
Definition will_wake s : Prop :=
  0 < pending_calls (fst s) \/ is_Some (run_yielding (fst s)) \/ exists w, snd s = wake w.

(** The yields of the executor touch neither the machine nor the calls. *)
Lemma sound_yields ex r w w' y :
  sound ex (r, w) -> L (run_pending r) (run_unresolved r) w' -> sound ex (set_yielding r y, w').
Proof. intros [] HL. by split. Qed.

Lemma wp_still_yielding s :
  sound [] s ->
  wp still_yielding (fun owed s' => sound [] s' /\ (owed = true -> will_wake s')) (fun _ _ => False) s.
Proof.
  intros Hs. destruct s as [r w]. unfold still_yielding. wp_step wp_self. simpl.
  destruct (run_yielding r) as [y|]; [|done]. wp_step wp_world. simpl.
  pose proof (ledger_yield _ _ _ y (sound_ledger _ _ Hs)) as HL. simpl in HL.
  destruct (poll_yield y w) as [[ready y'] w']. simpl in *. wp_step wp_put_self. apply wp_ret.
  split; [by eapply sound_yields|]. destruct ready; [done|]. intros _. right. left. by eexists.
Qed.

Lemma wp_yield_quantum s :
  sound [] s -> wp yield_quantum (fun _ s' => sound [] s' /\ will_wake s') (fun _ _ => False) s.
Proof.
  intros Hs. destruct s as [r w]. unfold yield_quantum. wp_step wp_world. simpl.
  pose proof (ledger_cooperate _ _ _ (sound_ledger _ _ Hs)) as HL. simpl in HL.
  destruct (cooperate w) as [y w1]. simpl in *. wp_step wp_world. simpl.
  apply (ledger_yield _ _ _ y) in HL. destruct (poll_yield y w1) as [[[] y'] w2]; simpl in *.
  - apply wp_world. simpl. apply ledger_wake in HL. split; [by destruct Hs; split|]. right. right. by exists w2.
  - wp_step wp_self. apply wp_put_self. split; [by eapply sound_yields|]. right. left. by eexists.
Qed.

(** A poll of an unfinished execution. *)
Lemma wp_poll s :
  sound [] s ->
  wp (poll display) (fun o s' => resolved o s' /\ (o = None -> will_wake s')) (fun _ _ => False) s.
Proof.
  intros Hs. unfold poll. wp_step wp_self. rewrite (sound_unfinished _ _ Hs), (sound_len _ _ Hs).
  apply wp_bind. eapply wp_mono; [by apply wp_still_yielding| |done]. intros [] s1 [Hs1 Hwake]; [by split; [|auto]|].
  apply wp_bind. eapply wp_mono; [apply wp_poll_calls; [done|by intros i ?%elem_of_range]| |done].
  intros [out|] s2 Hs2; [done|]. apply wp_bind. eapply wp_mono; [by apply wp_work| |done].
  intros [o|] s3 Hs3; [split; [apply Hs3|]; intros ->; left; by apply Hs3|].
  apply wp_bind. eapply wp_mono; [by apply wp_yield_quantum| |done].
  intros [] s4 [Hs4 Hwake4]. by split.
Qed.
End invariant.
