(* ===== verification/RuntimeProps.v ===== *)
(** * What a hosted execution promises

    Over any sequence of polls, cancellations and changes of authority: the result is the
    machine's own, the executor is never left asleep, calls are started and polled only with
    authority, and each is accounted for once. *)

From stdpp Require Import base numbers list option strings.
From S2P Require Import Prelude Authority Program Frame Machine Link Text Value Source Taint Evidence.
From S2P Require Import MachineInv MachineStep MachineJoin MachineSafe MachineHost MachineProps ProvenanceProps.
From S2P Require Import Runtime RuntimeInv.

Local Open Scope N_scope.
Local Open Scope comp_scope.

(** ** Hosted executions *)
Section hosted.
Context (display : Failure -> text).
Context {W C Y : Type} `{!RequestDriver W C} `{!Waker W} `{!Cooperate W Y}.
Context (born : W -> Prop) (evolve : W -> W -> Prop).

#[local] Hint Extern 0 (Values unit TaintedValue TaintedFailure) =>
  exact (values display) : typeclass_instances.

Notation run := (LinkedExecution C Y * W)%type.

(** The runs of an embedding: it polls, cancels, and changes the authority table between
    polls; the world outside evolves. *)
Inductive hosted : run -> Prop :=
| hosted_new x program handles pending u quantum r w :
    reachable (x, tt) -> with_cooperate x program handles pending u quantum = Ok r -> born w ->
    hosted (r, w)
| hosted_poll s s' :
    hosted s -> poll display s = Val None s' -> hosted s'
| hosted_cancel s s' :
    hosted s -> runtime_cancel (X := Empty_set) s = Val tt s' -> hosted s'
| hosted_handles r w handles :
    hosted (r, w) -> hosted (set_handles r handles, w)
| hosted_world r w w' :
    hosted (r, w) -> evolve w w' -> hosted (r, w').

Section ledger.
Context (L : list (PendingCall C) -> UnresolvedOperations -> W -> Prop).
Context {HL : forall program handles, Ledger (Y := Y) program handles L}.
Context (Hborn : forall pending u w, born w -> Forall (fun slot => pending_future slot = None) pending ->
  L pending u w).
Context (Hevolve : forall pending u w w', evolve w w' -> L pending u w -> L pending u w').

Definition upheld (s : run) : Prop :=
  sound (run_program (fst s)) (run_handles (fst s)) L (len (run_pending (fst s))) [] s.

Lemma sound_upheld program handles size s : sound program handles L size [] s -> upheld s.
Proof.
  intros Hs. unfold upheld. rewrite (sound_program _ _ _ _ _ _ Hs), (sound_handles _ _ _ _ _ _ Hs).
  by rewrite (sound_len _ _ _ _ _ _ Hs).
Qed.

Lemma new_upheld x program handles pending u quantum r w :
  wf x -> with_cooperate x program handles pending u quantum = Ok r -> born w -> upheld (r, w).
Proof.
  intros Hw Hr Hb. unfold with_cooperate in Hr.
  destruct (bool_decide_reflect (exec_image_id x = image_id (linked_image program))) as [Hid|]; [|done].
  destruct (N.eqb_spec (len pending) (len (tasks x))) as [Hlen|]; [|done]. simpl in Hr.
  destruct (existsb _ _) eqn:Hex; [done|]. destruct (N.eqb_spec (len (pending_tickets (view x))) 0) as [Hno|]; [|done].
  simpl in Hr. injection Hr as <-.
  assert (forall i t k n, get (tasks x) i = Some t -> task_state t <> SWaiting k n) as Hidle.
  { intros i t k n Hi Hs. assert (k ∈ pending_tickets (view x)) as Hk.
    { unfold pending_tickets. apply list_elem_of_omap. exists t. rewrite get_lookup in Hi.
      split; [by apply list_elem_of_lookup_2 in Hi|]. unfold waiting_ticket. by rewrite Hs. }
    unfold len in Hno. destruct (pending_tickets (view x)); [by apply not_elem_of_nil in Hk|]. simpl in Hno. lia. }
  assert (Forall (fun slot : PendingCall C => pending_future slot = None) pending) as Hvac.
  { apply list.Forall_forall. intros slot Hin. destruct (pending_future slot) eqn:Hf; [|done].
    assert (existsb (fun slot => bool_decide (is_Some (pending_future slot))) pending = true) as Ht; [|by rewrite Ht in Hex].
    apply existsb_exists. exists slot. split; [by apply list_elem_of_In|]. rewrite Hf. by apply bool_decide_eq_true. }
  split; simpl; try done.
  - intros i slot Hi [c Hc]. rewrite list.Forall_forall in Hvac. rewrite get_lookup in Hi.
    apply list_elem_of_lookup_2 in Hi. by rewrite (Hvac slot Hi) in Hc.
  - intros i t k n Hi Hs. by destruct (Hidle i t k n Hi).
  - intros _ i t k n _ Hi Hs. by destruct (Hidle i t k n Hi).
  - by apply Hborn.
Qed.

Lemma hosted_upheld s : hosted s -> upheld s.
Proof.
  induction 1 as [x program handles pending u quantum r w Hx Hr Hb
    |s s' _ IH Hp|s s' _ IH Hc|r w handles _ IH|r w w' _ IH He].
  - apply reachable_wf in Hx. by eapply new_upheld.
  - destruct (wp_val _ _ _ _ _ _ (wp_poll display _ _ L _ _ IH) Hp) as [Hs _]. by eapply sound_upheld.
  - pose proof (wp_val _ _ _ _ _ _ (wp_runtime_cancel _ _ L _ (fun _ _ => True) _ IH) Hc) as Hs. cbv beta in Hs.
    by eapply sound_upheld.
  - by destruct IH; split.
  - destruct IH; split; try done. by eapply Hevolve.
Qed.
End ledger.
End hosted.

(** The execution can be polled by anyone, in any world. *)
Definition anyhow {W} (w w' : W) : Prop := True.
Definition anywhere {W} (w : W) : Prop := True.

Lemma quiet_no_calls {W C Y} (s : LinkedExecution C Y * W) :
  (forall j, quiet j s) -> pending_calls (fst s) = 0.
Proof.
  intros Hq. unfold pending_calls. destruct (filter _ _) as [|slot l] eqn:Hl; [done|].
  assert (slot ∈ slot :: l) as Hin by left. rewrite <- Hl in Hin.
  apply list_elem_of_filter in Hin as [Hf Hin]. apply list_elem_of_lookup_1 in Hin as [n Hn].
  rewrite (Hq (N.of_nat n) slot) in Hf; [by destruct Hf|].
  by rewrite get_lookup, Nat2N.id.
Qed.

(** C8: A hosted execution reports its machine's result. Whatever the driver, the waker and the
    embedding do between polls, polling an unfinished [LinkedExecution] never panics and never
    ends with a fault of the loop's own making: it ends, with every call released, with the
    result of the machine's root task or with the driver's own interruption; and when it is
    pending somebody will wake the executor: a call in flight, a yield that is owed, or the
    waker that was just woken. *)
Theorem poll_reports_the_machine (display : Failure -> text) {W C Y : Type} `{!RequestDriver W C}
    `{!Waker W} `{!Cooperate W Y} (s : LinkedExecution C Y * W) :
  hosted display anywhere anyhow s ->
  exists o s', poll display s = Val o s' /\
  match o with
  | None => run_finished (fst s') = false /\
      (0 < pending_calls (fst s') \/ is_Some (run_yielding (fst s')) \/ exists w, snd s' = wake w)
  | Some out => run_finished (fst s') = true /\ pending_calls (fst s') = 0 /\
      (root_result (run_machine (fst s')) = Some (fst (into_parts out)) \/
       exists e (c : C) (w : W), fst (fst (poll_future c w)) = Some (Err e) /\
         fst (into_parts out) = interrupted_result display (run_machine (fst s')) e)
  end.
Proof.
  intros Hs. pose proof (hosted_upheld display anywhere anyhow (fun _ _ _ => True) (HL := any_ledger)
    (fun _ _ _ _ _ => I) (fun _ _ _ _ _ _ => I) s Hs) as Hsound.
  destruct (wp_total _ _ _ _ (wp_poll display _ _ _ _ _ Hsound)) as (o & s' & Hp & Ho & Hwake).
  exists o, s'. split; [done|]. destruct o as [out|]; simpl in Ho.
  - destruct Ho as (result & [_ Hfin Hq (u & -> & _)] & Hres). rewrite into_parts_from_result.
    split_and!; [done|by apply quiet_no_calls|]. destruct Hres as [?|(e & (c & w & Hcw) & ->)]; [by left|].
    right. by exists e, c, w.
  - split; [apply Ho|by apply Hwake].
Qed.

(** ** An example

    The program of ProvenanceProps, its import bound to a handle of the demonstration table, under
    a driver whose calls answer two when they are polled for the second time, and which records
    an operation when a call is given up. *)

#[export] Instance patient_driver : RequestDriver unit bool := {|
  call _ _ w := (false, w);
  poll_future c w := (if c then Some (Ok (HComplete (Ok (pristine_value (VInt 2))))) else None, true, w);
  collect_evidence c completion u w :=
    (match completion with None => snd (record u (t "op")) | Some _ => u end, w)
|}.

#[export] Instance unit_waker : Waker unit := fun w => w.

Definition const_linked : LinkedProgram TaintedValue TaintedFailure :=
  mkLinked const_image [mkBinding (demo_key 2) 0] 3.

Definition const_run {C : Type} : LinkedExecution C bool :=
  mkRun const_start const_linked demo_table3 [vacant_call] None 8 false no_evidence.

Definition const_polled : LinkedExecution bool bool * unit :=
  left_by (poll no_display) (const_run, tt).

Lemma const_reachable : reachable (Values0 := values no_display) (const_start, tt).
Proof.
  eapply (reach_new const_image [default_task] [None] [] (mkLimits 1 0 None 1)
    (mkTainted (VInt 7) (taint_of ModelOutput)) 0).
  - vm_compute. reflexivity.
  - split; vm_compute; discriminate.
Qed.

Lemma const_hosted : hosted no_display anywhere anyhow const_polled.
Proof.
  eapply hosted_poll.
  - apply (hosted_new _ _ _ const_start const_linked demo_table3 [vacant_call] no_evidence 8 const_run tt const_reachable);
      [vm_compute; reflexivity|done].
  - vm_compute. reflexivity.
Qed.

Lemma poll_reports_the_machine_witness :
  pending_calls (fst const_polled) = 1 /\
  exists out s', poll no_display const_polled = Val (Some out) s' /\
    fst (into_parts out) = Ok (mkTainted (VInt 2) (mkTaintSet (Some [AuthorConstant; ModelOutput]))) /\
    pending_calls (fst s') = 0.
Proof.
  split; [vm_compute; reflexivity|].
  destruct (poll_reports_the_machine no_display const_polled const_hosted) as (o & s' & Hp & Ho).
  assert (exists out s1, poll no_display const_polled = Val (Some out) s1 /\
    fst (into_parts out) = Ok (mkTainted (VInt 2) (mkTaintSet (Some [AuthorConstant; ModelOutput]))))
    as (out & s1 & Hp' & Hout) by (do 2 eexists; split; vm_compute; reflexivity).
  rewrite Hp' in Hp. injection Hp as <- <-. destruct Ho as (_ & Hcalls & _).
  exists out, s1. split; [exact Hp'|]. split; [exact Hout|exact Hcalls].
Defined.
