(* ===== verification/RuntimeTrace.v ===== *)
(** * What a driver sees of a hosted execution

    Any driver can be made to keep a log of what the loop asks of it. The log shows that no call
    is started or polled without authority, and that the evidence of every call is collected
    exactly once. *)

From stdpp Require Import base numbers list option.
From S2P Require Import Prelude Authority Program Frame Machine Link Text Value Source Taint Evidence.
From S2P Require Import MachineInv MachineStep MachineJoin MachineSafe MachineHost MachineProps ProvenanceProps.
From S2P Require Import Runtime RuntimeInv RuntimeProps.

Local Open Scope N_scope.
Local Open Scope comp_scope.

(** ** Logs *)

Inductive event : Type :=
| Called (id resource : N) (request : Request TaintedValue)
| Polled (id : N)
| Collected (id : N).

(** A call with its number and the request it was made for. *)
Record tracked (C : Type) : Type := mkTracked {
  call_id : N;
  call_request : Request TaintedValue;
  tracked_call : C
}.
Arguments mkTracked {C} _ _ _.
Arguments call_id {C} _.
Arguments call_request {C} _.
Arguments tracked_call {C} _.

(** The numbers of the calls made, and of those whose evidence was collected. *)
Definition made (log : list event) : list N :=
  omap (fun e => match e with Called id _ _ => Some id | _ => None end) log.
Definition collected (log : list event) : list N :=
  omap (fun e => match e with Collected id => Some id | _ => None end) log.

(** The numbers of the calls in the slots. *)
Definition slot_call {C} (slot : PendingCall (tracked C)) : list N :=
  match pending_future slot with Some c => [call_id c] | None => [] end.
Definition in_flight {C} (pending : list (PendingCall (tracked C))) : list N := pending ≫= slot_call.

Section traced.
Context {W C Y : Type} `{!RequestDriver W C} `{!Waker W} `{!Cooperate W Y}.

(** The same driver, waker and scheduler, with a log. *)
#[export] Instance traced_driver : RequestDriver (W * list event) (tracked C) := {|
  call resource q w :=
    let id := len (made (snd w)) in
    let '(c, w') := call resource q (fst w) in
    (mkTracked id q c, (w', Called id resource q :: snd w));
  poll_future c w :=
    let '(answer, c', w') := poll_future (tracked_call c) (fst w) in
    (answer, mkTracked (call_id c) (call_request c) c', (w', Polled (call_id c) :: snd w));
  collect_evidence c completion u w :=
    let '(u', w') := collect_evidence (tracked_call c) completion u (fst w) in
    (u', (w', Collected (call_id c) :: snd w))
|}.

#[export] Instance traced_waker : Waker (W * list event) := fun w => (wake (fst w), snd w).

#[export] Instance traced_cooperate : Cooperate (W * list event) Y := {|
  cooperate w := let '(y, w') := cooperate (fst w) in (y, (w', snd w));
  poll_yield y w := let '(ready, y', w') := poll_yield y (fst w) in (ready, y', (w', snd w))
|}.

Implicit Types (pending : list (PendingCall (tracked C))) (slot : PendingCall (tracked C)).
Implicit Types (log : list event) (u : UnresolvedOperations) (w : W * list event).

(** ** Accounts *)

(** Every call in a slot was made for the slot's import. *)
Definition tagged pending log : Prop :=
  forall i slot c, get pending i = Some slot -> pending_future slot = Some c ->
    pending_import slot = request_import (call_request c) /\
    exists resource, Called (call_id c) resource (call_request c) ∈ log.

(** The calls made are those in flight and those collected, each once. *)
Record balanced pending u w : Prop := {
  balanced_calls : in_flight pending ++ collected (snd w) ≡ₚ made (snd w);
  balanced_once : NoDup (made (snd w));
  balanced_ids : Forall (fun id => id < len (made (snd w))) (made (snd w));
  balanced_tags : tagged pending (snd w)
}.

Lemma in_flight_upd pending i slot slot' :
  get pending i = Some slot ->
  in_flight (upd pending i slot') ++ slot_call slot ≡ₚ in_flight pending ++ slot_call slot'.
Proof.
  intros Hi. pose proof (get_Some_lt _ _ _ Hi) as Hlt. rewrite get_lookup in Hi. unfold upd, in_flight.
  rewrite <- (take_drop_middle pending (N.to_nat i) slot Hi) at 2.
  rewrite insert_take_drop by (unfold len in Hlt; lia). rewrite !bind_app, !bind_cons.
  rewrite <- !(assoc_L (++)). f_equiv. rewrite (Permutation_app_comm (slot_call slot')).
  rewrite <- (assoc_L (++)), (assoc_L (++) (slot_call slot)).
  rewrite (Permutation_app_comm (slot_call slot) (_ ≫= _)), <- (assoc_L (++)). f_equiv.
Qed.

Lemma tagged_upd pending i slot slot' log log' :
  get pending i = Some slot -> tagged pending log -> (forall e, e ∈ log -> e ∈ log') ->
  (forall c, pending_future slot' = Some c -> pending_import slot' = request_import (call_request c) /\
     exists resource, Called (call_id c) resource (call_request c) ∈ log') ->
  tagged (upd pending i slot') log'.
Proof.
  intros Hi Ht Hlog Hnew j s c Hj Hc. apply get_upd_inv in Hj as [[-> ->]|[_ Hj]]; [by apply Hnew| |by eapply get_Some_lt].
  destruct (Ht j s c Hj Hc) as (Him & resource & Hin). split; [done|]. eauto.
Qed.

#[export] Instance balanced_ledger program handles : Ledger (Y := Y) program handles balanced.
Proof.
  split; simpl.
  - intros pending u w slot q resource [Hb Ho Hid Ht] Hi Hf _.
    pose proof (in_flight_upd pending _ slot (mkPending (request_import q) (request_ticket q)
      (request_cleanup q) (Some (mkTracked (len (made (snd w))) q (fst (call resource q (fst w)))))) Hi) as Hup.
    destruct (call resource q (fst w)) as [c w'] eqn:Hcall. simpl in *.
    unfold slot_call in Hup at 1. rewrite Hf, app_nil_r in Hup. split; simpl.
    + rewrite Hup. unfold slot_call. simpl. rewrite <- (assoc_L (++)). simpl.
      rewrite <- Permutation_middle. by apply Permutation_skip.
    + constructor; [|done]. intros Hin. rewrite list.Forall_forall in Hid. specialize (Hid _ Hin). lia.
    + replace (len (_ :: made (snd w))) with (len (made (snd w)) + 1) by (unfold len; simpl; lia).
      constructor; [lia|]. eapply list.Forall_impl; [exact Hid|]. simpl. intros. lia.
    + eapply tagged_upd; [done|done|by intros; right|]. intros ? [= <-]. split; [done|]. eexists. left.
  - intros pending u w i slot c resource [Hb Ho Hid Ht] Hi Hf _.
    destruct (poll_future (tracked_call c) (fst w)) as [[answer c'] w'] eqn:Hpoll. simpl.
    pose proof (in_flight_upd pending i slot
      (with_future slot (Some (mkTracked (call_id c) (call_request c) c'))) Hi) as Hup.
    unfold slot_call in Hup. rewrite Hf in Hup. simpl in Hup. apply Permutation_app_inv_r in Hup.
    split; simpl; [by rewrite Hup|done|done|].
    eapply tagged_upd; [done|done|by intros; right|]. intros ? [= <-]. simpl.
    destruct (Ht i slot c Hi Hf) as (? & resource' & ?). split; [done|]. exists resource'. by right.
  - intros pending u w i slot c completion [Hb Ho Hid Ht] Hi Hf.
    destruct (collect_evidence (tracked_call c) completion u (fst w)) as [u' w'] eqn:Hcollect. simpl.
    pose proof (in_flight_upd pending i slot (with_future slot None) Hi) as Hup.
    unfold slot_call in Hup. rewrite Hf in Hup. simpl in Hup. rewrite app_nil_r in Hup.
    split; simpl; [|done|done|].
    + rewrite <- Hb, <- Hup, <- (assoc_L (++)). done.
    + eapply tagged_upd; [done|done|by intros; right|done].
  - by intros pending u w [].
  - intros pending u w []. by destruct (cooperate (fst w)).
  - intros pending u w y []. by destruct (poll_yield y (fst w)) as [[]].
Qed.

(** ** Authority *)

(** A call is started with authority for its resource, and polled while its import has
    authority. *)
Definition permitted (program : LinkedProgram TaintedValue TaintedFailure) (handles : HandleTable)
    log (e : event) : Prop :=
  match e with
  | Called _ resource q => linked_authorize program (request_import q) handles = Ok resource
  | Polled id => exists first q resource, Called id first q ∈ log /\
      linked_authorize program (request_import q) handles = Ok resource
  | Collected _ => True
  end.

(** Since [log], only what is permitted was done. *)
Definition lawful program handles log pending u w : Prop :=
  tagged pending (snd w) /\
  exists new, snd w = new ++ log /\ Forall (permitted program handles (snd w)) new.

Lemma permitted_grows program handles log log' e :
  (forall e, e ∈ log -> e ∈ log') -> permitted program handles log e -> permitted program handles log' e.
Proof. intros Hlog. destruct e; simpl; [done| |done]. intros (first & q & resource & ? & ?). eauto 6. Qed.

Lemma lawful_step program handles log pending pending' u u' w (w' : W) e :
  lawful program handles log pending u w -> tagged pending' (e :: snd w) ->
  permitted program handles (e :: snd w) e -> lawful program handles log pending' u' (w', e :: snd w).
Proof.
  intros (_ & new & Hnew & Hall) Ht He. split; [done|]. exists (e :: new). simpl. rewrite Hnew. split; [done|].
  rewrite <- Hnew. constructor; [done|]. eapply list.Forall_impl; [exact Hall|].
  intros e'. apply permitted_grows. by right.
Qed.

#[export] Instance lawful_ledger program handles log :
  Ledger (Y := Y) program handles (lawful program handles log).
Proof.
  split; simpl.
  - intros pending u w slot q resource Hl Hi Hf Ha. destruct (call resource q (fst w)) as [c w'] eqn:Hcall. simpl.
    eapply lawful_step; [done| |done]. eapply tagged_upd; [done|apply Hl|by intros; right|].
    intros ? [= <-]. split; [done|]. eexists. left.
  - intros pending u w i slot c resource Hl Hi Hf Ha. destruct (proj1 Hl i slot c Hi Hf) as (Him & first & Hin).
    destruct (poll_future (tracked_call c) (fst w)) as [[answer c'] w'] eqn:Hpoll. simpl.
    eapply lawful_step; [done| |].
    + eapply tagged_upd; [done|apply Hl|by intros; right|]. intros ? [= <-]. simpl. split; [done|].
      exists first. by right.
    + simpl. exists first, (call_request c), resource. rewrite <- Him. split; [by right|done].
  - intros pending u w i slot c completion Hl Hi Hf.
    destruct (collect_evidence (tracked_call c) completion u (fst w)) as [u' w'] eqn:Hcollect. simpl.
    eapply lawful_step; [done| |done]. eapply tagged_upd; [done|apply Hl|by intros; right|done].
  - by intros pending u w.
  - intros pending u w Hl. by destruct (cooperate (fst w)).
  - intros pending u w y Hl. by destruct (poll_yield y (fst w)) as [[]].
Qed.
(** ** What the log shows *)
Context (display : Failure -> text).

(** A new log, and a world that does not write it. *)
Definition unlogged w : Prop := snd w = [].
Definition same_log w w' : Prop := snd w' = snd w.

Notation hosted_traced := (hosted (C := tracked C) (Y := Y) display unlogged same_log).

Lemma vacant_in_flight pending :
  Forall (fun slot => pending_future slot = None) pending -> in_flight pending = [].
Proof.
  induction 1 as [|slot pending Hslot _ IH]; [done|]. unfold in_flight. csimpl. unfold slot_call at 1.
  by rewrite Hslot.
Qed.

Lemma quiet_in_flight (s : LinkedExecution (tracked C) Y * (W * list event)) :
  (forall j, quiet j s) -> in_flight (run_pending (fst s)) = [].
Proof.
  intros Hq. apply vacant_in_flight, list.Forall_forall. intros slot Hin.
  apply list_elem_of_lookup_1 in Hin as [n Hn]. apply (Hq (N.of_nat n)). by rewrite get_lookup, Nat2N.id.
Qed.

Lemma traced_upheld (s : LinkedExecution (tracked C) Y * (W * list event)) :
  hosted_traced s -> upheld balanced s.
Proof.
  apply (hosted_upheld display unlogged same_log balanced).
  - intros pending u w Hw Hvac. unfold unlogged in Hw. split; rewrite Hw; simpl; [|constructor..|].
    + by rewrite (vacant_in_flight _ Hvac).
    + intros i slot c Hi Hc. rewrite list.Forall_forall in Hvac. rewrite get_lookup in Hi.
      apply list_elem_of_lookup_2 in Hi. by rewrite (Hvac _ Hi) in Hc.
  - intros pending u w w' He []. unfold same_log in He. by split; rewrite He.
Qed.
End traced.

(** C14: No effect without authority. Whatever driver is asked, in one poll it is asked to start
    a call only for a request whose import the linked program's handle authorizes at that
    moment, with the resource of that handle, and to make progress with a call only while the
    import it was started for is still authorized: a handle that is revoked between two polls
    stops the calls in flight before they are polled again. *)
Theorem driver_acts_with_authority (display : Failure -> text) {W C Y : Type} `{!RequestDriver W C}
    `{!Waker W} `{!Cooperate W Y} (s s' : LinkedExecution (tracked C) Y * (W * list event)) o :
  hosted display unlogged same_log s -> poll display s = Val o s' ->
  exists new, snd (snd s') = new ++ snd (snd s) /\
    Forall (permitted (run_program (fst s)) (run_handles (fst s)) (snd (snd s'))) new.
Proof.
  intros Hs Hp. pose proof (traced_upheld display s Hs) as Hb. unfold upheld in Hb.
  assert (sound (run_program (fst s)) (run_handles (fst s))
    (lawful (run_program (fst s)) (run_handles (fst s)) (snd (snd s))) (len (run_pending (fst s))) [] s) as Hl.
  { destruct Hb as [??????????[]]. split; try done. split; [done|]. by exists []. }
  destruct (wp_val _ _ _ _ _ _ (wp_poll display _ _ _ _ _ Hl) Hp) as [Ho _].
  destruct o as [out|]; simpl in Ho.
  - destruct Ho as (result & [_ _ _ (u & _ & _ & Hnew)] & _). exact Hnew.
  - destruct (sound_ledger _ _ _ _ _ _ Ho) as [_ Hnew]. exact Hnew.
Qed.

(** C20: Every call is accounted for, once. At any time the calls a driver was asked to start are
    those in the slots and those whose evidence was collected, each exactly once; when the
    execution ends, or is dropped, the evidence of every call ever started has been collected. *)
Theorem every_call_is_collected_once (display : Failure -> text) {W C Y : Type} `{!RequestDriver W C}
    `{!Waker W} `{!Cooperate W Y} (s : LinkedExecution (tracked C) Y * (W * list event)) :
  hosted display unlogged same_log s ->
  NoDup (made (snd (snd s))) /\
  in_flight (run_pending (fst s)) ++ collected (snd (snd s)) ≡ₚ made (snd (snd s)) /\
  (forall out s', poll display s = Val (Some out) s' ->
     collected (snd (snd s')) ≡ₚ made (snd (snd s'))) /\
  (exists s', runtime_drop (X := Empty_set) s = Val tt s' /\
     collected (snd (snd s')) ≡ₚ made (snd (snd s'))).
Proof.
  intros Hs. pose proof (traced_upheld display s Hs) as Hb. unfold upheld in Hb.
  pose proof (sound_ledger _ _ _ _ _ _ Hb) as HL. split_and!; [apply HL|apply HL|..].
  - intros out s' Hp. destruct (wp_val _ _ _ _ _ _ (wp_poll display _ _ _ _ _ Hb) Hp) as [Ho _].
    destruct Ho as (result & [_ _ Hq (u & _ & HL')] & _). pose proof (balanced_calls _ _ _ HL') as Hc.
    by rewrite (quiet_in_flight _ Hq) in Hc.
  - destruct s as [r w]. destruct (wp_total _ _ _ _ (wp_release_all (run_program r) (run_handles r) balanced
      (fun _ _ => False) r w HL)) as ([] & s' & He & _ & Hq & HL').
    exists s'. split; [done|]. pose proof (balanced_calls _ _ _ HL') as Hc. by rewrite (quiet_in_flight _ Hq) in Hc.
Qed.

(** ** An example

    The run of RuntimeProps, logged. *)

#[local] Existing Instance traced_driver.
#[local] Existing Instance traced_cooperate.

Definition traced_start : LinkedExecution (tracked bool) bool * (unit * list event) := (const_run, (tt, [])).
Definition traced_polled : LinkedExecution (tracked bool) bool * (unit * list event) :=
  left_by (poll no_display) traced_start.

Lemma traced_start_hosted : hosted no_display unlogged same_log traced_start.
Proof.
  apply (hosted_new _ _ _ const_start const_linked demo_table3 [vacant_call] no_evidence 8 const_run (tt, [])
    const_reachable); [vm_compute; reflexivity|done].
Qed.

Lemma traced_polled_hosted : hosted no_display unlogged same_log traced_polled.
Proof. eapply hosted_poll; [exact traced_start_hosted|]. vm_compute. reflexivity. Qed.

Lemma driver_acts_with_authority_witness :
  exists resource q, snd (snd traced_polled) = [Polled 0; Called 0 resource q] /\
    linked_authorize const_linked (request_import q) demo_table3 = Ok resource.
Proof.
  assert (exists o, poll no_display traced_start = Val o traced_polled) as [o Hp]
    by (eexists; vm_compute; reflexivity).
  destruct (driver_acts_with_authority no_display traced_start traced_polled o traced_start_hosted Hp)
    as (new & Hnew & Hall).
  assert (exists resource q, snd (snd traced_polled) = [Polled 0; Called 0 resource q]) as (resource & q & Hlog)
    by (do 2 eexists; vm_compute; reflexivity).
  exists resource, q. split; [exact Hlog|]. rewrite Hlog in Hnew, Hall. simpl in Hnew. rewrite app_nil_r in Hnew.
  rewrite <- Hnew in Hall. inversion Hall as [|? ? _ Hrest]. inversion Hrest as [|? ? Hcalled _]. exact Hcalled.
Defined.

Lemma every_call_is_collected_once_witness :
  in_flight (run_pending (fst traced_polled)) = [0] /\
  in_flight (run_pending (fst traced_polled)) ++ collected (snd (snd traced_polled)) ≡ₚ
    made (snd (snd traced_polled)).
Proof.
  split; [vm_compute; reflexivity|].
  destruct (every_call_is_collected_once no_display traced_polled traced_polled_hosted) as (_ & Hcalls & _).
  exact Hcalls.
Defined.
